(* ===== verification/_CoqProject ===== *)
-Q . S2P
Prelude.v
StableSort.v
Text.v
Arithmetic.v
Fees.v
Slot0.v
State.v
Quote.v
GoldenVectors.v
Model.v
Correction.v
Ordering.v
Reducer.v
ReducerFacts.v
Abi.v
Rpc.v
RpcFacts.v
Fork.v
ForkFacts.v
IndexerTypes.v
Journal.v
JournalFacts.v
Validation.v
ValidationFacts.v
Engine.v
EngineFacts.v
Snapshot.v
SnapshotFacts.v
Generator.v
Ws.v
WsFacts.v
DurableEvent.v
DurableEventFacts.v
Redis.v
Outbox.v
OutboxFacts.v
