(* ===== verification/Prelude.v ===== *)
(** * LunarBase SDK: a verified model of the quote plane

    Placeholder header: completed at the end of the sitting. *)

From stdpp Require Export base tactics numbers list gmap strings sorting.
From Stdlib Require Export ZArith Lia Sorting.Sorted.

#[global] Open Scope Z_scope.

(** ** Results

    Rust's [Result<T, E>]; the error type comes first so that [result E] is a
    monad, with stdpp's [x ← m; k] as the [?] operator. *)

Inductive result (E A : Type) : Type :=
| Ok (a : A)
| Err (e : E).
Arguments Ok {E A} a.
Arguments Err {E A} e.

#[export] Instance result_ret E : MRet (result E) := fun A a => Ok a.
#[export] Instance result_bind E : MBind (result E) := fun A B f m =>
  match m with
  | Ok a => f a
  | Err e => Err e
  end.
#[export] Instance result_fmap E : FMap (result E) := fun A B f m =>
  match m with
  | Ok a => Ok (f a)
  | Err e => Err e
  end.

#[export] Instance result_eq_dec `{EqDecision E, EqDecision A} :
  EqDecision (result E A).
Proof. solve_decision. Defined.

(** [opt.ok_or(e)] *)
Definition ok_or {E A} (o : option A) (e : E) : result E A :=
  match o with
  | Some a => Ok a
  | None => Err e
  end.

(** [res.map_err(f)] *)
Definition map_err {E F A} (f : E -> F) (m : result E A) : result F A :=
  match m with
  | Ok a => Ok a
  | Err e => Err (f e)
  end.

(** [res.ok()] *)
Definition result_ok {E A} (m : result E A) : option A :=
  match m with
  | Ok a => Some a
  | Err _ => None
  end.

(** [opt.is_some()] *)
Definition is_some {A} (o : option A) : bool :=
  match o with
  | Some _ => true
  | None => false
  end.

Lemma is_some_true {A} (o : option A) : is_some o = true <-> exists a, o = Some a.
Proof. destruct o; naive_solver. Qed.

Definition is_ok {E A} (m : result E A) : bool :=
  match m with
  | Ok _ => true
  | Err _ => false
  end.

Lemma bind_ok {E A B} (m : result E A) (f : A -> result E B) b :
  m ≫= f = Ok b <-> exists a, m = Ok a /\ f a = Ok b.
Proof. destruct m; naive_solver. Qed.

Lemma bind_err {E A B} (m : result E A) (f : A -> result E B) e :
  m ≫= f = Err e <-> m = Err e \/ exists a, m = Ok a /\ f a = Err e.
Proof. destruct m; naive_solver. Qed.

Lemma unit_bind_ok {E A} (m : result E unit) (k : result E A) a :
  (m ≫= fun _ => k) = Ok a <-> m = Ok tt /\ k = Ok a.
Proof. rewrite bind_ok. split; [intros ([] & ?)|]; naive_solver. Qed.

Lemma ok_or_ok {E A} (o : option A) (e : E) a : ok_or o e = Ok a <-> o = Some a.
Proof. destruct o; naive_solver. Qed.

Lemma map_err_ok {E F A} (f : E -> F) (m : result E A) a :
  map_err f m = Ok a <-> m = Ok a.
Proof. destruct m; naive_solver. Qed.

(** ** Methods on [&mut self]

    A fallible method that takes [&mut self] returns its result together with
    the object it leaves behind, on the error path too: what a failing call has
    already written stays written. *)

Definition method (S E A : Type) : Type := S -> result E A * S.

#[export] Instance method_ret S E : MRet (method S E) := fun A a s => (Ok a, s).
#[export] Instance method_bind S E : MBind (method S E) := fun A B f m s =>
  match m s with
  | (Ok a, s') => f a s'
  | (Err e, s') => (Err e, s')
  end.

Definition get {S E} : method S E S := fun s => (Ok s, s).
Definition put {S E} (s' : S) : method S E unit := fun _ => (Ok tt, s').
Definition modify {S E} (f : S -> S) : method S E unit := fun s => (Ok tt, f s).
Definition fail {S E A} (e : E) : method S E A := fun s => (Err e, s).
Definition lift {S E A} (m : result E A) : method S E A := fun s => (m, s).

(** A method of a field, run on the enclosing object, with the error converted
    by the [From] instance of the caller's error type. *)
Definition on_field {S T E F A} (get_field : S -> T) (set_field : T -> S -> S)
    (into : F -> E) (m : method T F A) : method S E A :=
  fun s => let '(r, t) := m (get_field s) in (map_err into r, set_field t s).

Lemma get_bind {S E A} (k : S -> method S E A) s : (get ≫= k) s = k s s.
Proof. done. Qed.

Lemma method_bind_ok {S E A B} (m : method S E A) (f : A -> method S E B) s b s' :
  (m ≫= f) s = (Ok b, s') <->
  exists a s1, m s = (Ok a, s1) /\ f a s1 = (Ok b, s').
Proof.
  unfold mbind, method_bind. destruct (m s) as [[a|e] s1]; naive_solver.
Qed.

Lemma method_bind_err {S E A B} (m : method S E A) (f : A -> method S E B) s e s' :
  (m ≫= f) s = (Err e, s') <->
  m s = (Err e, s') \/ exists a s1, m s = (Ok a, s1) /\ f a s1 = (Err e, s').
Proof.
  unfold mbind, method_bind. destruct (m s) as [[a|e0] s1]; naive_solver.
Qed.

(** ** Asynchronous procedures

    An [async fn] that talks to the outside world and loops until it is answered:
    it returns its result with the state it leaves behind, and [None] stands for a
    call whose fuel ran out, which the totality theorems rule out. *)

Definition proc (S E A : Type) : Type := S -> option (result E A * S).

#[export] Instance proc_ret S E : MRet (proc S E) := fun A a s => Some (Ok a, s).
#[export] Instance proc_bind S E : MBind (proc S E) := fun A B f m s =>
  match m s with
  | Some (Ok a, s') => f a s'
  | Some (Err e, s') => Some (Err e, s')
  | None => None
  end.

(** A method, or a plain result, as a step of a procedure. *)
Definition call {S E A} (m : method S E A) : proc S E A := fun s => Some (m s).
Definition attempt {S E A} (m : result E A) : proc S E A := call (lift m).
Definition stop {S E A} (e : E) : proc S E A := call (fail e).
Definition out_of_fuel {S E A} : proc S E A := fun _ => None.

(** [fut.await.map_err(f)] *)
Definition map_perr {S E F A} (f : E -> F) (m : proc S E A) : proc S F A := fun s =>
  '(r, s') ← m s; Some (map_err f r, s').

(** The result of a procedure is inspected instead of propagated. *)
Definition try_proc {S E F A} (m : proc S E A) : proc S F (result E A) := fun s =>
  '(r, s') ← m s; Some (Ok r, s').

Lemma proc_bind_ok {S E A B} (m : proc S E A) (f : A -> proc S E B) s b s' :
  (m ≫= f) s = Some (Ok b, s') <->
  exists a s1, m s = Some (Ok a, s1) /\ f a s1 = Some (Ok b, s').
Proof. unfold mbind, proc_bind. destruct (m s) as [[[a|e] s1]|]; naive_solver. Qed.

Lemma attempt_ok {S E A} (m : result E A) (s : S) a s' :
  attempt m s = Some (Ok a, s') <-> m = Ok a /\ s' = s.
Proof. unfold attempt, call, lift. naive_solver. Qed.

Lemma map_perr_ok {S E F A} (f : E -> F) (m : proc S E A) s a s' :
  map_perr f m s = Some (Ok a, s') <-> m s = Some (Ok a, s').
Proof. unfold map_perr. destruct (m s) as [[[b|e] s1]|]; cbn; naive_solver. Qed.

(** A procedure that returns, whatever it returns, from every state. *)
Definition returns {S E A} (m : proc S E A) : Prop := forall s, exists r, m s = Some r.

Lemma returns_bind {S E A B} (m : proc S E A) (f : A -> proc S E B) :
  returns m -> (forall a, returns (f a)) -> returns (m ≫= f).
Proof.
  intros Hm Hf s. unfold mbind, proc_bind. destruct (Hm s) as [[[a|e] s'] ->]; [apply Hf|by eexists].
Qed.

Lemma returns_bind_ok {S E A B} (m : proc S E A) (f : A -> proc S E B) :
  returns m -> (forall s a s', m s = Some (Ok a, s') -> returns (f a)) -> returns (m ≫= f).
Proof.
  intros Hm Hf s. unfold mbind, proc_bind.
  destruct (Hm s) as [[[a|e] s'] Hr]; rewrite Hr; [by apply (Hf s a s')|by eexists].
Qed.

Lemma returns_call {S E A} (m : method S E A) : returns (call m).
Proof. intros s. by eexists. Qed.

Lemma returns_ret {S E A} (a : A) : returns (mret a : proc S E A).
Proof. intros s. by eexists. Qed.

Lemma returns_map_perr {S E F A} (f : E -> F) (m : proc S E A) : returns m -> returns (map_perr f m).
Proof. intros Hm s. unfold map_perr. destruct (Hm s) as [[r s'] ->]. by eexists. Qed.

Lemma returns_attempt {S E A} (m : result E A) : returns (attempt m : proc S E A).
Proof. apply returns_call. Qed.

Lemma returns_stop {S E A} (e : E) : returns (stop e : proc S E A).
Proof. apply returns_call. Qed.

Lemma returns_try {S E F A} (m : proc S E A) : returns m -> returns (try_proc (F := F) m).
Proof. intros Hm s. unfold try_proc. destruct (Hm s) as [[r s'] ->]. by eexists. Qed.

(** ** Machine integers

    An unsigned integer of [w] bits is a [Z] in range; the operations are the
    Rust methods of the same name. *)

Definition uint (w x : Z) : Prop := 0 <= x < 2 ^ w.

#[export] Instance uint_dec w x : Decision (uint w x).
Proof. unfold uint. apply _. Defined.

Definition uint_max (w : Z) : Z := 2 ^ w - 1.

Definition uint_checked_add (w x y : Z) : option Z :=
  if x + y <? 2 ^ w then Some (x + y) else None.
Definition uint_checked_sub (x y : Z) : option Z :=
  if y <=? x then Some (x - y) else None.
Definition uint_checked_mul (w x y : Z) : option Z :=
  if x * y <? 2 ^ w then Some (x * y) else None.
Definition uint_saturating_add (w x y : Z) : Z := Z.min (x + y) (uint_max w).
Definition uint_saturating_sub (x y : Z) : Z := Z.max 0 (x - y).
Definition uint_saturating_mul (w x y : Z) : Z := Z.min (x * y) (uint_max w).
Definition uint_wrapping_mul (w x y : Z) : Z := (x * y) mod 2 ^ w.
Definition uint_abs_diff (x y : Z) : Z := Z.abs (x - y).

(** [usize] is 64 bits wide on every supported target. *)
Abbreviation USIZE := 64 (only parsing).
Abbreviation U64_MAX := (uint_max 64) (only parsing).
Abbreviation U32_MAX := (uint_max 32) (only parsing).
Abbreviation U8_MAX := (uint_max 8) (only parsing).

Lemma uint_checked_add_Some w x y z :
  uint_checked_add w x y = Some z <-> z = x + y /\ x + y < 2 ^ w.
Proof. unfold uint_checked_add. case_match; naive_solver lia. Qed.

Lemma uint_checked_sub_Some x y z :
  uint_checked_sub x y = Some z <-> z = x - y /\ y <= x.
Proof. unfold uint_checked_sub. case_match; naive_solver lia. Qed.

Lemma uint_checked_mul_Some w x y z :
  uint_checked_mul w x y = Some z <-> z = x * y /\ x * y < 2 ^ w.
Proof. unfold uint_checked_mul. case_match; naive_solver lia. Qed.

(** ** Primitive EVM values

    Addresses (20 bytes), hashes and topics (32 bytes) are the numerals their
    big-endian bytes spell; the code compares them and takes their bytes. *)

Abbreviation Address := Z (only parsing).
Abbreviation B256 := Z (only parsing).
Abbreviation U256 := Z (only parsing).
Definition Address_ZERO : Address := 0.
Definition B256_ZERO : B256 := 0.

(** [x.to_be_bytes()] and the big-endian [as_slice()] of an address or hash. *)
Fixpoint be_bytes (n : nat) (x : Z) : list Z :=
  match n with
  | O => []
  | S n' => be_bytes n' (x / 256) ++ [x mod 256]
  end.

Lemma be_bytes_length n x : length (be_bytes n x) = n.
Proof.
  revert x. induction n as [|n IH]; intros x; [done|].
  cbn [be_bytes]. rewrite length_app, IH. cbn. lia.
Qed.

Lemma be_bytes_inj n x y :
  0 <= x < 256 ^ Z.of_nat n -> 0 <= y < 256 ^ Z.of_nat n -> be_bytes n x = be_bytes n y -> x = y.
Proof.
  revert x y. induction n as [|n IH]; intros x y Hx Hy H; [cbn in *; lia|].
  cbn [be_bytes] in H. apply app_inj_tail in H as [H Hm].
  rewrite Nat2Z.inj_succ, Z.pow_succ_r in Hx, Hy by lia.
  assert (x / 256 = y / 256) as Hd.
  { apply IH; [..|done]; (split; [apply Z.div_pos; lia|apply Z.div_lt_upper_bound; lia]). }
  pose proof (Z.div_mod x 256 ltac:(lia)). pose proof (Z.div_mod y 256 ltac:(lia)). lia.
Qed.

Lemma be_bytes_app m n x :
  be_bytes (m + n) x = be_bytes m (x / 256 ^ Z.of_nat n) ++ be_bytes n x.
Proof.
  revert x. induction n as [|n IH]; intros x.
  - by rewrite Nat.add_0_r, Z.pow_0_r, Z.div_1_r, app_nil_r.
  - rewrite Nat.add_succ_r. cbn [be_bytes]. rewrite IH, Nat2Z.inj_succ, Z.pow_succ_r by lia.
    by rewrite app_assoc, Z.div_div by lia.
Qed.

Lemma be_bytes_zero n : be_bytes n 0 = repeat 0 n.
Proof.
  induction n as [|n IH]; [done|]. cbn [be_bytes]. change (0 / 256) with 0. rewrite IH.
  symmetry. apply repeat_cons.
Qed.

(** [from_be_bytes] *)
Definition be_value (bytes : list Z) : Z := foldl (fun acc b => acc * 256 + b) 0 bytes.

Lemma be_value_snoc l b : be_value (l ++ [b]) = be_value l * 256 + b.
Proof. unfold be_value. by rewrite foldl_app. Qed.

Lemma be_value_be_bytes n x : 0 <= x < 256 ^ Z.of_nat n -> be_value (be_bytes n x) = x.
Proof.
  revert x. induction n as [|n IH]; intros x Hx; [cbn in *; lia|].
  cbn [be_bytes]. rewrite be_value_snoc, Nat2Z.inj_succ, Z.pow_succ_r in * by lia.
  rewrite IH by (split; [apply Z.div_pos; lia|apply Z.div_lt_upper_bound; lia]).
  pose proof (Z.div_mod x 256 ltac:(lia)). lia.
Qed.

(** The bytes of an ASCII string literal. *)
Definition ascii_bytes (s : string) : list Z :=
  (fun a => Z.of_N (Ascii.N_of_ascii a)) <$> String.list_ascii_of_string s.

(** Keccak-256, supplied by the [alloy_primitives] crate. *)
Class Keccak := keccak256 : list Z -> B256.

(** ** Loops over lists *)

(** [iter().all()] and [any()] against the propositions they decide. *)
Lemma forallb_Forall_iff {A} (f : A -> bool) (P : A -> Prop) l :
  (forall x, x ∈ l -> f x = true <-> P x) -> forallb f l = true <-> Forall P l.
Proof.
  intros H. rewrite forallb_forall, Forall_forall. setoid_rewrite <-list_elem_of_In. naive_solver.
Qed.

Lemma existsb_Exists_iff {A} (f : A -> bool) (P : A -> Prop) l :
  (forall x, x ∈ l -> f x = true <-> P x) -> existsb f l = true <-> Exists P l.
Proof.
  intros H. rewrite existsb_exists, Exists_exists. setoid_rewrite <-list_elem_of_In. naive_solver.
Qed.

Lemma existsb_false_iff {A} (f : A -> bool) (P : A -> Prop) l :
  (forall x, x ∈ l -> f x = true <-> P x) -> existsb f l = false <-> Forall (fun x => ~ P x) l.
Proof.
  intros H. rewrite <-not_true_iff_false, (existsb_Exists_iff _ _ _ H).
  rewrite Forall_forall, Exists_exists. naive_solver.
Qed.

Lemma list_filter_nil {A} (P : A -> Prop) `{forall x, Decision (P x)} (l : list A) :
  Forall (fun x => ~ P x) l -> base.filter P l = [].
Proof. induction 1 as [|x l Hx _ IH]; [done|]. by rewrite filter_cons_False. Qed.

(** A fallible loop over a slice: [for x in xs { step(acc, x)?; }]. *)
Fixpoint try_fold {E A B} (step : B -> A -> result E B) (acc : B) (xs : list A) : result E B :=
  match xs with
  | [] => Ok acc
  | x :: xs => acc ← step acc x; try_fold step acc xs
  end.

Lemma try_fold_app {E A B} (step : B -> A -> result E B) acc xs ys :
  try_fold step acc (xs ++ ys) = (acc' ← try_fold step acc xs; try_fold step acc' ys).
Proof.
  revert acc. induction xs as [|x xs IH]; intros acc; [done|]. cbn [app try_fold].
  destruct (step acc x); cbn [mbind result_bind]; [apply IH|done].
Qed.

(** ** Tactics *)

(** Break a hypothesis [m = Ok x] (or its state-passing form) along the binds
    of the code it comes from. *)
Ltac inv_bind :=
  repeat match goal with
  | H : mbind _ _ = Ok _ |- _ => apply bind_ok in H as (? & ? & H)
  | H : mbind _ _ _ = (Ok _, _) |- _ => apply method_bind_ok in H as (? & ? & ? & H)
  | H : mbind _ _ _ = Some (Ok _, _) |- _ => apply proc_bind_ok in H as (? & ? & ? & H)
  | H : attempt _ _ = Some (Ok _, _) |- _ => apply attempt_ok in H as [? ->]
  | H : map_perr _ _ _ = Some (Ok _, _) |- _ => apply map_perr_ok in H
  | H : ok_or _ _ = Ok _ |- _ => apply ok_or_ok in H
  | H : map_err _ _ = Ok _ |- _ => apply map_err_ok in H
  | H : Ok _ = Ok _ |- _ => injection H as H
  | H : Err _ = Ok _ |- _ => discriminate H
  | H : Ok _ = Err _ |- _ => discriminate H
  end.

(** Case analysis on every guard of a hypothesis, dropping impossible branches. *)
Ltac guards H :=
  repeat (case_match; try discriminate H; simplify_eq/=).

(** Run the method combinators. *)
Ltac mred := cbv [mbind method_bind get lift modify fail mret method_ret put].

(** Reduce binds on known results and nothing else. *)
Ltac bsimpl :=
  cbn [mbind result_bind fmap result_fmap mret result_ret ok_or map_err result_ok is_ok
       orb andb negb].
