(* ===== verification/StableSort.v ===== *)
(** * Stable sorting by key

    The standard library's [slice::sort_by_key], which every component that
    orders logs, updates or blocks calls: a rearrangement of its input, sorted by
    key, in which elements with the same key keep their order. *)

From S2P Require Import Prelude.

(** A comparison that orders its keys strictly and totally, as a derived [Ord]
    does. *)
Class TotalKey {K : Type} (ltb : K -> K -> bool) := {
  key_irreflexive k : ltb k k = false;
  key_transitive x y z : ltb x y = true -> ltb y z = true -> ltb x z = true;
  key_total x y : ltb x y = false -> x = y \/ ltb y x = true
}.

Section Sort.
Context {A K : Type} (ltb : K -> K -> bool) (key : A -> K).

(** An element goes in front of its equals, so inserting from the right is
    stable. *)
Fixpoint sort_insert (x : A) (l : list A) : list A :=
  match l with
  | [] => [x]
  | y :: rest => if ltb (key y) (key x) then y :: sort_insert x rest else x :: l
  end.

Definition sort_by_key (l : list A) : list A := foldr sort_insert [] l.

Definition key_le (x y : A) : Prop := key x = key y \/ ltb (key x) (key y) = true.

Context `{EqDecision K}.

(** The stable sort of [l]: a sorted rearrangement that keeps the order of
    elements with the same key. *)
Record sorted_copy (l l' : list A) : Prop := {
  copy_permutation : l' ≡ₚ l;
  copy_sorted : StronglySorted key_le l';
  copy_stable : forall k, base.filter (fun x => key x = k) l' = base.filter (fun x => key x = k) l
}.

Context `{!TotalKey ltb}.

Lemma key_le_trans x y z : key_le x y -> key_le y z -> key_le x z.
Proof.
  unfold key_le. intros [E|H] [E'|H'].
  - left. congruence.
  - right. by rewrite E.
  - right. by rewrite <-E'.
  - right. by apply (key_transitive _ (key y)).
Qed.

Lemma sort_insert_sorted x l : StronglySorted key_le l -> sorted_copy (x :: l) (sort_insert x l).
Proof.
  induction 1 as [|y l Hs IH Hy]; cbn [sort_insert]; [split; [done|by repeat constructor|done]|].
  destruct (ltb (key y) (key x)) eqn:E.
  - destruct IH as [Hp' Hs' Hk']. split.
    + rewrite Hp'. apply perm_swap.
    + constructor; [done|]. apply Forall_forall. intros z. rewrite Hp', elem_of_cons.
      intros [->|Hz]; [by right|]. rewrite Forall_forall in Hy. auto.
    + intros k. rewrite filter_cons, Hk', !filter_cons.
      destruct (decide (key y = k)) as [<-|]; [|done].
      destruct (decide (key x = key y)) as [Hxy|]; [|done].
      rewrite Hxy, key_irreflexive in E. done.
  - apply key_total in E as E'. assert (key_le x y) as Hxy by (destruct E' as [|]; [by left|by right]).
    split; [done| |done]. constructor; [by constructor|]. constructor; [done|].
    eapply Forall_impl; [exact Hy|]. intros z Hz. by apply (key_le_trans x y).
Qed.

Lemma sort_by_key_sorted l : sorted_copy l (sort_by_key l).
Proof.
  induction l as [|x l [Hp Hs Hk]]; [split; [done|constructor|done]|].
  destruct (sort_insert_sorted x _ Hs) as [Hp' Hs' Hk'].
  split; [by cbn; rewrite Hp', Hp|done|]. intros k. cbn [sort_by_key foldr].
  by rewrite Hk', !filter_cons, Hk.
Qed.

Lemma sort_by_key_permutation l : sort_by_key l ≡ₚ l.
Proof. apply sort_by_key_sorted. Qed.

Lemma elem_of_sort_by_key x l : x ∈ sort_by_key l <-> x ∈ l.
Proof. by rewrite sort_by_key_permutation. Qed.

(** Sorting a list that is already in order changes nothing. *)
Lemma sort_by_key_id l : StronglySorted key_le l -> sort_by_key l = l.
Proof.
  induction 1 as [|x l Hs IH Hx]; [done|]. cbn [sort_by_key foldr]. fold (sort_by_key l). rewrite IH.
  destruct l as [|y l]; [done|]. cbn [sort_insert]. apply Forall_inv in Hx as [E|H].
  - by rewrite E, key_irreflexive.
  - destruct (ltb (key y) (key x)) eqn:E; [|done].
    pose proof (key_transitive _ _ _ H E) as Hc. by rewrite key_irreflexive in Hc.
Qed.

End Sort.

#[export] Instance Z_total_key : TotalKey Z.ltb.
Proof.
  split.
  - apply Z.ltb_irrefl.
  - intros x y z. rewrite !Z.ltb_lt. lia.
  - intros x y. rewrite Z.ltb_ge, Z.ltb_lt. lia.
Qed.
