(* ===== verification/Text.v ===== *)
(** * Text: case folding, substrings and hexadecimal quantities

    The standard library's string operations the transports use, and the
    [0x]-prefixed quantities of Ethereum JSON-RPC: [format!("0x{:x}", n)] writes
    the one canonical numeral of [n], and the strict reader accepts exactly those
    numerals, in either case. *)

From S2P Require Import Prelude.

Local Open Scope string_scope.
Local Open Scope Z_scope.

Definition char_code (a : Ascii.ascii) : Z := Z.of_N (Ascii.N_of_ascii a).
Definition char_of (n : Z) : Ascii.ascii := Ascii.ascii_of_N (Z.to_N n).

(** [to_ascii_lowercase] *)
Definition char_lower (a : Ascii.ascii) : Ascii.ascii :=
  let n := char_code a in
  if (65 <=? n) && (n <=? 90) then char_of (n + 32) else a.

Fixpoint to_ascii_lowercase (s : string) : string :=
  match s with
  | EmptyString => EmptyString
  | String a s => String (char_lower a) (to_ascii_lowercase s)
  end.

(** [s.contains(needle)] *)
Definition contains (needle s : string) : bool := is_some (String.index 0 needle s).

(** [s.strip_prefix(prefix)] *)
Fixpoint strip_prefix (prefix s : string) : option string :=
  match prefix, s with
  | EmptyString, _ => Some s
  | String a prefix, String b s => if Ascii.eqb a b then strip_prefix prefix s else None
  | String _ _, EmptyString => None
  end.

Definition starts_with (prefix s : string) : bool := is_some (strip_prefix prefix s).

(** ** Digits *)

(** The base-16 digits of a number, most significant first. *)
Fixpoint digits16 (fuel : nat) (n : Z) : list Z :=
  match fuel with
  | O => []
  | S fuel => if n <? 16 then [n] else digits16 fuel (n / 16) ++ [n mod 16]
  end.

Definition digit_char (d : Z) : Ascii.ascii := char_of (if d <? 10 then 48 + d else 87 + d).

(** [char::to_digit(16)]: both cases. *)
Definition char_digit (a : Ascii.ascii) : option Z :=
  let n := char_code a in
  if (48 <=? n) && (n <=? 57) then Some (n - 48)
  else if (97 <=? n) && (n <=? 102) then Some (n - 87)
  else if (65 <=? n) && (n <=? 70) then Some (n - 55)
  else None.

Definition is_ascii_hexdigit (a : Ascii.ascii) : bool := is_some (char_digit a).

Definition string_of (l : list Ascii.ascii) : string := String.string_of_list_ascii l.
Definition chars (s : string) : list Ascii.ascii := String.list_ascii_of_string s.

(** [{:x}] of a [u64]: sixteen digits are enough. *)
Definition lower_hex (n : Z) : string := string_of (digit_char <$> digits16 16 n).

(** [format!("0x{:x}", n)] *)
Definition hex_quantity (n : Z) : string := "0x" +:+ lower_hex n.

(** [{:#x}] of an address or hash: two digits per byte. *)
Definition hex_bytes (bytes : nat) (x : Z) : string :=
  "0x" +:+ string_of (digit_char <$> (be_bytes bytes x ≫= fun b => [b / 16; b mod 16])).

Definition digits_value (ds : list Z) : Z := foldl (fun acc d => 16 * acc + d) 0 ds.

(** [u64::from_str_radix(digits, 16)] on digits the caller has checked: [None] is
    an overflow or a digit it has not. *)
Definition u64_from_hex (digits : string) : option Z :=
  ds ← mapM char_digit (chars digits);
  let n := digits_value ds in
  if n <? 2 ^ 64 then Some n else None.

(** The checks of [validate_canonical_hex_u64] on the text of a quantity. *)
Inductive HexError := NotCanonical | ExceedsUint64.

Definition canonical_hex_u64 (s : string) : result HexError Z :=
  digits ← ok_or (digits ← strip_prefix "0x" s;
                  if String.eqb digits "" then None else Some digits) NotCanonical;
  if (Nat.ltb 1 (String.length digits) && starts_with "0" digits)
     || negb (forallb is_ascii_hexdigit (chars digits))
  then Err NotCanonical
  else ok_or (u64_from_hex digits) ExceedsUint64.

(** ** Lemmas *)

Lemma chars_string_of l : chars (string_of l) = l.
Proof. apply String.list_ascii_of_string_of_list_ascii. Qed.

Lemma string_of_chars s : string_of (chars s) = s.
Proof. apply String.string_of_list_ascii_of_string. Qed.

Lemma chars_inj s t : chars s = chars t -> s = t.
Proof. intros H. by rewrite <-(string_of_chars s), H, string_of_chars. Qed.

Lemma chars_lower s : chars (to_ascii_lowercase s) = char_lower <$> chars s.
Proof. induction s as [|a s IH]; [done|]. cbn. by f_equal. Qed.

Lemma chars_length s : length (chars s) = String.length s.
Proof. induction s as [|a s IH]; [done|]. cbn. by f_equal. Qed.

Lemma strip_prefix_Some p s d : strip_prefix p s = Some d <-> s = p +:+ d.
Proof.
  revert s. induction p as [|a p IH]; intros s; cbn; [naive_solver|].
  destruct s as [|b s]; [done|]. destruct (Ascii.eqb_spec a b) as [->|Hn].
  - rewrite IH. split; [by intros ->|by intros [= ->]].
  - split; [done|]. intros [= -> _]. done.
Qed.

Lemma starts_with_true p s : starts_with p s = true <-> exists d, s = p +:+ d.
Proof.
  unfold starts_with. rewrite is_some_true.
  split; intros [d H]; exists d; by apply strip_prefix_Some.
Qed.

Definition digit (d : Z) : Prop := 0 <= d < 16.

(** The digits a canonical numeral has. *)
Definition canonical (ds : list Z) : Prop :=
  ds <> [] /\ Forall digit ds /\ ((1 < length ds)%nat -> head ds <> Some 0).

Lemma digits_value_snoc ds d : digits_value (ds ++ [d]) = 16 * digits_value ds + d.
Proof. unfold digits_value. by rewrite foldl_app. Qed.

Lemma digits_value_nonneg ds : Forall digit ds -> 0 <= digits_value ds.
Proof.
  induction ds as [|d ds IH] using rev_ind; [done|].
  rewrite Forall_app, Forall_singleton, digits_value_snoc. unfold digit. intros [? ?]. specialize (IH ltac:(done)). lia.
Qed.

Lemma digits_value_zero ds : Forall digit ds -> digits_value ds = 0 -> Forall (eq 0) ds.
Proof.
  induction ds as [|d ds IH] using rev_ind; [done|].
  rewrite !Forall_app, !Forall_singleton, digits_value_snoc. unfold digit. intros [Hd Hl] Hz.
  pose proof (digits_value_nonneg _ Hd). split; [apply IH; [done|lia]|lia].
Qed.

(** Every number has one canonical numeral, the one the formatter writes. *)
Lemma digits16_spec fuel n :
  0 <= n < 16 ^ Z.of_nat fuel -> (0 < fuel)%nat ->
  canonical (digits16 fuel n) /\ digits_value (digits16 fuel n) = n.
Proof.
  revert n. induction fuel as [|fuel IH]; intros n Hn Hf; [lia|]. cbn [digits16].
  destruct (Z.ltb_spec n 16) as [Hs|Hs].
  { split; [|done]. split_and!; [done|apply Forall_singleton; unfold digit; lia|cbn; lia]. }
  rewrite Nat2Z.inj_succ, Z.pow_succ_r in Hn by lia.
  assert (0 <= n / 16 < 16 ^ Z.of_nat fuel) as Hq.
  { split; [apply Z.div_pos; lia|apply Z.div_lt_upper_bound; lia]. }
  assert (1 <= n / 16) by (apply Z.div_le_lower_bound; lia).
  destruct fuel as [|fuel]; [cbn in Hq; lia|].
  destruct (IH (n / 16) Hq ltac:(lia)) as [(Hne & Hd & Hh) Hv].
  pose proof (Z.div_mod n 16 ltac:(lia)). pose proof (Z.mod_pos_bound n 16 ltac:(lia)).
  set (q := digits16 (S fuel) (n / 16)) in *.
  split; [|rewrite digits_value_snoc; lia]. split_and!.
  - by destruct q.
  - apply Forall_app. split; [done|]. apply Forall_singleton. unfold digit. lia.
  - intros _. destruct q as [|x [|y q]]; [done| |].
    + cbn in *. unfold digits_value in Hv. cbn in Hv. intros [= ->]. lia.
    + cbn in *. apply Hh. lia.
Qed.

Lemma canonical_snoc ds d : canonical (ds ++ [d]) -> ds <> [] -> canonical ds /\ 0 < digits_value ds.
Proof.
  intros (_ & [Hd _]%Forall_app & Hh) Hne. destruct ds as [|x ds]; [done|].
  assert (x <> 0) as Hx.
  { intros ->. apply Hh; [|done]. rewrite length_app. cbn. lia. }
  split; [split_and!; [done|done|cbn; congruence]|].
  pose proof (digits_value_nonneg _ Hd) as Hp. destruct (Z.eq_dec (digits_value (x :: ds)) 0) as [E|]; [|lia].
  apply digits_value_zero, Forall_cons in E as [<- _]; done.
Qed.

Lemma digits16_value fuel ds :
  canonical ds -> digits_value ds < 16 ^ Z.of_nat fuel -> (0 < fuel)%nat ->
  digits16 fuel (digits_value ds) = ds.
Proof.
  revert fuel. induction ds as [|d ds IH] using rev_ind; intros fuel Hc Hv Hf; [by destruct Hc|].
  pose proof Hc as (_ & [Hds [Hd _]%Forall_cons]%Forall_app & _). unfold digit in Hd.
  rewrite digits_value_snoc in *. destruct fuel as [|fuel]; [lia|]. cbn [digits16].
  destruct (decide (ds = [])) as [->|Hne].
  { unfold digits_value. cbn [foldl app]. destruct (Z.ltb_spec (16 * 0 + d) 16); [f_equal; lia|lia]. }
  destruct (canonical_snoc _ _ Hc Hne) as [Hc' Hpos].
  destruct (Z.ltb_spec (16 * digits_value ds + d) 16); [lia|].
  rewrite Nat2Z.inj_succ, Z.pow_succ_r in Hv by lia.
  assert ((16 * digits_value ds + d) / 16 = digits_value ds) as ->.
  { symmetry. apply (Z.div_unique _ 16 _ d); lia. }
  assert ((16 * digits_value ds + d) mod 16 = d) as ->.
  { symmetry. apply (Z.mod_unique _ 16 (digits_value ds)); lia. }
  f_equal. apply IH; [done|lia|].
  destruct fuel; [cbn in Hv; lia|lia].
Qed.

#[global] Opaque digits16.

Definition all_chars : list Ascii.ascii := (fun n => char_of (Z.of_nat n)) <$> seq 0 256.
Definition all_digits : list Z := Z.of_nat <$> seq 0 16.

Lemma all_chars_complete a : a ∈ all_chars.
Proof.
  apply list_elem_of_fmap. exists (N.to_nat (Ascii.N_of_ascii a)). split.
  - unfold char_of. rewrite N_nat_Z, N2Z.id. by rewrite Ascii.ascii_N_embedding.
  - apply elem_of_seq. pose proof (Ascii.N_ascii_bounded a). lia.
Qed.

Lemma all_digits_complete d : digit d -> d ∈ all_digits.
Proof.
  intros [? ?]. apply list_elem_of_fmap. exists (Z.to_nat d). split; [lia|]. apply elem_of_seq. lia.
Qed.

(** Reading a digit is folding its case and looking it up in the formatter's table. *)
Lemma char_digit_table :
  forallb (fun a => forallb (fun d =>
    Bool.eqb (bool_decide (char_digit a = Some d)) (bool_decide (char_lower a = digit_char d)))
    all_digits && match char_digit a with Some d => bool_decide (d ∈ all_digits) | None => true end)
    all_chars = true.
Proof. vm_compute. reflexivity. Qed.

Lemma char_digit_Some a d : char_digit a = Some d <-> digit d /\ char_lower a = digit_char d.
Proof.
  pose proof char_digit_table as T. rewrite forallb_forall in T.
  specialize (T a (proj1 (list_elem_of_In _ _) (all_chars_complete a))).
  apply andb_true_iff in T as [T Tr]. rewrite forallb_forall in T.
  assert (char_digit a = Some d -> digit d) as Hr.
  { intros E. rewrite E, bool_decide_eq_true in Tr. apply list_elem_of_fmap in Tr as (k & -> & Hk).
    apply elem_of_seq in Hk. unfold digit. lia. }
  split.
  - intros E. split; [by apply Hr|].
    specialize (T d (proj1 (list_elem_of_In _ _) (all_digits_complete _ (Hr E)))).
    by rewrite E, bool_decide_true in T by done; apply eqb_prop, eq_sym, bool_decide_eq_true in T.
  - intros [Hd E]. specialize (T d (proj1 (list_elem_of_In _ _) (all_digits_complete _ Hd))).
    rewrite (bool_decide_true (_ = digit_char d)) in T by done.
    by apply eqb_prop, bool_decide_eq_true in T.
Qed.

Lemma mapM_char_digit s ds :
  mapM char_digit s = Some ds <-> Forall digit ds /\ char_lower <$> s = digit_char <$> ds.
Proof.
  rewrite mapM_Some. split.
  - induction 1 as [|a d s ds Had _ IH]; [done|]. apply char_digit_Some in Had as [Hd E].
    destruct IH as [IH1 IH2]. split; [by constructor|]. rewrite !fmap_cons. by f_equal.
  - revert ds. induction s as [|a s IH]; intros [|d ds] [Hds E]; try done.
    apply Forall_cons in Hds as [Hd Hds]. injection E as E1 E2.
    constructor; [by apply char_digit_Some|by apply IH].
Qed.

(** What the strict reader accepts: the canonical numeral, in either case. *)
Definition spells (s : string) (n : Z) : Prop :=
  uint 64 n /\ exists digits, s = "0x" +:+ digits /\ to_ascii_lowercase digits = lower_hex n.

Lemma all_hexdigits s : forallb is_ascii_hexdigit s = true <-> is_Some (mapM char_digit s).
Proof.
  rewrite mapM_is_Some, forallb_forall, Forall_forall. unfold is_ascii_hexdigit.
  setoid_rewrite is_some_true. unfold is_Some. by setoid_rewrite <-list_elem_of_In.
Qed.

Lemma leading_zero s ds :
  mapM char_digit s = Some ds -> starts_with "0" (string_of s) = true <-> head ds = Some 0.
Proof.
  rewrite starts_with_true, mapM_char_digit. intros [Hds E].
  destruct s as [|a s], ds as [|d ds]; try done; cbn [head].
  { split; [intros [t Ht]|]; done. }
  injection E as E _. apply Forall_cons in Hds as [Hd _].
  assert (char_digit a = Some d) as Ha by (by apply char_digit_Some).
  split.
  - intros [t [= -> _]]. vm_compute in Ha. congruence.
  - intros [= ->]. exists (string_of s). apply char_digit_Some in Ha as [_ Ha].
    enough (a = char_of 48) as -> by done. revert Ha. destruct a as [[] [] [] [] [] [] [] []]; vm_compute; congruence.
Qed.

Lemma mapM_digit_char ds : Forall digit ds -> mapM char_digit (digit_char <$> ds) = Some ds.
Proof.
  intros Hds. apply mapM_Some. induction Hds as [|d ds Hd _ IH]; [constructor|].
  rewrite fmap_cons. constructor; [|done].
  assert (forallb (fun d => bool_decide (char_digit (digit_char d) = Some d)) all_digits = true) as T
    by (vm_compute; reflexivity).
  rewrite forallb_forall in T. apply (bool_decide_eq_true_1 _), T, list_elem_of_In.
  by apply all_digits_complete.
Qed.

Lemma canonical_hex_digits digits ds n :
  mapM char_digit (chars digits) = Some ds -> digits <> "" ->
  (negb (Nat.ltb 1 (String.length digits) && starts_with "0" digits) = true
   /\ digits_value ds = n /\ n < 2 ^ 64)
  <-> uint 64 n /\ to_ascii_lowercase digits = lower_hex n.
Proof.
  intros Hm Hne. pose proof (proj1 (mapM_char_digit _ _) Hm) as [Hd E].
  rewrite <-(string_of_chars digits) at 2. rewrite negb_true_iff, <-not_true_iff_false.
  rewrite andb_true_iff, (leading_zero _ _ Hm), Nat.ltb_lt, <-chars_length.
  rewrite <-(length_fmap char_lower), E, length_fmap. split.
  - intros (Hz & <- & Hlt). pose proof (digits_value_nonneg _ Hd).
    split; [done|]. apply chars_inj. rewrite chars_lower, E. unfold lower_hex.
    rewrite chars_string_of, digits16_value; [done| |done|lia].
    split_and!; [|done|tauto]. intros ->. destruct digits; [done|]. cbn in E. done.
  - intros [Hn Hl]. apply (f_equal chars) in Hl.
    rewrite chars_lower, E in Hl. unfold lower_hex in Hl. rewrite chars_string_of in Hl.
    destruct (digits16_spec 16 n Hn ltac:(lia)) as [(Hc1 & Hc2 & Hc3) Hv].
    assert (ds = digits16 16 n) as ->.
    { pose proof (mapM_digit_char _ Hd) as H1. rewrite Hl, (mapM_digit_char _ Hc2) in H1.
      by injection H1 as ->. }
    unfold uint in Hn. tauto.
Qed.

Lemma canonical_hex_u64_iff s n : canonical_hex_u64 s = Ok n <-> spells s n.
Proof.
  unfold canonical_hex_u64, spells. destruct (strip_prefix "0x" s) as [digits|] eqn:Es; cbn [mbind option_bind].
  2: { split; [done|]. intros (_ & d & H & _). apply strip_prefix_Some in H. congruence. }
  apply strip_prefix_Some in Es as ->.
  assert ((exists d, "0x" +:+ digits = "0x" +:+ d /\ to_ascii_lowercase d = lower_hex n)
          <-> to_ascii_lowercase digits = lower_hex n) as ->.
  { split; [intros (d & [= Hd] & H); change (digits = d) in Hd; by subst d|intros H; by exists digits]. }
  destruct (String.eqb_spec digits "") as [->|Hne]; bsimpl.
  { split; [done|]. intros [Hn H]. destruct (digits16_spec 16 n Hn ltac:(lia)) as [(Hc & _) _].
    apply (f_equal chars) in H. unfold lower_hex in H. rewrite chars_string_of in H.
    by destruct (digits16 16 n). }
  unfold u64_from_hex. destruct (mapM char_digit (chars digits)) as [ds|] eqn:Hm.
  - assert (forallb is_ascii_hexdigit (chars digits) = true) as -> by (apply all_hexdigits; eauto).
    rewrite <-(canonical_hex_digits _ _ n Hm Hne), orb_false_r. cbn [mbind option_bind].
    destruct (_ && _); bsimpl; [naive_solver|].
    destruct (Z.ltb_spec (digits_value ds) (2 ^ 64)); bsimpl; naive_solver lia.
  - assert (forallb is_ascii_hexdigit (chars digits) = false) as ->.
    { apply not_true_iff_false. rewrite all_hexdigits, Hm. by intros []. }
    rewrite orb_true_r. split; [done|]. intros [Hn H].
    apply (f_equal chars) in H. rewrite chars_lower in H. unfold lower_hex in H.
    rewrite chars_string_of in H.
    destruct (digits16_spec 16 n Hn ltac:(lia)) as [(_ & Hc & _) _].
    assert (mapM char_digit (chars digits) = Some (digits16 16 n)) by (by apply mapM_char_digit).
    congruence.
Qed.

(** What the formatter writes is read back. *)
Lemma lower_hex_lower n : uint 64 n -> to_ascii_lowercase (lower_hex n) = lower_hex n.
Proof.
  intros Hn. apply chars_inj. rewrite chars_lower. unfold lower_hex. rewrite chars_string_of.
  destruct (digits16_spec 16 n Hn ltac:(lia)) as [(_ & Hd & _) _].
  by apply mapM_digit_char, mapM_char_digit in Hd as [_ ?].
Qed.

Lemma hex_quantity_roundtrip n : uint 64 n -> canonical_hex_u64 (hex_quantity n) = Ok n.
Proof.
  intros Hn. apply canonical_hex_u64_iff. split; [done|]. exists (lower_hex n).
  split; [done|by apply lower_hex_lower].
Qed.
