(* ===== verification/Arithmetic.v ===== *)
(** * Fixed-width arithmetic (crates/lunarbase-math/src/arithmetic.rs, types.rs)

    The checked and full-width primitives of the quote engine, on [Z] with the
    256- and 512-bit bounds written out. *)

From S2P Require Import Prelude.

(** types.rs: typed failure at a Solidity-compatible boundary. *)
Inductive MathError :=
| DivisionByZero
| Overflow
| FieldOverflow (field : string) (bits : Z).

#[export] Instance MathError_eq_dec : EqDecision MathError.
Proof. solve_decision. Defined.

Definition WAD : U256 := 1000000000000000000.
Definition BPS : U256 := 1000000.
Definition SLIPPAGE_SCALE : U256 := 10.
Definition MAX_SLIPPAGE_BPS : U256 := 100000.

Definition checked_add (x y : U256) : result MathError U256 :=
  ok_or (uint_checked_add 256 x y) Overflow.
Definition checked_sub (x y : U256) : result MathError U256 :=
  ok_or (uint_checked_sub x y) Overflow.
Definition checked_mul (x y : U256) : result MathError U256 :=
  ok_or (uint_checked_mul 256 x y) Overflow.

Definition ceil_div (x denominator : U256) : result MathError U256 :=
  if denominator =? 0 then Err DivisionByZero
  else
    let quotient := x / denominator in
    let remainder := x mod denominator in
    if remainder =? 0 then Ok quotient else checked_add quotient 1.

(** [U256::checked_from_limbs_slice] on the limbs of a 512-bit quotient. *)
Definition checked_from_limbs_slice (quotient : Z) : option U256 :=
  if quotient <? 2 ^ 256 then Some quotient else None.

Definition full_mul_div_down (x y denominator : U256) : result MathError U256 :=
  if denominator =? 0 then Err DivisionByZero
  else
    let product := x * y in
    let quotient := product / denominator in
    ok_or (checked_from_limbs_slice quotient) Overflow.

Definition full_mul_div_up (x y denominator : U256) : result MathError U256 :=
  if denominator =? 0 then Err DivisionByZero
  else
    let product := x * y in
    let quotient := product / denominator in
    let remainder := product mod denominator in
    quotient ←
      (if negb (remainder =? 0)
       then ok_or (uint_checked_add 512 quotient 1) Overflow
       else Ok quotient);
    ok_or (checked_from_limbs_slice quotient) Overflow.

Definition mul_div_down_256 (x y denominator : U256) : result MathError U256 :=
  if denominator =? 0 then Err DivisionByZero
  else product ← checked_mul x y; Ok (product / denominator).

(** ** Reference arithmetic

    [cdiv a b] is the exact ceiling of [a / b] over unbounded integers. *)

Definition cdiv (a b : Z) : Z := - ((- a) / b).

Lemma cdiv_spec a b : 0 < b -> b * (cdiv a b - 1) < a <= b * cdiv a b.
Proof.
  intros Hb. unfold cdiv.
  pose proof (Z.div_mod (- a) b ltac:(lia)). pose proof (Z.mod_pos_bound (- a) b Hb).
  lia.
Qed.

Lemma cdiv_unique a b q : 0 < b -> b * (q - 1) < a <= b * q -> cdiv a b = q.
Proof. intros Hb Hq. pose proof (cdiv_spec a b Hb). nia. Qed.

Lemma cdiv_le_iff a b q : 0 < b -> cdiv a b <= q <-> a <= b * q.
Proof. intros Hb. pose proof (cdiv_spec a b Hb). split; nia. Qed.

Lemma div_ge_iff a b q : 0 < b -> q <= a / b <-> b * q <= a.
Proof.
  intros Hb. split; intros H.
  - pose proof (Z.mul_div_le a b Hb). nia.
  - apply Z.div_le_lower_bound; lia.
Qed.

Lemma cdiv_eq_div a b :
  0 < b -> cdiv a b = if a mod b =? 0 then a / b else a / b + 1.
Proof.
  intros Hb. apply cdiv_unique; [done|].
  pose proof (Z.div_mod a b ltac:(lia)). pose proof (Z.mod_pos_bound a b Hb).
  destruct (Z.eqb_spec (a mod b) 0); lia.
Qed.

Lemma cdiv_nonneg a b : 0 < b -> 0 <= a -> 0 <= cdiv a b.
Proof. intros Hb Ha. pose proof (cdiv_spec a b Hb). nia. Qed.

Lemma cdiv_pos a b : 0 < b -> 0 < a -> 0 < cdiv a b.
Proof. intros Hb Ha. pose proof (cdiv_spec a b Hb). nia. Qed.

Lemma cdiv_0 b : 0 < b -> cdiv 0 b = 0.
Proof. intros Hb. apply cdiv_unique; lia. Qed.

Lemma cdiv_mono a a' b : 0 < b -> a <= a' -> cdiv a b <= cdiv a' b.
Proof. intros Hb Ha. apply cdiv_le_iff; [done|]. pose proof (cdiv_spec a' b Hb). lia. Qed.

Lemma cdiv_cdiv a b c : 0 < b -> 0 < c -> cdiv (cdiv a b) c = cdiv a (b * c).
Proof.
  intros Hb Hc. apply cdiv_unique; [done|].
  pose proof (cdiv_spec a (b * c) ltac:(nia)). pose proof (cdiv_spec a b Hb). nia.
Qed.

Lemma div_le_cdiv a b : 0 < b -> a / b <= cdiv a b.
Proof. intros Hb. rewrite cdiv_eq_div by done. case_match; lia. Qed.

(** ** What the primitives compute *)

Lemma checked_add_ok x y z : checked_add x y = Ok z <-> z = x + y /\ x + y < 2 ^ 256.
Proof. unfold checked_add. rewrite ok_or_ok. apply uint_checked_add_Some. Qed.

Lemma checked_sub_ok x y z : checked_sub x y = Ok z <-> z = x - y /\ y <= x.
Proof. unfold checked_sub. rewrite ok_or_ok. apply uint_checked_sub_Some. Qed.

Lemma checked_mul_ok x y z : checked_mul x y = Ok z <-> z = x * y /\ x * y < 2 ^ 256.
Proof. unfold checked_mul. rewrite ok_or_ok. apply uint_checked_mul_Some. Qed.

Lemma checked_add_eq x y : x + y < 2 ^ 256 -> checked_add x y = Ok (x + y).
Proof. intros H. by apply checked_add_ok. Qed.

Lemma checked_sub_eq x y : y <= x -> checked_sub x y = Ok (x - y).
Proof. intros H. by apply checked_sub_ok. Qed.

Lemma checked_mul_eq x y : x * y < 2 ^ 256 -> checked_mul x y = Ok (x * y).
Proof. intros H. by apply checked_mul_ok. Qed.

Lemma full_mul_div_down_eq x y d :
  0 < d ->
  full_mul_div_down x y d =
    if x * y / d <? 2 ^ 256 then Ok (x * y / d) else Err Overflow.
Proof.
  intros Hd. unfold full_mul_div_down, checked_from_limbs_slice.
  destruct (Z.eqb_spec d 0); [lia|]. by case_match.
Qed.

Lemma full_mul_div_up_eq x y d :
  uint 256 x -> uint 256 y -> 0 < d ->
  full_mul_div_up x y d =
    if cdiv (x * y) d <? 2 ^ 256 then Ok (cdiv (x * y) d) else Err Overflow.
Proof.
  intros [Hx Hx'] [Hy Hy'] Hd. unfold full_mul_div_up, checked_from_limbs_slice.
  destruct (Z.eqb_spec d 0); [lia|].
  rewrite cdiv_eq_div by done.
  destruct (x * y mod d =? 0) eqn:Hm; cbn [negb mbind result_bind]; [by case_match|].
  unfold uint_checked_add.
  assert (x * y < 2 ^ 256 * 2 ^ 256) by (apply Z.mul_lt_mono_nonneg; lia).
  assert (x * y / d <= x * y) by (apply Z.div_le_upper_bound; nia).
  destruct (Z.ltb_spec (x * y / d + 1) (2 ^ 512)); [cbn; by case_match|].
  replace (2 ^ 512) with (2 ^ 256 * 2 ^ 256) in * by reflexivity. cbn.
  destruct (Z.ltb_spec (x * y / d + 1) (2 ^ 256)); [|done].
  pose proof (Z.pow_pos_nonneg 2 256). nia.
Qed.

Lemma ceil_div_eq x d :
  uint 256 x -> 0 < d -> ceil_div x d = if cdiv x d <? 2 ^ 256 then Ok (cdiv x d) else Err Overflow.
Proof.
  intros [Hx Hx'] Hd. unfold ceil_div.
  destruct (Z.eqb_spec d 0); [lia|]. rewrite cdiv_eq_div by done.
  assert (x / d <= x) by (apply Z.div_le_upper_bound; nia).
  destruct (x mod d =? 0).
  - destruct (Z.ltb_spec (x / d) (2 ^ 256)); [done|lia].
  - unfold checked_add, uint_checked_add. by case_match.
Qed.

Lemma ceil_div_ok x d : uint 256 x -> 0 < d -> ceil_div x d = Ok (cdiv x d).
Proof.
  intros Hx Hd. rewrite ceil_div_eq by done. destruct Hx.
  destruct (Z.ltb_spec (cdiv x d) (2 ^ 256)) as [|Hbig]; [done|].
  assert (cdiv x d <= x) by (apply cdiv_le_iff; nia). lia.
Qed.

(** [full_mul_div_down] and [full_mul_div_up] at a bound that is known to fit. *)
Lemma full_mul_div_down_ok x y d :
  0 < d -> x * y / d < 2 ^ 256 -> full_mul_div_down x y d = Ok (x * y / d).
Proof. intros Hd Hq. rewrite full_mul_div_down_eq by done. case_match; [done|lia]. Qed.

Lemma full_mul_div_up_ok x y d :
  uint 256 x -> uint 256 y -> 0 < d -> cdiv (x * y) d < 2 ^ 256 ->
  full_mul_div_up x y d = Ok (cdiv (x * y) d).
Proof. intros Hx Hy Hd Hq. rewrite full_mul_div_up_eq by done. case_match; [done|lia]. Qed.
