(* ===== verification/Fees.v ===== *)
(** * Fee, spread and slippage formulas (crates/lunarbase-math/src/fees.rs)

    The translated functions come first, then the exact formulas over unbounded
    integers they are meant to compute, and the lemmas that relate the two. *)

From S2P Require Import Prelude Arithmetic.

Definition quote_lane_exact_in (price amount_in : U256) (cash_to_asset : bool)
    : result MathError U256 :=
  if price =? 0 then Ok 0
  else if cash_to_asset then full_mul_div_down amount_in WAD price
  else full_mul_div_down amount_in price WAD.

Definition quote_lane_exact_out (price amount_out : U256) (cash_to_asset : bool)
    : result MathError U256 :=
  if price =? 0 then Ok 0
  else if cash_to_asset then full_mul_div_up amount_out price WAD
  else full_mul_div_up amount_out WAD price.

Definition quote_lane_slippage_bps (swap_cash_value principal_cash_value slippage_k_bps : U256)
    : result MathError U256 :=
  if (swap_cash_value =? 0) || (principal_cash_value =? 0) || (slippage_k_bps =? 0)
  then Ok 0
  else
    raw ← full_mul_div_up swap_cash_value slippage_k_bps principal_cash_value;
    scaled ← ceil_div raw SLIPPAGE_SCALE;
    Ok (Z.min scaled MAX_SLIPPAGE_BPS).

Definition quote_lane_weighted_slippage_k_bps
    (first_principal first_k second_principal second_k : U256) : result MathError U256 :=
  total ← checked_add first_principal second_principal;
  if total =? 0 then Ok 0
  else
    first ← full_mul_div_up first_principal first_k total;
    second ← full_mul_div_up second_principal second_k total;
    sum ← checked_add first second;
    Ok (Z.min sum BPS).

Definition checked_mul_saturating (x y : U256) : result MathError U256 :=
  ok_or (uint_checked_mul 256 x y) Overflow.

Definition calculate_fee_bps_for_router
    (whitelisted : bool) (blacklist_fee_multiplier fee_bps : U256) : result MathError U256 :=
  let fee := Z.min fee_bps BPS in
  if whitelisted then Ok fee
  else if negb (blacklist_fee_multiplier =? 0) && (BPS / blacklist_fee_multiplier <? fee)
  then Ok BPS
  else product ← checked_mul_saturating fee blacklist_fee_multiplier; Ok (Z.min product BPS).

Definition quote_lane_exact_in_fee (anchor fee_bps : U256) : result MathError U256 :=
  if (anchor =? 0) || (fee_bps =? 0) then Ok 0
  else denominator ← checked_add BPS fee_bps; full_mul_div_up anchor fee_bps denominator.

Definition quote_lane_exact_out_fee (anchor fee_bps : U256) : result MathError U256 :=
  if (anchor =? 0) || (fee_bps =? 0) then Ok 0
  else full_mul_div_up anchor fee_bps BPS.

Definition split_fee (fee_amount partner_fee_bps : U256) : result MathError (U256 * U256) :=
  if fee_amount =? 0 then Ok (0, 0)
  else
    partner ←
      (if partner_fee_bps =? 0 then Ok 0 else mul_div_down_256 fee_amount partner_fee_bps BPS);
    treasury ← checked_sub fee_amount partner;
    Ok (partner, treasury).

(** ** Exact formulas

    The same quantities with no width, no error and no special case that the
    formula does not need. *)

Module Exact.

Definition lane_in (price x : Z) (cash_to_asset : bool) : Z :=
  if price =? 0 then 0 else if cash_to_asset then x * WAD / price else x * price / WAD.

Definition lane_out (price y : Z) (cash_to_asset : bool) : Z :=
  if price =? 0 then 0 else if cash_to_asset then cdiv (y * price) WAD else cdiv (y * WAD) price.

(** One ceiling suffices: [ceil (ceil (s k / p) / 10) = ceil (s k / 10 p)]. *)
Definition slippage (swap principal k : Z) : Z :=
  if principal =? 0 then 0 else Z.min (cdiv (swap * k) (principal * 10)) 100000.

Definition weighted_k (p1 k1 p2 k2 : Z) : Z :=
  if p1 + p2 =? 0 then 0 else Z.min (cdiv (p1 * k1) (p1 + p2) + cdiv (p2 * k2) (p1 + p2)) BPS.

Definition router_fee (whitelisted : bool) (multiplier fee : Z) : Z :=
  Z.min (Z.min fee BPS * (if whitelisted then 1 else multiplier)) BPS.

Definition spread_fee (exact_in : bool) (anchor bps : Z) : Z :=
  cdiv (anchor * bps) (if exact_in then BPS + bps else BPS).

End Exact.

(** ** The functions compute the exact formulas *)

Lemma WAD_pos : 0 < WAD. Proof. done. Qed.
Lemma BPS_pos : 0 < BPS. Proof. done. Qed.
#[export] Hint Resolve WAD_pos BPS_pos : core.

Lemma uint_le w x y : 0 <= x <= y -> uint w y -> uint w x.
Proof. unfold uint. lia. Qed.

Lemma uint_of_lt w n x : 0 <= x < n -> n <= 2 ^ w -> uint w x.
Proof. unfold uint. lia. Qed.

Lemma uint_const_256 x : 0 <= x <= WAD -> uint 256 x.
Proof. unfold uint, WAD. lia. Qed.

Lemma quote_lane_exact_in_eq p x d :
  0 <= p -> Exact.lane_in p x d < 2 ^ 256 ->
  quote_lane_exact_in p x d = Ok (Exact.lane_in p x d).
Proof.
  intros Hp. unfold quote_lane_exact_in, Exact.lane_in.
  destruct (Z.eqb_spec p 0); [done|]. intros Hb.
  destruct d; by apply full_mul_div_down_ok; [lia || done|].
Qed.

Lemma quote_lane_exact_out_eq p y d :
  uint 256 p -> uint 256 y -> Exact.lane_out p y d < 2 ^ 256 ->
  quote_lane_exact_out p y d = Ok (Exact.lane_out p y d).
Proof.
  intros Hp Hy. unfold quote_lane_exact_out, Exact.lane_out.
  destruct (Z.eqb_spec p 0); [done|]. intros Hb. pose proof (uint_const_256 WAD ltac:(done)).
  destruct Hp. destruct d; apply full_mul_div_up_ok; (done || lia).
Qed.

(** Conversely, whatever these functions return is the exact value. *)
Lemma quote_lane_exact_in_inv p x d q :
  0 <= p -> quote_lane_exact_in p x d = Ok q -> q = Exact.lane_in p x d /\ q < 2 ^ 256.
Proof.
  intros Hp. unfold quote_lane_exact_in, Exact.lane_in.
  destruct (Z.eqb_spec p 0); [naive_solver lia|].
  destruct d; rewrite full_mul_div_down_eq by (lia || done); case_match; naive_solver lia.
Qed.

Lemma quote_lane_exact_out_inv p y d q :
  uint 256 p -> uint 256 y -> quote_lane_exact_out p y d = Ok q ->
  q = Exact.lane_out p y d /\ q < 2 ^ 256.
Proof.
  intros Hp Hy. unfold quote_lane_exact_out, Exact.lane_out.
  pose proof (uint_const_256 WAD ltac:(done)).
  destruct (Z.eqb_spec p 0); [naive_solver lia|]. pose proof Hp as [Hp0 _].
  destruct d; rewrite full_mul_div_up_eq by (done || lia); case_match; naive_solver lia.
Qed.

Lemma lane_in_nonneg p x d : 0 <= p -> 0 <= x -> 0 <= Exact.lane_in p x d.
Proof.
  intros Hp Hx. unfold Exact.lane_in. destruct (Z.eqb_spec p 0); [done|].
  pose proof WAD_pos. destruct d; apply Z.div_pos; nia.
Qed.

Lemma lane_out_nonneg p y d : 0 <= p -> 0 <= y -> 0 <= Exact.lane_out p y d.
Proof.
  intros Hp Hy. unfold Exact.lane_out. destruct (Z.eqb_spec p 0); [done|].
  pose proof WAD_pos. destruct d; apply cdiv_nonneg; nia.
Qed.

Lemma slippage_eq s p k :
  uint 256 s -> 0 <= p -> uint 256 k -> cdiv (s * k) p < 2 ^ 256 ->
  quote_lane_slippage_bps s p k = Ok (Exact.slippage s p k).
Proof.
  intros Hs Hp Hk Hb. unfold quote_lane_slippage_bps, Exact.slippage, SLIPPAGE_SCALE, MAX_SLIPPAGE_BPS.
  destruct (Z.eqb_spec p 0); [by rewrite orb_true_r|]. rewrite orb_false_r.
  destruct (Z.eqb_spec s 0) as [->|]; [bsimpl; by rewrite cdiv_0 by lia|].
  destruct (Z.eqb_spec k 0) as [->|]; [bsimpl; by rewrite Z.mul_0_r, cdiv_0 by lia|]. bsimpl.
  destruct Hs, Hk. rewrite full_mul_div_up_ok by (done || lia). bsimpl.
  rewrite ceil_div_ok; [|split; [apply cdiv_nonneg; nia|done]|done]. bsimpl.
  by rewrite cdiv_cdiv by lia.
Qed.

Lemma slippage_bounds s p k : 0 <= s -> 0 <= p -> 0 <= k -> 0 <= Exact.slippage s p k <= 100000.
Proof.
  intros. unfold Exact.slippage. destruct (Z.eqb_spec p 0); [done|].
  pose proof (cdiv_nonneg (s * k) (p * 10) ltac:(lia) ltac:(nia)). lia.
Qed.

Lemma slippage_inv s p k q :
  uint 256 s -> uint 256 p -> uint 256 k ->
  quote_lane_slippage_bps s p k = Ok q -> q = Exact.slippage s p k.
Proof.
  intros Hs Hp Hk Hq. pose proof Hp as [Hp0 _].
  destruct (decide (cdiv (s * k) p < 2 ^ 256)) as [Hb|Hb].
  { rewrite slippage_eq in Hq by done. by simplify_eq. }
  unfold quote_lane_slippage_bps in Hq. revert Hq.
  unfold Exact.slippage.
  destruct (Z.eqb_spec p 0); [rewrite orb_true_r; bsimpl; by intros [= <-]|]. rewrite orb_false_r.
  destruct (Z.eqb_spec s 0) as [->|]; [bsimpl; rewrite cdiv_0 by lia; by intros [= <-]|].
  destruct (Z.eqb_spec k 0) as [->|];
    [bsimpl; rewrite Z.mul_0_r, cdiv_0 by lia; by intros [= <-]|]. bsimpl.
  rewrite full_mul_div_up_eq by (done || lia). case_match; [lia|done].
Qed.

Lemma weighted_k_terms p1 k1 p2 k2 :
  0 <= p1 -> 0 <= p2 -> 0 < p1 + p2 -> 0 <= k1 -> 0 <= k2 ->
  0 <= cdiv (p1 * k1) (p1 + p2) <= k1 /\ 0 <= cdiv (p2 * k2) (p1 + p2) <= k2.
Proof.
  intros. split; (split; [apply cdiv_nonneg; nia|apply cdiv_le_iff; nia]).
Qed.

Lemma weighted_k_eq p1 k1 p2 k2 :
  0 <= p1 -> 0 <= p2 -> p1 + p2 < 2 ^ 256 -> uint 255 k1 -> uint 255 k2 ->
  quote_lane_weighted_slippage_k_bps p1 k1 p2 k2 = Ok (Exact.weighted_k p1 k1 p2 k2).
Proof.
  intros H1 H2 Hs [Hk1 Hk1'] [Hk2 Hk2']. unfold quote_lane_weighted_slippage_k_bps.
  rewrite checked_add_eq by done. cbn. unfold Exact.weighted_k.
  destruct (Z.eqb_spec (p1 + p2) 0); [done|].
  destruct (weighted_k_terms p1 k1 p2 k2) as [B1 B2]; [lia..|].
  assert (2 ^ 256 = 2 * 2 ^ 255) as E by reflexivity.
  rewrite !full_mul_div_up_ok by (unfold uint; lia). bsimpl.
  rewrite checked_add_eq by lia. done.
Qed.

Lemma weighted_k_bounds p1 k1 p2 k2 :
  0 <= p1 -> 0 <= p2 -> 0 <= k1 -> 0 <= k2 -> 0 <= Exact.weighted_k p1 k1 p2 k2 <= BPS.
Proof.
  intros. unfold Exact.weighted_k, BPS. destruct (Z.eqb_spec (p1 + p2) 0); [done|].
  destruct (weighted_k_terms p1 k1 p2 k2) as [B1 B2]; lia.
Qed.

Lemma router_fee_eq w m fee :
  0 <= m -> 0 <= fee ->
  calculate_fee_bps_for_router w m fee = Ok (Exact.router_fee w m fee).
Proof.
  intros Hm Hf. unfold calculate_fee_bps_for_router, Exact.router_fee, checked_mul_saturating.
  set (f := Z.min fee BPS). assert (0 <= f <= BPS) as Hfb by (unfold f, BPS; lia).
  destruct w; [by rewrite Z.mul_1_r, Z.min_l by lia|].
  destruct (Z.eqb_spec m 0) as [->|Hm0]; [bsimpl; unfold uint_checked_mul; by rewrite !Z.mul_0_r|]. bsimpl.
  destruct (Z.ltb_spec (BPS / m) f) as [Hlt|Hge].
  - rewrite Z.min_r; [done|]. apply Z.nlt_ge. intros Hle. apply Z.lt_nge in Hlt. apply Hlt.
    apply div_ge_iff; lia.
  - assert (f * m <= BPS) by (apply div_ge_iff in Hge; lia).
    unfold uint_checked_mul. destruct (Z.ltb_spec (f * m) (2 ^ 256)); [done|].
    unfold BPS in *. clearbody f. lia.
Qed.

Lemma router_fee_bounds w m fee : 0 <= m -> 0 <= fee -> 0 <= Exact.router_fee w m fee <= BPS.
Proof.
  intros Hm Hf. unfold Exact.router_fee.
  assert (0 <= Z.min fee BPS) by (unfold BPS; lia). pose proof BPS_pos. destruct w; nia.
Qed.

Lemma spread_fee_in_eq a bps :
  uint 256 a -> uint 255 bps ->
  quote_lane_exact_in_fee a bps = Ok (Exact.spread_fee true a bps).
Proof.
  intros Ha [Hb Hb']. unfold quote_lane_exact_in_fee, Exact.spread_fee.
  assert (2 ^ 256 = 2 * 2 ^ 255) as E by reflexivity.
  assert (BPS < 2 ^ 255) by done. pose proof BPS_pos.
  destruct (Z.eqb_spec a 0) as [->|]; [bsimpl; by rewrite cdiv_0 by lia|].
  destruct (Z.eqb_spec bps 0) as [->|]; [bsimpl; by rewrite Z.mul_0_r, cdiv_0 by lia|]. bsimpl.
  rewrite checked_add_eq by lia. bsimpl.
  apply full_mul_div_up_ok; [done|unfold uint; lia|lia|].
  destruct Ha. assert (cdiv (a * bps) (BPS + bps) <= a) by (apply cdiv_le_iff; nia). lia.
Qed.

Lemma spread_fee_out_eq a bps :
  uint 256 a -> uint 256 bps -> Exact.spread_fee false a bps < 2 ^ 256 ->
  quote_lane_exact_out_fee a bps = Ok (Exact.spread_fee false a bps).
Proof.
  intros Ha Hb. unfold quote_lane_exact_out_fee, Exact.spread_fee. intros Hq.
  destruct (Z.eqb_spec a 0) as [->|]; [bsimpl; by rewrite cdiv_0|].
  destruct (Z.eqb_spec bps 0) as [->|]; [bsimpl; by rewrite Z.mul_0_r, cdiv_0|]. bsimpl.
  by apply full_mul_div_up_ok.
Qed.

Lemma spread_fee_out_inv a bps q :
  uint 256 a -> uint 256 bps ->
  quote_lane_exact_out_fee a bps = Ok q -> q = Exact.spread_fee false a bps /\ q < 2 ^ 256.
Proof.
  intros Ha Hb. unfold quote_lane_exact_out_fee, Exact.spread_fee.
  destruct (Z.eqb_spec a 0) as [->|]; [bsimpl; rewrite cdiv_0 by done; by intros [= <-]|].
  destruct (Z.eqb_spec bps 0) as [->|]; [bsimpl; rewrite Z.mul_0_r, cdiv_0 by done; by intros [= <-]|].
  bsimpl. rewrite full_mul_div_up_eq by done. case_match; naive_solver lia.
Qed.

Lemma spread_fee_nonneg d a bps : 0 <= a -> 0 <= bps -> 0 <= Exact.spread_fee d a bps.
Proof.
  intros Ha Hb. unfold Exact.spread_fee. pose proof BPS_pos.
  destruct d; apply cdiv_nonneg; nia.
Qed.

Lemma spread_fee_mono d a bps bps' :
  0 <= a -> 0 <= bps <= bps' -> Exact.spread_fee d a bps <= Exact.spread_fee d a bps'.
Proof.
  intros Ha Hb. unfold Exact.spread_fee. pose proof BPS_pos. destruct d.
  - apply cdiv_le_iff; [lia|]. pose proof (cdiv_spec (a * bps') (BPS + bps') ltac:(lia)) as [_ Hc].
    set (c := cdiv (a * bps') (BPS + bps')) in *.
    assert (c * (BPS + bps') * (BPS + bps) >= a * bps' * (BPS + bps)) by nia.
    assert (0 <= a * (bps' - bps)) as Hd by nia.
    assert (0 <= a * (bps' - bps) * BPS) by (apply Z.mul_nonneg_nonneg; lia).
    apply (Z.mul_le_mono_pos_r _ _ (BPS + bps')); lia.
  - apply cdiv_mono; [done|nia].
Qed.

Lemma spread_fee_in_le a bps : 0 <= a -> 0 <= bps -> Exact.spread_fee true a bps <= a.
Proof. intros. unfold Exact.spread_fee. pose proof BPS_pos. apply cdiv_le_iff; nia. Qed.

Lemma spread_fee_out_le a bps n :
  0 <= a -> bps <= n * BPS -> 0 <= n -> Exact.spread_fee false a bps <= a * n.
Proof. intros. unfold Exact.spread_fee. apply cdiv_le_iff; [done|]. nia. Qed.

Lemma split_fee_ok fee bps :
  0 <= fee -> 0 <= bps <= BPS -> fee * bps < 2 ^ 256 ->
  split_fee fee bps = Ok (fee * bps / BPS, fee - fee * bps / BPS).
Proof.
  intros Hf Hb Hm. unfold split_fee.
  destruct (Z.eqb_spec fee 0) as [->|]; [done|].
  assert (fee * bps / BPS <= fee) as Hle by (apply Z.div_le_upper_bound; [done|nia]).
  destruct (Z.eqb_spec bps 0) as [->|]; bsimpl.
  - rewrite Z.mul_0_r, Z.div_0_l, checked_sub_eq by (done || lia). done.
  - unfold mul_div_down_256. change (BPS =? 0) with false. rewrite checked_mul_eq by done. bsimpl.
    by rewrite checked_sub_eq.
Qed.

Lemma split_fee_inv fee bps partner treasury :
  0 <= fee -> 0 <= bps -> split_fee fee bps = Ok (partner, treasury) ->
  partner = fee * bps / BPS /\ treasury = fee - partner /\ 0 <= partner <= fee.
Proof.
  intros Hf Hb. unfold split_fee.
  destruct (Z.eqb_spec fee 0) as [->|]; [by intros [= <- <-]|].
  intros (p & Hp & (t & Ht & [= -> ->])%bind_ok)%bind_ok.
  apply checked_sub_ok in Ht as [-> Hle].
  assert (0 <= fee * bps / BPS) by (apply Z.div_pos; [nia|done]).
  destruct (Z.eqb_spec bps 0) as [->|].
  - rewrite Z.mul_0_r, Z.div_0_l by done. injection Hp as <-. lia.
  - unfold mul_div_down_256 in Hp. change (BPS =? 0) with false in Hp.
    apply bind_ok in Hp as (m & Hm & [= <-]). apply checked_mul_ok in Hm as [-> _]. lia.
Qed.

(** ** Properties *)

(** C35: pricing is a Galois connection. For every positive price and both
    directions, the exact-out conversion returns the least input whose exact-in
    conversion reaches the requested output: whenever both conversions succeed,
    [x] buys at least [y] exactly when [x] is at least the quoted input. *)
Theorem exact_out_least_input p x y d o i :
  0 < p -> uint 256 p -> uint 256 x -> uint 256 y ->
  quote_lane_exact_in p x d = Ok o -> quote_lane_exact_out p y d = Ok i ->
  y <= o <-> i <= x.
Proof.
  intros Hp0 Hp Hx Hy Hin Hout. pose proof WAD_pos.
  apply quote_lane_exact_in_inv in Hin as [-> _]; [|lia].
  apply quote_lane_exact_out_inv in Hout as [-> _]; [|done..].
  unfold Exact.lane_in, Exact.lane_out. destruct (Z.eqb_spec p 0); [lia|].
  destruct d; rewrite div_ge_iff, cdiv_le_iff by lia; lia.
Qed.

Lemma exact_out_least_input_witness :
  quote_lane_exact_in (2 * WAD) 100 true = Ok 50 /\ (50 <= 50 <-> 100 <= 100).
Proof.
  split; [vm_compute; reflexivity|].
  apply (exact_out_least_input (2 * WAD) 100 50 true 50 100);
    first [lia | vm_compute; reflexivity | split; vm_compute; congruence].
Defined.

(** The fee policy never fails, and the early return it takes to avoid an
    overflow does not change its result: for every multiplier and raw fee it
    returns [min (min fee 100% * multiplier) 100%], with the multiplier ignored
    for whitelisted callers. *)
Theorem router_fee_total w m fee :
  uint 256 m -> uint 256 fee ->
  calculate_fee_bps_for_router w m fee =
    Ok (Z.min (Z.min fee BPS * (if w then 1 else m)) BPS).
Proof. intros [] []. by apply router_fee_eq. Qed.

Lemma router_fee_total_witness :
  calculate_fee_bps_for_router false (2 ^ 256 - 1) 10 = Ok 1000000.
Proof.
  etransitivity; [apply (router_fee_total false (2 ^ 256 - 1) 10)|reflexivity];
    split; vm_compute; congruence.
Defined.

Lemma weighted_mean_bounds p1 k1 p2 k2 :
  0 <= p1 -> 0 <= p2 -> 0 < p1 + p2 -> 0 <= k1 -> 0 <= k2 ->
  Z.min k1 k2 <= cdiv (p1 * k1) (p1 + p2) + cdiv (p2 * k2) (p1 + p2) <= Z.max k1 k2 + 1.
Proof.
  intros H1 H2 Ht Hk1 Hk2.
  pose proof (cdiv_spec (p1 * k1) (p1 + p2) Ht). pose proof (cdiv_spec (p2 * k2) (p1 + p2) Ht).
  set (a := cdiv _ _) in *. set (b := cdiv _ _) in *. clearbody a b.
  assert ((p1 + p2) * Z.min k1 k2 <= p1 * k1 + p2 * k2) by nia.
  assert (p1 * k1 + p2 * k2 <= (p1 + p2) * Z.max k1 k2) by nia.
  split; nia.
Qed.

(** The slippage coefficient of a two-leg route is a weighted mean of the two
    lane coefficients: the two independent ceilings lift it above the larger one
    by at most one unit, never below the smaller one, and the computation cannot
    fail on 32-bit coefficients and principals of 255 bits. *)
Theorem weighted_k_is_mean p1 k1 p2 k2 :
  uint 255 p1 -> uint 255 p2 -> 0 < p1 + p2 -> uint 32 k1 -> uint 32 k2 ->
  exists k, quote_lane_weighted_slippage_k_bps p1 k1 p2 k2 = Ok k
    /\ Z.min (Z.min k1 k2) BPS <= k <= Z.min (Z.max k1 k2 + 1) BPS.
Proof.
  intros [] [] Ht [] []. assert (2 ^ 256 = 2 * 2 ^ 255) by done.
  assert (2 ^ 32 < 2 ^ 255) by done.
  eexists. split; [apply weighted_k_eq; unfold uint; lia|]. unfold Exact.weighted_k.
  destruct (Z.eqb_spec (p1 + p2) 0); [lia|].
  pose proof (weighted_mean_bounds p1 k1 p2 k2 ltac:(lia) ltac:(lia) Ht ltac:(lia) ltac:(lia)).
  lia.
Qed.

Lemma weighted_k_is_mean_witness :
  exists k, quote_lane_weighted_slippage_k_bps 3 10 4 20 = Ok k
    /\ Z.min (Z.min 10 20) BPS <= k <= Z.min (Z.max 10 20 + 1) BPS.
Proof. apply (weighted_k_is_mean 3 10 4 20); first [split; vm_compute; congruence | lia]. Defined.
