(* ===== verification/Slot0.v ===== *)
(** * The packed lane word (crates/lunarbase-math/src/slot0.rs)

    [Lane.slot0] is one 256-bit storage word holding eleven fields. Words are
    [Z] in range [2 ^ 256]; shifts drop the bits above the width, as [U256]'s do. *)

From S2P Require Import Prelude Arithmetic.

Definition PRICE_BITS : Z := 112.
Definition FEE_BITS : Z := 20.
Definition THRESHOLD_BITS : Z := 7.
Definition BLOCK_BITS : Z := 40.
Definition BLOCK_DELAY_BITS : Z := 8.
Definition SLIPPAGE_K_BITS : Z := 32.
Definition RESERVED_BITS : Z := 14.

Definition PRICE_SHIFT : Z := 0.
Definition ASK_FEE_SHIFT : Z := 112.
Definition BID_FEE_SHIFT : Z := 132.
Definition THRESHOLD_SHIFT : Z := 152.
Definition THRESHOLD_ENABLED_SHIFT : Z := 159.
Definition UPDATE_BLOCK_SHIFT : Z := 160.
Definition EXISTS_SHIFT : Z := 200.
Definition PAUSED_SHIFT : Z := 201.
Definition BLOCK_DELAY_SHIFT : Z := 202.
Definition SLIPPAGE_K_SHIFT : Z := 210.
Definition RESERVED_SHIFT : Z := 242.

Record LaneSlot0 := {
  price : Z;
  ask_fee_bps : Z;
  bid_fee_bps : Z;
  price_push_threshold : Z;
  threshold_enabled : bool;
  latest_update_block : Z;
  lane_exists : bool;
  lane_paused : bool;
  block_delay : Z;
  slippage_k_bps : Z;
  reserved_high_bits : Z
}.

(** [U256] shifts and complement. *)
Definition shl256 (x n : Z) : Z := Z.land (Z.shiftl x n) (Z.ones 256).
Definition not256 (x : Z) : Z := Z.lxor x (Z.ones 256).

Definition field_mask (bits : Z) : U256 := shl256 1 bits - 1.

Definition read_field (word shift bits : Z) : U256 :=
  Z.land (Z.shiftr word shift) (field_mask bits).

Definition write_field (word value shift bits : Z) : U256 :=
  let shifted_mask := shl256 (field_mask bits) shift in
  Z.lor (Z.land word (not256 shifted_mask)) (shl256 (Z.land value (field_mask bits)) shift).

Definition validate_native (value bits : Z) (field : string) : result MathError unit :=
  if (bits <? 128) && (Z.shiftl 1 bits <=? value)
  then Err (FieldOverflow field bits)
  else Ok tt.

(** The narrowing [try_into().expect(..)] of each field is total because the
    masked value already fits; see [decode_lane_slot0_valid]. *)
Definition decode_lane_slot0 (word : U256) : LaneSlot0 := {|
  price := read_field word PRICE_SHIFT PRICE_BITS;
  ask_fee_bps := read_field word ASK_FEE_SHIFT FEE_BITS;
  bid_fee_bps := read_field word BID_FEE_SHIFT FEE_BITS;
  price_push_threshold := read_field word THRESHOLD_SHIFT THRESHOLD_BITS;
  threshold_enabled := read_field word THRESHOLD_ENABLED_SHIFT 1 =? 1;
  latest_update_block := read_field word UPDATE_BLOCK_SHIFT BLOCK_BITS;
  lane_exists := read_field word EXISTS_SHIFT 1 =? 1;
  lane_paused := read_field word PAUSED_SHIFT 1 =? 1;
  block_delay := read_field word BLOCK_DELAY_SHIFT BLOCK_DELAY_BITS;
  slippage_k_bps := read_field word SLIPPAGE_K_SHIFT SLIPPAGE_K_BITS;
  reserved_high_bits := read_field word RESERVED_SHIFT RESERVED_BITS
|}.

Definition lane_slot0_price (word : U256) : U256 := read_field word PRICE_SHIFT PRICE_BITS.
Definition lane_slot0_ask_fee_bps (word : U256) : U256 := read_field word ASK_FEE_SHIFT FEE_BITS.
Definition lane_slot0_bid_fee_bps (word : U256) : U256 := read_field word BID_FEE_SHIFT FEE_BITS.
Definition lane_slot0_latest_update_block (word : U256) : Z :=
  read_field word UPDATE_BLOCK_SHIFT BLOCK_BITS.
Definition lane_slot0_exists (word : U256) : bool := read_field word EXISTS_SHIFT 1 =? 1.
Definition lane_slot0_paused (word : U256) : bool := read_field word PAUSED_SHIFT 1 =? 1.
Definition lane_slot0_block_delay (word : U256) : Z :=
  read_field word BLOCK_DELAY_SHIFT BLOCK_DELAY_BITS.
Definition lane_slot0_slippage_k_bps (word : U256) : Z :=
  read_field word SLIPPAGE_K_SHIFT SLIPPAGE_K_BITS.

Definition set_lane_slot0_exists (word : U256) (b : bool) : U256 :=
  write_field word (Z.b2z b) EXISTS_SHIFT 1.
Definition set_lane_slot0_paused (word : U256) (paused : bool) : U256 :=
  write_field word (Z.b2z paused) PAUSED_SHIFT 1.

Definition set_lane_slot0_price_push_threshold (word : U256) (threshold : Z) (enabled : bool)
    : result MathError U256 :=
  _ ← validate_native threshold THRESHOLD_BITS "pricePushThreshold";
  let word := write_field word threshold THRESHOLD_SHIFT THRESHOLD_BITS in
  Ok (write_field word (Z.b2z enabled) THRESHOLD_ENABLED_SHIFT 1).

Definition set_lane_slot0_block_delay (word : U256) (delay : Z) : U256 :=
  write_field word delay BLOCK_DELAY_SHIFT BLOCK_DELAY_BITS.
Definition set_lane_slot0_slippage_k_bps (word : U256) (k : Z) : U256 :=
  write_field word k SLIPPAGE_K_SHIFT SLIPPAGE_K_BITS.

Definition encode_lane_slot0 (fields : LaneSlot0) : result MathError U256 :=
  _ ← validate_native (price fields) PRICE_BITS "price";
  _ ← validate_native (ask_fee_bps fields) FEE_BITS "askFeeBps";
  _ ← validate_native (bid_fee_bps fields) FEE_BITS "bidFeeBps";
  _ ← validate_native (price_push_threshold fields) THRESHOLD_BITS "pricePushThreshold";
  _ ← validate_native (latest_update_block fields) BLOCK_BITS "latestUpdateBlock";
  _ ← validate_native (reserved_high_bits fields) RESERVED_BITS "reservedHighBits";
  let word :=
    Z.lor (Z.lor (Z.lor (price fields)
      (shl256 (ask_fee_bps fields) ASK_FEE_SHIFT))
      (shl256 (bid_fee_bps fields) BID_FEE_SHIFT))
      (shl256 (price_push_threshold fields) THRESHOLD_SHIFT) in
  let word :=
    if threshold_enabled fields then Z.lor word (shl256 1 THRESHOLD_ENABLED_SHIFT) else word in
  let word := Z.lor word (shl256 (latest_update_block fields) UPDATE_BLOCK_SHIFT) in
  let word := if lane_exists fields then Z.lor word (shl256 1 EXISTS_SHIFT) else word in
  let word := if lane_paused fields then Z.lor word (shl256 1 PAUSED_SHIFT) else word in
  let word := Z.lor word (shl256 (block_delay fields) BLOCK_DELAY_SHIFT) in
  let word := Z.lor word (shl256 (slippage_k_bps fields) SLIPPAGE_K_SHIFT) in
  let word := Z.lor word (shl256 (reserved_high_bits fields) RESERVED_SHIFT) in
  Ok word.

Definition encode_update_fees (ask bid : Z) : result MathError Z :=
  _ ← validate_native ask FEE_BITS "askFeeBps";
  _ ← validate_native bid FEE_BITS "bidFeeBps";
  Ok (Z.lor ask (Z.shiftl bid FEE_BITS)).

Definition decode_update_fees (fees : Z) : result MathError (Z * Z) :=
  _ ← validate_native fees 40 "fees";
  let mask := Z.shiftl 1 FEE_BITS - 1 in
  Ok (Z.land fees mask, Z.shiftr fees FEE_BITS).

(** [delta * 100] and [price * threshold] are [u128] products. *)
Definition exceeds_threshold (fields : LaneSlot0) (new_price : Z) : bool :=
  let delta := uint_abs_diff new_price (price fields) in
  threshold_enabled fields
  && negb (price fields =? 0)
  && (uint_wrapping_mul 128 (price fields) (price_push_threshold fields)
      <? uint_wrapping_mul 128 delta 100).

Definition apply_lane_update_slot0 (previous : U256) (new_price fees block_number : Z)
    : result MathError U256 :=
  _ ← validate_native new_price PRICE_BITS "price";
  _ ← validate_native fees 40 "fees";
  _ ← validate_native block_number BLOCK_BITS "blockNumber";
  '(ask, bid) ← decode_update_fees fees;
  let fields := decode_lane_slot0 previous in
  let exceeds := exceeds_threshold fields new_price in
  encode_lane_slot0 {|
    price := new_price;
    ask_fee_bps := ask;
    bid_fee_bps := bid;
    price_push_threshold := price_push_threshold fields;
    threshold_enabled := threshold_enabled fields;
    latest_update_block := block_number;
    lane_exists := lane_exists fields;
    lane_paused := if exceeds then true else lane_paused fields;
    block_delay := block_delay fields;
    slippage_k_bps := slippage_k_bps fields;
    reserved_high_bits := reserved_high_bits fields
  |}.

Ltac unfold_layout :=
  unfold lane_slot0_price, lane_slot0_ask_fee_bps, lane_slot0_bid_fee_bps,
    lane_slot0_latest_update_block, lane_slot0_exists, lane_slot0_paused,
    lane_slot0_block_delay, lane_slot0_slippage_k_bps,
    PRICE_SHIFT, ASK_FEE_SHIFT, BID_FEE_SHIFT, THRESHOLD_SHIFT, THRESHOLD_ENABLED_SHIFT,
    UPDATE_BLOCK_SHIFT, EXISTS_SHIFT, PAUSED_SHIFT, BLOCK_DELAY_SHIFT, SLIPPAGE_K_SHIFT,
    RESERVED_SHIFT, PRICE_BITS, FEE_BITS, THRESHOLD_BITS, BLOCK_BITS, BLOCK_DELAY_BITS,
    SLIPPAGE_K_BITS, RESERVED_BITS in *.

(** ** Well-formed views *)

(** The native types of the view's fields, and the widths of the storage fields
    narrower than their native type. *)
Record slot0_valid (f : LaneSlot0) : Prop := {
  valid_price : uint 112 (price f);
  valid_ask : uint 20 (ask_fee_bps f);
  valid_bid : uint 20 (bid_fee_bps f);
  valid_threshold : uint 7 (price_push_threshold f);
  valid_update_block : uint 40 (latest_update_block f);
  valid_block_delay : uint 8 (block_delay f);
  valid_slippage_k : uint 32 (slippage_k_bps f);
  valid_reserved : uint 14 (reserved_high_bits f)
}.

Lemma LaneSlot0_eq f g :
  price f = price g -> ask_fee_bps f = ask_fee_bps g -> bid_fee_bps f = bid_fee_bps g ->
  price_push_threshold f = price_push_threshold g ->
  threshold_enabled f = threshold_enabled g ->
  latest_update_block f = latest_update_block g ->
  lane_exists f = lane_exists g -> lane_paused f = lane_paused g ->
  block_delay f = block_delay g -> slippage_k_bps f = slippage_k_bps g ->
  reserved_high_bits f = reserved_high_bits g -> f = g.
Proof. destruct f, g; cbn; congruence. Qed.

(** ** Bits

    Everything below reasons on individual bits. *)

Lemma testbit_uint w x i : uint w x -> w <= i -> Z.testbit x i = false.
Proof.
  intros [Hx Hw] Hi. destruct (Z.eq_dec x 0) as [->|]; [apply Z.bits_0|].
  apply Z.bits_above_log2; [done|].
  assert (Z.log2 x < w); [|lia]. apply Z.log2_lt_pow2; lia.
Qed.

Lemma uint_of_bits w x :
  0 <= w -> 0 <= x -> (forall i, w <= i -> Z.testbit x i = false) -> uint w x.
Proof.
  intros Hw Hx Hb. split; [done|].
  enough (x = x mod 2 ^ w) as -> by (apply Z.mod_pos_bound; lia).
  apply Z.bits_inj'. intros i Hi. destruct (Z.lt_ge_cases i w).
  - by rewrite Z.mod_pow2_bits_low.
  - by rewrite Z.mod_pow2_bits_high, Hb by lia.
Qed.

Lemma field_mask_ones bits : 0 <= bits < 256 -> field_mask bits = Z.ones bits.
Proof.
  intros Hb. unfold field_mask, shl256. rewrite Z.shiftl_1_l, Z.land_ones by lia.
  rewrite Z.mod_small; [by rewrite Z.ones_equiv|].
  split; [lia|]. apply Z.pow_lt_mono_r; lia.
Qed.

Lemma testbit_ones n i : 0 <= n -> 0 <= i -> Z.testbit (Z.ones n) i = (i <? n).
Proof. intros. rewrite Z.testbit_ones by done. destruct (Z.leb_spec 0 i); [done|lia]. Qed.

Lemma testbit_shl256 x n i :
  0 <= i -> Z.testbit (shl256 x n) i = (i <? 256) && Z.testbit x (i - n).
Proof.
  intros Hi. unfold shl256.
  rewrite Z.land_spec, Z.shiftl_spec, testbit_ones by lia. apply andb_comm.
Qed.

Lemma testbit_not256 x i : 0 <= i -> Z.testbit (not256 x) i = xorb (Z.testbit x i) (i <? 256).
Proof. intros Hi. unfold not256. by rewrite Z.lxor_spec, testbit_ones by lia. Qed.

Lemma testbit_read_field w s b i :
  0 <= b < 256 -> 0 <= i ->
  Z.testbit (read_field w s b) i = (i <? b) && Z.testbit w (i + s).
Proof.
  intros Hb Hi. unfold read_field.
  rewrite field_mask_ones, Z.land_spec, Z.shiftr_spec, testbit_ones by lia. apply andb_comm.
Qed.

Lemma testbit_write_field w v s b i :
  0 <= b < 256 -> 0 <= s -> s + b <= 256 -> 0 <= i -> uint 256 w ->
  Z.testbit (write_field w v s b) i =
    if (s <=? i) && (i <? s + b) then Z.testbit v (i - s) else Z.testbit w i.
Proof.
  intros Hb Hs Hsb Hi Hw. unfold write_field.
  rewrite field_mask_ones, Z.lor_spec, Z.land_spec, testbit_not256, !testbit_shl256,
    Z.land_spec by lia.
  destruct (Z.leb_spec s i); cbn [andb].
  - rewrite testbit_ones by lia.
    destruct (Z.ltb_spec i (s + b)), (Z.ltb_spec (i - s) b), (Z.ltb_spec i 256); try lia;
      cbn [andb xorb]; rewrite ?andb_false_r, ?andb_true_r, ?orb_false_r; try done.
    by rewrite (testbit_uint 256 w).
  - rewrite !(Z.testbit_neg_r _ (i - s)) by lia. rewrite !andb_false_r, orb_false_r. cbn [xorb].
    destruct (Z.ltb_spec i 256); [by rewrite andb_true_r|].
    by rewrite (testbit_uint 256 w).
Qed.

Lemma read_field_nonneg w s b : 0 <= b < 256 -> 0 <= read_field w s b.
Proof.
  intros. unfold read_field. rewrite field_mask_ones by done. apply Z.land_nonneg.
  right. rewrite Z.ones_equiv. pose proof (Z.pow_pos_nonneg 2 b). lia.
Qed.

Lemma read_field_uint w s b : 0 <= b < 256 -> uint b (read_field w s b).
Proof.
  intros Hb. apply uint_of_bits; [lia|by apply read_field_nonneg|].
  intros i Hi. rewrite testbit_read_field by lia. destruct (Z.ltb_spec i b); [lia|done].
Qed.

Lemma write_field_uint w v s b :
  0 <= b < 256 -> 0 <= s -> s + b <= 256 -> uint 256 w -> uint 256 (write_field w v s b).
Proof.
  intros Hb Hs Hsb Hw. apply uint_of_bits; [done| |].
  - unfold write_field. rewrite field_mask_ones by done.
    assert (0 <= Z.ones 256) by done. apply Z.lor_nonneg. split.
    + apply Z.land_nonneg. left. apply Hw.
    + unfold shl256. apply Z.land_nonneg. by right.
  - intros i Hi. rewrite testbit_write_field by (done || lia).
    destruct (Z.leb_spec s i), (Z.ltb_spec i (s + b)); cbn [andb]; try lia;
      by apply (testbit_uint 256).
Qed.

(** Reading back what was written, and reading a disjoint field. *)
Lemma read_write_same w v s b :
  0 <= b < 256 -> 0 <= s -> s + b <= 256 -> uint 256 w -> uint b v ->
  read_field (write_field w v s b) s b = v.
Proof.
  intros Hb Hs Hsb Hw Hv. apply Z.bits_inj'. intros i Hi.
  rewrite testbit_read_field, testbit_write_field by (done || lia).
  destruct (Z.ltb_spec i b); cbn [andb].
  - destruct (Z.leb_spec s (i + s)), (Z.ltb_spec (i + s) (s + b)); try lia. cbn [andb]. f_equal. lia.
  - by rewrite (testbit_uint b v) by (done || lia).
Qed.

Lemma read_write_other w v s b s' b' :
  0 <= b < 256 -> 0 <= s -> s + b <= 256 -> uint 256 w ->
  0 <= b' < 256 -> 0 <= s' -> s' + b' <= s \/ s + b <= s' ->
  read_field (write_field w v s b) s' b' = read_field w s' b'.
Proof.
  intros Hb Hs Hsb Hw Hb' Hs' Hd. apply Z.bits_inj'. intros i Hi.
  rewrite !testbit_read_field, testbit_write_field by (done || lia).
  destruct (Z.ltb_spec i b'); [|done]. cbn [andb].
  destruct (Z.leb_spec s (i + s')), (Z.ltb_spec (i + s') (s + b)); cbn [andb]; try lia; done.
Qed.

(** ** The encoder's word, bit by bit *)

(** The word [encode_lane_slot0] assembles once its width checks pass. *)
Definition slot0_word (f : LaneSlot0) : Z :=
  let w := Z.lor (Z.lor (Z.lor (price f) (shl256 (ask_fee_bps f) 112))
             (shl256 (bid_fee_bps f) 132)) (shl256 (price_push_threshold f) 152) in
  let w := if threshold_enabled f then Z.lor w (shl256 1 159) else w in
  let w := Z.lor w (shl256 (latest_update_block f) 160) in
  let w := if lane_exists f then Z.lor w (shl256 1 200) else w in
  let w := if lane_paused f then Z.lor w (shl256 1 201) else w in
  Z.lor (Z.lor (Z.lor w (shl256 (block_delay f) 202)) (shl256 (slippage_k_bps f) 210))
    (shl256 (reserved_high_bits f) 242).

Lemma validate_native_eq v b field :
  0 <= b < 128 -> 0 <= v ->
  validate_native v b field = if decide (uint b v) then Ok tt else Err (FieldOverflow field b).
Proof.
  intros Hb Hv. unfold validate_native, uint. rewrite Z.shiftl_1_l.
  destruct (Z.ltb_spec b 128); [|lia]. cbn [andb].
  destruct (Z.leb_spec (2 ^ b) v); case_decide; (done || lia).
Qed.

Lemma validate_native_ok v b field :
  0 <= b < 128 -> uint b v -> validate_native v b field = Ok tt.
Proof. intros Hb Hv. rewrite validate_native_eq by (done || apply Hv). by rewrite decide_True. Qed.

Lemma encode_valid f : slot0_valid f -> encode_lane_slot0 f = Ok (slot0_word f).
Proof. intros []. unfold encode_lane_slot0. by rewrite !validate_native_ok by (done || lia). Qed.

Lemma testbit_field x s b i :
  uint b x -> 0 <= s -> s + b <= 256 -> 0 <= i ->
  Z.testbit (shl256 x s) i = (s <=? i) && (i <? s + b) && Z.testbit x (i - s).
Proof.
  intros Hx Hs Hsb Hi. rewrite testbit_shl256 by done.
  destruct (Z.leb_spec s i); cbn [andb].
  - destruct (Z.ltb_spec i (s + b)), (Z.ltb_spec i 256); cbn [andb]; try (done || lia);
      apply (testbit_uint b); (done || lia).
  - by rewrite Z.testbit_neg_r, andb_false_r by lia.
Qed.

Lemma testbit_flag (c : bool) w s i :
  0 <= s -> s < 256 -> 0 <= i ->
  Z.testbit (if c then Z.lor w (shl256 1 s) else w) i = Z.testbit w i || ((i =? s) && c).
Proof.
  intros Hs Hs' Hi. destruct c; [|by rewrite andb_false_r, orb_false_r].
  rewrite Z.lor_spec, (testbit_field 1 s 1) by (done || lia). rewrite andb_true_r. f_equal.
  destruct (Z.eqb_spec i s) as [->|].
  - rewrite Z.sub_diag. destruct (Z.leb_spec s s), (Z.ltb_spec s (s + 1)); (done || lia).
  - destruct (Z.leb_spec s i), (Z.ltb_spec i (s + 1)); (done || lia).
Qed.

Lemma testbit_slot0_word f i :
  slot0_valid f -> 0 <= i ->
  Z.testbit (slot0_word f) i =
    ((i <? 112) && Z.testbit (price f) i)
    || ((112 <=? i) && (i <? 132) && Z.testbit (ask_fee_bps f) (i - 112))
    || ((132 <=? i) && (i <? 152) && Z.testbit (bid_fee_bps f) (i - 132))
    || ((152 <=? i) && (i <? 159) && Z.testbit (price_push_threshold f) (i - 152))
    || ((i =? 159) && threshold_enabled f)
    || ((160 <=? i) && (i <? 200) && Z.testbit (latest_update_block f) (i - 160))
    || ((i =? 200) && lane_exists f)
    || ((i =? 201) && lane_paused f)
    || ((202 <=? i) && (i <? 210) && Z.testbit (block_delay f) (i - 202))
    || ((210 <=? i) && (i <? 242) && Z.testbit (slippage_k_bps f) (i - 210))
    || ((242 <=? i) && (i <? 256) && Z.testbit (reserved_high_bits f) (i - 242)).
Proof.
  intros [] Hi. unfold slot0_word.
  rewrite !Z.lor_spec, !testbit_flag, !Z.lor_spec, !testbit_flag, !Z.lor_spec by lia.
  rewrite (testbit_field _ 112 20), (testbit_field _ 132 20), (testbit_field _ 152 7),
    (testbit_field _ 160 40), (testbit_field _ 202 8), (testbit_field _ 210 32),
    (testbit_field _ 242 14) by (done || lia).
  repeat f_equal.
  destruct (Z.ltb_spec i 112); [done|]. by apply (testbit_uint 112).
Qed.

(** Decide the literal comparisons on a bit index whose range is known. *)
Ltac decide_index :=
  repeat match goal with
  | |- context [?a <=? ?b] =>
      first [rewrite (proj2 (Z.leb_le a b)) by lia | rewrite (proj2 (Z.leb_gt a b)) by lia]
  | |- context [?a <? ?b] =>
      first [rewrite (proj2 (Z.ltb_lt a b)) by lia | rewrite (proj2 (Z.ltb_ge a b)) by lia]
  | |- context [?a =? ?b] =>
      first [rewrite (proj2 (Z.eqb_eq a b)) by lia | rewrite (proj2 (Z.eqb_neq a b)) by lia]
  end; cbn [andb orb]; rewrite ?orb_false_r.

Lemma read_flag w s : 0 <= s -> (read_field w s 1 =? 1) = Z.testbit w s.
Proof.
  intros Hs. pose proof (read_field_uint w s 1 ltac:(lia)) as [Hl Hu].
  pose proof (testbit_read_field w s 1 0 ltac:(lia) ltac:(lia)) as H0.
  rewrite Z.add_0_l in H0. change (0 <? 1) with true in H0. cbn [andb] in H0. rewrite <- H0.
  assert (read_field w s 1 = 0 \/ read_field w s 1 = 1) as [->| ->] by lia; done.
Qed.

Lemma slot0_word_uint f : slot0_valid f -> uint 256 (slot0_word f).
Proof.
  intros Hf. apply uint_of_bits; [done| |].
  - destruct (Hf) as [[] [] [] [] [] [] [] []]. unfold slot0_word.
    assert (forall x s, 0 <= shl256 x s) by (intros; apply Z.land_nonneg; by right).
    repeat case_match; repeat (apply Z.lor_nonneg; split); done.
  - intros i Hi. rewrite testbit_slot0_word by (done || lia). by decide_index.
Qed.

(** One field of the assembled word. *)
Lemma read_slot0_word f s b x :
  slot0_valid f -> 0 <= s -> 0 <= b < 256 -> uint b x ->
  (forall i, 0 <= i < b -> Z.testbit (slot0_word f) (i + s) = Z.testbit x i) ->
  read_field (slot0_word f) s b = x.
Proof.
  intros Hf Hs Hb Hx Hbits. apply Z.bits_inj'. intros i Hi.
  rewrite testbit_read_field by done.
  destruct (Z.ltb_spec i b); cbn [andb]; [by apply Hbits|]. by rewrite (testbit_uint b x).
Qed.

Ltac field_bits :=
  intros ? ?; rewrite testbit_slot0_word by (done || lia); decide_index;
  first [done | f_equal; lia].

Lemma decode_slot0_word f : slot0_valid f -> decode_lane_slot0 (slot0_word f) = f.
Proof.
  intros Hf. pose proof Hf as [].
  apply LaneSlot0_eq; cbn; unfold_layout;
    first [ apply read_slot0_word; first [done | lia | field_bits]
          | rewrite read_flag by done; rewrite testbit_slot0_word by (done || lia);
            decide_index; done ].
Qed.

Lemma decode_lane_slot0_valid w : slot0_valid (decode_lane_slot0 w).
Proof. constructor; apply read_field_uint; done. Qed.

Lemma slot0_word_decode w : uint 256 w -> slot0_word (decode_lane_slot0 w) = w.
Proof.
  intros Hw. apply Z.bits_inj'. intros i Hi.
  rewrite testbit_slot0_word by (done || apply decode_lane_slot0_valid). cbn. unfold_layout.
  rewrite !read_flag by done.
  destruct (Z.lt_ge_cases i 256); [|rewrite (testbit_uint 256 w i) by done; by decide_index].
  assert (i < 112 \/ 112 <= i < 132 \/ 132 <= i < 152 \/ 152 <= i < 159 \/ i = 159 \/
          160 <= i < 200 \/ i = 200 \/ i = 201 \/ 202 <= i < 210 \/ 210 <= i < 242 \/
          242 <= i < 256) as Hc by lia.
  destruct_or! Hc; subst; decide_index; try done;
    rewrite testbit_read_field by (done || lia); decide_index; f_equal;
    lia.
Qed.

(** ** Setters *)

Definition with_exists (f : LaneSlot0) (b : bool) : LaneSlot0 :=
  {| price := price f; ask_fee_bps := ask_fee_bps f; bid_fee_bps := bid_fee_bps f;
     price_push_threshold := price_push_threshold f; threshold_enabled := threshold_enabled f;
     latest_update_block := latest_update_block f; lane_exists := b;
     lane_paused := lane_paused f; block_delay := block_delay f;
     slippage_k_bps := slippage_k_bps f; reserved_high_bits := reserved_high_bits f |}.
Definition with_paused (f : LaneSlot0) (b : bool) : LaneSlot0 :=
  {| price := price f; ask_fee_bps := ask_fee_bps f; bid_fee_bps := bid_fee_bps f;
     price_push_threshold := price_push_threshold f; threshold_enabled := threshold_enabled f;
     latest_update_block := latest_update_block f; lane_exists := lane_exists f;
     lane_paused := b; block_delay := block_delay f;
     slippage_k_bps := slippage_k_bps f; reserved_high_bits := reserved_high_bits f |}.
Definition with_threshold (f : LaneSlot0) (t : Z) (b : bool) : LaneSlot0 :=
  {| price := price f; ask_fee_bps := ask_fee_bps f; bid_fee_bps := bid_fee_bps f;
     price_push_threshold := t; threshold_enabled := b;
     latest_update_block := latest_update_block f; lane_exists := lane_exists f;
     lane_paused := lane_paused f; block_delay := block_delay f;
     slippage_k_bps := slippage_k_bps f; reserved_high_bits := reserved_high_bits f |}.
Definition with_block_delay (f : LaneSlot0) (d : Z) : LaneSlot0 :=
  {| price := price f; ask_fee_bps := ask_fee_bps f; bid_fee_bps := bid_fee_bps f;
     price_push_threshold := price_push_threshold f; threshold_enabled := threshold_enabled f;
     latest_update_block := latest_update_block f; lane_exists := lane_exists f;
     lane_paused := lane_paused f; block_delay := d;
     slippage_k_bps := slippage_k_bps f; reserved_high_bits := reserved_high_bits f |}.
Definition with_slippage_k (f : LaneSlot0) (k : Z) : LaneSlot0 :=
  {| price := price f; ask_fee_bps := ask_fee_bps f; bid_fee_bps := bid_fee_bps f;
     price_push_threshold := price_push_threshold f; threshold_enabled := threshold_enabled f;
     latest_update_block := latest_update_block f; lane_exists := lane_exists f;
     lane_paused := lane_paused f; block_delay := block_delay f;
     slippage_k_bps := k; reserved_high_bits := reserved_high_bits f |}.

Lemma b2z_uint1 b : uint 1 (Z.b2z b).
Proof. by destruct b. Qed.
#[export] Hint Resolve b2z_uint1 : core.

Lemma b2z_eqb_1 b : (Z.b2z b =? 1) = b.
Proof. by destruct b. Qed.

(** Every field of a written word is either the value written or the old field. *)
Ltac field_side := first [done | lia | solve [auto] | apply write_field_uint; field_side].
Ltac write_frame :=
  repeat first [ rewrite read_write_same by field_side | rewrite read_write_other by field_side ];
  rewrite ?b2z_eqb_1; try done.

Lemma decode_set_exists w b :
  uint 256 w ->
  decode_lane_slot0 (set_lane_slot0_exists w b) = with_exists (decode_lane_slot0 w) b.
Proof.
  intros Hw. unfold set_lane_slot0_exists. apply LaneSlot0_eq; cbn; unfold_layout; write_frame.
Qed.

Lemma decode_set_paused w b :
  uint 256 w ->
  decode_lane_slot0 (set_lane_slot0_paused w b) = with_paused (decode_lane_slot0 w) b.
Proof.
  intros Hw. unfold set_lane_slot0_paused. apply LaneSlot0_eq; cbn; unfold_layout; write_frame.
Qed.

Lemma decode_set_block_delay w d :
  uint 256 w -> uint 8 d ->
  decode_lane_slot0 (set_lane_slot0_block_delay w d) = with_block_delay (decode_lane_slot0 w) d.
Proof.
  intros Hw Hd. unfold set_lane_slot0_block_delay.
  apply LaneSlot0_eq; cbn; unfold_layout; write_frame.
Qed.

Lemma decode_set_slippage_k w k :
  uint 256 w -> uint 32 k ->
  decode_lane_slot0 (set_lane_slot0_slippage_k_bps w k) = with_slippage_k (decode_lane_slot0 w) k.
Proof.
  intros Hw Hd. unfold set_lane_slot0_slippage_k_bps.
  apply LaneSlot0_eq; cbn; unfold_layout; write_frame.
Qed.

Lemma set_threshold_eq w t b :
  0 <= t ->
  set_lane_slot0_price_push_threshold w t b =
    if decide (uint 7 t)
    then Ok (write_field (write_field w t 152 7) (Z.b2z b) 159 1)
    else Err (FieldOverflow "pricePushThreshold" 7).
Proof.
  intros Ht. unfold set_lane_slot0_price_push_threshold.
  rewrite validate_native_eq by done. unfold_layout. by case_decide.
Qed.

Lemma decode_set_threshold w t b :
  uint 256 w -> uint 7 t ->
  decode_lane_slot0 (write_field (write_field w t 152 7) (Z.b2z b) 159 1)
  = with_threshold (decode_lane_slot0 w) t b.
Proof.
  intros Hw Ht. apply LaneSlot0_eq; cbn; unfold_layout; write_frame.
Qed.

Lemma set_exists_uint w b : uint 256 w -> uint 256 (set_lane_slot0_exists w b).
Proof. intros. by apply write_field_uint. Qed.
Lemma set_paused_uint w b : uint 256 w -> uint 256 (set_lane_slot0_paused w b).
Proof. intros. by apply write_field_uint. Qed.
Lemma set_block_delay_uint w d : uint 256 w -> uint 256 (set_lane_slot0_block_delay w d).
Proof. intros. by apply write_field_uint. Qed.
Lemma set_slippage_k_uint w k : uint 256 w -> uint 256 (set_lane_slot0_slippage_k_bps w k).
Proof. intros. by apply write_field_uint. Qed.
Lemma set_threshold_uint w t b w' :
  uint 256 w -> set_lane_slot0_price_push_threshold w t b = Ok w' -> uint 256 w'.
Proof.
  intros Hw (? & _ & [= <-])%bind_ok. by repeat apply write_field_uint.
Qed.
#[export] Hint Resolve set_exists_uint set_paused_uint set_block_delay_uint set_slippage_k_uint
  : core.

(** ** Operator updates *)

Lemma decode_update_fees_ok fees :
  uint 40 fees ->
  exists ask bid, decode_update_fees fees = Ok (ask, bid)
    /\ ask = fees mod 2 ^ 20 /\ bid = fees / 2 ^ 20 /\ uint 20 ask /\ uint 20 bid.
Proof.
  intros Hf. unfold decode_update_fees. rewrite validate_native_ok by done. unfold_layout. bsimpl.
  eexists _, _. split; [done|].
  change (Z.shiftl 1 20 - 1) with (Z.ones 20). rewrite Z.land_ones, Z.shiftr_div_pow2 by lia.
  split_and!; [done..| |].
  - apply Z.mod_pos_bound. done.
  - destruct Hf. split; [by apply Z.div_pos|]. apply Z.div_lt_upper_bound; [done|].
    by change (2 ^ 20 * 2 ^ 20) with (2 ^ 40).
Qed.

(** The threshold test on unbounded integers: 128 bits are enough. *)
Lemma exceeds_threshold_exact f p :
  slot0_valid f -> uint 112 p ->
  exceeds_threshold f p =
    threshold_enabled f && negb (price f =? 0)
    && (price f * price_push_threshold f <? Z.abs (p - price f) * 100).
Proof.
  intros [[] _ _ [] _ _ _ _] []. unfold exceeds_threshold, uint_wrapping_mul, uint_abs_diff.
  assert (2 ^ 128 = 2 ^ 112 * 65536) as E by done. assert (2 ^ 7 = 128) as E7 by done.
  rewrite !Z.mod_small by nia. done.
Qed.

(** ** Properties *)

(** C19: packing and unpacking the lane word are mutually inverse: every view whose
    fields fit the Solidity widths packs to a 256-bit word that unpacks to the
    same view, and every 256-bit word unpacks to a view that packs to the same
    word, reserved bits included. *)
Theorem slot0_roundtrip :
  (forall f, slot0_valid f ->
     exists w, encode_lane_slot0 f = Ok w /\ uint 256 w /\ decode_lane_slot0 w = f)
  /\ (forall w, uint 256 w -> encode_lane_slot0 (decode_lane_slot0 w) = Ok w).
Proof.
  split.
  - intros f Hf. exists (slot0_word f).
    split; [by apply encode_valid|]. split; [by apply slot0_word_uint|by apply decode_slot0_word].
  - intros w Hw. rewrite encode_valid by apply decode_lane_slot0_valid.
    by rewrite slot0_word_decode.
Qed.

(** Each setter changes its own field of the decoded word and no other bit,
    and keeps the word within 256 bits. *)
Theorem slot0_setters_frame w :
  uint 256 w ->
  (forall b, decode_lane_slot0 (set_lane_slot0_exists w b) = with_exists (decode_lane_slot0 w) b)
  /\ (forall b, decode_lane_slot0 (set_lane_slot0_paused w b) = with_paused (decode_lane_slot0 w) b)
  /\ (forall t b, uint 8 t ->
        match set_lane_slot0_price_push_threshold w t b with
        | Ok w' => t < 128 /\ uint 256 w'
                   /\ decode_lane_slot0 w' = with_threshold (decode_lane_slot0 w) t b
        | Err e => 128 <= t /\ e = FieldOverflow "pricePushThreshold" 7
        end)
  /\ (forall d, uint 8 d ->
        decode_lane_slot0 (set_lane_slot0_block_delay w d) = with_block_delay (decode_lane_slot0 w) d)
  /\ (forall k, uint 32 k ->
        decode_lane_slot0 (set_lane_slot0_slippage_k_bps w k)
        = with_slippage_k (decode_lane_slot0 w) k).
Proof.
  intros Hw. split_and!;
    auto using decode_set_exists, decode_set_paused, decode_set_block_delay, decode_set_slippage_k.
  intros t b [Ht _]. rewrite set_threshold_eq by done.
  case_decide as Hd; unfold uint in Hd; (split; [lia|]); [|done].
  split; [by repeat apply write_field_uint|by apply decode_set_threshold].
Qed.

Lemma slot0_setters_frame_witness :
  uint 256 (2 ^ 255 + 12345)
  /\ decode_lane_slot0 (set_lane_slot0_paused (2 ^ 255 + 12345) true)
     = with_paused (decode_lane_slot0 (2 ^ 255 + 12345)) true.
Proof.
  assert (uint 256 (2 ^ 255 + 12345)) as Hw by (split; vm_compute; congruence).
  split; [exact Hw|]. destruct (slot0_setters_frame (2 ^ 255 + 12345) Hw) as (_ & H & _).
  exact (H true).
Defined.

(** C34: an operator price update on any 256-bit word, with arguments of the
    Solidity widths, always succeeds; it replaces the price, both fees and the
    update block, leaves every other field alone, and pauses the lane exactly
    when the threshold is enabled, the old price is non-zero and the move
    exceeds the threshold percentage of the old price (a paused lane stays
    paused); the 128-bit products of the test never wrap. *)
Theorem lane_update_functional w p fees block :
  uint 256 w -> uint 112 p -> uint 40 fees -> uint 40 block ->
  let old := decode_lane_slot0 w in
  exists w', apply_lane_update_slot0 w p fees block = Ok w' /\ uint 256 w'
    /\ decode_lane_slot0 w' = {|
         price := p; ask_fee_bps := fees mod 2 ^ 20; bid_fee_bps := fees / 2 ^ 20;
         price_push_threshold := price_push_threshold old;
         threshold_enabled := threshold_enabled old;
         latest_update_block := block; lane_exists := lane_exists old;
         lane_paused :=
           (threshold_enabled old && negb (price old =? 0)
            && (price old * price_push_threshold old <? Z.abs (p - price old) * 100))
           || lane_paused old;
         block_delay := block_delay old; slippage_k_bps := slippage_k_bps old;
         reserved_high_bits := reserved_high_bits old |}.
Proof.
  intros Hw Hp Hf Hb old. unfold apply_lane_update_slot0.
  rewrite !validate_native_ok by done. bsimpl.
  destruct (decode_update_fees_ok fees Hf) as (ask & bid & -> & -> & -> & Ha & Hbid). bsimpl.
  pose proof (decode_lane_slot0_valid w) as Hv. fold old in Hv |- *.
  rewrite exceeds_threshold_exact by done.
  match goal with |- context [encode_lane_slot0 ?f] => assert (slot0_valid f) as Hnew end.
  { destruct Hv. by constructor. }
  eexists. split; [by apply encode_valid|]. split; [by apply slot0_word_uint|].
  rewrite decode_slot0_word by done. by repeat case_match.
Qed.

Lemma lane_update_functional_witness :
  exists w', apply_lane_update_slot0 (2 ^ 159 + 10 * 2 ^ 152 + 100) 111 5 8 = Ok w'
    /\ lane_paused (decode_lane_slot0 w') = true.
Proof.
  destruct (lane_update_functional (2 ^ 159 + 10 * 2 ^ 152 + 100) 111 5 8)
    as (w' & Hw' & _ & Hd); [split; vm_compute; congruence..|].
  exists w'. split; [exact Hw'|]. rewrite Hd. vm_compute. reflexivity.
Defined.
