(* ===== verification/State.v ===== *)
(** * Quote state and public quote types (crates/lunarbase-math/src/state.rs)

    The [HashMap] of lanes is a finite map: the code only looks lanes up, updates
    them and tests membership, and never depends on an iteration order. *)

From S2P Require Import Prelude Arithmetic Slot0.

Inductive FeeClass := Whitelisted | NonWhitelisted.

#[export] Instance FeeClass_eq_dec : EqDecision FeeClass.
Proof. solve_decision. Defined.

Definition is_whitelisted (c : FeeClass) : bool :=
  match c with
  | Whitelisted => true
  | NonWhitelisted => false
  end.

Record QuotePolicy := {
  fee_class : FeeClass;
  verified_partner_fee_bps : option Z
}.

Definition policy_base (c : FeeClass) : QuotePolicy :=
  {| fee_class := c; verified_partner_fee_bps := None |}.
Definition with_verified_partner_fee (c : FeeClass) (fee_bps : Z) : QuotePolicy :=
  {| fee_class := c; verified_partner_fee_bps := Some fee_bps |}.

Record LaneState := {
  slot0 : U256;
  asset_reserve : Z;
  total_principal_amount : Z
}.

#[export] Instance LaneState_eq_dec : EqDecision LaneState.
Proof. solve_decision. Defined.

(** [LaneState::default()] *)
Definition LaneState_default : LaneState :=
  {| slot0 := 0; asset_reserve := 0; total_principal_amount := 0 |}.

Definition LaneState_exists (lane : LaneState) : bool := lane_slot0_exists (slot0 lane).
Definition LaneState_paused (lane : LaneState) : bool := lane_slot0_paused (slot0 lane).

Record QuoteState := {
  cash : Address;
  cash_reserve : Z;
  lanes : gmap Address LaneState;
  blacklist_fee_multiplier : U256
}.

#[export] Instance QuoteState_eq_dec : EqDecision QuoteState.
Proof. solve_decision. Defined.

Definition QuoteState_default : QuoteState :=
  {| cash := Address_ZERO; cash_reserve := 0; lanes := ∅; blacklist_fee_multiplier := 1 |}.

Inductive QuoteMode := ExactIn | ExactOut.

#[export] Instance QuoteMode_eq_dec : EqDecision QuoteMode.
Proof. solve_decision. Defined.

Definition is_exact_in (m : QuoteMode) : bool :=
  match m with
  | ExactIn => true
  | ExactOut => false
  end.

Record QuoteRequest := {
  asset_in : Address;
  asset_out : Address;
  amount : U256;
  mode : QuoteMode
}.

Record FeeAllocation := {
  partner_fee : U256;
  treasury_fee : U256
}.

#[export] Instance FeeAllocation_eq_dec : EqDecision FeeAllocation.
Proof. solve_decision. Defined.

Record QuoteResult := {
  amount_in : U256;
  amount_out : U256;
  fee_asset : Address;
  fee_amount : U256;
  fee_allocation : option FeeAllocation
}.

#[export] Instance QuoteResult_eq_dec : EqDecision QuoteResult.
Proof. solve_decision. Defined.

Inductive UnavailableReason :=
| ZeroAmount
| EqualAssets
| MissingLane (asset : Address)
| PausedLane (asset : Address)
| StaleLane (asset : Address)
| ZeroPrincipal (asset : Address)
| ZeroAnchor
| SpreadConsumesAnchor
| InsufficientOutputReserve (asset : Address).

#[export] Instance UnavailableReason_eq_dec : EqDecision UnavailableReason.
Proof. solve_decision. Defined.

Inductive QuoteOutcome :=
| Available (r : QuoteResult)
| Unavailable (reason : UnavailableReason).

#[export] Instance QuoteOutcome_eq_dec : EqDecision QuoteOutcome.
Proof. solve_decision. Defined.

Inductive QuoteError := QuoteArithmetic (e : MathError).

#[export] Instance QuoteError_eq_dec : EqDecision QuoteError.
Proof. solve_decision. Defined.

(** ** Well-formedness: every field fits its Rust type *)

Record lane_wf (l : LaneState) : Prop := {
  wf_slot0 : uint 256 (slot0 l);
  wf_asset_reserve : uint 128 (asset_reserve l);
  wf_principal : uint 128 (total_principal_amount l)
}.

Record state_wf (s : QuoteState) : Prop := {
  wf_cash_reserve : uint 128 (cash_reserve s);
  wf_lanes : map_Forall (fun _ => lane_wf) (lanes s);
  wf_multiplier : uint 256 (blacklist_fee_multiplier s)
}.

(** A [u32] partner share. *)
Definition policy_wf (p : QuotePolicy) : Prop :=
  forall bps, verified_partner_fee_bps p = Some bps -> uint 32 bps.

Lemma lane_lookup_wf s a l : state_wf s -> lanes s !! a = Some l -> lane_wf l.
Proof. intros [_ Hl _] H. exact (Hl _ _ H). Qed.
#[export] Hint Resolve lane_lookup_wf : core.
