(* ===== verification/Quote.v ===== *)
(** * Quote evaluation (crates/lunarbase-math/src/quote.rs)

    The translated engine, then the exact quote over unbounded integers it is
    proved to implement. *)

From S2P Require Import Prelude Arithmetic Fees Slot0 State.

Definition lane_or_reason (state : QuoteState) (asset : Address) (execution_block_number : Z)
    : result UnavailableReason LaneState :=
  lane ← ok_or (lanes state !! asset) (MissingLane asset);
  if negb (LaneState_exists lane) then Err (MissingLane asset)
  else if LaneState_paused lane then Err (PausedLane asset)
  else
    let expires_at :=
      uint_saturating_add 64 (lane_slot0_latest_update_block (slot0 lane))
        (lane_slot0_block_delay (slot0 lane)) in
    if expires_at <? execution_block_number then Err (StaleLane asset) else Ok lane.

Definition principal_cash_value (lane : LaneState) : result MathError U256 :=
  let principal := total_principal_amount lane in
  if principal =? 0 then Ok 0
  else quote_lane_exact_in (lane_slot0_price (slot0 lane)) principal false.

Definition spread_of (exact_in : bool) (anchor bps : U256) : result MathError U256 :=
  if exact_in then quote_lane_exact_in_fee anchor bps else quote_lane_exact_out_fee anchor bps.

Definition lane_spread (anchor fee_bps slippage_bps : U256) (exact_in : bool)
    : result MathError (U256 * U256) :=
  fee ← spread_of exact_in anchor fee_bps;
  total_bps ← checked_add fee_bps slippage_bps;
  total ← spread_of exact_in anchor total_bps;
  slippage_amount ← checked_sub total fee;
  Ok (fee, slippage_amount).

(** The free reserve the output is settled from; [None] when the lane is gone. *)
Definition output_reserve (state : QuoteState) (asset_out : Address) : option Z :=
  if asset_out =? cash state then Some (cash_reserve state)
  else asset_reserve <$> lanes state !! asset_out.

Definition allocate (policy : QuotePolicy) (fee : U256) : result MathError (option FeeAllocation) :=
  match verified_partner_fee_bps policy with
  | None => Ok None
  | Some fee_bps =>
      '(partner, treasury) ← split_fee fee fee_bps;
      Ok (Some {| partner_fee := partner; treasury_fee := treasury |})
  end.

Definition assemble_quote (state : QuoteState) (policy : QuotePolicy) (request : QuoteRequest)
    (fee_asset : Address) (anchor fee slippage_amount : U256) : result MathError QuoteOutcome :=
  total_spread ← checked_add fee slippage_amount;
  let settle (amount_in amount_out : U256) : result MathError QuoteOutcome :=
    match output_reserve state (asset_out request) with
    | None => Ok (Unavailable (MissingLane (asset_out request)))
    | Some reserve =>
        insufficient ←
          (if reserve <? amount_out then Ok true
           else if is_exact_in (mode request)
           then rest ← checked_sub reserve amount_out; Ok (rest <? fee)
           else Ok false);
        if (insufficient : bool)
        then Ok (Unavailable (InsufficientOutputReserve (asset_out request)))
        else
          fee_allocation ← allocate policy fee;
          Ok (Available {| amount_in := amount_in; amount_out := amount_out;
                           fee_asset := fee_asset; fee_amount := fee;
                           fee_allocation := fee_allocation |})
    end in
  match mode request with
  | ExactIn =>
      if anchor <=? total_spread then Ok (Unavailable SpreadConsumesAnchor)
      else amount_out ← checked_sub anchor total_spread; settle (amount request) amount_out
  | ExactOut =>
      amount_in ← checked_add anchor total_spread; settle amount_in (amount request)
  end.

Definition quote_direct (state : QuoteState) (policy : QuotePolicy) (request : QuoteRequest)
    (lane_asset : Address) (lane : LaneState) (cash_to_asset : bool) (fee_asset : Address)
    : result MathError QuoteOutcome :=
  let price := lane_slot0_price (slot0 lane) in
  anchor ←
    (match mode request with
     | ExactIn => quote_lane_exact_in price (amount request) cash_to_asset
     | ExactOut => quote_lane_exact_out price (amount request) cash_to_asset
     end);
  if anchor =? 0 then Ok (Unavailable ZeroAnchor)
  else
    principal ← principal_cash_value lane;
    if principal =? 0 then Ok (Unavailable (ZeroPrincipal lane_asset))
    else
      let raw_fee :=
        if cash_to_asset then lane_slot0_ask_fee_bps (slot0 lane)
        else lane_slot0_bid_fee_bps (slot0 lane) in
      fee_bps ← calculate_fee_bps_for_router (is_whitelisted (fee_class policy))
                  (blacklist_fee_multiplier state) raw_fee;
      let swap_cash :=
        if cash_to_asset then (if is_exact_in (mode request) then amount request else anchor)
        else if is_exact_in (mode request) then anchor else amount request in
      slippage ← quote_lane_slippage_bps swap_cash principal
                   (lane_slot0_slippage_k_bps (slot0 lane));
      '(fee, slippage_amount) ← lane_spread anchor fee_bps slippage (is_exact_in (mode request));
      assemble_quote state policy request fee_asset anchor fee slippage_amount.

Definition quote_route (state : QuoteState) (policy : QuotePolicy) (request : QuoteRequest)
    (input_lane output_lane : LaneState) : result MathError QuoteOutcome :=
  let price_in := lane_slot0_price (slot0 input_lane) in
  let price_out := lane_slot0_price (slot0 output_lane) in
  '(intermediate_cash, anchor) ←
    (match mode request with
     | ExactIn =>
         intermediate ← quote_lane_exact_in price_in (amount request) false;
         anchor ← quote_lane_exact_in price_out intermediate true;
         Ok (intermediate, anchor)
     | ExactOut =>
         intermediate ← quote_lane_exact_out price_out (amount request) true;
         anchor ← quote_lane_exact_out price_in intermediate false;
         Ok (intermediate, anchor)
     end);
  if anchor =? 0 then Ok (Unavailable ZeroAnchor)
  else
    first_principal ← principal_cash_value input_lane;
    if first_principal =? 0 then Ok (Unavailable (ZeroPrincipal (asset_in request)))
    else
      second_principal ← principal_cash_value output_lane;
      if second_principal =? 0 then Ok (Unavailable (ZeroPrincipal (asset_out request)))
      else
        weighted_k ← quote_lane_weighted_slippage_k_bps
                       first_principal (lane_slot0_slippage_k_bps (slot0 input_lane))
                       second_principal (lane_slot0_slippage_k_bps (slot0 output_lane));
        principal_sum ← checked_add first_principal second_principal;
        slippage ← quote_lane_slippage_bps intermediate_cash principal_sum weighted_k;
        let whitelisted := is_whitelisted (fee_class policy) in
        bid ← calculate_fee_bps_for_router whitelisted (blacklist_fee_multiplier state)
                (lane_slot0_bid_fee_bps (slot0 input_lane));
        ask ← calculate_fee_bps_for_router whitelisted (blacklist_fee_multiplier state)
                (lane_slot0_ask_fee_bps (slot0 output_lane));
        fee_bps ← checked_add bid ask;
        fee ← spread_of (is_exact_in (mode request)) anchor fee_bps;
        bid_total ← checked_add bid slippage;
        ask_total ← checked_add ask slippage;
        total_bps ← checked_add bid_total ask_total;
        total ← spread_of (is_exact_in (mode request)) anchor total_bps;
        let fee_asset :=
          if is_exact_in (mode request) then asset_out request else asset_in request in
        slippage_amount ← checked_sub total fee;
        assemble_quote state policy request fee_asset anchor fee slippage_amount.

Definition quote (request : QuoteRequest) (execution_block_number : Z) (state : QuoteState)
    (policy : QuotePolicy) : result QuoteError QuoteOutcome :=
  if amount request =? 0 then Ok (Unavailable ZeroAmount)
  else if asset_in request =? asset_out request then Ok (Unavailable EqualAssets)
  else
    let fee_asset := if is_exact_in (mode request) then asset_out request else asset_in request in
    if asset_out request =? cash state then
      match lane_or_reason state (asset_in request) execution_block_number with
      | Ok lane => map_err QuoteArithmetic
                     (quote_direct state policy request (asset_in request) lane false fee_asset)
      | Err reason => Ok (Unavailable reason)
      end
    else if asset_in request =? cash state then
      match lane_or_reason state (asset_out request) execution_block_number with
      | Ok lane => map_err QuoteArithmetic
                     (quote_direct state policy request (asset_out request) lane true fee_asset)
      | Err reason => Ok (Unavailable reason)
      end
    else
      match lane_or_reason state (asset_in request) execution_block_number with
      | Err reason => Ok (Unavailable reason)
      | Ok input_lane =>
          match lane_or_reason state (asset_out request) execution_block_number with
          | Err reason => Ok (Unavailable reason)
          | Ok output_lane =>
              map_err QuoteArithmetic (quote_route state policy request input_lane output_lane)
          end
      end.

Definition solidity_quote_amount (request : QuoteRequest) (outcome : QuoteOutcome) : U256 :=
  match mode request, outcome with
  | ExactIn, Available result => amount_out result
  | ExactIn, Unavailable _ => 0
  | ExactOut, _ =>
      if amount request =? 0 then 0
      else
        match outcome with
        | Available result => amount_in result
        | Unavailable _ => uint_max 256
        end
  end.

(** ** The exact quote

    What a quote means, over unbounded integers: no error case, one settlement
    rule, every rounding written as a floor or a ceiling. *)

Module ExactQuote.

Definition usable_until (lane : LaneState) : Z :=
  lane_slot0_latest_update_block (slot0 lane) + lane_slot0_block_delay (slot0 lane).

Definition lane_for (st : QuoteState) (asset : Address) (block : Z)
    : result UnavailableReason LaneState :=
  match lanes st !! asset with
  | None => Err (MissingLane asset)
  | Some lane =>
      if negb (LaneState_exists lane) then Err (MissingLane asset)
      else if LaneState_paused lane then Err (PausedLane asset)
      else if block <=? usable_until lane then Ok lane else Err (StaleLane asset)
  end.

Definition principal (lane : LaneState) : Z :=
  Exact.lane_in (lane_slot0_price (slot0 lane)) (total_principal_amount lane) false.

Definition allocation (pol : QuotePolicy) (fee : Z) : option FeeAllocation :=
  (fun bps => {| partner_fee := fee * bps / BPS; treasury_fee := fee - fee * bps / BPS |})
    <$> verified_partner_fee_bps pol.

(** Settlement of an anchor against a total spread that includes the fee. *)
Definition settle (st : QuoteState) (pol : QuotePolicy) (req : QuoteRequest)
    (anchor fee total : Z) : QuoteOutcome :=
  let ei := is_exact_in (mode req) in
  if ei && (anchor <=? total) then Unavailable SpreadConsumesAnchor
  else
    let inp := if ei then amount req else anchor + total in
    let out := if ei then anchor - total else amount req in
    match output_reserve st (asset_out req) with
    | None => Unavailable (MissingLane (asset_out req))
    | Some reserve =>
        if reserve <? out + (if ei then fee else 0)
        then Unavailable (InsufficientOutputReserve (asset_out req))
        else Available {| amount_in := inp; amount_out := out;
                          fee_asset := if ei then asset_out req else asset_in req;
                          fee_amount := fee; fee_allocation := allocation pol fee |}
    end.

Definition convert (ei : bool) (price x : Z) (cash_to_asset : bool) : Z :=
  if ei then Exact.lane_in price x cash_to_asset else Exact.lane_out price x cash_to_asset.

Definition direct (st : QuoteState) (pol : QuotePolicy) (req : QuoteRequest)
    (asset : Address) (lane : LaneState) (cash_to_asset : bool) : QuoteOutcome :=
  let ei := is_exact_in (mode req) in
  let anchor := convert ei (lane_slot0_price (slot0 lane)) (amount req) cash_to_asset in
  if anchor =? 0 then Unavailable ZeroAnchor
  else if principal lane =? 0 then Unavailable (ZeroPrincipal asset)
  else
    let fee_bps :=
      Exact.router_fee (is_whitelisted (fee_class pol)) (blacklist_fee_multiplier st)
        (if cash_to_asset then lane_slot0_ask_fee_bps (slot0 lane)
         else lane_slot0_bid_fee_bps (slot0 lane)) in
    (* the cash side of the swap is the request or the anchor *)
    let swap_cash := if Bool.eqb cash_to_asset ei then amount req else anchor in
    let slip := Exact.slippage swap_cash (principal lane) (lane_slot0_slippage_k_bps (slot0 lane)) in
    settle st pol req anchor (Exact.spread_fee ei anchor fee_bps)
      (Exact.spread_fee ei anchor (fee_bps + slip)).

Definition route (st : QuoteState) (pol : QuotePolicy) (req : QuoteRequest)
    (lin lout : LaneState) : QuoteOutcome :=
  let ei := is_exact_in (mode req) in
  let pin := lane_slot0_price (slot0 lin) in
  let pout := lane_slot0_price (slot0 lout) in
  let mid := if ei then Exact.lane_in pin (amount req) false
             else Exact.lane_out pout (amount req) true in
  let anchor := if ei then Exact.lane_in pout mid true else Exact.lane_out pin mid false in
  if anchor =? 0 then Unavailable ZeroAnchor
  else if principal lin =? 0 then Unavailable (ZeroPrincipal (asset_in req))
  else if principal lout =? 0 then Unavailable (ZeroPrincipal (asset_out req))
  else
    let k := Exact.weighted_k (principal lin) (lane_slot0_slippage_k_bps (slot0 lin))
               (principal lout) (lane_slot0_slippage_k_bps (slot0 lout)) in
    let slip := Exact.slippage mid (principal lin + principal lout) k in
    let rfee := Exact.router_fee (is_whitelisted (fee_class pol)) (blacklist_fee_multiplier st) in
    let fee_bps := rfee (lane_slot0_bid_fee_bps (slot0 lin))
                   + rfee (lane_slot0_ask_fee_bps (slot0 lout)) in
    settle st pol req anchor (Exact.spread_fee ei anchor fee_bps)
      (Exact.spread_fee ei anchor (fee_bps + 2 * slip)).

Definition outcome (req : QuoteRequest) (block : Z) (st : QuoteState) (pol : QuotePolicy)
    : QuoteOutcome :=
  if amount req =? 0 then Unavailable ZeroAmount
  else if asset_in req =? asset_out req then Unavailable EqualAssets
  else
    let unavailable_or {A} (m : result UnavailableReason A) (f : A -> QuoteOutcome) :=
      match m with
      | Ok a => f a
      | Err reason => Unavailable reason
      end in
    if asset_out req =? cash st then
      unavailable_or (lane_for st (asset_in req) block)
        (fun lane => direct st pol req (asset_in req) lane false)
    else if asset_in req =? cash st then
      unavailable_or (lane_for st (asset_out req) block)
        (fun lane => direct st pol req (asset_out req) lane true)
    else
      unavailable_or (lane_for st (asset_in req) block) (fun lin =>
        unavailable_or (lane_for st (asset_out req) block) (fun lout =>
          route st pol req lin lout)).

End ExactQuote.

(** ** Widths of the quantities a quote reads *)

Lemma price_uint w : uint 112 (lane_slot0_price w).
Proof. by apply read_field_uint. Qed.
Lemma ask_uint w : uint 20 (lane_slot0_ask_fee_bps w).
Proof. by apply read_field_uint. Qed.
Lemma bid_uint w : uint 20 (lane_slot0_bid_fee_bps w).
Proof. by apply read_field_uint. Qed.
Lemma slippage_k_uint w : uint 32 (lane_slot0_slippage_k_bps w).
Proof. by apply read_field_uint. Qed.
Lemma update_block_uint w : uint 40 (lane_slot0_latest_update_block w).
Proof. by apply read_field_uint. Qed.
Lemma block_delay_uint w : uint 8 (lane_slot0_block_delay w).
Proof. by apply read_field_uint. Qed.

Lemma uint_weaken w w' x : 0 <= w <= w' -> uint w x -> uint w' x.
Proof. intros Hw [Hx Hx']. split; [done|]. pose proof (Z.pow_le_mono_r 2 w w'). lia. Qed.

(** The lane guard: 40 and 8 bits never saturate a 64-bit sum. *)
Lemma lane_or_reason_eq st a block :
  lane_or_reason st a block = ExactQuote.lane_for st a block.
Proof.
  unfold lane_or_reason, ExactQuote.lane_for. destruct (lanes st !! a) as [l|]; bsimpl; [|done].
  case_match; [done|]. case_match; [done|].
  pose proof (update_block_uint (slot0 l)) as [? Hub]. pose proof (block_delay_uint (slot0 l)) as [? Hbd].
  unfold uint_saturating_add, uint_max, ExactQuote.usable_until.
  assert (2 ^ 40 + 2 ^ 8 < 2 ^ 64 - 1) by done. rewrite Z.min_l by lia.
  destruct (Z.ltb_spec (lane_slot0_latest_update_block (slot0 l) + lane_slot0_block_delay (slot0 l)) block),
    (Z.leb_spec block (lane_slot0_latest_update_block (slot0 l) + lane_slot0_block_delay (slot0 l)));
    (done || lia).
Qed.

Lemma lane_for_ok st a block l :
  ExactQuote.lane_for st a block = Ok l <->
  lanes st !! a = Some l /\ LaneState_exists l = true /\ LaneState_paused l = false
  /\ block <= ExactQuote.usable_until l.
Proof.
  unfold ExactQuote.lane_for.
  destruct (lanes st !! a) as [l'|]; [|naive_solver].
  destruct (LaneState_exists l') eqn:Hex, (LaneState_paused l') eqn:Hpa; cbn [negb];
    try (split; [done|intros (? & ? & ? & ?); congruence]).
  destruct (Z.leb_spec block (ExactQuote.usable_until l')); [naive_solver|].
  split; [done|]. intros (? & ? & ? & ?). simplify_eq. lia.
Qed.

(** Bounds on the conversions: multiplying back by the divisor loses at most one unit. *)
Lemma lane_in_cash_bound p x : 0 <= p -> 0 <= x -> Exact.lane_in p x false * WAD <= x * p.
Proof.
  intros Hp Hx. unfold Exact.lane_in. destruct (Z.eqb_spec p 0) as [->|]; [lia|].
  rewrite Z.mul_comm. by apply Z.mul_div_le.
Qed.

Lemma lane_in_asset_bound p x : 0 <= p -> 0 <= x -> Exact.lane_in p x true <= x * WAD.
Proof.
  intros Hp Hx. unfold Exact.lane_in. pose proof WAD_pos.
  destruct (Z.eqb_spec p 0) as [->|]; [nia|]. apply Z.div_le_upper_bound; nia.
Qed.

Lemma lane_out_asset_bound p y : 0 <= p -> 0 <= y -> Exact.lane_out p y true * WAD <= y * p + WAD.
Proof.
  intros Hp Hy. unfold Exact.lane_out. pose proof WAD_pos.
  destruct (Z.eqb_spec p 0) as [->|]; [lia|]. pose proof (cdiv_spec (y * p) WAD WAD_pos). lia.
Qed.

Lemma lane_out_cash_bound p y : 0 <= p -> 0 <= y -> Exact.lane_out p y false <= y * WAD.
Proof.
  intros Hp Hy. unfold Exact.lane_out. pose proof WAD_pos.
  destruct (Z.eqb_spec p 0) as [->|]; [nia|]. apply cdiv_le_iff; nia.
Qed.

(** A lane's principal in cash: below [2 ^ 181], since [2 ^ 59 < WAD]. *)
Lemma principal_cash_value_eq l :
  lane_wf l -> principal_cash_value l = Ok (ExactQuote.principal l)
               /\ 0 <= ExactQuote.principal l < 2 ^ 181.
Proof.
  intros [_ _ [Hp Hp']]. unfold principal_cash_value, ExactQuote.principal.
  pose proof (price_uint (slot0 l)) as [Hq Hq'].
  set (q := lane_slot0_price (slot0 l)) in *. set (t := total_principal_amount l) in *.
  assert (0 <= Exact.lane_in q t false < 2 ^ 181) as Hb.
  { split; [by apply lane_in_nonneg|].
    pose proof (lane_in_cash_bound q t Hq Hp).
    assert (t * q < 2 ^ 128 * 2 ^ 112) by (apply Z.mul_lt_mono_nonneg; lia).
    change (2 ^ 128 * 2 ^ 112) with (2 ^ 59 * 2 ^ 181) in *.
    assert (2 ^ 59 < WAD) by done. nia. }
  split; [|done]. destruct (Z.eqb_spec t 0) as [E|].
  - rewrite E. unfold Exact.lane_in. by destruct (q =? 0).
  - apply quote_lane_exact_in_eq; lia.
Qed.

Lemma spread_of_eq ei a bps :
  0 <= a < 2 ^ 253 -> 0 <= bps <= 3 * BPS ->
  spread_of ei a bps = Ok (Exact.spread_fee ei a bps).
Proof.
  intros Ha Hb. assert (3 * BPS < 2 ^ 255) by done. assert (2 ^ 256 = 8 * 2 ^ 253) as E by done.
  destruct ei; cbn [spread_of].
  - apply spread_fee_in_eq; unfold uint; lia.
  - apply spread_fee_out_eq; [unfold uint; lia..|].
    pose proof (spread_fee_out_le a bps 3 ltac:(lia) ltac:(lia) ltac:(lia)). lia.
Qed.

(** When the partner share of a fee is computed in 256 bits. *)
Definition partner_fits (pol : QuotePolicy) (fee : Z) : Prop :=
  forall bps, verified_partner_fee_bps pol = Some bps -> 0 <= bps <= BPS /\ fee * bps < 2 ^ 256.

Lemma allocate_eq pol fee :
  0 <= fee -> partner_fits pol fee -> allocate pol fee = Ok (ExactQuote.allocation pol fee).
Proof.
  intros Hf Hp. unfold allocate, ExactQuote.allocation.
  destruct (verified_partner_fee_bps pol) as [bps|] eqn:E; [|done].
  destruct (Hp bps E). by rewrite split_fee_ok.
Qed.

Lemma settle_eq st pol req anchor fee total :
  state_wf st -> uint 256 (amount req) ->
  0 <= anchor -> 0 <= fee <= total -> anchor + total < 2 ^ 256 -> partner_fits pol fee ->
  assemble_quote st pol req (if is_exact_in (mode req) then asset_out req else asset_in req)
    anchor fee (total - fee)
  = Ok (ExactQuote.settle st pol req anchor fee total).
Proof.
  intros Hst [Ham _] Ha Hf Ht Hp. unfold assemble_quote, ExactQuote.settle.
  rewrite checked_add_eq by lia. bsimpl. replace (fee + (total - fee)) with total by lia.
  destruct (mode req) eqn:Hm; cbn [is_exact_in].
  - destruct (Z.leb_spec anchor total) as [|Hlt]; [done|].
    rewrite checked_sub_eq by lia. bsimpl.
    destruct (output_reserve st (asset_out req)) as [r|]; [|done].
    destruct (Z.ltb_spec r (anchor - total)).
    { bsimpl. by destruct (Z.ltb_spec r (anchor - total + fee)); [|lia]. }
    rewrite checked_sub_eq by lia. bsimpl.
    destruct (Z.ltb_spec (r - (anchor - total)) fee), (Z.ltb_spec r (anchor - total + fee));
      try (done || lia). by rewrite allocate_eq by (done || lia).
  - rewrite checked_add_eq by lia. bsimpl. rewrite Z.add_0_r.
    destruct (output_reserve st (asset_out req)) as [r|]; [|done].
    destruct (Z.ltb_spec r (amount req)); bsimpl; [done|]. by rewrite allocate_eq by (done || lia).
Qed.

(** How large a request may be: with a partner share the fee is multiplied in
    256 bits, which costs eight bits. *)
Definition amount_limit (pol : QuotePolicy) : Z :=
  match verified_partner_fee_bps pol with
  | None => 2 ^ 128
  | Some _ => 2 ^ 120
  end.

Record request_fits (req : QuoteRequest) (pol : QuotePolicy) : Prop := {
  fits_amount : 0 <= amount req < amount_limit pol;
  fits_partner : forall bps, verified_partner_fee_bps pol = Some bps -> 0 <= bps <= BPS
}.

Lemma amount_limit_le pol : amount_limit pol <= 2 ^ 128.
Proof. unfold amount_limit. by case_match. Qed.

(** Every anchor is at most [amount * 2 ^ 112 + WAD], so a partner's share of
    at most two anchors fits. *)
Lemma partner_fits_bound req pol anchor fee :
  request_fits req pol -> anchor <= amount req * 2 ^ 112 + WAD -> 0 <= fee <= 2 * anchor ->
  partner_fits pol fee.
Proof.
  intros [Ham Hp] Ha Hf bps E. split; [by apply Hp|]. specialize (Hp bps E).
  unfold amount_limit in Ham. rewrite E in Ham.
  assert (amount req * 2 ^ 112 <= 2 ^ 120 * 2 ^ 112) by (apply Z.mul_le_mono_nonneg_r; lia).
  assert (fee <= 2 ^ 234) by (assert (2 * (2 ^ 120 * 2 ^ 112 + WAD) <= 2 ^ 234) by done; lia).
  assert (fee * bps <= 2 ^ 234 * 2 ^ 20).
  { apply Z.mul_le_mono_nonneg; try lia. assert (BPS <= 2 ^ 20) by done. lia. }
  assert (2 ^ 234 * 2 ^ 20 < 2 ^ 256) by done. lia.
Qed.

(** Both spreads of an anchor, assembled. *)
Lemma spreads_settle st pol req anchor fee_bps total_bps :
  state_wf st -> uint 256 (amount req) -> request_fits req pol ->
  0 <= anchor <= amount req * 2 ^ 112 + WAD ->
  0 <= fee_bps <= 2 * BPS -> fee_bps <= total_bps <= 3 * BPS ->
  let ei := is_exact_in (mode req) in
  let fee := Exact.spread_fee ei anchor fee_bps in
  let total := Exact.spread_fee ei anchor total_bps in
  spread_of ei anchor fee_bps = Ok fee /\ spread_of ei anchor total_bps = Ok total
  /\ fee <= total
  /\ assemble_quote st pol req (if ei then asset_out req else asset_in req) anchor fee (total - fee)
     = Ok (ExactQuote.settle st pol req anchor fee total).
Proof.
  intros Hst Hq Hfit Ha Hb Ht. cbv zeta. set (ei := is_exact_in (mode req)).
  pose proof (amount_limit_le pol). pose proof Hfit as [Ham _]. pose proof BPS_pos.
  assert (amount req * 2 ^ 112 + WAD < 2 ^ 241).
  { assert (amount req * 2 ^ 112 <= 2 ^ 128 * 2 ^ 112) by (apply Z.mul_le_mono_nonneg_r; lia).
    assert (2 ^ 128 * 2 ^ 112 + WAD < 2 ^ 241) by done. lia. }
  assert (2 ^ 241 < 2 ^ 253) by done.
  rewrite !spread_of_eq by lia.
  assert (0 <= Exact.spread_fee ei anchor fee_bps <= 2 * anchor) as Hfee.
  { split; [apply spread_fee_nonneg; lia|]. destruct ei.
    - pose proof (spread_fee_in_le anchor fee_bps). lia.
    - pose proof (spread_fee_out_le anchor fee_bps 2). lia. }
  assert (Exact.spread_fee ei anchor total_bps <= 3 * anchor).
  { destruct ei.
    - pose proof (spread_fee_in_le anchor total_bps). lia.
    - pose proof (spread_fee_out_le anchor total_bps 3). lia. }
  pose proof (spread_fee_mono ei anchor fee_bps total_bps ltac:(lia) ltac:(lia)).
  split_and!; [done..|].
  assert (4 * 2 ^ 241 < 2 ^ 256) by done.
  apply settle_eq; try (done || lia). apply (partner_fits_bound req pol anchor); [done|lia|exact Hfee].
Qed.

Lemma convert_bounds ei p x c :
  uint 112 p -> 0 <= x < 2 ^ 128 ->
  0 <= ExactQuote.convert ei p x c <= x * 2 ^ 112 + WAD
  /\ (Bool.eqb c ei = false -> ExactQuote.convert ei p x c < 2 ^ 182).
Proof.
  intros [Hp Hp'] [Hx Hx']. unfold ExactQuote.convert. pose proof WAD_pos.
  assert (WAD < 2 ^ 112) by done. assert (2 ^ 59 < WAD) by done.
  assert (x * p <= x * 2 ^ 112) by (apply Z.mul_le_mono_nonneg_l; lia).
  assert (x * WAD <= x * 2 ^ 112) by (apply Z.mul_le_mono_nonneg_l; lia).
  assert (x * 2 ^ 112 <= 2 ^ 128 * 2 ^ 112) by (apply Z.mul_le_mono_nonneg_r; lia).
  change (2 ^ 128 * 2 ^ 112) with (2 ^ 59 * 2 ^ 181) in *.
  destruct ei, c; cbn [Bool.eqb].
  - pose proof (lane_in_nonneg p x true Hp Hx). pose proof (lane_in_asset_bound p x Hp Hx).
    split; [lia|done].
  - pose proof (lane_in_nonneg p x false Hp Hx). pose proof (lane_in_cash_bound p x Hp Hx).
    split; [nia|]. intros _. assert (2 ^ 182 = 2 * 2 ^ 181) by done. nia.
  - pose proof (lane_out_nonneg p x true Hp Hx). pose proof (lane_out_asset_bound p x Hp Hx).
    split; [nia|]. intros _. assert (2 ^ 182 = 2 * 2 ^ 181) by done. nia.
  - pose proof (lane_out_nonneg p x false Hp Hx). pose proof (lane_out_cash_bound p x Hp Hx).
    split; [lia|done].
Qed.

Lemma convert_eq m p x c :
  uint 112 p -> 0 <= x < 2 ^ 128 ->
  (match m with
   | ExactIn => quote_lane_exact_in p x c
   | ExactOut => quote_lane_exact_out p x c
   end) = Ok (ExactQuote.convert (is_exact_in m) p x c).
Proof.
  intros Hp Hx. pose proof (convert_bounds (is_exact_in m) p x c Hp Hx) as [Hb _].
  assert (x * 2 ^ 112 <= 2 ^ 128 * 2 ^ 112) by (apply Z.mul_le_mono_nonneg_r; lia).
  assert (2 ^ 128 * 2 ^ 112 + WAD < 2 ^ 256) by done.
  assert (2 ^ 128 < 2 ^ 256) by done. assert (2 ^ 112 < 2 ^ 256) by done. destruct Hp.
  destruct m; cbn [is_exact_in ExactQuote.convert] in *.
  - apply quote_lane_exact_in_eq; lia.
  - apply quote_lane_exact_out_eq; unfold uint; lia.
Qed.

Lemma slippage_small s p k :
  0 <= s < 2 ^ 182 -> 0 < p < 2 ^ 182 -> uint 32 k ->
  quote_lane_slippage_bps s p k = Ok (Exact.slippage s p k)
  /\ 0 <= Exact.slippage s p k <= 100000.
Proof.
  intros Hs Hp [Hk Hk']. assert (2 ^ 182 * 2 ^ 32 < 2 ^ 256) by done.
  assert (2 ^ 32 < 2 ^ 256) by done. assert (2 ^ 182 < 2 ^ 256) by done.
  split; [|apply slippage_bounds; lia].
  apply slippage_eq; unfold uint; try lia.
  assert (cdiv (s * k) p <= s * k) by (apply cdiv_le_iff; nia).
  assert (s * k <= 2 ^ 182 * 2 ^ 32) by (apply Z.mul_le_mono_nonneg; lia). lia.
Qed.

Lemma quote_direct_eq st pol req asset lane c :
  state_wf st -> request_fits req pol -> lane_wf lane ->
  quote_direct st pol req asset lane c
    (if is_exact_in (mode req) then asset_out req else asset_in req)
  = Ok (ExactQuote.direct st pol req asset lane c).
Proof.
  intros Hst Hfit Hl. pose proof (amount_limit_le pol). pose proof Hfit as [Ham _].
  assert (uint 256 (amount req)) as Hq.
  { assert (2 ^ 128 < 2 ^ 256) by done. unfold uint. lia. }
  unfold quote_direct, ExactQuote.direct. pose proof (price_uint (slot0 lane)) as Hprice.
  rewrite convert_eq by (done || lia). bsimpl.
  pose proof (convert_bounds (is_exact_in (mode req)) (lane_slot0_price (slot0 lane))
                (amount req) c Hprice ltac:(lia)) as [Ha Hswap].
  set (anchor := ExactQuote.convert _ _ _ _) in *. clearbody anchor.
  destruct (Z.eqb_spec anchor 0); [done|].
  destruct (principal_cash_value_eq lane Hl) as [-> Hp]. bsimpl.
  destruct (Z.eqb_spec (ExactQuote.principal lane) 0); [done|].
  set (raw := if c then lane_slot0_ask_fee_bps (slot0 lane)
              else lane_slot0_bid_fee_bps (slot0 lane)).
  assert (0 <= raw) by (unfold raw; destruct c; [apply ask_uint|apply bid_uint]).
  pose proof (wf_multiplier _ Hst) as [Hm _]. rewrite router_fee_eq by done. bsimpl.
  pose proof (router_fee_bounds (is_whitelisted (fee_class pol)) _ raw Hm ltac:(done)) as Hfb.
  set (fee_bps := Exact.router_fee _ _ _) in *. clearbody fee_bps.
  replace (if c then if is_exact_in (mode req) then amount req else anchor
           else if is_exact_in (mode req) then anchor else amount req)
    with (if Bool.eqb c (is_exact_in (mode req)) then amount req else anchor)
    by (by destruct c, (is_exact_in (mode req))).
  set (swap := if Bool.eqb c (is_exact_in (mode req)) then amount req else anchor).
  assert (0 <= swap < 2 ^ 182) as Hs.
  { assert (2 ^ 128 < 2 ^ 182) by done. unfold swap. destruct (Bool.eqb c _); [lia|]. split; [lia|auto]. }
  destruct (slippage_small swap (ExactQuote.principal lane)
              (lane_slot0_slippage_k_bps (slot0 lane))) as [-> Hslip];
    [done|assert (2 ^ 181 < 2 ^ 182) by done; lia|apply slippage_k_uint|]. bsimpl.
  set (slip := Exact.slippage _ _ _) in *. clearbody slip.
  assert (BPS = 1000000) by done.
  destruct (spreads_settle st pol req anchor fee_bps (fee_bps + slip))
    as (Hfee & Htot & Hle & Hset); [done..|lia|lia|lia|].
  unfold lane_spread. rewrite Hfee. bsimpl. rewrite checked_add_eq.
  2: { assert (3000000 < 2 ^ 256) by done. lia. }
  bsimpl. rewrite Htot. bsimpl. rewrite checked_sub_eq by done. bsimpl. exact Hset.
Qed.

(** The two conversions of a route. *)
Lemma route_bounds (ei : bool) pin pout x :
  uint 112 pin -> uint 112 pout -> 0 <= x < 2 ^ 128 ->
  let mid := if ei then Exact.lane_in pin x false else Exact.lane_out pout x true in
  let anchor := if ei then Exact.lane_in pout mid true else Exact.lane_out pin mid false in
  0 <= mid < 2 ^ 182 /\ 0 <= anchor <= x * 2 ^ 112 + WAD.
Proof.
  intros [Hi Hi'] [Ho Ho'] [Hx Hx']. cbv zeta. pose proof WAD_pos.
  assert (x * pin <= x * 2 ^ 112) by (apply Z.mul_le_mono_nonneg_l; lia).
  assert (x * pout <= x * 2 ^ 112) by (apply Z.mul_le_mono_nonneg_l; lia).
  destruct ei.
  - destruct (convert_bounds true pin x false) as [Hb Hs]; [done..|]. cbn in Hb, Hs.
    specialize (Hs eq_refl). pose proof (lane_in_cash_bound pin x Hi Hx).
    set (mid := Exact.lane_in pin x false) in *. clearbody mid. split; [lia|].
    pose proof (lane_in_asset_bound pout mid Ho ltac:(lia)).
    pose proof (lane_in_nonneg pout mid true Ho ltac:(lia)). lia.
  - destruct (convert_bounds false pout x true) as [Hb Hs]; [done..|]. cbn in Hb, Hs.
    specialize (Hs eq_refl). pose proof (lane_out_asset_bound pout x Ho Hx).
    set (mid := Exact.lane_out pout x true) in *. clearbody mid. split; [lia|].
    pose proof (lane_out_cash_bound pin mid Hi ltac:(lia)).
    pose proof (lane_out_nonneg pin mid false Hi ltac:(lia)). lia.
Qed.

Lemma route_convert_eq m pin pout x :
  uint 112 pin -> uint 112 pout -> 0 <= x < 2 ^ 128 ->
  let ei := is_exact_in m in
  let mid := if ei then Exact.lane_in pin x false else Exact.lane_out pout x true in
  let anchor := if ei then Exact.lane_in pout mid true else Exact.lane_out pin mid false in
  (match m return result MathError (Z * Z) with
   | ExactIn => intermediate ← quote_lane_exact_in pin x false;
                anchor ← quote_lane_exact_in pout intermediate true; Ok (intermediate, anchor)
   | ExactOut => intermediate ← quote_lane_exact_out pout x true;
                 anchor ← quote_lane_exact_out pin intermediate false; Ok (intermediate, anchor)
   end) = Ok (mid, anchor).
Proof.
  intros Hi Ho Hx. pose proof (route_bounds (is_exact_in m) pin pout x Hi Ho Hx) as [Hm Ha].
  cbv zeta in *.
  assert (x * 2 ^ 112 <= 2 ^ 128 * 2 ^ 112) by (apply Z.mul_le_mono_nonneg_r; lia).
  assert (2 ^ 128 * 2 ^ 112 + WAD < 2 ^ 256) by done. assert (2 ^ 182 < 2 ^ 256) by done.
  assert (2 ^ 112 < 2 ^ 256) by done. assert (2 ^ 128 < 2 ^ 256) by done.
  destruct Hi, Ho. destruct m; cbn [is_exact_in] in *.
  - rewrite quote_lane_exact_in_eq by lia. bsimpl. rewrite quote_lane_exact_in_eq by lia. done.
  - rewrite quote_lane_exact_out_eq by (unfold uint; lia). bsimpl.
    rewrite quote_lane_exact_out_eq by (unfold uint; lia). done.
Qed.

Lemma quote_route_eq st pol req lin lout :
  state_wf st -> request_fits req pol -> lane_wf lin -> lane_wf lout ->
  quote_route st pol req lin lout = Ok (ExactQuote.route st pol req lin lout).
Proof.
  intros Hst Hfit Hli Hlo. pose proof (amount_limit_le pol). pose proof Hfit as [Ham _].
  assert (uint 256 (amount req)) as Hq.
  { assert (2 ^ 128 < 2 ^ 256) by done. unfold uint. lia. }
  pose proof (price_uint (slot0 lin)) as Hpi. pose proof (price_uint (slot0 lout)) as Hpo.
  unfold quote_route, ExactQuote.route.
  rewrite route_convert_eq by (done || lia). bsimpl.
  pose proof (route_bounds (is_exact_in (mode req)) _ _ (amount req) Hpi Hpo ltac:(lia)) as [Hmid Ha].
  set (mid := if is_exact_in (mode req) then Exact.lane_in _ _ false else _) in *.
  set (anchor := if is_exact_in (mode req) then Exact.lane_in _ mid true else _) in *.
  clearbody anchor. clearbody mid.
  destruct (Z.eqb_spec anchor 0); [done|].
  destruct (principal_cash_value_eq lin Hli) as [-> Hp1]. bsimpl.
  destruct (Z.eqb_spec (ExactQuote.principal lin) 0); [done|].
  destruct (principal_cash_value_eq lout Hlo) as [-> Hp2]. bsimpl.
  destruct (Z.eqb_spec (ExactQuote.principal lout) 0); [done|].
  assert (2 * 2 ^ 181 = 2 ^ 182) by done. assert (2 ^ 182 < 2 ^ 256) by done.
  destruct (slippage_k_uint (slot0 lin)) as [Hk1 Hk1'], (slippage_k_uint (slot0 lout)) as [Hk2 Hk2'].
  assert (2 ^ 32 < 2 ^ 255) by done.
  rewrite weighted_k_eq by (unfold uint; lia). bsimpl.
  pose proof (weighted_k_bounds (ExactQuote.principal lin) (lane_slot0_slippage_k_bps (slot0 lin))
    (ExactQuote.principal lout) (lane_slot0_slippage_k_bps (slot0 lout))
    ltac:(lia) ltac:(lia) ltac:(lia) ltac:(lia)) as Hk.
  set (k := Exact.weighted_k _ _ _ _) in *. clearbody k.
  rewrite checked_add_eq by lia. bsimpl.
  assert (BPS = 1000000) as EB by done. assert (1000000 < 2 ^ 32) by done.
  destruct (slippage_small mid (ExactQuote.principal lin + ExactQuote.principal lout) k)
    as [-> Hslip]; [lia|lia|unfold uint; lia|]. bsimpl.
  set (slip := Exact.slippage _ _ _) in *. clearbody slip.
  pose proof (wf_multiplier _ Hst) as [Hm _].
  destruct (bid_uint (slot0 lin)) as [Hbid _], (ask_uint (slot0 lout)) as [Hask _].
  rewrite !router_fee_eq by done. bsimpl.
  pose proof (router_fee_bounds (is_whitelisted (fee_class pol)) _ _ Hm Hbid) as Hfb.
  pose proof (router_fee_bounds (is_whitelisted (fee_class pol)) _ _ Hm Hask) as Hfa.
  set (bid := Exact.router_fee _ _ (lane_slot0_bid_fee_bps _)) in *.
  set (ask := Exact.router_fee _ _ (lane_slot0_ask_fee_bps _)) in *. clearbody bid ask.
  assert (3000000 < 2 ^ 256) by done.
  destruct (spreads_settle st pol req anchor (bid + ask) (bid + ask + 2 * slip))
    as (Hfee & Htot & Hle & Hset); [done..|lia|lia|lia|].
  rewrite !checked_add_eq by lia. bsimpl. rewrite Hfee. bsimpl.
  rewrite !checked_add_eq by lia. bsimpl.
  replace (bid + slip + (ask + slip)) with (bid + ask + 2 * slip) by lia.
  rewrite Htot. bsimpl. rewrite checked_sub_eq by done. bsimpl. exact Hset.
Qed.

(** ** Successful computations on natural numbers stay natural *)

Lemma full_mul_div_down_nonneg x y d q :
  0 <= x -> 0 <= y -> 0 <= d -> full_mul_div_down x y d = Ok q -> 0 <= q.
Proof.
  intros Hx Hy Hd. unfold full_mul_div_down, checked_from_limbs_slice.
  destruct (Z.eqb_spec d 0); [done|]. case_match; [|done]. intros [= <-]. apply Z.div_pos; nia.
Qed.

Lemma full_mul_div_up_nonneg x y d q :
  0 <= x -> 0 <= y -> 0 <= d -> full_mul_div_up x y d = Ok q -> 0 <= q.
Proof.
  intros Hx Hy Hd. unfold full_mul_div_up, checked_from_limbs_slice.
  destruct (Z.eqb_spec d 0); [done|]. assert (0 <= x * y / d) by (apply Z.div_pos; nia).
  intros (q' & Hup & Hq)%bind_ok.
  assert (0 <= q').
  { destruct (negb _) in Hup; [apply ok_or_ok, uint_checked_add_Some in Hup; lia|by injection Hup as <-]. }
  case_match; [by injection Hq as <-|done].
Qed.

Lemma lane_exact_in_nonneg p x d q :
  0 <= p -> 0 <= x -> quote_lane_exact_in p x d = Ok q -> 0 <= q.
Proof.
  intros Hp Hx. unfold quote_lane_exact_in. pose proof WAD_pos. case_match; [by intros [= <-]|].
  destruct d; apply full_mul_div_down_nonneg; lia.
Qed.

Lemma lane_exact_out_nonneg p x d q :
  0 <= p -> 0 <= x -> quote_lane_exact_out p x d = Ok q -> 0 <= q.
Proof.
  intros Hp Hx. unfold quote_lane_exact_out. pose proof WAD_pos. case_match; [by intros [= <-]|].
  destruct d; apply full_mul_div_up_nonneg; lia.
Qed.

Lemma spread_of_nonneg ei a bps q : 0 <= a -> 0 <= bps -> spread_of ei a bps = Ok q -> 0 <= q.
Proof.
  intros Ha Hb. pose proof BPS_pos. destruct ei; cbn [spread_of];
    unfold quote_lane_exact_in_fee, quote_lane_exact_out_fee;
    (case_match; [by intros [= <-]|]).
  - intros (d & Hd & Hq)%bind_ok. apply checked_add_ok in Hd as [-> _].
    revert Hq. apply full_mul_div_up_nonneg; lia.
  - apply full_mul_div_up_nonneg; lia.
Qed.

Lemma fee_bps_nonneg w m fee q :
  0 <= m -> 0 <= fee -> calculate_fee_bps_for_router w m fee = Ok q -> 0 <= q.
Proof.
  intros Hm Hf. rewrite router_fee_eq by done. intros [= <-]. by apply router_fee_bounds.
Qed.

(** ** What an available quote promises *)

(** The amounts of a quote against the request: the requested side is exact,
    the output is settled from the reserve of the output asset together with
    the fee when the fee is taken from the output. *)
Definition settled (st : QuoteState) (req : QuoteRequest) (r : QuoteResult) : Prop :=
  exists reserve, output_reserve st (asset_out req) = Some reserve /\ 0 <= fee_amount r /\
  match mode req with
  | ExactIn => amount_in r = amount req /\ 0 < amount_out r
               /\ amount_out r + fee_amount r <= reserve /\ fee_asset r = asset_out req
  | ExactOut => amount_out r = amount req /\ amount_out r <= reserve
                /\ fee_amount r <= amount_in r < 2 ^ 256 /\ fee_asset r = asset_in req
  end.

(** The fee is split exactly when a verified partner share was given, in two
    non-negative parts that add up to the fee. *)
Definition allocated (pol : QuotePolicy) (r : QuoteResult) : Prop :=
  match fee_allocation r, verified_partner_fee_bps pol with
  | None, None => True
  | Some a, Some bps => partner_fee a = fee_amount r * bps / BPS
      /\ 0 <= partner_fee a /\ 0 <= treasury_fee a
      /\ partner_fee a + treasury_fee a = fee_amount r
  | _, _ => False
  end.

Lemma allocate_allocated pol fee al inp out fa :
  policy_wf pol -> 0 <= fee -> allocate pol fee = Ok al ->
  allocated pol (Build_QuoteResult inp out fa fee al).
Proof.
  intros Hpol Hf. unfold allocate, allocated. cbn.
  destruct (verified_partner_fee_bps pol) as [bps|] eqn:E; [|by intros [= <-]].
  intros ([p t] & (-> & -> & ?)%split_fee_inv & [= <-])%bind_ok; [|done|by apply Hpol].
  cbn. lia.
Qed.

Lemma assemble_available st pol req anchor fee slip r :
  policy_wf pol -> 0 <= anchor -> 0 <= fee -> 0 <= slip ->
  assemble_quote st pol req (if is_exact_in (mode req) then asset_out req else asset_in req)
    anchor fee slip = Ok (Available r) ->
  settled st req r /\ allocated pol r.
Proof.
  intros Hpol Ha Hf Hs. unfold assemble_quote, settled.
  intros (t & [-> _]%checked_add_ok & H)%bind_ok.
  destruct (mode req); cbn [is_exact_in] in *.
  - destruct (Z.leb_spec anchor (fee + slip)); [done|].
    apply bind_ok in H as (out & [-> _]%checked_sub_ok & H).
    destruct (output_reserve _ _) as [reserve|]; [|done].
    apply bind_ok in H as (b & Hb & H). destruct b; [done|].
    apply bind_ok in H as (al & Hal & [= <-]). split; [|by eapply allocate_allocated].
    exists reserve. cbn. destruct (Z.ltb_spec reserve (anchor - (fee + slip))); [done|].
    apply bind_ok in Hb as (rest & [-> _]%checked_sub_ok & [= Hb]).
    apply Z.ltb_ge in Hb. repeat split; (done || lia).
  - apply bind_ok in H as (inp & [-> Hov]%checked_add_ok & H).
    destruct (output_reserve _ _) as [reserve|]; [|done].
    destruct (Z.ltb_spec reserve (amount req)); [done|]. cbn in H.
    apply bind_ok in H as (al & Hal & [= <-]). split; [|by eapply allocate_allocated].
    exists reserve. cbn. repeat split; (done || lia).
Qed.

Lemma quote_direct_available st pol req asset lane c r :
  state_wf st -> policy_wf pol -> 0 <= amount req ->
  quote_direct st pol req asset lane c
    (if is_exact_in (mode req) then asset_out req else asset_in req) = Ok (Available r) ->
  settled st req r /\ allocated pol r.
Proof.
  intros Hst Hpol Ham. unfold quote_direct. pose proof (price_uint (slot0 lane)) as [Hp _].
  pose proof (wf_multiplier _ Hst) as [Hm _].
  intros (anchor & Ha & H)%bind_ok.
  assert (0 <= anchor).
  { destruct (mode req); revert Ha; [apply lane_exact_in_nonneg|apply lane_exact_out_nonneg]; done. }
  destruct (anchor =? 0); [done|]. apply bind_ok in H as (pr & _ & H).
  destruct (pr =? 0); [done|]. apply bind_ok in H as (bps & Hb & H).
  apply fee_bps_nonneg in Hb; [|done|destruct c; [apply ask_uint|apply bid_uint]].
  apply bind_ok in H as (slip & _ & H). apply bind_ok in H as ([fee sl] & Hsp & H).
  unfold lane_spread in Hsp. apply bind_ok in Hsp as (fee' & Hfee & Hsp).
  apply spread_of_nonneg in Hfee; [|done..].
  apply bind_ok in Hsp as (tb & _ & Hsp). apply bind_ok in Hsp as (tot & _ & Hsp).
  apply bind_ok in Hsp as (sl' & [-> Hle]%checked_sub_ok & [= -> <-]).
  eapply assemble_available; [done| | | |exact H]; lia.
Qed.

Lemma quote_route_available st pol req lin lout r :
  state_wf st -> policy_wf pol -> 0 <= amount req ->
  quote_route st pol req lin lout = Ok (Available r) ->
  settled st req r /\ allocated pol r.
Proof.
  intros Hst Hpol Ham. unfold quote_route.
  pose proof (price_uint (slot0 lin)) as [Hpi _]. pose proof (price_uint (slot0 lout)) as [Hpo _].
  pose proof (wf_multiplier _ Hst) as [Hm _].
  intros ([mid anchor] & Ha & H)%bind_ok.
  assert (0 <= anchor).
  { destruct (mode req); apply bind_ok in Ha as (x & Hx & Ha); apply bind_ok in Ha as (y & Hy & [= _ <-]).
    - apply lane_exact_in_nonneg in Hx; [|done..]. revert Hy. by apply lane_exact_in_nonneg.
    - apply lane_exact_out_nonneg in Hx; [|done..]. revert Hy. by apply lane_exact_out_nonneg. }
  destruct (anchor =? 0); [done|].
  apply bind_ok in H as (p1 & _ & H). destruct (p1 =? 0); [done|].
  apply bind_ok in H as (p2 & _ & H). destruct (p2 =? 0); [done|].
  apply bind_ok in H as (k & _ & H). apply bind_ok in H as (ps & _ & H).
  apply bind_ok in H as (slip & _ & H).
  apply bind_ok in H as (bid & Hbid & H). apply fee_bps_nonneg in Hbid; [|done|apply bid_uint].
  apply bind_ok in H as (ask & Hask & H). apply fee_bps_nonneg in Hask; [|done|apply ask_uint].
  apply bind_ok in H as (fb & [-> _]%checked_add_ok & H).
  apply bind_ok in H as (fee & Hfee & H). apply spread_of_nonneg in Hfee; [|lia..].
  apply bind_ok in H as (? & _ & H). apply bind_ok in H as (? & _ & H).
  apply bind_ok in H as (? & _ & H). apply bind_ok in H as (tot & _ & H).
  apply bind_ok in H as (sl & [-> Hle]%checked_sub_ok & H).
  eapply assemble_available; [done| | | |exact H]; lia.
Qed.

Lemma quote_available_legs req block st pol r :
  quote req block st pol = Ok (Available r) ->
  amount req <> 0 /\ asset_in req <> asset_out req /\
  (forall a, a = asset_in req \/ a = asset_out req -> a <> cash st ->
     exists lane, ExactQuote.lane_for st a block = Ok lane).
Proof.
  unfold quote. rewrite !lane_or_reason_eq.
  destruct (Z.eqb_spec (amount req) 0); [done|].
  destruct (Z.eqb_spec (asset_in req) (asset_out req)); [done|].
  destruct (Z.eqb_spec (asset_out req) (cash st)); [|destruct (Z.eqb_spec (asset_in req) (cash st))];
    repeat (case_match; try done); naive_solver.
Qed.

(** ** Sample data for the concrete checks *)

Definition sample_lane (price ask bid : Z) : LaneState :=
  {| slot0 := slot0_word {| price := price; ask_fee_bps := ask; bid_fee_bps := bid;
       price_push_threshold := 0; threshold_enabled := false; latest_update_block := 100;
       lane_exists := true; lane_paused := false; block_delay := 5; slippage_k_bps := 1000;
       reserved_high_bits := 0 |};
     asset_reserve := 2 ^ 100; total_principal_amount := 1000000 |}.

Definition sample_state : QuoteState :=
  {| cash := 1; cash_reserve := 2 ^ 100; blacklist_fee_multiplier := 3;
     lanes := <[4 := sample_lane (2 * WAD) 0 10000]> (<[5 := sample_lane WAD 10000 0]> ∅) |}.

Lemma sample_state_wf : state_wf sample_state.
Proof.
  split; [by vm_compute| |by vm_compute].
  apply map_Forall_insert_2; [split; by vm_compute|].
  apply map_Forall_insert_2; [split; by vm_compute|]. apply map_Forall_empty.
Qed.

Definition sample_request (a b : Address) (x : Z) (m : QuoteMode) : QuoteRequest :=
  {| asset_in := a; asset_out := b; amount := x; mode := m |}.

Lemma quote_exact req block st pol :
  state_wf st -> request_fits req pol ->
  quote req block st pol = Ok (ExactQuote.outcome req block st pol).
Proof.
  intros Hst Hfit. unfold quote, ExactQuote.outcome. rewrite !lane_or_reason_eq.
  assert (forall a l, ExactQuote.lane_for st a block = Ok l -> lane_wf l) as Hwf.
  { intros a l (Hl & _)%lane_for_ok. eauto. }
  destruct (amount req =? 0); [done|]. destruct (asset_in req =? asset_out req); [done|].
  destruct (asset_out req =? cash st); [|destruct (asset_in req =? cash st)].
  - destruct (ExactQuote.lane_for _ (asset_in req) _) eqn:?; [|done].
    by rewrite (quote_direct_eq st pol req (asset_in req)) by eauto.
  - destruct (ExactQuote.lane_for _ (asset_out req) _) eqn:?; [|done].
    by rewrite (quote_direct_eq st pol req (asset_out req)) by eauto.
  - destruct (ExactQuote.lane_for _ (asset_in req) _) eqn:?; [|done].
    destruct (ExactQuote.lane_for _ (asset_out req) _) eqn:?; [|done].
    by rewrite quote_route_eq by eauto.
Qed.

(** ** Properties *)

(** C2: refinement and totality of the quote engine. On every well-formed state
    and every request below the amount limit ([2^128], or [2^120] when a
    verified partner share of at most 100% is split off), [quote] never returns
    an arithmetic error and its outcome is exactly the one of the unbounded
    integer specification, unavailability reasons included. *)
Theorem quote_refines_exact req block st pol :
  state_wf st -> request_fits req pol ->
  quote req block st pol = Ok (ExactQuote.outcome req block st pol).
Proof. apply quote_exact. Qed.

Lemma quote_refines_exact_witness :
  quote (sample_request 4 5 100 ExactIn) 103 sample_state
    (with_verified_partner_fee NonWhitelisted 500000)
  = Ok (Available {| amount_in := 100; amount_out := 188; fee_asset := 5; fee_amount := 12;
                     fee_allocation := Some {| partner_fee := 6; treasury_fee := 6 |} |}).
Proof.
  etransitivity; [apply (quote_refines_exact (sample_request 4 5 100 ExactIn) 103 sample_state
    (with_verified_partner_fee NonWhitelisted 500000))|vm_compute; reflexivity].
  - exact sample_state_wf.
  - split; [split; vm_compute; congruence|intros bps [= <-]; split; vm_compute; congruence].
Defined.

(** C7: every available quote is settled. For any 256-bit request, any policy and
    any well-formed state, a quote reported as available keeps the requested
    side exactly, is covered by the reserve of the output asset (fee included
    when it is paid from the output), charges its fee in the asset the mode
    prescribes, and splits it between partner and treasury without losing or
    creating a unit. *)
Theorem available_quote_is_settled req block st pol r :
  state_wf st -> policy_wf pol -> uint 256 (amount req) ->
  quote req block st pol = Ok (Available r) ->
  settled st req r /\ allocated pol r.
Proof.
  intros Hst Hpol [Ham _]. unfold quote.
  destruct (amount req =? 0); [done|]. destruct (asset_in req =? asset_out req); [done|].
  destruct (asset_out req =? cash st); [|destruct (asset_in req =? cash st)].
  - destruct (lane_or_reason _ _ _); [|done]. rewrite map_err_ok. by apply quote_direct_available.
  - destruct (lane_or_reason _ _ _); [|done]. rewrite map_err_ok. by apply quote_direct_available.
  - do 2 (destruct (lane_or_reason _ _ _); [|done]). rewrite map_err_ok.
    by apply quote_route_available.
Qed.

Lemma available_quote_is_settled_witness :
  exists r, quote (sample_request 1 5 7 ExactOut) 103 sample_state
              (policy_base NonWhitelisted) = Ok (Available r)
    /\ settled sample_state (sample_request 1 5 7 ExactOut) r
    /\ allocated (policy_base NonWhitelisted) r.
Proof.
  eexists. split; [vm_compute; reflexivity|].
  apply (available_quote_is_settled (sample_request 1 5 7 ExactOut) 103 sample_state
           (policy_base NonWhitelisted)).
  - exact sample_state_wf.
  - intros bps [=].
  - split; vm_compute; congruence.
  - vm_compute; reflexivity.
Defined.

(** C26: quotes use live lanes only. An available quote has a non-zero amount and
    two different assets, and every asset of it that is not the cash asset has
    a lane that exists, is not paused, and was updated recently enough for the
    execution block. *)
Theorem available_quote_uses_live_lanes req block st pol r a :
  quote req block st pol = Ok (Available r) ->
  a = asset_in req \/ a = asset_out req -> a <> cash st ->
  amount req <> 0 /\ asset_in req <> asset_out req /\
  exists lane, lanes st !! a = Some lane /\ LaneState_exists lane = true
    /\ LaneState_paused lane = false
    /\ block <= lane_slot0_latest_update_block (slot0 lane) + lane_slot0_block_delay (slot0 lane).
Proof.
  intros (? & ? & Hlegs)%quote_available_legs Ha Hc. do 2 (split; [done|]).
  destruct (Hlegs a Ha Hc) as (lane & (? & ? & ? & ?)%lane_for_ok). by exists lane.
Qed.

Lemma available_quote_uses_live_lanes_witness :
  exists r lane, quote (sample_request 1 5 7 ExactOut) 103 sample_state
                   (policy_base NonWhitelisted) = Ok (Available r)
    /\ lanes sample_state !! 5 = Some lane /\ LaneState_paused lane = false.
Proof.
  eassert (quote (sample_request 1 5 7 ExactOut) 103 sample_state (policy_base NonWhitelisted)
           = Ok (Available _)) as H by (vm_compute; reflexivity).
  destruct (available_quote_uses_live_lanes _ _ _ _ _ 5 H) as (_ & _ & lane & ? & _ & ? & _);
    [right; reflexivity|discriminate|].
  eexists _, lane. split; [exact H|split; assumption].
Defined.
