(* ===== verification/GoldenVectors.v ===== *)
(** * The repository's golden quote vectors (fixtures/quote-vectors.json)

    The ten vectors the Rust and TypeScript engines are tested against, evaluated
    by the translated engine. They are checks on the model, not properties. *)

From S2P Require Import Prelude Arithmetic Slot0 State Quote.

(** A [laneSlot0] word with the fields the vectors set: price, ask fee, bid fee,
    update block, exists, paused, block delay and slippage coefficient. *)
Definition golden_slot0 (p a b u : Z) (e pa : bool) (d k : Z) : Z :=
  match encode_lane_slot0
    {| price := p; ask_fee_bps := a; bid_fee_bps := b; price_push_threshold := 0;
       threshold_enabled := false; latest_update_block := u; lane_exists := e;
       lane_paused := pa; block_delay := d; slippage_k_bps := k; reserved_high_bits := 0 |} with
  | Ok w => w
  | Err _ => 0
  end.

Abbreviation no_lanes := (∅ : gmap Z LaneState) (only parsing).

Example golden_0 :
  (quote (Build_QuoteRequest 1 2 100 ExactIn) 100
    (Build_QuoteState 1 (uint_max 128) 
      (<[2 := Build_LaneState (golden_slot0 2000000000000000000 10000 0 100 true false 0 0) (uint_max 128) 1000000]> no_lanes) 1)
    (with_verified_partner_fee NonWhitelisted 500000))
  = Ok (Available (Build_QuoteResult 100 49 2 1 (Some (Build_FeeAllocation 0 1)))).
Proof. by vm_compute. Qed.

Example golden_1 :
  (quote (Build_QuoteRequest 2 1 100 ExactOut) 100
    (Build_QuoteState 1 (uint_max 128) 
      (<[2 := Build_LaneState (golden_slot0 2000000000000000000 0 10000 100 true false 0 0) (uint_max 128) 1000000]> no_lanes) 1)
    (with_verified_partner_fee NonWhitelisted 500000))
  = Ok (Available (Build_QuoteResult 51 100 2 1 (Some (Build_FeeAllocation 0 1)))).
Proof. by vm_compute. Qed.

Example golden_2 :
  (quote (Build_QuoteRequest 4 5 100 ExactIn) 100
    (Build_QuoteState 1 (uint_max 128) 
      (<[5 := Build_LaneState (golden_slot0 500000000000000000 10000 0 100 true false 0 1000) (uint_max 128) 2000000]> 
      (<[4 := Build_LaneState (golden_slot0 2000000000000000000 0 10000 100 true false 0 1000) (uint_max 128) 1000000]> no_lanes)) 1)
    (with_verified_partner_fee NonWhitelisted 0))
  = Ok (Available (Build_QuoteResult 100 392 5 8 (Some (Build_FeeAllocation 0 8)))).
Proof. by vm_compute. Qed.

Example golden_3 :
  (match quote (Build_QuoteRequest 1 2 0 ExactOut) 100
    (Build_QuoteState 1 (uint_max 128) no_lanes 0)
    (with_verified_partner_fee NonWhitelisted 0) with Ok o => solidity_quote_amount (Build_QuoteRequest 1 2 0 ExactOut) o | _ => -1 end) = 0.
Proof. by vm_compute. Qed.

Example golden_4 :
  (quote (Build_QuoteRequest 1 2 100 ExactOut) 100
    (Build_QuoteState 1 (uint_max 128) 
      (<[2 := Build_LaneState (golden_slot0 2000000000000000000 10000 0 100 true false 0 0) (uint_max 128) 1000000]> no_lanes) 1)
    (with_verified_partner_fee NonWhitelisted 500000))
  = Ok (Available (Build_QuoteResult 202 100 1 2 (Some (Build_FeeAllocation 1 1)))).
Proof. by vm_compute. Qed.

Example golden_5 :
  (quote (Build_QuoteRequest 2 1 100 ExactIn) 100
    (Build_QuoteState 1 (uint_max 128) 
      (<[2 := Build_LaneState (golden_slot0 2000000000000000000 0 10000 100 true false 0 0) (uint_max 128) 1000000]> no_lanes) 1)
    (with_verified_partner_fee NonWhitelisted 500000))
  = Ok (Available (Build_QuoteResult 100 198 1 2 (Some (Build_FeeAllocation 1 1)))).
Proof. by vm_compute. Qed.

Example golden_6 :
  (quote (Build_QuoteRequest 4 5 100 ExactOut) 100
    (Build_QuoteState 1 (uint_max 128) 
      (<[5 := Build_LaneState (golden_slot0 500000000000000000 10000 0 100 true false 0 1000) (uint_max 128) 2000000]> 
      (<[4 := Build_LaneState (golden_slot0 2000000000000000000 0 10000 100 true false 0 1000) (uint_max 128) 1000000]> no_lanes)) 1)
    (with_verified_partner_fee NonWhitelisted 0))
  = Ok (Available (Build_QuoteResult 26 100 4 1 (Some (Build_FeeAllocation 0 1)))).
Proof. by vm_compute. Qed.

Example golden_7 :
  (quote (Build_QuoteRequest 1 2 100 ExactIn) 100
    (Build_QuoteState 1 (uint_max 128) 
      (<[2 := Build_LaneState (golden_slot0 2000000000000000000 10000 0 100 true false 0 0) (uint_max 128) 1000000]> no_lanes) 1000)
    (with_verified_partner_fee NonWhitelisted 500000))
  = Ok (Available (Build_QuoteResult 100 25 2 25 (Some (Build_FeeAllocation 12 13)))).
Proof. by vm_compute. Qed.

Example golden_8 :
  (quote (Build_QuoteRequest 1 2 100 ExactIn) 100
    (Build_QuoteState 1 (uint_max 128) 
      (<[2 := Build_LaneState (golden_slot0 2000000000000000000 10000 0 100 true false 0 0) (uint_max 128) 1000000]> no_lanes) (uint_max 256))
    (with_verified_partner_fee Whitelisted 500000))
  = Ok (Available (Build_QuoteResult 100 49 2 1 (Some (Build_FeeAllocation 0 1)))).
Proof. by vm_compute. Qed.

Example golden_9 :
  (match quote (Build_QuoteRequest 1 2 (uint_max 256) ExactIn) 100
    (Build_QuoteState 1 (uint_max 128) 
      (<[2 := Build_LaneState (golden_slot0 2000000000000000000 10000 0 100 true false 0 0) (uint_max 128) 1000000]> no_lanes) 1)
    (with_verified_partner_fee NonWhitelisted 1000000) with Ok o => solidity_quote_amount (Build_QuoteRequest 1 2 (uint_max 256) ExactIn) o | _ => -1 end) = 0.
Proof. by vm_compute. Qed.
