(* ===== verification/Model.v ===== *)
(** * The runtime model of the client (crates/lunarbase-client/src/model.rs,
    model/correction.rs)

    Cursors, blocks, logs and updates shared by every source, the deployment and
    checkpoint checks, and the validation and identity of optimistic
    corrections. Byte buffers are the lists of their visible bytes, so
    [normalize_for_retention] (model/retention.rs), which only detaches the
    payload from a larger backing buffer, is the identity here. *)

From S2P Require Import Prelude StableSort Arithmetic Slot0 State.

Definition MIN_UPDATE_QUEUE_BYTE_CAPACITY : Z := 1024.
Definition SCHEMA_VERSION : Z := 6.
Definition MATH_COMPATIBILITY_VERSION : string := "lunarbase-pmm-v2".

Inductive Network := Evm | Base | Monad | Arbitrum.

#[export] Instance Network_eq_dec : EqDecision Network.
Proof. solve_decision. Defined.

Definition default_chain_id (n : Network) : option Z :=
  match n with
  | Evm => None
  | Base => Some 8453
  | Monad => Some 143
  | Arbitrum => Some 42161
  end.

Inductive Commitment := Realtime | Canonical | Finalized.

#[export] Instance Commitment_eq_dec : EqDecision Commitment.
Proof. solve_decision. Defined.

Record ChainCursor := {
  chain_id : Z;
  block_number : Z;
  execution_block_number : Z;
  block_hash : option B256;
  transaction_index : option Z;
  log_index : option Z;
  source_sequence : option Z;
  source_sub_index : option Z;
  commitment : Commitment
}.

#[export] Instance ChainCursor_eq_dec : EqDecision ChainCursor.
Proof. solve_decision. Defined.

Definition cursor_execution_block (chain block execution : Z) (hash : option B256)
    (c : Commitment) : ChainCursor :=
  {| chain_id := chain; block_number := block; execution_block_number := execution;
     block_hash := hash; transaction_index := None; log_index := None;
     source_sequence := None; source_sub_index := None; commitment := c |}.

Definition cursor_block (chain block : Z) (hash : option B256) (c : Commitment) : ChainCursor :=
  cursor_execution_block chain block block hash c.

(** The event position [(block, transaction, log, sequence, sub-index)]. *)
Definition EventOrder : Type := Z * Z * Z * Z * Z.

Definition event_order (c : ChainCursor) : EventOrder :=
  let '(transport_order, transport_sub_index) :=
    if negb (is_some (transaction_index c)) && negb (is_some (log_index c))
    then (default 0 (source_sequence c), default 0 (source_sub_index c))
    else (0, 0) in
  (block_number c, default 0 (transaction_index c), default 0 (log_index c),
   transport_order, transport_sub_index).

(** Tuples of integers compare lexicographically. *)
Definition order_ltb (x y : EventOrder) : bool :=
  let '(x1, x2, x3, x4, x5) := x in
  let '(y1, y2, y3, y4, y5) := y in
  (x1 <? y1) || ((x1 =? y1) && ((x2 <? y2) || ((x2 =? y2) && ((x3 <? y3) || ((x3 =? y3)
    && ((x4 <? y4) || ((x4 =? y4) && (x5 <? y5)))))))).
Definition order_leb (x y : EventOrder) : bool := negb (order_ltb y x).

Record BlockRef := {
  br_cursor : ChainCursor;
  br_parent_hash : option B256
}.

#[export] Instance BlockRef_eq_dec : EqDecision BlockRef.
Proof. solve_decision. Defined.

Record ContractLog := {
  log_address : Address;
  log_transaction_hash : option B256;
  log_topics : list B256;
  (* [topics.capacity()], which the memory charge reads *)
  log_topics_capacity : Z;
  log_data : list Z;
  log_removed : bool;
  log_cursor : ChainCursor
}.

#[export] Instance ContractLog_eq_dec : EqDecision ContractLog.
Proof. solve_decision. Defined.

Record ChainCorrection := {
  common_ancestor : BlockRef;
  old_tip : BlockRef;
  new_tip : BlockRef;
  old_branch : list BlockRef;
  new_branch : list BlockRef;
  replacement_logs : list ContractLog;
  (* vector capacities *)
  old_branch_capacity : Z;
  new_branch_capacity : Z;
  replacement_logs_capacity : Z
}.

#[export] Instance ChainCorrection_eq_dec : EqDecision ChainCorrection.
Proof. solve_decision. Defined.

Inductive ChainUpdate :=
| Head (block : BlockRef)
| Log (log : ContractLog)
| Reorg (old_head new_head : BlockRef)
| Correction (correction : ChainCorrection)
| Gap (cursor : option ChainCursor) (reason : string) (reason_capacity : Z).

#[export] Instance ChainUpdate_eq_dec : EqDecision ChainUpdate.
Proof. solve_decision. Defined.

(** The sizes the compiler gives the retained types. *)
Class MemLayout := {
  size_of_B256 : Z;
  size_of_BlockRef : Z;
  size_of_ContractLog : Z;
  size_of_ChainCorrection : Z;
  size_of_ChainUpdate : Z;
  sizes_nonneg : 0 <= size_of_B256 /\ 0 <= size_of_BlockRef /\ 0 <= size_of_ContractLog
                 /\ 0 <= size_of_ChainCorrection /\ 0 < size_of_ChainUpdate < 2 ^ 32
}.

Abbreviation usize_add := (uint_saturating_add USIZE) (only parsing).
Abbreviation usize_mul := (uint_saturating_mul USIZE) (only parsing).
Abbreviation usize_sub := uint_saturating_sub (only parsing).

Definition log_retained_bytes `{MemLayout} (log : ContractLog) : Z :=
  usize_add (usize_add size_of_ContractLog (usize_mul (log_topics_capacity log) size_of_B256))
    (Z.of_nat (length (log_data log))).

Definition correction_retained_bytes `{MemLayout} (c : ChainCorrection) : Z :=
  let branches :=
    usize_mul (usize_add (old_branch_capacity c) (new_branch_capacity c)) size_of_BlockRef in
  let logs :=
    usize_add (usize_mul (replacement_logs_capacity c) size_of_ContractLog)
      (fold_left (fun bytes log =>
         usize_add bytes (usize_sub (log_retained_bytes log) size_of_ContractLog))
         (replacement_logs c) 0) in
  usize_add (usize_add size_of_ChainCorrection branches) logs.

Definition update_retained_bytes `{MemLayout} (u : ChainUpdate) : Z :=
  let dynamic :=
    match u with
    | Log log => usize_sub (log_retained_bytes log) size_of_ContractLog
    | Gap _ _ reason_capacity => reason_capacity
    | Correction correction => correction_retained_bytes correction
    | Head _ | Reorg _ _ => 0
    end in
  usize_add size_of_ChainUpdate dynamic.

Record ContractFilter := {
  filter_address : Address;
  filter_topics : list B256
}.

Record BackfillRequest := {
  from_block : Z;
  to_block : Z;
  filter : ContractFilter
}.

Inductive SourceError :=
| NetworkMismatch
| SourceGap (reason : string)
| SourceUnavailable (reason : string).

#[export] Instance SourceError_eq_dec : EqDecision SourceError.
Proof. solve_decision. Defined.

Inductive LogDecodeError :=
| MissingTopic0
| InvalidTopicCount
| InvalidDataLength
| InvalidAddress
| InvalidBoolean.

#[export] Instance LogDecodeError_eq_dec : EqDecision LogDecodeError.
Proof. solve_decision. Defined.

Inductive QuoteEvent :=
| LaneAdded (asset : Address)
| LaneRemoved (asset : Address)
| LaneUpdated (asset : Address) (slot0 : U256)
| SlippageKSet (asset : Address) (new_k : Z)
| LanePausedSet (asset : Address) (paused : bool)
| PricePushThresholdSet (asset : Address) (price_push_threshold : Z) (enabled : bool)
| BlockDelaySet (asset : Address) (block_delay : Z)
| PartnerInfoSet (router asset : Address) (fee : Z)
| PartnerFeeSet (router asset : Address) (fee : Z)
| WhitelistSet (router : Address) (whitelisted : bool)
| BlacklistFeeMultiplierSet (multiplier : U256)
| DepositExecuted (asset : Address) (principal : Z)
| WithdrawalExecuted (asset : Address) (principal : Z)
| Sync (asset : Address) (asset_reserve cash_reserve : Z)
| ImplementationUpgraded (implementation : Address).

#[export] Instance QuoteEvent_eq_dec : EqDecision QuoteEvent.
Proof. solve_decision. Defined.

(** ** Deployment and checkpoint checks *)

Record DeploymentConfig := {
  dep_network : Network;
  dep_chain_id : Z;
  dep_core : Address;
  dep_fee_class : FeeClass;
  verified_router : option Address;
  dep_deployment_block : Z;
  dep_expected_implementation : Address;
  dep_expected_implementation_code_hash : B256;
  contract_compatibility_version : string;
  dep_explicit_lane_assets : list Address
}.

(** The loop over the lane assets, with the set of the ones seen so far. *)
Fixpoint validate_lane_assets (lanes : gset Address) (assets : list Address)
    : result SourceError unit :=
  match assets with
  | [] => Ok tt
  | asset :: assets =>
      if asset =? Address_ZERO
      then Err (SourceUnavailable "explicit lane assets must be non-zero")
      else if bool_decide (asset ∈ lanes)
      then Err (SourceUnavailable "explicit lane assets must be unique")
      else validate_lane_assets ({[ asset ]} ∪ lanes) assets
  end.

Definition deployment_validate (d : DeploymentConfig) : result SourceError unit :=
  if dep_chain_id d =? 0 then Err (SourceUnavailable "invalid chain id")
  else if dep_core d =? Address_ZERO then Err (SourceUnavailable "Core must be non-zero")
  else if bool_decide (verified_router d = Some Address_ZERO)
  then Err (SourceUnavailable "verified router must be non-zero")
  else if dep_expected_implementation d =? Address_ZERO
  then Err (SourceUnavailable "expected Core implementation must be non-zero")
  else if dep_expected_implementation_code_hash d =? B256_ZERO
  then Err (SourceUnavailable "expected Core implementation code hash must be non-zero")
  else if negb (bool_decide (contract_compatibility_version d = MATH_COMPATIBILITY_VERSION))
  then Err (SourceUnavailable
              ("contract compatibility mismatch: expected " +:+ MATH_COMPATIBILITY_VERSION))
  else validate_lane_assets ∅ (dep_explicit_lane_assets d).

Record Checkpoint := {
  schema_version : Z;
  math_compatibility_version : string;
  expected_implementation : Address;
  expected_implementation_code_hash : B256;
  ck_chain_id : Z;
  ck_network : Network;
  ck_core : Address;
  deployment_block : Z;
  explicit_lane_assets : list Address;
  ck_cursor : ChainCursor;
  ck_state : QuoteState
}.

(** What a lane of a restart state must look like. *)
Definition lane_is_valid (cash_asset asset : Address) (lane : LaneState) : bool :=
  negb (asset =? Address_ZERO) && negb (asset =? cash_asset) && LaneState_exists lane
  && (lane_slot0_ask_fee_bps (slot0 lane) <=? BPS)
  && (lane_slot0_bid_fee_bps (slot0 lane) <=? BPS)
  && (lane_slot0_slippage_k_bps (slot0 lane) <=? BPS).

Definition has_valid_structure (k : Checkpoint) : bool :=
  let c := ck_cursor k in
  let event_coordinates_are_paired :=
    Bool.eqb (is_some (transaction_index c)) (is_some (log_index c)) in
  let transport_coordinates_are_paired :=
    negb (is_some (source_sub_index c)) || is_some (source_sequence c) in
  let unique_explicit_lanes : gset Address := list_to_set (explicit_lane_assets k) in
  let lanes_are_valid :=
    forallb (fun '(asset, lane) => lane_is_valid (cash (ck_state k)) asset lane)
      (map_to_list (lanes (ck_state k))) in
  negb (ck_chain_id k =? 0)
  && (chain_id c =? ck_chain_id k)
  && (deployment_block k <=? block_number c)
  && match block_hash c with
     | Some hash => negb (hash =? B256_ZERO)
     | None => false
     end
  && event_coordinates_are_paired
  && transport_coordinates_are_paired
  && negb (expected_implementation k =? Address_ZERO)
  && negb (expected_implementation_code_hash k =? B256_ZERO)
  && negb (ck_core k =? Address_ZERO)
  && negb (cash (ck_state k) =? Address_ZERO)
  && Nat.eqb (size unique_explicit_lanes) (length (explicit_lane_assets k))
  && negb (bool_decide (Address_ZERO ∈ unique_explicit_lanes))
  && lanes_are_valid.

Definition same_address_set (left right : list Address) : bool :=
  Nat.eqb (length left) (length right) && forallb (fun asset => bool_decide (asset ∈ right)) left.

Definition is_compatible (k : Checkpoint) (d : DeploymentConfig) : bool :=
  (schema_version k =? SCHEMA_VERSION)
  && bool_decide (math_compatibility_version k = MATH_COMPATIBILITY_VERSION)
  && bool_decide (math_compatibility_version k = contract_compatibility_version d)
  && (expected_implementation k =? dep_expected_implementation d)
  && (expected_implementation_code_hash k =? dep_expected_implementation_code_hash d)
  && (ck_chain_id k =? dep_chain_id d)
  && bool_decide (ck_network k = dep_network d)
  && (ck_core k =? dep_core d)
  && (deployment_block k =? dep_deployment_block d)
  && same_address_set (explicit_lane_assets k) (dep_explicit_lane_assets d)
  && has_valid_structure k.

(** ** Lemmas *)

(** The event order is a strict total order. *)
Definition order_lt (x y : EventOrder) : Prop := order_ltb x y = true.

Lemma order_ltb_spec x1 x2 x3 x4 x5 y1 y2 y3 y4 y5 :
  order_ltb (x1, x2, x3, x4, x5) (y1, y2, y3, y4, y5) = true <->
  x1 < y1 \/ x1 = y1 /\ (x2 < y2 \/ x2 = y2 /\ (x3 < y3 \/ x3 = y3 /\
    (x4 < y4 \/ x4 = y4 /\ x5 < y5))).
Proof. cbn. rewrite ?orb_true_iff, ?andb_true_iff, ?Z.ltb_lt, ?Z.eqb_eq. lia. Qed.

Ltac order_lia :=
  unfold order_lt in *;
  repeat match goal with x : EventOrder |- _ => destruct x as [[[[? ?] ?] ?] ?] end;
  rewrite ?order_ltb_spec in *; (lia || (intros; lia)).

#[export] Instance order_lt_strict : StrictOrder order_lt.
Proof.
  split.
  - intros x H. order_lia.
  - intros x y z H1 H2. order_lia.
Qed.

#[export] Instance order_lt_dec x y : Decision (order_lt x y).
Proof. unfold order_lt. apply _. Defined.

Lemma order_lt_total x y : order_lt x y \/ x = y \/ order_lt y x.
Proof.
  destruct x as [[[[x1 x2] x3] x4] x5], y as [[[[y1 y2] y3] y4] y5]. unfold order_lt.
  rewrite !order_ltb_spec.
  destruct (Z.lt_total x1 y1) as [|[->|]]; [left; lia| |right; right; lia].
  destruct (Z.lt_total x2 y2) as [|[->|]]; [left; lia| |right; right; lia].
  destruct (Z.lt_total x3 y3) as [|[->|]]; [left; lia| |right; right; lia].
  destruct (Z.lt_total x4 y4) as [|[->|]]; [left; lia| |right; right; lia].
  destruct (Z.lt_total x5 y5) as [|[->|]]; [left; lia| |right; right; lia].
  auto.
Qed.

#[export] Instance order_total_key : TotalKey order_ltb.
Proof.
  split.
  - intros k. apply not_true_iff_false, (irreflexivity order_lt).
  - intros x y z. apply (transitivity (R := order_lt)).
  - intros x y. rewrite <-not_true_iff_false. fold (order_lt x y).
    destruct (order_lt_total x y) as [|[->|]]; naive_solver.
Qed.

Lemma order_leb_spec x y : order_leb x y = true <-> x = y \/ order_lt x y.
Proof.
  unfold order_leb. rewrite negb_true_iff, <-not_true_iff_false. fold (order_lt y x). split.
  - intros H. destruct (order_lt_total x y) as [|[|]]; naive_solver.
  - intros [->|H] H'; [by apply (irreflexivity order_lt y)|].
    apply (irreflexivity order_lt x). by transitivity y.
Qed.

Lemma order_lt_block x y : order_lt (event_order x) (event_order y) -> block_number x <= block_number y.
Proof. unfold order_lt, event_order. repeat case_match; rewrite order_ltb_spec; lia. Qed.

Lemma order_eq_block x y : event_order x = event_order y -> block_number x = block_number y.
Proof.
  unfold event_order. intros E. repeat case_match; by injection E.
Qed.

(** Sorted by event order is sorted by height. *)
Lemma order_key_block x y :
  key_le order_ltb (fun log => event_order (log_cursor log)) x y ->
  block_number (log_cursor x) <= block_number (log_cursor y).
Proof. intros [E%order_eq_block|Hlt%order_lt_block]; lia. Qed.

Lemma sat_add_nonneg w x y : 0 <= w -> 0 <= x -> 0 <= y -> 0 <= uint_saturating_add w x y.
Proof. intros. unfold uint_saturating_add, uint_max. pose proof (Z.pow_pos_nonneg 2 w). lia. Qed.

(** What a deployment must satisfy. *)
Record deployment_ok (d : DeploymentConfig) : Prop := {
  ok_chain_id : dep_chain_id d <> 0;
  ok_core : dep_core d <> Address_ZERO;
  ok_router : verified_router d <> Some Address_ZERO;
  ok_implementation : dep_expected_implementation d <> Address_ZERO;
  ok_code_hash : dep_expected_implementation_code_hash d <> B256_ZERO;
  ok_version : contract_compatibility_version d = MATH_COMPATIBILITY_VERSION;
  ok_lanes_unique : NoDup (dep_explicit_lane_assets d);
  ok_lanes_nonzero : Address_ZERO ∉ dep_explicit_lane_assets d
}.

Lemma validate_lane_assets_ok seen assets :
  validate_lane_assets seen assets = Ok tt <->
  NoDup assets /\ Address_ZERO ∉ assets /\ forall a, a ∈ assets -> a ∉ seen.
Proof.
  revert seen. induction assets as [|a assets IH]; intros seen; cbn [validate_lane_assets].
  { split; [|done]. intros _. split; [constructor|]. split; intros; set_solver. }
  rewrite NoDup_cons. destruct (Z.eqb_spec a Address_ZERO) as [->|Hz].
  { split; [done|]. set_solver. }
  case_bool_decide as Hin; [split; [done|set_solver]|].
  rewrite IH. split.
  - intros (? & ? & Hs). split_and!; [|done|set_solver..]. intros Ha. apply (Hs a Ha). set_solver.
  - intros ((? & ?) & ? & Hs). split_and!; [done|set_solver|].
    intros b Hb. rewrite not_elem_of_union, not_elem_of_singleton. split; [set_solver|set_solver].
Qed.

Lemma same_address_set_perm left right :
  NoDup left -> same_address_set left right = true -> left ≡ₚ right.
Proof.
  intros Hl. unfold same_address_set. rewrite andb_true_iff, Nat.eqb_eq. intros [Hlen H].
  apply submseteq_length_Permutation; [|lia].
  apply NoDup_submseteq; [done|]. intros a Ha.
  rewrite forallb_forall in H. apply list_elem_of_In, H, bool_decide_eq_true in Ha. done.
Qed.

(** ** A concrete layout for the checks on sample data *)

Lemma sample_sizes :
  0 <= 32 /\ 0 <= 160 /\ 0 <= 240 /\ 0 <= 552 /\ 0 < 336 < 2 ^ 32.
Proof. lia. Qed.

Definition sample_layout : MemLayout :=
  {| size_of_B256 := 32; size_of_BlockRef := 160; size_of_ContractLog := 240;
     size_of_ChainCorrection := 552; size_of_ChainUpdate := 336; sizes_nonneg := sample_sizes |}.

(** ** Properties *)

(** The deployment check accepts exactly the deployments with a non-zero
    chain, Core, implementation and code hash, no zero router, the pinned
    quote-math version, and distinct non-zero explicit lanes. *)
Theorem deployment_validate_iff d : deployment_validate d = Ok tt <-> deployment_ok d.
Proof.
  unfold deployment_validate.
  destruct (Z.eqb_spec (dep_chain_id d) 0); [split; [done|by intros []]|].
  destruct (Z.eqb_spec (dep_core d) Address_ZERO); [split; [done|by intros []]|].
  case_bool_decide; [split; [done|by intros []]|].
  destruct (Z.eqb_spec (dep_expected_implementation d) Address_ZERO); [split; [done|by intros []]|].
  destruct (Z.eqb_spec (dep_expected_implementation_code_hash d) B256_ZERO);
    [split; [done|by intros []]|].
  case_bool_decide; cbn [negb]; [|split; [done|by intros []]].
  rewrite validate_lane_assets_ok. split; [intros (? & ? & ?); by split|].
  intros []. split_and!; [done..|set_solver].
Qed.
