(* ===== verification/Correction.v ===== *)
(** * Optimistic branch corrections (crates/lunarbase-client/src/model/correction.rs)

    Validation of a correction against its specification, and the byte string
    its fingerprint hashes. Keccak-256 is a parameter. *)

From S2P Require Import Prelude Arithmetic Slot0 State Model.

Definition MAX_CORRECTION_BRANCH_BLOCKS : Z := 128.
Definition MAX_CORRECTION_LOGS : Z := 8192.
Definition MAX_CORRECTION_RETAINED_BYTES : Z := 16 * 1024 * 1024.

Definition required_hash (block : BlockRef) (label : string) : result SourceError B256 :=
  ok_or
    (match block_hash (br_cursor block) with
     | Some hash => if negb (hash =? B256_ZERO) then Some hash else None
     | None => None
     end)
    (SourceGap ("optimistic correction " +:+ label +:+ " has no block hash")).

Definition invalid_branch (label : string) : SourceError :=
  SourceGap ("optimistic correction " +:+ label +:+ " branch is not contiguous").

Definition validate_block (block : BlockRef) (chain : Z) (label : string) : result SourceError unit :=
  if negb (chain_id (br_cursor block) =? chain)
  then Err (SourceGap "optimistic correction crosses chain identities")
  else if is_some (transaction_index (br_cursor block)) || is_some (log_index (br_cursor block))
  then Err (SourceGap ("optimistic correction " +:+ label +:+ " is not block-level"))
  else _ ← required_hash block label; Ok tt.

Definition same_block_hash (left right : BlockRef) : bool :=
  (chain_id (br_cursor left) =? chain_id (br_cursor right))
  && (block_number (br_cursor left) =? block_number (br_cursor right))
  && is_some (block_hash (br_cursor left))
  && bool_decide (block_hash (br_cursor left) = block_hash (br_cursor right)).

Definition correction_blocks (c : ChainCorrection) : list BlockRef :=
  [common_ancestor c; old_tip c; new_tip c] ++ old_branch c ++ new_branch c.

(** One hash, two identities. *)
Definition conflicting (left_hash : B256) (left right : BlockRef) : bool :=
  bool_decide (block_hash (br_cursor right) = Some left_hash)
  && (negb (chain_id (br_cursor right) =? chain_id (br_cursor left))
      || negb (block_number (br_cursor right) =? block_number (br_cursor left))
      || negb (execution_block_number (br_cursor right) =? execution_block_number (br_cursor left))
      || negb (bool_decide (br_parent_hash right = br_parent_hash left))).

(** The nested loop: every block against the ones after it. *)
Fixpoint validate_repeated_hashes (blocks : list BlockRef) : result SourceError unit :=
  match blocks with
  | [] => Ok tt
  | block :: rest =>
      match block_hash (br_cursor block) with
      | None => validate_repeated_hashes rest
      | Some left_hash =>
          if existsb (conflicting left_hash block) rest
          then Err (SourceGap "optimistic correction reuses a block hash with conflicting identity")
          else validate_repeated_hashes rest
      end
  end.

(** The loop of [validate_branch], with its two running variables. *)
Fixpoint validate_links (ancestor : BlockRef) (label : string) (parent_number : Z)
    (parent_hash : B256) (branch : list BlockRef) : result SourceError unit :=
  match branch with
  | [] => Ok tt
  | block :: branch =>
      _ ← validate_block block (chain_id (br_cursor ancestor)) label;
      block_hash ← required_hash block label;
      if negb (chain_id (br_cursor block) =? chain_id (br_cursor ancestor))
         || negb (block_number (br_cursor block) =? uint_saturating_add 64 parent_number 1)
         || negb (bool_decide (br_parent_hash block = Some parent_hash))
      then Err (invalid_branch label)
      else validate_links ancestor label (block_number (br_cursor block)) block_hash branch
  end.

Definition validate_branch (ancestor tip : BlockRef) (branch : list BlockRef) (label : string)
    : result SourceError unit :=
  ancestor_hash ← required_hash ancestor "common ancestor";
  match branch with
  | [] => if bool_decide (tip = ancestor) then Ok tt else Err (invalid_branch label)
  | _ =>
      if negb (Z.of_nat (length branch)
               =? uint_saturating_sub (block_number (br_cursor tip))
                    (block_number (br_cursor ancestor)))
         || negb (bool_decide (last branch = Some tip))
      then Err (invalid_branch label)
      else validate_links ancestor label (block_number (br_cursor ancestor)) ancestor_hash branch
  end.

(** [while branch.get(index).is_some_and(before) { index += 1 }]: the branch from
    [branch_index] on. *)
Fixpoint skip_before (number : Z) (branch : list BlockRef) : list BlockRef :=
  match branch with
  | block :: rest =>
      if block_number (br_cursor block) <? number then skip_before number rest else branch
  | [] => []
  end.

Fixpoint validate_logs (chain : Z) (branch : list BlockRef) (previous_order : option EventOrder)
    (logs : list ContractLog) : result SourceError unit :=
  match logs with
  | [] => Ok tt
  | log :: logs =>
      let c := log_cursor log in
      if log_removed log || negb (chain_id c =? chain)
      then Err (SourceGap "optimistic correction contains an invalid replacement log")
      else
      let has_transaction_index := is_some (transaction_index c) in
      let has_log_index := is_some (log_index c) in
      if negb (Bool.eqb has_transaction_index has_log_index)
         || (negb has_transaction_index && negb (is_some (source_sequence c)))
      then Err (SourceGap "optimistic correction log has no deterministic ordering identity")
      else
      let branch := skip_before (block_number c) branch in
      match branch with
      | [] => Err (SourceGap "optimistic correction log is outside its replacement branch")
      | block :: _ =>
          let b := br_cursor block in
          if negb (block_number b =? block_number c)
             || negb (is_some (block_hash c))
             || negb (bool_decide (block_hash c = block_hash b))
             || negb (execution_block_number c =? execution_block_number b)
             || negb (bool_decide (commitment c = commitment b))
          then Err (SourceGap "optimistic correction log has inconsistent block identity")
          else
          let order := event_order c in
          if match previous_order with
             | Some previous => order_leb order previous
             | None => false
             end
          then Err (SourceGap "optimistic correction logs are duplicate or unordered")
          else validate_logs chain branch (Some order) logs
      end
  end.

Definition validate_replacement_logs (c : ChainCorrection) (chain : Z) : result SourceError unit :=
  validate_logs chain (new_branch c) None (replacement_logs c).

Definition correction_validate `{MemLayout} (c : ChainCorrection) : result SourceError unit :=
  if (MAX_CORRECTION_BRANCH_BLOCKS <? Z.of_nat (length (old_branch c)))
     || (MAX_CORRECTION_BRANCH_BLOCKS <? Z.of_nat (length (new_branch c)))
     || (MAX_CORRECTION_LOGS <? Z.of_nat (length (replacement_logs c)))
     || (MAX_CORRECTION_RETAINED_BYTES
           <? uint_saturating_add USIZE (correction_retained_bytes c) size_of_ChainUpdate)
  then Err (SourceGap "optimistic correction exceeded its block, log, or byte budget")
  else
  let chain := chain_id (br_cursor (common_ancestor c)) in
  if existsb (fun block => bool_decide (commitment (br_cursor block) = Finalized)) (old_branch c)
  then Err (SourceGap "optimistic correction cannot replace finalized blocks")
  else
  if (chain =? 0)
     || negb (chain_id (br_cursor (old_tip c)) =? chain)
     || negb (chain_id (br_cursor (new_tip c)) =? chain)
  then Err (SourceGap "optimistic correction crosses chain identities")
  else
  _ ← validate_block (common_ancestor c) chain "common ancestor";
  _ ← validate_block (old_tip c) chain "old tip";
  _ ← validate_block (new_tip c) chain "new tip";
  if same_block_hash (old_tip c) (new_tip c)
  then Err (SourceGap "optimistic correction cannot replace a block with itself")
  else
  _ ← validate_repeated_hashes (correction_blocks c);
  _ ← validate_branch (common_ancestor c) (old_tip c) (old_branch c) "old";
  _ ← validate_branch (common_ancestor c) (new_tip c) (new_branch c) "new";
  validate_replacement_logs c chain.

(** ** Fingerprint

    The hasher is fed one byte string; [preimage] is its concatenation. *)

Definition hash_optional_hash (value : option B256) : list Z :=
  match value with
  | Some h => 1 :: be_bytes 32 h
  | None => [0]
  end.
Definition hash_optional_u32 (value : option Z) : list Z :=
  match value with
  | Some x => 1 :: be_bytes 4 x
  | None => [0]
  end.
Definition hash_u64 (value : Z) : list Z := be_bytes 8 value.

Definition hash_cursor (c : ChainCursor) : list Z :=
  hash_u64 (chain_id c) ++ hash_u64 (block_number c) ++ hash_u64 (execution_block_number c)
  ++ hash_optional_hash (block_hash c) ++ hash_optional_u32 (transaction_index c)
  ++ hash_optional_u32 (log_index c).

Definition hash_block (b : BlockRef) : list Z :=
  hash_cursor (br_cursor b) ++ hash_optional_hash (br_parent_hash b).

Definition hash_log (log : ContractLog) : list Z :=
  be_bytes 20 (log_address log) ++ hash_optional_hash (log_transaction_hash log)
  ++ hash_u64 (Z.of_nat (length (log_topics log))) ++ (log_topics log ≫= be_bytes 32)
  ++ hash_u64 (Z.of_nat (length (log_data log))) ++ log_data log
  ++ [if log_removed log then 1 else 0] ++ hash_cursor (log_cursor log).

Definition fingerprint_domain : list Z :=
  ascii_bytes "lunarbase:chain-correction:fingerprint:v1".

Definition fingerprint_preimage (c : ChainCorrection) : list Z :=
  fingerprint_domain ++ hash_block (common_ancestor c) ++ hash_block (old_tip c)
  ++ hash_block (new_tip c)
  ++ hash_u64 (Z.of_nat (length (old_branch c))) ++ (old_branch c ≫= hash_block)
  ++ hash_u64 (Z.of_nat (length (new_branch c))) ++ (new_branch c ≫= hash_block)
  ++ hash_u64 (Z.of_nat (length (replacement_logs c))) ++ (replacement_logs c ≫= hash_log).

Definition fingerprint `{Keccak} (c : ChainCorrection) : B256 := keccak256 (fingerprint_preimage c).

(** ** Specification *)

Definition has_hash (b : BlockRef) (h : B256) : Prop :=
  block_hash (br_cursor b) = Some h /\ h <> B256_ZERO.

(** A block-level reference with a real hash, on the given chain. *)
Definition block_level (chain : Z) (b : BlockRef) : Prop :=
  chain_id (br_cursor b) = chain /\ transaction_index (br_cursor b) = None
  /\ log_index (br_cursor b) = None /\ exists h, has_hash b h.

(** [branch] continues the block [(number, hash)]: heights are consecutive and
    every parent hash is the hash of the block before. *)
Fixpoint hash_linked (chain number : Z) (hash : B256) (branch : list BlockRef) : Prop :=
  match branch with
  | [] => True
  | b :: branch =>
      block_level chain b /\ block_number (br_cursor b) = number + 1
      /\ br_parent_hash b = Some hash
      /\ exists h, block_hash (br_cursor b) = Some h /\ hash_linked chain (number + 1) h branch
  end.

Definition branch_ok (ancestor tip : BlockRef) (branch : list BlockRef) : Prop :=
  last (ancestor :: branch) = Some tip /\
  exists h, has_hash ancestor h
    /\ hash_linked (chain_id (br_cursor ancestor)) (block_number (br_cursor ancestor)) h branch.

(** A block hash determines height, execution height and parent. *)
Definition consistent (a b : BlockRef) : Prop :=
  forall h, block_hash (br_cursor a) = Some h -> block_hash (br_cursor b) = Some h ->
    chain_id (br_cursor a) = chain_id (br_cursor b)
    /\ block_number (br_cursor a) = block_number (br_cursor b)
    /\ execution_block_number (br_cursor a) = execution_block_number (br_cursor b)
    /\ br_parent_hash a = br_parent_hash b.

(** The log belongs to a block of the branch. *)
Definition log_of_block (log : ContractLog) (b : BlockRef) : Prop :=
  block_number (br_cursor b) = block_number (log_cursor log)
  /\ is_some (block_hash (log_cursor log)) = true
  /\ block_hash (log_cursor log) = block_hash (br_cursor b)
  /\ execution_block_number (log_cursor log) = execution_block_number (br_cursor b)
  /\ commitment (log_cursor log) = commitment (br_cursor b).

(** A live log of the chain that has a place in the event order. *)
Definition log_placed (chain : Z) (log : ContractLog) : Prop :=
  log_removed log = false /\ chain_id (log_cursor log) = chain
  /\ is_some (transaction_index (log_cursor log)) = is_some (log_index (log_cursor log))
  /\ (is_some (transaction_index (log_cursor log)) = true
      \/ is_some (source_sequence (log_cursor log)) = true).

Definition log_ok (chain : Z) (branch : list BlockRef) (log : ContractLog) : Prop :=
  log_placed chain log /\ exists b, b ∈ branch /\ log_of_block log b.

Definition within_budget `{MemLayout} (c : ChainCorrection) : Prop :=
  Z.of_nat (length (old_branch c)) <= MAX_CORRECTION_BRANCH_BLOCKS
  /\ Z.of_nat (length (new_branch c)) <= MAX_CORRECTION_BRANCH_BLOCKS
  /\ Z.of_nat (length (replacement_logs c)) <= MAX_CORRECTION_LOGS
  /\ uint_saturating_add USIZE (correction_retained_bytes c) size_of_ChainUpdate
     <= MAX_CORRECTION_RETAINED_BYTES.

Record correction_ok `{MemLayout} (c : ChainCorrection) : Prop := {
  ok_budget : within_budget c;
  ok_not_finalized : Forall (fun b => commitment (br_cursor b) <> Finalized) (old_branch c);
  ok_chain : chain_id (br_cursor (common_ancestor c)) <> 0;
  ok_ancestor : block_level (chain_id (br_cursor (common_ancestor c))) (common_ancestor c);
  ok_old_tip : block_level (chain_id (br_cursor (common_ancestor c))) (old_tip c);
  ok_new_tip : block_level (chain_id (br_cursor (common_ancestor c))) (new_tip c);
  ok_distinct_tips :
    block_number (br_cursor (old_tip c)) = block_number (br_cursor (new_tip c)) ->
    block_hash (br_cursor (old_tip c)) <> block_hash (br_cursor (new_tip c));
  ok_hashes : forall a b, a ∈ correction_blocks c -> b ∈ correction_blocks c -> consistent a b;
  ok_old_branch : branch_ok (common_ancestor c) (old_tip c) (old_branch c);
  ok_new_branch : branch_ok (common_ancestor c) (new_tip c) (new_branch c);
  ok_logs : Forall (log_ok (chain_id (br_cursor (common_ancestor c))) (new_branch c))
              (replacement_logs c);
  ok_logs_order : StronglySorted order_lt
                    ((fun log => event_order (log_cursor log)) <$> replacement_logs c)
}.

(** Block numbers are [u64]. *)
Definition numbers_fit (c : ChainCorrection) : Prop :=
  Forall (fun b => uint 64 (block_number (br_cursor b))) (correction_blocks c).

(** ** The checks decide the specification *)

Lemma required_hash_ok b label h : required_hash b label = Ok h <-> has_hash b h.
Proof.
  unfold required_hash, has_hash. rewrite ok_or_ok.
  destruct (block_hash (br_cursor b)) as [h'|]; [|naive_solver].
  destruct (Z.eqb_spec h' B256_ZERO); naive_solver.
Qed.

Lemma validate_block_ok b chain label :
  validate_block b chain label = Ok tt <-> block_level chain b.
Proof.
  unfold validate_block, block_level.
  destruct (Z.eqb_spec (chain_id (br_cursor b)) chain); cbn [negb]; [|naive_solver].
  destruct (transaction_index (br_cursor b)); [naive_solver|].
  destruct (log_index (br_cursor b)); [naive_solver|]. cbn [is_some orb].
  rewrite bind_ok. setoid_rewrite required_hash_ok. naive_solver.
Qed.

Lemma consistent_sym a b : consistent a b -> consistent b a.
Proof. intros H h Hb Ha. destruct (H h Ha Hb) as (? & ? & ? & ?). done. Qed.

Lemma conflicting_false h a b :
  block_hash (br_cursor a) = Some h -> conflicting h a b = false <-> consistent a b.
Proof.
  intros Ha. unfold conflicting, consistent. case_bool_decide as Hb; [|naive_solver].
  cbn [andb]. rewrite !orb_false_iff, !negb_false_iff, !Z.eqb_eq, bool_decide_eq_true.
  split; [naive_solver|]. intros H. destruct (H h Ha Hb) as (? & ? & ? & ?). done.
Qed.

Lemma validate_repeated_hashes_ok blocks :
  validate_repeated_hashes blocks = Ok tt <->
  forall a b, a ∈ blocks -> b ∈ blocks -> consistent a b.
Proof.
  induction blocks as [|a blocks IH]; [set_solver|]. cbn [validate_repeated_hashes].
  assert (forall P : Prop, (P <-> Forall (consistent a) blocks) ->
    (P /\ validate_repeated_hashes blocks = Ok tt <->
     forall x y, x ∈ a :: blocks -> y ∈ a :: blocks -> consistent x y)) as Hstep.
  { intros P ->. rewrite IH, Forall_forall. split.
    - intros [Ha Hb] x y. rewrite !elem_of_cons. intros [->|Hx] [->|Hy]; eauto using consistent_sym.
      intros h Hx Hy. by rewrite Hx in Hy; simplify_eq.
    - intros H. split; intros; apply H; set_solver. }
  destruct (block_hash (br_cursor a)) as [h|] eqn:Ea.
  - rewrite <-(Hstep (existsb (conflicting h a) blocks = false)).
    + destruct (existsb _ _); naive_solver.
    + rewrite <-not_true_iff_false, existsb_exists, Forall_forall. split.
      * intros Hn b Hb. apply (conflicting_false h); [done|]. apply not_true_iff_false.
        intros Hc. apply Hn. exists b. by rewrite <-list_elem_of_In.
      * intros H (b & Hb & Hc). apply list_elem_of_In, H in Hb.
        apply (conflicting_false h) in Hb; [congruence|done].
  - rewrite <-(Hstep True); [naive_solver|]. split; [|done]. intros _.
    apply Forall_forall. intros b _ h. congruence.
Qed.

Lemma hash_linked_last chain n h branch ancestor tip :
  block_number (br_cursor ancestor) = n -> hash_linked chain n h branch ->
  last (ancestor :: branch) = Some tip ->
  block_number (br_cursor tip) = n + Z.of_nat (length branch).
Proof.
  revert n h ancestor. induction branch as [|b branch IH]; intros n h anc Hn Hl Hlast.
  - injection Hlast as <-. cbn. lia.
  - destruct Hl as (_ & Hb & _ & h' & _ & Hl). rewrite last_cons_cons in Hlast.
    rewrite (IH _ _ _ Hb Hl Hlast). cbn [length]. lia.
Qed.

Lemma validate_links_ok ancestor label n h branch :
  0 <= n -> n + Z.of_nat (length branch) < 2 ^ 64 ->
  validate_links ancestor label n h branch = Ok tt <->
  hash_linked (chain_id (br_cursor ancestor)) n h branch.
Proof.
  revert n h. induction branch as [|b branch IH]; intros n h Hn Hlen; [done|].
  cbn [validate_links hash_linked length] in *. rewrite bind_ok.
  assert (uint_saturating_add 64 n 1 = n + 1) as ->.
  { unfold uint_saturating_add, uint_max. lia. }
  assert (forall h', block_number (br_cursor b) = n + 1 ->
    validate_links ancestor label (block_number (br_cursor b)) h' branch = Ok tt <->
    hash_linked (chain_id (br_cursor ancestor)) (n + 1) h' branch) as IH'.
  { intros h' Hb. rewrite Hb. apply IH; lia. }
  split.
  - intros ([] & Hblk & (h' & Hh & H)%bind_ok). apply validate_block_ok in Hblk.
    apply required_hash_ok in Hh as [Hh _].
    destruct (Z.eqb_spec (chain_id (br_cursor b)) (chain_id (br_cursor ancestor))); [|done].
    destruct (Z.eqb_spec (block_number (br_cursor b)) (n + 1)); [|done].
    case_bool_decide; [|done]. cbn in H. apply IH' in H; [|done]. eauto 10.
  - intros (Hblk & Hb & Hp & h' & Hh & Hl). exists tt. rewrite validate_block_ok. split; [done|].
    apply bind_ok. exists h'. rewrite required_hash_ok. destruct Hblk as (Hc & _ & _ & h2 & Hh2 & Hz).
    rewrite Hh in Hh2. injection Hh2 as <-. split; [done|].
    rewrite Hc, Hb, !Z.eqb_refl, bool_decide_eq_true_2 by done. cbn.
    rewrite <-Hb at 1. by apply IH'.
Qed.

Lemma validate_branch_ok ancestor tip branch label :
  uint 64 (block_number (br_cursor ancestor)) -> uint 64 (block_number (br_cursor tip)) ->
  validate_branch ancestor tip branch label = Ok tt <-> branch_ok ancestor tip branch.
Proof.
  intros [Ha Ha'] [Ht Ht']. unfold validate_branch, branch_ok. rewrite bind_ok.
  setoid_rewrite required_hash_ok.
  assert (forall P : B256 -> Prop, forall Q : Prop,
    (forall h, has_hash ancestor h -> (P h <-> Q /\
       hash_linked (chain_id (br_cursor ancestor)) (block_number (br_cursor ancestor)) h branch)) ->
    (exists h, has_hash ancestor h /\ P h) <-> Q /\ exists h, has_hash ancestor h /\
       hash_linked (chain_id (br_cursor ancestor)) (block_number (br_cursor ancestor)) h branch)
    as Hex by naive_solver.
  apply Hex. intros h Hh. destruct branch as [|b0 rest].
  { cbn. case_bool_decide; naive_solver. }
  rewrite last_cons_cons. set (branch := b0 :: rest) in *.
  assert (0 < Z.of_nat (length branch)) by (cbn; lia).
  unfold uint_saturating_sub. split.
  - destruct (Z.eqb_spec (Z.of_nat (length branch))
      (Z.max 0 (block_number (br_cursor tip) - block_number (br_cursor ancestor)))); [|done].
    case_bool_decide; [|done]. cbn [negb orb]. intros Hl. split; [done|].
    apply validate_links_ok in Hl; [done|lia..].
  - intros [Hlast Hl]. pose proof (hash_linked_last _ _ _ branch ancestor tip eq_refl Hl Hlast) as Hn.
    rewrite bool_decide_eq_true_2 by done.
    destruct (Z.eqb_spec (Z.of_nat (length branch))
      (Z.max 0 (block_number (br_cursor tip) - block_number (br_cursor ancestor)))); [|lia].
    cbn [negb orb]. apply validate_links_ok; [lia..|done].
Qed.

(** Heights along a linked branch increase strictly. *)
Definition height_lt (a b : BlockRef) : Prop :=
  block_number (br_cursor a) < block_number (br_cursor b).

Lemma hash_linked_heights chain n h branch :
  hash_linked chain n h branch ->
  StronglySorted height_lt branch /\ Forall (fun b => n < block_number (br_cursor b)) branch.
Proof.
  revert n h. induction branch as [|b branch IH]; intros n h; [repeat constructor|].
  intros (_ & Hb & _ & h' & _ & [Hs Hn]%IH). split; constructor; [done| |lia|].
  - eapply Forall_impl; [exact Hn|]. unfold height_lt. cbn. lia.
  - eapply Forall_impl; [exact Hn|]. cbn. lia.
Qed.

Lemma skip_before_spec n branch :
  StronglySorted height_lt branch ->
  StronglySorted height_lt (skip_before n branch)
  /\ (forall b, b ∈ branch -> n <= block_number (br_cursor b) <-> b ∈ skip_before n branch)
  /\ (forall b, b ∈ skip_before n branch -> b ∈ branch).
Proof.
  induction branch as [|b branch IH]; intros Hs; [by split_and!; set_solver|].
  apply StronglySorted_inv in Hs as Hs'. destruct Hs' as [Hs' Hb].
  cbn [skip_before]. destruct (Z.ltb_spec (block_number (br_cursor b)) n).
  - destruct (IH Hs') as (H1 & H2 & H3). split_and!; [done| |set_solver].
    intros x [->|Hx]%elem_of_cons; [|by apply H2]. split; [lia|].
    intros Hx. apply H3 in Hx. rewrite Forall_forall in Hb. specialize (Hb _ Hx).
    unfold height_lt in Hb. lia.
  - split_and!; [done| |done]. intros x Hx. split; [done|]. intros _.
    apply elem_of_cons in Hx as [->|Hx]; [done|].
    rewrite Forall_forall in Hb. specialize (Hb _ Hx). unfold height_lt in Hb. lia.
Qed.

(** The head of the remaining branch is the only candidate block of a log. *)
Lemma log_block_is_head branch log :
  StronglySorted height_lt branch ->
  (exists b, b ∈ branch /\ log_of_block log b) <->
  exists b rest, skip_before (block_number (log_cursor log)) branch = b :: rest
                 /\ log_of_block log b.
Proof.
  intros Hs. destruct (skip_before_spec (block_number (log_cursor log)) branch Hs) as (Hs' & Hin & Hsub).
  split.
  - intros (b & Hb & Hl). assert (b ∈ skip_before (block_number (log_cursor log)) branch) as Hk.
    { apply Hin; [done|]. destruct Hl. lia. }
    destruct (skip_before _ branch) as [|b0 rest] eqn:E; [set_solver|].
    exists b0, rest. split; [done|]. apply elem_of_cons in Hk as [->|Hk]; [done|].
    apply StronglySorted_inv in Hs' as [_ Hlt]. rewrite Forall_forall in Hlt.
    specialize (Hlt _ Hk). unfold height_lt in Hlt.
    assert (block_number (log_cursor log) <= block_number (br_cursor b0)).
    { apply Hin; [apply Hsub|]; set_solver. }
    destruct Hl. lia.
  - intros (b & rest & E & Hl). exists b. split; [|done]. apply Hsub. rewrite E. set_solver.
Qed.

Lemma log_ok_skip chain n branch log :
  StronglySorted height_lt branch -> n <= block_number (log_cursor log) ->
  log_ok chain (skip_before n branch) log <-> log_ok chain branch log.
Proof.
  intros Hs Hn. destruct (skip_before_spec n branch Hs) as (_ & Hin & Hsub). unfold log_ok.
  split; intros (Hp & b & Hb & Hl); (split; [done|]); exists b; (split; [|done]); [eauto|].
  apply Hin; [done|]. destruct Hl. lia.
Qed.

Definition after (previous : option EventOrder) (order : EventOrder) : Prop :=
  match previous with
  | Some p => order_lt p order
  | None => True
  end.

Lemma log_of_block_check log b :
  negb (block_number (br_cursor b) =? block_number (log_cursor log))
  || negb (is_some (block_hash (log_cursor log)))
  || negb (bool_decide (block_hash (log_cursor log) = block_hash (br_cursor b)))
  || negb (execution_block_number (log_cursor log) =? execution_block_number (br_cursor b))
  || negb (bool_decide (commitment (log_cursor log) = commitment (br_cursor b))) = false
  <-> log_of_block log b.
Proof.
  rewrite !orb_false_iff, !negb_false_iff, !Z.eqb_eq, !bool_decide_eq_true.
  unfold log_of_block. naive_solver.
Qed.

Lemma after_check previous order :
  match previous with
  | Some previous => order_leb order previous
  | None => false
  end = false <-> after previous order.
Proof.
  destruct previous as [p|]; [|done]. unfold order_leb. by rewrite negb_false_iff.
Qed.

Lemma log_placed_check chain log :
  log_removed log || negb (chain_id (log_cursor log) =? chain) = false
  /\ negb (Bool.eqb (is_some (transaction_index (log_cursor log))) (is_some (log_index (log_cursor log))))
     || (negb (is_some (transaction_index (log_cursor log)))
         && negb (is_some (source_sequence (log_cursor log)))) = false
  <-> log_placed chain log.
Proof.
  unfold log_placed. destruct (Z.eqb_spec (chain_id (log_cursor log)) chain), (log_removed log),
    (is_some (transaction_index _)), (is_some (log_index _)), (is_some (source_sequence _));
    cbn; naive_solver.
Qed.

Abbreviation log_order := (fun log => event_order (log_cursor log)) (only parsing).

Lemma validate_logs_ok chain branch previous logs :
  StronglySorted height_lt branch ->
  validate_logs chain branch previous logs = Ok tt <->
  Forall (log_ok chain branch) logs /\ StronglySorted order_lt (log_order <$> logs)
  /\ Forall (after previous) (log_order <$> logs).
Proof.
  revert branch previous. induction logs as [|log logs IH]; intros branch previous Hs.
  { cbn. split; [repeat constructor|done]. }
  destruct (skip_before_spec (block_number (log_cursor log)) branch Hs) as (Hs' & _ & _).
  pose proof (IH _ (Some (event_order (log_cursor log))) Hs') as IH'. clear IH.
  assert (forall P : Prop, (P <-> log_ok chain branch log /\ after previous (event_order (log_cursor log))) ->
    (P /\ validate_logs chain (skip_before (block_number (log_cursor log)) branch)
            (Some (event_order (log_cursor log))) logs = Ok tt) <->
    Forall (log_ok chain branch) (log :: logs) /\ StronglySorted order_lt (log_order <$> log :: logs)
    /\ Forall (after previous) (log_order <$> log :: logs)) as Hstep.
  { intros P ->. rewrite IH'. cbn [fmap list_fmap]. rewrite !Forall_cons, !Forall_fmap.
    assert (forall l, order_lt (event_order (log_cursor log)) (event_order (log_cursor l)) ->
      log_ok chain (skip_before (block_number (log_cursor log)) branch) l <-> log_ok chain branch l) as Hk.
    { intros l Hl. apply log_ok_skip; [done|by apply order_lt_block]. }
    split.
    - intros ((Hlog & Hprev) & Hlogs & Hsort & Haft). split_and!; [done| | |done|].
      + rewrite !Forall_forall in *. intros l Hl. apply Hk; [exact (Haft l Hl)|exact (Hlogs l Hl)].
      + constructor; [done|]. by rewrite Forall_fmap.
      + eapply Forall_impl; [exact Haft|]. intros l Hl. cbn in Hl |- *.
        destruct previous as [p|]; [|done]. cbn in *. by transitivity (event_order (log_cursor log)).
    - intros ((Hlog & Hlogs) & [Hsort Haft]%StronglySorted_inv & Hprev & _).
      rewrite Forall_fmap in Haft. split_and!; [done..| |done|done].
      rewrite !Forall_forall in *. intros l Hl. apply Hk; [exact (Haft l Hl)|exact (Hlogs l Hl)]. }
  cbn [validate_logs]. apply (log_block_is_head branch log) in Hs as Hhead.
  rewrite <-(Hstep (log_ok chain branch log /\ after previous (event_order (log_cursor log)))) by done.
  unfold log_ok at 1. rewrite Hhead. clear Hstep IH' Hhead Hs Hs'.
  pose proof (log_placed_check chain log) as Hplaced.
  destruct (_ || negb (chain_id _ =? chain)).
  { split; [done|]. intros (((Hp & _) & _) & _). by apply Hplaced in Hp as [? _]. }
  destruct (negb (Bool.eqb _ _) || _).
  { split; [done|]. intros (((Hp & _) & _) & _). by apply Hplaced in Hp as [_ ?]. }
  destruct (skip_before _ branch) as [|b rest].
  { split; [done|]. intros (((_ & ? & ? & ? & _) & _) & _). done. }
  pose proof (log_of_block_check log b) as Hb.
  destruct (_ || negb (bool_decide (commitment _ = _))).
  { split; [done|]. intros (((_ & b' & ? & [= <- _] & Hl) & _) & _). by apply Hb in Hl. }
  pose proof (after_check previous (event_order (log_cursor log))) as Ha.
  destruct (match previous with Some _ => _ | None => _ end).
  { split; [done|]. intros ((_ & Hl) & _). by apply Ha in Hl. }
  split; [|by intros (_ & ?)]. intros HV. split_and!; [by apply Hplaced| |by apply Ha|done].
  exists b, rest. split; [done|]. by apply Hb.
Qed.

Lemma same_block_hash_false chain a b :
  block_level chain a -> block_level chain b ->
  same_block_hash a b = false <->
  (block_number (br_cursor a) = block_number (br_cursor b) ->
   block_hash (br_cursor a) <> block_hash (br_cursor b)).
Proof.
  intros (Ha & _ & _ & h & Hh & _) (Hb & _). unfold same_block_hash.
  rewrite Ha, Hb, Z.eqb_refl, Hh. cbn [is_some andb]. rewrite andb_true_r, andb_false_iff.
  rewrite Z.eqb_neq, bool_decide_eq_false.
  destruct (decide (block_number (br_cursor a) = block_number (br_cursor b))); naive_solver.
Qed.

Lemma existsb_bool_decide_false {A} (P : A -> Prop) `{!forall x, Decision (P x)} l :
  existsb (fun x => bool_decide (P x)) l = false <-> Forall (fun x => ~ P x) l.
Proof. apply existsb_false_iff. intros x _. apply bool_decide_eq_true. Qed.

Lemma within_budget_check `{MemLayout} c :
  (MAX_CORRECTION_BRANCH_BLOCKS <? Z.of_nat (length (old_branch c)))
  || (MAX_CORRECTION_BRANCH_BLOCKS <? Z.of_nat (length (new_branch c)))
  || (MAX_CORRECTION_LOGS <? Z.of_nat (length (replacement_logs c)))
  || (MAX_CORRECTION_RETAINED_BYTES
        <? uint_saturating_add USIZE (correction_retained_bytes c) size_of_ChainUpdate) = false
  <-> within_budget c.
Proof. unfold within_budget. rewrite !orb_false_iff, !Z.ltb_ge. tauto. Qed.

Lemma numbers_fit_tips c :
  numbers_fit c ->
  uint 64 (block_number (br_cursor (common_ancestor c)))
  /\ uint 64 (block_number (br_cursor (old_tip c))) /\ uint 64 (block_number (br_cursor (new_tip c))).
Proof.
  unfold numbers_fit, correction_blocks. cbn [app]. rewrite !Forall_cons. by intros (? & ? & ? & _).
Qed.

Lemma branch_heights anc tip branch : branch_ok anc tip branch -> StronglySorted height_lt branch.
Proof. intros (_ & h & _ & Hl). exact (proj1 (hash_linked_heights _ _ _ _ Hl)). Qed.

(** The two branch checks and the log check, together. *)
Lemma validate_tail_ok c chain :
  numbers_fit c -> chain = chain_id (br_cursor (common_ancestor c)) ->
  (_ ← validate_repeated_hashes (correction_blocks c);
   _ ← validate_branch (common_ancestor c) (old_tip c) (old_branch c) "old";
   _ ← validate_branch (common_ancestor c) (new_tip c) (new_branch c) "new";
   validate_replacement_logs c chain) = Ok tt <->
  (forall a b, a ∈ correction_blocks c -> b ∈ correction_blocks c -> consistent a b)
  /\ branch_ok (common_ancestor c) (old_tip c) (old_branch c)
  /\ branch_ok (common_ancestor c) (new_tip c) (new_branch c)
  /\ Forall (log_ok chain (new_branch c)) (replacement_logs c)
  /\ StronglySorted order_lt ((fun log => event_order (log_cursor log)) <$> replacement_logs c).
Proof.
  intros (Ha & Ho & Hn)%numbers_fit_tips ->.
  rewrite !unit_bind_ok, validate_repeated_hashes_ok, !validate_branch_ok by done.
  unfold validate_replacement_logs. split.
  - intros (? & ? & Hnew & Hl). apply validate_logs_ok in Hl as (? & ? & _); [done|].
    by eapply branch_heights.
  - intros (? & ? & Hnew & Hl & Hs). split_and!; [done..|].
    apply validate_logs_ok; [by eapply branch_heights|]. split_and!; [done..|].
    apply Forall_forall. done.
Qed.

Lemma correction_validate_ok `{MemLayout} c :
  numbers_fit c -> correction_validate c = Ok tt <-> correction_ok c.
Proof.
  intros Hnum. unfold correction_validate. pose proof (within_budget_check c) as Hb.
  destruct (_ || (MAX_CORRECTION_RETAINED_BYTES <? _)).
  { split; [done|]. intros []. by apply Hb in ok_budget0. }
  pose proof (existsb_bool_decide_false (fun b => commitment (br_cursor b) = Finalized) (old_branch c)) as Hf.
  destruct (existsb _ _); [split; [done|intros []; by apply Hf in ok_not_finalized0]|].
  set (chain := chain_id (br_cursor (common_ancestor c))) in *.
  destruct (Z.eqb_spec chain 0); [split; [done|by intros []]|].
  destruct (Z.eqb_spec (chain_id (br_cursor (old_tip c))) chain) as [Eo|Eo];
    [|split; [done|intros []; by destruct ok_old_tip0]].
  destruct (Z.eqb_spec (chain_id (br_cursor (new_tip c))) chain) as [En|En];
    [|split; [done|intros []; by destruct ok_new_tip0]].
  cbn [negb orb]. rewrite !unit_bind_ok, !validate_block_ok.
  assert (block_level chain (old_tip c) -> block_level chain (new_tip c) ->
    (if same_block_hash (old_tip c) (new_tip c)
     then Err (SourceGap "optimistic correction cannot replace a block with itself")
     else _ ← validate_repeated_hashes (correction_blocks c);
          _ ← validate_branch (common_ancestor c) (old_tip c) (old_branch c) "old";
          _ ← validate_branch (common_ancestor c) (new_tip c) (new_branch c) "new";
          validate_replacement_logs c chain) = Ok tt <->
    same_block_hash (old_tip c) (new_tip c) = false /\
    (_ ← validate_repeated_hashes (correction_blocks c);
     _ ← validate_branch (common_ancestor c) (old_tip c) (old_branch c) "old";
     _ ← validate_branch (common_ancestor c) (new_tip c) (new_branch c) "new";
     validate_replacement_logs c chain) = Ok tt) as Hif.
  { intros. destruct (same_block_hash _ _); naive_solver. }
  split.
  - intros (Hanc & Hold & Hnew & H'). apply Hif in H' as [Hs Ht]; [|done..].
    rewrite (same_block_hash_false chain) in Hs by done.
    apply validate_tail_ok in Ht; [|done..]. destruct Ht as (? & ? & ? & ? & ?).
    by split; [apply Hb|apply Hf|..].
  - intros []. split_and!; [done..|]. apply Hif; [done..|].
    rewrite (same_block_hash_false chain) by done. split; [done|]. by apply validate_tail_ok.
Qed.

(** ** What the fingerprint identifies

    An encoder is self-delimiting on [P] up to [id] when an encoding can be cut
    from the front of a byte string in one way only. *)

Definition self_delimiting {A B} (P : A -> Prop) (id : A -> B) (f : A -> list Z) : Prop :=
  forall a b r s, P a -> P b -> f a ++ r = f b ++ s -> id a = id b /\ r = s.

Lemma app_inj_length {A} (a b r s : list A) :
  length a = length b -> a ++ r = b ++ s -> a = b /\ r = s.
Proof. intros Hl. by apply app_inj_1. Qed.

Lemma be_bytes_delimited n :
  self_delimiting (fun x => 0 <= x < 256 ^ Z.of_nat n) (fun x => x) (be_bytes n).
Proof.
  intros a b r s Ha Hb H. apply app_inj_length in H as [H ->]; [|by rewrite !be_bytes_length].
  split; [|done]. by apply (be_bytes_inj n).
Qed.

Lemma u64_delimited : self_delimiting (uint 64) (fun x => x) hash_u64.
Proof. exact (be_bytes_delimited 8). Qed.

Definition opt_fits (P : Z -> Prop) (o : option Z) : Prop :=
  match o with
  | Some x => P x
  | None => True
  end.

Lemma optional_delimited n (f : option Z -> list Z) :
  f = (fun o => match o with Some x => 1 :: be_bytes n x | None => [0] end) ->
  self_delimiting (opt_fits (fun x => 0 <= x < 256 ^ Z.of_nat n)) (fun o => o) f.
Proof.
  intros ->. intros [a|] [b|] r s Ha Hb H; cbn in *; try done.
  - injection H as H. apply be_bytes_delimited in H as [-> ->]; done.
  - by injection H as ->.
Qed.

Lemma optional_hash_delimited :
  self_delimiting (opt_fits (uint 256)) (fun o => o) hash_optional_hash.
Proof. by apply (optional_delimited 32). Qed.

Lemma optional_u32_delimited :
  self_delimiting (opt_fits (uint 32)) (fun o => o) hash_optional_u32.
Proof. by apply (optional_delimited 4). Qed.

(** A sequence of a known length. *)
Lemma sequence_delimited {A B} (P : A -> Prop) (id : A -> B) f (l m : list A) r s :
  self_delimiting P id f -> Forall P l -> Forall P m -> length l = length m ->
  (l ≫= f) ++ r = (m ≫= f) ++ s -> id <$> l = id <$> m /\ r = s.
Proof.
  intros Hf Hl. revert m. induction Hl as [|a l Ha Hl IH]; intros [|b m] Hm Hlen H; try done.
  apply Forall_cons in Hm as [Hb Hm]. cbn in H. rewrite <-!app_assoc in H.
  apply Hf in H as [Hid H]; [|done..].
  destruct (IH m Hm ltac:(by injection Hlen) H) as [Hids ->]. cbn. by rewrite Hid, Hids.
Qed.

(** A length-prefixed sequence. *)
Definition list_fits {A} (P : A -> Prop) (l : list A) : Prop :=
  Forall P l /\ uint 64 (Z.of_nat (length l)).

Lemma prefixed_delimited {A B} (P : A -> Prop) (id : A -> B) f (l m : list A) r s :
  self_delimiting P id f -> list_fits P l -> list_fits P m ->
  hash_u64 (Z.of_nat (length l)) ++ (l ≫= f) ++ r = hash_u64 (Z.of_nat (length m)) ++ (m ≫= f) ++ s ->
  id <$> l = id <$> m /\ r = s.
Proof.
  intros Hf [Hl Hll] [Hm Hml] H. apply u64_delimited in H as [Hlen H]; [|done..].
  eapply sequence_delimited; eauto. lia.
Qed.

(** The parts of a correction its fingerprint reads: not the transport sequence,
    the commitment or the vector capacities. *)
Definition cursor_identity (c : ChainCursor) : ChainCursor :=
  {| chain_id := chain_id c; block_number := block_number c;
     execution_block_number := execution_block_number c; block_hash := block_hash c;
     transaction_index := transaction_index c; log_index := log_index c;
     source_sequence := None; source_sub_index := None; commitment := Realtime |}.
Definition block_identity (b : BlockRef) : BlockRef :=
  {| br_cursor := cursor_identity (br_cursor b); br_parent_hash := br_parent_hash b |}.
Definition log_identity (l : ContractLog) : ContractLog :=
  {| log_address := log_address l; log_transaction_hash := log_transaction_hash l;
     log_topics := log_topics l; log_topics_capacity := 0; log_data := log_data l;
     log_removed := log_removed l; log_cursor := cursor_identity (log_cursor l) |}.
Definition correction_identity (c : ChainCorrection) : ChainCorrection :=
  {| common_ancestor := block_identity (common_ancestor c); old_tip := block_identity (old_tip c);
     new_tip := block_identity (new_tip c); old_branch := block_identity <$> old_branch c;
     new_branch := block_identity <$> new_branch c;
     replacement_logs := log_identity <$> replacement_logs c;
     old_branch_capacity := 0; new_branch_capacity := 0; replacement_logs_capacity := 0 |}.

(** Every field fits its Rust type. *)
Record cursor_fits (c : ChainCursor) : Prop := {
  fits_chain : uint 64 (chain_id c);
  fits_block : uint 64 (block_number c);
  fits_execution : uint 64 (execution_block_number c);
  fits_hash : opt_fits (uint 256) (block_hash c);
  fits_tx : opt_fits (uint 32) (transaction_index c);
  fits_log : opt_fits (uint 32) (log_index c)
}.
Definition block_fits (b : BlockRef) : Prop :=
  cursor_fits (br_cursor b) /\ opt_fits (uint 256) (br_parent_hash b).
Record log_fits (l : ContractLog) : Prop := {
  fits_address : uint 160 (log_address l);
  fits_tx_hash : opt_fits (uint 256) (log_transaction_hash l);
  fits_topics : list_fits (uint 256) (log_topics l);
  fits_data : list_fits (uint 8) (log_data l);
  fits_log_cursor : cursor_fits (log_cursor l)
}.
Record correction_fits (c : ChainCorrection) : Prop := {
  fits_ancestor : block_fits (common_ancestor c);
  fits_old_tip : block_fits (old_tip c);
  fits_new_tip : block_fits (new_tip c);
  fits_old : list_fits block_fits (old_branch c);
  fits_new : list_fits block_fits (new_branch c);
  fits_logs : list_fits log_fits (replacement_logs c)
}.

Lemma cursor_delimited : self_delimiting cursor_fits cursor_identity hash_cursor.
Proof.
  intros a b r s [] [] H. unfold hash_cursor in H. rewrite <-!app_assoc in H.
  apply u64_delimited in H as [E1 H]; [|done..]. apply u64_delimited in H as [E2 H]; [|done..].
  apply u64_delimited in H as [E3 H]; [|done..].
  apply optional_hash_delimited in H as [E4 H]; [|done..].
  apply optional_u32_delimited in H as [E5 H]; [|done..].
  apply optional_u32_delimited in H as [E6 H]; [|done..].
  unfold cursor_identity. split; [|done]. congruence.
Qed.

Lemma block_delimited : self_delimiting block_fits block_identity hash_block.
Proof.
  intros a b r s [Ha1 Ha2] [Hb1 Hb2] H. unfold hash_block in H. rewrite <-!app_assoc in H.
  apply cursor_delimited in H as [E1 H]; [|done..].
  apply optional_hash_delimited in H as [E2 H]; [|done..].
  unfold block_identity. split; [by rewrite E1, E2|done].
Qed.

Lemma data_delimited (l m : list Z) r s :
  list_fits (uint 8) l -> list_fits (uint 8) m ->
  hash_u64 (Z.of_nat (length l)) ++ l ++ r = hash_u64 (Z.of_nat (length m)) ++ m ++ s ->
  l = m /\ r = s.
Proof.
  intros [_ Hl] [_ Hm] H. apply u64_delimited in H as [Hlen H]; [|done..].
  apply app_inj_length in H; [done|lia].
Qed.

Lemma log_delimited : self_delimiting log_fits log_identity hash_log.
Proof.
  intros a b r s [] [] H. unfold hash_log in H. rewrite <-!app_assoc in H.
  apply (be_bytes_delimited 20) in H as [E1 H]; [|done..].
  apply optional_hash_delimited in H as [E2 H]; [|done..].
  apply (prefixed_delimited (uint 256) (fun x => x)) in H as [E3 H];
    [|exact (be_bytes_delimited 32)|done..].
  apply data_delimited in H as [E4 H]; [|done..].
  apply app_inj_length in H as [E5 H]; [|done]. apply cursor_delimited in H as [E6 H]; [|done..].
  rewrite !list_fmap_id in E3. unfold log_identity. split; [|done].
  assert (log_removed a = log_removed b) by (by revert E5; destruct (log_removed a), (log_removed b)).
  congruence.
Qed.

(** The preimage reads nothing but the identity. *)
Lemma preimage_identity c : fingerprint_preimage (correction_identity c) = fingerprint_preimage c.
Proof.
  unfold fingerprint_preimage, correction_identity. cbn [common_ancestor old_tip new_tip old_branch
    new_branch replacement_logs]. rewrite !length_fmap, !list_fmap_bind. done.
Qed.

Lemma preimage_determines_identity c d :
  correction_fits c -> correction_fits d ->
  fingerprint_preimage c = fingerprint_preimage d -> correction_identity c = correction_identity d.
Proof.
  intros [] [] H. unfold fingerprint_preimage in H. apply app_inv_head in H.
  apply block_delimited in H as [E1 H]; [|done..]. apply block_delimited in H as [E2 H]; [|done..].
  apply block_delimited in H as [E3 H]; [|done..].
  apply (prefixed_delimited block_fits block_identity) in H as [E4 H];
    [|exact block_delimited|done..].
  apply (prefixed_delimited block_fits block_identity) in H as [E5 H];
    [|exact block_delimited|done..].
  rewrite <-(app_nil_r (replacement_logs c ≫= hash_log)),
    <-(app_nil_r (replacement_logs d ≫= hash_log)) in H.
  apply (prefixed_delimited log_fits log_identity) in H as [E6 _];
    [|exact log_delimited|done..].
  unfold correction_identity. congruence.
Qed.

(** ** Sample data for the concrete checks *)

(** A realtime block of chain 143; its hash is [10 * n + fork]. *)
Definition sample_block (fork n parent : Z) : BlockRef :=
  {| br_cursor := cursor_block 143 n (Some (10 * n + fork)) Realtime;
     br_parent_hash := Some parent |}.

Definition sample_log (b : BlockRef) (tx : Z) : ContractLog :=
  {| log_address := 7; log_transaction_hash := Some 99; log_topics := [5; 6];
     log_topics_capacity := 2; log_data := [1; 2; 3]; log_removed := false;
     log_cursor :=
       {| chain_id := chain_id (br_cursor b); block_number := block_number (br_cursor b);
          execution_block_number := execution_block_number (br_cursor b);
          block_hash := block_hash (br_cursor b); transaction_index := Some tx;
          log_index := Some 0; source_sequence := None; source_sub_index := None;
          commitment := commitment (br_cursor b) |} |}.

(** Block 101 of fork 1 is replaced by blocks 101 and 102 of fork 2. *)
Definition sample_correction : ChainCorrection :=
  let anc := sample_block 1 100 991 in
  let o1 := sample_block 1 101 1001 in
  let n1 := sample_block 2 101 1001 in
  let n2 := sample_block 2 102 1012 in
  {| common_ancestor := anc; old_tip := o1; new_tip := n2; old_branch := [o1];
     new_branch := [n1; n2]; replacement_logs := [sample_log n1 0; sample_log n1 3; sample_log n2 1];
     old_branch_capacity := 4; new_branch_capacity := 4; replacement_logs_capacity := 4 |}.

(** ** Properties *)

(** C12: validation decides the specification of a correction. It accepts exactly
    the corrections that fit the block, log and byte budgets, whose two branches
    start at the common ancestor, are linked hash by hash at consecutive heights
    and end at their tips, replace no finalized block and no block by itself,
    never give one hash two identities, and whose replacement logs all belong to
    blocks of the new branch in strictly increasing event order. *)
Theorem correction_validate_iff `{MemLayout} c :
  numbers_fit c -> correction_validate c = Ok tt <-> correction_ok c.
Proof. apply correction_validate_ok. Qed.

Lemma correction_validate_iff_witness :
  @correction_validate sample_layout sample_correction = Ok tt
  /\ @correction_ok sample_layout sample_correction.
Proof.
  assert (@correction_validate sample_layout sample_correction = Ok tt) as H by (vm_compute; reflexivity).
  split; [exact H|].
  apply (@correction_validate_iff sample_layout sample_correction); [|exact H].
  repeat constructor; vm_compute; congruence.
Defined.


Lemma sample_correction_fits : correction_fits sample_correction.
Proof. repeat constructor; vm_compute; congruence. Qed.

