(* ===== verification/Ordering.v ===== *)
(** * The reorder buffer (crates/lunarbase-client/src/state/ordering.rs)

    A bounded buffer that turns concurrently decoded updates into one
    deterministic order. The [BTreeMap] is an association list kept sorted by
    key; [&mut self] operations return the buffer they leave behind, errors
    included. *)

From S2P Require Import Prelude Arithmetic State Model.

(** The event order extended by the rank of the update kind. *)
Definition CursorKey : Type := EventOrder * Z.

Definition key_ltb (x y : CursorKey) : bool :=
  order_ltb x.1 y.1 || (bool_decide (x.1 = y.1) && (x.2 <? y.2)).
Definition key_leb (x y : CursorKey) : bool := negb (key_ltb y x).

Definition DEFAULT_BYTES_PER_UPDATE : Z := 64 * 1024.

Record CursorReorderBuffer := {
  capacity : Z;
  byte_capacity : Z;
  pending_bytes : Z;
  pending : list (CursorKey * ChainUpdate);
  poisoned : bool
}.

(** [BTreeMap::contains_key], [insert], [remove] *)
Fixpoint bt_contains (k : CursorKey) (m : list (CursorKey * ChainUpdate)) : bool :=
  match m with
  | [] => false
  | (k', _) :: m => if key_ltb k k' then false else if key_ltb k' k then bt_contains k m else true
  end.

Fixpoint bt_insert (k : CursorKey) (u : ChainUpdate) (m : list (CursorKey * ChainUpdate)) :=
  match m with
  | [] => [(k, u)]
  | (k', u') :: m' =>
      if key_ltb k k' then (k, u) :: m
      else if key_ltb k' k then (k', u') :: bt_insert k u m' else (k, u) :: m'
  end.

Fixpoint bt_remove (k : CursorKey) (m : list (CursorKey * ChainUpdate))
    : option ChainUpdate * list (CursorKey * ChainUpdate) :=
  match m with
  | [] => (None, [])
  | (k', u') :: m' =>
      if key_ltb k k' then (None, m)
      else if key_ltb k' k
      then let '(removed, m'') := bt_remove k m' in (removed, (k', u') :: m'')
      else (Some u', m')
  end.

Definition cursor_key (c : ChainCursor) (rank : Z) : CursorKey := (event_order c, rank).

Definition branch_end_key (c : ChainCursor) (rank : Z) : CursorKey :=
  (block_number c, U32_MAX, U32_MAX, U64_MAX, U32_MAX, rank).

Definition update_key (u : ChainUpdate) : CursorKey :=
  match u with
  | Head head => cursor_key (br_cursor head) 0
  | Log log => cursor_key (log_cursor log) 1
  | Correction correction => branch_end_key (br_cursor (new_tip correction)) 2
  | Reorg _ new_head => branch_end_key (br_cursor new_head) 3
  | Gap cursor _ _ =>
      match cursor with
      | None => (U64_MAX, 0, 0, 0, 0, 4)
      | Some cursor => cursor_key cursor 4
      end
  end.

Definition watermark_key (c : ChainCursor) : CursorKey :=
  let '(block, transaction, log, sequence, sub_index) := event_order c in
  if negb (is_some (transaction_index c)) && negb (is_some (log_index c))
  then (block, U32_MAX, U32_MAX, U64_MAX, U32_MAX, U8_MAX)
  else (block, transaction, log, sequence, sub_index, U8_MAX).

Definition with_limits (cap byte_cap : Z) : result SourceError CursorReorderBuffer :=
  if (cap =? 0) || (byte_cap =? 0)
  then Err (SourceUnavailable "reorder buffer count and byte capacities must be non-zero")
  else Ok {| capacity := cap; byte_capacity := byte_cap; pending_bytes := 0; pending := [];
             poisoned := false |}.

Definition reorder_buffer_new (cap : Z) : result SourceError CursorReorderBuffer :=
  let byte_cap := uint_saturating_mul USIZE cap DEFAULT_BYTES_PER_UPDATE in
  with_limits cap byte_cap.

Definition reorder_buffer_len (b : CursorReorderBuffer) : Z := Z.of_nat (length (pending b)).

Definition poison (b : CursorReorderBuffer) : CursorReorderBuffer :=
  {| capacity := capacity b; byte_capacity := byte_capacity b; pending_bytes := pending_bytes b;
     pending := pending b; poisoned := true |}.

Definition set_pending (m : list (CursorKey * ChainUpdate)) (bytes : Z) (b : CursorReorderBuffer)
    : CursorReorderBuffer :=
  {| capacity := capacity b; byte_capacity := byte_capacity b; pending_bytes := bytes;
     pending := m; poisoned := poisoned b |}.

Definition push `{MemLayout} (update : ChainUpdate) : method CursorReorderBuffer SourceError unit :=
  self ← get;
  if poisoned self then fail (SourceGap "reorder buffer is poisoned; resnapshot required")
  else
  let key := update_key update in
  if bt_contains key (pending self)
  then _ ← modify poison; fail (SourceGap "multiple updates share one cursor")
  else
  let update_bytes := update_retained_bytes update in
  if (capacity self <=? Z.of_nat (length (pending self)))
     || (uint_saturating_sub (byte_capacity self) (pending_bytes self) <? update_bytes)
  then _ ← modify poison;
       fail (SourceGap "reorder buffer count or byte budget exceeded; resnapshot required")
  else modify (fun b => set_pending (bt_insert key update (pending b)) (pending_bytes b + update_bytes) b).

Definition remove `{MemLayout} (key : CursorKey) (b : CursorReorderBuffer)
    : option ChainUpdate * CursorReorderBuffer :=
  match bt_remove key (pending b) with
  | (None, _) => (None, b)
  | (Some update, m) =>
      (Some update, set_pending m (uint_saturating_sub (pending_bytes b) (update_retained_bytes update)) b)
  end.

(** [keys.into_iter().filter_map(|key| self.remove(&key)).collect()] *)
Fixpoint remove_all `{MemLayout} (keys : list CursorKey) (b : CursorReorderBuffer)
    : list ChainUpdate * CursorReorderBuffer :=
  match keys with
  | [] => ([], b)
  | key :: keys =>
      let '(removed, b) := remove key b in
      let '(updates, b) := remove_all keys b in
      (match removed with
       | Some update => update :: updates
       | None => updates
       end, b)
  end.

Definition drain_through `{MemLayout} (watermark : ChainCursor) (b : CursorReorderBuffer)
    : list ChainUpdate * CursorReorderBuffer :=
  let key := watermark_key watermark in
  let keys := List.filter (fun k => key_leb k key) ((pending b).*1) in
  remove_all keys b.

Definition drain_all (b : CursorReorderBuffer) : list ChainUpdate * CursorReorderBuffer :=
  ((pending b).*2, set_pending [] 0 b).

(** Several pushes in a row, stopping at the first error. *)
Fixpoint push_all `{MemLayout} (updates : list ChainUpdate) : method CursorReorderBuffer SourceError unit :=
  match updates with
  | [] => mret tt
  | update :: updates => _ ← push update; push_all updates
  end.

(** ** The key order *)

Definition key_lt (x y : CursorKey) : Prop := key_ltb x y = true.

Lemma key_ltb_spec x y : key_ltb x y = true <-> order_lt x.1 y.1 \/ x.1 = y.1 /\ x.2 < y.2.
Proof.
  unfold key_ltb. rewrite orb_true_iff, andb_true_iff, bool_decide_eq_true, Z.ltb_lt. done.
Qed.

#[export] Instance key_lt_strict : StrictOrder key_lt.
Proof.
  split; unfold key_lt.
  - intros x. unfold complement. rewrite key_ltb_spec.
    intros [H|[_ H]]; [by apply (irreflexivity order_lt) in H|lia].
  - intros x y z. rewrite !key_ltb_spec. intros [H1|[E1 H1]] [H2|[E2 H2]].
    + left. by transitivity y.1.
    + left. by rewrite <-E2.
    + left. by rewrite E1.
    + right. split; [congruence|lia].
Qed.

Lemma key_lt_total x y : key_lt x y \/ x = y \/ key_lt y x.
Proof.
  unfold key_lt. rewrite !key_ltb_spec. destruct x as [x r], y as [y s]. cbn.
  destruct (order_lt_total x y) as [|[->|]]; [auto| |auto].
  destruct (Z.lt_total r s) as [|[->|]]; auto.
Qed.

Lemma key_ltb_false x y : key_ltb x y = false <-> x = y \/ key_lt y x.
Proof.
  rewrite <-not_true_iff_false. fold (key_lt x y). split.
  - intros H. destruct (key_lt_total x y) as [|[|]]; naive_solver.
  - intros [->|H] H'; [by apply (irreflexivity key_lt y)|].
    apply (irreflexivity key_lt x). by transitivity y.
Qed.

Definition entry_lt (x y : CursorKey * ChainUpdate) : Prop := key_lt x.1 y.1.

#[export] Instance entry_lt_antisymm : AntiSymm (=) entry_lt.
Proof. intros x y H1 H2. exfalso. apply (irreflexivity key_lt x.1). by transitivity y.1. Qed.

(** ** The sorted map *)

Lemma bt_contains_iff k m :
  StronglySorted entry_lt m -> bt_contains k m = true <-> k ∈ m.*1.
Proof.
  induction m as [|[k' u'] m IH]; intros Hs; [cbn; set_solver|].
  apply StronglySorted_inv in Hs as [Hs Hlt]. cbn [bt_contains fmap list_fmap fst].
  rewrite elem_of_cons. destruct (key_ltb k k') eqn:E1; [split; [done|]|].
  - intros [->|Hk]; [by apply (irreflexivity key_lt) in E1|].
    apply list_elem_of_fmap in Hk as ([k2 u2] & -> & Hk). rewrite Forall_forall in Hlt.
    apply Hlt in Hk. exfalso. apply (irreflexivity key_lt k'). by transitivity k2.
  - apply key_ltb_false in E1 as [->|E1].
    + rewrite (proj2 (key_ltb_false k' k')) by auto. split; auto.
    + unfold key_lt in E1. rewrite E1, IH by done. split; [auto|]. intros [->|]; [|done].
      by apply (irreflexivity key_lt) in E1.
Qed.

Lemma bt_insert_spec k u m :
  StronglySorted entry_lt m -> k ∉ m.*1 ->
  StronglySorted entry_lt (bt_insert k u m) /\ bt_insert k u m ≡ₚ (k, u) :: m.
Proof.
  induction m as [|[k' u'] m IH]; intros Hs Hk; [by split; [repeat constructor|]|].
  apply StronglySorted_inv in Hs as Hs'. destruct Hs' as [Hs' Hlt]. cbn [bt_insert].
  cbn in Hk. rewrite not_elem_of_cons in Hk. destruct Hk as [Hne Hk].
  destruct (key_ltb k k') eqn:E1.
  - split; [|done]. constructor; [done|]. constructor; [done|].
    eapply Forall_impl; [exact Hlt|]. intros [k2 u2]. unfold entry_lt. cbn.
    by transitivity k'.
  - apply key_ltb_false in E1 as [->|E1]; [done|]. unfold key_lt in E1. rewrite E1.
    destruct (IH Hs' Hk) as [Hi Hp]. split; [|by rewrite Hp, Permutation_swap].
    constructor; [done|]. rewrite Hp. by constructor.
Qed.

(** The updates at or before a watermark are a prefix of the map. *)
Lemma watermark_split (w : CursorKey) m :
  StronglySorted entry_lt m ->
  exists p q, m = p ++ q /\ List.filter (fun k => key_leb k w) (m.*1) = p.*1
    /\ Forall (fun e => key_leb e.1 w = true) p /\ Forall (fun e => key_lt w e.1) q.
Proof.
  induction m as [|[k u] m IH]; intros Hs; [by exists [], []|].
  apply StronglySorted_inv in Hs as [Hs Hlt]. cbn [fmap list_fmap fst List.filter].
  destruct (key_leb k w) eqn:E.
  - destruct (IH Hs) as (p & q & -> & Hf & Hp & Hq). exists ((k, u) :: p), q.
    cbn. rewrite Hf. split_and!; [done..| |done]. by constructor.
  - unfold key_leb in E. apply negb_false_iff in E.
    assert (Forall (fun e => key_lt w e.1) m) as Hq.
    { eapply Forall_impl; [exact Hlt|]. intros e He. by transitivity k. }
    exists [], ((k, u) :: m). split_and!; [done| |done|by constructor].
    clear - Hq. induction Hq as [|[k u] m Hk Hq IH]; [done|]. cbn in *.
    unfold key_lt in Hk. unfold key_leb at 1. by rewrite Hk.
Qed.

(** ** The invariant *)

Definition charge `{MemLayout} (m : list (CursorKey * ChainUpdate)) : Z :=
  foldr (fun e bytes => update_retained_bytes e.2 + bytes) 0 m.

Record buffer_ok `{MemLayout} (b : CursorReorderBuffer) : Prop := {
  buffer_sorted : StronglySorted entry_lt (pending b);
  buffer_keys : Forall (fun e => e.1 = update_key e.2) (pending b);
  buffer_charges : Forall (fun e => 0 <= update_retained_bytes e.2) (pending b);
  buffer_count : Z.of_nat (length (pending b)) <= capacity b;
  buffer_bytes : pending_bytes b = charge (pending b);
  buffer_budget : pending_bytes b <= byte_capacity b
}.

Lemma charge_nonneg `{MemLayout} m :
  Forall (fun e => 0 <= update_retained_bytes e.2) m -> 0 <= charge m.
Proof. unfold charge. induction 1; cbn; lia. Qed.

Lemma charge_cons `{MemLayout} k u m : charge ((k, u) :: m) = update_retained_bytes u + charge m.
Proof. done. Qed.

Lemma charge_app `{MemLayout} m n : charge (m ++ n) = charge m + charge n.
Proof. unfold charge. induction m as [|e m IH]; cbn in *; lia. Qed.

#[export] Instance charge_perm `{MemLayout} : Proper ((≡ₚ) ==> (=)) charge.
Proof. induction 1; cbn in *; unfold charge in *; lia. Qed.

Lemma poison_ok `{MemLayout} b : buffer_ok b -> buffer_ok (poison b).
Proof. by intros []; split. Qed.

(** When a push succeeds, and the buffer it leaves. *)
Lemma push_ok_iff `{MemLayout} u b b' :
  buffer_ok b ->
  push u b = (Ok tt, b') <->
  poisoned b = false /\ update_key u ∉ (pending b).*1
  /\ Z.of_nat (length (pending b)) < capacity b
  /\ pending_bytes b + update_retained_bytes u <= byte_capacity b
  /\ b' = set_pending (bt_insert (update_key u) u (pending b))
            (pending_bytes b + update_retained_bytes u) b.
Proof.
  intros [Hs _ _ _ _ Hb]. unfold push, mbind, method_bind, get, fail, modify.
  destruct (poisoned b); [split; [done|by intros [? _]]|].
  pose proof (bt_contains_iff (update_key u) _ Hs) as Hc.
  destruct (bt_contains _ _); [split; [done|intros (_ & Hn & _); by destruct Hn; apply Hc]|].
  assert (update_key u ∉ (pending b).*1) by (intros Hk; by apply Hc in Hk).
  unfold uint_saturating_sub. rewrite Z.max_r by lia.
  destruct (Z.leb_spec (capacity b) (Z.of_nat (length (pending b)))); cbn [orb].
  { split; [done|]. intros (_ & _ & ? & ? & _). lia. }
  destruct (Z.ltb_spec (byte_capacity b - pending_bytes b) (update_retained_bytes u)).
  { split; [done|]. intros (_ & _ & ? & ? & _). lia. }
  split; [|naive_solver lia]. intros [= <-]. split_and!; [done..|lia|lia|done].
Qed.

Lemma push_err `{MemLayout} u b e b' :
  push u b = (Err e, b') -> b' = poison b.
Proof.
  unfold push, mbind, method_bind, get, fail, modify. destruct (poisoned b) eqn:Hp.
  { intros [= _ <-]. destruct b. cbn in *. by subst. }
  destruct (bt_contains _ _); [by intros [= _ <-]|]. case_match; [by intros [= _ <-]|done].
Qed.

Lemma insert_ok `{MemLayout} u b :
  buffer_ok b -> 0 <= update_retained_bytes u -> update_key u ∉ (pending b).*1 ->
  Z.of_nat (length (pending b)) < capacity b ->
  pending_bytes b + update_retained_bytes u <= byte_capacity b ->
  buffer_ok (set_pending (bt_insert (update_key u) u (pending b))
               (pending_bytes b + update_retained_bytes u) b).
Proof.
  intros [Hs Hk Hc Hn Hb Hbb] Hu Hnot Hcap Hbytes.
  destruct (bt_insert_spec (update_key u) u _ Hs Hnot) as [Hs' Hp].
  split; cbn [set_pending pending pending_bytes capacity byte_capacity]; [done| | | | |done].
  - rewrite Hp. by constructor.
  - rewrite Hp. by constructor.
  - rewrite Hp. cbn [length]. lia.
  - rewrite Hp, charge_cons. lia.
Qed.

Lemma push_preserves `{MemLayout} u b :
  buffer_ok b -> 0 <= update_retained_bytes u -> buffer_ok (push u b).2.
Proof.
  intros Hok Hu. destruct (push u b) as [[[]|e] b'] eqn:E.
  - apply push_ok_iff in E as (? & ? & ? & ? & ->); [|done]. by apply insert_ok.
  - apply push_err in E as ->. by apply poison_ok.
Qed.

(** Draining pops a prefix. *)
Lemma remove_all_prefix `{MemLayout} p q b :
  StronglySorted entry_lt (p ++ q) -> pending b = p ++ q ->
  Forall (fun e => 0 <= update_retained_bytes e.2) (p ++ q) -> pending_bytes b = charge (p ++ q) ->
  remove_all (p.*1) b = (p.*2, set_pending q (charge q) b).
Proof.
  revert b. induction p as [|[k u] p IH]; intros b Hs Hb Hc Hbytes; cbn [fmap list_fmap fst snd].
  - cbn. destruct b. cbn in *. by subst.
  - change (((k, u) :: p) ++ q) with ((k, u) :: (p ++ q)) in *.
    cbn [remove_all]. unfold remove. rewrite Hb. cbn [app bt_remove].
    rewrite (proj2 (key_ltb_false k k)) by auto.
    apply StronglySorted_inv in Hs as [Hs _]. apply Forall_cons in Hc as [Hu Hc]. cbn in Hu.
    pose proof (charge_nonneg _ Hc).
    rewrite charge_cons in Hbytes.
    unfold uint_saturating_sub. rewrite Hbytes, Z.max_r by lia.
    rewrite IH; [done|done|done|done|]. cbn [set_pending pending_bytes]. lia.
Qed.

Lemma drain_through_spec `{MemLayout} w b :
  buffer_ok b ->
  exists p q, pending b = p ++ q /\ drain_through w b = (p.*2, set_pending q (charge q) b)
    /\ Forall (fun e => key_leb e.1 (watermark_key w) = true) p
    /\ Forall (fun e => key_lt (watermark_key w) e.1) q.
Proof.
  intros [Hs _ Hc _ Hb _]. destruct (watermark_split (watermark_key w) _ Hs) as (p & q & E & Hf & Hp & Hq).
  exists p, q. split_and!; [done| |done..]. unfold drain_through. rewrite Hf.
  rewrite E in Hs, Hc, Hb. by apply remove_all_prefix.
Qed.

Lemma suffix_ok `{MemLayout} p q b :
  buffer_ok b -> pending b = p ++ q -> buffer_ok (set_pending q (charge q) b).
Proof.
  intros [Hs Hk Hc Hn Hb Hbb] E. rewrite E in *. rewrite charge_app in Hb.
  apply Forall_app in Hk as [_ Hk], Hc as [Hcp Hc]. pose proof (charge_nonneg _ Hcp).
  rewrite length_app in Hn.
  split; cbn; [|done..|lia|done|lia].
  clear - Hs. induction p; [done|]. apply StronglySorted_inv in Hs as [Hs _]. auto.
Qed.

Lemma drain_preserves `{MemLayout} w b : buffer_ok b -> buffer_ok (drain_through w b).2.
Proof.
  intros Hok. destruct (drain_through_spec w b Hok) as (p & q & E & -> & _). by eapply suffix_ok.
Qed.

(** ** Pushing many updates *)

Definition keyed (u : ChainUpdate) : CursorKey * ChainUpdate := (update_key u, u).

(** The buffer after a batch: independent of the order of the batch. *)
Definition absorbed `{MemLayout} (us : list ChainUpdate) (b b' : CursorReorderBuffer) : Prop :=
  NoDup ((keyed <$> us).*1 ++ (pending b).*1)
  /\ Z.of_nat (length us + length (pending b)) <= capacity b
  /\ charge (keyed <$> us) + pending_bytes b <= byte_capacity b
  /\ StronglySorted entry_lt (pending b') /\ pending b' ≡ₚ (keyed <$> us) ++ pending b
  /\ capacity b' = capacity b /\ byte_capacity b' = byte_capacity b
  /\ pending_bytes b' = charge (keyed <$> us) + pending_bytes b /\ poisoned b' = false.

Lemma sorted_keys_nodup m : StronglySorted entry_lt m -> NoDup (m.*1).
Proof.
  induction 1 as [|e m Hs IH Hlt]; [constructor|]. cbn. constructor; [|done].
  intros (e' & He & Hin)%list_elem_of_fmap. rewrite Forall_forall in Hlt. apply Hlt in Hin.
  unfold entry_lt in Hin. rewrite He in Hin. by apply (irreflexivity key_lt) in Hin.
Qed.

Lemma push_all_cons `{MemLayout} u us b b' :
  push_all (u :: us) b = (Ok tt, b') <->
  exists b1, push u b = (Ok tt, b1) /\ push_all us b1 = (Ok tt, b').
Proof. cbn [push_all]. rewrite method_bind_ok. split; [intros ([] & ?)|]; naive_solver. Qed.

Lemma push_all_ok_iff `{MemLayout} us b b' :
  buffer_ok b -> poisoned b = false -> Forall (fun u => 0 <= update_retained_bytes u) us ->
  push_all us b = (Ok tt, b') <-> absorbed us b b'.
Proof.
  intros Hok Hp Hus. revert b Hok Hp. induction Hus as [|u us Hu Hus IH]; intros b Hok Hp.
  - destruct Hok. unfold absorbed. cbn [push_all fmap list_fmap app length charge foldr]. split.
    + intros [= <-]. split_and!; try (done || lia). by apply sorted_keys_nodup.
    + intros (_ & _ & _ & Hs & Hperm & ? & ? & ? & ?). cbn.
      assert (pending b' = pending b) by (by apply (StronglySorted_unique entry_lt)).
      destruct b, b'. cbn in *. f_equal. f_equal; (congruence || lia).
  - rewrite push_all_cons. setoid_rewrite (push_ok_iff _ _ _ Hok). unfold absorbed.
    cbn [fmap list_fmap app]. change (keyed u) with (update_key u, u).
    cbn [fst length app]. rewrite NoDup_cons, !charge_cons, not_elem_of_app. split.
    + intros (b1 & (_ & Hk & Hc & Hb & ->) & H1).
      destruct (bt_insert_spec (update_key u) u (pending b)) as [_ Hi]; [apply Hok|done|].
      apply IH in H1; [|by apply insert_ok|done].
      destruct H1 as (Hnd & Hlen & Hch & Hs & Hperm & ? & ? & Hby & ?).
      cbn [set_pending pending pending_bytes capacity byte_capacity] in *.
      rewrite Hi in Hnd, Hlen, Hperm. cbn [fmap list_fmap fst] in Hnd.
      rewrite <-Permutation_middle, NoDup_cons, not_elem_of_app in Hnd.
      rewrite <-Permutation_middle in Hperm. cbn [length] in Hlen.
      split_and!; (tauto || lia || done).
    + intros ((Hk & Hnd) & Hlen & Hch & Hs & Hperm & ? & ? & Hby & ?).
      pose proof (charge_nonneg (keyed <$> us)) as Hcn. rewrite Forall_fmap in Hcn. specialize (Hcn Hus).
      eexists. split; [split_and!; [done|tauto|lia|lia|done]|].
      destruct (bt_insert_spec (update_key u) u (pending b)) as [_ Hi]; [apply Hok|tauto|].
      apply IH; [apply insert_ok; (done || tauto || lia)|done|].
      unfold absorbed. cbn [set_pending pending pending_bytes capacity byte_capacity].
      rewrite Hi. cbn [fmap list_fmap fst length].
      rewrite <-!Permutation_middle, NoDup_cons, not_elem_of_app.
      split_and!; (tauto || lia || done).
Qed.

Lemma absorbed_unique `{MemLayout} us vs b b1 b2 :
  us ≡ₚ vs -> absorbed us b b1 -> absorbed vs b b2 -> b1 = b2.
Proof.
  intros Hp (_ & _ & _ & Hs1 & Hp1 & ? & ? & ? & ?) (_ & _ & _ & Hs2 & Hp2 & ? & ? & ? & ?).
  assert (charge (keyed <$> us) = charge (keyed <$> vs)) by (by rewrite Hp).
  assert (pending b1 = pending b2).
  { apply (StronglySorted_unique entry_lt); [done..|]. by rewrite Hp1, Hp2, Hp. }
  destruct b1, b2. cbn in *. f_equal; congruence.
Qed.

Lemma absorbed_perm `{MemLayout} us vs b b' : us ≡ₚ vs -> absorbed us b b' -> absorbed vs b b'.
Proof. unfold absorbed. intros Hp. by rewrite Hp. Qed.

(** Every coordinate below the block fits its Rust type. *)
Definition coordinates_fit (k : CursorKey) : Prop :=
  let '(_, t, l, s, i, r) := k in
  t <= U32_MAX /\ l <= U32_MAX /\ s <= U64_MAX /\ i <= U32_MAX /\ r < U8_MAX.

Definition key_block (k : CursorKey) : Z := let '(b, _, _, _, _, _) := k in b.

Definition block_level_cursor (w : ChainCursor) : Prop :=
  transaction_index w = None /\ log_index w = None.

(** A block-level watermark is the end of its block. *)
Lemma block_watermark w k :
  block_level_cursor w -> coordinates_fit k ->
  key_leb k (watermark_key w) = true <-> key_block k <= block_number w.
Proof.
  intros [Ht Hl] Hk. destruct k as [[[[[b t] l] s] i] r]. cbn in Hk.
  unfold watermark_key, event_order. rewrite Ht, Hl. cbn [is_some negb andb].
  unfold key_leb. rewrite negb_true_iff, <-not_true_iff_false, key_ltb_spec. cbn [fst snd].
  unfold order_lt. rewrite order_ltb_spec. cbn [key_block]. split; [lia|].
  intros Hb [H|[H Hr]]; [lia|]. injection H. lia.
Qed.

(** ** Sample data *)

Definition sample_head (n : Z) : ChainUpdate :=
  Head {| br_cursor := cursor_block 143 n (Some (n + 1)) Realtime; br_parent_hash := Some n |}.

Definition sample_buffer : CursorReorderBuffer :=
  {| capacity := 4; byte_capacity := 4096; pending_bytes := 0; pending := []; poisoned := false |}.

Lemma empty_buffer_ok `{MemLayout} cap bytes p :
  0 <= cap -> 0 <= bytes ->
  buffer_ok {| capacity := cap; byte_capacity := bytes; pending_bytes := 0; pending := [];
               poisoned := p |}.
Proof. intros. by split; cbn; try constructor. Qed.

(** ** Properties *)

(** C31: the reorder buffer keeps its invariant. Starting from a fresh buffer and
    whatever is pushed or drained, failed pushes included, the pending updates
    are sorted by their own keys without duplicates, their number stays within
    the count capacity, and the byte counter is exactly their total charge and
    stays within the byte capacity. *)
Theorem reorder_buffer_invariant `{MemLayout} :
  (forall cap bytes b, 0 <= cap -> 0 <= bytes -> with_limits cap bytes = Ok b -> buffer_ok b) /\
  (forall b u, buffer_ok b -> 0 <= update_retained_bytes u -> buffer_ok (push u b).2) /\
  (forall b w, buffer_ok b -> buffer_ok (drain_through w b).2) /\
  (forall b, buffer_ok b -> buffer_ok (drain_all b).2).
Proof.
  split_and!.
  - intros cap bytes b Hc Hb. unfold with_limits. case_match; [done|]. intros [= <-].
    by apply empty_buffer_ok.
  - intros b u. apply push_preserves.
  - intros b w. apply drain_preserves.
  - intros b [_ _ Hc Hn Hs Hb]. pose proof (charge_nonneg _ Hc). apply empty_buffer_ok; lia.
Qed.

(** A failed push fails closed. It changes nothing but the poison flag, so no
    pending update is lost or reordered, and every later push fails too. *)
Theorem push_fails_closed `{MemLayout} u b e b' :
  push u b = (Err e, b') ->
  pending b' = pending b /\ pending_bytes b' = pending_bytes b /\ poisoned b' = true
  /\ forall v, exists e', push v b' = (Err e', b').
Proof.
  intros ->%push_err. split_and!; [done..|]. intros v. eexists. unfold push, mbind, method_bind, get.
  cbn [poison poisoned]. reflexivity.
Qed.

Lemma push_fails_closed_witness :
  poisoned (@push sample_layout (sample_head 5)
              (@push sample_layout (sample_head 5) sample_buffer).2).2 = true.
Proof.
  destruct (@push sample_layout (sample_head 5)
              (@push sample_layout (sample_head 5) sample_buffer).2) as [r b'] eqn:E.
  assert (exists e, r = Err e) as [e ->].
  { revert E. vm_compute. intros E. injection E as <- _. eexists. reflexivity. }
  destruct (@push_fails_closed sample_layout _ _ _ _ E) as (_ & _ & H & _). exact H.
Defined.

(** C20: the buffer is insensitive to arrival order. If a batch of updates is
    accepted in one order, it is accepted in every other order and leaves the
    same buffer, so concurrent decoding cannot be observed downstream. *)
Theorem push_order_irrelevant `{MemLayout} us vs b b' :
  buffer_ok b -> poisoned b = false -> Forall (fun u => 0 <= update_retained_bytes u) us ->
  us ≡ₚ vs -> push_all us b = (Ok tt, b') -> push_all vs b = (Ok tt, b').
Proof.
  intros Hok Hp Hus Hperm Hpush. assert (Forall (fun u => 0 <= update_retained_bytes u) vs) as Hvs
    by (by rewrite <-Hperm).
  apply push_all_ok_iff in Hpush; [|done..]. apply push_all_ok_iff; [done..|].
  by eapply absorbed_perm.
Qed.

Lemma push_order_irrelevant_witness :
  exists b', @push_all sample_layout [sample_head 9; sample_head 5; sample_head 7] sample_buffer = (Ok tt, b')
          /\ @push_all sample_layout [sample_head 5; sample_head 7; sample_head 9] sample_buffer = (Ok tt, b').
Proof.
  eexists. split; [vm_compute; reflexivity|].
  apply (@push_order_irrelevant sample_layout [sample_head 9; sample_head 5; sample_head 7]).
  - apply empty_buffer_ok; discriminate.
  - reflexivity.
  - repeat constructor; vm_compute; congruence.
  - apply (Permutation_cons_append [sample_head 5; sample_head 7]).
  - vm_compute; reflexivity.
Defined.

(** C32: draining through a watermark releases exactly what it covers. The
    released updates are the pending ones at or before the watermark, in strict
    key order, the rest stays pending, and nothing is lost; for a block-level
    watermark "at or before" means every update of that block and of the blocks
    below it. *)
Theorem drain_through_exact `{MemLayout} w b :
  buffer_ok b ->
  exists p q, pending b = p ++ q
    /\ drain_through w b = (p.*2, set_pending q (charge q) b)
    /\ StronglySorted key_lt (update_key <$> p.*2)
    /\ Forall (fun e => key_leb e.1 (watermark_key w) = true) p
    /\ Forall (fun e => key_leb e.1 (watermark_key w) = false) q
    /\ (block_level_cursor w -> Forall (fun e => coordinates_fit e.1) (pending b) ->
        Forall (fun e => key_block e.1 <= block_number w) p
        /\ Forall (fun e => block_number w < key_block e.1) q).
Proof.
  intros Hok. destruct (drain_through_spec w b Hok) as (p & q & E & Hd & Hp & Hq).
  assert (Forall (fun e => key_leb e.1 (watermark_key w) = false) q) as Hq'.
  { eapply Forall_impl; [exact Hq|]. intros e He. unfold key_leb. by rewrite He. }
  exists p, q. split_and!; [done..| | | |]; [|done|done|].
  - destruct Hok as [Hs Hk _ _ _ _]. rewrite E in Hs, Hk. clear - Hs Hk.
    apply Forall_app in Hk as [Hk _]. rewrite <-list_fmap_compose.
    assert (forall e, e ∈ p -> update_key e.2 = e.1) as He.
    { intros e He. rewrite Forall_forall in Hk. by rewrite (Hk e He). }
    induction p as [|e p IH]; [constructor|]. apply StronglySorted_inv in Hs as [Hs Hlt].
    cbn. constructor.
    + apply IH; [done|by apply Forall_cons in Hk as [_ Hk]|set_solver].
    + apply Forall_app in Hlt as [Hlt _]. rewrite Forall_fmap. rewrite Forall_forall in *.
      intros e' He'. cbn. rewrite !He by set_solver. by apply Hlt.
  - intros Hw Hfit. rewrite E in Hfit. apply Forall_app in Hfit as [Hfp Hfq].
    rewrite !Forall_forall in *. split; intros e He.
    + apply block_watermark; auto.
    + apply Z.nle_gt. intros Hle. apply block_watermark in Hle; [|auto..].
      rewrite Hq' in Hle; done.
Qed.

Lemma drain_through_exact_witness :
  let b := (@push sample_layout (sample_head 7) (@push sample_layout (sample_head 5) sample_buffer).2).2 in
  exists updates b', @drain_through sample_layout (cursor_block 143 5 None Canonical) b = (updates, b')
    /\ StronglySorted key_lt (update_key <$> updates).
Proof.
  intros b.
  destruct (@drain_through_exact sample_layout (cursor_block 143 5 None Canonical) b)
    as (p & q & _ & Hd & Hs & _).
  - apply push_preserves; [apply push_preserves|]; [|vm_compute; congruence..].
    apply empty_buffer_ok; discriminate.
  - exists (p.*2), (@set_pending q (@charge sample_layout q) b). split; [exact Hd|exact Hs].
Defined.
