(* ===== verification/Reducer.v ===== *)
(** * The quote-state reducer (crates/lunarbase-client/src/state/reducer.rs,
    reducer/events.rs, reducer/identity.rs, bootstrap.rs)

    The single writer of the quote state: ordering guards, event transitions and
    head tracking. Every [&mut self] operation returns the reducer it leaves
    behind. [Arc] copy-on-write is value semantics here: a snapshot is the value
    of the state when it was taken. *)

From S2P Require Import Prelude Arithmetic Slot0 State Model.

Inductive ReducerError :=
| ChainIdMismatch
| ContractAddressMismatch
| CursorRegression
| RemovedLog
| BlockHashMismatch
| EventPayloadMismatch
| ArithmeticTransition
| InvalidSlippageK
| InvalidWidth
| UnknownLane
| FeeClassMismatch
| VerifiedRouterRefreshRequired
| ImplementationWasUpgraded.

#[export] Instance ReducerError_eq_dec : EqDecision ReducerError.
Proof. solve_decision. Defined.

Record VerifiedRouterSnapshot := {
  router : Address;
  partner_fee_bps : gmap Address Z
}.

#[export] Instance VerifiedRouterSnapshot_eq_dec : EqDecision VerifiedRouterSnapshot.
Proof. solve_decision. Defined.

Record BootstrapSnapshot := {
  snapshot_state : QuoteState;
  snapshot_cursor : ChainCursor;
  snapshot_implementation : Address;
  snapshot_implementation_code_hash : B256;
  snapshot_verified_router : option VerifiedRouterSnapshot
}.

Record QuoteReducer := {
  red_state : QuoteState;
  red_fee_class : FeeClass;
  red_verified_router : option VerifiedRouterSnapshot;
  red_cursor : option ChainCursor;
  red_event_cursor : option ChainCursor;
  red_event : option QuoteEvent;
  red_ready : bool
}.

#[export] Instance QuoteReducer_eq_dec : EqDecision QuoteReducer.
Proof. solve_decision. Defined.

Definition reducer_new (st : QuoteState) (c : FeeClass) (r : option VerifiedRouterSnapshot)
    : QuoteReducer :=
  {| red_state := st; red_fee_class := c; red_verified_router := r; red_cursor := None;
     red_event_cursor := None; red_event := None; red_ready := false |}.

Definition reducer_from_checkpoint (k : Checkpoint) (c : FeeClass) : QuoteReducer :=
  {| red_state := ck_state k; red_fee_class := c; red_verified_router := None;
     red_cursor := Some (ck_cursor k); red_event_cursor := None; red_event := None;
     red_ready := true |}.

(** Field updates. *)
Definition set_red_state (st : QuoteState) (r : QuoteReducer) : QuoteReducer :=
  {| red_state := st; red_fee_class := red_fee_class r;
     red_verified_router := red_verified_router r; red_cursor := red_cursor r;
     red_event_cursor := red_event_cursor r; red_event := red_event r; red_ready := red_ready r |}.
Definition set_red_router (v : option VerifiedRouterSnapshot) (r : QuoteReducer) : QuoteReducer :=
  {| red_state := red_state r; red_fee_class := red_fee_class r; red_verified_router := v;
     red_cursor := red_cursor r; red_event_cursor := red_event_cursor r;
     red_event := red_event r; red_ready := red_ready r |}.
Definition set_red_cursor (c : option ChainCursor) (r : QuoteReducer) : QuoteReducer :=
  {| red_state := red_state r; red_fee_class := red_fee_class r;
     red_verified_router := red_verified_router r; red_cursor := c;
     red_event_cursor := red_event_cursor r; red_event := red_event r; red_ready := red_ready r |}.
Definition set_red_event (c : option ChainCursor) (e : option QuoteEvent) (r : QuoteReducer)
    : QuoteReducer :=
  {| red_state := red_state r; red_fee_class := red_fee_class r;
     red_verified_router := red_verified_router r; red_cursor := red_cursor r;
     red_event_cursor := c; red_event := e; red_ready := red_ready r |}.
Definition set_red_ready (b : bool) (r : QuoteReducer) : QuoteReducer :=
  {| red_state := red_state r; red_fee_class := red_fee_class r;
     red_verified_router := red_verified_router r; red_cursor := red_cursor r;
     red_event_cursor := red_event_cursor r; red_event := red_event r; red_ready := b |}.

Definition set_lanes (m : gmap Address LaneState) (st : QuoteState) : QuoteState :=
  {| cash := cash st; cash_reserve := cash_reserve st; lanes := m;
     blacklist_fee_multiplier := blacklist_fee_multiplier st |}.
Definition set_cash_reserve (x : Z) (st : QuoteState) : QuoteState :=
  {| cash := cash st; cash_reserve := x; lanes := lanes st;
     blacklist_fee_multiplier := blacklist_fee_multiplier st |}.
Definition set_multiplier (x : U256) (st : QuoteState) : QuoteState :=
  {| cash := cash st; cash_reserve := cash_reserve st; lanes := lanes st;
     blacklist_fee_multiplier := x |}.

Definition set_slot0 (w : U256) (l : LaneState) : LaneState :=
  {| slot0 := w; asset_reserve := asset_reserve l;
     total_principal_amount := total_principal_amount l |}.
Definition set_asset_reserve (x : Z) (l : LaneState) : LaneState :=
  {| slot0 := slot0 l; asset_reserve := x; total_principal_amount := total_principal_amount l |}.
Definition set_principal (x : Z) (l : LaneState) : LaneState :=
  {| slot0 := slot0 l; asset_reserve := asset_reserve l; total_principal_amount := x |}.

Definition reducer_is_ready (r : QuoteReducer) : bool := red_ready r.
Definition verified_router_address (r : QuoteReducer) : option Address :=
  router <$> red_verified_router r.
Definition reducer_mark_not_ready (r : QuoteReducer) : QuoteReducer := set_red_ready false r.
Definition publish_ready (r : QuoteReducer) : QuoteReducer := set_red_ready true r.
Definition reducer_bootstrap (c : ChainCursor) (r : QuoteReducer) : QuoteReducer :=
  set_red_ready true (set_red_event None None (set_red_cursor (Some c) r)).

(** [opt.is_some_and(f)] *)
Definition is_some_and {A} (o : option A) (f : A -> bool) : bool :=
  match o with
  | Some a => f a
  | None => false
  end.

Definition rewind_head (head : ChainCursor) : method QuoteReducer ReducerError unit :=
  self ← get;
  if is_some_and (red_cursor self) (fun c => negb (chain_id c =? chain_id head))
     || is_some_and (red_event_cursor self) (fun c => negb (chain_id c =? chain_id head))
  then fail ChainIdMismatch
  else modify (fun r => set_red_event None None (set_red_cursor (Some head) r)).

(** The derived order of [Commitment] and of [Option<u64>]. *)
Definition commitment_rank (c : Commitment) : Z :=
  match c with
  | Realtime => 0
  | Canonical => 1
  | Finalized => 2
  end.
Definition commitment_ltb (x y : Commitment) : bool := commitment_rank x <? commitment_rank y.
Definition commitment_max (x y : Commitment) : Commitment := if commitment_ltb y x then x else y.
Definition option_ltb (x y : option Z) : bool :=
  match x, y with
  | None, Some _ => true
  | Some a, Some b => a <? b
  | _, None => false
  end.

(** ** identity.rs *)

Definition validate_head_against_event (event current : option ChainCursor) (head : ChainCursor)
    : result ReducerError unit :=
  match event with
  | None => Ok tt
  | Some event =>
      if negb (block_number event =? block_number head)
         || is_some_and current (fun current => block_number head <? block_number current)
      then Ok tt
      else
        let conflict :=
          negb (execution_block_number event =? execution_block_number head)
          || match block_hash event, block_hash head with
             | Some l, Some r => negb (l =? r)
             | None, Some _ => true
             | None, None => negb (is_some (source_sequence event))
                             || negb (is_some (source_sequence head))
             | Some _, None => true
             end in
        if conflict then Err BlockHashMismatch else Ok tt
  end.

Definition validate_event_against_head (head event : ChainCursor) : result ReducerError unit :=
  if negb (block_number head =? block_number event) then Ok tt
  else
    let conflict :=
      negb (execution_block_number head =? execution_block_number event)
      || match block_hash head, block_hash event with
         | Some _, None => true
         | Some l, Some r => negb (l =? r)
         | None, None => negb (is_some (source_sequence head))
                         || negb (is_some (source_sequence event))
         | None, Some _ => false
         end in
    if conflict then Err BlockHashMismatch else Ok tt.

Definition validate_event_successor (previous next : ChainCursor) : result ReducerError unit :=
  if negb (block_number previous =? block_number next) then Ok tt
  else
    let conflict :=
      negb (execution_block_number previous =? execution_block_number next)
      || match block_hash previous, block_hash next with
         | Some l, Some r => negb (l =? r)
         | Some _, None | None, Some _ => true
         | None, None => negb (is_some (source_sequence previous))
                         || negb (is_some (source_sequence next))
         end in
    if conflict then Err BlockHashMismatch else Ok tt.

Definition is_realtime_progression (previous next : ChainCursor) : bool :=
  bool_decide (commitment previous = Realtime) && bool_decide (commitment next = Realtime)
  && option_ltb (source_sequence previous) (source_sequence next).

(** ** Heads *)

(** The in-place updates of the current cursor by a head of its own height. *)
Definition merge_head (identity_changed : bool) (current head : ChainCursor) : ChainCursor :=
  let newer := option_ltb (source_sequence current) (source_sequence head) in
  {| chain_id := chain_id current; block_number := block_number current;
     execution_block_number :=
       if identity_changed then execution_block_number head else execution_block_number current;
     block_hash := if identity_changed then block_hash head else block_hash current;
     transaction_index := transaction_index current; log_index := log_index current;
     source_sequence := if newer then source_sequence head else source_sequence current;
     source_sub_index := if newer then source_sub_index head else source_sub_index current;
     commitment := if commitment_ltb (commitment current) (commitment head)
                   then commitment head else commitment current |}.

Definition observe_head (head : ChainCursor) : method QuoteReducer ReducerError unit :=
  self ← get;
  _ ← lift (validate_head_against_event (red_event_cursor self) (red_cursor self) head);
  match red_cursor self with
  | Some current =>
      if negb (chain_id current =? chain_id head) then fail ChainIdMismatch
      else if block_number head <? block_number current then mret tt
      else if block_number head =? block_number current then
        let identity_changed := negb (bool_decide (block_hash current = block_hash head)) in
        let applied_event :=
          is_some_and (red_event_cursor self)
            (fun event => block_number event =? block_number head) in
        if is_some (block_hash current) && negb (is_some (block_hash head))
        then fail BlockHashMismatch
        else if negb identity_changed
                && negb (execution_block_number current =? execution_block_number head)
        then fail BlockHashMismatch
        else if identity_changed && (applied_event || negb (is_realtime_progression current head))
        then fail BlockHashMismatch
        else modify (set_red_cursor (Some (merge_head identity_changed current head)))
      else modify (set_red_cursor (Some head))
  | None => modify (set_red_cursor (Some head))
  end.

Definition observe_corrected_head (head : ChainCursor) : method QuoteReducer ReducerError unit :=
  _ ← observe_head head;
  modify (set_red_cursor (Some head)).

(** ** Events (events.rs) *)

Definition get_lane (asset : Address) : method QuoteReducer ReducerError LaneState :=
  self ← get; lift (ok_or (lanes (red_state self) !! asset) UnknownLane).

(** [self.lane_mut(asset)?], written through [f]. *)
Definition lane_mut (asset : Address) (f : LaneState -> LaneState)
    : method QuoteReducer ReducerError unit :=
  self ← get;
  lane ← get_lane asset;
  let st := red_state self in
  modify (set_red_state (set_lanes (<[ asset := f lane ]> (lanes st)) st)).

(** [if next == previous { return Ok(false) }; lane_mut(asset)?.slot0 = next] *)
Definition replace_slot0 (asset : Address) (previous next : U256)
    : method QuoteReducer ReducerError bool :=
  if next =? previous then mret false
  else _ ← lane_mut asset (set_slot0 next); mret true.

Definition apply_event (event : QuoteEvent) : method QuoteReducer ReducerError bool :=
  self ← get;
  let st := red_state self in
  match event with
  | LaneAdded asset =>
      if is_some (red_verified_router self) then fail VerifiedRouterRefreshRequired
      else
        let previous := match lanes st !! asset with
                        | Some lane => slot0 lane
                        | None => 0
                        end in
        let slot := set_lane_slot0_exists previous true in
        let next := set_lane_slot0_paused slot true in
        if next =? previous then mret false
        else
          let entry := default LaneState_default (lanes st !! asset) in
          _ ← modify (set_red_state (set_lanes (<[ asset := set_slot0 next entry ]> (lanes st)) st));
          mret true
  | LaneRemoved asset =>
      let state_changed := is_some (lanes st !! asset) in
      let router_changed :=
        is_some_and (red_verified_router self) (fun v => is_some (partner_fee_bps v !! asset)) in
      _ ← (if state_changed
           then modify (set_red_state (set_lanes (delete asset (lanes st)) st)) else mret tt);
      _ ← (if router_changed
           then modify (set_red_router
                  ((fun v => {| router := router v;
                                partner_fee_bps := delete asset (partner_fee_bps v) |})
                     <$> red_verified_router self))
           else mret tt);
      mret (state_changed || router_changed)
  | LaneUpdated asset slot =>
      lane ← get_lane asset;
      if slot0 lane =? slot then mret false
      else _ ← lane_mut asset (set_slot0 slot); mret true
  | SlippageKSet asset new_k =>
      if BPS <? new_k then fail InvalidSlippageK
      else
        lane ← get_lane asset;
        replace_slot0 asset (slot0 lane) (set_lane_slot0_slippage_k_bps (slot0 lane) new_k)
  | LanePausedSet asset paused =>
      lane ← get_lane asset;
      replace_slot0 asset (slot0 lane) (set_lane_slot0_paused (slot0 lane) paused)
  | PricePushThresholdSet asset threshold enabled =>
      lane ← get_lane asset;
      next ← lift (map_err (fun _ => InvalidWidth)
                     (set_lane_slot0_price_push_threshold (slot0 lane) threshold enabled));
      replace_slot0 asset (slot0 lane) next
  | BlockDelaySet asset delay =>
      lane ← get_lane asset;
      replace_slot0 asset (slot0 lane) (set_lane_slot0_block_delay (slot0 lane) delay)
  | PartnerInfoSet event_router asset fee | PartnerFeeSet event_router asset fee =>
      match red_verified_router self with
      | None => mret false
      | Some verified =>
          if negb (event_router =? router verified)
             || (negb (asset =? cash st) && negb (is_some (lanes st !! asset)))
          then mret false
          else if BPS <? fee then fail InvalidWidth
          else if bool_decide (partner_fee_bps verified !! asset = Some fee) then mret false
          else
            let previous := partner_fee_bps verified !! asset in
            _ ← modify (set_red_router
                  (Some {| router := router verified;
                           partner_fee_bps := <[ asset := fee ]> (partner_fee_bps verified) |}));
            mret (negb (bool_decide (previous = Some fee)))
      end
  | WhitelistSet event_router whitelisted =>
      if is_some_and (red_verified_router self) (fun v => router v =? event_router)
         && negb (Bool.eqb whitelisted (is_whitelisted (red_fee_class self)))
      then fail FeeClassMismatch
      else mret false
  | BlacklistFeeMultiplierSet multiplier =>
      if blacklist_fee_multiplier st =? multiplier then mret false
      else _ ← modify (set_red_state (set_multiplier multiplier st)); mret true
  | DepositExecuted asset principal =>
      lane ← get_lane asset;
      let previous := total_principal_amount lane in
      next ← lift (ok_or (uint_checked_add 128 previous principal) ArithmeticTransition);
      if next =? previous then mret false
      else _ ← lane_mut asset (set_principal next); mret true
  | WithdrawalExecuted asset principal =>
      lane ← get_lane asset;
      let previous := total_principal_amount lane in
      next ← lift (ok_or (uint_checked_sub previous principal) ArithmeticTransition);
      if next =? previous then mret false
      else _ ← lane_mut asset (set_principal next); mret true
  | Sync asset reserve new_cash =>
      if negb (asset =? cash st) && negb (is_some (lanes st !! asset)) then fail UnknownLane
      else
        let changed :=
          negb (cash_reserve st =? new_cash)
          || (negb (asset =? cash st)
              && is_some_and (lanes st !! asset) (fun l => negb (asset_reserve l =? reserve))) in
        if negb changed then mret false
        else
          let st1 := set_cash_reserve new_cash st in
          let st2 := if negb (asset =? cash st1)
                     then set_lanes (alter (set_asset_reserve reserve) asset (lanes st1)) st1
                     else st1 in
          _ ← modify (set_red_state st2); mret true
  | ImplementationUpgraded _ => fail ImplementationWasUpgraded
  end.

(** ** Ordered application *)

Definition set_cursor_sequence (from c : ChainCursor) : ChainCursor :=
  {| chain_id := chain_id c; block_number := block_number c;
     execution_block_number := execution_block_number c; block_hash := block_hash c;
     transaction_index := transaction_index c; log_index := log_index c;
     source_sequence := source_sequence from; source_sub_index := source_sub_index from;
     commitment := commitment c |}.
Definition set_cursor_commitment (m : Commitment) (c : ChainCursor) : ChainCursor :=
  {| chain_id := chain_id c; block_number := block_number c;
     execution_block_number := execution_block_number c; block_hash := block_hash c;
     transaction_index := transaction_index c; log_index := log_index c;
     source_sequence := source_sequence c; source_sub_index := source_sub_index c;
     commitment := m |}.

(** The cursor published with an accepted event. *)
Definition publish_event_cursor (head : option ChainCursor) (cursor : ChainCursor) : ChainCursor :=
  match head with
  | Some head =>
      if block_number cursor <? block_number head then
        if option_ltb (source_sequence head) (source_sequence cursor)
        then set_cursor_sequence cursor head else head
      else if block_number cursor =? block_number head
      then set_cursor_commitment (commitment_max (commitment cursor) (commitment head)) cursor
      else cursor
  | None => cursor
  end.

Definition apply_with_effect (cursor : ChainCursor) (event : QuoteEvent)
    : method QuoteReducer ReducerError bool :=
  self ← get;
  _ ← lift (match red_cursor self with
            | Some head =>
                if negb (chain_id head =? chain_id cursor) then Err ChainIdMismatch
                else validate_event_against_head head cursor
            | None => Ok tt
            end);
  retry ← lift (match red_event_cursor self with
            | Some previous =>
                if negb (chain_id previous =? chain_id cursor) then Err ChainIdMismatch
                else
                  _ ← validate_event_successor previous cursor;
                  if order_ltb (event_order cursor) (event_order previous) then Err CursorRegression
                  else if bool_decide (event_order cursor = event_order previous)
                  then if bool_decide (red_event self = Some event) then Ok true
                       else Err EventPayloadMismatch
                  else Ok false
            | None => Ok false
            end);
  if (retry : bool) then mret false
  else
    changed ← apply_event event;
    _ ← modify (fun r => set_red_event (Some cursor) (Some event) r);
    _ ← modify (fun r => set_red_cursor (Some (publish_event_cursor (red_cursor r) cursor)) r);
    mret changed.

Definition apply (cursor : ChainCursor) (event : QuoteEvent) : method QuoteReducer ReducerError unit :=
  _ ← apply_with_effect cursor event; mret tt.

Definition reducer_checkpoint (r : QuoteReducer) (d : DeploymentConfig) : option Checkpoint :=
  c ← red_cursor r;
  Some {| schema_version := SCHEMA_VERSION;
          math_compatibility_version := MATH_COMPATIBILITY_VERSION;
          expected_implementation := dep_expected_implementation d;
          expected_implementation_code_hash := dep_expected_implementation_code_hash d;
          ck_chain_id := dep_chain_id d; ck_network := dep_network d; ck_core := dep_core d;
          deployment_block := dep_deployment_block d;
          explicit_lane_assets := dep_explicit_lane_assets d;
          ck_cursor := c; ck_state := red_state r |}.
