(* ===== verification/ReducerFacts.v ===== *)
(** * Correctness of the reducer

    The market the reducer mirrors ([Market]), the refinement of every event to
    it, atomicity of failures, progress of the head and event positions, retries
    and checkpoints. *)

From S2P Require Import Prelude Arithmetic Slot0 State Model Reducer.

(** ** Effects *)

(** Only the state, the router, and bookkeeping-free fields may change. *)
Definition same_bookkeeping (r r' : QuoteReducer) : Prop :=
  red_fee_class r' = red_fee_class r /\ red_cursor r' = red_cursor r
  /\ red_event_cursor r' = red_event_cursor r /\ red_event r' = red_event r
  /\ red_ready r' = red_ready r
  /\ verified_router_address r' = verified_router_address r.

Lemma get_lane_eq asset r :
  get_lane asset r = match lanes (red_state r) !! asset with
                     | Some l => (Ok l, r)
                     | None => (Err UnknownLane, r)
                     end.
Proof. unfold get_lane. mred. by destruct (_ !! asset). Qed.

Lemma lane_mut_eq asset f r :
  lane_mut asset f r =
    match lanes (red_state r) !! asset with
    | Some l => (Ok tt, set_red_state (set_lanes (<[ asset := f l ]> (lanes (red_state r))) (red_state r)) r)
    | None => (Err UnknownLane, r)
    end.
Proof. unfold lane_mut. mred. rewrite get_lane_eq. by destruct (_ !! asset). Qed.

Lemma same_bookkeeping_refl r : same_bookkeeping r r.
Proof. done. Qed.
#[export] Hint Resolve same_bookkeeping_refl : core.

(** What one successful event leaves behind: the new state and router, and
    whether they differ from the old ones. *)
Definition effect (r r' : QuoteReducer) (changed : bool) : Prop :=
  same_bookkeeping r r' /\
  (changed = false -> r' = r) /\
  (changed = true -> red_state r' <> red_state r \/ red_verified_router r' <> red_verified_router r).

Lemma effect_none r : effect r r false.
Proof. by split. Qed.
#[export] Hint Resolve effect_none : core.

Lemma effect_state r st :
  st <> red_state r -> effect r (set_red_state st r) true.
Proof. split; [done|]. split; [done|]. auto. Qed.

Lemma effect_lane r asset l l' :
  lanes (red_state r) !! asset = Some l -> l' <> l ->
  effect r (set_red_state (set_lanes (<[ asset := l' ]> (lanes (red_state r))) (red_state r)) r) true.
Proof.
  intros Hl Hne. apply effect_state. intros H. apply (f_equal (fun s => lanes s !! asset)) in H.
  cbn in H. rewrite lookup_insert_eq in H. congruence.
Qed.

Lemma set_slot0_neq w l : w <> slot0 l -> set_slot0 w l <> l.
Proof. intros H E. apply H. by rewrite <-E. Qed.
Lemma set_principal_neq x l : x <> total_principal_amount l -> set_principal x l <> l.
Proof. intros H E. apply H. by rewrite <-E. Qed.
Lemma set_reserve_neq x l : x <> asset_reserve l -> set_asset_reserve x l <> l.
Proof. intros H E. apply H. by rewrite <-E. Qed.

Lemma replace_slot0_spec asset next l r res r' :
  lanes (red_state r) !! asset = Some l ->
  replace_slot0 asset (slot0 l) next r = (res, r') ->
  exists ch, res = Ok ch /\ effect r r' ch
    /\ r' = set_red_state (set_lanes (<[ asset := set_slot0 next l ]> (lanes (red_state r))) (red_state r)) r.
Proof.
  intros Hl. unfold replace_slot0. destruct (Z.eqb_spec next (slot0 l)) as [->|Hne]; mred.
  - intros [= <- <-]. exists false. split_and!; [done..|].
    destruct r as [[? ? m ?] ? ? ? ? ? ?], l. cbn in *. unfold set_red_state, set_lanes, set_slot0. cbn.
    by rewrite insert_id.
  - rewrite lane_mut_eq, Hl. intros [= <- <-]. exists true.
    split_and!; [done| |done]. apply (effect_lane r asset l); [done|by apply set_slot0_neq].
Qed.

(** ** What the events mean

    The market the reducer mirrors: lanes by their decoded fields, no packed
    words, no early returns, no change flag. *)

Module Market.

Record Lane := {
  fields : LaneSlot0;
  reserve : Z;
  principal : Z
}.

Record State := {
  cash_asset : Address;
  free_cash : Z;
  market_lanes : gmap Address Lane;
  multiplier : Z;
  shares : option VerifiedRouterSnapshot
}.

Definition lane_view (l : LaneState) : Lane :=
  {| fields := decode_lane_slot0 (slot0 l); reserve := asset_reserve l;
     principal := total_principal_amount l |}.

Definition view (r : QuoteReducer) : State :=
  let st := red_state r in
  {| cash_asset := cash st; free_cash := cash_reserve st; market_lanes := lane_view <$> lanes st;
     multiplier := blacklist_fee_multiplier st; shares := red_verified_router r |}.

Definition set_market_lanes (m : gmap Address Lane) (s : State) : State :=
  {| cash_asset := cash_asset s; free_cash := free_cash s; market_lanes := m;
     multiplier := multiplier s; shares := shares s |}.

Definition with_shares (v : option VerifiedRouterSnapshot) (s : State) : State :=
  {| cash_asset := cash_asset s; free_cash := free_cash s; market_lanes := market_lanes s;
     multiplier := multiplier s; shares := v |}.

Definition with_fields (f : LaneSlot0) (l : Lane) : Lane :=
  {| fields := f; reserve := reserve l; principal := principal l |}.
Definition with_principal (x : Z) (l : Lane) : Lane :=
  {| fields := fields l; reserve := reserve l; principal := x |}.

(** A transition of one known lane. *)
Definition at_lane (a : Address) (f : Lane -> result ReducerError Lane) (s : State)
    : result ReducerError State :=
  match market_lanes s !! a with
  | None => Err UnknownLane
  | Some l => l' ← f l; Ok (set_market_lanes (<[ a := l' ]> (market_lanes s)) s)
  end.

Definition new_lane : Lane := {| fields := decode_lane_slot0 0; reserve := 0; principal := 0 |}.

Definition knows (a : Address) (s : State) : Prop := a = cash_asset s \/ is_Some (market_lanes s !! a).

#[export] Instance knows_dec a s : Decision (knows a s).
Proof. unfold knows. apply _. Defined.

Definition set_share (a : Address) (fee : Z) (v : VerifiedRouterSnapshot) : VerifiedRouterSnapshot :=
  {| router := router v; partner_fee_bps := <[ a := fee ]> (partner_fee_bps v) |}.
Definition drop_share (a : Address) (v : VerifiedRouterSnapshot) : VerifiedRouterSnapshot :=
  {| router := router v; partner_fee_bps := delete a (partner_fee_bps v) |}.

Definition step (class : FeeClass) (event : QuoteEvent) (s : State) : result ReducerError State :=
  match event with
  | LaneAdded a =>
      match shares s with
      | Some _ => Err VerifiedRouterRefreshRequired
      | None =>
          let l := default new_lane (market_lanes s !! a) in
          Ok (set_market_lanes
                (<[ a := with_fields (with_paused (with_exists (fields l) true) true) l ]>
                   (market_lanes s)) s)
      end
  | LaneRemoved a =>
      Ok (with_shares (drop_share a <$> shares s) (set_market_lanes (delete a (market_lanes s)) s))
  | LaneUpdated a w => at_lane a (fun l => Ok (with_fields (decode_lane_slot0 w) l)) s
  | SlippageKSet a k =>
      if decide (k <= BPS)
      then at_lane a (fun l => Ok (with_fields (with_slippage_k (fields l) k) l)) s
      else Err InvalidSlippageK
  | LanePausedSet a b => at_lane a (fun l => Ok (with_fields (with_paused (fields l) b) l)) s
  | PricePushThresholdSet a t b =>
      at_lane a (fun l => if decide (t < 128)
                          then Ok (with_fields (with_threshold (fields l) t b) l)
                          else Err InvalidWidth) s
  | BlockDelaySet a d => at_lane a (fun l => Ok (with_fields (with_block_delay (fields l) d) l)) s
  | PartnerInfoSet r a fee | PartnerFeeSet r a fee =>
      match shares s with
      | None => Ok s
      | Some v =>
          if decide (r = router v /\ knows a s)
          then if decide (fee <= BPS) then Ok (with_shares (Some (set_share a fee v)) s)
               else Err InvalidWidth
          else Ok s
      end
  | WhitelistSet r b =>
      if decide ((router <$> shares s) = Some r /\ b <> is_whitelisted class)
      then Err FeeClassMismatch else Ok s
  | BlacklistFeeMultiplierSet m =>
      Ok {| cash_asset := cash_asset s; free_cash := free_cash s; market_lanes := market_lanes s;
            multiplier := m; shares := shares s |}
  | DepositExecuted a p =>
      at_lane a (fun l => if decide (principal l + p < 2 ^ 128)
                          then Ok (with_principal (principal l + p) l)
                          else Err ArithmeticTransition) s
  | WithdrawalExecuted a p =>
      at_lane a (fun l => if decide (p <= principal l)
                          then Ok (with_principal (principal l - p) l)
                          else Err ArithmeticTransition) s
  | Sync a new_reserve new_cash =>
      if decide (knows a s)
      then Ok {| cash_asset := cash_asset s; free_cash := new_cash;
                 market_lanes :=
                   if decide (a = cash_asset s) then market_lanes s
                   else alter (fun l => {| fields := fields l; reserve := new_reserve;
                                           principal := principal l |}) a (market_lanes s);
                 multiplier := multiplier s; shares := shares s |}
      else Err UnknownLane
  | ImplementationUpgraded _ => Err ImplementationWasUpgraded
  end.

End Market.

(** The fields of an event fit their Rust types. *)
Definition event_fits (event : QuoteEvent) : Prop :=
  match event with
  | LaneUpdated _ w => uint 256 w
  | SlippageKSet _ k => uint 32 k
  | PricePushThresholdSet _ t _ => uint 8 t
  | BlockDelaySet _ d => uint 8 d
  | PartnerInfoSet _ _ fee | PartnerFeeSet _ _ fee => uint 32 fee
  | BlacklistFeeMultiplierSet m => uint 256 m
  | DepositExecuted _ p | WithdrawalExecuted _ p => uint 128 p
  | Sync _ x y => uint 128 x /\ uint 128 y
  | _ => True
  end.

(** The code and the market agree on one event. *)
Definition simulates (r : QuoteReducer) (out : result ReducerError bool * QuoteReducer)
    (spec : result ReducerError Market.State) : Prop :=
  match spec with
  | Ok s => exists ch, out.1 = Ok ch /\ Market.view out.2 = s /\ effect r out.2 ch
  | Err e => out = (Err e, r)
  end.

Lemma view_insert r a l :
  Market.view (set_red_state (set_lanes (<[ a := l ]> (lanes (red_state r))) (red_state r)) r)
  = Market.set_market_lanes (<[ a := Market.lane_view l ]> (Market.market_lanes (Market.view r)))
      (Market.view r).
Proof. unfold Market.view, Market.set_market_lanes. cbn. by rewrite fmap_insert. Qed.

Lemma view_lookup r a :
  Market.market_lanes (Market.view r) !! a = Market.lane_view <$> lanes (red_state r) !! a.
Proof. cbn. apply lookup_fmap. Qed.

(** A transition that ends by replacing the lane's word. *)
Lemma replace_simulates a l next r f :
  lanes (red_state r) !! a = Some l -> decode_lane_slot0 next = f ->
  simulates r (replace_slot0 a (slot0 l) next r)
    (Ok (Market.set_market_lanes
           (<[ a := Market.with_fields f (Market.lane_view l) ]> (Market.market_lanes (Market.view r)))
           (Market.view r))).
Proof.
  intros Hl <-. destruct (replace_slot0 a (slot0 l) next r) as [res r'] eqn:E.
  apply (replace_slot0_spec _ _ l) in E as (ch & -> & Heff & ->); [|done].
  exists ch. split_and!; [done| |done]. cbn [snd]. by rewrite view_insert.
Qed.

(** A transition of one lane: unknown lanes fail before anything changes. *)
Lemma at_lane_simulates a r (k : LaneState -> method QuoteReducer ReducerError bool) f :
  (forall l, lanes (red_state r) !! a = Some l ->
     simulates r (k l r)
       (l' ← f (Market.lane_view l);
        Ok (Market.set_market_lanes (<[ a := l' ]> (Market.market_lanes (Market.view r)))
              (Market.view r)))) ->
  simulates r ((get_lane a ≫= k) r) (Market.at_lane a f (Market.view r)).
Proof.
  intros H. unfold Market.at_lane. rewrite view_lookup. mred. rewrite get_lane_eq.
  destruct (lanes (red_state r) !! a) as [l|] eqn:E; [by apply H|]. done.
Qed.

(** A lane whose principal is replaced when it differs. *)
Lemma principal_simulates a l next r :
  lanes (red_state r) !! a = Some l ->
  simulates r
    ((if next =? total_principal_amount l then mret false
      else _ ← lane_mut a (set_principal next); mret true) r)
    (Ok (Market.set_market_lanes
           (<[ a := Market.with_principal next (Market.lane_view l) ]>
              (Market.market_lanes (Market.view r)))
           (Market.view r))).
Proof.
  intros Hl. destruct (Z.eqb_spec next (total_principal_amount l)) as [->|Hne]; mred.
  - exists false. split_and!; [done| |done]. cbn [snd]. destruct l, r as [[? ? m ?] ? ? ? ? ? ?].
    unfold Market.set_market_lanes, Market.view in *. cbn in *. f_equal. symmetry.
    apply insert_id. by rewrite lookup_fmap, Hl.
  - rewrite lane_mut_eq, Hl. exists true. split_and!; [done| |].
    + cbn [snd]. by rewrite view_insert.
    + by apply (effect_lane r a l), set_principal_neq.
Qed.

Lemma is_some_lookup_known r a :
  negb (a =? cash (red_state r)) && negb (is_some (lanes (red_state r) !! a)) = false <->
  Market.knows a (Market.view r).
Proof.
  unfold Market.knows. rewrite view_lookup. cbn [Market.cash_asset Market.view].
  rewrite andb_false_iff, !negb_false_iff, Z.eqb_eq, is_some_true, fmap_is_Some. done.
Qed.

Lemma lane_added_simulates a r :
  state_wf (red_state r) ->
  simulates r (apply_event (LaneAdded a) r)
    (Market.step (red_fee_class r) (LaneAdded a) (Market.view r)).
Proof.
  intros Hwf. unfold apply_event. rewrite get_bind. cbv zeta. cbn [Market.step].
  change (Market.shares (Market.view r)) with (red_verified_router r).
  destruct (red_verified_router r) as [v|]; cbn [is_some]; [done|].
  rewrite view_lookup. set (w := match lanes (red_state r) !! a with Some l => slot0 l | None => 0 end).
  set (next := set_lane_slot0_paused (set_lane_slot0_exists w true) true).
  assert (uint 256 w) as Hw.
  { unfold w. destruct (lanes _ !! a) eqn:E; [|done]. by eapply wf_slot0, lane_lookup_wf. }
  assert (decode_lane_slot0 next = with_paused (with_exists (decode_lane_slot0 w) true) true) as Hd.
  { unfold next. by rewrite decode_set_paused, decode_set_exists by auto. }
  destruct (Z.eqb_spec next w) as [E|Hne].
  - mred. exists false. split_and!; [done| |done]. cbn [snd]. rewrite E in Hd. clearbody next.
    destruct (lanes (red_state r) !! a) as [l|] eqn:El; subst w.
    + change (default Market.new_lane (Market.lane_view <$> Some l)) with (Market.lane_view l).
      change (Market.fields (Market.lane_view l)) with (decode_lane_slot0 (slot0 l)).
      rewrite <-Hd. destruct r as [[? ? m ?] ? ? ? ? ? ?], l.
      unfold Market.set_market_lanes, Market.view in *. cbn in *. f_equal. symmetry.
      apply insert_id. by rewrite lookup_fmap, El.
    + exfalso. apply (f_equal lane_exists) in Hd. vm_compute in Hd. done.
  - mred. exists true. split_and!; [done| |].
    + cbn [snd]. rewrite view_insert. f_equal. f_equal. unfold Market.lane_view at 1. cbn [set_slot0 slot0].
      rewrite Hd. unfold w. by destruct (lanes (red_state r) !! a).
    + apply effect_state. intros H. apply (f_equal (fun s => lanes s !! a)) in H. cbn in H.
      rewrite lookup_insert_eq in H. unfold w in Hne. rewrite <-H in Hne. done.
Qed.

Lemma lane_removed_simulates a r :
  simulates r (apply_event (LaneRemoved a) r)
    (Market.step (red_fee_class r) (LaneRemoved a) (Market.view r)).
Proof.
  unfold apply_event. rewrite get_bind. cbv zeta. cbn [Market.step]. mred.
  destruct r as [[c cr m bm] cl v cu ec ev rd]. cbn.
  unfold Market.with_shares, Market.set_market_lanes, Market.view. cbn.
  rewrite <-fmap_delete.
  assert (is_some (m !! a) = false -> delete a m = m) as Hm.
  { intros H. apply delete_id. by destruct (m !! a). }
  assert (is_some_and v (fun v => is_some (partner_fee_bps v !! a)) = false ->
          Market.drop_share a <$> v = v) as Hv.
  { destruct v as [[ro sh]|]; [|done]. cbn. intros H. f_equal. unfold Market.drop_share. cbn.
    f_equal. apply delete_id. by destruct (sh !! a). }
  assert (is_some (m !! a) = true -> delete a m <> m) as Hm'.
  { intros H E. rewrite <-E, lookup_delete_eq in H. done. }
  assert (is_some_and v (fun v => is_some (partner_fee_bps v !! a)) = true ->
          Market.drop_share a <$> v <> v) as Hv'.
  { destruct v as [[ro sh]|]; [|done]. cbn. intros H E. injection E as E.
    rewrite <-E, lookup_delete_eq in H. done. }
  destruct (is_some (m !! a)) eqn:E1, (is_some_and v _) eqn:E2;
    (eexists; split; [reflexivity|]; split; [cbn [snd]; rewrite ?Hm, ?Hv by done; reflexivity|]);
    (split; [unfold same_bookkeeping, verified_router_address; cbn; by destruct v|]);
    (split; [done|]); intros He; try discriminate He.
  - left. cbn. intros E. injection E. exact (Hm' eq_refl).
  - left. cbn. intros E. injection E. exact (Hm' eq_refl).
  - right. exact (Hv' eq_refl).
Qed.

Lemma share_simulates rt a fee r event :
  event = PartnerInfoSet rt a fee \/ event = PartnerFeeSet rt a fee ->
  simulates r (apply_event event r) (Market.step (red_fee_class r) event (Market.view r)).
Proof.
  intros Hev. assert (forall out spec, apply_event event r = out ->
    Market.step (red_fee_class r) event (Market.view r) = spec -> simulates r out spec) as Hk.
  2: by apply Hk.
  intros out spec Hout Hspec.
  assert (Market.step (red_fee_class r) (PartnerFeeSet rt a fee) (Market.view r) = spec) as <-
    by (by destruct Hev as [->| ->]).
  assert (apply_event (PartnerFeeSet rt a fee) r = out) as <- by (by destruct Hev as [->| ->]).
  clear. unfold apply_event. rewrite get_bind. cbv zeta. cbn [Market.step].
  change (Market.shares (Market.view r)) with (red_verified_router r).
  destruct (red_verified_router r) as [v|] eqn:Ev; [|mred; by exists false].
  pose proof (is_some_lookup_known r a) as Hk. destruct (_ && negb (is_some _)).
  { rewrite orb_true_r. case_decide as Hd; [exfalso; destruct Hd as [_ Hd]; by apply Hk in Hd|].
    mred. by exists false. }
  rewrite orb_false_r. destruct (Z.eqb_spec rt (router v)); cbn [negb].
  2: { rewrite decide_False by naive_solver. mred. by exists false. }
  rewrite decide_True by (split; [done|by apply Hk]).
  destruct (Z.ltb_spec BPS fee); [rewrite decide_False by lia; done|].
  rewrite decide_True by lia. case_bool_decide as Hs; mred.
  - exists false. split_and!; [done| |done]. cbn [snd]. destruct r as [[? ? m ?] ? ? ? ? ? ?].
    unfold Market.with_shares, Market.set_share, Market.view in *. cbn in *. subst. f_equal. f_equal.
    destruct v. cbn in *. f_equal. by rewrite insert_id.
  - exists true. split_and!; [done| |].
    + done.
    + split; [|split; [done|]].
      * unfold same_bookkeeping, verified_router_address. cbn. by rewrite Ev.
      * intros _. right. cbn. rewrite Ev. intros E. injection E as E. apply Hs.
        rewrite <-E. cbn. apply lookup_insert_eq.
Qed.

Lemma sync_simulates a x y r :
  simulates r (apply_event (Sync a x y) r)
    (Market.step (red_fee_class r) (Sync a x y) (Market.view r)).
Proof.
  unfold apply_event. rewrite get_bind. cbv zeta. cbn [Market.step].
  pose proof (is_some_lookup_known r a) as Hk. destruct (_ && negb (is_some _)).
  { case_decide as Hd; [by apply Hk in Hd|]. done. }
  rewrite decide_True by (by apply Hk). clear Hk.
  destruct r as [[c cr m bm] cl v cu ec ev rd]. cbn.
  destruct (Z.eqb_spec a c) as [->|Hac]; cbn [negb andb orb].
  - rewrite decide_True by done. rewrite orb_false_r. destruct (Z.eqb_spec cr y) as [->|Hy]; mred; cbn.
    + by exists false.
    + exists true. split_and!; [done..|]. apply effect_state. cbn. intros E. injection E. congruence.
  - rewrite decide_False by done.
    assert ((fun l => {| Market.fields := Market.fields l; Market.reserve := x;
                         Market.principal := Market.principal l |}) ∘ Market.lane_view
            = Market.lane_view ∘ set_asset_reserve x) as Hcomp by done.
    assert (alter (fun l => {| Market.fields := Market.fields l; Market.reserve := x;
              Market.principal := Market.principal l |}) a (Market.lane_view <$> m)
            = Market.lane_view <$> alter (set_asset_reserve x) a m) as ->.
    { apply map_eq. intros k. rewrite lookup_fmap. destruct (decide (k = a)) as [->|Hk].
      - rewrite !lookup_alter_eq, lookup_fmap. by destruct (m !! a).
      - by rewrite !lookup_alter_ne, lookup_fmap by done. }
    destruct (Z.eqb_spec cr y) as [->|Hy]; cbn [negb orb].
    + destruct (is_some_and (m !! a) _) eqn:Ec; mred.
      * exists true. split_and!; [done..|]. apply effect_state. cbn. intros E. injection E as E.
        destruct (m !! a) as [l|] eqn:El; [|done]. cbn in Ec.
        apply (f_equal (lookup a)) in E. rewrite lookup_alter_eq, El in E. injection E as E.
        rewrite <-E in Ec. cbn in Ec. by rewrite Z.eqb_refl in Ec.
      * exists false. split_and!; [done| |done]. cbn. unfold Market.view. cbn. f_equal. f_equal.
        symmetry. apply map_eq. intros k. destruct (decide (k = a)) as [->|Hk].
        -- rewrite lookup_alter_eq. destruct (m !! a) as [[w res p]|]; [|done]. cbn in *.
           apply negb_false_iff, Z.eqb_eq in Ec as ->. done.
        -- by rewrite lookup_alter_ne.
    + mred. exists true. split_and!; [done..|]. apply effect_state. cbn. intros E. injection E. congruence.
Qed.

Lemma apply_event_simulates event r :
  state_wf (red_state r) -> event_fits event ->
  simulates r (apply_event event r) (Market.step (red_fee_class r) event (Market.view r)).
Proof.
  intros Hwf Hev. destruct event as [a|a|a w|a k|a b|a t b|a d|rt a fee|rt a fee|rt b|mult|a p|a p|a x y|impl];
    cbn [event_fits] in Hev;
    eauto using lane_added_simulates, lane_removed_simulates, share_simulates, sync_simulates;
    unfold apply_event; rewrite get_bind; cbv zeta; cbn [Market.step].
  - apply at_lane_simulates. intros l Hl. cbn [mbind result_bind].
    destruct (Z.eqb_spec (slot0 l) w) as [<-|Hne].
    + mred. exists false. split_and!; [done| |done]. cbn [snd].
      destruct l, r as [[? ? m ?] ? ? ? ? ? ?].
      unfold Market.set_market_lanes, Market.view, Market.with_fields in *. cbn in *. f_equal. symmetry.
      apply insert_id. by rewrite lookup_fmap, Hl.
    + mred. rewrite lane_mut_eq, Hl. exists true. split_and!; [done| |].
      * cbn [snd]. by rewrite view_insert.
      * by apply (effect_lane r a l), set_slot0_neq.
  - destruct (Z.ltb_spec BPS k); [rewrite decide_False by lia; done|].
    rewrite decide_True by lia. apply at_lane_simulates. intros l Hl.
    apply replace_simulates; [done|]. apply decode_set_slippage_k; [|done].
    by eapply wf_slot0, lane_lookup_wf.
  - apply at_lane_simulates. intros l Hl. apply replace_simulates; [done|].
    apply decode_set_paused. by eapply wf_slot0, lane_lookup_wf.
  - apply at_lane_simulates. intros l Hl. pose proof Hev as [Ht _].
    rewrite set_threshold_eq by done. unfold uint. change (2 ^ 7) with 128.
    destruct (decide (0 <= t < 128)).
    + rewrite decide_True by lia. cbn [map_err mbind result_bind]. apply replace_simulates; [done|].
      apply decode_set_threshold; [|done]. by eapply wf_slot0, lane_lookup_wf.
    + rewrite decide_False by lia. done.
  - apply at_lane_simulates. intros l Hl. apply replace_simulates; [done|].
    apply decode_set_block_delay; [|done]. by eapply wf_slot0, lane_lookup_wf.
  - change (Market.shares (Market.view r)) with (red_verified_router r).
    destruct (red_verified_router r) as [v|]; cbn [is_some_and fmap option_fmap option_map].
    + destruct (Z.eqb_spec (router v) rt), (Bool.eqb_spec b (is_whitelisted (red_fee_class r)));
        cbn [negb andb]; first [rewrite decide_True by naive_solver; done
                               |rewrite decide_False by naive_solver; mred; by exists false].
    + rewrite decide_False by naive_solver. mred. by exists false.
  - destruct (Z.eqb_spec (blacklist_fee_multiplier (red_state r)) mult) as [<-|Hne]; mred.
    + by exists false.
    + exists true. split_and!; [done..|]. apply effect_state. intros E. apply Hne. by rewrite <-E.
  - apply at_lane_simulates. intros l Hl. cbn [Market.principal Market.lane_view].
    unfold uint_checked_add. destruct (Z.ltb_spec (total_principal_amount l + p) (2 ^ 128)).
    + rewrite decide_True by done. cbn [ok_or mbind result_bind]. by apply principal_simulates.
    + rewrite decide_False by lia. done.
  - apply at_lane_simulates. intros l Hl. cbn [Market.principal Market.lane_view].
    unfold uint_checked_sub. destruct (Z.leb_spec p (total_principal_amount l)).
    + rewrite decide_True by done. cbn [ok_or mbind result_bind]. by apply principal_simulates.
    + rewrite decide_False by lia. done.
  - done.
Qed.

(** ** Effects of an event, whatever the state *)

Definition outcome_ok (r : QuoteReducer) (out : result ReducerError bool * QuoteReducer) : Prop :=
  match out.1 with
  | Ok changed => effect r out.2 changed
  | Err _ => out.2 = r
  end.

Lemma simulates_outcome r out spec : simulates r out spec -> outcome_ok r out.
Proof.
  unfold simulates, outcome_ok. destruct spec; [|by intros ->].
  by intros (ch & -> & _ & ?).
Qed.

Lemma get_lane_outcome a r (k : LaneState -> method QuoteReducer ReducerError bool) :
  (forall l, lanes (red_state r) !! a = Some l -> outcome_ok r (k l r)) ->
  outcome_ok r ((get_lane a ≫= k) r).
Proof.
  intros H. mred. rewrite get_lane_eq. destruct (lanes (red_state r) !! a); [by apply H|done].
Qed.

Lemma replace_outcome a l next r :
  lanes (red_state r) !! a = Some l -> outcome_ok r (replace_slot0 a (slot0 l) next r).
Proof. intros Hl. by eapply simulates_outcome, replace_simulates. Qed.

Lemma apply_event_outcome event r : outcome_ok r (apply_event event r).
Proof.
  destruct event as [a|a|a w|a k|a b|a t b|a d|rt a fee|rt a fee|rt b|mult|a p|a p|a x y|impl];
    try (eapply simulates_outcome;
         eauto using lane_removed_simulates, share_simulates, sync_simulates; fail);
    unfold apply_event; rewrite get_bind; cbv zeta.
  - destruct (is_some _); [done|]. destruct (_ =? _) eqn:Ew; [apply effect_none|]. mred.
    apply effect_state. intros E. apply (f_equal (fun s => lanes s !! a)) in E. cbn in E.
    rewrite lookup_insert_eq in E. destruct (lanes (red_state r) !! a) as [l|]; [|done].
    injection E as E. apply (f_equal slot0) in E. cbn in E. apply Z.eqb_neq in Ew. done.
  - apply get_lane_outcome. intros l Hl. destruct (Z.eqb_spec (slot0 l) w); [apply effect_none|].
    mred. rewrite lane_mut_eq, Hl. by apply (effect_lane r a l), set_slot0_neq.
  - case_match; [done|]. apply get_lane_outcome. intros l Hl. by apply replace_outcome.
  - apply get_lane_outcome. intros l Hl. by apply replace_outcome.
  - apply get_lane_outcome. intros l Hl. mred.
    destruct (map_err _ _); [by apply replace_outcome|done].
  - apply get_lane_outcome. intros l Hl. by apply replace_outcome.
  - case_match; [done|apply effect_none].
  - destruct (Z.eqb_spec (blacklist_fee_multiplier (red_state r)) mult) as [|Hne];
      [apply effect_none|]. mred. apply effect_state. intros E. apply Hne. by rewrite <-E.
  - apply get_lane_outcome. intros l Hl. mred. destruct (ok_or _ _); [|done].
    by eapply simulates_outcome, principal_simulates.
  - apply get_lane_outcome. intros l Hl. mred. destruct (ok_or _ _); [|done].
    by eapply simulates_outcome, principal_simulates.
  - done.
Qed.

(** ** The ordered application, unfolded *)

Definition event_guard (r : QuoteReducer) (cursor : ChainCursor) (event : QuoteEvent)
    : result ReducerError bool :=
  _ ← (match red_cursor r with
       | Some head =>
           if negb (chain_id head =? chain_id cursor) then Err ChainIdMismatch
           else validate_event_against_head head cursor
       | None => Ok tt
       end);
  match red_event_cursor r with
  | Some previous =>
      if negb (chain_id previous =? chain_id cursor) then Err ChainIdMismatch
      else
        _ ← validate_event_successor previous cursor;
        if order_ltb (event_order cursor) (event_order previous) then Err CursorRegression
        else if bool_decide (event_order cursor = event_order previous)
        then if bool_decide (red_event r = Some event) then Ok true
             else Err EventPayloadMismatch
        else Ok false
  | None => Ok false
  end.

(** The bookkeeping of an accepted event. *)
Definition record_event (cursor : ChainCursor) (event : QuoteEvent) (r : QuoteReducer) : QuoteReducer :=
  set_red_cursor (Some (publish_event_cursor (red_cursor r) cursor))
    (set_red_event (Some cursor) (Some event) r).

Lemma apply_with_effect_eq cursor event r :
  apply_with_effect cursor event r =
    match event_guard r cursor event with
    | Err e => (Err e, r)
    | Ok true => (Ok false, r)
    | Ok false =>
        match apply_event event r with
        | (Ok changed, r1) => (Ok changed, record_event cursor event r1)
        | (Err e, r1) => (Err e, r1)
        end
    end.
Proof.
  unfold apply_with_effect, event_guard. mred. cbv [result_bind].
  repeat case_match; simplify_eq/=; try done.
Qed.

(** The three ways an application ends. *)
Lemma apply_with_effect_inv cursor event r res r' :
  apply_with_effect cursor event r = (res, r') ->
  (exists e, res = Err e /\ r' = r)
  \/ (event_guard r cursor event = Ok true /\ res = Ok false /\ r' = r)
  \/ (exists ch r1, event_guard r cursor event = Ok false /\ res = Ok ch
        /\ apply_event event r = (Ok ch, r1) /\ effect r r1 ch /\ r' = record_event cursor event r1).
Proof.
  rewrite apply_with_effect_eq. destruct (event_guard r cursor event) as [[]|e].
  - intros [= <- <-]. auto.
  - pose proof (apply_event_outcome event r) as Ho. unfold outcome_ok in Ho.
    destruct (apply_event event r) as [[ch|e] r1]; cbn in Ho; intros [= <- <-].
    + right. right. exists ch, r1. done.
    + left. exists e. done.
  - intros [= <- <-]. left. eauto.
Qed.

Lemma observe_head_eq head r :
  observe_head head r =
    match validate_head_against_event (red_event_cursor r) (red_cursor r) head with
    | Err e => (Err e, r)
    | Ok _ =>
        match red_cursor r with
        | None => (Ok tt, set_red_cursor (Some head) r)
        | Some current =>
            if negb (chain_id current =? chain_id head) then (Err ChainIdMismatch, r)
            else if block_number head <? block_number current then (Ok tt, r)
            else if block_number head =? block_number current then
              let changed := negb (bool_decide (block_hash current = block_hash head)) in
              if (is_some (block_hash current) && negb (is_some (block_hash head)))
                 || (negb changed
                     && negb (execution_block_number current =? execution_block_number head))
                 || (changed
                     && (is_some_and (red_event_cursor r)
                           (fun event => block_number event =? block_number head)
                         || negb (is_realtime_progression current head)))
              then (Err BlockHashMismatch, r)
              else (Ok tt, set_red_cursor (Some (merge_head changed current head)) r)
            else (Ok tt, set_red_cursor (Some head) r)
        end
    end.
Proof.
  unfold observe_head. mred. destruct (validate_head_against_event _ _ _); [|done].
  destruct (red_cursor r) as [c|]; [|done]. cbv zeta.
  repeat (case_match; try done).
  all: cbn in *; simplify_eq/=.
Qed.

Lemma observe_head_inv head r res r' :
  observe_head head r = (res, r') ->
  (exists e, res = Err e /\ r' = r) \/
  (res = Ok tt /\ exists c', r' = set_red_cursor (Some c') r /\ chain_id c' = chain_id head
     /\ (c' = head \/ red_cursor r = Some c' \/
         exists c b, red_cursor r = Some c /\ c' = merge_head b c head /\ block_number c = block_number head)
     /\ block_number head <= block_number c'
     /\ (forall c, red_cursor r = Some c -> chain_id c = chain_id head /\ block_number c <= block_number c')).
Proof.
  rewrite observe_head_eq. destruct (validate_head_against_event _ _ _); [|intros [= <- <-]; eauto].
  destruct (red_cursor r) as [c|] eqn:Ec.
  2: { intros [= <- <-]. right. split; [done|]. exists head. split_and!; [done..|by left|lia|done]. }
  destruct (Z.eqb_spec (chain_id c) (chain_id head)); cbn [negb]; [|intros [= <- <-]; eauto].
  destruct (Z.ltb_spec (block_number head) (block_number c)).
  { intros [= <- <-]. right. split; [done|]. exists c. split_and!; [|done|auto|lia|].
    - destruct r. cbn in *. by subst.
    - intros ? [= <-]. split; [done|lia]. }
  destruct (Z.eqb_spec (block_number head) (block_number c)).
  - cbv zeta. case_match; [intros [= <- <-]; eauto|]. intros [= <- <-]. right. split; [done|].
    eexists. split_and!; [done|done|right; right; eauto 10|cbn; lia|]. intros ? [= <-]. cbn. split; [done|lia].
  - intros [= <- <-]. right. split; [done|]. exists head. split_and!; [done..|by left|lia|].
    intros ? [= <-]. split; [done|lia].
Qed.

(** ** The invariant *)

(** The quote state fits its types, and the last event belongs to the chain of
    the head and is not above it. *)
Record reducer_ok (r : QuoteReducer) : Prop := {
  ok_state : state_wf (red_state r);
  ok_event : forall e, red_event_cursor r = Some e ->
    exists c, red_cursor r = Some c /\ chain_id c = chain_id e /\ block_number e <= block_number c
}.

(** One operation of the reducer on its own: events, heads, readiness. *)
Inductive reducer_step : QuoteReducer -> QuoteReducer -> Prop :=
| step_event cursor event r :
    event_fits event -> reducer_step r (apply_with_effect cursor event r).2
| step_head head r : reducer_step r (observe_head head r).2
| step_ready b r : reducer_step r (set_red_ready b r).

Lemma state_wf_lanes st m :
  state_wf st -> map_Forall (fun _ => lane_wf) m -> state_wf (set_lanes m st).
Proof. intros []. by split. Qed.

Lemma lane_wf_slot0 w l : lane_wf l -> uint 256 w -> lane_wf (set_slot0 w l).
Proof. intros []. by split. Qed.
Lemma lane_wf_principal x l : lane_wf l -> uint 128 x -> lane_wf (set_principal x l).
Proof. intros []. by split. Qed.
Lemma lane_wf_reserve x l : lane_wf l -> uint 128 x -> lane_wf (set_asset_reserve x l).
Proof. intros []. by split. Qed.
Lemma lane_wf_default : lane_wf LaneState_default.
Proof. by split. Qed.

Lemma state_wf_insert st a l : state_wf st -> lane_wf l -> state_wf (set_lanes (<[ a := l ]> (lanes st)) st).
Proof. intros Hst Hl. apply state_wf_lanes; [done|]. apply map_Forall_insert_2; [done|apply Hst]. Qed.

Lemma state_wf_delete st a : state_wf st -> state_wf (set_lanes (delete a (lanes st)) st).
Proof. intros Hst. apply state_wf_lanes; [done|]. apply map_Forall_delete, Hst. Qed.

#[export] Hint Resolve lane_wf_slot0 lane_wf_principal lane_wf_reserve lane_wf_default
  state_wf_insert state_wf_delete wf_slot0 : wf.

Definition keeps_wf (out : result ReducerError bool * QuoteReducer) : Prop :=
  state_wf (red_state out.2).

Lemma get_lane_wf a r (k : LaneState -> method QuoteReducer ReducerError bool) :
  state_wf (red_state r) ->
  (forall l, lanes (red_state r) !! a = Some l -> lane_wf l -> keeps_wf (k l r)) ->
  keeps_wf ((get_lane a ≫= k) r).
Proof.
  intros Hst H. mred. rewrite get_lane_eq. destruct (lanes (red_state r) !! a) eqn:E; [|done]. eauto.
Qed.

Lemma lane_mut_wf a f l r b :
  state_wf (red_state r) -> lanes (red_state r) !! a = Some l -> lane_wf (f l) ->
  keeps_wf ((_ ← lane_mut a f; mret b) r).
Proof.
  intros Hst Hl Hf. mred. rewrite lane_mut_eq, Hl. unfold keeps_wf. cbn. by apply state_wf_insert.
Qed.

Lemma replace_slot0_wf a l next r :
  state_wf (red_state r) -> lanes (red_state r) !! a = Some l -> uint 256 next ->
  keeps_wf (replace_slot0 a (slot0 l) next r).
Proof.
  intros Hst Hl Hn. unfold replace_slot0. case_match; [done|]. apply (lane_mut_wf _ _ l); eauto with wf.
Qed.

Lemma principal_wf a l (next : option Z) r :
  state_wf (red_state r) -> lanes (red_state r) !! a = Some l -> lane_wf l ->
  (forall x, next = Some x -> uint 128 x) ->
  keeps_wf
    ((next ← lift (ok_or next ArithmeticTransition);
      if next =? total_principal_amount l then mret false
      else _ ← lane_mut a (set_principal next); mret true) r).
Proof.
  intros Hst Hl Hwf Hx. destruct next as [x|]; [|done].
  change (keeps_wf ((if x =? total_principal_amount l then mret false
    else _ ← lane_mut a (set_principal x); mret true) r)).
  case_match; [done|]. apply (lane_mut_wf _ _ l); eauto with wf.
Qed.

Lemma apply_event_wf event r :
  state_wf (red_state r) -> event_fits event -> keeps_wf (apply_event event r).
Proof.
  intros Hst Hev. unfold apply_event. rewrite get_bind. cbv zeta.
  destruct event as [a|a|a w|a k|a b|a t b|a d|rt a fee|rt a fee|rt b|mult|a p|a p|a x y|impl];
    cbn [event_fits] in Hev; try (apply get_lane_wf; [done|intros l Hl Hwf]).
  - do 2 (case_match; [done|]). mred. unfold keeps_wf. cbn.
    destruct (lanes (red_state r) !! a) as [l|] eqn:El; cbn; apply state_wf_insert; [done| |done|];
      apply lane_wf_slot0; eauto 6 with wf.
    apply set_paused_uint, set_exists_uint. done.
  - mred. destruct (is_some (lanes _ !! a)), (is_some_and (red_verified_router r) _);
      unfold keeps_wf; cbn; eauto with wf.
  - case_match; [done|]. apply (lane_mut_wf _ _ l); eauto with wf.
  - case_match; [done|]. apply get_lane_wf; [done|]. intros l Hl Hwf.
    apply replace_slot0_wf; [done..|]. apply set_slippage_k_uint. eauto with wf.
  - apply replace_slot0_wf; [done..|]. apply set_paused_uint. eauto with wf.
  - mred. destruct (set_lane_slot0_price_push_threshold _ _ _) eqn:E; [|done].
    apply replace_slot0_wf; [done..|]. eapply set_threshold_uint; [|done]. eauto with wf.
  - apply replace_slot0_wf; [done..|]. apply set_block_delay_uint. eauto with wf.
  - repeat (case_match; try done).
  - repeat (case_match; try done).
  - case_match; done.
  - case_match; [done|]. unfold keeps_wf. cbn. destruct Hst. by split.
  - apply (principal_wf a l); [done..|]. intros x [-> ?]%uint_checked_add_Some.
    destruct Hwf as [_ _ []], Hev. unfold uint. lia.
  - apply (principal_wf a l); [done..|]. intros x [-> ?]%uint_checked_sub_Some.
    destruct Hwf as [_ _ []], Hev. unfold uint. lia.
  - do 2 (case_match; [done|]). mred. unfold keeps_wf. cbn. destruct Hev as [Hx Hy], Hst as [Hc Hl Hm].
    case_match; split; cbn; try done.
    intros k l Hk. destruct (decide (k = a)) as [->|Hne].
    + rewrite lookup_alter_eq in Hk. destruct (lanes _ !! a) eqn:E; [|done]. injection Hk as <-.
      apply lane_wf_reserve; [|done]. exact (Hl _ _ E).
    + rewrite lookup_alter_ne in Hk by done. exact (Hl _ _ Hk).
  - done.
Qed.

Lemma publish_event_block head cursor :
  block_number cursor <= block_number (publish_event_cursor head cursor)
  /\ forall c, head = Some c -> block_number c <= block_number (publish_event_cursor head cursor).
Proof.
  unfold publish_event_cursor. destruct head as [h|]; [|split; [lia|done]].
  destruct (Z.ltb_spec (block_number cursor) (block_number h)).
  - case_match; cbn; (split; [lia|intros ? [= <-]; lia]).
  - destruct (Z.eqb_spec (block_number cursor) (block_number h)); cbn;
      (split; [lia|intros ? [= <-]; lia]).
Qed.

Lemma publish_event_chain head cursor :
  (forall c, head = Some c -> chain_id c = chain_id cursor) ->
  chain_id (publish_event_cursor head cursor) = chain_id cursor.
Proof.
  intros H. unfold publish_event_cursor. destruct head as [h|]; [|done].
  specialize (H h eq_refl). repeat case_match; cbn; done.
Qed.

(** What a passed guard guarantees. *)
Lemma event_guard_ok r cursor event b :
  event_guard r cursor event = Ok b ->
  (forall c, red_cursor r = Some c ->
     chain_id c = chain_id cursor /\ validate_event_against_head c cursor = Ok tt) /\
  (forall e, red_event_cursor r = Some e ->
     chain_id e = chain_id cursor /\ validate_event_successor e cursor = Ok tt
     /\ if b then event_order cursor = event_order e /\ red_event r = Some event
        else order_lt (event_order e) (event_order cursor)) /\
  (b = true -> is_Some (red_event_cursor r)).
Proof.
  unfold event_guard. intros ([] & Hh & He)%bind_ok. split_and!.
  - intros c Hc. rewrite Hc in Hh. destruct (Z.eqb_spec (chain_id c) (chain_id cursor)); done.
  - intros e Hev. rewrite Hev in He. destruct (Z.eqb_spec (chain_id e) (chain_id cursor)); [|done].
    cbn [negb] in He. apply bind_ok in He as ([] & Hs & He). split_and!; [done..|].
    destruct (order_ltb _ _) eqn:E; [done|]. case_bool_decide as Heq.
    + case_bool_decide; [|done]. injection He as <-. done.
    + injection He as <-. destruct (order_lt_total (event_order e) (event_order cursor)) as [|[|]];
        [done|congruence|]. unfold order_lt in *. congruence.
  - intros ->. destruct (red_event_cursor r); [eauto|done].
Qed.

Lemma reducer_step_ok r r' : reducer_step r r' -> reducer_ok r -> reducer_ok r'.
Proof.
  intros Hstep [Hst Hev]. destruct Hstep as [cursor event r Hf|head r|b r]; [| |by split].
  - destruct (apply_with_effect cursor event r) as [res r'] eqn:E. cbn.
    apply apply_with_effect_inv in E as [(e & -> & ->)|[(_ & -> & ->)|(ch & r1 & Hg & -> & Ha & Heff & ->)]];
      [by split..|].
    pose proof (apply_event_wf event r Hst Hf) as Hwf. rewrite Ha in Hwf. split; [exact Hwf|].
    cbn. intros e [= <-]. eexists. split; [done|]. destruct Heff as ((_ & Hc & _) & _).
    rewrite Hc. apply event_guard_ok in Hg as (Hg & _). split; [|exact (proj1 (publish_event_block _ _))].
    apply publish_event_chain. intros c Hcc. by apply Hg.
  - destruct (observe_head head r) as [res r'] eqn:E. cbn.
    apply observe_head_inv in E as [(e & -> & ->)|(-> & c' & -> & Hchain & _ & Hb & Hmono)]; [by split|].
    split; [done|]. cbn. intros e He. exists c'. split; [done|].
    destruct (Hev e He) as (c & Hc & Hce & Hbe). destruct (Hmono c Hc). split; [congruence|lia].
Qed.

(** ** Retries *)

(** A cursor that names its block: by hash, or by transport sequence. *)
Definition identified (c : ChainCursor) : bool :=
  is_some (block_hash c) || is_some (source_sequence c).

Lemma successor_self c : identified c = true -> validate_event_successor c c = Ok tt.
Proof.
  unfold identified, validate_event_successor. rewrite !Z.eqb_refl. cbn [negb orb].
  destruct (block_hash c); [by rewrite Z.eqb_refl|]. cbn. intros ->. done.
Qed.

Lemma against_published head c :
  identified c = true -> validate_event_against_head (publish_event_cursor head c) c = Ok tt.
Proof.
  intros Hid. pose proof (successor_self c Hid) as Hself.
  unfold validate_event_successor in Hself. rewrite Z.eqb_refl in Hself. cbn [negb] in Hself.
  assert (forall k, block_number k = block_number c ->
    execution_block_number k = execution_block_number c -> block_hash k = block_hash c ->
    source_sequence k = source_sequence c -> validate_event_against_head k c = Ok tt) as Hk.
  { intros k E1 E2 E3 E4. unfold validate_event_against_head.
    rewrite E1, E2, E3, E4, Z.eqb_refl. cbn [negb]. revert Hself. by destruct (block_hash c). }
  unfold publish_event_cursor. destruct head as [h|]; [|by apply Hk].
  destruct (Z.ltb_spec (block_number c) (block_number h)).
  - unfold validate_event_against_head. destruct (option_ltb _ _); cbn;
      by destruct (Z.eqb_spec (block_number h) (block_number c)); [lia|].
  - destruct (Z.eqb_spec (block_number c) (block_number h)); by apply Hk.
Qed.

(** After an accepted event, the guard compares payloads only. *)
Lemma guard_after cursor event event' r ch r' :
  identified cursor = true -> apply_with_effect cursor event r = (Ok ch, r') ->
  event_guard r' cursor event' =
    if bool_decide (event = event') then Ok true else Err EventPayloadMismatch.
Proof.
  intros Hid H.
  assert (exists e, red_event_cursor r' = Some e /\ event_order cursor = event_order e
    /\ chain_id e = chain_id cursor /\ validate_event_successor e cursor = Ok tt
    /\ red_event r' = Some event
    /\ forall c, red_cursor r' = Some c ->
         chain_id c = chain_id cursor /\ validate_event_against_head c cursor = Ok tt)
    as (e & He & Ho & Hc & Hs & Hev & Hh).
  { apply apply_with_effect_inv in H as [(? & [=] & _)|[(Hg & _ & ->)|(ch' & r1 & Hg & _ & _ & Heff & ->)]].
    - apply event_guard_ok in Hg as (Hh & He & Hsome). destruct (Hsome eq_refl) as [e E].
      destruct (He e E) as (? & ? & ? & ?). exists e. done.
    - exists cursor. cbn. split_and!; [done..|by apply successor_self|done|].
      intros c [= <-]. split; [|by apply against_published].
      destruct Heff as ((_ & Hcur & _) & _). rewrite Hcur. apply event_guard_ok in Hg as (Hg & _).
      apply publish_event_chain. intros c Hcc. by apply Hg. }
  unfold event_guard.
  assert (match red_cursor r' with
          | Some head => if negb (chain_id head =? chain_id cursor) then Err ChainIdMismatch
                         else validate_event_against_head head cursor
          | None => Ok tt
          end = Ok tt) as ->.
  { destruct (red_cursor r') as [c|]; [|done]. destruct (Hh c eq_refl) as [-> ->].
    by rewrite Z.eqb_refl. }
  cbn [mbind result_bind]. rewrite He, Hc, Z.eqb_refl, Hs, Ho, Hev. cbn [negb mbind result_bind].
  assert (order_ltb (event_order e) (event_order e) = false) as ->.
  { apply not_true_iff_false. apply (irreflexivity order_lt). }
  rewrite bool_decide_eq_true_2 by done.
  by rewrite (bool_decide_ext (Some event = Some event') (event = event')) by naive_solver.
Qed.

Lemma step_monotone r r' :
  reducer_step r r' ->
  (forall c, red_cursor r = Some c ->
     exists c', red_cursor r' = Some c' /\ chain_id c' = chain_id c /\ block_number c <= block_number c')
  /\ (forall e, red_event_cursor r = Some e ->
     exists e', red_event_cursor r' = Some e' /\ (e' = e \/ order_lt (event_order e) (event_order e'))).
Proof.
  intros [cursor event s Hf|head s|b s].
  - destruct (apply_with_effect cursor event s) as [res s'] eqn:E. cbn.
    apply apply_with_effect_inv in E as [(e & _ & ->)|[(_ & _ & ->)|(ch & s1 & Hg & _ & _ & Heff & ->)]];
      [by split; eauto with lia..|].
    destruct Heff as ((_ & Hcur & _) & _). apply event_guard_ok in Hg as (Hh & He & _). split; cbn.
    + intros c Hc. eexists. split; [done|]. rewrite Hcur. split.
      * rewrite publish_event_chain; [symmetry; by apply Hh|]. intros c' Hc'. by apply Hh.
      * by apply publish_event_block.
    + intros e Hev. exists cursor. split; [done|]. right. by apply He.
  - destruct (observe_head head s) as [res s'] eqn:E. cbn.
    apply observe_head_inv in E as [(e & _ & ->)|(_ & c' & -> & Hchain & _ & _ & Hmono)];
      [by split; eauto with lia|].
    split; cbn; [|eauto]. intros c Hc. exists c'. destruct (Hmono c Hc). split_and!; [done|congruence|done].
  - split; cbn; [|eauto]. intros c Hc. exists c. split_and!; [done..|lia].
Qed.

(** ** Checkpoints *)

(** When the state of a reducer can be restored from disk under a deployment. *)
Record restorable (r : QuoteReducer) (c : ChainCursor) (d : DeploymentConfig) : Prop := {
  restore_chain : chain_id c = dep_chain_id d;
  restore_height : dep_deployment_block d <= block_number c;
  restore_hash : exists h, block_hash c = Some h /\ h <> B256_ZERO;
  restore_event : is_some (transaction_index c) = is_some (log_index c);
  restore_transport : is_some (source_sub_index c) = true -> is_some (source_sequence c) = true;
  restore_cash : cash (red_state r) <> Address_ZERO;
  restore_lanes : map_Forall (fun a l => lane_is_valid (cash (red_state r)) a l = true)
                    (lanes (red_state r))
}.

Lemma lanes_all_valid (cash_asset : Address) (m : gmap Address LaneState) :
  forallb (fun '(a, l) => lane_is_valid cash_asset a l) (map_to_list m) = true <->
  map_Forall (fun a l => lane_is_valid cash_asset a l = true) m.
Proof.
  rewrite map_Forall_to_list. apply forallb_Forall_iff. by intros [a l] _.
Qed.

Lemma size_list_to_set_NoDup (l : list Address) :
  NoDup l -> size (list_to_set l : gset Address) = length l.
Proof.
  induction 1 as [|a l Ha Hl IH]; [done|]. cbn [list_to_set].
  rewrite size_union, size_singleton by set_solver. cbn. by rewrite IH.
Qed.

Lemma same_address_set_refl l : same_address_set l l = true.
Proof.
  unfold same_address_set. rewrite Nat.eqb_refl. cbn [andb]. apply forallb_forall.
  intros a Ha. apply list_elem_of_In in Ha. by apply bool_decide_eq_true_2.
Qed.

Lemma checkpoint_compatible r d k c :
  deployment_ok d -> red_cursor r = Some c -> reducer_checkpoint r d = Some k ->
  is_compatible k d = true <-> restorable r c d.
Proof.
  intros [Hchain Hcore Hrouter Himpl Hcode Hver Hnd Hz] Hc Hk. unfold reducer_checkpoint in Hk. rewrite Hc in Hk. injection Hk as <-.
  unfold is_compatible, has_valid_structure. cbn [schema_version math_compatibility_version
    expected_implementation expected_implementation_code_hash ck_chain_id ck_network ck_core
    deployment_block explicit_lane_assets ck_cursor ck_state].
  rewrite Hver, same_address_set_refl, !bool_decide_eq_true_2, !Z.eqb_refl by done.
  rewrite size_list_to_set_NoDup, Nat.eqb_refl by done.
  rewrite (bool_decide_eq_false_2 (Address_ZERO ∈ _)) by (by rewrite elem_of_list_to_set).
  apply Z.eqb_neq in Hchain, Hcore, Himpl, Hcode.
  rewrite Hchain, Hcore, Himpl, Hcode. cbn [negb andb].
  rewrite !andb_true_iff, lanes_all_valid, Z.eqb_eq, Z.leb_le, eqb_true_iff, negb_true_iff, Z.eqb_neq.
  rewrite orb_true_iff, negb_true_iff. split.
  - intros H. destruct_and! H. split; try done.
    + destruct (block_hash c) as [h|]; [|done]. exists h. by rewrite <-Z.eqb_neq, <-negb_true_iff.
    + intros Hs. rewrite Hs in *. naive_solver.
  - intros [? ? (h & -> & Hh) ? Ht ? ?]. apply Z.eqb_neq in Hh. rewrite Hh.
    split_and!; try done. destruct (is_some (source_sub_index c)); auto.
Qed.

(** ** Sample data *)

Definition sample_lanes_state : QuoteState :=
  {| cash := 1; cash_reserve := 100; blacklist_fee_multiplier := 1;
     lanes := {[ 4 := {| slot0 := Z.shiftl 1 200; asset_reserve := 10; total_principal_amount := 5 |} ]} |}.

Lemma sample_lanes_state_wf : state_wf sample_lanes_state.
Proof.
  split; [by vm_compute| |by vm_compute]. apply map_Forall_singleton. by split; vm_compute.
Qed.

Definition sample_cursor (n tx log : Z) : ChainCursor :=
  {| chain_id := 143; block_number := n; execution_block_number := n; block_hash := Some (n + 1);
     transaction_index := Some tx; log_index := Some log; source_sequence := None;
     source_sub_index := None; commitment := Realtime |}.

Definition sample_reducer : QuoteReducer :=
  reducer_bootstrap (cursor_block 143 50 (Some 51) Finalized)
    (reducer_new sample_lanes_state NonWhitelisted None).

Definition sample_deployment : DeploymentConfig :=
  {| dep_network := Monad; dep_chain_id := 143; dep_core := 7; dep_fee_class := NonWhitelisted;
     verified_router := None; dep_deployment_block := 10; dep_expected_implementation := 8;
     dep_expected_implementation_code_hash := 9;
     contract_compatibility_version := MATH_COMPATIBILITY_VERSION;
     dep_explicit_lane_assets := [4] |}.

(** ** Properties *)

(** C5: every event does what it means. On a well-formed state the reducer
    implements the market transition of each of the fifteen events: the packed
    word is rewritten exactly in the field the event names, deltas are checked
    at their width, unknown lanes, invalid widths, upgrades and policy conflicts
    are reported as their own errors, and the early returns and the change flag
    are invisible: the flag is raised exactly when the state or the router
    shares differ afterwards. *)
Theorem reducer_event_refines event r :
  state_wf (red_state r) -> event_fits event ->
  match Market.step (red_fee_class r) event (Market.view r) with
  | Err e => apply_event event r = (Err e, r)
  | Ok s => exists changed r',
      apply_event event r = (Ok changed, r') /\ Market.view r' = s /\ same_bookkeeping r r'
      /\ (changed = true <-> (red_state r', red_verified_router r') <> (red_state r, red_verified_router r))
  end.
Proof.
  intros Hst Hev. pose proof (apply_event_simulates event r Hst Hev) as H. unfold simulates in H.
  destruct (Market.step _ _ _) as [s|e]; [|done]. destruct H as (ch & Hout & Hview & Hb & Hf & Ht).
  destruct (apply_event event r) as [res r']. cbn in *. subst res. exists ch, r'.
  split_and!; [done..|]. destruct ch.
  - split; [|done]. intros _ [= E1 E2]. destruct (Ht eq_refl); done.
  - rewrite (Hf eq_refl). naive_solver.
Qed.

Lemma reducer_event_refines_witness :
  exists changed r', apply_event (DepositExecuted 4 7) sample_reducer = (Ok changed, r')
    /\ Market.principal <$> Market.market_lanes (Market.view r') !! 4 = Some 12.
Proof.
  assert (event_fits (DepositExecuted 4 7)) as Hev by (split; vm_compute; congruence).
  pose proof (reducer_event_refines (DepositExecuted 4 7) sample_reducer sample_lanes_state_wf Hev) as H.
  destruct (Market.step (red_fee_class sample_reducer) (DepositExecuted 4 7) (Market.view sample_reducer))
    as [s|e] eqn:E.
  - destruct H as (ch & r' & Ha & Hv & _). exists ch, r'. split; [exact Ha|]. rewrite Hv.
    transitivity (Some 12); [|reflexivity]. revert E. vm_compute. intros E. injection E as <-. reflexivity.
  - exfalso. revert E. vm_compute. discriminate.
Defined.

(** C22: failures are atomic. Whatever the reducer rejects, an event, a head, a
    corrected head or a rewind, leaves every field of it as it was. *)
Theorem reducer_errors_are_atomic r r' e :
  (forall cursor event, apply_with_effect cursor event r = (Err e, r') -> r' = r) /\
  (forall head, observe_head head r = (Err e, r') -> r' = r) /\
  (forall head, observe_corrected_head head r = (Err e, r') -> r' = r) /\
  (forall head, rewind_head head r = (Err e, r') -> r' = r).
Proof.
  assert (forall head, observe_head head r = (Err e, r') -> r' = r) as Hh.
  { intros head [(? & _ & ?)|([=] & _)]%observe_head_inv. done. }
  split_and!.
  - intros cursor event [(? & _ & ?)|[(_ & [=] & _)|(? & ? & _ & [=] & _)]]%apply_with_effect_inv. done.
  - done.
  - intros head. unfold observe_corrected_head. mred.
    pose proof (Hh head). destruct (observe_head head r) as [[]]; [done|]. intros [= -> ->]. auto.
  - intros head. unfold rewind_head. mred. case_match; [by intros [= _ <-]|done].
Qed.

(** C29: the reducer only moves forward. From an invariant-satisfying reducer,
    any sequence of events, heads and readiness changes, failed ones included,
    keeps the invariant, stays on its chain, never lowers the head height and
    never takes the event position back. *)
Theorem reducer_progress r r' :
  reducer_ok r -> rtc reducer_step r r' ->
  reducer_ok r' /\
  (forall c, red_cursor r = Some c ->
     exists c', red_cursor r' = Some c' /\ chain_id c' = chain_id c /\ block_number c <= block_number c')
  /\ (forall e, red_event_cursor r = Some e ->
     exists e', red_event_cursor r' = Some e' /\ (event_order e' = event_order e
       \/ order_lt (event_order e) (event_order e'))).
Proof.
  intros Hok Hsteps. induction Hsteps as [r|r r1 r' Hstep _ IH].
  - split_and!; [done|intros c Hc; exists c; split_and!; [done..|lia]|eauto].
  - destruct IH as (Hok' & Hc' & He'); [by eapply reducer_step_ok|].
    destruct (step_monotone _ _ Hstep) as [Hc He]. split_and!; [done| |].
    + intros c (c1 & E1 & ? & ?)%Hc. destruct (Hc' c1 E1) as (c2 & ? & ? & ?).
      exists c2. split_and!; [done|congruence|lia].
    + intros e (e1 & E1 & Ho)%He. destruct (He' e1 E1) as (e2 & ? & Ho').
      exists e2. split; [done|]. destruct Ho as [->|Ho]; [done|]. right.
      destruct Ho' as [->|Ho']; [done|]. by etrans.
Qed.

Lemma sample_reducer_ok : reducer_ok sample_reducer.
Proof. split; [exact sample_lanes_state_wf|done]. Qed.

Lemma reducer_progress_witness :
  exists c', red_cursor (apply_with_effect (sample_cursor 52 0 0) (Sync 1 0 7) sample_reducer).2 = Some c'
    /\ chain_id c' = 143 /\ 50 <= block_number c'.
Proof.
  destruct (reducer_progress sample_reducer
    (apply_with_effect (sample_cursor 52 0 0) (Sync 1 0 7) sample_reducer).2) as (_ & H & _).
  - exact sample_reducer_ok.
  - apply rtc_once, step_event. split; split; vm_compute; congruence.
  - exact (H _ eq_refl).
Defined.

(** C36: a retry is recognised. Once an event has been accepted at a cursor that
    names its block, delivering it again succeeds, changes nothing and reports
    no change, and delivering a different payload at that position is rejected
    without changing anything. *)
Theorem retry_is_idempotent cursor event r changed r' :
  identified cursor = true -> apply_with_effect cursor event r = (Ok changed, r') ->
  apply_with_effect cursor event r' = (Ok false, r') /\
  forall event', event' <> event -> apply_with_effect cursor event' r' = (Err EventPayloadMismatch, r').
Proof.
  intros Hid Ha. split.
  - rewrite apply_with_effect_eq, (guard_after _ _ event _ _ _ Hid Ha).
    by rewrite bool_decide_eq_true_2.
  - intros event' Hne. rewrite apply_with_effect_eq, (guard_after _ _ event' _ _ _ Hid Ha).
    by rewrite bool_decide_eq_false_2.
Qed.

Lemma retry_is_idempotent_witness :
  let r' := (apply_with_effect (sample_cursor 52 0 0) (Sync 1 0 7) sample_reducer).2 in
  apply_with_effect (sample_cursor 52 0 0) (Sync 1 0 7) r' = (Ok false, r').
Proof.
  intros r'.
  apply (retry_is_idempotent (sample_cursor 52 0 0) (Sync 1 0 7) sample_reducer true r').
  - reflexivity.
  - vm_compute. reflexivity.
Defined.

(** C37: checkpoints round-trip. The checkpoint a reducer writes under a valid
    deployment is accepted back by the compatibility check exactly when the
    reducer's head and lanes are restorable, and restoring it yields a ready
    reducer with the same quote state and head. *)
Theorem checkpoint_roundtrip r d k c class :
  deployment_ok d -> red_cursor r = Some c -> reducer_checkpoint r d = Some k ->
  (is_compatible k d = true <-> restorable r c d) /\
  red_state (reducer_from_checkpoint k class) = red_state r /\
  red_cursor (reducer_from_checkpoint k class) = red_cursor r /\
  red_ready (reducer_from_checkpoint k class) = true.
Proof.
  intros Hd Hc Hk. split; [by eapply checkpoint_compatible|].
  unfold reducer_checkpoint in Hk. rewrite Hc in *. by injection Hk as <-.
Qed.

Lemma checkpoint_roundtrip_witness :
  exists k, reducer_checkpoint sample_reducer sample_deployment = Some k
    /\ is_compatible k sample_deployment = true
    /\ red_state (reducer_from_checkpoint k Whitelisted) = red_state sample_reducer.
Proof.
  eexists. split; [reflexivity|].
  assert (deployment_ok sample_deployment) as Hd.
  { split; try discriminate; [reflexivity| |]; cbn; [apply NoDup_singleton|set_solver]. }
  destruct (checkpoint_roundtrip sample_reducer sample_deployment _ _ Whitelisted Hd eq_refl eq_refl)
    as (Hc & Hs & _).
  split; [|exact Hs]. apply Hc. split; try reflexivity; try discriminate.
  - eexists. split; [reflexivity|discriminate].
  - apply map_Forall_singleton. vm_compute. reflexivity.
Defined.
