(* ===== verification/Abi.v ===== *)
(** * The pinned Core ABI (crates/lunarbase-client/src/protocol/abi.rs,
    protocol/proxy.rs)

    The [sol!] block as data, the strict decoding of quote-critical events, the
    description of every Core event for observability, and the ERC-1967 slot.
    The decoder the [sol!] macro generates is Alloy's and a parameter; [AlloyLaws]
    states what its validating entry point promises. *)

From stdpp Require pretty.
From S2P Require Import Prelude Arithmetic Slot0 State Model Reducer ReducerFacts.

(** ** Event declarations *)

Inductive AbiType :=
| address
| bool_
| bytes32
| uint_ (bits : Z).

Record AbiParam := {
  param_type : AbiType;
  param_indexed : bool;
  param_name : string
}.

Record SolEvent := {
  event_name : string;
  event_params : list AbiParam
}.

#[export] Instance AbiType_eq_dec : EqDecision AbiType.
Proof. solve_decision. Defined.
#[export] Instance AbiParam_eq_dec : EqDecision AbiParam.
Proof. solve_decision. Defined.
#[export] Instance SolEvent_eq_dec : EqDecision SolEvent.
Proof. solve_decision. Defined.

Module core.

Definition indexed (t : AbiType) (n : string) : AbiParam :=
  {| param_type := t; param_indexed := true; param_name := n |}.
Definition data (t : AbiType) (n : string) : AbiParam :=
  {| param_type := t; param_indexed := false; param_name := n |}.
Definition event (n : string) (ps : list AbiParam) : SolEvent :=
  {| event_name := n; event_params := ps |}.

Definition LaneAdded := event "LaneAdded" [indexed address "asset"].
Definition LaneRemoved := event "LaneRemoved" [indexed address "asset"].
Definition LaneUpdated := event "LaneUpdated" [indexed address "asset"; data bytes32 "slot0"].
Definition LanePausedSet := event "LanePausedSet" [
  indexed address "asset"; data bool_ "previousPaused"; data bool_ "newPaused"].
Definition PricePushThresholdSet := event "PricePushThresholdSet" [
  indexed address "asset"; data (uint_ 8) "previousThreshold"; data (uint_ 8) "newThreshold";
  data bool_ "previousEnabled"; data bool_ "newEnabled"].
Definition SlippageKSet := event "SlippageKSet" [
  indexed address "asset"; data (uint_ 32) "previousK"; data (uint_ 32) "newK"].
Definition BlockDelaySet := event "BlockDelaySet" [
  indexed address "asset"; data (uint_ 8) "previousBlockDelay"; data (uint_ 8) "newBlockDelay"].
Definition PartnerInfoSet := event "PartnerInfoSet" [
  indexed address "router"; indexed address "asset"; data (uint_ 32) "fee";
  indexed address "operator"].
Definition PartnerFeeSet := event "PartnerFeeSet" [
  indexed address "router"; indexed address "asset"; data (uint_ 32) "fee"].
Definition WhitelistSet := event "WhitelistSet" [
  indexed address "account"; data bool_ "whitelisted"].
Definition BlacklistFeeMultiplierSet := event "BlacklistFeeMultiplierSet" [
  data (uint_ 256) "multiplier"].
Definition DepositExecuted := event "DepositExecuted" [
  indexed (uint_ 256) "id"; indexed address "lpAuthority"; indexed address "asset";
  data (uint_ 128) "principalAmount"].
Definition DepositRequestCancelled := event "DepositRequestCancelled" [
  indexed (uint_ 256) "id"; indexed address "lpAuthority"; indexed address "asset";
  data (uint_ 128) "principalAmount"; data address "caller"].
Definition DepositRequested := event "DepositRequested" [
  indexed (uint_ 256) "id"; indexed address "lpAuthority"; indexed address "asset";
  data (uint_ 128) "principalAmount"; data (uint_ 40) "depositDeadline"].
Definition LpAuthorityAssetPositionsUpdated := event "LpAuthorityAssetPositionsUpdated" [
  indexed address "asset"; indexed address "previousLpAuthority"; indexed address "lpAuthority";
  data (uint_ 256) "positionCount"].
Definition OwnershipHandoverCanceled := event "OwnershipHandoverCanceled" [
  indexed address "pendingOwner"].
Definition OwnershipHandoverRequested := event "OwnershipHandoverRequested" [
  indexed address "pendingOwner"].
Definition OwnershipTransferred := event "OwnershipTransferred" [
  indexed address "oldOwner"; indexed address "newOwner"].
Definition PartnerFeeTaken := event "PartnerFeeTaken" [
  indexed address "router"; indexed address "asset"; data (uint_ 256) "amount"].
Definition PartnerFeesWithdrawn := event "PartnerFeesWithdrawn" [
  indexed address "router"; indexed address "asset"; indexed address "operator";
  data address "recipient"; data (uint_ 128) "amount"].
Definition PartnerOperatorSet := event "PartnerOperatorSet" [
  indexed address "router"; indexed address "asset"; indexed address "operator"].
Definition PausedSet := event "PausedSet" [data bool_ "previousPaused"; data bool_ "newPaused"].
Definition PositionConfigCreated := event "PositionConfigCreated" [
  indexed (uint_ 256) "id"; indexed address "lpAuthority"; data address "feeReceiver";
  data address "feeClaimer"; data (uint_ 48) "yieldRateBps"; data (uint_ 48) "penaltyRateBps";
  data (uint_ 40) "lockDuration"].
Definition PositionConfigUpdated := event "PositionConfigUpdated" [
  indexed (uint_ 256) "id"; indexed address "lpAuthority"; data address "feeReceiver";
  data address "feeClaimer"; data (uint_ 48) "yieldRateBps"; data (uint_ 48) "penaltyRateBps";
  data (uint_ 40) "lockDuration"].
Definition PositionFeeAddressesUpdated := event "PositionFeeAddressesUpdated" [
  indexed (uint_ 256) "id"; indexed address "lpAuthority"; data address "previousFeeReceiver";
  data address "feeReceiver"; data address "previousFeeClaimer"; data address "feeClaimer"].
Definition PositionLpAuthorityUpdated := event "PositionLpAuthorityUpdated" [
  indexed (uint_ 256) "id"; indexed address "previousLpAuthority";
  indexed address "lpAuthority"].
Definition SwapExecuted := event "SwapExecuted" [
  indexed address "router"; indexed address "assetIn"; indexed address "assetOut";
  data bool_ "exactIn"; data (uint_ 256) "amountIn"; data (uint_ 256) "amountOut";
  data address "feeAsset"; data (uint_ 256) "feeAmount"; data (uint_ 256) "partnerFee";
  data (uint_ 256) "treasuryFee"].
Definition WithdrawCooldownSet := event "WithdrawCooldownSet" [data (uint_ 32) "cooldown"].
Definition WithdrawalExecuted := event "WithdrawalExecuted" [
  indexed (uint_ 256) "id"; indexed address "lpAuthority"; indexed address "asset";
  data (uint_ 128) "principalAmount"; data (uint_ 256) "principalOut";
  data (uint_ 256) "penaltyAmount"; data address "principalReceiver"].
Definition WithdrawalRequestCancelled := event "WithdrawalRequestCancelled" [
  indexed (uint_ 256) "id"; indexed address "lpAuthority"; data address "caller"].
Definition WithdrawalRequested := event "WithdrawalRequested" [
  indexed (uint_ 256) "id"; indexed address "lpAuthority"; indexed address "principalReceiver";
  data (uint_ 40) "withdrawalDeadline"].
Definition YieldClaimCooldownSet := event "YieldClaimCooldownSet" [
  data (uint_ 40) "previousCooldown"; data (uint_ 40) "newCooldown"].
Definition YieldClaimed := event "YieldClaimed" [
  indexed (uint_ 256) "id"; indexed address "feeReceiver"; indexed address "asset";
  data (uint_ 256) "claimAmount"].
Definition Sync := event "Sync" [
  indexed address "lane"; data (uint_ 128) "assetReserve"; data (uint_ 128) "cashReserve"].
Definition Upgraded := event "Upgraded" [indexed address "implementation"].

Definition events : list SolEvent := [
  LaneAdded; LaneRemoved; LaneUpdated; LanePausedSet; PricePushThresholdSet; SlippageKSet;
  BlockDelaySet; PartnerInfoSet; PartnerFeeSet; WhitelistSet; BlacklistFeeMultiplierSet;
  DepositExecuted; DepositRequestCancelled; DepositRequested; LpAuthorityAssetPositionsUpdated;
  OwnershipHandoverCanceled; OwnershipHandoverRequested; OwnershipTransferred; PartnerFeeTaken;
  PartnerFeesWithdrawn; PartnerOperatorSet; PausedSet; PositionConfigCreated;
  PositionConfigUpdated; PositionFeeAddressesUpdated; PositionLpAuthorityUpdated; SwapExecuted;
  WithdrawCooldownSet; WithdrawalExecuted; WithdrawalRequestCancelled; WithdrawalRequested;
  YieldClaimCooldownSet; YieldClaimed; Sync; Upgraded].

End core.

(** ** The generated code *)

(** The canonical signature [Name(type,...)] that [SIGNATURE_HASH] hashes. *)
Definition decimal (n : Z) : string := pretty.pretty n.

Definition type_name (t : AbiType) : string :=
  match t with
  | address => "address"
  | bool_ => "bool"
  | bytes32 => "bytes32"
  | uint_ bits => "uint" +:+ decimal bits
  end.

Definition event_signature (e : SolEvent) : string :=
  event_name e +:+ "(" +:+ String.concat "," (type_name ∘ param_type <$> event_params e) +:+ ")".

Definition SIGNATURE_HASH `{Keccak} (e : SolEvent) : B256 :=
  keccak256 (ascii_bytes (event_signature e)).

(** A decoded event is the list of its fields in declaration order. *)
Class Alloy := {
  decode_raw_log_validate : SolEvent -> list B256 -> list Z -> option (list Z);
  (* [format!("{event:?}")] of the generated struct *)
  debug_arguments : SolEvent -> list Z -> string
}.

Definition type_admits (t : AbiType) (v : Z) : Prop :=
  match t with
  | address => uint 160 v
  | bool_ => v = 0 \/ v = 1
  | bytes32 => uint 256 v
  | uint_ bits => uint bits v
  end.

#[export] Instance type_admits_dec t v : Decision (type_admits t v).
Proof. destruct t; apply _. Defined.

Definition values_fit (e : SolEvent) (vs : list Z) : Prop :=
  Forall2 (fun p v => type_admits (param_type p) v) (event_params e) vs.

Definition selected (keep : bool) (ps : list AbiParam) (vs : list Z) : list Z :=
  omap (fun '(p, v) => if bool_decide (param_indexed p = keep) then Some v else None) (zip ps vs).

(** The log a contract emits for an event: indexed fields as topics, the others
    as 32-byte words. *)
Definition emitted_topics `{Keccak} (e : SolEvent) (vs : list Z) : list B256 :=
  SIGNATURE_HASH e :: selected true (event_params e) vs.
Definition emitted_data (e : SolEvent) (vs : list Z) : list Z :=
  selected false (event_params e) vs ≫= be_bytes 32.

(** Alloy's validating decoder accepts exactly the canonical encoding of
    well-typed fields, and no two Core events share a signature hash. *)
Class AlloyLaws `{Keccak, Alloy} := {
  decode_validate_iff e topics payload vs :
    e ∈ core.events ->
    decode_raw_log_validate e topics payload = Some vs <->
    values_fit e vs /\ topics = emitted_topics e vs /\ payload = emitted_data e vs;
  signature_hashes_distinct : NoDup (SIGNATURE_HASH <$> core.events)
}.

(** ** protocol/abi.rs *)

Section Decoding.
Context `{Keccak, Alloy}.

Record CoreEventDescription := {
  description_name : string;
  description_arguments : string
}.

Definition TOPIC_LANE_ADDED : B256 := SIGNATURE_HASH core.LaneAdded.
Definition TOPIC_LANE_REMOVED : B256 := SIGNATURE_HASH core.LaneRemoved.
Definition TOPIC_LANE_UPDATED : B256 := SIGNATURE_HASH core.LaneUpdated.
Definition TOPIC_LANE_PAUSED_SET : B256 := SIGNATURE_HASH core.LanePausedSet.
Definition TOPIC_PRICE_PUSH_THRESHOLD_SET : B256 := SIGNATURE_HASH core.PricePushThresholdSet.
Definition TOPIC_SLIPPAGE_K_SET : B256 := SIGNATURE_HASH core.SlippageKSet.
Definition TOPIC_BLOCK_DELAY_SET : B256 := SIGNATURE_HASH core.BlockDelaySet.
Definition TOPIC_PARTNER_INFO_SET : B256 := SIGNATURE_HASH core.PartnerInfoSet.
Definition TOPIC_PARTNER_FEE_SET : B256 := SIGNATURE_HASH core.PartnerFeeSet.
Definition TOPIC_WHITELIST_SET : B256 := SIGNATURE_HASH core.WhitelistSet.
Definition TOPIC_BLACKLIST_MULTIPLIER_SET : B256 := SIGNATURE_HASH core.BlacklistFeeMultiplierSet.
Definition TOPIC_DEPOSIT_EXECUTED : B256 := SIGNATURE_HASH core.DepositExecuted.
Definition TOPIC_WITHDRAWAL_EXECUTED : B256 := SIGNATURE_HASH core.WithdrawalExecuted.
Definition TOPIC_SYNC : B256 := SIGNATURE_HASH core.Sync.
Definition TOPIC_UPGRADED : B256 := SIGNATURE_HASH core.Upgraded.

Definition lane_discovery_topics : list B256 := [TOPIC_LANE_ADDED; TOPIC_LANE_REMOVED].

Definition quote_critical_topics : list B256 :=
  [TOPIC_LANE_ADDED; TOPIC_LANE_REMOVED; TOPIC_LANE_UPDATED; TOPIC_LANE_PAUSED_SET;
   TOPIC_PRICE_PUSH_THRESHOLD_SET; TOPIC_SLIPPAGE_K_SET; TOPIC_BLOCK_DELAY_SET;
   TOPIC_PARTNER_INFO_SET; TOPIC_PARTNER_FEE_SET; TOPIC_WHITELIST_SET;
   TOPIC_BLACKLIST_MULTIPLIER_SET; TOPIC_DEPOSIT_EXECUTED; TOPIC_WITHDRAWAL_EXECUTED;
   TOPIC_SYNC; TOPIC_UPGRADED].

Definition expect_shape (log : ContractLog) (topics data_words : nat)
    : result LogDecodeError unit :=
  if negb (length (log_topics log) =? topics)%nat then Err InvalidTopicCount
  else if negb (length (log_data log) =? data_words * 32)%nat then Err InvalidDataLength
  else Ok tt.

Definition decode (e : SolEvent) (log : ContractLog) (error : LogDecodeError)
    : result LogDecodeError (list Z) :=
  ok_or (decode_raw_log_validate e (log_topics log) (log_data log)) error.

(** The arguments of [describe!], in the order the topics are compared. *)
Definition describe_table : list (SolEvent * nat * nat) := [
  (core.BlacklistFeeMultiplierSet, 1, 1); (core.BlockDelaySet, 2, 2);
  (core.DepositExecuted, 4, 1); (core.DepositRequestCancelled, 4, 2);
  (core.DepositRequested, 4, 2); (core.LaneAdded, 2, 0); (core.LanePausedSet, 2, 2);
  (core.LaneRemoved, 2, 0); (core.LaneUpdated, 2, 1);
  (core.LpAuthorityAssetPositionsUpdated, 4, 1); (core.OwnershipHandoverCanceled, 2, 0);
  (core.OwnershipHandoverRequested, 2, 0); (core.OwnershipTransferred, 3, 0);
  (core.PartnerFeeSet, 3, 1); (core.PartnerFeeTaken, 3, 1); (core.PartnerFeesWithdrawn, 4, 2);
  (core.PartnerInfoSet, 4, 1); (core.PartnerOperatorSet, 4, 0); (core.PausedSet, 1, 2);
  (core.PositionConfigCreated, 3, 5); (core.PositionConfigUpdated, 3, 5);
  (core.PositionFeeAddressesUpdated, 3, 4); (core.PositionLpAuthorityUpdated, 4, 0);
  (core.PricePushThresholdSet, 2, 4); (core.SlippageKSet, 2, 2); (core.SwapExecuted, 4, 7);
  (core.Sync, 2, 2); (core.Upgraded, 2, 0); (core.WhitelistSet, 2, 1);
  (core.WithdrawCooldownSet, 1, 1); (core.WithdrawalExecuted, 4, 4);
  (core.WithdrawalRequestCancelled, 3, 1); (core.WithdrawalRequested, 4, 1);
  (core.YieldClaimCooldownSet, 1, 2); (core.YieldClaimed, 4, 1)]%nat.

Fixpoint describe_first (table : list (SolEvent * nat * nat)) (topic0 : B256) (log : ContractLog)
    : result LogDecodeError (option CoreEventDescription) :=
  match table with
  | [] => Ok None
  | (e, topics, data_words) :: table =>
      if topic0 =? SIGNATURE_HASH e then
        _ ← expect_shape log topics data_words;
        event ← decode e log InvalidDataLength;
        Ok (Some {| description_name := event_name e;
                    description_arguments := debug_arguments e event |})
      else describe_first table topic0 log
  end.

Definition describe_core_event (log : ContractLog)
    : result LogDecodeError (option CoreEventDescription) :=
  topic0 ← ok_or (head (log_topics log)) MissingTopic0;
  describe_first describe_table topic0 log.

(** [event.name] of the generated struct. *)
Definition field (e : SolEvent) (name : string) (event : list Z) : Z :=
  default 0 ('(i, _) ← list_find (fun p => param_name p = name) (event_params e); event !! i).
Definition flag (e : SolEvent) (name : string) (event : list Z) : bool :=
  negb (field e name event =? 0).

Definition decode_core_event (log : ContractLog) : result LogDecodeError (option QuoteEvent) :=
  match log_topics log with
  | [] => Err MissingTopic0
  | topic0 :: _ =>
      if topic0 =? TOPIC_LANE_ADDED then
        _ ← expect_shape log 2 0;
        event ← decode core.LaneAdded log InvalidAddress;
        Ok (Some (LaneAdded (field core.LaneAdded "asset" event)))
      else if topic0 =? TOPIC_LANE_REMOVED then
        _ ← expect_shape log 2 0;
        event ← decode core.LaneRemoved log InvalidAddress;
        Ok (Some (LaneRemoved (field core.LaneRemoved "asset" event)))
      else if topic0 =? TOPIC_LANE_UPDATED then
        _ ← expect_shape log 2 1;
        event ← decode core.LaneUpdated log InvalidDataLength;
        Ok (Some (LaneUpdated (field core.LaneUpdated "asset" event)
                    (field core.LaneUpdated "slot0" event)))
      else if topic0 =? TOPIC_SLIPPAGE_K_SET then
        _ ← expect_shape log 2 2;
        event ← decode core.SlippageKSet log InvalidDataLength;
        Ok (Some (SlippageKSet (field core.SlippageKSet "asset" event)
                    (field core.SlippageKSet "newK" event)))
      else if topic0 =? TOPIC_LANE_PAUSED_SET then
        _ ← expect_shape log 2 2;
        event ← decode core.LanePausedSet log InvalidBoolean;
        Ok (Some (LanePausedSet (field core.LanePausedSet "asset" event)
                    (flag core.LanePausedSet "newPaused" event)))
      else if topic0 =? TOPIC_PRICE_PUSH_THRESHOLD_SET then
        _ ← expect_shape log 2 4;
        event ← decode core.PricePushThresholdSet log InvalidBoolean;
        Ok (Some (PricePushThresholdSet (field core.PricePushThresholdSet "asset" event)
                    (field core.PricePushThresholdSet "newThreshold" event)
                    (flag core.PricePushThresholdSet "newEnabled" event)))
      else if topic0 =? TOPIC_BLOCK_DELAY_SET then
        _ ← expect_shape log 2 2;
        event ← decode core.BlockDelaySet log InvalidDataLength;
        Ok (Some (BlockDelaySet (field core.BlockDelaySet "asset" event)
                    (field core.BlockDelaySet "newBlockDelay" event)))
      else if topic0 =? TOPIC_PARTNER_INFO_SET then
        _ ← expect_shape log 4 1;
        event ← decode core.PartnerInfoSet log InvalidDataLength;
        Ok (Some (PartnerInfoSet (field core.PartnerInfoSet "router" event)
                    (field core.PartnerInfoSet "asset" event)
                    (field core.PartnerInfoSet "fee" event)))
      else if topic0 =? TOPIC_PARTNER_FEE_SET then
        _ ← expect_shape log 3 1;
        event ← decode core.PartnerFeeSet log InvalidDataLength;
        Ok (Some (PartnerFeeSet (field core.PartnerFeeSet "router" event)
                    (field core.PartnerFeeSet "asset" event)
                    (field core.PartnerFeeSet "fee" event)))
      else if topic0 =? TOPIC_WHITELIST_SET then
        _ ← expect_shape log 2 1;
        event ← decode core.WhitelistSet log InvalidBoolean;
        Ok (Some (WhitelistSet (field core.WhitelistSet "account" event)
                    (flag core.WhitelistSet "whitelisted" event)))
      else if topic0 =? TOPIC_BLACKLIST_MULTIPLIER_SET then
        _ ← expect_shape log 1 1;
        event ← decode core.BlacklistFeeMultiplierSet log InvalidDataLength;
        Ok (Some (BlacklistFeeMultiplierSet
                    (field core.BlacklistFeeMultiplierSet "multiplier" event)))
      else if topic0 =? TOPIC_DEPOSIT_EXECUTED then
        _ ← expect_shape log 4 1;
        event ← decode core.DepositExecuted log InvalidDataLength;
        Ok (Some (DepositExecuted (field core.DepositExecuted "asset" event)
                    (field core.DepositExecuted "principalAmount" event)))
      else if topic0 =? TOPIC_WITHDRAWAL_EXECUTED then
        _ ← expect_shape log 4 4;
        event ← decode core.WithdrawalExecuted log InvalidDataLength;
        Ok (Some (WithdrawalExecuted (field core.WithdrawalExecuted "asset" event)
                    (field core.WithdrawalExecuted "principalAmount" event)))
      else if topic0 =? TOPIC_SYNC then
        _ ← expect_shape log 2 2;
        event ← decode core.Sync log InvalidDataLength;
        Ok (Some (Sync (field core.Sync "lane" event) (field core.Sync "assetReserve" event)
                    (field core.Sync "cashReserve" event)))
      else if topic0 =? TOPIC_UPGRADED then
        _ ← expect_shape log 2 0;
        event ← decode core.Upgraded log InvalidAddress;
        Ok (Some (ImplementationUpgraded (field core.Upgraded "implementation" event)))
      else Ok None
  end.

End Decoding.

(** ** protocol/proxy.rs *)

Definition ERC1967_IMPLEMENTATION_SLOT : B256 :=
  0x360894a13ba1a3210667c828492db98dca3e2076cc3735a920a3ca505d382bbc.

Definition decode_implementation (word : B256) : option Address :=
  let bytes := be_bytes 32 word in
  if existsb (fun byte => negb (byte =? 0)) (take 12 bytes) then None
  else
  let implementation := be_value (drop 12 bytes) in
  if negb (implementation =? Address_ZERO) then Some implementation else None.

(** ** Specification *)

(** The log is what a contract emits for event [e] with fields [vs]. *)
Definition emits `{Keccak} (e : SolEvent) (vs : list Z) (log : ContractLog) : Prop :=
  values_fit e vs /\ log_topics log = emitted_topics e vs /\ log_data log = emitted_data e vs.

Definition truth (v : Z) : bool := negb (v =? 0).

(** The change of the quote state each Core event announces, by position. *)
Inductive announces : SolEvent -> list Z -> QuoteEvent -> Prop :=
| says_lane_added a : announces core.LaneAdded [a] (LaneAdded a)
| says_lane_removed a : announces core.LaneRemoved [a] (LaneRemoved a)
| says_lane_updated a w : announces core.LaneUpdated [a; w] (LaneUpdated a w)
| says_lane_paused a old new :
    announces core.LanePausedSet [a; old; new] (LanePausedSet a (truth new))
| says_threshold a t t' b b' :
    announces core.PricePushThresholdSet [a; t; t'; b; b'] (PricePushThresholdSet a t' (truth b'))
| says_slippage_k a k k' : announces core.SlippageKSet [a; k; k'] (SlippageKSet a k')
| says_block_delay a d d' : announces core.BlockDelaySet [a; d; d'] (BlockDelaySet a d')
| says_partner_info r a fee op :
    announces core.PartnerInfoSet [r; a; fee; op] (PartnerInfoSet r a fee)
| says_partner_fee r a fee : announces core.PartnerFeeSet [r; a; fee] (PartnerFeeSet r a fee)
| says_whitelist r b : announces core.WhitelistSet [r; b] (WhitelistSet r (truth b))
| says_multiplier m :
    announces core.BlacklistFeeMultiplierSet [m] (BlacklistFeeMultiplierSet m)
| says_deposit id lp a p : announces core.DepositExecuted [id; lp; a; p] (DepositExecuted a p)
| says_withdrawal id lp a p out penalty to :
    announces core.WithdrawalExecuted [id; lp; a; p; out; penalty; to] (WithdrawalExecuted a p)
| says_sync a x y : announces core.Sync [a; x; y] (Sync a x y)
| says_upgraded i : announces core.Upgraded [i] (ImplementationUpgraded i).

(** The shape the declaration gives a log: topics and data words. *)
Definition declared (keep : bool) (e : SolEvent) : nat :=
  length (base.filter (fun p => param_indexed p = keep) (event_params e)).
Definition declared_shape (e : SolEvent) : nat * nat := (S (declared true e), declared false e).

(** The error a log with the topic of [e] is refused with, given the error for
    fields Alloy refuses. *)
Definition rejection (e : SolEvent) (bad_field : LogDecodeError) (log : ContractLog)
    : LogDecodeError :=
  if decide (length (log_topics log) = (declared_shape e).1) then
    if decide (length (log_data log) = (declared_shape e).2 * 32)%nat then bad_field
    else InvalidDataLength
  else InvalidTopicCount.

(** A boolean field is blamed first, then an event made of addresses only. *)
Definition field_error (e : SolEvent) : LogDecodeError :=
  if existsb (fun p => bool_decide (param_type p = bool_)) (event_params e) then InvalidBoolean
  else if forallb (fun p => bool_decide (param_type p = address)) (event_params e)
       then InvalidAddress
  else InvalidDataLength.

(** [log] is refused as a malformed [e]. *)
Definition refused `{Keccak} (e : SolEvent) (bad_field : LogDecodeError) (log : ContractLog)
    (err : LogDecodeError) : Prop :=
  head (log_topics log) = Some (SIGNATURE_HASH e)
  /\ (forall e' vs, e' ∈ core.events -> ~ emits e' vs log)
  /\ err = rejection e bad_field log.

(** ** Shared lemmas *)

Lemma fmap_nodup_inj {A B} (f : A -> B) l x y :
  NoDup (f <$> l) -> x ∈ l -> y ∈ l -> f x = f y -> x = y.
Proof.
  intros Hnd (i & Hi)%list_elem_of_lookup (j & Hj)%list_elem_of_lookup E.
  assert (i = j) as ->; [|congruence].
  eapply NoDup_lookup; [exact Hnd| |]; rewrite list_lookup_fmap, ?Hi, ?Hj; cbn; by rewrite ?E.
Qed.

Lemma selected_cons keep p ps v vs :
  selected keep (p :: ps) (v :: vs)
  = if bool_decide (param_indexed p = keep) then v :: selected keep ps vs else selected keep ps vs.
Proof. unfold selected. cbn. by case_bool_decide. Qed.

Lemma selected_length keep ps vs :
  Forall2 (fun p v => type_admits (param_type p) v) ps vs ->
  length (selected keep ps vs) = length (base.filter (fun p => param_indexed p = keep) ps).
Proof.
  induction 1 as [|p v ps vs Hpv Hps IH]; [done|]. rewrite filter_cons, selected_cons.
  case_bool_decide; case_decide; try done. cbn [length]. by f_equal.
Qed.

Lemma emitted_data_length e vs : values_fit e vs ->
  length (emitted_data e vs) = (declared false e * 32)%nat.
Proof.
  intros Hfit. unfold emitted_data, declared. rewrite <-(selected_length false _ vs) by done.
  induction (selected false (event_params e) vs) as [|v l IH]; [done|].
  cbn [mbind list_bind]. rewrite length_app, be_bytes_length, IH. cbn. lia.
Qed.

Lemma emitted_topics_length `{Keccak} e vs : values_fit e vs ->
  length (emitted_topics e vs) = S (declared true e).
Proof. intros Hfit. unfold emitted_topics. cbn [length]. f_equal. by apply selected_length. Qed.

Lemma emits_topic `{Keccak} e vs log : emits e vs log ->
  head (log_topics log) = Some (SIGNATURE_HASH e).
Proof. intros (_ & -> & _). done. Qed.

Section Shared.
Context `{AlloyLaws}.

Lemma emits_unique e e' vs log :
  e ∈ core.events -> e' ∈ core.events -> head (log_topics log) = Some (SIGNATURE_HASH e) ->
  emits e' vs log -> e' = e.
Proof.
  intros He He' Ht Hem. pose proof (emits_topic _ _ _ Hem).
  eapply fmap_nodup_inj; [apply signature_hashes_distinct|done..|congruence].
Qed.

(** One branch of the decoder: shape, then fields. *)
Lemma branch_exact {A} e err (f : list Z -> A) topics words log :
  e ∈ core.events -> declared_shape e = (topics, words) ->
  head (log_topics log) = Some (SIGNATURE_HASH e) ->
  match (_ ← expect_shape log topics words; vs ← decode e log err; Ok (f vs)) with
  | Ok a => exists vs, emits e vs log /\ a = f vs
  | Err x => refused e err log x
  end.
Proof.
  intros He Hs Ht. unfold expect_shape, decode, refused, rejection. rewrite Hs. cbn [fst snd].
  assert (forall vs e', e' ∈ core.events -> emits e' vs log ->
            length (log_topics log) = topics /\ length (log_data log) = (words * 32)%nat
            /\ decode_raw_log_validate e (log_topics log) (log_data log) = Some vs) as Hemit.
  { intros vs e' He' Hem. pose proof (emits_unique e e' vs log He He' Ht Hem) as ->.
    injection Hs as <- <-. destruct Hem as (Hfit & Htop & Hdata). rewrite Htop, Hdata.
    rewrite emitted_topics_length, emitted_data_length by done. split_and!; [done..|].
    by apply decode_validate_iff. }
  destruct (Nat.eqb_spec (length (log_topics log)) topics) as [Et|Et]; bsimpl.
  2: { split_and!; [done| |by rewrite decide_False by done].
       intros e' vs He' Hem. by destruct (Hemit vs e' He' Hem). }
  destruct (Nat.eqb_spec (length (log_data log)) (words * 32)) as [Ed|Ed]; bsimpl.
  2: { split_and!; [done| |by rewrite decide_True, decide_False by done].
       intros e' vs He' Hem. by destruct (Hemit vs e' He' Hem) as (_ & ? & _). }
  destruct (decode_raw_log_validate _ _ _) as [vs|] eqn:Edec; bsimpl.
  - exists vs. split; [|done]. by apply decode_validate_iff in Edec.
  - split_and!; [done| |by rewrite !decide_True by done].
    intros e' vs He' Hem. by destruct (Hemit vs e' He' Hem) as (_ & _ & ?).
Qed.

End Shared.

(** ** Decoding of quote-critical events *)

Definition critical_events : list SolEvent := [
  core.LaneAdded; core.LaneRemoved; core.LaneUpdated; core.LanePausedSet;
  core.PricePushThresholdSet; core.SlippageKSet; core.BlockDelaySet; core.PartnerInfoSet;
  core.PartnerFeeSet; core.WhitelistSet; core.BlacklistFeeMultiplierSet; core.DepositExecuted;
  core.WithdrawalExecuted; core.Sync; core.Upgraded].

Lemma quote_critical_topics_eq `{Keccak} :
  quote_critical_topics = SIGNATURE_HASH <$> critical_events.
Proof. done. Qed.

Lemma critical_events_core e : e ∈ critical_events -> e ∈ core.events.
Proof.
  revert e. apply Forall_forall, (bool_decide_eq_true_1 _). vm_compute. reflexivity.
Qed.

(** What [describe_core_event] may answer for a log. *)
Definition describing `{Keccak, Alloy} (log : ContractLog)
    (r : result LogDecodeError (option CoreEventDescription)) : Prop :=
  match r with
  | Ok (Some d) => exists e vs, e ∈ core.events /\ emits e vs log
      /\ d = {| description_name := event_name e;
                description_arguments := debug_arguments e vs |}
  | Ok None => exists t, head (log_topics log) = Some t /\ t ∉ SIGNATURE_HASH <$> core.events
  | Err err => (log_topics log = [] /\ err = MissingTopic0)
      \/ exists e, e ∈ core.events /\ refused e InvalidDataLength log err
  end.

(** What [decode_core_event] may answer for a log. *)
Definition decoding `{Keccak} (log : ContractLog) (r : result LogDecodeError (option QuoteEvent))
    : Prop :=
  match r with
  | Ok (Some q) => exists e vs, e ∈ critical_events /\ emits e vs log /\ announces e vs q
  | Ok None => exists t, head (log_topics log) = Some t /\ t ∉ quote_critical_topics
  | Err err =>
      (log_topics log = [] /\ err = MissingTopic0)
      \/ exists e, e ∈ critical_events /\ refused e (field_error e) log err
  end.

Lemma announced_fits e vs q : values_fit e vs -> announces e vs q -> event_fits q.
Proof.
  intros Hfit. unfold values_fit in Hfit.
  destruct 1; cbn in *; try done;
    repeat match goal with H : Forall2 _ (_ :: _) (_ :: _) |- _ =>
      apply Forall2_cons in H as [? H] end; cbn in *; tauto.
Qed.

Section Decoder.
Context `{AlloyLaws}.

Lemma decoding_branch e err f topics words log :
  e ∈ critical_events -> declared_shape e = (topics, words) -> field_error e = err ->
  head (log_topics log) = Some (SIGNATURE_HASH e) ->
  (forall vs, values_fit e vs -> announces e vs (f vs)) ->
  decoding log (_ ← expect_shape log topics words; vs ← decode e log err; Ok (Some (f vs))).
Proof.
  intros He Hs <- Ht Hf.
  pose proof (branch_exact e (field_error e) (fun vs => Some (f vs)) _ _ log
                (critical_events_core e He) Hs Ht) as Hb.
  destruct (_ ← expect_shape _ _ _; _) as [q|x]; [destruct Hb as (vs & Hem & ->)|]; cbn.
  - exists e, vs. split_and!; [done..|]. apply Hf, Hem.
  - right. by exists e.
Qed.

(** Fields of a well-typed event, one by one. *)
Ltac fields := 
  intros vs Hvs; unfold values_fit in Hvs; cbn in Hvs;
  repeat match goal with H : Forall2 _ (_ :: _) _ |- _ =>
    let v := fresh "v" in let Hv := fresh "Hv" in
    apply Forall2_cons_inv_l in H as (v & ? & Hv & H & ->) end;
  apply Forall2_nil_inv_l in Hvs as ->; constructor.

Lemma decode_core_event_decoding log : decoding log (decode_core_event log).
Proof.
  unfold decode_core_event. destruct (log_topics log) as [|t ts] eqn:Htop; [by left|].
  assert (head (log_topics log) = Some t) as Hh by by rewrite Htop. clear Htop.
  repeat lazymatch goal with
  | |- decoding _ (if ?t =? ?topic then _ else _) =>
      destruct (Z.eqb_spec t topic) as [->|?];
      [refine (decoding_branch _ _ _ _ _ log _ _ _ Hh _);
        [apply (bool_decide_eq_true_1 _); vm_compute; reflexivity|done|done|fields]|]
  end.
  exists t. split; [done|]. unfold quote_critical_topics. set_solver.
Qed.

Lemma describe_first_exact table t log :
  Forall (fun '(e, topics, words) => e ∈ core.events /\ declared_shape e = (topics, words)) table ->
  head (log_topics log) = Some t ->
  match describe_first table t log with
  | Ok (Some d) => exists e vs, e ∈ table.*1.*1 /\ emits e vs log
      /\ d = {| description_name := event_name e;
                description_arguments := debug_arguments e vs |}
  | Ok None => t ∉ SIGNATURE_HASH <$> table.*1.*1
  | Err err => exists e, e ∈ table.*1.*1 /\ refused e InvalidDataLength log err
  end.
Proof.
  intros Htab Ht. induction Htab as [|[[e n] w] table [He Hs] Htab IH].
  { by intros ?%elem_of_nil. }
  cbn [describe_first]. destruct (Z.eqb_spec t (SIGNATURE_HASH e)) as [->|Hne].
  - pose proof (branch_exact e InvalidDataLength
      (fun vs => Some {| description_name := event_name e;
                         description_arguments := debug_arguments e vs |}) n w log He Hs Ht) as Hb.
    destruct (_ ← expect_shape _ _ _; _) as [d|x].
    + destruct Hb as (vs & Hem & ->). exists e, vs. split; [apply list_elem_of_here|done].
    + exists e. split; [apply list_elem_of_here|done].
  - destruct (describe_first table t log) as [[d|]|x]; cbn [fmap list_fmap fst].
    + destruct IH as (e' & vs & He' & IH). exists e', vs. split; [by apply list_elem_of_further|done].
    + by intros [?|?]%elem_of_cons.
    + destruct IH as (e' & He' & IH). exists e'. split; [by apply list_elem_of_further|done].
Qed.

Lemma describe_table_shapes :
  Forall (fun '(e, topics, words) => e ∈ core.events /\ declared_shape e = (topics, words))
    describe_table.
Proof.
  cut (Forall (fun row => row.1.1 ∈ core.events /\ declared_shape row.1.1 = (row.1.2, row.2))
         describe_table); [intros H'; eapply Forall_impl; [exact H'|]; by intros [[e n] w]|].
  apply (bool_decide_eq_true_1 _). vm_compute. reflexivity.
Qed.

Lemma describe_table_events e : e ∈ describe_table.*1.*1 <-> e ∈ core.events.
Proof.
  split; revert e; apply Forall_forall, (bool_decide_eq_true_1 _); vm_compute; reflexivity.
Qed.


(** Observability covers the whole ABI: a description comes out precisely for the
    canonical encoding of a declared event, with that event's name and arguments;
    [None] precisely for an undeclared topic; everything else is refused. *)
Theorem describe_core_event_exact log : describing log (describe_core_event log).
Proof.
  unfold describe_core_event. destruct (head (log_topics log)) as [t|] eqn:Ht; bsimpl.
  - pose proof (describe_first_exact describe_table t log describe_table_shapes Ht) as Hd.
    destruct (describe_first _ _ _) as [[d|]|x].
    + destruct Hd as (e & vs & He%describe_table_events & Hd). by exists e, vs.
    + exists t. split; [done|]. intros (e & -> & He)%list_elem_of_fmap.
      apply Hd, list_elem_of_fmap. exists e. by rewrite describe_table_events.
    + destruct Hd as (e & He%describe_table_events & Hd). right. eauto.
  - left. by destruct (log_topics log).
Qed.

(** C33: Round trip: the log a contract emits for a followed event decodes to the
    change that event announces, whose fields fit the reducer's machine integers, and
    is described under the event's name. *)
Theorem emitted_event_decodes e vs log :
  e ∈ critical_events -> emits e vs log ->
  exists q, decode_core_event log = Ok (Some q) /\ announces e vs q /\ event_fits q
    /\ exists d, describe_core_event log = Ok (Some d) /\ description_name d = event_name e.
Proof.
  intros He Hem. pose proof (critical_events_core e He) as Hc. pose proof (emits_topic _ _ _ Hem) as Ht.
  pose proof (decode_core_event_decoding log) as Hd.
  destruct (decode_core_event log) as [[q|]|err]; cbn in Hd.
  - destruct Hd as (e' & vs' & He' & Hem' & Hsays).
    pose proof (emits_unique e e' vs' log Hc (critical_events_core e' He') Ht Hem') as ->.
    assert (vs' = vs) as ->.
    { pose proof (proj2 (decode_validate_iff e _ _ _ Hc) Hem').
      pose proof (proj2 (decode_validate_iff e _ _ _ Hc) Hem). congruence. }
    exists q. split_and!; [done..|eapply announced_fits; [apply Hem|done]|].
    pose proof (describe_first_exact describe_table _ log describe_table_shapes Ht) as Hx.
    unfold describe_core_event. rewrite Ht. bsimpl. 
    destruct (describe_first _ _ _) as [[d|]|x].
    + destruct Hx as (e' & ws & He''%describe_table_events & Hem'' & ->).
      pose proof (emits_unique e e' ws log Hc He'' Ht Hem'') as ->. eauto.
    + destruct Hx. apply list_elem_of_fmap. exists e. by rewrite describe_table_events.
    + destruct Hx as (e' & _ & _ & Hno & _). by destruct (Hno e vs Hc).
  - destruct Hd as (t & Ht' & Hn). rewrite Ht in Ht'. injection Ht' as <-. destruct Hn.
    rewrite quote_critical_topics_eq. by apply list_elem_of_fmap_2.
  - destruct Hd as [[Hnil _]|(e' & _ & _ & Hno & _)]; [by rewrite Hnil in Ht|].
    by destruct (Hno e vs Hc).
Qed.

End Decoder.

(** ** The implementation slot *)

(** The implementation slot decodes exactly the canonical words: a non-zero
    20-byte address padded with zeroes on the left; any other word is refused. *)
Theorem decode_implementation_iff word a :
  uint 256 word ->
  decode_implementation word = Some a <-> word = a /\ 0 < a < 2 ^ 160.
Proof.
  intros [H0 H1]. unfold decode_implementation.
  rewrite (be_bytes_app 12 20), take_app_length', drop_app_length' by (by rewrite be_bytes_length).
  change (256 ^ Z.of_nat 20) with (2 ^ 160).
  assert (0 <= word / 2 ^ 160 < 256 ^ Z.of_nat 12) as Hhi.
  { split; [apply Z.div_pos; lia|]. apply Z.div_lt_upper_bound; [lia|]. exact H1. }
  destruct (existsb _ _) eqn:Hpad.
  - split; [done|]. intros [<- Ha]. exfalso. revert Hpad. rewrite Z.div_small by lia.
    by vm_compute.
  - assert (word / 2 ^ 160 = 0) as Hz.
    { apply (be_bytes_inj 12); [done..|lia| ]. rewrite be_bytes_zero.
      apply (existsb_false_iff _ (fun b => b <> 0)) in Hpad; [|intros b _; by destruct (Z.eqb_spec b 0)].
      rewrite <-(be_bytes_length 12 (word / 2 ^ 160)) at 2.
      induction Hpad as [|b l Hb _ IH]; [done|]. cbn [length repeat]. f_equal; [lia|done]. }
    apply Z.div_small_iff in Hz; [|lia].
    rewrite be_value_be_bytes by (change (256 ^ Z.of_nat 20) with (2 ^ 160); lia).
    unfold Address_ZERO. clear Hpad Hhi. destruct (Z.eqb_spec word 0) as [->|Hne]; bsimpl.
    + split; [done|]. intros [<- [Ha _]]. lia.
    + split; [intros [= <-]; lia|]. by intros [<- _].
Qed.

(** ** Instances at concrete inputs *)

(** A reference decoder, and a hash that separates the Core signatures. *)
#[local] Instance sample_keccak : Keccak :=
  foldl (fun acc b => (acc * 257 + b + 1) mod 1000003) 0.

Fixpoint assign (ps : list AbiParam) (topics words : list Z) : list Z :=
  match ps with
  | [] => []
  | p :: ps =>
      if param_indexed p then default 0 (head topics) :: assign ps (tail topics) words
      else default 0 (head words) :: assign ps topics (tail words)
  end.

Fixpoint words (n : nat) (payload : list Z) : list Z :=
  match n with
  | O => []
  | S n => be_value (take 32 payload) :: words n (drop 32 payload)
  end.

#[local] Instance values_fit_dec e vs : Decision (values_fit e vs).
Proof. unfold values_fit. apply Forall2_dec. intros p v. apply _. Defined.

#[local] Instance sample_alloy : Alloy := {
  decode_raw_log_validate e topics payload :=
    let vs := assign (event_params e) (tail topics) (words (declared false e) payload) in
    if decide (values_fit e vs /\ topics = emitted_topics e vs /\ payload = emitted_data e vs)
    then Some vs else None;
  debug_arguments e vs := event_name e
}.

Lemma assign_selected ps vs :
  length ps = length vs -> assign ps (selected true ps vs) (selected false ps vs) = vs.
Proof.
  revert vs. induction ps as [|p ps IH]; intros [|v vs] Hlen; try done.
  injection Hlen as Hlen. rewrite !selected_cons. cbn [assign].
  destruct (param_indexed p); exact (f_equal (cons v) (IH _ Hlen)).
Qed.

Lemma words_be_bytes l :
  Forall (uint 256) l -> words (length l) (l ≫= be_bytes 32) = l.
Proof.
  induction 1 as [|x l Hx _ IH]; [done|]. cbn [length words mbind list_bind].
  rewrite take_app_length', drop_app_length' by (by rewrite be_bytes_length).
  rewrite be_value_be_bytes by exact Hx. by f_equal.
Qed.

Definition word_sized (t : AbiType) : bool :=
  match t with
  | uint_ bits => (0 <=? bits) && (bits <=? 256)
  | _ => true
  end.

Lemma type_admits_word t v : word_sized t = true -> type_admits t v -> uint 256 v.
Proof.
  destruct t as [| | |bits]; cbn [word_sized type_admits]; unfold uint; intros Ht Hv; try lia.
  apply andb_prop in Ht as [H0%Z.leb_le H1%Z.leb_le].
  pose proof (Z.pow_le_mono_r 2 bits 256). lia.
Qed.

Lemma selected_words keep ps vs :
  forallb (word_sized ∘ param_type) ps = true ->
  Forall2 (fun p v => type_admits (param_type p) v) ps vs ->
  Forall (uint 256) (selected keep ps vs).
Proof.
  intros Hw Hf. induction Hf as [|p v ps vs Hv _ IH]; [constructor|].
  cbn in Hw. apply andb_prop in Hw as [Hp Hw]. rewrite selected_cons. specialize (IH Hw).
  case_bool_decide; [|done]. constructor; [by eapply type_admits_word|done].
Qed.

Lemma core_types_sized e :
  e ∈ core.events -> forallb (word_sized ∘ param_type) (event_params e) = true.
Proof. revert e. apply Forall_forall, (bool_decide_eq_true_1 _). vm_compute. reflexivity. Qed.

Lemma sample_hashes_distinct : NoDup (SIGNATURE_HASH <$> core.events).
Proof. apply (bool_decide_eq_true_1 _). vm_compute. reflexivity. Qed.

#[local] Instance sample_alloy_laws : AlloyLaws.
Proof.
  split; [|exact sample_hashes_distinct].
  intros e topics payload vs He. cbn [decode_raw_log_validate sample_alloy].
  case_decide as E; split; intros H; [by simplify_eq| |done|].
  - destruct H as (Hfit & -> & ->). f_equal. unfold emitted_topics, emitted_data, declared. cbn [tail].
    rewrite <-(selected_length false _ vs) by done.
    rewrite words_be_bytes by (apply selected_words; [by apply core_types_sized|done]).
    apply assign_selected. by eapply Forall2_length.
  - destruct E. destruct H as (Hfit & -> & ->).
    enough (assign (event_params e) (tail (emitted_topics e vs))
              (words (declared false e) (emitted_data e vs)) = vs) as -> by done.
    unfold emitted_topics, emitted_data, declared. cbn [tail].
    rewrite <-(selected_length false _ vs) by done.
    rewrite words_be_bytes by (apply selected_words; [by apply core_types_sized|done]).
    apply assign_selected. by eapply Forall2_length.
Qed.

Definition sample_log (e : SolEvent) (vs : list Z) : ContractLog :=
  {| log_address := 7; log_transaction_hash := None; log_topics := emitted_topics e vs;
     log_topics_capacity := 4; log_data := emitted_data e vs; log_removed := false;
     log_cursor := cursor_block 1 10 None Canonical |}.

(** A followed event, a boolean field holding 2, and a topic too many. *)
Example decode_slippage :
  decode_core_event (sample_log core.SlippageKSet [5; 10; 20]) = Ok (Some (SlippageKSet 5 20)).
Proof. vm_compute. reflexivity. Qed.
Example decode_bad_boolean :
  decode_core_event (sample_log core.WhitelistSet [5; 2]) = Err InvalidBoolean.
Proof. vm_compute. reflexivity. Qed.
Example decode_unfollowed :
  decode_core_event (sample_log core.PausedSet [0; 1]) = Ok None.
Proof. vm_compute. reflexivity. Qed.


Lemma describe_core_event_exact_witness :
  describing (sample_log core.PausedSet [0; 1])
    (describe_core_event (sample_log core.PausedSet [0; 1])).
Proof. exact (describe_core_event_exact (H1 := sample_alloy_laws) _). Defined.

Lemma emitted_event_decodes_witness :
  exists q, decode_core_event (sample_log core.Sync [5; 10; 20]) = Ok (Some q)
    /\ announces core.Sync [5; 10; 20] q /\ event_fits q
    /\ exists d, describe_core_event (sample_log core.Sync [5; 10; 20]) = Ok (Some d)
             /\ description_name d = "Sync".
Proof.
  apply (emitted_event_decodes (H1 := sample_alloy_laws) core.Sync).
  - apply (bool_decide_eq_true_1 _). vm_compute. reflexivity.
  - split; [|done]. apply (bool_decide_eq_true_1 _). vm_compute. reflexivity.
Defined.

Lemma decode_implementation_iff_witness :
  decode_implementation 5 = Some 5 <-> 5 = 5 /\ 0 < 5 < 2 ^ 160.
Proof. apply (decode_implementation_iff 5 5). done. Defined.
