(* ===== verification/Rpc.v ===== *)
(** * The HTTP JSON-RPC client (crates/lunarbase-source-evm/src/rpc/http.rs,
    rpc/codec.rs, rpc/client.rs, rpc/backend.rs)

    The bounded request path, the normalization of heads and logs, the read
    operations of [RpcHttpClient], the range-splitting canonical backfill, and the
    chain-verified backend the sources share. The network, [serde_json] and the URL
    parser are parameters: [Http], [Json] and [Deserialize] say what the code asks
    of them. Every answer of the network may depend on how many requests were made
    before ([issued]), so nothing is assumed about two answers agreeing. *)

From S2P Require Import Prelude StableSort Text Arithmetic Slot0 State Model Abi.

(** ** Limits and errors *)

Record RpcHttpLimits := {
  max_request_bytes : Z;
  max_response_bytes : Z;
  max_backfill_page_blocks : Z;
  max_backfill_logs : Z;
  max_backfill_bytes : Z
}.

Definition RpcHttpLimits_default : RpcHttpLimits :=
  {| max_request_bytes := 1024 * 1024;
     max_response_bytes := 8 * 1024 * 1024;
     max_backfill_page_blocks := 1000;
     max_backfill_logs := 16384;
     max_backfill_bytes := 32 * 1024 * 1024 |}.

Inductive RpcError :=
| Transport (reason : string)
| Invalid (reason : string)
| Limit (reason : string).

#[export] Instance RpcError_eq_dec : EqDecision RpcError.
Proof. solve_decision. Defined.

Definition rpc_error_to_string (e : RpcError) : string :=
  match e with
  | Transport s => "RPC transport failed: " +:+ s
  | Invalid s => "RPC response is invalid: " +:+ s
  | Limit s => "RPC resource limit exceeded: " +:+ s
  end.

Definition source_error_of_rpc (e : RpcError) : SourceError := SourceUnavailable (rpc_error_to_string e).

Definition limits_validate (self : RpcHttpLimits) : result RpcError RpcHttpLimits :=
  if (max_request_bytes self =? 0) || (max_response_bytes self =? 0)
     || (max_backfill_page_blocks self =? 0) || (max_backfill_logs self =? 0)
     || (max_backfill_bytes self =? 0)
  then Err (Invalid "HTTP RPC request, response, and backfill limits must be non-zero")
  else Ok self.

(** ** JSON values *)

Record RpcHead := {
  rh_number : Z;
  rh_hash : option B256;
  rh_parent_hash : option B256;
  rh_l1_block_number : option Z
}.

Record RpcLog := {
  rl_address : Address;
  rl_transaction_hash : option B256;
  rl_topics : list B256;
  rl_topics_capacity : Z;
  rl_data : list Z;
  rl_block_number : option Z;
  rl_block_hash : option B256;
  rl_transaction_index : option Z;
  rl_log_index : option Z;
  rl_removed : bool
}.

(** What the code uses of [serde_json::Value] and of the derived decoders. *)
Class Json := {
  Value : Type;
  (* value.get(key), key.as_str() *)
  value_get : string -> Value -> option Value;
  as_str : Value -> option string;
  (* value != id *)
  value_is_u64 : Value -> Z -> bool;
  value_to_string : Value -> string;
  from_value_head : Value -> result string RpcHead;
  from_value_log : Value -> result string RpcLog
}.

(** Quantities decode to [u64], and a vector's capacity is not negative. *)
Class JsonLaws `{Json} := {
  json_head_u64 v head : from_value_head v = Ok head -> uint 64 (rh_number head);
  json_log_u64 v log : from_value_log v = Ok log ->
    (forall n, rl_block_number log = Some n -> uint 64 n)
    /\ (forall n, rl_transaction_index log = Some n -> uint 64 n)
    /\ (forall n, rl_log_index log = Some n -> uint 64 n);
  json_log_capacity v log : from_value_log v = Ok log -> 0 <= rl_topics_capacity log
}.

Record ParsedRpcHead := {
  head_number : Z;
  head_hash : option B256;
  head_parent_hash : option B256;
  head_l1_block_number : option Z
}.

Section Codec.
Context `{Json}.

Definition validate_canonical_hex_u64 (value : option Value) (field : string) : result RpcError Z :=
  value ← ok_or (v ← value; as_str v) (Invalid (field +:+ " is missing or is not a hex quantity"));
  map_err (fun e => Invalid (field +:+ match e with
                                      | NotCanonical => " is not a canonical hex quantity"
                                      | ExceedsUint64 => " exceeds uint64"
                                      end))
    (canonical_hex_u64 value).

Definition normalize_rpc_log (log : RpcLog) (chain : Z) (c : Commitment)
    : result RpcError ContractLog :=
  if 4 <? Z.of_nat (length (rl_topics log))
  then Err (Invalid "RPC log contains more than four topics")
  else
  block ← ok_or (rl_block_number log) (Invalid "pending log has no block number");
  transaction ← ok_or (rl_transaction_index log) (Invalid "pending log has no transaction index");
  transaction ← (if transaction <=? U32_MAX then Ok transaction
                 else Err (Invalid "log transaction index exceeds uint32"));
  index ← ok_or (rl_log_index log) (Invalid "pending log has no log index");
  index ← (if index <=? U32_MAX then Ok index else Err (Invalid "log index exceeds uint32"));
  Ok {| log_address := rl_address log;
        log_transaction_hash := rl_transaction_hash log;
        log_topics := rl_topics log;
        log_topics_capacity := rl_topics_capacity log;
        log_data := rl_data log;
        log_removed := rl_removed log;
        log_cursor := {| chain_id := chain; block_number := block;
                         execution_block_number := block; block_hash := rl_block_hash log;
                         transaction_index := Some transaction; log_index := Some index;
                         source_sequence := None; source_sub_index := None; commitment := c |} |}.

Definition parse_rpc_log (value : Value) (chain : Z) (c : Commitment) : result RpcError ContractLog :=
  log ← map_err (fun error => Invalid ("invalid RPC log: " +:+ error)) (from_value_log value);
  normalize_rpc_log log chain c.

Definition parse_filtered_rpc_log (value : Value) (chain : Z) (c : Commitment)
    (filter : ContractFilter) : result RpcError ContractLog :=
  log ← parse_rpc_log value chain c;
  if negb (log_address log =? filter_address filter)
  then Err (Invalid ("RPC log address mismatch: expected " +:+ hex_bytes 20 (filter_address filter)
                       +:+ ", got " +:+ hex_bytes 20 (log_address log)))
  else Ok log.

Definition parse_rpc_head (value : Value) : result RpcError ParsedRpcHead :=
  head ← map_err (fun error => Invalid ("invalid RPC block header: " +:+ error))
           (from_value_head value);
  Ok {| head_number := rh_number head; head_hash := rh_hash head;
        head_parent_hash := rh_parent_hash head; head_l1_block_number := rh_l1_block_number head |}.

Definition normalize_block_ref (value : Value) (chain : Z) (c : Commitment)
    (require_execution_context : bool) : result RpcError BlockRef :=
  head ← parse_rpc_head value;
  execution ←
    (match head_l1_block_number head with
     | Some n => Ok n
     | None =>
         if require_execution_context
         then Err (Invalid "eth_getBlockByNumber result has no l1BlockNumber")
         else Ok (head_number head)
     end);
  Ok {| br_cursor := cursor_execution_block chain (head_number head) execution (head_hash head) c;
        br_parent_hash := head_parent_hash head |}.

Definition normalize_block_cursor (value : Value) (chain : Z) (c : Commitment)
    (require_execution_context : bool) : result RpcError ChainCursor :=
  br_cursor <$> normalize_block_ref value chain c require_execution_context.

End Codec.

(** ** Requests *)

Inductive BlockSelector :=
| ByTag (tag : string)
| ByHash (hash : B256).

(** The object [backfill_filter] builds; [topics] is absent when empty and wraps
    the requested topics in one alternative list. *)
Record LogFilter := {
  lf_address : Address;
  lf_from_block : string;
  lf_to_block : string;
  lf_topics : option (list (list B256))
}.

Inductive RpcRequest :=
| EthChainId
| EthCall (to : Address) (data : list Z) (block : BlockSelector)
| EthGetCode (address : Address) (block : BlockSelector)
| EthGetStorageAt (address : Address) (slot : B256) (block : BlockSelector)
| EthGetBlockByNumber (tag : string) (full : bool)
| EthGetBlockByHash (hash : string) (full : bool)
| EthGetLogs (filter : LogFilter).

Record HttpResponse := {
  content_length : option Z;
  body_chunks : list (result string (list Z))
}.

Record StrictResponse `{Json} (R : Type) := {
  sr_jsonrpc : string;
  sr_id : Value;
  sr_result : option R;
  sr_error : option Value
}.
Arguments sr_jsonrpc {_ _}. Arguments sr_id {_ _}.
Arguments sr_result {_ _}. Arguments sr_error {_ _}.

(** [serde_json::to_vec] of a request envelope, and [reqwest]'s POST with the
    status check: the answer to the [n]-th request. *)
Class Http := {
  to_vec : Z -> RpcRequest -> result string (list Z);
  send : nat -> list Z -> result string HttpResponse
}.

(** [serde_json::from_slice] into an envelope with a result of this type. *)
Class Deserialize `{Json} (R : Type) := from_slice : list Z -> result string (StrictResponse R).

(** A 32-byte result, decoded apart from the quantities. *)
Record StorageWord := { storage_word : B256 }.

(** The atomics every clone of a client or backend shares, and the number of
    requests the network has been sent. *)
Record Session := {
  request_id : Z;
  issued : nat;
  chain_verified : bool;
  verifications_pending : Z
}.

Definition next_request (sent : bool) (s : Session) : Session :=
  {| request_id := (request_id s + 1) mod 2 ^ 64;
     issued := if sent then S (issued s) else issued s;
     chain_verified := chain_verified s; verifications_pending := verifications_pending s |}.

Record RpcHttpClient := {
  endpoint : string;
  client_limits : RpcHttpLimits
}.

Section Client.
Context `{Json, Http, MemLayout, Keccak}.
Context `{!Deserialize Z, !Deserialize StorageWord, !Deserialize (list Z)}.
Context `{!Deserialize Value, !Deserialize (list Value)}.

(** [while let Some(chunk) = stream.next().await] *)
Fixpoint read_body (limits : RpcHttpLimits) (chunks : list (result string (list Z)))
    (bytes : list Z) : result RpcError (list Z) :=
  match chunks with
  | [] => Ok bytes
  | chunk :: chunks =>
      chunk ← map_err Transport chunk;
      if uint_saturating_sub (max_response_bytes limits) (Z.of_nat (length bytes))
           <? Z.of_nat (length chunk)
      then Err (Limit "HTTP response body exceeded the configured byte budget")
      else read_body limits chunks (bytes ++ chunk)
  end.

Definition read_response {R} `{!Deserialize R} (limits : RpcHttpLimits) (id : Z)
    (response : HttpResponse) : result RpcError R :=
  if match content_length response with
     | Some length => max_response_bytes limits <? length
     | None => false
     end
  then Err (Limit "HTTP content-length exceeds the configured response budget")
  else
  bytes ← read_body limits (body_chunks response) [];
  envelope ← map_err (fun error => Invalid ("invalid JSON-RPC response: " +:+ error))
               (from_slice (R := R) bytes);
  if negb (String.eqb (sr_jsonrpc envelope) "2.0") || negb (value_is_u64 (sr_id envelope) id)
  then Err (Invalid "JSON-RPC response id mismatch")
  else
    match sr_error envelope with
    | Some error => Err (Transport ("JSON-RPC returned an error: " +:+ value_to_string error))
    | None => ok_or (sr_result envelope) (Invalid "JSON-RPC response has no result")
    end.

(** [bounded_http_request]: the request id is taken before anything can fail, and
    a body over the budget is never sent. *)
Definition request {R} `{!Deserialize R} (self : RpcHttpClient) (req : RpcRequest)
    : proc Session RpcError R := fun s =>
  let limits := client_limits self in
  let id := request_id s in
  match map_err (fun error => Invalid ("serialize JSON-RPC request: " +:+ error)) (to_vec id req) with
  | Err e => Some (Err e, next_request false s)
  | Ok body =>
      if max_request_bytes limits <? Z.of_nat (length body)
      then Some (Err (Limit ("JSON-RPC request body is " +:+ decimal (Z.of_nat (length body))
                               +:+ " bytes, limit is " +:+ decimal (max_request_bytes limits))),
                 next_request false s)
      else Some (response ← map_err Transport (send (issued s) body);
                 read_response limits id response, next_request true s)
  end.

(** [url::Url::parse], by the scheme it finds, and [reqwest]'s client builder. *)
Class UrlParser := {
  parse_scheme : string -> result string string;
  build_http : result string unit
}.

Definition client_new `{UrlParser} (endpoint : string) : result RpcError RpcHttpClient :=
  scheme ← map_err (fun error => Invalid ("invalid HTTP RPC URL: " +:+ error)) (parse_scheme endpoint);
  if negb (String.eqb scheme "http" || String.eqb scheme "https")
  then Err (Invalid "HTTP RPC URL must use http or https")
  else
    _ ← map_err (fun error => Invalid ("build HTTP RPC client: " +:+ error)) build_http;
    Ok {| endpoint := endpoint; client_limits := RpcHttpLimits_default |}.

Definition with_limits (limits : RpcHttpLimits) (self : RpcHttpClient)
    : result RpcError RpcHttpClient :=
  limits ← limits_validate limits;
  Ok {| endpoint := endpoint self; client_limits := limits |}.

(** ** Read operations *)

(** [U64::from_str(value).is_ok()], of the [ruint] crate. *)
Context (u64_from_str_ok : string -> bool).

Definition validate_block_tag (value : string) : result RpcError string :=
  if existsb (String.eqb value) ["earliest"; "finalized"; "latest"; "pending"; "safe"] then Ok value
  else if starts_with "0x" value && u64_from_str_ok value then Ok value
  else Err (Invalid ("invalid block tag: " +:+ value)).

Definition rpc_chain_id (self : RpcHttpClient) : proc Session RpcError Z := request self EthChainId.

Definition call_at (self : RpcHttpClient) (to : Address) (data : list Z) (tag : string)
    : proc Session RpcError (list Z) :=
  tag ← attempt (validate_block_tag tag); request self (EthCall to data (ByTag tag)).

Definition get_code (self : RpcHttpClient) (address : Address) (tag : string)
    : proc Session RpcError (list Z) :=
  tag ← attempt (validate_block_tag tag); request self (EthGetCode address (ByTag tag)).

Definition runtime_code_hash (self : RpcHttpClient) (address : Address) (tag : string)
    : proc Session RpcError B256 :=
  code ← get_code self address tag; mret (keccak256 code).

Definition call_at_hash (self : RpcHttpClient) (to : Address) (data : list Z) (hash : B256)
    : proc Session RpcError (list Z) := request self (EthCall to data (ByHash hash)).

Definition get_code_at_hash (self : RpcHttpClient) (address : Address) (hash : B256)
    : proc Session RpcError (list Z) := request self (EthGetCode address (ByHash hash)).

Definition get_storage_at_hash (self : RpcHttpClient) (address : Address) (slot hash : B256)
    : proc Session RpcError B256 :=
  word ← request self (EthGetStorageAt address slot (ByHash hash)); mret (storage_word word).

Definition runtime_code_hash_at_hash (self : RpcHttpClient) (address : Address) (hash : B256)
    : proc Session RpcError B256 :=
  code ← get_code_at_hash self address hash; mret (keccak256 code).

Definition block_cursor_inner (self : RpcHttpClient) (tag : string) (chain : Z) (c : Commitment)
    (require_execution_context : bool) : proc Session RpcError ChainCursor :=
  tag ← attempt (validate_block_tag tag);
  value ← request self (EthGetBlockByNumber tag false);
  attempt (normalize_block_cursor value chain c require_execution_context).

Definition block_cursor (self : RpcHttpClient) (tag : string) (chain : Z) (c : Commitment)
    : proc Session RpcError ChainCursor := block_cursor_inner self tag chain c false.

Definition block_ref (self : RpcHttpClient) (tag : string) (chain : Z) (c : Commitment)
    : proc Session RpcError BlockRef :=
  tag ← attempt (validate_block_tag tag);
  value ← request self (EthGetBlockByNumber tag false);
  attempt (normalize_block_ref value chain c false).

Definition block_ref_with_execution_context (self : RpcHttpClient) (tag : string) (chain : Z)
    (c : Commitment) : proc Session RpcError BlockRef :=
  tag ← attempt (validate_block_tag tag);
  value ← request self (EthGetBlockByNumber tag false);
  attempt (normalize_block_ref value chain c true).

(** The strict quantity checks run before the header is decoded. *)
Definition validate_execution_context (value : Value) : result RpcError unit :=
  _ ← validate_canonical_hex_u64 (value_get "number" value) "block.number";
  _ ← validate_canonical_hex_u64 (value_get "l1BlockNumber" value) "block.l1BlockNumber";
  Ok tt.

Definition block_cursor_with_execution_context (self : RpcHttpClient) (tag : string) (chain : Z)
    (c : Commitment) : proc Session RpcError ChainCursor :=
  tag ← attempt (validate_block_tag tag);
  value ← request self (EthGetBlockByNumber tag false);
  _ ← attempt (validate_execution_context value);
  attempt (normalize_block_cursor value chain c true).

(** What is done with the answer to [eth_getBlockByHash]. *)
Definition read_block_by_hash (value : Value) (hash : B256) (chain : Z) (c : Commitment)
    (require_execution_context : bool) : result RpcError BlockRef :=
  _ ← (if require_execution_context then validate_execution_context value else Ok tt);
  block ← normalize_block_ref value chain c require_execution_context;
  if negb (bool_decide (block_hash (br_cursor block) = Some hash))
  then Err (Invalid "block hash response mismatch")
  else Ok block.

Definition block_ref_by_hash_inner (self : RpcHttpClient) (hash : B256) (chain : Z)
    (c : Commitment) (require_execution_context : bool) : proc Session RpcError BlockRef :=
  value ← request self (EthGetBlockByHash (hex_bytes 32 hash) false);
  attempt (read_block_by_hash value hash chain c require_execution_context).

Definition client_block_ref_by_hash (self : RpcHttpClient) (hash : B256) (chain : Z)
    (c : Commitment) : proc Session RpcError BlockRef :=
  block_ref_by_hash_inner self hash chain c false.

Definition block_ref_by_hash_with_execution_context (self : RpcHttpClient) (hash : B256) (chain : Z)
    (c : Commitment) : proc Session RpcError BlockRef :=
  block_ref_by_hash_inner self hash chain c true.

Definition block_cursor_by_hash_with_execution_context (self : RpcHttpClient) (hash : B256)
    (chain : Z) (c : Commitment) : proc Session RpcError ChainCursor :=
  block ← block_ref_by_hash_inner self hash chain c true; mret (br_cursor block).

(** ** Canonical backfill *)

Definition backfill_filter (req : BackfillRequest) : LogFilter :=
  {| lf_address := filter_address (filter req);
     lf_from_block := hex_quantity (from_block req);
     lf_to_block := hex_quantity (to_block req);
     lf_topics := match filter_topics (filter req) with
                  | [] => None
                  | topics => Some [topics]
                  end |}.

(** The loop pushes pages until one ends at [to_block]. *)
Fixpoint initial_log_ranges_loop (fuel : nat) (start to max_page_blocks : Z)
    : option (list (Z * Z)) :=
  match fuel with
  | O => None
  | S fuel =>
      let last :=
        Z.min (uint_saturating_add 64 start (uint_saturating_sub max_page_blocks 1)) to in
      if last =? to then Some [(start, last)]
      else ranges ← initial_log_ranges_loop fuel (uint_saturating_add 64 last 1) to max_page_blocks;
           Some ((start, last) :: ranges)
  end.

Definition initial_log_ranges (from to max_page_blocks : Z) : option (list (Z * Z)) :=
  initial_log_ranges_loop (S (Z.to_nat (to - from))) from to max_page_blocks.

Definition is_bisectable_log_range_limit (error : RpcError) : bool :=
  match error with
  | Limit message =>
      let message := to_ascii_lowercase message in
      contains "http content-length" message || contains "http response body" message
  | _ =>
      let message := to_ascii_lowercase (rpc_error_to_string error) in
      existsb (fun needle => contains needle message)
        ["too many results"; "response size"; "block range"; "query exceeds"; "limit exceeded";
         "-32005"]
  end.

(** [admit_log] on the logs admitted so far and their bytes. *)
Definition admit_log (limits : RpcHttpLimits) (admitted : list ContractLog * Z) (log : ContractLog)
    : result RpcError (list ContractLog * Z) :=
  let '(normalized, normalized_bytes) := admitted in
  let bytes := log_retained_bytes log in
  if (max_backfill_logs limits <=? Z.of_nat (length normalized))
     || (uint_saturating_sub (max_backfill_bytes limits) normalized_bytes <? bytes)
  then Err (Limit "normalized backfill batch count or byte budget exceeded")
  else Ok (normalized ++ [log], normalized_bytes + bytes).

(** [for value in logs { parse; admit }] *)
Definition admit_page (limits : RpcHttpLimits) (req : BackfillRequest) (chain : Z) (c : Commitment)
    (admitted : list ContractLog * Z) (values : list Value)
    : result RpcError (list ContractLog * Z) :=
  try_fold (fun admitted value =>
    log ← parse_filtered_rpc_log value chain c (filter req); admit_log limits admitted log)
    admitted values.

(** [while let Some((from_block, to_block)) = pending.pop_front()]; a range is
    answered, split, or fails the call, so the blocks left in [pending] bound the
    requests. *)
Fixpoint get_logs_loop (fuel : nat) (self : RpcHttpClient) (req : BackfillRequest) (chain : Z)
    (c : Commitment) (pending : list (Z * Z)) (admitted : list ContractLog * Z)
    : proc Session RpcError (list ContractLog * Z) :=
  match pending with
  | [] => mret admitted
  | (from, to) :: pending =>
      match fuel with
      | O => out_of_fuel
      | S fuel =>
          let chunk := {| from_block := from; to_block := to; filter := filter req |} in
          response ← try_proc (request self (EthGetLogs (backfill_filter chunk)));
          match response with
          | Ok values =>
              admitted ← attempt (admit_page (client_limits self) req chain c admitted values);
              get_logs_loop fuel self req chain c pending admitted
          | Err error =>
              if (from <? to) && is_bisectable_log_range_limit error then
                let middle := from + (to - from) / 2 in
                get_logs_loop fuel self req chain c
                  ((from, middle) :: (uint_saturating_add 64 middle 1, to) :: pending) admitted
              else stop error
          end
      end
  end.

Definition sort_logs (logs : list ContractLog) : list ContractLog :=
  sort_by_key order_ltb (fun log => event_order (log_cursor log)) logs.

Definition get_logs (self : RpcHttpClient) (req : BackfillRequest) (chain : Z) (c : Commitment)
    : proc Session RpcError (list ContractLog) :=
  if to_block req <? from_block req then stop (Invalid "log range starts after its end")
  else
    match initial_log_ranges (from_block req) (to_block req)
            (max_backfill_page_blocks (client_limits self)) with
    | None => out_of_fuel
    | Some pending =>
        '(normalized, _) ← get_logs_loop (Z.to_nat (2 * (to_block req - from_block req + 1)))
                             self req chain c pending ([], 0);
        mret (sort_logs normalized)
    end.

(** ** The chain-verified backend *)

Record RpcHttpBackend := {
  backend_rpc : RpcHttpClient;
  backend_network : Network;
  backend_chain_id : Z;
  snapshot_tag : string
}.

Definition set_chain_verified (b : bool) (s : Session) : Session :=
  {| request_id := request_id s; issued := issued s; chain_verified := b;
     verifications_pending := verifications_pending s |}.

Definition add_pending (n : Z) (s : Session) : Session :=
  {| request_id := request_id s; issued := issued s; chain_verified := chain_verified s;
     verifications_pending := verifications_pending s + n |}.

Definition is_idle_and_verified (s : Session) : bool :=
  (verifications_pending s =? 0) && chain_verified s && (verifications_pending s =? 0).

Definition chain_id_mismatch (expected actual : Z) : SourceError :=
  SourceUnavailable ("HTTP RPC chain id mismatch: expected " +:+ decimal expected +:+ ", got "
                       +:+ decimal actual).

Definition verify_chain_id_locked (self : RpcHttpBackend) : proc Session SourceError unit :=
  actual ← map_perr source_error_of_rpc (rpc_chain_id (backend_rpc self));
  if negb (actual =? backend_chain_id self)
  then stop (chain_id_mismatch (backend_chain_id self) actual)
  else mret tt.

(** [publish_ensure_success] by the only task of the session. *)
Definition publish_ensure_success (s : Session) : Session :=
  if verifications_pending s =? 0 then set_chain_verified true s else s.

Definition ensure_chain_id (self : RpcHttpBackend) : proc Session SourceError unit :=
  s ← call get;
  if is_idle_and_verified s then mret tt
  else
    _ ← verify_chain_id_locked self;
    call (modify publish_ensure_success).

(** [PendingVerification]: taken at the start, released on every return. *)
Definition verify_chain_id (self : RpcHttpBackend) : proc Session SourceError unit := fun s =>
  match (_ ← verify_chain_id_locked self;
         call (modify (fun s => if verifications_pending s =? 1
                                then set_chain_verified true s else s)))
          (set_chain_verified false (add_pending 1 s)) with
  | Some (r, s') => Some (r, add_pending (-1) s')
  | None => None
  end.

Definition snapshot_commitment (tag : string) : Commitment :=
  if String.eqb tag "finalized" then Finalized else Canonical.

Definition snapshot_cursor_at (self : RpcHttpBackend) (network : Network)
    : proc Session SourceError ChainCursor :=
  if negb (bool_decide (network = backend_network self)) then stop NetworkMismatch
  else
    _ ← ensure_chain_id self;
    map_perr source_error_of_rpc
      (block_cursor (backend_rpc self) (snapshot_tag self) (backend_chain_id self)
         (snapshot_commitment (snapshot_tag self))).

Definition block_ref_at_tag (self : RpcHttpBackend) (tag : string) (c : Commitment)
    : proc Session SourceError BlockRef :=
  _ ← ensure_chain_id self;
  map_perr source_error_of_rpc
    (if bool_decide (backend_network self = Arbitrum)
     then block_ref_with_execution_context (backend_rpc self) tag (backend_chain_id self) c
     else block_ref (backend_rpc self) tag (backend_chain_id self) c).

Definition snapshot_block_ref (self : RpcHttpBackend) (network : Network)
    : proc Session SourceError BlockRef :=
  if negb (bool_decide (network = backend_network self)) then stop NetworkMismatch
  else block_ref_at_tag self (snapshot_tag self) (snapshot_commitment (snapshot_tag self)).

Definition backfill (self : RpcHttpBackend) (req : BackfillRequest)
    : proc Session SourceError (list ContractLog) :=
  _ ← ensure_chain_id self;
  map_perr source_error_of_rpc
    (get_logs (backend_rpc self) req (backend_chain_id self)
       (snapshot_commitment (snapshot_tag self))).

Definition block_ref_by_hash (self : RpcHttpBackend) (hash : B256) (c : Commitment)
    : proc Session SourceError BlockRef :=
  _ ← ensure_chain_id self;
  map_perr source_error_of_rpc
    (block_ref_by_hash_inner (backend_rpc self) hash (backend_chain_id self) c
       (bool_decide (backend_network self = Arbitrum))).

Definition validate_checkpoint (self : RpcHttpBackend) (k : Checkpoint)
    : proc Session SourceError bool :=
  if negb (ck_chain_id k =? backend_chain_id self)
     || negb (chain_id (ck_cursor k) =? backend_chain_id self)
  then mret false
  else
  _ ← ensure_chain_id self;
  canonical ← map_perr source_error_of_rpc
    (block_cursor (backend_rpc self) (hex_quantity (block_number (ck_cursor k)))
       (backend_chain_id self) Canonical);
  match block_hash canonical with
  | None => mret false
  | Some hash =>
      if negb (bool_decide (block_hash (ck_cursor k) = Some hash)) then mret false
      else
        word ← map_perr source_error_of_rpc
          (get_storage_at_hash (backend_rpc self) (ck_core k) ERC1967_IMPLEMENTATION_SLOT hash);
        if negb (bool_decide (decode_implementation word = Some (expected_implementation k)))
        then mret false
        else
          code_hash ← map_perr source_error_of_rpc
            (runtime_code_hash_at_hash (backend_rpc self) (expected_implementation k) hash);
          mret (code_hash =? expected_implementation_code_hash k)
  end.

End Client.
