(* ===== verification/RpcFacts.v ===== *)
(** * Correctness of the HTTP JSON-RPC client

    Quantities, bounded responses, the canonical backfill and the chain check. *)

From S2P Require Import Prelude StableSort Text Arithmetic Slot0 State Model Abi Rpc.

(** ** Ranges *)

(** The blocks of an inclusive range. *)
Definition blocks_of (range : Z * Z) : list Z := seqZ range.1 (range.2 - range.1 + 1).

Lemma blocks_of_split from middle to :
  from <= middle < to -> blocks_of (from, to) = blocks_of (from, middle) ++ blocks_of (middle + 1, to).
Proof.
  intros Hm. unfold blocks_of. cbn [fst snd].
  replace (to - from + 1) with ((middle - from + 1) + (to - (middle + 1) + 1)) by lia.
  rewrite seqZ_app by lia. by replace (from + (middle - from + 1)) with (middle + 1) by lia.
Qed.

Lemma blocks_of_nonempty range : range.1 <= range.2 -> blocks_of range <> [].
Proof.
  intros H E. apply (f_equal length) in E. unfold blocks_of in E. rewrite length_seqZ in E. cbn in E. lia.
Qed.

Lemma blocks_of_prefix a b from to rest :
  a <= b -> blocks_of (a, b) ++ rest = blocks_of (from, to) ->
  a = from /\ b <= to /\ rest = blocks_of (b + 1, to).
Proof.
  intros Hab E. pose proof (f_equal length E) as El. rewrite length_app in El. unfold blocks_of in El.
  rewrite !length_seqZ in El. cbn [fst snd] in El.
  assert (a = from) as ->.
  { pose proof (f_equal (fun l => l !! 0%nat) E) as E0. cbn beta in E0. unfold blocks_of in E0.
    cbn [fst snd] in E0. rewrite lookup_app_l in E0 by (rewrite length_seqZ; lia).
    rewrite !lookup_seqZ_lt in E0 by lia. injection E0. lia. }
  assert (b <= to) as Hb by lia. split_and!; [done|done|].
  destruct (Z.eq_dec b to) as [->|Hne].
  - unfold blocks_of. cbn [fst snd].
    destruct rest; [|cbn in El; lia]. symmetry. apply length_zero_iff_nil. rewrite length_seqZ. lia.
  - rewrite (blocks_of_split from b to) in E by lia. by apply app_inv_head in E.
Qed.

(** A page of the backfill: not empty, within the page limit. *)
Definition page_ok (max_page_blocks : Z) (range : Z * Z) : Prop :=
  range.1 <= range.2 /\ range.2 - range.1 + 1 <= max_page_blocks /\ 0 <= range.1 /\ range.2 < 2 ^ 64.

Lemma initial_log_ranges_loop_spec fuel start to p :
  0 <= start -> start <= to -> to < 2 ^ 64 -> 0 < p -> to - start < Z.of_nat fuel ->
  exists ranges, initial_log_ranges_loop fuel start to p = Some ranges
    /\ (ranges ≫= blocks_of) = blocks_of (start, to) /\ Forall (page_ok p) ranges.
Proof.
  revert start. induction fuel as [|fuel IH]; intros start Hs Hle Hto Hp Hf; [lia|].
  cbn [initial_log_ranges_loop].
  assert (exists last, Z.min (uint_saturating_add 64 start (uint_saturating_sub p 1)) to = last
            /\ start <= last <= to /\ last - start + 1 <= p) as (last & -> & Hl & Hpage).
  { eexists. split; [reflexivity|]. unfold uint_saturating_add, uint_saturating_sub, uint_max. lia. }
  destruct (Z.eqb_spec last to) as [->|Hne].
  - eexists. split; [done|]. split; [cbn; by rewrite app_nil_r|].
    apply Forall_singleton. split_and!; cbn; lia.
  - assert (uint_saturating_add 64 last 1 = last + 1) as ->
      by (unfold uint_saturating_add, uint_max; lia).
    destruct (IH (last + 1)) as (ranges & -> & Hb & Hr); [lia..|].
    eexists. split; [done|]. split.
    + cbn [mbind list_bind]. rewrite (blocks_of_split start last to) by lia. by rewrite Hb.
    + constructor; [|done]. split_and!; cbn; lia.
Qed.

Lemma initial_log_ranges_spec from to p :
  uint 64 from -> uint 64 to -> from <= to -> 0 < p ->
  exists ranges, initial_log_ranges from to p = Some ranges
    /\ (ranges ≫= blocks_of) = blocks_of (from, to) /\ Forall (page_ok p) ranges.
Proof. unfold uint. intros. apply initial_log_ranges_loop_spec; lia. Qed.

(** The requests a list of ranges can still cost. *)
Definition work (pending : list (Z * Z)) : Z :=
  foldr (fun range n => 2 * (range.2 - range.1 + 1) - 1 + n) 0 pending.

Lemma work_cons range pending : work (range :: pending) = 2 * (range.2 - range.1 + 1) - 1 + work pending.
Proof. done. Qed.

Lemma work_nonneg p pending : Forall (page_ok p) pending -> 0 <= work pending.
Proof. induction 1 as [|x l [Hx _] _ IH]; [done|]. rewrite work_cons. lia. Qed.

Lemma work_blocks p pending :
  Forall (page_ok p) pending ->
  work pending = 2 * Z.of_nat (length (pending ≫= blocks_of)) - Z.of_nat (length pending).
Proof.
  induction 1 as [|x l [Hx _] _ IH]; [done|]. rewrite work_cons, IH, bind_cons, length_app, length_cons.
  unfold blocks_of at 2. rewrite length_seqZ. lia.
Qed.

Lemma work_split p from to :
  page_ok p (from, to) -> from < to ->
  let middle := from + (to - from) / 2 in
  page_ok p (from, middle) /\ page_ok p (middle + 1, to) /\ uint_saturating_add 64 middle 1 = middle + 1
  /\ from <= middle < to.
Proof.
  unfold page_ok, uint_saturating_add, uint_max. cbn [fst snd]. intros (? & ? & ? & ?) Hlt.
  pose proof (Z.div_mod (to - from) 2 ltac:(lia)). pose proof (Z.mod_pos_bound (to - from) 2 ltac:(lia)).
  lia.
Qed.

(** ** Requests *)

Section Requests.
Context `{Json, Http}.

Lemma read_body_spec limits chunks bytes body :
  read_body limits chunks bytes = Ok body ->
  exists parts, mapM (fun c => result_ok c) chunks = Some parts /\ body = bytes ++ concat parts.
Proof.
  revert bytes. induction chunks as [|chunk chunks IH]; intros bytes; cbn [read_body].
  - intros [= <-]. exists []. by rewrite app_nil_r.
  - intros (c & Hc & Hr)%bind_ok. apply map_err_ok in Hc as ->. case_match; [done|].
    apply IH in Hr as (parts & Hp & ->). exists (c :: parts). cbn. rewrite Hp. by rewrite <-app_assoc.
Qed.

(** The buffered body never exceeds the response budget. *)
Lemma read_body_bounded limits chunks bytes body :
  Z.of_nat (length bytes) <= max_response_bytes limits ->
  read_body limits chunks bytes = Ok body -> Z.of_nat (length body) <= max_response_bytes limits.
Proof.
  revert bytes. induction chunks as [|chunk chunks IH]; intros bytes Hb; cbn [read_body].
  - by intros [= <-].
  - intros (c & Hc & Hr)%bind_ok. destruct (Z.ltb_spec (uint_saturating_sub (max_response_bytes limits)
      (Z.of_nat (length bytes))) (Z.of_nat (length c))); [done|].
    apply IH in Hr; [done|]. unfold uint_saturating_sub in *. rewrite length_app. lia.
Qed.

Lemma request_returns {R} `{!Deserialize R} self req s :
  exists r s', request (R := R) self req s = Some (r, s')
    /\ (issued s <= issued s' <= S (issued s))%nat /\ chain_verified s' = chain_verified s
    /\ verifications_pending s' = verifications_pending s.
Proof.
  unfold request. destruct (map_err _ _) as [body|e]; [case_match|]; eexists _, _;
    (split; [done|]); cbn; split_and!; done || lia.
Qed.

(** The network gave this result to this request between the two sessions. *)
Definition answers {R} `{!Deserialize R} (self : RpcHttpClient) (req : RpcRequest) (v : R)
    (s s' : Session) : Prop :=
  exists s1 s2, request self req s1 = Some (Ok v, s2)
    /\ (issued s <= issued s1)%nat /\ (issued s2 <= issued s')%nat.

Lemma request_ok {R} `{!Deserialize R} self req (v : R) s s' :
  request self req s = Some (Ok v, s') -> answers self req v s s' /\ (issued s <= issued s')%nat.
Proof.
  intros E. split; [exists s, s'; split_and!; [done|lia|lia]|].
  destruct (request_returns (R := R) self req s) as (r & s1 & E' & Hi & _). rewrite E in E'.
  injection E' as <- <-. lia.
Qed.

Lemma answers_weaken {R} `{!Deserialize R} self req (v : R) s0 s s' s1 :
  (issued s0 <= issued s)%nat -> (issued s' <= issued s1)%nat ->
  answers self req v s s' -> answers self req v s0 s1.
Proof. intros ? ? (a & b & ? & ? & ?). exists a, b. split_and!; [done|lia|lia]. Qed.

Lemma read_body_iff limits chunks bytes body :
  Z.of_nat (length bytes) <= max_response_bytes limits ->
  read_body limits chunks bytes = Ok body <->
  exists parts, chunks = Ok <$> parts /\ body = bytes ++ concat parts
    /\ Z.of_nat (length body) <= max_response_bytes limits.
Proof.
  revert bytes. induction chunks as [|chunk chunks IH]; intros bytes Hb; cbn [read_body].
  - split.
    + intros [= <-]. exists []. by rewrite app_nil_r.
    + intros ([|] & E & -> & _); [by rewrite app_nil_r|done].
  - destruct chunk as [c|e]; bsimpl.
    2: { split; [done|]. by intros ([|] & ? & _). }
    unfold uint_saturating_sub.
    destruct (Z.ltb_spec (Z.max 0 (max_response_bytes limits - Z.of_nat (length bytes)))
                (Z.of_nat (length c))) as [Hlt|Hge].
    + split; [done|]. intros ([|p parts] & E & -> & Hl); [done|]. injection E as <- ->.
      cbn [concat] in Hl. rewrite !length_app in Hl. lia.
    + rewrite IH by (rewrite length_app; lia). split.
      * intros (parts & -> & -> & Hl). exists (c :: parts). cbn [concat]. by rewrite app_assoc.
      * intros ([|p parts] & E & -> & Hl); [done|]. injection E as <- ->. exists parts.
        cbn [concat] in *. by rewrite <-app_assoc.
Qed.

(** The responses that yield a value. *)
Definition accepted {R} `{!Deserialize R} (limits : RpcHttpLimits) (id : Z) (response : HttpResponse)
    (v : R) : Prop :=
  exists parts envelope,
    (forall n, content_length response = Some n -> n <= max_response_bytes limits)
    /\ body_chunks response = Ok <$> parts
    /\ Z.of_nat (length (concat parts)) <= max_response_bytes limits
    /\ from_slice (concat parts) = Ok envelope
    /\ sr_jsonrpc envelope = "2.0" /\ value_is_u64 (sr_id envelope) id = true
    /\ sr_error envelope = None /\ sr_result envelope = Some v.

Lemma read_response_iff {R} `{!Deserialize R} limits id response (v : R) :
  0 <= max_response_bytes limits ->
  read_response limits id response = Ok v <-> accepted limits id response v.
Proof.
  intros Hmax. unfold read_response, accepted.
  assert ((match content_length response with
           | Some length => max_response_bytes limits <? length
           | None => false
           end) = false
          <-> forall n, content_length response = Some n -> n <= max_response_bytes limits) as Hc.
  { destruct (content_length response) as [n|]; [|by split].
    rewrite Z.ltb_ge. split; [by intros ? ? [= <-]|auto]. }
  destruct (match content_length response with Some _ => _ | None => _ end) eqn:Ec.
  { split; [done|]. intros (parts & env & Hn & _). apply Hc in Hn. done. }
  pose proof (proj1 Hc eq_refl) as Hn. rewrite bind_ok. split.
  - intros (bytes & (parts & Hp & -> & Hl)%read_body_iff & (env & He%map_err_ok & E)%bind_ok);
      [|cbn; lia].
    destruct (String.eqb_spec (sr_jsonrpc env) "2.0") as [Hj|]; [|discriminate E].
    destruct (value_is_u64 (sr_id env) id) eqn:Hi; [|discriminate E]. cbn [negb orb] in E.
    destruct (sr_error env) eqn:Her; [discriminate E|]. apply ok_or_ok in E.
    exists parts, env. by split_and!.
  - intros (parts & env & _ & Hp & Hl & He & Hj & Hi & Her & Hr). exists (concat parts). split.
    + apply read_body_iff; [cbn; lia|]. by exists parts.
    + rewrite He. bsimpl. rewrite Hj, Hi, Her, Hr. done.
Qed.

End Requests.

(** ** Runs

    A procedure only ever moves the request counter forward. *)

Definition advancing {E A} (m : proc Session E A) : Prop :=
  forall s r s', m s = Some (r, s') -> (issued s <= issued s')%nat.

Lemma advancing_bind {E A B} (m : proc Session E A) (f : A -> proc Session E B) :
  advancing m -> (forall a, advancing (f a)) -> advancing (m ≫= f).
Proof.
  intros Hm Hf s r s'. unfold mbind, proc_bind. destruct (m s) as [[[a|e] s1]|] eqn:E1; [|intros [= <- <-]|done].
  - intros E2%Hf. apply Hm in E1. lia.
  - by apply Hm in E1.
Qed.

Lemma advancing_attempt {E A} (m : result E A) : advancing (attempt m).
Proof. intros s r s' [= <- <-]. lia. Qed.
Lemma advancing_stop {E A} (e : E) : advancing (stop e : proc Session E A).
Proof. intros s r s' [= <- <-]. lia. Qed.
Lemma advancing_ret {E A} (a : A) : advancing (mret a : proc Session E A).
Proof. intros s r s' [= <- <-]. lia. Qed.
Lemma advancing_fuel {E A} : advancing (out_of_fuel : proc Session E A).
Proof. done. Qed.
Lemma advancing_map_perr {E F A} (f : E -> F) (m : proc Session E A) :
  advancing m -> advancing (map_perr f m).
Proof.
  intros Hm s r s'. unfold map_perr. destruct (m s) as [[o s1]|] eqn:E1; [|done].
  intros [= _ <-]. by apply Hm in E1.
Qed.
Lemma advancing_try {E F A} (m : proc Session E A) : advancing m -> advancing (try_proc (F := F) m).
Proof.
  intros Hm s r s'. unfold try_proc. destruct (m s) as [[o s1]|] eqn:E1; [|done].
  intros [= _ <-]. by apply Hm in E1.
Qed.
Lemma advancing_request `{Json, Http} {R} `{!Deserialize R} self rq : advancing (request (R := R) self rq).
Proof.
  intros s r s' E. destruct (request_returns (R := R) self rq s) as (r1 & s1 & E1 & Hi & _).
  rewrite E in E1. injection E1 as <- <-. lia.
Qed.
Lemma returns_request `{Json, Http} {R} `{!Deserialize R} self rq : returns (request (R := R) self rq).
Proof. intros s. destruct (request_returns (R := R) self rq s) as (r & s' & E & _). by eexists. Qed.

Create HintDb rpc.
#[export] Hint Resolve advancing_bind advancing_attempt advancing_stop advancing_ret advancing_fuel
  advancing_map_perr advancing_try advancing_request returns_request : rpc.
#[export] Hint Resolve returns_bind returns_call returns_attempt returns_stop returns_try returns_ret
  returns_map_perr : rpc.

(** Follow the code: binds, then the guards between them. *)
Ltac runs :=
  repeat first
    [ solve [auto 2 with rpc nocore]
    | apply advancing_bind; [|intros ?]
    | apply returns_bind; [|intros ?]
    | apply advancing_map_perr | apply returns_map_perr | apply advancing_try
    | apply advancing_request | apply returns_request | apply advancing_attempt | apply returns_attempt
    | progress case_match ].

Lemma advancing_get_logs `{Json, Http, MemLayout, !Deserialize (list Value)} self rq chain c :
  advancing (get_logs self rq chain c).
Proof.
  assert (forall fuel pending admitted, advancing (get_logs_loop fuel self rq chain c pending admitted)) as Hl.
  { induction fuel as [|fuel IH]; intros [|[from to] pending] admitted; cbn [get_logs_loop]; runs; apply IH. }
  unfold get_logs. runs; apply Hl.
Qed.
#[export] Hint Resolve advancing_get_logs : rpc.

(** ** The canonical backfill *)

Record Page `{Json} := {
  pg_range : Z * Z;
  pg_values : list Value;
  pg_logs : list ContractLog
}.

Section Backfill.
Context `{Json, Http, MemLayout, !Deserialize (list Value)}.
Context (self : RpcHttpClient) (req : BackfillRequest) (chain : Z) (c : Commitment).

Notation limits := (client_limits self).
Notation max_page := (max_backfill_page_blocks limits).

Definition log_request (range : Z * Z) : RpcRequest :=
  EthGetLogs (backfill_filter {| from_block := range.1; to_block := range.2; filter := filter req |}).

(** The network answered this page between the two sessions, and its logs are the
    normalized ones. *)
Definition answered (s s' : Session) (page : Page) : Prop :=
  answers self (log_request (pg_range page)) (pg_values page) s s'
  /\ Forall2 (fun value log => parse_filtered_rpc_log value chain c (filter req) = Ok log)
       (pg_values page) (pg_logs page).

Definition batch_bytes (logs : list ContractLog) : Z :=
  foldr (fun log n => log_retained_bytes log + n) 0 logs.

Definition within_budget (logs : list ContractLog) : Prop :=
  Z.of_nat (length logs) <= max_backfill_logs limits /\ batch_bytes logs <= max_backfill_bytes limits.

Lemma batch_bytes_app l k : batch_bytes (l ++ k) = batch_bytes l + batch_bytes k.
Proof. induction l as [|x l IH]; cbn; [done|]. unfold batch_bytes in *. rewrite IH. lia. Qed.

Lemma batch_bytes_permutation l k : l ≡ₚ k -> batch_bytes l = batch_bytes k.
Proof. induction 1; cbn; unfold batch_bytes in *; lia. Qed.

Lemma admit_page_spec logs values out :
  within_budget logs -> admit_page limits req chain c (logs, batch_bytes logs) values = Ok out ->
  exists new, Forall2 (fun value log => parse_filtered_rpc_log value chain c (filter req) = Ok log) values new
    /\ out = (logs ++ new, batch_bytes (logs ++ new)) /\ within_budget (logs ++ new).
Proof.
  unfold admit_page. revert logs. induction values as [|value values IH]; intros logs Hw; cbn [try_fold].
  - intros [= <-]. exists []. by rewrite !app_nil_r.
  - intros (out1 & (log & Hlog & Ha)%bind_ok & Hr)%bind_ok. unfold admit_log in Ha.
    destruct ((_ <=? _) || (_ <? _)) eqn:E; [done|]. injection Ha as <-.
    apply orb_false_iff in E as [E1 E2]. apply Z.leb_gt in E1. apply Z.ltb_ge in E2.
    assert (batch_bytes logs + log_retained_bytes log = batch_bytes (logs ++ [log])) as Hb
      by (rewrite batch_bytes_app; cbn; lia).
    rewrite Hb in Hr. apply IH in Hr as (new & Hn & -> & Hw').
    + exists (log :: new). rewrite <-app_assoc in *. split_and!; [by constructor|done|done].
    + unfold uint_saturating_sub in E2. destruct Hw as [Hw1 Hw2]. split; [|lia].
      rewrite length_app. cbn. lia.
Qed.

Lemma answered_weaken s0 s s' s1 page :
  (issued s0 <= issued s)%nat -> (issued s' <= issued s1)%nat ->
  answered s s' page -> answered s0 s1 page.
Proof. intros ? ? [Ha Hp]. split; [|done]. by apply (answers_weaken _ _ _ s s0 s' s1) in Ha || by eapply answers_weaken. Qed.

(** The loop answers every block of its pages once, in order, and stops. *)
Lemma get_logs_loop_spec fuel pending logs s :
  Forall (page_ok max_page) pending -> work pending <= Z.of_nat fuel -> within_budget logs ->
  exists r s', get_logs_loop fuel self req chain c pending (logs, batch_bytes logs) s = Some (r, s')
    /\ (issued s <= issued s')%nat /\ Z.of_nat (issued s') <= Z.of_nat (issued s) + work pending
    /\ forall out, r = Ok out -> exists pages,
         ((pg_range <$> pages) ≫= blocks_of) = (pending ≫= blocks_of)
         /\ Forall (fun page => page_ok max_page (pg_range page) /\ answered s s' page) pages
         /\ out = (logs ++ (pages ≫= pg_logs), batch_bytes (logs ++ (pages ≫= pg_logs)))
         /\ within_budget (logs ++ (pages ≫= pg_logs)).
Proof.
  revert pending logs s. induction fuel as [|fuel IH]; intros pending logs s Hp Hf Hw;
    (destruct pending as [|[from to] pending]; cbn [get_logs_loop];
     [eexists _, _; split; [done|]; split_and!; [lia|cbn; lia|]; intros out [= <-];
      exists []; rewrite app_nil_r; split_and!; done|]);
    apply Forall_cons in Hp as [Hr Hp]; rewrite work_cons in Hf |- *; pose proof (work_nonneg _ _ Hp);
    pose proof Hr as (Hle & _); cbn [fst snd] in *; [lia|].
  destruct (request_returns (R := list Value) self (log_request (from, to)) s)
    as (resp & s1 & Hreq & Hi & _ & _).
  unfold mbind at 1, proc_bind at 1, try_proc at 1. fold (log_request (from, to)).
  change (EthGetLogs _) with (log_request (from, to)). rewrite Hreq. cbn [mbind option_bind].
  destruct resp as [values|error].
  - unfold mbind, proc_bind, attempt, call, lift.
    destruct (admit_page _ _ _ _ _ _) as [out1|e] eqn:Ha.
    2: { eexists _, _. split; [done|]. split_and!; [lia|lia|done]. }
    destruct (admit_page_spec _ _ _ Hw Ha) as (new & Hn & -> & Hw1).
    destruct (IH pending (logs ++ new) s1 Hp ltac:(lia) Hw1) as (r & s' & -> & Hi1 & Hi2 & Hok).
    eexists _, _. split; [done|]. split_and!; [lia|lia|]. intros out Hout.
    destruct (Hok out Hout) as (pages & Hb & Hpg & -> & Hw2).
    exists ({| pg_range := (from, to); pg_values := values; pg_logs := new |} :: pages).
    rewrite fmap_cons, !bind_cons, Hb, !app_assoc. cbn [pg_range pg_logs]. split_and!; [done| |done|done].
    constructor; [|eapply Forall_impl; [exact Hpg|]; intros pg [? ?]; split; [done|];
                   by apply (answered_weaken s s1 s' s'); [lia|lia|]].
    split; [done|]. split; [|done]. exists s, s1. split_and!; [done|lia|lia].
  - destruct (Z.ltb_spec from to) as [Hlt|Hge]; cbn [andb].
    2: { eexists _, _. split; [done|]. split_and!; [lia|lia|done]. }
    destruct (is_bisectable_log_range_limit error).
    2: { eexists _, _. split; [done|]. split_and!; [lia|lia|done]. }
    destruct (work_split _ _ _ Hr Hlt) as (Ha & Hb & -> & Hm). cbv zeta.
    set (middle := from + (to - from) / 2) in *.
    destruct (IH ((from, middle) :: (middle + 1, to) :: pending) logs s1) as
      (r & s' & -> & Hi1 & Hi2 & Hok); [by constructor; [|constructor]|rewrite !work_cons; cbn; lia|done|].
    rewrite !work_cons in Hi2. cbn [fst snd] in Hi2.
    eexists _, _. split; [done|]. split_and!; [lia|lia|]. intros out Hout.
    destruct (Hok out Hout) as (pages & Hbk & Hpg & -> & Hw2). exists pages.
    rewrite Hbk, !bind_cons, (blocks_of_split from middle to), <-app_assoc by done.
    split_and!; [done| |done|done].
    eapply Forall_impl; [exact Hpg|]. intros pg [? ?]. split; [done|].
    by apply (answered_weaken s s1 s' s'); [lia|lia|].
Qed.

Definition limits_ok : Prop :=
  0 < max_page /\ 0 <= max_backfill_logs limits /\ 0 <= max_backfill_bytes limits.

(** What a call of [get_logs] does, on every path. *)
Lemma get_logs_spec s :
  uint 64 (from_block req) -> uint 64 (to_block req) -> limits_ok ->
  exists r s', get_logs self req chain c s = Some (r, s')
    /\ Z.of_nat (issued s') - Z.of_nat (issued s)
         <= Z.max 0 (2 * (to_block req - from_block req) + 1)
    /\ (to_block req < from_block req -> exists e, r = Err e)
    /\ forall logs, r = Ok logs -> exists pages,
         ((pg_range <$> pages) ≫= blocks_of) = blocks_of (from_block req, to_block req)
         /\ Forall (fun page => page_ok max_page (pg_range page) /\ answered s s' page) pages
         /\ logs = sort_logs (pages ≫= pg_logs)
         /\ within_budget logs.
Proof.
  intros Hf Ht (Hp & Hl & Hb). unfold get_logs.
  destruct (Z.ltb_spec (to_block req) (from_block req)) as [Hlt|Hge].
  { eexists _, _. split; [done|]. split_and!; [lia|by eexists|done]. }
  destruct (initial_log_ranges_spec _ _ _ Hf Ht Hge Hp) as (ranges & -> & Hr & Hok).
  pose proof (work_blocks _ _ Hok) as Hw.
  assert (1 <= Z.of_nat (length ranges)).
  { destruct ranges; [|cbn; lia]. cbn in Hr. exfalso. by apply (blocks_of_nonempty (from_block req, to_block req)). }
  rewrite Hr in Hw. unfold blocks_of in Hw at 1. rewrite length_seqZ in Hw. cbn [fst snd] in Hw.
  destruct (get_logs_loop_spec (Z.to_nat (2 * (to_block req - from_block req + 1))) ranges [] s)
    as (r & s' & Hrun & Hi1 & Hi2 & Hout); [done|lia|by split; cbn; lia|].
  unfold mbind, proc_bind. change 0 with (batch_bytes []). rewrite Hrun.
  destruct r as [[logs bytes]|e].
  2: { eexists _, _. split; [done|]. split_and!; [lia|lia|done]. }
  eexists _, _. split; [done|]. split_and!; [lia|lia|]. intros logs' [= <-].
  destruct (Hout _ eq_refl) as (pages & Hpb & Hpg & [= -> _] & Hwb). exists pages.
  assert (sorted_copy order_ltb (fun log => event_order (log_cursor log)) (pages ≫= pg_logs)
            (sort_logs (pages ≫= pg_logs))) as Hs by exact (sort_by_key_sorted order_ltb _ _).
  split_and!; [exact (eq_trans Hpb Hr)|done|done|].
  cbn [app] in Hwb. destruct Hwb as [Hwl Hwc]. pose proof (copy_permutation _ _ _ _ Hs) as Hperm.
  split; [by rewrite Hperm|]. by rewrite (batch_bytes_permutation _ _ Hperm).
Qed.

(** ** Completeness against a history *)

Definition logs_in (range : Z * Z) (history : list ContractLog) : list ContractLog :=
  base.filter (fun log => range.1 <= block_number (log_cursor log) <= range.2) history.

(** The documented behaviour of [eth_getLogs]: a page that is answered holds the
    matching logs of its blocks, in order. *)
Definition honest (history : list ContractLog) : Prop :=
  forall range s1 values s2,
    page_ok max_page range -> from_block req <= range.1 -> range.2 <= to_block req ->
    request self (log_request range) s1 = Some (Ok values, s2) ->
    Forall2 (fun value log => parse_filtered_rpc_log value chain c (filter req) = Ok log)
      values (logs_in range history).

Definition in_order (history : list ContractLog) : Prop :=
  StronglySorted (key_le order_ltb (fun log => event_order (log_cursor log))) history.

Lemma logs_in_split from middle to history :
  in_order history -> from <= middle + 1 -> middle <= to ->
  logs_in (from, to) history = logs_in (from, middle) history ++ logs_in (middle + 1, to) history.
Proof.
  intros Hs Hf Ht. unfold logs_in. cbn [fst snd].
  induction Hs as [|log history Hs IH Hlog]; [done|]. rewrite !filter_cons.
  destruct (decide (from <= block_number (log_cursor log) <= middle)) as [Hin|Hin].
  - rewrite decide_True by lia. rewrite (decide_False (P := middle + 1 <= _ <= _)) by lia.
    by rewrite IH.
  - destruct (decide (middle + 1 <= block_number (log_cursor log) <= to)) as [Hin'|Hin'].
    + rewrite decide_True by lia. rewrite IH.
      assert (base.filter (fun log => from <= block_number (log_cursor log) <= middle) history = []) as ->;
        [|done].
      apply list_filter_nil. eapply Forall_impl; [exact Hlog|]. intros log' Hle%order_key_block. lia.
    + rewrite decide_False by lia. done.
Qed.

Lemma logs_in_order range history : in_order history -> in_order (logs_in range history).
Proof.
  induction 1 as [|log history Hs IH Hlog]; [constructor|]. unfold logs_in. rewrite filter_cons.
  case_decide; [|done]. constructor; [done|]. apply Forall_forall. intros x Hx.
  apply list_elem_of_filter in Hx as [_ Hx]. rewrite Forall_forall in Hlog. auto.
Qed.

(** Pages that cover a range in order hold exactly its logs. *)
Lemma pages_logs s s' from to pages history :
  in_order history -> honest history -> from_block req <= from -> to <= to_block req ->
  ((pg_range <$> pages) ≫= blocks_of) = blocks_of (from, to) ->
  Forall (fun page => page_ok max_page (pg_range page) /\ answered s s' page) pages ->
  (pages ≫= pg_logs) = logs_in (from, to) history.
Proof.
  intros Hs Hh. revert from. induction pages as [|page pages IH]; intros from Hf Ht Hb Hp.
  - unfold logs_in. cbn in Hb |- *. symmetry. apply list_filter_nil, Forall_forall. intros log _ Hin.
    unfold blocks_of in Hb. cbn [fst snd] in *. apply (f_equal length) in Hb.
    rewrite length_seqZ in Hb. cbn in Hb. lia.
  - apply Forall_cons in Hp as [[Hok ((s1 & s2 & Hreq & _) & Hpar)] Hp].
    rewrite fmap_cons, bind_cons in Hb. destruct (pg_range page) as [a b] eqn:Er.
    pose proof Hok as (Hab & _). cbn [fst snd] in Hab.
    assert (a = from /\ b <= to /\ ((pg_range <$> pages) ≫= blocks_of) = blocks_of (b + 1, to))
      as (-> & Hbt & Hrest) by by apply blocks_of_prefix.
    rewrite bind_cons, (IH (b + 1)) by (done || lia). rewrite (logs_in_split from b to) by (done || lia).
    f_equal. pose proof (Hh _ _ _ _ Hok ltac:(cbn; lia) ltac:(cbn; lia) Hreq) as Hpar'.
    clear -Hpar Hpar'. revert Hpar'. generalize (logs_in (from, b) history).
    induction Hpar as [|v l vs ls Hv _ IH]; intros k Hk; inversion Hk; subst; [done|].
    f_equal; [congruence|by apply IH].
Qed.

(** A success against an honest node is the history of the range. *)
Lemma get_logs_exact s history logs s' :
  uint 64 (from_block req) -> uint 64 (to_block req) -> limits_ok ->
  in_order history -> honest history ->
  get_logs self req chain c s = Some (Ok logs, s') ->
  logs = logs_in (from_block req, to_block req) history /\ within_budget logs.
Proof.
  intros Hf Ht Hl Hs Hh E. destruct (get_logs_spec s Hf Ht Hl) as (r & s1 & E' & _ & Hlt & Hok).
  rewrite E in E'. injection E' as <- <-. destruct (Hok _ eq_refl) as (pages & Hb & Hp & Hsort & Hbud).
  split; [|done]. destruct (Z.ltb_spec (to_block req) (from_block req)) as [Hi|Hi]; [by destruct (Hlt Hi)|].
  rewrite (pages_logs s s' (from_block req) (to_block req) pages history Hs Hh ltac:(lia) ltac:(lia) Hb Hp) in Hsort.
  rewrite Hsort. exact (sort_by_key_id order_ltb _ _ (logs_in_order _ _ Hs)).
Qed.

(** ** Progress *)

(** A node that answers, or says that a page of several blocks is too large. *)
Definition willing (history : list ContractLog) : Prop :=
  forall range s1,
    page_ok max_page range -> from_block req <= range.1 -> range.2 <= to_block req ->
    exists r s2, request self (log_request range) s1 = Some (r, s2)
      /\ match r with
         | Ok _ => True
         | Err error => range.1 < range.2 /\ is_bisectable_log_range_limit error = true
         end.

Lemma log_retained_nonneg log : 0 <= log_topics_capacity log -> 0 <= log_retained_bytes log.
Proof.
  intros Hc. pose proof sizes_nonneg as (? & ? & ? & _). unfold log_retained_bytes.
  repeat apply sat_add_nonneg; try lia. unfold uint_saturating_mul, uint_max. nia.
Qed.

Lemma batch_bytes_nonneg logs : Forall (fun log => 0 <= log_topics_capacity log) logs -> 0 <= batch_bytes logs.
Proof.
  induction 1 as [|log logs Hc _ IH]; cbn; [lia|]. pose proof (log_retained_nonneg _ Hc).
  unfold batch_bytes in IH. lia.
Qed.

Lemma within_budget_prefix l k :
  Forall (fun log => 0 <= log_topics_capacity log) k -> within_budget (l ++ k) -> within_budget l.
Proof.
  intros Hk%batch_bytes_nonneg. unfold within_budget. rewrite length_app, batch_bytes_app. lia.
Qed.

Lemma admit_page_ok logs values new :
  Forall (fun log => 0 <= log_topics_capacity log) new ->
  Forall2 (fun value log => parse_filtered_rpc_log value chain c (filter req) = Ok log) values new ->
  within_budget (logs ++ new) ->
  admit_page limits req chain c (logs, batch_bytes logs) values
  = Ok (logs ++ new, batch_bytes (logs ++ new)).
Proof.
  unfold admit_page. intros Hcap Hp. revert logs.
  induction Hp as [|value log values new Hlog Hp IH]; intros logs Hw; cbn [try_fold].
  { by rewrite app_nil_r. }
  apply Forall_cons in Hcap as [Hc Hcap]. rewrite Hlog. bsimpl. unfold admit_log.
  pose proof (log_retained_nonneg _ Hc) as Hb.
  assert (logs ++ log :: new = (logs ++ [log]) ++ new) as E by by rewrite <-app_assoc.
  rewrite E in Hw |- *. pose proof (within_budget_prefix _ _ Hcap Hw) as [Hw1 Hw2].
  assert (batch_bytes logs + log_retained_bytes log = batch_bytes (logs ++ [log])) as Ha
    by (rewrite batch_bytes_app; cbn; lia).
  rewrite length_app in Hw1. cbn [length] in Hw1.
  destruct (Z.leb_spec (max_backfill_logs limits) (Z.of_nat (length logs))); [lia|].
  unfold uint_saturating_sub. destruct (Z.ltb_spec (Z.max 0 (max_backfill_bytes limits - batch_bytes logs))
    (log_retained_bytes log)); [lia|]. bsimpl. rewrite Ha. by apply IH.
Qed.

Lemma pending_first a b from to pending :
  a <= b -> (((a, b) :: pending) ≫= blocks_of) = blocks_of (from, to) ->
  a = from /\ b <= to /\ (pending ≫= blocks_of) = blocks_of (b + 1, to).
Proof. rewrite bind_cons. apply blocks_of_prefix. Qed.

Lemma get_logs_loop_progress fuel pending from s history :
  in_order history -> honest history -> willing history ->
  Forall (fun log => 0 <= log_topics_capacity log) history ->
  Forall (page_ok max_page) pending -> work pending <= Z.of_nat fuel ->
  (pending ≫= blocks_of) = blocks_of (from, to_block req) ->
  from_block req <= from -> from <= to_block req + 1 ->
  within_budget (logs_in (from_block req, to_block req) history) ->
  let logs := logs_in (from_block req, from - 1) history in
  exists out s', get_logs_loop fuel self req chain c pending (logs, batch_bytes logs) s = Some (Ok out, s').
Proof.
  intros Hs Hh Hw Hcap. revert pending from s. induction fuel as [|fuel IH];
    intros pending from s Hp Hf Hb Hfrom Hto Hbud; cbv zeta;
    (destruct pending as [|[a b] pending]; cbn [get_logs_loop]; [by eexists _, _|]);
    apply Forall_cons in Hp as [Hr Hp]; rewrite work_cons in Hf; pose proof (work_nonneg _ _ Hp);
    pose proof Hr as (Hle & _); cbn [fst snd] in *; [lia|].
  pose proof (pending_first _ _ _ _ _ Hle Hb) as (-> & Hbt & Hrest).
  destruct (Hw (from, b) s Hr ltac:(cbn; lia) ltac:(cbn; lia)) as (resp & s1 & Hreq & Hresp).
  unfold mbind at 1, proc_bind at 1, try_proc at 1.
  change (EthGetLogs _) with (log_request (from, b)). rewrite Hreq. cbn [mbind option_bind].
  destruct resp as [values|error].
  - pose proof (Hh _ _ _ _ Hr ltac:(cbn; lia) ltac:(cbn; lia) Hreq) as Hpar.
    set (logs := logs_in (from_block req, from - 1) history).
    assert (logs ++ logs_in (from, b) history = logs_in (from_block req, b + 1 - 1) history) as E.
    { replace (b + 1 - 1) with b by lia. rewrite (logs_in_split (from_block req) (from - 1) b) by (done || lia).
      by replace (from - 1 + 1) with from by lia. }
    assert (forall r, Forall (fun log => 0 <= log_topics_capacity log) (logs_in r history)) as Hcap'.
    { intros r. apply Forall_forall. intros x [_ Hx]%list_elem_of_filter.
      rewrite Forall_forall in Hcap. auto. }
    unfold mbind, proc_bind, attempt, call, lift.
    rewrite (admit_page_ok logs values (logs_in (from, b) history)); [|apply Hcap'|done|].
    + rewrite E. apply IH; done || lia.
    + rewrite E. replace (b + 1 - 1) with b by lia.
      rewrite (logs_in_split _ b) in Hbud by (done || lia).
      exact (within_budget_prefix _ _ (Hcap' _) Hbud).
  - cbn [fst snd] in Hresp. destruct Hresp as [Hlt ->].
    destruct (Z.ltb_spec from b) as [_|]; [|lia]. cbn [andb].
    destruct (work_split _ _ _ Hr Hlt) as (Ha & Hb2 & -> & Hm). cbv zeta.
    set (middle := from + (b - from) / 2) in *.
    apply (IH ((from, middle) :: (middle + 1, b) :: pending) from); try done.
    + by constructor; [|constructor].
    + rewrite !work_cons. cbn. lia.
    + rewrite !bind_cons, Hrest, app_assoc, <-blocks_of_split by done.
      by rewrite <-Hb, bind_cons, Hrest.
Qed.

End Backfill.

(** ** The chain check *)

Section Backend.
Context `{Json, Http, !Deserialize Z}.

Lemma verify_chain_id_locked_spec self s :
  exists r s', verify_chain_id_locked self s = Some (r, s')
    /\ (issued s <= issued s' <= S (issued s))%nat
    /\ chain_verified s' = chain_verified s /\ verifications_pending s' = verifications_pending s
    /\ (r = Ok tt -> answers (backend_rpc self) EthChainId (backend_chain_id self) s s').
Proof.
  unfold verify_chain_id_locked, rpc_chain_id, map_perr, mbind at 1, proc_bind at 1.
  destruct (request_returns (R := Z) (backend_rpc self) EthChainId s) as (r & s' & E & Hi & Hv & Hp).
  rewrite E. cbn [mbind option_bind]. destruct r as [n|e]; cbn [map_err].
  - destruct (Z.eqb_spec n (backend_chain_id self)) as [->|Hne]; cbn [negb].
    + eexists _, _. split; [done|]. split_and!; [lia|lia|done|done|]. intros _.
      by apply request_ok in E as [? _].
    + eexists _, _. split; [done|]. by split_and!; [lia|lia| | |].
  - eexists _, _. split; [done|]. by split_and!; [lia|lia| | |].
Qed.

(** The lazy check of a canonical operation. *)
Lemma ensure_chain_id_spec self s :
  exists r s', ensure_chain_id self s = Some (r, s')
    /\ (issued s <= issued s' <= S (issued s))%nat
    /\ verifications_pending s' = verifications_pending s
    /\ (r = Ok tt ->
        (is_idle_and_verified s = true /\ s' = s)
        \/ answers (backend_rpc self) EthChainId (backend_chain_id self) s s')
    /\ (r <> Ok tt -> chain_verified s' = chain_verified s).
Proof.
  unfold ensure_chain_id, call, get, mbind at 1, proc_bind at 1.
  destruct (is_idle_and_verified s) eqn:Ev.
  { eexists _, _. split; [done|]. split_and!; [lia|lia|done| |done]. by left. }
  unfold mbind, proc_bind.
  destruct (verify_chain_id_locked_spec self s) as (r & s1 & -> & Hi & Hv & Hp & Hok).
  destruct r as [[]|e].
  - eexists _, _. split; [done|]. unfold publish_ensure_success. split_and!.
    + case_match; cbn; lia.
    + case_match; cbn; lia.
    + case_match; cbn; done.
    + intros _. right. specialize (Hok eq_refl). eapply answers_weaken; [..|exact Hok]; [lia|].
      case_match; cbn; lia.
    + done.
  - eexists _, _. split; [done|]. split_and!; [lia|lia|done|done|]. by intros _.
Qed.

(** The check of a subscription boundary never trusts an earlier answer. *)
Lemma verify_chain_id_spec self s :
  0 <= verifications_pending s ->
  exists r s', verify_chain_id self s = Some (r, s')
    /\ verifications_pending s' = verifications_pending s
    /\ (r = Ok tt -> answers (backend_rpc self) EthChainId (backend_chain_id self) s s')
    /\ (chain_verified s' = true <-> r = Ok tt /\ verifications_pending s = 0).
Proof.
  intros Hp0. unfold verify_chain_id, mbind, proc_bind.
  destruct (verify_chain_id_locked_spec self (set_chain_verified false (add_pending 1 s)))
    as (r & s1 & -> & Hi & Hv & Hp & Hok).
  cbn [set_chain_verified add_pending chain_verified verifications_pending issued] in *.
  destruct r as [[]|e].
  - unfold call, modify. eexists _, _. split; [done|]. rewrite Hp. split_and!.
    + destruct (Z.eqb_spec (verifications_pending s + 1) 1); cbn; lia.
    + intros _. eapply answers_weaken; [..|exact (Hok eq_refl)]; [done|]. case_match; cbn; lia.
    + destruct (Z.eqb_spec (verifications_pending s + 1) 1); cbn; [|rewrite Hv]; naive_solver lia.
  - eexists _, _. split; [done|]. cbn. split_and!; [lia|done|]. rewrite Hv. naive_solver.
Qed.

(** ** Block lookups *)

Section Lookup.
Context `{!Deserialize Value, !JsonLaws}.

Lemma normalize_block_ref_ok value chain c require block :
  normalize_block_ref value chain c require = Ok block ->
  chain_id (br_cursor block) = chain /\ commitment (br_cursor block) = c
  /\ transaction_index (br_cursor block) = None /\ log_index (br_cursor block) = None
  /\ uint 64 (block_number (br_cursor block)).
Proof.
  unfold normalize_block_ref, parse_rpc_head.
  intros (head & (h & Hh%map_err_ok & [= <-])%bind_ok & (ex & _ & [= <-])%bind_ok)%bind_ok.
  split_and!; [done..|]. exact (json_head_u64 _ _ Hh).
Qed.

(** The backend checks what a node claims about the block it was asked for. *)
Lemma block_ref_by_hash_spec self hash c s :
  exists r s', block_ref_by_hash self hash c s = Some (r, s')
    /\ (issued s <= issued s')%nat
    /\ (issued s' <= issued s + (if is_idle_and_verified s then 1 else 2))%nat
    /\ (is_idle_and_verified s = true -> is_idle_and_verified s' = true)
    /\ forall block, r = Ok block ->
         block_hash (br_cursor block) = Some hash /\ chain_id (br_cursor block) = backend_chain_id self
         /\ commitment (br_cursor block) = c
         /\ transaction_index (br_cursor block) = None /\ log_index (br_cursor block) = None
         /\ uint 64 (block_number (br_cursor block)).
Proof.
  unfold block_ref_by_hash, mbind at 1, proc_bind at 1.
  destruct (ensure_chain_id_spec self s) as (r & s1 & E & Hi & Hp & Hok & Herr). rewrite E.
  assert (is_idle_and_verified s = true -> s1 = s) as Hidle.
  { intros Hv. revert E. unfold ensure_chain_id, call, get, mbind, proc_bind. rewrite Hv.
    by intros [= _ <-]. }
  destruct r as [[]|e].
  2: { eexists _, _. split; [done|]. split_and!; [lia|case_match; lia| |done].
       intros Hv. by rewrite (Hidle Hv). }
  unfold block_ref_by_hash_inner, map_perr, mbind, proc_bind, option_bind.
  destruct (request_returns (R := Value) (backend_rpc self) (EthGetBlockByHash (hex_bytes 32 hash) false) s1)
    as (r & s2 & -> & Hi2 & Hv2 & Hp2).
  assert ((issued s2 <= issued s + (if is_idle_and_verified s then 1 else 2))%nat) as Hbound.
  { destruct (is_idle_and_verified s); [rewrite Hidle in Hi2 by done|]; lia. }
  assert (is_idle_and_verified s = true -> is_idle_and_verified s2 = true) as Hstay.
  { intros Hv. rewrite (Hidle Hv) in Hv2, Hp2. revert Hv. unfold is_idle_and_verified. by rewrite Hv2, Hp2. }
  destruct r as [value|e]; unfold attempt, call, lift.
  - eexists _, _. split; [done|]. split_and!; [lia|done|done|]. intros block Hb%map_err_ok.
    unfold read_block_by_hash in Hb. apply unit_bind_ok in Hb as [_ Hb].
    apply bind_ok in Hb as (b & Hn & Hb). case_bool_decide as Hh; [|done]. injection Hb as <-.
    apply normalize_block_ref_ok in Hn as (? & ? & ? & ? & ?). by split_and!.
  - eexists _, _. split; [done|]. by split_and!; [lia| | |].
Qed.

End Lookup.

Context `{Keccak, !Deserialize StorageWord, !Deserialize (list Z), !Deserialize Value}.
Context (u64_from_str_ok : string -> bool).

(** The block the node has at a tag, as a checkpoint check reads it. *)
Lemma block_cursor_ok self tag chain c s cursor s' :
  block_cursor u64_from_str_ok self tag chain c s = Some (Ok cursor, s') ->
  (issued s <= issued s')%nat
  /\ exists value, answers self (EthGetBlockByNumber tag false) value s s'
     /\ normalize_block_cursor value chain c false = Ok cursor.
Proof.
  unfold block_cursor, block_cursor_inner. intros (t & s1 & [Hv ->]%attempt_ok & E)%proc_bind_ok.
  assert (t = tag) as ->.
  { unfold validate_block_tag in Hv. repeat case_match; try done; by injection Hv as <-. }
  apply proc_bind_ok in E as (value & s2 & [Ha Hi]%request_ok & [Hn ->]%attempt_ok).
  split; [done|]. by exists value.
Qed.

Lemma get_storage_ok self a slot hash s word s' :
  get_storage_at_hash self a slot hash s = Some (Ok word, s') ->
  (issued s <= issued s')%nat
  /\ exists w, answers self (EthGetStorageAt a slot (ByHash hash)) w s s' /\ word = storage_word w.
Proof.
  unfold get_storage_at_hash. intros (w & s1 & Hr & E)%proc_bind_ok. injection E as <- <-.
  apply request_ok in Hr as [Ha Hi]. split; [done|]. by exists w.
Qed.

Lemma runtime_code_hash_ok self a hash s code_hash s' :
  runtime_code_hash_at_hash self a hash s = Some (Ok code_hash, s') ->
  (issued s <= issued s')%nat
  /\ exists code, answers self (EthGetCode a (ByHash hash)) code s s' /\ code_hash = keccak256 code.
Proof.
  unfold runtime_code_hash_at_hash, get_code_at_hash. intros (w & s1 & Hr & E)%proc_bind_ok.
  injection E as <- <-. apply request_ok in Hr as [Ha Hi]. split; [done|]. by exists w.
Qed.

(** What the node must have said, pinned to one block hash, for a checkpoint to be
    accepted. *)
Record checkpoint_confirmed (self : RpcHttpBackend) (k : Checkpoint) (hash : B256)
    (s s' : Session) : Prop := {
  confirmed_chain : ck_chain_id k = backend_chain_id self /\ chain_id (ck_cursor k) = backend_chain_id self;
  confirmed_cursor : block_hash (ck_cursor k) = Some hash;
  confirmed_block : exists value cursor,
    answers (backend_rpc self) (EthGetBlockByNumber (hex_quantity (block_number (ck_cursor k))) false)
      value s s'
    /\ normalize_block_cursor value (backend_chain_id self) Canonical false = Ok cursor
    /\ block_hash cursor = Some hash;
  confirmed_implementation : exists w,
    answers (backend_rpc self)
      (EthGetStorageAt (ck_core k) ERC1967_IMPLEMENTATION_SLOT (ByHash hash)) w s s'
    /\ decode_implementation (storage_word w) = Some (expected_implementation k);
  confirmed_code : exists code,
    answers (backend_rpc self) (EthGetCode (expected_implementation k) (ByHash hash)) code s s'
    /\ keccak256 code = expected_implementation_code_hash k
}.

Lemma validate_checkpoint_ok self k s s' :
  validate_checkpoint u64_from_str_ok self k s = Some (Ok true, s') -> exists hash, checkpoint_confirmed self k hash s s'.
Proof.
  unfold validate_checkpoint. intros E. destruct (_ || _) eqn:Hc; [discriminate E|].
  apply orb_false_iff in Hc as [Hc1 Hc2].
  apply negb_false_iff, Z.eqb_eq in Hc1, Hc2.
  apply proc_bind_ok in E as ([] & s1 & He & E).
  apply proc_bind_ok in E as (cursor & s2 & Hb%map_perr_ok%block_cursor_ok & E).
  destruct (block_hash cursor) as [hash|] eqn:Eh; [|discriminate E].
  case_bool_decide as Hck; [|discriminate E]. cbn [negb] in E.
  apply proc_bind_ok in E as (word & s3 & Hw%map_perr_ok%get_storage_ok & E).
  case_bool_decide as Hi; [|discriminate E]. cbn [negb] in E.
  apply proc_bind_ok in E as (code_hash & s4 & Hcode%map_perr_ok%runtime_code_hash_ok & E).
  injection E as Hch <-. apply Z.eqb_eq in Hch.
  destruct Hb as (Hi2 & value & Ha2 & Hn), Hw as (Hi3 & w & Ha3 & ->), Hcode as (Hi4 & code & Ha4 & ->).
  destruct (ensure_chain_id_spec self s) as (r & s1' & E & Hi1 & _). rewrite He in E.
  injection E as <- <-.
  exists hash. split; [done|done|..].
  - exists value, cursor. split_and!; [|exact Hn|exact Eh].
    apply (answers_weaken _ _ _ s s1 s2 s4); [lia|lia|exact Ha2].
  - exists w. split; [|exact Hi]. apply (answers_weaken _ _ _ s s2 s3 s4); [lia|lia|exact Ha3].
  - exists code. split; [|exact Hch]. apply (answers_weaken _ _ _ s s3 s4 s4); [lia|lia|exact Ha4].
Qed.

End Backend.

(** ** A node for the checks on sample data *)

Inductive SampleValue :=
| SampleLog (log : RpcLog)
| SampleHead (head : RpcHead)
| SampleText (text : string).

Definition fits_u64 (n : option Z) : bool :=
  match n with
  | Some n => bool_decide (uint 64 n)
  | None => true
  end.

#[local] Instance sample_json : Json := {|
  Value := SampleValue;
  value_get key v :=
    match v with
    | SampleHead h =>
        if String.eqb key "number" then Some (SampleText (hex_quantity (rh_number h)))
        else if String.eqb key "l1BlockNumber"
        then (fun n => SampleText (hex_quantity n)) <$> rh_l1_block_number h
        else None
    | _ => None
    end;
  as_str v := match v with SampleText t => Some t | _ => None end;
  value_is_u64 _ _ := true;
  value_to_string v := match v with SampleText t => t | _ => "value" end;
  from_value_head v :=
    match v with
    | SampleHead h => if bool_decide (uint 64 (rh_number h)) then Ok h else Err "not a quantity"
    | _ => Err "not a head"
    end;
  from_value_log v :=
    match v with
    | SampleLog l =>
        if fits_u64 (rl_block_number l) && fits_u64 (rl_transaction_index l)
           && fits_u64 (rl_log_index l) && (0 <=? rl_topics_capacity l)
        then Ok l else Err "not a quantity"
    | _ => Err "not a log"
    end
|}.

Lemma sample_json_laws_proof v :
  (forall head, from_value_head v = Ok head -> uint 64 (rh_number head))
  /\ forall log, from_value_log v = Ok log ->
    (forall n, rl_block_number log = Some n -> uint 64 n)
    /\ (forall n, rl_transaction_index log = Some n -> uint 64 n)
    /\ (forall n, rl_log_index log = Some n -> uint 64 n)
    /\ 0 <= rl_topics_capacity log.
Proof.
  split.
  - intros head. destruct v; cbn; try done. case_match eqn:E; [|done]. intros [= <-].
    exact (bool_decide_eq_true_1 _ E).
  - intros log. destruct v; cbn; try done. case_match eqn:E; [|done]. intros [= <-].
    apply andb_true_iff in E as [[[E1 E2]%andb_true_iff E3]%andb_true_iff E4].
    split_and!; [..|by apply Z.leb_le];
      intros n Hn; rewrite Hn in *; apply (bool_decide_eq_true_1 _); assumption.
Qed.

#[local] Instance sample_json_laws : JsonLaws :=
  {| json_head_u64 v := proj1 (sample_json_laws_proof v);
     json_log_u64 v log Hl := let '(conj a (conj b (conj c _))) := proj2 (sample_json_laws_proof v) log Hl in
                              conj a (conj b c);
     json_log_capacity v log Hl := let '(conj _ (conj _ (conj _ d))) :=
                                     proj2 (sample_json_laws_proof v) log Hl in d |}.

(** The network echoes the request; the decoders below answer it. *)
#[local] Instance sample_http : Http := {|
  to_vec id req :=
    match req with
    | EthGetLogs f =>
        match canonical_hex_u64 (lf_from_block f), canonical_hex_u64 (lf_to_block f) with
        | Ok from, Ok to => Ok [id; from; to]
        | _, _ => Err "bad range"
        end
    | _ => Ok [id]
    end;
  send n body := Ok {| content_length := Some (Z.of_nat (length body)); body_chunks := [Ok body] |}
|}.

Definition sample_rpc_log (block index : Z) : RpcLog :=
  {| rl_address := 7; rl_transaction_hash := Some 1; rl_topics := [5]; rl_topics_capacity := 1;
     rl_data := [1; 2]; rl_block_number := Some block; rl_block_hash := Some (100 + block);
     rl_transaction_index := Some 0; rl_log_index := Some index; rl_removed := false |}.

Definition sample_rpc_logs : list RpcLog :=
  [sample_rpc_log 1 0; sample_rpc_log 1 4; sample_rpc_log 3 2; sample_rpc_log 4 0].

Definition sample_history : list ContractLog :=
  omap (fun log => result_ok (normalize_rpc_log log 9 Finalized)) sample_rpc_logs.

(** Pages of three blocks or more are refused. *)
#[local] Instance sample_logs_answer : Deserialize (list Value) := fun body =>
  let respond result error :=
    Ok {| sr_jsonrpc := "2.0"; sr_id := SampleText "id"; sr_result := result; sr_error := error |} in
  match body with
  | [_; from; to] =>
      if 2 <? to - from + 1
      then respond None (Some (SampleText "query exceeds the maximum block range"))
      else respond (Some (SampleLog <$> base.filter (fun log =>
             from <= default 0 (rl_block_number log) <= to) sample_rpc_logs)) None
  | _ => Err "not a log request"
  end.

#[local] Instance sample_chain_answer : Deserialize Z := fun body =>
  Ok {| sr_jsonrpc := "2.0"; sr_id := SampleText "id"; sr_result := Some 9; sr_error := None |}.

Definition sample_client : RpcHttpClient :=
  {| endpoint := "http://localhost"; client_limits := RpcHttpLimits_default |}.
Definition sample_backfill : BackfillRequest :=
  {| from_block := 1; to_block := 4; filter := {| filter_address := 7; filter_topics := [5] |} |}.
Definition sample_session : Session :=
  {| request_id := 1; issued := 0; chain_verified := false; verifications_pending := 0 |}.

#[local] Existing Instance sample_layout.

(** Every page of the sample range, by cases. *)
Ltac sample_pages :=
  intros a b (? & _ & ? & ?) ? ?; cbn [fst snd from_block to_block sample_backfill] in *;
  assert (a = 1 \/ a = 2 \/ a = 3 \/ a = 4) as Ha by lia;
  assert (b = 1 \/ b = 2 \/ b = 3 \/ b = 4) as Hb by lia;
  repeat destruct Ha as [->|Ha]; subst; repeat destruct Hb as [->|Hb]; subst; try lia.

(** Run a sample request from a session left abstract. *)
Ltac run_request s1 :=
  unfold request; generalize (next_request true s1), (next_request false s1), (request_id s1), (issued s1);
  intros sent unsent id n.

Lemma sample_honest : honest sample_client sample_backfill 9 Finalized sample_history.
Proof.
  intros [a b] s1 values s2 Hp Hf Ht. revert Hp Hf Ht. generalize a b. clear a b.
  sample_pages; run_request s1; intros Hreq; vm_compute in Hreq;
    first [discriminate Hreq|injection Hreq as <- _];
    (match goal with |- Forall2 _ _ ?l => let k := eval vm_compute in l in change l with k end);
    repeat first [apply Forall2_nil_2|apply Forall2_cons_2; [vm_compute; reflexivity|]].
Qed.

Lemma sample_willing : willing sample_client sample_backfill sample_history.
Proof.
  intros [a b] s1 Hp Hf Ht. revert Hp Hf Ht. generalize a b. clear a b.
  sample_pages; run_request s1; (eexists _, _; split; [vm_compute; reflexivity|]);
    vm_compute; first [done|split; reflexivity].
Qed.

Lemma sample_in_order : in_order sample_history.
Proof. repeat (constructor; [|repeat constructor; right; vm_compute; reflexivity]). constructor. Qed.

Lemma sample_budget :
  within_budget sample_client (logs_in (1, 4) sample_history)
  /\ Forall (fun log => 0 <= log_topics_capacity log) sample_history.
Proof. split; [split|repeat constructor]; vm_compute; discriminate. Qed.

Lemma sample_limits_ok : limits_ok sample_client.
Proof. split_and!; vm_compute; reflexivity || discriminate. Qed.

(** ** Properties *)

Section Properties.
Context `{Json, Http, MemLayout, !Deserialize (list Value)}.

(** C16: The canonical backfill always returns, whatever the node answers: from any
    session, a call of [get_logs] sends at most [2 * blocks - 1] requests, an
    inverted range fails without a request, and a success consists of the logs of
    pages that cover every block of the range exactly once, each page answered by
    the node within this call and within the page limit, every log normalized for
    the requested contract, stably sorted by event order, and within the log and
    byte budgets. *)
Theorem backfill_terminates self req chain c s :
  uint 64 (from_block req) -> uint 64 (to_block req) -> limits_ok self ->
  exists r s', get_logs self req chain c s = Some (r, s')
    /\ Z.of_nat (issued s') - Z.of_nat (issued s)
         <= Z.max 0 (2 * (to_block req - from_block req) + 1)
    /\ (to_block req < from_block req -> exists e, r = Err e)
    /\ forall logs, r = Ok logs -> exists pages,
         ((pg_range <$> pages) ≫= blocks_of) = blocks_of (from_block req, to_block req)
         /\ Forall (fun page => page_ok (max_backfill_page_blocks (client_limits self)) (pg_range page)
                                /\ answered self req chain c s s' page) pages
         /\ sorted_copy order_ltb (fun log => event_order (log_cursor log)) (pages ≫= pg_logs) logs
         /\ within_budget self logs.
Proof.
  intros Hf Ht Hl. destruct (get_logs_spec self req chain c s Hf Ht Hl) as (r & s' & E & Hi & Hlt & Hok).
  exists r, s'. split_and!; [done..|]. intros logs Hr. destruct (Hok logs Hr) as (pages & Hb & Hp & -> & Hw).
  exists pages. split_and!; [done|done|by exact (sort_by_key_sorted order_ltb _ _)|done].
Qed.


(** C9: Against a node whose answered pages hold the chain's matching logs, a
    backfill that succeeds returns exactly the history of the requested range: no
    log missing, none twice, none foreign, in event order, however the ranges were
    paged and split. *)
Theorem backfill_exact self req chain c s history logs s' :
  uint 64 (from_block req) -> uint 64 (to_block req) -> limits_ok self ->
  in_order history -> honest self req chain c history ->
  get_logs self req chain c s = Some (Ok logs, s') ->
  logs = logs_in (from_block req, to_block req) history /\ within_budget self logs.
Proof.
  apply get_logs_exact.
Qed.

(** C24: Range limits do not stop a backfill: when every page is either answered with
    its logs or, if it has more than one block, refused with a range-limit error,
    and the range's logs fit the budgets, [get_logs] succeeds with the whole
    history of the range. *)
Theorem backfill_delivers self req chain c s history :
  uint 64 (from_block req) -> uint 64 (to_block req) -> from_block req <= to_block req ->
  limits_ok self -> in_order history ->
  honest self req chain c history -> willing self req history ->
  Forall (fun log => 0 <= log_topics_capacity log) history ->
  within_budget self (logs_in (from_block req, to_block req) history) ->
  exists s', get_logs self req chain c s
             = Some (Ok (logs_in (from_block req, to_block req) history), s').
Proof.
  intros Hf Ht Hle Hl Hs Hh Hw Hc Hb. pose proof Hl as (Hp & _ & _).
  destruct (get_logs_spec self req chain c s Hf Ht Hl) as (r & s1 & E & _ & _ & Hok).
  destruct (initial_log_ranges_spec _ _ _ Hf Ht Hle Hp) as (ranges & Er & Hr & Hpage).
  assert (exists out s2, get_logs self req chain c s = Some (Ok out, s2)) as (out & s2 & E2).
  { unfold get_logs. destruct (Z.ltb_spec (to_block req) (from_block req)); [lia|]. rewrite Er.
    pose proof (work_blocks _ _ Hpage) as Hwk. rewrite Hr in Hwk. unfold blocks_of in Hwk at 1.
    rewrite length_seqZ in Hwk. cbn [fst snd] in Hwk.
    destruct (get_logs_loop_progress self req chain c (Z.to_nat (2 * (to_block req - from_block req + 1)))
      ranges (from_block req) s history) as ([out bytes] & s2 & E2); try (done || lia).
    assert (logs_in (from_block req, from_block req - 1) history = []) as En.
    { apply list_filter_nil, Forall_forall. intros log _. cbn [fst snd]. lia. }
    rewrite En in E2. unfold mbind, proc_bind. change 0 with (batch_bytes []). rewrite E2. by eexists _, _. }
  rewrite E2 in E. injection E as <- <-. destruct (Hok _ eq_refl) as (pages & Hpb & Hpg & -> & _).
  exists s2. rewrite E2, (pages_logs self req chain c s s2 (from_block req) (to_block req) pages history Hs Hh ltac:(lia) ltac:(lia) Hpb Hpg).
  by rewrite (sort_by_key_id order_ltb _ _ (logs_in_order _ _ Hs)).
Qed.

(** A request succeeds exactly when its serialized body fits the request budget,
    the declared and the buffered response both fit the response budget, and the
    envelope is version 2.0, carries this request's id, no error, and a result;
    the value is then that result. Nothing over a budget is ever sent or kept. *)
Theorem request_ok_iff {R} `{!Deserialize R} self rq s (v : R) s' :
  0 <= max_response_bytes (client_limits self) ->
  request self rq s = Some (Ok v, s') <->
  s' = next_request true s
  /\ exists body response,
       to_vec (request_id s) rq = Ok body
       /\ Z.of_nat (length body) <= max_request_bytes (client_limits self)
       /\ send (issued s) body = Ok response
       /\ accepted (client_limits self) (request_id s) response v.
Proof.
  intros Hmax. unfold request.
  destruct (to_vec (request_id s) rq) as [body|e]; cbn [map_err].
  2: { split; [done|]. by intros (_ & b & r & ? & _). }
  destruct (Z.ltb_spec (max_request_bytes (client_limits self)) (Z.of_nat (length body))) as [Hlt|Hle].
  { split; [done|]. intros (_ & b & r & [= <-] & Hl & _). lia. }
  destruct (send (issued s) body) as [response|e] eqn:Es; bsimpl.
  2: { split; [done|]. intros (_ & b & r & [= <-] & _ & E & _). congruence. }
  setoid_rewrite <-(read_response_iff _ _ _ _ Hmax).
  split.
  - intros [= E <-]. split; [done|]. by exists body, response.
  - intros (-> & b & r & [= <-] & _ & E & Hr). rewrite Es in E. injection E as <-. by rewrite Hr.
Qed.

(** A quantity is accepted exactly when it is a JSON string holding the canonical
    hexadecimal numeral of a 64-bit number, in either case, and is then that
    number: no leading zeros, no bare prefix, no overflow. *)
Theorem hex_quantity_iff value field n :
  validate_canonical_hex_u64 value field = Ok n <->
  exists v text, value = Some v /\ as_str v = Some text /\ spells text n.
Proof.
  unfold validate_canonical_hex_u64. rewrite bind_ok. setoid_rewrite ok_or_ok.
  setoid_rewrite map_err_ok. setoid_rewrite canonical_hex_u64_iff.
  destruct value as [v|]; cbn [mbind option_bind]; naive_solver.
Qed.

(** C25: The chain check cannot be inherited from another endpoint: a subscription
    boundary ([verify_chain_id]) succeeds only on a fresh answer of the configured
    chain id, leaves the shared verification open after any failure, and restores
    the pending count; a canonical operation ([ensure_chain_id]) succeeds only on
    such an answer or on an idle verified session, and then without a request. *)
Theorem chain_check_sound `{!Deserialize Z} self s :
  0 <= verifications_pending s ->
  (exists r s', verify_chain_id self s = Some (r, s')
     /\ verifications_pending s' = verifications_pending s
     /\ (r = Ok tt -> answers (backend_rpc self) EthChainId (backend_chain_id self) s s')
     /\ (chain_verified s' = true <-> r = Ok tt /\ verifications_pending s = 0))
  /\ exists r s', ensure_chain_id self s = Some (r, s')
     /\ verifications_pending s' = verifications_pending s
     /\ (r = Ok tt ->
         (is_idle_and_verified s = true /\ s' = s)
         \/ answers (backend_rpc self) EthChainId (backend_chain_id self) s s')
     /\ (r <> Ok tt -> chain_verified s' = chain_verified s).
Proof.
  intros Hp. split; [by apply verify_chain_id_spec|].
  destruct (ensure_chain_id_spec self s) as (r & s' & E & _ & Hpe & Hok & Herr). by exists r, s'.
Qed.

(** C17: A checkpoint is accepted for recovery only when the node's canonical block at
    its height has the checkpoint's hash and, at that very hash, Core's ERC-1967
    slot holds the expected implementation and the implementation's runtime code
    has the expected hash. *)
Theorem checkpoint_accepted_canonical `{Keccak, !Deserialize Z, !Deserialize StorageWord,
    !Deserialize (list Z), !Deserialize Value} u64_from_str_ok self k s s' :
  validate_checkpoint u64_from_str_ok self k s = Some (Ok true, s') ->
  exists hash, checkpoint_confirmed self k hash s s'.
Proof. apply validate_checkpoint_ok. Qed.

End Properties.

Lemma backfill_terminates_witness :
  exists r s', get_logs sample_client sample_backfill 9 Finalized sample_session = Some (r, s')
    /\ Z.of_nat (issued s') <= 7.
Proof.
  destruct (backfill_terminates sample_client sample_backfill 9 Finalized sample_session) as (r & s' & E & Hi & _);
    [vm_compute; split; [discriminate|reflexivity]|vm_compute; split; [discriminate|reflexivity]
    |apply sample_limits_ok|].
  exists r, s'. split; [exact E|]. cbn in Hi |- *. lia.
Defined.

Lemma backfill_delivers_witness :
  exists s', get_logs sample_client sample_backfill 9 Finalized sample_session
             = Some (Ok sample_history, s').
Proof.
  exact (backfill_delivers sample_client sample_backfill 9 Finalized sample_session sample_history
           ltac:(vm_compute; split; [discriminate|reflexivity])
           ltac:(vm_compute; split; [discriminate|reflexivity])
           ltac:(vm_compute; discriminate) sample_limits_ok sample_in_order sample_honest sample_willing
           (proj2 sample_budget) (proj1 sample_budget)).
Defined.

Lemma backfill_exact_witness :
  exists logs s', get_logs sample_client sample_backfill 9 Finalized sample_session = Some (Ok logs, s')
    /\ logs = sample_history.
Proof.
  eexists _, _. split; [vm_compute; reflexivity|].
  refine (proj1 (backfill_exact sample_client sample_backfill 9 Finalized sample_session sample_history
           _ _ _ _ sample_limits_ok sample_in_order sample_honest _));
    [vm_compute; split; [discriminate|reflexivity]|vm_compute; split; [discriminate|reflexivity]
    |vm_compute; reflexivity].
Defined.

Lemma request_ok_iff_witness :
  request (R := Z) sample_client EthChainId sample_session
  = Some (Ok 9, next_request true sample_session).
Proof.
  apply (request_ok_iff (R := Z) sample_client EthChainId sample_session 9);
    [vm_compute; discriminate|]. split; [reflexivity|].
  eexists _, _. split_and!; [vm_compute; reflexivity|vm_compute; discriminate|vm_compute; reflexivity|].
  exists [[1]], (Build_StrictResponse sample_json Z "2.0" (SampleText "id") (Some 9) None).
  split; [intros n [= <-]; vm_compute; discriminate|].
  split; [reflexivity|]. split; [vm_compute; discriminate|]. repeat (split; [reflexivity|]). reflexivity.
Defined.

Definition sample_backend : RpcHttpBackend :=
  {| backend_rpc := sample_client; backend_network := Base; backend_chain_id := 9;
     snapshot_tag := "finalized" |}.

Lemma chain_check_sound_witness :
  exists s', verify_chain_id sample_backend sample_session = Some (Ok tt, s')
    /\ chain_verified s' = true.
Proof.
  destruct (chain_check_sound sample_backend sample_session ltac:(vm_compute; discriminate))
    as [(r & s' & E & _ & _ & Hv) _].
  assert (r = Ok tt) as -> by (vm_compute in E; by injection E as <- _).
  exists s'. split; [exact E|]. apply Hv. split; reflexivity.
Defined.

#[local] Existing Instance sample_keccak.
#[local] Instance sample_word_answer : Deserialize StorageWord := fun body =>
  Ok {| sr_jsonrpc := "2.0"; sr_id := SampleText "id"; sr_result := Some {| storage_word := 77 |};
        sr_error := None |}.
#[local] Instance sample_code_answer : Deserialize (list Z) := fun body =>
  Ok {| sr_jsonrpc := "2.0"; sr_id := SampleText "id"; sr_result := Some [96; 128]; sr_error := None |}.
#[local] Instance sample_head_answer : Deserialize Value := fun body =>
  Ok {| sr_jsonrpc := "2.0"; sr_id := SampleText "id"; sr_error := None;
        sr_result := Some (SampleHead {| rh_number := 5; rh_hash := Some 50; rh_parent_hash := Some 40;
                                         rh_l1_block_number := None |}) |}.

Definition sample_rpc_checkpoint : Checkpoint :=
  {| schema_version := SCHEMA_VERSION; math_compatibility_version := MATH_COMPATIBILITY_VERSION;
     expected_implementation := 77; expected_implementation_code_hash := keccak256 [96; 128];
     ck_chain_id := 9; ck_network := Base; ck_core := 7; deployment_block := 1;
     explicit_lane_assets := []; ck_cursor := cursor_block 9 5 (Some 50) Finalized;
     ck_state := QuoteState_default |}.

Lemma checkpoint_accepted_canonical_witness :
  exists s' hash, checkpoint_confirmed sample_backend sample_rpc_checkpoint hash sample_session s'.
Proof.
  eexists. apply (checkpoint_accepted_canonical (fun _ => true) sample_backend sample_rpc_checkpoint).
  vm_compute. reflexivity.
Defined.
