(* ===== verification/Fork.v ===== *)
(** * Fork window and fork resolution (crates/lunarbase-source-evm/src/fork.rs)

    The bounded window of canonical headers a durable worker keeps, and the
    walker that computes a correction plan after a discontinuity, looking blocks
    up through the chain-verified backend. A Rust assertion that fails is [None]. *)

From S2P Require Import Prelude Arithmetic State Model Rpc.

Record ForkWindowLimits := {
  max_blocks : Z;
  max_bytes : Z
}.

Definition ForkWindowLimits_default : ForkWindowLimits :=
  {| max_blocks := 4096; max_bytes := 2 * 1024 * 1024 |}.

Inductive ForkError :=
| InvalidIdentity (reason : string)
| Disconnected
| InvalidLimits
| BlockBudget
| ByteBudget
| AncestorOutsideWindow
| DepthExceeded
| FinalizedConflict
| StaleResolution
| ForkSource (e : SourceError).

#[export] Instance ForkError_eq_dec : EqDecision ForkError.
Proof. solve_decision. Defined.

Record ForkResolution := {
  res_common_ancestor : BlockRef;
  res_old_tip : BlockRef;
  res_new_tip : BlockRef;
  res_old_branch : list BlockRef;
  res_new_branch : list BlockRef
}.

Definition is_noop (r : ForkResolution) : bool :=
  match res_old_branch r, res_new_branch r with
  | [], [] => true
  | _, _ => false
  end.

Record CanonicalWindow := {
  blocks : list BlockRef;
  finalized : option BlockRef;
  limits : ForkWindowLimits;
  retained_bytes : Z
}.

Record PreparedHead := {
  expected_tip : option BlockRef;
  prepared_block : BlockRef;
  next_retained_bytes : Z;
  append : bool
}.

Record PreparedTipReplacement := {
  replaced_tip : BlockRef;
  replacement_block : BlockRef
}.

Section Window.
Context `{MemLayout}.

Definition block_charge : Z := size_of_BlockRef.

Definition window_new (lim : ForkWindowLimits) : result ForkError CanonicalWindow :=
  if (max_blocks lim =? 0) || (max_bytes lim <? block_charge) then Err InvalidLimits
  else Ok {| blocks := []; finalized := None; limits := lim; retained_bytes := 0 |}.

Definition window_len (w : CanonicalWindow) : Z := Z.of_nat (length (blocks w)).
Definition tip (w : CanonicalWindow) : option BlockRef := last (blocks w).

Definition set_blocks (bs : list BlockRef) (bytes : Z) (w : CanonicalWindow) : CanonicalWindow :=
  {| blocks := bs; finalized := finalized w; limits := limits w; retained_bytes := bytes |}.

Definition fork_required_hash (b : BlockRef) : result ForkError B256 :=
  ok_or (block_hash (br_cursor b)) (InvalidIdentity "block hash is absent").
Definition required_parent_hash (b : BlockRef) : result ForkError B256 :=
  ok_or (br_parent_hash b) (InvalidIdentity "parent hash is absent").

Definition validate_complete (b : BlockRef) : result ForkError unit :=
  _ ← fork_required_hash b;
  _ ← required_parent_hash b;
  if is_some (transaction_index (br_cursor b)) || is_some (log_index (br_cursor b))
  then Err (InvalidIdentity "block reference contains event coordinates")
  else Ok tt.

Definition validate_same_chain (l r : BlockRef) : result ForkError unit :=
  if negb (chain_id (br_cursor l) =? chain_id (br_cursor r))
  then Err (InvalidIdentity "chain id mismatch") else Ok tt.

Definition preflight (w : CanonicalWindow) (n : Z) : result ForkError unit :=
  if max_blocks (limits w) <? n then Err BlockBudget
  else if max_bytes (limits w) <? uint_saturating_mul USIZE n block_charge then Err ByteBudget
  else Ok tt.

(** The block directly continues [parent]. *)
Definition extends (parent block : BlockRef) : bool :=
  (block_number (br_cursor block) =? uint_saturating_add 64 (block_number (br_cursor parent)) 1)
  && bool_decide (br_parent_hash block = block_hash (br_cursor parent)).

Definition prepare_head (block : BlockRef) (w : CanonicalWindow) : result ForkError PreparedHead :=
  _ ← validate_complete block;
  let append_one :=
    _ ← preflight w (uint_saturating_add USIZE (window_len w) 1);
    Ok {| expected_tip := tip w; prepared_block := block;
          next_retained_bytes := uint_saturating_add USIZE (retained_bytes w) block_charge;
          append := true |} in
  match tip w with
  | Some t =>
      _ ← validate_same_chain t block;
      if bool_decide (t = block)
      then Ok {| expected_tip := Some t; prepared_block := block;
                 next_retained_bytes := retained_bytes w; append := false |}
      else if negb (extends t block) then Err Disconnected
      else append_one
  | None => append_one
  end.

Definition commit_head (p : PreparedHead) (w : CanonicalWindow) : option (bool * CanonicalWindow) :=
  if negb (bool_decide (tip w = expected_tip p)) then None
  else if negb (append p) then Some (false, w)
  else Some (true, set_blocks (blocks w ++ [prepared_block p]) (next_retained_bytes p) w).

Definition push_head (block : BlockRef) (w : CanonicalWindow)
    : option (result ForkError bool * CanonicalWindow) :=
  match prepare_head block w with
  | Err e => Some (Err e, w)
  | Ok prepared => '(appended, w') ← commit_head prepared w; Some (Ok appended, w')
  end.

Definition prepare_progressive_tip (block : BlockRef) (w : CanonicalWindow)
    : result ForkError PreparedTipReplacement :=
  _ ← validate_complete block;
  t ← ok_or (tip w) Disconnected;
  _ ← validate_same_chain t block;
  if match finalized w with
     | Some f => block_number (br_cursor block) <=? block_number (br_cursor f)
     | None => false
     end
  then Err FinalizedConflict
  else if negb (block_number (br_cursor t) =? block_number (br_cursor block))
          || negb (bool_decide (br_parent_hash t = br_parent_hash block))
  then Err Disconnected
  else Ok {| replaced_tip := t; replacement_block := block |}.

(** [*self.blocks.back_mut() = block] *)
Definition replace_back (bs : list BlockRef) (block : BlockRef) : list BlockRef :=
  take (length bs - 1)%nat bs ++ [block].

Definition commit_progressive_tip (p : PreparedTipReplacement) (w : CanonicalWindow)
    : option CanonicalWindow :=
  if negb (bool_decide (tip w = Some (replaced_tip p))) then None
  else Some (set_blocks (replace_back (blocks w) (replacement_block p)) (retained_bytes w) w).

Definition replace_progressive_tip (block : BlockRef) (w : CanonicalWindow)
    : option (result ForkError unit * CanonicalWindow) :=
  match prepare_progressive_tip block w with
  | Err e => Some (Err e, w)
  | Ok prepared => w' ← commit_progressive_tip prepared w; Some (Ok tt, w')
  end.

(** [iter().position(|block| block.hash == Some(hash))] *)
Fixpoint position_from (i : nat) (hash : B256) (bs : list BlockRef) : option nat :=
  match bs with
  | [] => None
  | b :: bs =>
      if bool_decide (block_hash (br_cursor b) = Some hash) then Some i
      else position_from (S i) hash bs
  end.
Definition position (hash : B256) (w : CanonicalWindow) : option nat :=
  position_from 0 hash (blocks w).

Definition advance_finalized (block : BlockRef) (w : CanonicalWindow)
    : result ForkError unit * CanonicalWindow :=
  match
    _ ← validate_complete block;
    if negb (bool_decide (commitment (br_cursor block) = Finalized))
    then Err (InvalidIdentity "finalized watermark lacks finalized commitment")
    else
    _ ← (match finalized w with
         | Some previous =>
             _ ← validate_same_chain previous block;
             if (block_number (br_cursor block) <? block_number (br_cursor previous))
                || ((block_number (br_cursor block) =? block_number (br_cursor previous))
                    && negb (bool_decide (block_hash (br_cursor block)
                                          = block_hash (br_cursor previous))))
             then Err FinalizedConflict else Ok tt
         | None => Ok tt
         end);
    hash ← fork_required_hash block;
    index ← ok_or (position hash w) AncestorOutsideWindow;
    retained ← ok_or (blocks w !! index) AncestorOutsideWindow;
    _ ← validate_same_chain retained block;
    if negb (block_number (br_cursor retained) =? block_number (br_cursor block))
       || negb (execution_block_number (br_cursor retained)
                =? execution_block_number (br_cursor block))
       || negb (bool_decide (br_parent_hash retained = br_parent_hash block))
    then Err (InvalidIdentity "finalized block does not match retained identity")
    else Ok index
  with
  | Err e => (Err e, w)
  | Ok index =>
      let bs := drop index (blocks w) in
      let bytes := uint_saturating_mul USIZE (Z.of_nat (length bs)) block_charge in
      (Ok tt, {| blocks := <[ 0%nat := block ]> bs; finalized := Some block; limits := limits w;
                 retained_bytes := bytes |})
  end.

(** The loop of [validate_replacement]: the last block reached. *)
Fixpoint walk_branch (parent : BlockRef) (branch : list BlockRef) : result ForkError BlockRef :=
  match branch with
  | [] => Ok parent
  | block :: branch =>
      _ ← validate_complete block;
      _ ← validate_same_chain parent block;
      if negb (extends parent block) then Err Disconnected else walk_branch block branch
  end.

Definition validate_replacement (r : ForkResolution) (w : CanonicalWindow) : result ForkError unit :=
  if match finalized w with
     | Some f => block_number (br_cursor (res_common_ancestor r)) <? block_number (br_cursor f)
     | None => false
     end
  then Err FinalizedConflict
  else
    parent ← walk_branch (res_common_ancestor r) (res_new_branch r);
    if negb (bool_decide (parent = res_new_tip r)) then Err StaleResolution else Ok tt.

Definition apply_resolution (r : ForkResolution) (w : CanonicalWindow)
    : result ForkError unit * CanonicalWindow :=
  match
    t ← ok_or (tip w) StaleResolution;
    if negb (bool_decide (t = res_old_tip r)) then Err StaleResolution
    else
    ancestor_hash ← fork_required_hash (res_common_ancestor r);
    ancestor_index ← ok_or (position ancestor_hash w) StaleResolution;
    if negb (bool_decide (blocks w !! ancestor_index = Some (res_common_ancestor r)))
       || negb (bool_decide (drop (S ancestor_index) (blocks w) = res_old_branch r))
    then Err StaleResolution
    else
    _ ← validate_replacement r w;
    let next_len :=
      uint_saturating_add USIZE (uint_saturating_add USIZE (Z.of_nat ancestor_index) 1)
        (Z.of_nat (length (res_new_branch r))) in
    _ ← preflight w next_len;
    Ok ancestor_index
  with
  | Err e => (Err e, w)
  | Ok ancestor_index =>
      let bs := take (S ancestor_index) (blocks w) ++ res_new_branch r in
      (Ok tt, set_blocks bs (uint_saturating_mul USIZE (Z.of_nat (length bs)) block_charge) w)
  end.

End Window.

(** ** Resolution *)

Record ForkResolver := {
  backend : RpcHttpBackend;
  max_depth : Z
}.

Definition fork_resolver_new (b : RpcHttpBackend) (depth : Z) : result ForkError ForkResolver :=
  if depth =? 0 then Err InvalidLimits else Ok {| backend := b; max_depth := depth |}.

Section Resolver.
Context `{Json, Http, !Deserialize Z, !Deserialize Value}.

(** [if !fits { return Err(error) }], inside a procedure. *)
Definition guard (error : ForkError) (holds : bool) : result ForkError unit :=
  if holds then Ok tt else Err error.

(** The walk of [resolve]: [descending] is the branch found so far, oldest block
    first (the Rust vector holds it newest first and is reversed at the end). The
    depth limit bounds the walk; out of fuel also stands for the index panic, and
    neither happens. *)
Fixpoint resolve_loop (r : ForkResolver) (w : CanonicalWindow) (fuel : nat)
    (child : BlockRef) (descending : list BlockRef)
    : proc Session ForkError (BlockRef * nat * list BlockRef) :=
  match fuel with
  | O => out_of_fuel
  | S fuel =>
      parent_hash ← attempt (required_parent_hash child);
      match position parent_hash w with
      | Some index =>
          match blocks w !! index with
          | None => out_of_fuel
          | Some ancestor =>
              if negb (block_number (br_cursor child)
                       =? uint_saturating_add 64 (block_number (br_cursor ancestor)) 1)
              then stop Disconnected
              else mret (ancestor, index, descending)
          end
      | None =>
          if max_depth r <=? Z.of_nat (length descending) then stop DepthExceeded
          else if match finalized w with
                  | Some f => block_number (br_cursor child)
                              <=? uint_saturating_add 64 (block_number (br_cursor f)) 1
                  | None => false
                  end
          then stop FinalizedConflict
          else if block_number (br_cursor child) =? 0 then stop AncestorOutsideWindow
          else
            parent ← map_perr ForkSource
                       (block_ref_by_hash (backend r) parent_hash (commitment (br_cursor child)));
            _ ← attempt (validate_complete parent);
            _ ← attempt (guard Disconnected
                  (uint_saturating_add 64 (block_number (br_cursor parent)) 1
                   =? block_number (br_cursor child)));
            resolve_loop r w fuel parent (parent :: descending)
      end
  end.

(** The checks before the walk. *)
Definition resolve_start (r : ForkResolver) (w : CanonicalWindow) (new_tip : BlockRef)
    : result ForkError BlockRef :=
  _ ← validate_complete new_tip;
  old_tip ← ok_or (tip w) AncestorOutsideWindow;
  _ ← validate_same_chain old_tip new_tip;
  if negb (chain_id (br_cursor new_tip) =? backend_chain_id (backend r))
  then Err (InvalidIdentity "resolver chain id mismatch")
  else Ok old_tip.

Definition resolve (r : ForkResolver) (w : CanonicalWindow) (new_tip : BlockRef)
    : proc Session ForkError ForkResolution :=
  old_tip ← attempt (resolve_start r w new_tip);
  if bool_decide (old_tip = new_tip)
  then mret {| res_common_ancestor := old_tip; res_old_tip := old_tip;
               res_new_tip := old_tip; res_old_branch := []; res_new_branch := [] |}
  else if match finalized w with
          | Some f =>
              (block_number (br_cursor new_tip) <=? block_number (br_cursor f))
              && negb (bool_decide (block_hash (br_cursor new_tip) = block_hash (br_cursor f)))
          | None => false
          end
  then stop FinalizedConflict
  else
    '(common_ancestor, ancestor_index, descending) ←
      resolve_loop r w (Z.to_nat (max_depth r)) new_tip [new_tip];
    let old_branch := drop (S ancestor_index) (blocks w) in
    if max_depth r <? Z.of_nat (length old_branch) then stop DepthExceeded
    else mret {| res_common_ancestor := common_ancestor; res_old_tip := old_tip;
                 res_new_tip := new_tip; res_old_branch := old_branch;
                 res_new_branch := descending |}.

(** The other lookups of a resolver. *)
Definition canonical_tip (u64_from_str_ok : string -> bool) (r : ForkResolver)
    : proc Session ForkError BlockRef :=
  map_perr ForkSource
    (snapshot_block_ref u64_from_str_ok (backend r) (backend_network (backend r))).

Definition resolver_block_ref_by_hash (r : ForkResolver) (hash : B256) (c : Commitment)
    : proc Session ForkError BlockRef :=
  map_perr ForkSource (block_ref_by_hash (backend r) hash c).

Definition finalized_tip (u64_from_str_ok : string -> bool) (r : ForkResolver)
    : proc Session ForkError BlockRef :=
  map_perr ForkSource (block_ref_at_tag u64_from_str_ok (backend r) "finalized" Finalized).

End Resolver.
