(* ===== verification/ForkFacts.v ===== *)
(** * Correctness of the fork window and of fork resolution

    The window invariant and its preservation, atomicity of failures, and the
    soundness and boundedness of [resolve] against an adversarial provider. *)

From S2P Require Import Prelude Text Arithmetic State Model Rpc RpcFacts Fork.

(** ** Linked headers *)

Definition height (b : BlockRef) : Z := block_number (br_cursor b).

(** [b] is the next block of the chain after [a]. *)
Definition link (a b : BlockRef) : Prop :=
  chain_id (br_cursor a) = chain_id (br_cursor b) /\ height b = height a + 1
  /\ br_parent_hash b = block_hash (br_cursor a).

Definition links (bs : list BlockRef) : Prop :=
  forall i a b, bs !! i = Some a -> bs !! S i = Some b -> link a b.

(** A block-level header with both hashes, below the last [u64] height. *)
Record complete (b : BlockRef) : Prop := {
  complete_hash : is_Some (block_hash (br_cursor b));
  complete_parent : is_Some (br_parent_hash b);
  complete_level : transaction_index (br_cursor b) = None /\ log_index (br_cursor b) = None;
  complete_height : 0 <= height b < U64_MAX
}.

(** The last [u64] height is never reached. *)
Definition height_fits (b : BlockRef) : Prop := 0 <= height b < U64_MAX.

Lemma links_nil : links [].
Proof. intros i a b H. by rewrite lookup_nil in H. Qed.

Lemma links_single a : links [a].
Proof. intros i x y _ H. by destruct i. Qed.

Lemma links_cons a b bs : links (a :: b :: bs) <-> link a b /\ links (b :: bs).
Proof.
  split.
  - intros H. split; [by apply (H 0%nat)|]. intros i x y Hx Hy. by apply (H (S i)).
  - intros [Hab H] [|i] x y Hx Hy; [by injection Hx as <-; injection Hy as <-|].
    by apply (H i).
Qed.

Lemma links_take n bs : links bs -> links (take n bs).
Proof.
  intros H i a b [Ha _]%lookup_take_Some [Hb _]%lookup_take_Some. by apply (H i).
Qed.

Lemma links_drop n bs : links bs -> links (drop n bs).
Proof.
  intros H i a b Ha Hb. rewrite lookup_drop in Ha, Hb. apply (H (n + i)%nat); [done|].
  by rewrite <-Nat.add_succ_r.
Qed.

Lemma links_app l k :
  links l -> links k -> (forall a b, last l = Some a -> head k = Some b -> link a b) -> links (l ++ k).
Proof.
  intros Hl Hk Hj i a b Ha Hb. apply lookup_app_Some in Ha as [Ha|[Hi Ha]].
  - apply lookup_app_Some in Hb as [Hb|[Hi Hb]]; [by apply (Hl i)|].
    apply lookup_lt_Some in Ha as Hlt. apply Hj.
    + rewrite last_lookup. by replace (pred (length l)) with i by lia.
    + replace (S i - length l)%nat with 0%nat in Hb by lia. by destruct k.
  - rewrite lookup_app_r in Hb by lia. apply (Hk (i - length l)%nat); [done|].
    by replace (S (i - length l)) with (S i - length l)%nat by lia.
Qed.

(** Replacing the first block by one with the same identity. *)
Lemma links_replace_head b bs a :
  links bs -> bs !! 0%nat = Some a -> chain_id (br_cursor a) = chain_id (br_cursor b) ->
  height a = height b -> block_hash (br_cursor a) = block_hash (br_cursor b) ->
  links (<[ 0%nat := b ]> bs).
Proof.
  intros H Ha Hc Hn Hh [|i] x y Hx Hy.
  - rewrite list_lookup_insert_ne in Hy by lia. destruct bs as [|b0 bs]; [done|].
    cbn in Hx, Ha. injection Hx as <-. injection Ha as ->.
    destruct (H 0%nat a y) as (Hc' & Hn' & Hp'); [done..|]. unfold link. split_and!; congruence.
  - rewrite list_lookup_insert_ne in Hx, Hy by lia. by apply (H (S i)).
Qed.

Lemma links_chain bs i a j b :
  links bs -> bs !! i = Some a -> bs !! j = Some b -> chain_id (br_cursor a) = chain_id (br_cursor b).
Proof.
  intros H Ha Hb.
  assert (forall i j a b, (i <= j)%nat -> bs !! i = Some a -> bs !! j = Some b ->
    chain_id (br_cursor a) = chain_id (br_cursor b)) as Hle.
  { clear - H. intros i j a b Hle Ha. revert b. induction Hle as [|j Hle IH]; intros b Hb; [congruence|].
    destruct (lookup_lt_is_Some_2 bs j) as [c Hc]; [apply lookup_lt_Some in Hb; lia|].
    rewrite (IH c Hc). by apply (H j). }
  destruct (Nat.le_ge_cases i j); [by eapply Hle|symmetry; by eapply Hle].
Qed.

Lemma links_height bs i a :
  links bs -> bs !! i = Some a -> forall b, bs !! 0%nat = Some b -> height a = height b + Z.of_nat i.
Proof.
  intros H. revert a. induction i as [|i IH]; intros a Ha b Hb; [rewrite Ha in Hb; injection Hb; intros ->; lia|].
  destruct (lookup_lt_is_Some_2 bs i) as [c Hc]; [apply lookup_lt_Some in Ha; lia|].
  destruct (H i c a Hc Ha) as (_ & -> & _). rewrite (IH c Hc b Hb). lia.
Qed.

(** ** The checks *)

Lemma fork_required_hash_ok b h : fork_required_hash b = Ok h <-> block_hash (br_cursor b) = Some h.
Proof. apply ok_or_ok. Qed.

Lemma validate_complete_ok b :
  validate_complete b = Ok tt <->
  is_Some (block_hash (br_cursor b)) /\ is_Some (br_parent_hash b)
  /\ transaction_index (br_cursor b) = None /\ log_index (br_cursor b) = None.
Proof.
  unfold validate_complete, fork_required_hash, required_parent_hash, is_Some.
  destruct (block_hash (br_cursor b)), (br_parent_hash b), (transaction_index (br_cursor b)),
    (log_index (br_cursor b)); cbn; naive_solver.
Qed.

Lemma validate_complete_complete b : validate_complete b = Ok tt -> height_fits b -> complete b.
Proof. intros (? & ? & ?)%validate_complete_ok ?. by split. Qed.

Lemma complete_validate b : complete b -> validate_complete b = Ok tt.
Proof. intros [? ? [? ?] _]. by apply validate_complete_ok. Qed.

Lemma same_chain_ok a b :
  validate_same_chain a b = Ok tt <-> chain_id (br_cursor a) = chain_id (br_cursor b).
Proof. unfold validate_same_chain. destruct (Z.eqb_spec (chain_id (br_cursor a)) (chain_id (br_cursor b))); naive_solver. Qed.

Lemma extends_link a b :
  height_fits a -> chain_id (br_cursor a) = chain_id (br_cursor b) -> extends a b = true <-> link a b.
Proof.
  intros [Ha Ha'] Hc. unfold extends, link, height, uint_saturating_add in *. rewrite Z.min_l by lia.
  rewrite andb_true_iff, Z.eqb_eq, bool_decide_eq_true. tauto.
Qed.

Lemma position_from_Some i h bs k :
  position_from i h bs = Some k ->
  exists b, bs !! (k - i)%nat = Some b /\ block_hash (br_cursor b) = Some h /\ (i <= k)%nat.
Proof.
  revert i. induction bs as [|b bs IH]; intros i; [done|]. cbn. case_bool_decide.
  - intros [= ->]. exists b. by rewrite Nat.sub_diag.
  - intros (b' & Hb & Hh & Hle)%IH. exists b'. split_and!; [|done|lia].
    by replace (k - i)%nat with (S (k - S i)) by lia.
Qed.

Lemma position_Some h w k :
  position h w = Some k -> exists b, blocks w !! k = Some b /\ block_hash (br_cursor b) = Some h.
Proof. intros (b & Hb & Hh & _)%position_from_Some. rewrite Nat.sub_0_r in Hb. eauto. Qed.

Section Facts.
Context `{MemLayout}.

Lemma preflight_ok w n :
  preflight w n = Ok tt <->
  n <= max_blocks (limits w) /\ uint_saturating_mul USIZE n block_charge <= max_bytes (limits w).
Proof.
  unfold preflight. destruct (Z.ltb_spec (max_blocks (limits w)) n); [split; [done|lia]|].
  destruct (Z.ltb_spec (max_bytes (limits w)) (uint_saturating_mul USIZE n block_charge));
    (split; [done || lia|done || lia]).
Qed.

(** The charge of [n] headers. *)
Definition charge_of (n : nat) : Z := uint_saturating_mul USIZE (Z.of_nat n) block_charge.

Lemma charge_of_S n : uint_saturating_add USIZE (charge_of n) block_charge = charge_of (S n).
Proof.
  unfold charge_of, uint_saturating_add, uint_saturating_mul, uint_max, block_charge.
  destruct sizes_nonneg as (_ & ? & _). nia.
Qed.

Lemma charge_of_mono n m : (n <= m)%nat -> charge_of n <= charge_of m.
Proof.
  intros Hn. unfold charge_of, uint_saturating_mul, block_charge.
  destruct sizes_nonneg as (_ & ? & _). nia.
Qed.

(** The invariant of the window: one linked chain of complete headers, starting
    at the finalized block when there is one, within both budgets. *)
Record window_ok (w : CanonicalWindow) : Prop := {
  window_links : links (blocks w);
  window_complete : Forall complete (blocks w);
  window_finalized : forall f, finalized w = Some f -> head (blocks w) = Some f;
  window_charge : retained_bytes w = charge_of (length (blocks w));
  window_count : Z.of_nat (length (blocks w)) <= max_blocks (limits w);
  window_bytes : charge_of (length (blocks w)) <= max_bytes (limits w);
  window_limit : max_blocks (limits w) < U64_MAX
}.

Lemma window_tip_complete w t : window_ok w -> tip w = Some t -> complete t.
Proof.
  intros Hok Ht. unfold tip in Ht. rewrite last_lookup in Ht.
  eapply Forall_lookup_1; [apply Hok|done].
Qed.

Lemma window_new_ok lim w :
  0 <= max_blocks lim < U64_MAX -> 0 <= max_bytes lim -> window_new lim = Ok w -> window_ok w.
Proof.
  intros Hb Hm. unfold window_new. case_match; [done|]. intros [= <-].
  split; cbn; [apply links_nil|constructor|done|done|lia|done|lia].
Qed.

(** Appending one block. *)
Lemma append_ok w b :
  window_ok w -> complete b -> (forall t, tip w = Some t -> link t b) ->
  (finalized w = None \/ blocks w <> []) ->
  preflight w (uint_saturating_add USIZE (window_len w) 1) = Ok tt ->
  window_ok (set_blocks (blocks w ++ [b]) (uint_saturating_add USIZE (retained_bytes w) block_charge) w).
Proof.
  intros [Hl Hc Hf Hr Hn Hb Hlim] Hcb Hlink Hfin Hpre.
  assert (uint_saturating_add USIZE (window_len w) 1 = Z.of_nat (S (length (blocks w)))) as E.
  { unfold window_len, uint_saturating_add, uint_max in *. rewrite Z.min_l by lia. lia. }
  rewrite E in Hpre. apply preflight_ok in Hpre as [Hp1 Hp2].
  split; cbn [set_blocks blocks finalized limits retained_bytes].
  - apply links_app; [done|apply links_single|]. intros x y Hx [= <-]. by apply Hlink.
  - apply Forall_app_2; [done|by constructor].
  - intros f Hff. destruct (blocks w) as [|b0 bs] eqn:E0; [|by apply Hf in Hff].
    destruct Hfin as [Hfin|]; [congruence|done].
  - rewrite Hr, charge_of_S, length_app, Nat.add_comm. done.
  - rewrite length_app, Nat.add_comm. cbn. lia.
  - rewrite length_app, Nat.add_comm. exact Hp2.
  - done.
Qed.

Lemma finalized_nonempty w : window_ok w -> finalized w = None \/ blocks w <> [].
Proof.
  intros Hok. destruct (finalized w) as [f|] eqn:E; [|auto]. right.
  apply (window_finalized _ Hok) in E. by destruct (blocks w).
Qed.

(** A prepared head, against the window it was prepared on. *)
Lemma prepare_head_ok b w p :
  window_ok w -> height_fits b -> prepare_head b w = Ok p ->
  expected_tip p = tip w /\ prepared_block p = b /\
  if append p
  then (forall t, tip w = Some t -> link t b)
       /\ window_ok (set_blocks (blocks w ++ [b]) (next_retained_bytes p) w)
  else tip w = Some b.
Proof.
  intros Hok Hb. unfold prepare_head. rewrite unit_bind_ok. intros [Hc Hp].
  apply (validate_complete_complete _) in Hc; [|done].
  pose proof (finalized_nonempty w Hok) as Hfin.
  destruct (tip w) as [t|] eqn:Ht.
  - apply unit_bind_ok in Hp as [Hs%same_chain_ok Hp].
    case_bool_decide as E; [injection Hp as <-; cbn; by subst|].
    destruct (extends t b) eqn:Hext; [|done]. cbn [negb] in Hp.
    apply extends_link in Hext; [|by eapply window_tip_complete|done].
    apply unit_bind_ok in Hp as [Hpre [= <-]]. cbn. split_and!; [done..| |].
    + by intros ? [= <-].
    + apply append_ok; try done. rewrite Ht. by intros ? [= <-].
  - apply unit_bind_ok in Hp as [Hpre [= <-]]. cbn. split_and!; [done..| |].
    + done.
    + apply append_ok; try done. by rewrite Ht.
Qed.

Lemma push_head_spec b w :
  window_ok w -> height_fits b ->
  exists res w', push_head b w = Some (res, w') /\ window_ok w' /\
    match res with
    | Err _ => w' = w
    | Ok false => w' = w /\ tip w = Some b
    | Ok true => blocks w' = blocks w ++ [b] /\ (forall t, tip w = Some t -> link t b)
    end.
Proof.
  intros Hok Hb. unfold push_head. destruct (prepare_head b w) as [p|e] eqn:Hp; [|by eexists _, w].
  apply prepare_head_ok in Hp as (He & Hpb & Happ); [|done..].
  unfold commit_head. rewrite He, bool_decide_eq_true_2 by done. cbn [negb].
  destruct (append p); cbn.
  - destruct Happ as [Hl Hw]. rewrite Hpb. by eexists (Ok true), _.
  - by exists (Ok false), w.
Qed.

(** Progressive tips. *)
Lemma replace_back_eq bs t b :
  last bs = Some t -> exists pre, bs = pre ++ [t] /\ replace_back bs b = pre ++ [b].
Proof.
  intros Ht. apply last_Some in Ht as [pre ->]. exists pre. split; [done|].
  unfold replace_back. rewrite length_app. cbn. rewrite Nat.add_sub.
  by rewrite take_app_length.
Qed.

Lemma links_replace_last pre t b :
  links (pre ++ [t]) -> chain_id (br_cursor t) = chain_id (br_cursor b) -> height t = height b ->
  br_parent_hash t = br_parent_hash b -> links (pre ++ [b]).
Proof.
  intros Hl Hc Hn Hp. apply links_app; [|apply links_single|].
  - apply (links_take (length pre)) in Hl. by rewrite take_app_length in Hl.
  - intros a y Ha [= <-]. apply last_Some in Ha as [pre' ->].
    destruct (Hl (length pre') a t) as (? & ? & ?).
    + rewrite <-app_assoc. by apply list_lookup_middle.
    + rewrite lookup_app_r by (rewrite length_app; cbn; lia).
      rewrite length_app. cbn. by replace (S (length pre') - (length pre' + 1))%nat with 0%nat by lia.
    + unfold link. split_and!; congruence.
Qed.

Lemma replace_progressive_tip_spec b w :
  window_ok w -> height_fits b ->
  exists res w', replace_progressive_tip b w = Some (res, w') /\ window_ok w' /\
    match res with
    | Err _ => w' = w
    | Ok _ => exists pre t, blocks w = pre ++ [t] /\ blocks w' = pre ++ [b]
                /\ height t = height b /\ finalized w' = finalized w
    end.
Proof.
  intros Hok Hb. unfold replace_progressive_tip.
  destruct (prepare_progressive_tip b w) as [p|e] eqn:Hp; [|by eexists _, w].
  unfold prepare_progressive_tip in Hp. apply unit_bind_ok in Hp as [Hc Hp].
  apply bind_ok in Hp as (t & Ht%ok_or_ok & Hp). apply unit_bind_ok in Hp as [Hs%same_chain_ok Hp].
  destruct (match finalized w with Some _ => _ | None => _ end) eqn:Hf; [done|].
  destruct (Z.eqb_spec (block_number (br_cursor t)) (block_number (br_cursor b))) as [Hn|]; [|done].
  case_bool_decide as Hph; [|done]. injection Hp as <-.
  unfold commit_progressive_tip. cbn [replaced_tip replacement_block].
  rewrite bool_decide_eq_true_2 by done. cbn.
  destruct (replace_back_eq (blocks w) t b Ht) as (pre & E & ->).
  eexists _, _. split; [done|]. split; [|by exists pre, t].
  destruct Hok as [Hl Hcs Hfin Hr Hcnt Hby Hlim]. rewrite E in *.
  split; cbn [set_blocks blocks finalized limits retained_bytes]; try done.
  - by apply (links_replace_last pre t).
  - apply Forall_app in Hcs as [Hcs _]. apply Forall_app_2; [done|].
    constructor; [by apply validate_complete_complete|constructor].
  - intros f Hff. rewrite Hff in Hf. apply Z.leb_gt in Hf. apply Hfin in Hff.
    destruct pre as [|b0 pre]; [|done]. cbn in Hff. injection Hff as ->. lia.
  - rewrite length_app in *. done.
  - rewrite length_app in *. done.
  - rewrite length_app in *. done.
Qed.

(** Finality. *)
Lemma drop_head_lookup (bs : list BlockRef) i : drop i bs !! 0%nat = bs !! i.
Proof. rewrite lookup_drop. by rewrite Nat.add_0_r. Qed.

Definition advance_checks (b : BlockRef) (w : CanonicalWindow) (i : nat) (r : BlockRef) : Prop :=
  validate_complete b = Ok tt /\ commitment (br_cursor b) = Finalized /\ blocks w !! i = Some r
  /\ chain_id (br_cursor r) = chain_id (br_cursor b) /\ height r = height b
  /\ block_hash (br_cursor r) = block_hash (br_cursor b)
  /\ execution_block_number (br_cursor r) = execution_block_number (br_cursor b)
  /\ br_parent_hash r = br_parent_hash b
  /\ forall f, finalized w = Some f ->
       chain_id (br_cursor f) = chain_id (br_cursor b) /\ height f <= height b
       /\ (height b = height f -> block_hash (br_cursor b) = block_hash (br_cursor f)).

Lemma advance_finalized_inv b w res w' :
  advance_finalized b w = (res, w') ->
  (exists e, res = Err e /\ w' = w) \/
  (res = Ok tt /\ exists i r, advance_checks b w i r /\
     w' = {| blocks := <[ 0%nat := b ]> (drop i (blocks w)); finalized := Some b; limits := limits w;
             retained_bytes := charge_of (length (drop i (blocks w))) |}).
Proof.
  unfold advance_finalized. intros Hadv.
  match type of Hadv with
  | (match ?m with Ok _ => _ | Err _ => _ end) = _ => destruct m as [i|e] eqn:Hm
  end; injection Hadv as <- <-; [|left; eauto]. right. split; [done|].
  apply unit_bind_ok in Hm as [Hc Hm]. case_bool_decide as Hfin; [|done]. cbn [negb] in Hm.
  apply unit_bind_ok in Hm as [Hprev Hm]. apply bind_ok in Hm as (h & Hh%fork_required_hash_ok & Hm).
  apply bind_ok in Hm as (k & Hk%ok_or_ok & Hm). apply bind_ok in Hm as (r & Hr%ok_or_ok & Hm).
  apply unit_bind_ok in Hm as [Hs%same_chain_ok Hm].
  destruct (Z.eqb_spec (block_number (br_cursor r)) (block_number (br_cursor b))); [|done].
  destruct (Z.eqb_spec (execution_block_number (br_cursor r)) (execution_block_number (br_cursor b)));
    [|done].
  case_bool_decide as Hp; [|done]. injection Hm as <-. exists k, r. split; [|done].
  apply position_Some in Hk as (r' & Hr' & Hh'). rewrite Hr in Hr'. injection Hr' as <-.
  split_and!; try done; [congruence|]. intros f Hf. rewrite Hf in Hprev.
  apply unit_bind_ok in Hprev as [Hcf%same_chain_ok Hprev]. unfold height.
  destruct (Z.ltb_spec (block_number (br_cursor b)) (block_number (br_cursor f))); [done|].
  destruct (Z.eqb_spec (block_number (br_cursor b)) (block_number (br_cursor f))); cbn in Hprev.
  - case_bool_decide; [|done]. split_and!; [done|lia|done].
  - split_and!; [done|lia|lia].
Qed.

Lemma advance_finalized_ok b w :
  window_ok w -> window_ok (advance_finalized b w).2.
Proof.
  intros Hok. destruct (advance_finalized b w) as [res w'] eqn:E. cbn.
  apply advance_finalized_inv in E as [(e & _ & ->)|(_ & i & r & Hchk & ->)]; [done|].
  destruct Hchk as (Hc & _ & Hr & Hchain & Hn & Hh & _ & _ & _).
  destruct Hok as [Hl Hcs Hfin Hrb Hcnt Hby Hlim].
  assert (length (drop i (blocks w)) <= length (blocks w))%nat by (rewrite length_drop; lia).
  assert (drop i (blocks w) !! 0%nat = Some r) as Hr0 by (by rewrite drop_head_lookup).
  split; cbn [blocks finalized limits retained_bytes]; rewrite ?length_insert.
  - by apply (links_replace_head b _ r); [apply links_drop|..].
  - apply Forall_insert; [by apply Forall_drop|]. apply validate_complete_complete; [done|].
    unfold height_fits. rewrite <-Hn. eapply complete_height, Forall_lookup_1; [exact Hcs|done].
  - intros f [= <-]. by destruct (drop i (blocks w)).
  - done.
  - lia.
  - etrans; [by apply charge_of_mono|done].
  - done.
Qed.

(** Walking a replacement branch. *)
Lemma walk_branch_ok p branch t :
  height_fits p -> Forall height_fits branch ->
  walk_branch p branch = Ok t <->
  links (p :: branch) /\ Forall (fun b => validate_complete b = Ok tt) branch
  /\ last (p :: branch) = Some t.
Proof.
  intros Hp Hb. revert p Hp. induction Hb as [|b branch Hb Hbs IH]; intros p Hp; cbn [walk_branch].
  - split; [intros [= ->]; split_and!; [apply links_single|constructor|done]|].
    intros (_ & _ & [= ->]). done.
  - rewrite !unit_bind_ok, links_cons, Forall_cons, last_cons_cons, same_chain_ok.
    destruct (decide (chain_id (br_cursor p) = chain_id (br_cursor b))) as [Hc|Hc].
    + pose proof (extends_link p b Hp Hc) as He. destruct (extends p b); cbn [negb].
      * rewrite IH by done. naive_solver.
      * split; [naive_solver|]. intros ((Hl & _) & _). by apply He in Hl.
    + split; [naive_solver|]. intros (((Hl & _) & _) & _). done.
Qed.

(** A plan that fits the window: its parts are where it says they are. *)
Record plan_ok (r : ForkResolution) (w : CanonicalWindow) (i : nat) : Prop := {
  plan_tip : tip w = Some (res_old_tip r);
  plan_ancestor : blocks w !! i = Some (res_common_ancestor r);
  plan_old : drop (S i) (blocks w) = res_old_branch r;
  plan_new : links (res_common_ancestor r :: res_new_branch r);
  plan_complete : Forall (fun b => validate_complete b = Ok tt) (res_new_branch r);
  plan_new_tip : last (res_common_ancestor r :: res_new_branch r) = Some (res_new_tip r)
}.

Lemma apply_resolution_inv r w res w' :
  window_ok w -> Forall height_fits (res_new_branch r) ->
  apply_resolution r w = (res, w') ->
  (exists e, res = Err e /\ w' = w) \/
  (res = Ok tt /\ exists i, plan_ok r w i
     /\ preflight w (Z.of_nat (length (take (S i) (blocks w) ++ res_new_branch r))) = Ok tt
     /\ w' = set_blocks (take (S i) (blocks w) ++ res_new_branch r)
               (charge_of (length (take (S i) (blocks w) ++ res_new_branch r))) w).
Proof.
  intros Hok Hfit. unfold apply_resolution. intros Happ.
  match type of Happ with
  | (match ?m with Ok _ => _ | Err _ => _ end) = _ => destruct m as [i|e] eqn:Hm
  end; injection Happ as <- <-; [|left; eauto]. right. split; [done|]. exists i.
  apply bind_ok in Hm as (t & Ht%ok_or_ok & Hm). case_bool_decide as Et; [|done]. cbn [negb] in Hm.
  apply bind_ok in Hm as (h & _ & Hm). apply bind_ok in Hm as (k & _ & Hm).
  case_bool_decide as Ha; [|done]. case_bool_decide as Ho; [|done]. cbn [negb orb] in Hm.
  apply unit_bind_ok in Hm as [Hv Hm]. apply unit_bind_ok in Hm as [Hpre [= ->]].
  unfold validate_replacement in Hv. case_match; [done|].
  apply bind_ok in Hv as (p & Hw & Hv). case_bool_decide as Ep; [|done]. subst p t.
  apply walk_branch_ok in Hw as (Hl & Hc & Hlast); [|eapply complete_height, Forall_lookup_1; [apply Hok|done]|done].
  split; [by split|]. split; [|done].
  assert (length (take (S i) (blocks w)) = S i) as El.
  { rewrite length_take. apply lookup_lt_Some in Ha. lia. }
  rewrite length_app, El. revert Hpre. unfold uint_saturating_add, uint_max.
  destruct Hok as [_ _ _ _ Hcnt _ Hlim]. unfold uint_max in Hlim. apply lookup_lt_Some in Ha.
  rewrite !preflight_ok. rewrite (Z.min_l (Z.of_nat i + 1)) by lia. intros [Hp1 Hp2].
  rewrite Z.min_l in Hp1, Hp2 by lia.
  replace (Z.of_nat (S i + length (res_new_branch r)))
    with (Z.of_nat i + 1 + Z.of_nat (length (res_new_branch r))) by lia. done.
Qed.

Lemma last_take_S {A} (l : list A) i x : l !! i = Some x -> last (take (S i) l) = Some x.
Proof. intros Hx. rewrite (take_S_r _ _ _ Hx). by rewrite last_snoc. Qed.

Lemma apply_resolution_ok r w :
  window_ok w -> Forall height_fits (res_new_branch r) -> window_ok (apply_resolution r w).2.
Proof.
  intros Hok Hfit. destruct (apply_resolution r w) as [res w'] eqn:E. cbn.
  apply apply_resolution_inv in E; [|done..].
  destruct E as [(e & _ & ->)|(_ & i & [Ht Ha Ho Hl Hc Hn] & Hpre & ->)]; [done|].
  apply preflight_ok in Hpre as [Hp1 Hp2]. pose proof Hok as [Hlw Hcs Hfin Hrb Hcnt Hby Hlim].
  split; cbn [set_blocks blocks finalized limits retained_bytes]; try done.
  - apply links_app; [by apply links_take| |].
    + apply (links_drop 1) in Hl. done.
    + rewrite (last_take_S _ _ _ Ha). intros a b [= <-] Hb.
      apply (Hl 0%nat); [done|]. by destruct (res_new_branch r).
  - apply Forall_app_2; [by apply Forall_take|].
    rewrite Forall_forall in *. intros b Hb. apply validate_complete_complete; auto.
  - intros f Hf. apply Hfin in Hf. by destruct (blocks w).
Qed.

End Facts.

(** ** Resolution against any node *)

Section Resolve.
Context `{MemLayout, Json, Http, !JsonLaws, !Deserialize Z, !Deserialize Value}.

(** The branch under construction: linked and complete down from the new tip. *)
Record branch_inv (chain : Z) (new_tip : BlockRef) (child : BlockRef) (desc : list BlockRef) : Prop := {
  inv_child : head desc = Some child;
  inv_links : links desc;
  inv_complete : Forall complete desc;
  inv_last : last desc = Some new_tip;
  inv_chain : chain_id (br_cursor child) = chain
}.

Lemma branch_inv_push chain new_tip child parent desc :
  branch_inv chain new_tip child desc -> complete parent -> link parent child ->
  branch_inv chain new_tip parent (parent :: desc).
Proof.
  intros [Hh Hl Hc Hn Hch] Hp Hlink. destruct desc as [|d desc]; [done|]. injection Hh as ->.
  split; [done|by apply links_cons|by constructor|by rewrite last_cons_cons|].
  destruct Hlink as (-> & _). done.
Qed.

Definition found (r : ForkResolver) (w : CanonicalWindow) (new_tip anc : BlockRef) (i : nat)
    (desc : list BlockRef) : Prop :=
  blocks w !! i = Some anc /\ (exists h, block_hash (br_cursor anc) = Some h /\ position h w = Some i)
  /\ links (anc :: desc) /\ Forall complete desc /\ last desc = Some new_tip /\ desc <> []
  /\ Z.of_nat (length desc) <= max_depth r.

(** What a lookup costs: a fetch, and a chain check unless the session is verified. *)
Definition lookup_cost (s : Session) : nat := if is_idle_and_verified s then 1 else 2.

Lemma resolve_loop_spec r w new_tip fuel child desc s :
  window_ok w ->
  Forall (fun b => chain_id (br_cursor b) = backend_chain_id (backend r)) (blocks w) ->
  branch_inv (backend_chain_id (backend r)) new_tip child desc ->
  Z.of_nat (fuel + length desc) = max_depth r + 1 -> Z.of_nat (length desc) <= max_depth r ->
  exists o s', resolve_loop r w fuel child desc s = Some (o, s')
    /\ (issued s' <= issued s + lookup_cost s * (fuel - 1))%nat
    /\ forall anc i desc', o = Ok (anc, i, desc') -> found r w new_tip anc i desc'.
Proof.
  intros Hok Hchain. revert child desc s.
  induction fuel as [|fuel IH]; intros child desc s Hinv Hfuel Hlen; [lia|].
  cbn [resolve_loop]. pose proof Hinv as [Hh Hl Hc Hn Hch].
  assert (complete child) as Hcc.
  { destruct desc; [done|]. injection Hh as ->. by apply Forall_cons in Hc as [? _]. }
  destruct (complete_parent _ Hcc) as [ph Hph].
  unfold mbind at 1, proc_bind at 1, attempt, call, lift, required_parent_hash. rewrite Hph. cbn [ok_or].
  destruct (position ph w) as [i|] eqn:Hpos.
  { destruct (position_Some _ _ _ Hpos) as (anc & Ha & Hah). rewrite Ha.
    destruct (Z.eqb_spec (block_number (br_cursor child))
      (uint_saturating_add 64 (block_number (br_cursor anc)) 1)) as [Hnum|]; cbn [negb];
      [|eexists _, _; split; [done|]; by split; [lia|]].
    eexists _, _. split; [done|]. split; [lia|].
    intros ? ? ? [= <- <- <-]. split; [done|]. split; [by exists ph|].
    destruct desc as [|d desc]; [done|]. injection Hh as ->. split_and!; try done.
    apply links_cons. split; [|done].
    pose proof (Forall_lookup_1 _ _ _ _ Hchain Ha) as Hac. cbn in Hac.
    assert (complete anc) as [_ _ _ [Hl1 Hl2]] by (eapply Forall_lookup_1; [apply Hok|done]).
    unfold link, height, uint_saturating_add in *. rewrite Z.min_l in Hnum by lia.
    split_and!; congruence. }
  destruct (Z.leb_spec (max_depth r) (Z.of_nat (length desc))) as [|Hshort];
    [eexists _, _; split; [done|]; by split; [lia|]|].
  destruct (match finalized w with Some _ => _ | None => _ end);
    [eexists _, _; split; [done|]; by split; [lia|]|].
  destruct (_ =? 0); [eexists _, _; split; [done|]; by split; [lia|]|].
  destruct fuel as [|fuel]; [lia|].
  destruct (block_ref_by_hash_spec (backend r) ph (commitment (br_cursor child)) s)
    as (o & s1 & E & _ & Hcost & Hidle & Hblk).
  unfold mbind at 1, proc_bind at 1, map_perr. rewrite E. cbn [mbind option_bind]. clear E.
  assert (issued s1 <= issued s + lookup_cost s)%nat as Hc1 by exact Hcost.
  assert (lookup_cost s1 <= lookup_cost s)%nat as Hc2.
  { unfold lookup_cost. destruct (is_idle_and_verified s); [rewrite Hidle by done; lia|].
    case_match; lia. }
  destruct o as [parent|e]; cbn [map_err]; [|eexists _, _; split; [done|]; split; [nia|done]].
  destruct (Hblk parent eq_refl) as (Hhash & Hpc & _ & Hpt & Hpl & Hlo & Hhi).
  unfold mbind at 1, proc_bind at 1.
  destruct (validate_complete parent) as [[]|e] eqn:Hcomp;
    [|eexists _, _; split; [done|]; split; [nia|done]].
  unfold mbind at 1, proc_bind at 1, guard.
  destruct (Z.eqb_spec (uint_saturating_add 64 (block_number (br_cursor parent)) 1)
             (block_number (br_cursor child))) as [Hnum|];
    [|eexists _, _; split; [done|]; split; [nia|done]].
  destruct Hcc as [_ _ _ [Hb1 Hb2]]. unfold height, uint_saturating_add, uint_max in *.
  destruct (IH parent (parent :: desc) s1) as (o & s' & E & Hi & Hfound); [|cbn [length]; lia..|].
  - apply (branch_inv_push _ _ child); [done| |].
    + apply validate_complete_complete; [done|]. unfold height_fits, height, uint_max. lia.
    + unfold link, height. split_and!; [congruence|lia|congruence].
  - exists o, s'. split; [exact E|]. split; [nia|done].
Qed.

Lemma window_chain w t b :
  window_ok w -> tip w = Some t -> b ∈ blocks w -> chain_id (br_cursor b) = chain_id (br_cursor t).
Proof.
  intros Hok Ht [i Hi]%list_elem_of_lookup. unfold tip in Ht. rewrite last_lookup in Ht.
  eapply links_chain; [apply Hok|done..].
Qed.

(** The plan a resolution returns. *)
Record resolution_ok (r : ForkResolver) (w : CanonicalWindow) (new_tip : BlockRef)
    (p : ForkResolution) (i : nat) : Prop := {
  resolved_plan : plan_ok p w i;
  resolved_position : exists h, block_hash (br_cursor (res_common_ancestor p)) = Some h /\ position h w = Some i;
  resolved_tip : res_new_tip p = new_tip;
  resolved_complete : Forall complete (res_new_branch p);
  resolved_depth : Z.of_nat (length (res_old_branch p)) <= max_depth r
                   /\ Z.of_nat (length (res_new_branch p)) <= max_depth r
}.

Lemma resolve_spec r w new_tip s :
  window_ok w -> 0 < max_depth r -> height_fits new_tip ->
  exists o s', resolve r w new_tip s = Some (o, s')
    /\ Z.of_nat (issued s') <= Z.of_nat (issued s) + Z.of_nat (lookup_cost s) * (max_depth r - 1)
    /\ forall p, o = Ok p -> tip w <> Some new_tip -> exists i, resolution_ok r w new_tip p i.
Proof.
  intros Hok Hdepth Hfit. unfold resolve, mbind, proc_bind, attempt, call, lift.
  destruct (resolve_start r w new_tip) as [old_tip|e] eqn:Hm;
    [|eexists _, _; split; [done|]; split; [nia|done]].
  apply unit_bind_ok in Hm as [Hc Hm]. apply bind_ok in Hm as (t & Ht%ok_or_ok & Hm).
  apply unit_bind_ok in Hm as [Hs%same_chain_ok Hm].
  destruct (Z.eqb_spec (chain_id (br_cursor new_tip)) (backend_chain_id (backend r))) as [Hb|]; [|done].
  injection Hm as <-. case_bool_decide as Heq.
  { eexists _, _. split; [done|]. split; [nia|]. intros p _ Hne. congruence. }
  destruct (match finalized w with Some _ => _ | None => _ end);
    [eexists _, _; split; [done|]; split; [nia|done]|].
  destruct (resolve_loop_spec r w new_tip (Z.to_nat (max_depth r)) new_tip [new_tip] s)
    as (o & s' & -> & Hi & Hfound); [done| | | | |].
  - apply Forall_forall. intros b Hin. rewrite (window_chain w t b) by done. congruence.
  - split; [done|apply links_single| |done|done]. constructor; [by apply validate_complete_complete|done].
  - cbn [length]. lia.
  - cbn [length]. lia.
  - assert (Z.of_nat (issued s') <= Z.of_nat (issued s) + Z.of_nat (lookup_cost s) * (max_depth r - 1)) by nia.
    destruct o as [[[anc i] desc]|e]; [|eexists _, _; split; [done|]; by split].
    destruct (Hfound anc i desc eq_refl) as (Ha & Hpos & Hl & Hcd & Hlast & Hne & Hlen).
    destruct (Z.ltb_spec (max_depth r) (Z.of_nat (length (drop (S i) (blocks w)))));
      [eexists _, _; split; [done|]; by split|].
    eexists _, _. split; [done|]. split; [done|]. intros p [= <-] _.
    exists i. split; cbn; try done. split; cbn; try done.
    + eapply Forall_impl; [exact Hcd|]. apply complete_validate.
    + destruct desc; [done|]. by rewrite last_cons_cons.
Qed.

Lemma apply_resolution_planned r w p new_tip i :
  window_ok w -> resolution_ok r w new_tip p i ->
  preflight w (Z.of_nat (i + 1 + length (res_new_branch p))) = Ok tt ->
  apply_resolution p w =
    (Ok tt, set_blocks (take (S i) (blocks w) ++ res_new_branch p)
              (charge_of (length (take (S i) (blocks w) ++ res_new_branch p))) w).
Proof.
  intros Hok [[Ht Ha Ho Hl Hc Hn] (h & Hh & Hpos) _ Hcomp _] Hpre. unfold apply_resolution.
  rewrite Ht. cbn [ok_or mbind result_bind]. rewrite bool_decide_eq_true_2 by done. cbn [negb].
  unfold fork_required_hash. rewrite Hh. cbn [ok_or mbind result_bind]. rewrite Hpos.
  cbn [ok_or mbind result_bind]. rewrite !bool_decide_eq_true_2 by done. cbn [negb orb].
  assert (validate_replacement p w = Ok tt) as ->.
  { unfold validate_replacement.
    assert (walk_branch (res_common_ancestor p) (res_new_branch p) = Ok (res_new_tip p)) as ->.
    { apply walk_branch_ok; [| |done].
      - eapply complete_height, Forall_lookup_1; [apply Hok|done].
      - eapply Forall_impl; [exact Hcomp|]. by intros b []. }
    cbn [mbind result_bind]. rewrite bool_decide_eq_true_2 by done. cbn [negb].
    destruct (finalized w) as [f|] eqn:Ef; [|done]. apply (window_finalized _ Hok) in Ef.
    assert (blocks w !! 0%nat = Some f) as Hf by (by destruct (blocks w)).
    pose proof (links_height _ _ _ (window_links _ Hok) Ha _ Hf) as Hheight. unfold height in Hheight.
    destruct (Z.ltb_spec (block_number (br_cursor (res_common_ancestor p))) (block_number (br_cursor f)));
      [lia|done]. }
  cbn [mbind result_bind].
  assert (uint_saturating_add USIZE (uint_saturating_add USIZE (Z.of_nat i) 1)
            (Z.of_nat (length (res_new_branch p))) = Z.of_nat (i + 1 + length (res_new_branch p))) as ->.
  { destruct Hok as [_ _ _ _ Hcnt _ Hlim]. apply lookup_lt_Some in Ha.
    apply preflight_ok in Hpre as [Hp _]. unfold uint_saturating_add, uint_max in *.
    rewrite !Z.min_l by lia. lia. }
  rewrite Hpre. done.
Qed.

End Resolve.

(** ** Histories of a window *)

Inductive window_step `{MemLayout} (w : CanonicalWindow) : CanonicalWindow -> Prop :=
| step_push b res w' : height_fits b -> push_head b w = Some (res, w') -> window_step w w'
| step_progress b res w' :
    height_fits b -> replace_progressive_tip b w = Some (res, w') -> window_step w w'
| step_finalize b : window_step w (advance_finalized b w).2
| step_switch r : Forall height_fits (res_new_branch r) -> window_step w (apply_resolution r w).2.

Lemma window_step_ok `{MemLayout} w w' : window_step w w' -> window_ok w -> window_ok w'.
Proof.
  intros [b res w1 Hb E|b res w1 Hb E|b|r Hr] Hok.
  - destruct (push_head_spec b w Hok Hb) as (? & ? & E' & ? & _). congruence.
  - destruct (replace_progressive_tip_spec b w Hok Hb) as (? & ? & E' & ? & _). congruence.
  - by apply advance_finalized_ok.
  - by apply apply_resolution_ok.
Qed.

(** The later boundary [f'] confirms the earlier one [f]. *)
Definition confirms (f f' : BlockRef) : Prop :=
  chain_id (br_cursor f) = chain_id (br_cursor f') /\ height f <= height f'
  /\ (height f' = height f -> block_hash (br_cursor f') = block_hash (br_cursor f)).

Lemma step_finality `{MemLayout} w w' f :
  window_step w w' -> window_ok w -> finalized w = Some f ->
  exists f', finalized w' = Some f' /\ confirms f f'.
Proof.
  intros Hstep Hok Hf.
  assert (finalized w' = finalized w \/ exists b i r, advance_checks b w i r /\ finalized w' = Some b)
    as [E|(b & i & r & Hchk & E)].
  { destruct Hstep as [b res w1 Hb E|b res w1 Hb E|b|p Hp].
    - left. unfold push_head in E. destruct (prepare_head b w) as [p|e]; [|by injection E as <- <-].
      unfold commit_head in E. repeat case_match; simplify_eq/=; done.
    - left. unfold replace_progressive_tip in E.
      destruct (prepare_progressive_tip b w) as [p|e]; [|by injection E as <- <-].
      unfold commit_progressive_tip in E. repeat case_match; simplify_eq/=; done.
    - destruct (advance_finalized b w) as [res w'] eqn:E.
      apply advance_finalized_inv in E as [(e & _ & ->)|(_ & i & r & ? & ->)]; [by left|right].
      by exists b, i, r.
    - destruct (apply_resolution p w) as [res w'] eqn:E. apply apply_resolution_inv in E; [|done..].
      left. destruct E as [(e & _ & ->)|(_ & i & _ & _ & ->)]; done. }
  - exists f. rewrite E. split; [done|]. split_and!; [done|lia|done].
  - exists b. split; [done|]. destruct Hchk as (_ & _ & _ & _ & _ & _ & _ & _ & Hprev). by apply Hprev.
Qed.

(** ** Sample data *)

Definition sample_header (fork n parent : Z) : BlockRef :=
  {| br_cursor := cursor_block 1 n (Some (10 * n + fork)) Canonical; br_parent_hash := Some parent |}.

(** Blocks 5, 6, 7 of fork 1, finalized at 5; fork 2 leaves at block 6. *)
Definition sample_window : CanonicalWindow :=
  {| blocks := [sample_header 1 5 41; sample_header 1 6 51; sample_header 1 7 61];
     finalized := Some (sample_header 1 5 41); limits := {| max_blocks := 8; max_bytes := 4096 |};
     retained_bytes := 480 |}.

Lemma sample_window_ok : @window_ok sample_layout sample_window.
Proof.
  split; [|repeat constructor; vm_compute; (congruence || eauto)| | | | |]; [| |vm_compute; congruence..].
  - cbn. apply links_cons. split; [done|]. apply links_cons. split; [done|]. apply links_single.
  - intros f [= <-]. reflexivity.
Qed.

(** A node of chain 1 that knows block 6 of fork 2 and nothing else. *)
#[local] Existing Instances sample_json sample_json_laws sample_layout.

#[local] Instance sample_http : Http := {|
  to_vec id req :=
    match req with
    | EthChainId => Ok [1]
    | EthGetBlockByHash hash _ => if String.eqb hash (hex_bytes 32 62) then Ok [62] else Ok [0]
    | _ => Err "unsupported"
    end;
  send n body := Ok {| content_length := None; body_chunks := [Ok body] |}
|}.

#[local] Instance sample_chain_answer : Deserialize Z := fun body =>
  Ok {| sr_jsonrpc := "2.0"; sr_id := SampleText "id"; sr_result := head body; sr_error := None |}.
#[local] Instance sample_block_answer : Deserialize Value := fun body =>
  match body with
  | [62] => Ok {| sr_jsonrpc := "2.0"; sr_id := SampleText "id"; sr_error := None;
                  sr_result := Some (SampleHead {| rh_number := 6; rh_hash := Some 62;
                    rh_parent_hash := Some 51; rh_l1_block_number := None |}) |}
  | _ => Err "unknown block"
  end.

Definition sample_resolver : ForkResolver :=
  {| backend := {| backend_rpc := {| endpoint := "http://node"; client_limits := RpcHttpLimits_default |};
                   backend_network := Evm; backend_chain_id := 1; snapshot_tag := "latest" |};
     max_depth := 4 |}.

Definition sample_session : Session :=
  {| request_id := 1; issued := 0; chain_verified := false; verifications_pending := 0 |}.

(** ** Properties *)

(** C21: the canonical window keeps its invariant and never panics. Through any
    history of appended heads, progressive tips, finality advances and applied
    resolutions, failures included, the retained headers are complete, form one
    chain linked by height and parent hash, start at the finalized block, and
    stay within the block and byte budgets with an exact byte charge; the
    assertions of the two-phase commits never fire. *)
Theorem fork_window_invariant `{MemLayout} w w' :
  window_ok w -> rtc window_step w w' ->
  window_ok w' /\
  forall b, height_fits b -> is_Some (push_head b w') /\ is_Some (replace_progressive_tip b w').
Proof.
  intros Hok Hsteps. assert (window_ok w') as Hok'.
  { induction Hsteps as [|w1 w2 w3 Hstep _ IH]; [done|]. by apply IH, (window_step_ok w1). }
  split; [done|]. intros b Hb.
  destruct (push_head_spec b w' Hok' Hb) as (? & ? & -> & _).
  destruct (replace_progressive_tip_spec b w' Hok' Hb) as (? & ? & -> & _). eauto.
Qed.

Lemma fork_window_invariant_witness :
  @window_ok sample_layout (@advance_finalized sample_layout
    {| br_cursor := cursor_block 1 6 (Some 61) Finalized; br_parent_hash := Some 51 |} sample_window).2.
Proof.
  apply (@fork_window_invariant sample_layout sample_window _ sample_window_ok).
  apply rtc_once, step_finalize.
Defined.

(** C30: finality is irrevocable. Once a block is finalized, every later window
    has a finalized boundary that is at least as high, is the same block when it
    is at the same height, and is the oldest retained header, so no operation
    can replace finalized history. *)
Theorem finality_is_irrevocable `{MemLayout} w w' f :
  window_ok w -> finalized w = Some f -> rtc window_step w w' ->
  exists f', finalized w' = Some f' /\ head (blocks w') = Some f'
    /\ chain_id (br_cursor f) = chain_id (br_cursor f') /\ height f <= height f'
    /\ (height f' = height f -> block_hash (br_cursor f') = block_hash (br_cursor f)).
Proof.
  intros Hok Hf Hsteps. revert f Hf. induction Hsteps as [w|w1 w2 w3 Hstep _ IH]; intros f Hf.
  - exists f. split_and!; [done|by apply Hok|done|lia|done].
  - destruct (step_finality _ _ _ Hstep Hok Hf) as (f1 & Hf1 & Hc1 & Hn1 & Hh1).
    destruct (IH (window_step_ok _ _ Hstep Hok) f1 Hf1) as (f2 & Hf2 & Hhead & Hc2 & Hn2 & Hh2).
    exists f2. split_and!; [done|done|congruence|lia|]. intros E. rewrite Hh2, Hh1 by lia. done.
Qed.

Lemma finality_is_irrevocable_witness :
  let w := (@apply_resolution sample_layout
    {| res_common_ancestor := sample_header 1 6 51; res_old_tip := sample_header 1 7 61;
       res_new_tip := sample_header 2 7 61; res_old_branch := [sample_header 1 7 61];
       res_new_branch := [sample_header 2 7 61] |} sample_window).2 in
  tip w = Some (sample_header 2 7 61) /\ exists f', finalized w = Some f' /\ head (blocks w) = Some f'.
Proof.
  intros w. split; [vm_compute; reflexivity|].
  destruct (@finality_is_irrevocable sample_layout sample_window w (sample_header 1 5 41)
    sample_window_ok eq_refl) as (f' & Hf & Hh & _).
  - apply rtc_once, step_switch. repeat constructor; vm_compute; congruence.
  - exists f'. split; [exact Hf|exact Hh].
Defined.

(** C8: fork resolution is sound against any node. Whatever a node answers,
    [resolve] returns (its loop never exhausts the depth it is given as fuel), and
    a plan for a tip that is not the current one is right: its ancestor is retained,
    its old branch is exactly the retained chain above the ancestor, its new branch
    is linked hash by hash from the ancestor to the requested tip, and neither branch
    is deeper than the limit. Applying it then succeeds whenever the new window fits
    the budgets, and makes the requested block the tip. *)
Theorem resolve_sound `{MemLayout, Json, Http, !JsonLaws, !Deserialize Z, !Deserialize Value}
    r w new_tip s :
  window_ok w -> 0 < max_depth r -> height_fits new_tip -> tip w <> Some new_tip ->
  exists o s', resolve r w new_tip s = Some (o, s') /\
    forall p, o = Ok p -> exists i,
      blocks w !! i = Some (res_common_ancestor p) /\ drop (S i) (blocks w) = res_old_branch p
      /\ links (res_common_ancestor p :: res_new_branch p)
      /\ last (res_common_ancestor p :: res_new_branch p) = Some new_tip
      /\ Z.of_nat (length (res_old_branch p)) <= max_depth r
      /\ Z.of_nat (length (res_new_branch p)) <= max_depth r
      /\ (preflight w (Z.of_nat (i + 1 + length (res_new_branch p))) = Ok tt ->
          (apply_resolution p w).1 = Ok tt /\ tip (apply_resolution p w).2 = Some new_tip).
Proof.
  intros Hok Hd Hfit Hne. destruct (resolve_spec r w new_tip s Hok Hd Hfit) as (o & s' & Ho & _ & Hspec).
  exists o, s'. split; [done|]. intros p Hp. destruct (Hspec p Hp Hne) as [i Hr]. exists i.
  pose proof Hr as [[Ht Ha Hold Hl Hc Hn] _ Htip _ [Hd1 Hd2]]. rewrite Htip in Hn.
  split_and!; [done..|]. intros Hpre.
  rewrite (apply_resolution_planned r w p new_tip i) by done. split; [done|].
  unfold tip. cbn [snd set_blocks blocks]. rewrite last_app.
  rewrite last_cons in Hn. destruct (last (res_new_branch p)) as [t|]; [done|].
  by rewrite (last_take_S _ _ _ Ha).
Qed.

Lemma resolve_sound_witness :
  exists p s', resolve sample_resolver sample_window (sample_header 2 7 62) sample_session = Some (Ok p, s')
    /\ res_common_ancestor p = sample_header 1 5 41
    /\ tip (apply_resolution p sample_window).2 = Some (sample_header 2 7 62).
Proof.
  destruct (resolve_sound sample_resolver sample_window (sample_header 2 7 62) sample_session
    sample_window_ok) as (o & s' & Ho & Hp);
    [reflexivity|split; vm_compute; congruence|discriminate|].
  assert (exists p, o = Ok p /\ res_common_ancestor p = sample_header 1 5 41
    /\ length (res_new_branch p) = 2%nat /\ length (res_old_branch p) = 2%nat) as (p & -> & Ha & Hl & Hl').
  { revert Ho. vm_compute. intros Ho. injection Ho as <-. eexists. repeat split. }
  exists p, s'. split; [exact Ho|]. split; [exact Ha|].
  destruct (Hp p eq_refl) as (i & _ & Hold & _ & _ & _ & _ & Happ). apply Happ. rewrite Hl.
  apply (f_equal length) in Hold. rewrite length_drop, Hl' in Hold. cbn in Hold.
  assert (i = 0%nat) as -> by lia. vm_compute. reflexivity.
Defined.

(** C39: fork resolution is bounded: whatever the node answers, [resolve] returns
    after at most [max_depth - 1] block lookups, each costing one request on a
    verified session and at most one more for the chain check otherwise. *)
Theorem resolve_lookups_bounded `{MemLayout, Json, Http, !JsonLaws, !Deserialize Z, !Deserialize Value}
    r w new_tip s :
  window_ok w -> 0 < max_depth r -> height_fits new_tip ->
  exists o s', resolve r w new_tip s = Some (o, s')
    /\ Z.of_nat (issued s') <= Z.of_nat (issued s) + Z.of_nat (lookup_cost s) * (max_depth r - 1).
Proof.
  intros Hok Hd Hfit. destruct (resolve_spec r w new_tip s Hok Hd Hfit) as (o & s' & Ho & Hi & _).
  by exists o, s'.
Qed.

Lemma resolve_lookups_bounded_witness :
  exists o s', resolve sample_resolver sample_window (sample_header 2 7 62) sample_session = Some (o, s')
    /\ Z.of_nat (issued s') <= 6.
Proof.
  apply (resolve_lookups_bounded sample_resolver sample_window (sample_header 2 7 62) sample_session
    sample_window_ok); [reflexivity|split; vm_compute; congruence].
Defined.
