(* ===== verification/IndexerTypes.v ===== *)
(** * Errors, operational events and quote responses of the client
    (crates/lunarbase-client/src/indexer/errors.rs, indexer/quote_types.rs) *)

From stdpp Require pretty.
From S2P Require Import Prelude Arithmetic Slot0 State Model Reducer.

Module IndexerError.

Inductive t :=
| NotReady
| Gap (reason : string)
| Reducer (e : ReducerError)
| Quote (e : QuoteError)
| Decode (e : LogDecodeError)
| Source (e : SourceError)
| CodeHashMismatch
| NoCursor
| InvalidRequest (reason : string)
| LockPoisoned
| EventSinkClosed.

End IndexerError.

#[export] Instance IndexerError_eq_dec : EqDecision IndexerError.t.
Proof. solve_decision. Defined.

(** [?] on a [Result] of another error type goes through [From]. *)
Definition from_reducer {A} : result ReducerError A -> result IndexerError.t A :=
  map_err IndexerError.Reducer.
Definition from_quote {A} : result QuoteError A -> result IndexerError.t A :=
  map_err IndexerError.Quote.
Definition from_decode {A} : result LogDecodeError A -> result IndexerError.t A :=
  map_err IndexerError.Decode.
Definition from_source {A} : result SourceError A -> result IndexerError.t A :=
  map_err IndexerError.Source.

Module ClientRuntimeEvent.

Inductive t :=
| SourceSubscribeFailed (detail : string)
| SourceStreamFailed (detail : string)
| SourceStreamClosed
| StateTransitionFailed (detail : string)
| CorrectionApplied (common_ancestor : Z) (old_tip_hash new_tip_hash : B256)
    (replacement_logs : Z)
| CorrectionHistoryPruned (total_evictions : Z)
| RecoveryStarted
| RecoveryCompleted
| RecoveryFailed (detail : string)
| BackgroundTaskStopped (task : string)
| ShutdownTimedOut
| BackgroundTaskPanicked (task detail : string).

Definition code (e : t) : string :=
  match e with
  | SourceSubscribeFailed _ => "source_subscribe_failed"
  | SourceStreamFailed _ => "source_stream_failed"
  | SourceStreamClosed => "source_stream_closed"
  | StateTransitionFailed _ => "state_transition_failed"
  | CorrectionApplied _ _ _ _ => "correction_applied"
  | CorrectionHistoryPruned _ => "correction_history_pruned"
  | RecoveryStarted => "recovery_started"
  | RecoveryCompleted => "recovery_completed"
  | RecoveryFailed _ => "recovery_failed"
  | BackgroundTaskStopped _ => "background_task_stopped"
  | ShutdownTimedOut => "shutdown_timed_out"
  | BackgroundTaskPanicked _ _ => "background_task_panicked"
  end.

Definition event_detail (e : t) : string :=
  match e with
  | SourceSubscribeFailed detail | SourceStreamFailed detail
  | StateTransitionFailed detail | RecoveryFailed detail => detail
  | SourceStreamClosed => "source stream closed; canonical recovery required"
  | CorrectionApplied ancestor _ _ logs =>
      "optimistic correction after block " +:+ pretty.pretty ancestor +:+ " replayed "
        +:+ pretty.pretty logs +:+ " Core logs"
  | CorrectionHistoryPruned total =>
      "optimistic history budget evicted " +:+ pretty.pretty total +:+ " eventful blocks"
  | RecoveryStarted => "canonical recovery started"
  | RecoveryCompleted => "canonical recovery completed"
  | BackgroundTaskStopped task => "background task `" +:+ task +:+ "` stopped before shutdown"
  | ShutdownTimedOut => "graceful shutdown exceeded its deadline"
  | BackgroundTaskPanicked task detail =>
      "background task `" +:+ task +:+ "` panicked: " +:+ detail
  end.

End ClientRuntimeEvent.

(** ** quote_types.rs *)

Record ClientQuote := {
  cq_outcome : QuoteOutcome;
  cq_cursor : ChainCursor;
  cq_execution_block_number : Z;
  cq_implementation_code_hash : B256;
  cq_math_compatibility_version : string;
  cq_fee_class : FeeClass;
  cq_verified_router : option Address
}.

Record ClientBatchQuote := {
  cb_outcomes : list QuoteOutcome;
  cb_cursor : ChainCursor;
  cb_execution_block_number : Z;
  cb_implementation_code_hash : B256;
  cb_math_compatibility_version : string;
  cb_fee_class : FeeClass;
  cb_verified_router : option Address
}.

Record IndexerHealth := {
  health_ready : bool;
  health_commitment : Commitment;
  health_cursor : option ChainCursor;
  health_execution_block_number : option Z;
  health_implementation_code_hash : B256;
  health_math_compatibility_version : string;
  health_fee_class : FeeClass;
  health_verified_router : option Address
}.

#[export] Instance ClientQuote_eq_dec : EqDecision ClientQuote.
Proof. solve_decision. Defined.
#[export] Instance ClientBatchQuote_eq_dec : EqDecision ClientBatchQuote.
Proof. solve_decision. Defined.
