(* ===== verification/Journal.v ===== *)
(** * The optimistic journal (crates/lunarbase-client/src/indexer/engine/correction.rs,
    engine/correction/identity.rs; [QuoteReducer::retained_bytes] of state/reducer.rs)

    Before-images of eventful blocks and the identities of every observed block,
    both bounded, from which a correction restores the state at its common
    ancestor. [Arc::make_mut] is value semantics. *)

From S2P Require Import Prelude Arithmetic Slot0 State Model Reducer IndexerTypes.

Definition MAX_OPTIMISTIC_HISTORY_BLOCKS : Z := 128.
Definition MAX_OPTIMISTIC_HISTORY_BYTES : Z := 64 * 1024 * 1024.

(** Sizes the compiler gives the types, and the capacities the allocator gave the
    hash maps, which the contents do not determine. *)
Class ReducerLayout := {
  lanes_capacity : QuoteReducer -> Z;
  partner_fees_capacity : VerifiedRouterSnapshot -> Z;
  size_of_lane_entry : Z;
  size_of_partner_entry : Z;
  size_of_VerifiedRouterSnapshot : Z;
  size_of_QuoteReducer : Z;
  size_of_QuoteState : Z;
  reducer_sizes_nonneg :
    (forall r, 0 <= lanes_capacity r) /\ (forall v, 0 <= partner_fees_capacity v)
    /\ 0 <= size_of_lane_entry /\ 0 <= size_of_partner_entry
    /\ 0 <= size_of_VerifiedRouterSnapshot /\ 0 <= size_of_QuoteReducer
    /\ 0 <= size_of_QuoteState
}.

Definition reducer_retained_bytes `{ReducerLayout} (self : QuoteReducer) : Z :=
  let lanes := usize_mul (lanes_capacity self) (usize_add size_of_lane_entry 16) in
  let router := match red_verified_router self with
                | None => 0
                | Some router =>
                    usize_add size_of_VerifiedRouterSnapshot
                      (usize_mul (partner_fees_capacity router) (usize_add size_of_partner_entry 16))
                end in
  usize_add (usize_add (usize_add size_of_QuoteReducer size_of_QuoteState) lanes) router.

Record OptimisticBlock := {
  ob_cursor : ChainCursor;
  ob_before : QuoteReducer;
  ob_retained_bytes : Z
}.

Record JournalState := {
  blocks : list OptimisticBlock;
  identities : list ChainCursor;
  retained_bytes : Z;
  rollback_floor : option ChainCursor;
  budget_evictions : Z;
  generation : Z
}.

Definition JournalState_default : JournalState :=
  {| blocks := []; identities := []; retained_bytes := 0; rollback_floor := None;
     budget_evictions := 0; generation := 0 |}.

(** Field updates. *)
Definition set_blocks (bs : list OptimisticBlock) (bytes : Z) (s : JournalState) : JournalState :=
  {| blocks := bs; identities := identities s; retained_bytes := bytes;
     rollback_floor := rollback_floor s; budget_evictions := budget_evictions s;
     generation := generation s |}.
Definition set_identities (ids : list ChainCursor) (s : JournalState) : JournalState :=
  {| blocks := blocks s; identities := ids; retained_bytes := retained_bytes s;
     rollback_floor := rollback_floor s; budget_evictions := budget_evictions s;
     generation := generation s |}.
Definition set_rollback_floor (c : ChainCursor) (s : JournalState) : JournalState :=
  {| blocks := blocks s; identities := identities s; retained_bytes := retained_bytes s;
     rollback_floor := Some c; budget_evictions := budget_evictions s;
     generation := generation s |}.
Definition count_eviction (s : JournalState) : JournalState :=
  {| blocks := blocks s; identities := identities s; retained_bytes := retained_bytes s;
     rollback_floor := rollback_floor s;
     budget_evictions := uint_saturating_add 64 (budget_evictions s) 1;
     generation := generation s |}.
Definition next_generation (s : JournalState) : JournalState :=
  {| blocks := blocks s; identities := identities s; retained_bytes := retained_bytes s;
     rollback_floor := rollback_floor s; budget_evictions := budget_evictions s;
     generation := uint_saturating_add 64 (generation s) 1 |}.

Definition reset (floor : ChainCursor) (s : JournalState) : JournalState :=
  {| blocks := []; identities := []; retained_bytes := 0; rollback_floor := Some floor;
     budget_evictions := budget_evictions s;
     generation := uint_saturating_add 64 (generation s) 1 |}.

Definition needs_capture (s : JournalState) (cursor : ChainCursor) : bool :=
  negb (is_some_and (last (blocks s)) (fun block =>
    (chain_id (ob_cursor block) =? chain_id cursor)
    && (block_number (ob_cursor block) =? block_number cursor)
    && (execution_block_number (ob_cursor block) =? execution_block_number cursor)
    && bool_decide (block_hash (ob_cursor block) = block_hash cursor))).

Definition drop_front (budget_eviction : bool) (s : JournalState) : JournalState :=
  match blocks s with
  | [] => s
  | block :: rest =>
      let s := set_blocks rest (usize_sub (retained_bytes s) (ob_retained_bytes block)) s in
      let s := set_rollback_floor (ob_cursor block) s in
      if budget_eviction then count_eviction s else s
  end.

(** [while len > MAX || bytes > MAX { drop_front(true) }]; [None] is out of fuel. *)
Definition over_limits (s : JournalState) : bool :=
  (MAX_OPTIMISTIC_HISTORY_BLOCKS <? Z.of_nat (length (blocks s)))
  || (MAX_OPTIMISTIC_HISTORY_BYTES <? retained_bytes s).

Fixpoint enforce_loop (fuel : nat) (s : JournalState) : option JournalState :=
  match fuel with
  | O => None
  | S fuel => if over_limits s then enforce_loop fuel (drop_front true s) else Some s
  end.

Definition enforce_limits (s : JournalState) : JournalState :=
  default s (enforce_loop (S (length (blocks s))) s).

Definition push_block `{ReducerLayout} (cursor : ChainCursor) (reducer : QuoteReducer)
    (s : JournalState) : JournalState :=
  let bytes := reducer_retained_bytes reducer in
  let s := next_generation s in
  let block := {| ob_cursor := cursor; ob_before := reducer; ob_retained_bytes := bytes |} in
  set_blocks (blocks s ++ [block]) (usize_add (retained_bytes s) bytes) s.

Definition capture_before `{ReducerLayout} (cursor : ChainCursor) (reducer : QuoteReducer)
    (s : JournalState) : bool * JournalState :=
  if negb (needs_capture s cursor) then (false, s)
  else (true, enforce_limits (push_block cursor reducer s)).

(** [while front.block_number <= number { drop_front(budget_eviction) }], with
    whether anything was dropped; the list is the loop's view of [blocks]. *)
Fixpoint drop_covered (bs : list OptimisticBlock) (number : Z) (budget_eviction : bool)
    (s : JournalState) : JournalState * bool :=
  match bs with
  | block :: rest =>
      if block_number (ob_cursor block) <=? number
      then ((drop_covered rest number budget_eviction (drop_front budget_eviction s)).1, true)
      else (s, false)
  | [] => (s, false)
  end.

Fixpoint drop_while {A} (f : A -> bool) (l : list A) : list A :=
  match l with
  | x :: rest => if f x then drop_while f rest else l
  | [] => []
  end.

Definition advance_floor (floor : ChainCursor) (s : JournalState) : JournalState :=
  let s := next_generation s in
  let s := (drop_covered (blocks s) (block_number floor) false s).1 in
  let s := set_identities
             (drop_while (fun cursor => block_number cursor <=? block_number floor) (identities s)) s in
  set_rollback_floor floor s.

Definition correction_gap (reason : string) : IndexerError.t := IndexerError.Gap reason.

Definition validate_rollback_floor (floor : option ChainCursor) (ancestor : BlockRef)
    : result IndexerError.t unit :=
  match floor with
  | None => Ok tt
  | Some floor =>
      let anc := br_cursor ancestor in
      if negb (chain_id anc =? chain_id floor)
         || (block_number anc <? block_number floor)
         || ((block_number anc =? block_number floor)
             && (negb (execution_block_number floor =? execution_block_number anc)
                 || negb (bool_decide (block_hash floor = block_hash anc))))
      then Err (correction_gap "correction ancestor is older than retained optimistic history")
      else Ok tt
  end.

(** Another chain, another execution block, no hash, or another hash. *)
Definition identity_differs (retained expected : ChainCursor) : bool :=
  negb (chain_id retained =? chain_id expected)
  || negb (execution_block_number retained =? execution_block_number expected)
  || negb (is_some (block_hash retained))
  || negb (bool_decide (block_hash retained = block_hash expected)).

Fixpoint check_retained (retained : list ChainCursor) (ancestor : BlockRef)
    (old_branch : list BlockRef) : result IndexerError.t unit :=
  match retained with
  | [] => Ok tt
  | retained :: rest =>
      let offset :=
        distance ← uint_checked_sub (block_number retained) (block_number (br_cursor ancestor));
        uint_checked_sub distance 1 in
      match offset ≫= (fun offset => old_branch !! Z.to_nat offset) with
      | None => Err (correction_gap "retained identity extends beyond the abandoned branch")
      | Some expected =>
          if identity_differs retained (br_cursor expected)
          then Err (correction_gap "retained identity does not match the abandoned branch")
          else check_retained rest ancestor old_branch
      end
  end.

Definition validate_retained_branch (s : JournalState) (ancestor : BlockRef)
    (old_branch : list BlockRef) : result IndexerError.t unit :=
  check_retained
    (base.filter (fun cursor => block_number (br_cursor ancestor) < block_number cursor) (identities s))
    ancestor old_branch.

(** The loop over affected blocks; [first] is the earliest before-image met. *)
Fixpoint check_affected (affected : list OptimisticBlock) (ancestor : BlockRef)
    (old_branch : list BlockRef) (first : option QuoteReducer)
    : result IndexerError.t (option QuoteReducer) :=
  match affected with
  | [] => Ok first
  | block :: rest =>
      let branch_offset :=
        uint_saturating_sub
          (uint_saturating_sub (block_number (ob_cursor block)) (block_number (br_cursor ancestor)))
          1 in
      match old_branch !! Z.to_nat branch_offset with
      | None => Err (correction_gap "journal extends beyond the abandoned branch")
      | Some expected =>
          if identity_differs (ob_cursor block) (br_cursor expected)
          then Err (correction_gap "journal block identity does not match the abandoned branch")
          else
            let first := match first with
                         | Some reducer => Some reducer
                         | None => Some (ob_before block)
                         end in
            check_affected rest ancestor old_branch first
      end
  end.

Definition identity_at (s : JournalState) (number : Z) : option ChainCursor :=
  List.find (fun cursor => block_number cursor =? number) (identities s).

Definition restore_point (s : JournalState) (ancestor : BlockRef) (old_branch : list BlockRef)
    : result IndexerError.t (option QuoteReducer) :=
  _ ← validate_rollback_floor (rollback_floor s) ancestor;
  let retained := identity_at s (block_number (br_cursor ancestor)) in
  if match rollback_floor s with
     | None => true
     | Some floor => block_number floor <? block_number (br_cursor ancestor)
     end && negb (is_some retained)
  then Err (correction_gap "correction ancestor identity is not retained")
  else if is_some_and retained (fun retained => identity_differs retained (br_cursor ancestor))
  then Err (correction_gap "correction ancestor identity disagrees with retained optimistic history")
  else
    _ ← validate_retained_branch s ancestor old_branch;
    check_affected
      (base.filter (fun block => block_number (br_cursor ancestor) < block_number (ob_cursor block))
         (blocks s))
      ancestor old_branch None.

(** [while back.block_number > number { pop_back }], on the reversed list. *)
Fixpoint pop_blocks (reversed : list OptimisticBlock) (number bytes : Z) (changed : bool)
    : list OptimisticBlock * Z * bool :=
  match reversed with
  | block :: rest =>
      if number <? block_number (ob_cursor block)
      then pop_blocks rest number (usize_sub bytes (ob_retained_bytes block)) true
      else (reversed, bytes, changed)
  | [] => ([], bytes, changed)
  end.

Definition rewind_after (ancestor : BlockRef) (s : JournalState) : JournalState :=
  let number := block_number (br_cursor ancestor) in
  let '(reversed, bytes, changed) := pop_blocks (rev (blocks s)) number (retained_bytes s) false in
  let s := set_blocks (rev reversed) bytes s in
  let s := if changed then next_generation s else s in
  set_identities
    (rev (drop_while (fun cursor => number <? block_number cursor) (rev (identities s)))) s.

Definition usage (s : JournalState) : Z * Z * Z * Z :=
  (Z.of_nat (length (blocks s)), retained_bytes s, budget_evictions s, generation s).

(** ** identity.rs *)

Definition validate_event_identity (s : JournalState) (cursor : ChainCursor)
    : result IndexerError.t unit :=
  match identity_at s (block_number cursor) with
  | None =>
      if is_some_and (rollback_floor s) (fun floor => block_number cursor <=? block_number floor)
      then Err (correction_gap "event identity is older than retained optimistic history")
      else Ok tt
  | Some retained =>
      let compatible_hash :=
        bool_decide (block_hash retained = block_hash cursor)
        || (negb (is_some (block_hash retained)) && is_some (block_hash cursor)) in
      if negb (chain_id retained =? chain_id cursor)
         || negb (execution_block_number retained =? execution_block_number cursor)
         || negb compatible_hash
      then Err (correction_gap "event identity disagrees with retained optimistic history")
      else Ok tt
  end.

(** One turn of the eviction loop of [insert_identity]. *)
Definition evict_identity (evicted : ChainCursor) (s : JournalState) : JournalState :=
  let '(s, pruned) := drop_covered (blocks s) (block_number evicted) true s in
  let s := set_rollback_floor evicted s in
  if pruned then next_generation s else s.

(** [while identities.len() > MAX { pop_front ... }] *)
Fixpoint evict_identities (ids : list ChainCursor) (s : JournalState) : JournalState :=
  match ids with
  | [] => set_identities [] s
  | evicted :: rest =>
      if MAX_OPTIMISTIC_HISTORY_BLOCKS <? Z.of_nat (length ids)
      then evict_identities rest (evict_identity evicted s)
      else set_identities ids s
  end.

Definition insert_identity (cursor : ChainCursor) (s : JournalState) : JournalState :=
  let index := match list_find (fun retained => block_number cursor < block_number retained)
                       (identities s) with
               | Some (index, _) => index
               | None => length (identities s)
               end in
  evict_identities (take index (identities s) ++ cursor :: drop index (identities s)) s.

Definition record_identity (cursor : ChainCursor) (replace : bool) (s : JournalState)
    : JournalState :=
  if is_some_and (rollback_floor s) (fun floor => block_number cursor <=? block_number floor) then s
  else
    match list_find (fun retained => block_number retained = block_number cursor) (identities s) with
    | Some (index, retained) =>
        if negb replace && (chain_id retained =? chain_id cursor)
           && (execution_block_number retained =? execution_block_number cursor)
           && bool_decide (block_hash retained = block_hash cursor)
        then s
        else set_identities (<[ index := cursor ]> (identities s)) s
    | None => insert_identity cursor s
    end.

Definition record_event_identity (cursor : ChainCursor) (s : JournalState) : JournalState :=
  record_identity cursor false s.
Definition record_head_identity (cursor : ChainCursor) (s : JournalState) : JournalState :=
  record_identity cursor true s.
