(* ===== verification/JournalFacts.v ===== *)
(** * Correctness of the optimistic journal

    Bounds, exact byte accounting and termination of the eviction loop for every
    reachable journal, the complete condition under which a correction may
    restore, and a concrete run in which an eviction lowers the rollback floor. *)

From S2P Require Import Prelude Arithmetic Slot0 State Model Reducer IndexerTypes Journal.

(** ** Invariant *)

Definition images_charge (bs : list OptimisticBlock) : Z :=
  foldr (fun b total => ob_retained_bytes b + total) 0 bs.

Definition lower (a b : ChainCursor) : Prop := block_number a < block_number b.

Record journal_ok (s : JournalState) : Prop := {
  ok_blocks : Z.of_nat (length (blocks s)) <= MAX_OPTIMISTIC_HISTORY_BLOCKS;
  ok_charges : Forall (fun b => uint 64 (ob_retained_bytes b)) (blocks s);
  ok_accounting : retained_bytes s = images_charge (blocks s);
  ok_bytes : retained_bytes s <= MAX_OPTIMISTIC_HISTORY_BYTES;
  ok_identities : Z.of_nat (length (identities s)) <= MAX_OPTIMISTIC_HISTORY_BLOCKS;
  ok_heights : StronglySorted lower (identities s)
}.

(** The operations of the journal, in any order. *)
Inductive journal_step `{ReducerLayout} (s : JournalState) : JournalState -> Prop :=
| step_reset floor : journal_step s (reset floor s)
| step_capture cursor reducer : journal_step s (capture_before cursor reducer s).2
| step_advance floor : journal_step s (advance_floor floor s)
| step_rewind ancestor : journal_step s (rewind_after ancestor s)
| step_identity cursor replace : journal_step s (record_identity cursor replace s).

Lemma images_charge_app l m : images_charge (l ++ m) = images_charge l + images_charge m.
Proof. induction l as [|b l IH]; cbn; [done|]. unfold images_charge in *. lia. Qed.

Lemma images_charge_nonneg l : Forall (fun b => uint 64 (ob_retained_bytes b)) l -> 0 <= images_charge l.
Proof. induction 1 as [|b l Hb _ IH]; cbn; [done|]. unfold uint, images_charge in *. lia. Qed.

(** The part of the invariant the blocks carry, limits aside. *)
Definition balanced (s : JournalState) : Prop :=
  Forall (fun b => uint 64 (ob_retained_bytes b)) (blocks s) /\ retained_bytes s = images_charge (blocks s).

Lemma drop_front_balanced flag s : balanced s -> balanced (drop_front flag s).
Proof.
  intros [Hc Ha]. unfold drop_front. destruct (blocks s) as [|b rest] eqn:E; [by rewrite <-E in *|].
  pose proof (images_charge_nonneg rest ltac:(by inversion Hc)). inversion Hc; subst.
  destruct flag; split; cbn; try done; rewrite Ha; cbn; unfold uint_saturating_sub, images_charge in *; lia.
Qed.

Lemma drop_front_blocks flag s : blocks (drop_front flag s) = tail (blocks s).
Proof. unfold drop_front. destruct (blocks s) eqn:E; [done|]. by destruct flag. Qed.

Lemma drop_front_identities flag s : identities (drop_front flag s) = identities s.
Proof. unfold drop_front. destruct (blocks s) eqn:E; [done|]. by destruct flag. Qed.

(** The eviction loop of a balanced journal stops within its fuel. *)
Lemma enforce_balanced fuel s :
  balanced s -> (length (blocks s) < fuel)%nat ->
  exists s', enforce_loop fuel s = Some s' /\ over_limits s' = false /\ balanced s'
    /\ identities s' = identities s.
Proof.
  revert s. induction fuel as [|fuel IH]; intros s Hb Hf; [lia|]. cbn [enforce_loop].
  destruct (over_limits s) eqn:E; [|by exists s].
  destruct (blocks s) as [|b rest] eqn:Hs.
  { exfalso. destruct Hb as [_ Hb]. unfold over_limits in E. rewrite Hb, Hs in E. discriminate E. }
  destruct (IH (drop_front true s)) as (s' & Hl & Ho & Hb' & Hi).
  - by apply drop_front_balanced.
  - rewrite drop_front_blocks, Hs. cbn in *. lia.
  - exists s'. by rewrite Hi, drop_front_identities.
Qed.

(** A saturated byte count: more than the budget above the older blocks, so the
    loop drops everything. *)
Lemma enforce_saturated old z s fuel :
  blocks s = old ++ [z] -> Forall (fun b => uint 64 (ob_retained_bytes b)) (blocks s) ->
  MAX_OPTIMISTIC_HISTORY_BYTES + images_charge old < retained_bytes s <= images_charge old + ob_retained_bytes z ->
  (length (blocks s) < fuel)%nat ->
  exists s', enforce_loop fuel s = Some s' /\ blocks s' = [] /\ retained_bytes s' = 0
    /\ identities s' = identities s.
Proof.
  revert s fuel. induction old as [|b old IH]; intros s fuel Hs Hc Hr Hf;
    destruct fuel as [|fuel]; [cbn in Hf; lia| |cbn in Hf; lia|]; cbn [enforce_loop].
  - assert (over_limits s = true) as ->.
    { unfold over_limits. cbn in Hr. apply orb_true_intro. right. apply Z.ltb_lt. unfold MAX_OPTIMISTIC_HISTORY_BYTES in *. lia. }
    destruct fuel as [|fuel]; [rewrite Hs in Hf; cbn in Hf; lia|].
    assert (drop_front true s
            = count_eviction (set_rollback_floor (ob_cursor z) (set_blocks [] 0 s))) as ->.
    { unfold drop_front. rewrite Hs. cbn in *. unfold uint_saturating_sub.
      by replace (Z.max 0 (retained_bytes s - ob_retained_bytes z)) with 0 by lia. }
    by eexists.
  - assert (0 <= ob_retained_bytes b /\ 0 <= images_charge old) as [Hb0 Ho0].
    { rewrite Hs in Hc. inversion Hc as [|? ? Hb Hrest]. apply Forall_app in Hrest as [Ho _].
      split; [apply Hb|by apply images_charge_nonneg]. }
    cbn [images_charge foldr] in Hr. fold (images_charge old) in Hr.
    assert (over_limits s = true) as ->.
    { unfold over_limits. apply orb_true_intro. right. apply Z.ltb_lt. unfold MAX_OPTIMISTIC_HISTORY_BYTES in *. lia. }
    destruct (IH (drop_front true s) fuel) as (s' & Hl & He & Hz & Hi).
    + by rewrite drop_front_blocks, Hs.
    + rewrite drop_front_blocks, Hs. rewrite Hs in Hc. by inversion Hc.
    + unfold drop_front. rewrite Hs. cbn -[images_charge].
      unfold uint_saturating_sub, MAX_OPTIMISTIC_HISTORY_BYTES in *. lia.
    + rewrite drop_front_blocks, Hs. rewrite Hs in Hf. cbn in *. lia.
    + exists s'. by rewrite Hi, drop_front_identities.
Qed.

Lemma reducer_retained_bytes_uint `{ReducerLayout} r : uint 64 (reducer_retained_bytes r).
Proof.
  pose proof reducer_sizes_nonneg as (Hl & Hp & ? & ? & ? & ? & ?). specialize (Hl r).
  unfold reducer_retained_bytes, uint, uint_saturating_add, uint_saturating_mul, uint_max.
  destruct (red_verified_router r) as [v|]; [specialize (Hp v)|]; nia.
Qed.

Definition within_limits (s : JournalState) : Prop :=
  Z.of_nat (length (blocks s)) <= MAX_OPTIMISTIC_HISTORY_BLOCKS
  /\ retained_bytes s <= MAX_OPTIMISTIC_HISTORY_BYTES.

Lemma over_limits_false s : over_limits s = false <-> within_limits s.
Proof.
  unfold over_limits, within_limits. rewrite orb_false_iff, !Z.ltb_ge. done.
Qed.

(** After a push, the eviction loop stops within its fuel, inside the limits and
    with an exact byte count. *)
Lemma enforce_push `{ReducerLayout} cursor r s :
  balanced s -> retained_bytes s <= MAX_OPTIMISTIC_HISTORY_BYTES ->
  let pushed := push_block cursor r s in
  exists s', enforce_loop (S (length (blocks pushed))) pushed = Some s'
    /\ within_limits s' /\ balanced s' /\ identities s' = identities s.
Proof.
  intros [Hc Ha] Hb pushed. pose proof (reducer_retained_bytes_uint r) as Hr.
  pose proof (images_charge_nonneg _ Hc) as H0.
  set (z := {| ob_cursor := cursor; ob_before := r;
               ob_retained_bytes := reducer_retained_bytes r |}).
  assert (blocks pushed = blocks s ++ [z]) as Hbs by done.
  assert (Forall (fun b => uint 64 (ob_retained_bytes b)) (blocks pushed)) as Hcs.
  { rewrite Hbs. apply Forall_app. split; [done|]. by constructor. }
  assert (retained_bytes pushed = uint_saturating_add 64 (retained_bytes s) (ob_retained_bytes z)) as Hp
    by done.
  destruct (decide (images_charge (blocks s) + ob_retained_bytes z < 2 ^ 64)) as [Hfit|Hsat].
  - destruct (enforce_balanced (S (length (blocks pushed))) pushed) as (s' & Hl & Ho & Hbal & Hi);
      [|lia|].
    + split; [done|]. rewrite Hp, Hbs, images_charge_app, Ha.
      change (images_charge [z]) with (ob_retained_bytes z + 0).
      unfold uint_saturating_add, uint_max. lia.
    + exists s'. split_and!; try done; by apply over_limits_false.
  - destruct (enforce_saturated (blocks s) z pushed (S (length (blocks pushed))))
      as (s' & Hl & He & Hz & Hi); [done|done| |lia|].
    + rewrite Hp, Ha. unfold uint_saturating_add, uint_max, uint, MAX_OPTIMISTIC_HISTORY_BYTES in *.
      cbn [ob_retained_bytes z] in *. lia.
    + exists s'. split_and!; [done| | |done]; unfold within_limits, balanced; rewrite He, Hz; [done|].
      split; [constructor|done].
Qed.

(** ** Each operation preserves the invariant *)

Lemma drop_while_suffix {A} (f : A -> bool) l : exists p, l = p ++ drop_while f l.
Proof.
  induction l as [|x l [p IH]]; [by exists []|]. cbn. destruct (f x); [|by exists []].
  exists (x :: p). cbn. by f_equal.
Qed.

Lemma sorted_app_inv {A} (R : A -> A -> Prop) l m :
  StronglySorted R (l ++ m) -> StronglySorted R l /\ StronglySorted R m.
Proof.
  induction l as [|x l IH]; cbn; [by repeat constructor|]. intros Hs. inversion Hs as [|? ? Hl Hx].
  apply IH in Hl as [? ?]. apply Forall_app in Hx as [? ?]. by repeat constructor.
Qed.

Lemma drop_covered_view bs n flag s :
  blocks s = bs -> balanced s ->
  balanced (drop_covered bs n flag s).1
  /\ (exists p, bs = p ++ blocks (drop_covered bs n flag s).1)
  /\ identities (drop_covered bs n flag s).1 = identities s.
Proof.
  revert s. induction bs as [|b bs IH]; intros s Hs Hb; cbn [drop_covered].
  - split_and!; [done|by exists []; cbn; rewrite Hs|done].
  - destruct (_ <=? _).
    + destruct (IH (drop_front flag s)) as (Hb' & (p & Hp) & Hi);
        [by rewrite drop_front_blocks, Hs|by apply drop_front_balanced|].
      cbn [fst]. split_and!; [done| |by rewrite Hi, drop_front_identities].
      exists (b :: p). cbn. by f_equal.
    + split_and!; [done|by exists []; cbn; rewrite Hs|done].
Qed.

(** Dropping a prefix keeps the limits. *)
Lemma suffix_within s s' p :
  blocks s = p ++ blocks s' -> balanced s -> balanced s' -> within_limits s -> within_limits s'.
Proof.
  intros Hp [Hc Ha] [Hc' Ha'] [Hn Hb]. rewrite Hp in Hn, Hc. rewrite Ha, Hp, images_charge_app in Hb.
  apply Forall_app in Hc as [Hc _]. pose proof (images_charge_nonneg _ Hc). rewrite length_app in Hn.
  unfold within_limits. lia.
Qed.

Definition heights_ok (ids : list ChainCursor) : Prop :=
  Z.of_nat (length ids) <= MAX_OPTIMISTIC_HISTORY_BLOCKS /\ StronglySorted lower ids.

Lemma journal_ok_split s :
  journal_ok s <-> balanced s /\ within_limits s /\ heights_ok (identities s).
Proof. unfold balanced, within_limits, heights_ok. split; [intros []|intros ([] & [] & [])]; done. Qed.

Lemma heights_set ids s s' :
  balanced s -> within_limits s -> heights_ok ids -> blocks s' = blocks s ->
  retained_bytes s' = retained_bytes s -> identities s' = ids -> journal_ok s'.
Proof.
  unfold balanced, within_limits. intros [] [] ? Hb Hr <-. apply journal_ok_split.
  unfold balanced, within_limits. rewrite Hb, Hr. done.
Qed.

Lemma heights_suffix p ids : heights_ok (p ++ ids) -> heights_ok ids.
Proof.
  intros [Hl Hs]. rewrite length_app in Hl. apply sorted_app_inv in Hs as [_ Hs].
  unfold heights_ok. split; [lia|done].
Qed.

Lemma heights_prefix p ids : heights_ok (ids ++ p) -> heights_ok ids.
Proof.
  intros [Hl Hs]. rewrite length_app in Hl. apply sorted_app_inv in Hs as [Hs _].
  unfold heights_ok. split; [lia|done].
Qed.

Lemma drop_covered_within n flag s :
  balanced s -> within_limits s ->
  balanced (drop_covered (blocks s) n flag s).1 /\ within_limits (drop_covered (blocks s) n flag s).1
  /\ identities (drop_covered (blocks s) n flag s).1 = identities s.
Proof.
  intros Hb Hw. destruct (drop_covered_view (blocks s) n flag s eq_refl Hb) as (Hb' & (p & Hp) & Hi).
  split_and!; [done| |done]. by eapply suffix_within.
Qed.

Lemma advance_floor_ok floor s : journal_ok s -> journal_ok (advance_floor floor s).
Proof.
  intros (Hb & Hw & Hh)%journal_ok_split. unfold advance_floor.
  destruct (drop_covered_within (block_number floor) false (next_generation s) Hb Hw)
    as (Hb' & Hw' & Hi).
  eapply heights_set; [exact Hb'|exact Hw'| |done..]. rewrite Hi.
  destruct (drop_while_suffix (fun cursor => block_number cursor <=? block_number floor)
              (identities s)) as [p Hp].
  rewrite Hp in Hh. exact (heights_suffix _ _ Hh).
Qed.

Lemma pop_blocks_view rbs n bytes changed out :
  pop_blocks rbs n bytes changed = out ->
  Forall (fun b => uint 64 (ob_retained_bytes b)) rbs -> bytes = images_charge (rev rbs) ->
  exists p, rbs = p ++ out.1.1 /\ out.1.2 = images_charge (rev out.1.1).
Proof.
  intros <-. revert bytes changed. induction rbs as [|b rbs IH]; intros bytes changed Hc Hb;
    cbn [pop_blocks]; [by exists []|].
  destruct (_ <? _); [|by exists []]. inversion Hc as [|? ? Hb0 Hc']; subst.
  destruct (IH (usize_sub (images_charge (rev (b :: rbs))) (ob_retained_bytes b)) true Hc')
    as (p & Hp & Hy).
  - cbn [rev]. rewrite images_charge_app. change (images_charge [b]) with (ob_retained_bytes b + 0).
    pose proof (images_charge_nonneg (rev rbs) ltac:(by apply Forall_rev)). unfold uint_saturating_sub. lia.
  - exists (b :: p). split; [cbn; by f_equal|done].
Qed.

Lemma rewind_after_ok anc s : journal_ok s -> journal_ok (rewind_after anc s).
Proof.
  intros (Hb & Hw & Hh)%journal_ok_split. unfold rewind_after.
  destruct (pop_blocks _ _ _ _) as [[rbs bytes] changed] eqn:E.
  pose proof Hb as [Hc Ha]. pose proof (pop_blocks_view _ _ _ _ _ E) as Hv.
  rewrite rev_involutive in Hv. destruct Hv as (p & Hp & Hy); [by apply Forall_rev|done|].
  cbn [fst snd] in Hp, Hy. assert (blocks s = rev rbs ++ rev p) as Hs.
  { by rewrite <-rev_app_distr, <-Hp, rev_involutive. }
  rewrite Hs in Hc. pose proof Hc as [Hc1 Hc2]%Forall_app.
  assert (balanced (set_blocks (rev rbs) bytes s)) as Hb' by done.
  assert (within_limits (set_blocks (rev rbs) bytes s)) as Hw'.
  { destruct Hw as [Hn Hm]. rewrite Ha, Hs, images_charge_app in Hm. rewrite Hs, length_app in Hn.
    pose proof (images_charge_nonneg _ Hc2). split; cbn [blocks set_blocks retained_bytes]; lia. }
  eapply heights_set; [exact Hb'|exact Hw'| |by destruct changed..].
  destruct (drop_while_suffix (fun cursor => block_number (br_cursor anc) <? block_number cursor)
              (rev (identities s))) as [q Hq].
  assert (identities s = rev (drop_while (fun cursor => block_number (br_cursor anc) <? block_number cursor)
            (rev (identities s))) ++ rev q) as Hi.
  { by rewrite <-rev_app_distr, <-Hq, rev_involutive. }
  rewrite Hi in Hh. by destruct changed; exact (heights_prefix _ _ Hh).
Qed.

Lemma capture_before_ok `{ReducerLayout} cursor r s :
  journal_ok s -> journal_ok (capture_before cursor r s).2.
Proof.
  intros (Hb & Hw & Hh)%journal_ok_split. unfold capture_before.
  destruct (needs_capture s cursor); cbn [negb snd]; [|by apply journal_ok_split].
  destruct (enforce_push cursor r s Hb (proj2 Hw)) as (s' & Hl & Hw' & Hb' & Hi).
  unfold enforce_limits. rewrite Hl. apply journal_ok_split. split_and!; [done..|].
  change (default _ (Some s')) with s'. by rewrite Hi.
Qed.

(** Sorted insertion. *)
Lemma insertion_sorted cursor ids :
  StronglySorted lower ids -> Forall (fun c => block_number c <> block_number cursor) ids ->
  let index := match list_find (fun retained => block_number cursor < block_number retained) ids with
               | Some (index, _) => index
               | None => length ids
               end in
  StronglySorted lower (take index ids ++ cursor :: drop index ids).
Proof.
  induction ids as [|c ids IH]; intros Hs Hne; [by repeat constructor|].
  inversion Hs as [|? ? Hs' Hc]; inversion Hne as [|? ? Hn Hne']; subst. cbn [list_find].
  case_decide as Hlt; cbn [take drop app length].
  - constructor; [done|]. constructor; [done|]. eapply Forall_impl; [exact Hc|].
    unfold lower. cbn. lia.
  - specialize (IH Hs' Hne'). cbv zeta in IH.
    destruct (list_find _ ids) as [[i x]|]; cbn [fmap option_fmap option_map prod_map fst snd take drop app] in *;
      (constructor; [exact IH|]); apply Forall_app; (split; [by apply Forall_take|]);
      (constructor; [unfold lower; lia|by apply Forall_drop]).
Qed.

Lemma evict_identities_ok ids s :
  balanced s -> within_limits s -> StronglySorted lower ids -> journal_ok (evict_identities ids s).
Proof.
  revert s. induction ids as [|c ids IH]; intros s Hb Hw Hs; cbn [evict_identities].
  - eapply heights_set; [done|done| |done..]. split; [done|constructor].
  - case_match eqn:E; [|eapply heights_set; [done|done| |done..]; split; [|done]; by apply Z.ltb_ge].
    inversion Hs; subst. unfold evict_identity.
    destruct (drop_covered _ _ _ _) as [s1 pruned] eqn:Ed.
    pose proof (drop_covered_within (block_number c) true s Hb Hw) as (Hb' & Hw' & _).
    rewrite Ed in Hb', Hw'. apply IH; [by destruct pruned..|done].
Qed.

Lemma sorted_replace index cursor ids retained :
  StronglySorted lower ids -> ids !! index = Some retained ->
  block_number retained = block_number cursor ->
  StronglySorted lower (<[ index := cursor ]> ids).
Proof.
  revert index. induction ids as [|c ids IH]; intros [|index] Hs Hi He; try done;
    inversion Hs as [|? ? Hs' Hc]; subst; cbn in *.
  - injection Hi as ->. constructor; [done|]. unfold lower in *. by rewrite <-He.
  - constructor; [by apply IH|]. apply Forall_insert; [done|]. unfold lower. rewrite <-He.
    rewrite Forall_forall in Hc. apply Hc. by eapply list_elem_of_lookup_2.
Qed.

Lemma record_identity_ok cursor replace s : journal_ok s -> journal_ok (record_identity cursor replace s).
Proof.
  intros Hok. pose proof Hok as (Hb & Hw & Hl & Hs)%journal_ok_split. unfold record_identity.
  destruct (is_some_and _ _); [done|].
  destruct (list_find _ _) as [[i x]|] eqn:E.
  - destruct (_ && _); [done|]. apply list_find_Some in E as (Hi & He & _).
    apply (heights_set (<[ i := cursor ]> (identities s)) s); try done.
    split; [by rewrite length_insert|by eapply sorted_replace].
  - apply evict_identities_ok; [done..|]. apply insertion_sorted; [done|]. by apply list_find_None in E.
Qed.

Lemma journal_step_ok `{ReducerLayout} s s' : journal_step s s' -> journal_ok s -> journal_ok s'.
Proof.
  destruct 1; eauto using capture_before_ok, advance_floor_ok, rewind_after_ok, record_identity_ok.
  intros _. split; cbn; try done; constructor.
Qed.

Lemma journal_default_ok : journal_ok JournalState_default.
Proof. split; cbn; try done; constructor. Qed.

(** C18: For every sequence of journal operations: at most 128 blocks and 128
    identities are kept, identities increase in height, the byte count is exactly
    what the kept before-images are charged and at most 64 MiB, and the eviction
    loop of the next capture terminates within those limits. *)
Theorem journal_invariant `{ReducerLayout} s :
  rtc journal_step JournalState_default s ->
  journal_ok s /\
  forall cursor r, exists s',
    enforce_loop (S (length (blocks (push_block cursor r s)))) (push_block cursor r s) = Some s'
    /\ enforce_limits (push_block cursor r s) = s' /\ within_limits s'.
Proof.
  intros Hr. assert (journal_ok s) as Hok.
  { revert Hr. generalize journal_default_ok. generalize JournalState_default.
    induction 2; eauto using journal_step_ok. }
  split; [done|]. apply journal_ok_split in Hok as (Hb & Hw & _). intros cursor r.
  destruct (enforce_push cursor r s Hb (proj2 Hw)) as (s' & Hl & Hw' & _).
  exists s'. unfold enforce_limits. by rewrite Hl.
Qed.

(** ** Restoring *)

Definition same_identity (retained expected : ChainCursor) : Prop :=
  chain_id retained = chain_id expected
  /\ execution_block_number retained = execution_block_number expected
  /\ exists h, block_hash retained = Some h /\ block_hash expected = Some h.

(** The abandoned branch holds [c] at its height above the ancestor. *)
Definition on_branch (anc : BlockRef) (branch : list BlockRef) (c : ChainCursor) : Prop :=
  exists b, branch !! Z.to_nat (block_number c - block_number (br_cursor anc) - 1) = Some b
            /\ same_identity c (br_cursor b).

Definition above (anc : BlockRef) (c : ChainCursor) : Prop :=
  block_number (br_cursor anc) < block_number c.

#[export] Instance above_dec anc c : Decision (above anc c).
Proof. unfold above. apply _. Defined.
#[export] Typeclasses Opaque above.

(** The ancestor is known to be on the retained history: not below the floor, and
    proved by a retained identity or by being the floor itself. *)
Definition anchored (s : JournalState) (anc : BlockRef) : Prop :=
  (forall f, rollback_floor s = Some f ->
     chain_id (br_cursor anc) = chain_id f
     /\ (block_number f < block_number (br_cursor anc)
         \/ block_number f = block_number (br_cursor anc)
            /\ execution_block_number f = execution_block_number (br_cursor anc)
            /\ block_hash f = block_hash (br_cursor anc)))
  /\ ((exists c, c ∈ identities s /\ block_number c = block_number (br_cursor anc)
                 /\ same_identity c (br_cursor anc))
      \/ (forall c, c ∈ identities s -> block_number c <> block_number (br_cursor anc))
         /\ exists f, rollback_floor s = Some f /\ block_number f = block_number (br_cursor anc)).

(** Everything retained above the ancestor lies on the abandoned branch. *)
Definition branch_proved (s : JournalState) (anc : BlockRef) (branch : list BlockRef) : Prop :=
  Forall (fun c => above anc c -> on_branch anc branch c) (identities s)
  /\ Forall (fun b => above anc (ob_cursor b) -> on_branch anc branch (ob_cursor b)) (blocks s).

Lemma identity_differs_false a b : identity_differs a b = false <-> same_identity a b.
Proof.
  unfold identity_differs, same_identity.
  rewrite !orb_false_iff, !negb_false_iff, !Z.eqb_eq, is_some_true, bool_decide_eq_true.
  naive_solver congruence.
Qed.

Lemma floor_ok floor anc :
  validate_rollback_floor floor anc = Ok tt <->
  forall f, floor = Some f ->
     chain_id (br_cursor anc) = chain_id f
     /\ (block_number f < block_number (br_cursor anc)
         \/ block_number f = block_number (br_cursor anc)
            /\ execution_block_number f = execution_block_number (br_cursor anc)
            /\ block_hash f = block_hash (br_cursor anc)).
Proof.
  unfold validate_rollback_floor. destruct floor as [f|]; [|naive_solver].
  split.
  - intros Hv g [= <-]. destruct (_ || _) eqn:E; [discriminate Hv|].
    apply orb_false_iff in E as [[Ec%negb_false_iff%Z.eqb_eq En%Z.ltb_ge]%orb_false_iff Eb].
    split; [done|]. apply andb_false_iff in Eb as [Eb%Z.eqb_neq|Eb]; [left; lia|].
    apply orb_false_iff in Eb as [Ee%negb_false_iff%Z.eqb_eq Eh%negb_false_iff%bool_decide_eq_true].
    destruct (decide (block_number f = block_number (br_cursor anc))); [by right|left; lia].
  - intros Hf. destruct (Hf f eq_refl) as [-> Hcase]. rewrite Z.eqb_refl. cbn [negb orb].
    rewrite (proj2 (Z.ltb_ge _ _)) by lia. cbn [orb].
    destruct Hcase as [Hlt|(Hn & -> & ->)].
    + by rewrite (proj2 (Z.eqb_neq _ _)) by lia.
    + rewrite (bool_decide_eq_true_2 (_ = _)) by done. rewrite (Z.eqb_refl (execution_block_number _)).
      cbn [negb orb]. by rewrite andb_false_r.
Qed.

(** One retained cursor above the ancestor against the branch. *)
Lemma branch_lookup anc c : above anc c ->
  (d ← uint_checked_sub (block_number c) (block_number (br_cursor anc)); uint_checked_sub d 1)
    = Some (block_number c - block_number (br_cursor anc) - 1)
  /\ uint_saturating_sub (uint_saturating_sub (block_number c) (block_number (br_cursor anc))) 1
     = block_number c - block_number (br_cursor anc) - 1.
Proof.
  unfold above, uint_checked_sub, uint_saturating_sub. intros Ha. split; [|lia].
  destruct (Z.leb_spec (block_number (br_cursor anc)) (block_number c)); [|lia].
  change (mbind ?f (Some ?x)) with (f x). cbv beta.
  by destruct (Z.leb_spec 1 (block_number c - block_number (br_cursor anc))); [|lia].
Qed.

Lemma check_retained_ok ids anc branch :
  Forall (above anc) ids ->
  check_retained ids anc branch = Ok tt <-> Forall (on_branch anc branch) ids.
Proof.
  induction 1 as [|c ids Hc _ IH]; [by split|]. rewrite Forall_cons, <-IH. cbn [check_retained].
  rewrite (proj1 (branch_lookup anc c Hc)).
  change (mbind ?f (Some ?x)) with (f x). cbv beta. unfold on_branch.
  destruct (branch !! _) as [b|]; [|naive_solver].
  destruct (identity_differs c (br_cursor b)) eqn:E.
  - split; [done|]. intros [(b' & [= <-] & Hs) _]. apply identity_differs_false in Hs. congruence.
  - apply identity_differs_false in E. naive_solver.
Qed.

Lemma check_affected_ok bs anc branch first out :
  Forall (fun b => above anc (ob_cursor b)) bs ->
  check_affected bs anc branch first = Ok out <->
  Forall (fun b => on_branch anc branch (ob_cursor b)) bs
  /\ out = match first with
           | Some r => Some r
           | None => ob_before <$> head bs
           end.
Proof.
  intros Hb. revert first. induction Hb as [|b bs Hb _ IH]; intros first.
  { cbn. split; [intros [= <-]|intros [_ ->]]; by destruct first. }
  rewrite Forall_cons. cbn [check_affected]. rewrite (proj2 (branch_lookup anc _ Hb)).
  unfold on_branch at 1. destruct (branch !! _) as [e|]; [|naive_solver].
  destruct (identity_differs (ob_cursor b) (br_cursor e)) eqn:E.
  - split; [done|]. intros [[(e' & [= <-] & Hs) _] _]. apply identity_differs_false in Hs. congruence.
  - apply identity_differs_false in E. rewrite IH. destruct first; naive_solver.
Qed.

Lemma Forall_filter_iff {A} (P Q : A -> Prop) `{!forall x, Decision (P x)} l :
  Forall Q (base.filter P l) <-> Forall (fun x => P x -> Q x) l.
Proof.
  rewrite !Forall_forall. setoid_rewrite list_elem_of_filter. naive_solver.
Qed.

(** The identity at a height, in a journal of increasing heights. *)
Lemma identity_at_spec s n c :
  StronglySorted lower (identities s) ->
  identity_at s n = Some c <-> c ∈ identities s /\ block_number c = n.
Proof.
  unfold identity_at. intros Hs. induction Hs as [|x ids Hs IH Hx]; cbn [List.find].
  - split; [done|]. by intros [?%elem_of_nil _].
  - rewrite elem_of_cons. destruct (Z.eqb_spec (block_number x) n) as [<-|Hne].
    + split; [intros [= <-]; auto|]. intros [[->|Hc] Hn]; [done|]. exfalso.
      rewrite Forall_forall in Hx. apply Hx in Hc. unfold lower in Hc. lia.
    + rewrite IH. naive_solver.
Qed.

(** C11: A correction may restore exactly when its ancestor is anchored in the
    retained history and everything retained above it is proved to lie on the
    abandoned branch; what it restores is then the reducer as it was before the
    first retained eventful block above the ancestor, if there is one. *)
Theorem restore_point_iff s anc branch first :
  journal_ok s ->
  restore_point s anc branch = Ok first <->
  anchored s anc /\ branch_proved s anc branch
  /\ first = ob_before <$> head (base.filter (fun b => above anc (ob_cursor b)) (blocks s)).
Proof.
  intros [_ _ _ _ _ Hs]. unfold restore_point, anchored, branch_proved. rewrite unit_bind_ok, floor_ok.
  set (n := block_number (br_cursor anc)).
  assert (forall ids, check_retained (base.filter (fun c => n < block_number c) ids) anc branch = Ok tt
            <-> Forall (fun c => above anc c -> on_branch anc branch c) ids) as Hret.
  { intros ids. rewrite check_retained_ok; [by rewrite Forall_filter_iff|].
    by apply Forall_filter_iff, Forall_forall. }
  assert (forall bs, check_affected (base.filter (fun b => n < block_number (ob_cursor b)) bs) anc branch None
              = Ok first
            <-> Forall (fun b => above anc (ob_cursor b) -> on_branch anc branch (ob_cursor b)) bs
                /\ first = ob_before <$> head (base.filter (fun b => above anc (ob_cursor b)) bs)) as Haff.
  { intros bs. rewrite check_affected_ok; [by rewrite Forall_filter_iff|].
    by apply Forall_filter_iff, Forall_forall. }
  unfold validate_retained_branch. fold n.
  assert (forall c, identity_at s n = Some c <-> c ∈ identities s /\ block_number c = n) as Hat
    by (intros c; by apply identity_at_spec).
  destruct (identity_at s n) as [c|]; cbn [is_some is_some_and negb].
  - destruct (proj1 (Hat c) eq_refl) as [Hc Hn]. rewrite andb_false_r.
    destruct (identity_differs c (br_cursor anc)) eqn:E.
    + split; [by intros [_ ?]|]. intros ((_ & [(c' & Hc' & Hn' & Hs')|(Hno & _)]) & _); [|by destruct (Hno c)].
      assert (Some c = Some c') as [= <-] by by apply Hat. apply identity_differs_false in Hs'. congruence.
    + apply identity_differs_false in E. rewrite unit_bind_ok, Hret, Haff. naive_solver.
  - assert (forall c, c ∈ identities s -> block_number c <> n) as Hno.
    { intros c Hc Hn. by assert (None = Some c) by by apply Hat. }
    destruct (match rollback_floor s with Some f => block_number f <? n | None => true end) eqn:G;
      cbn [andb].
    + split; [by intros [_ ?]|]. intros ((_ & [(c' & Hc' & Hn' & _)|(_ & f & Hf & Hn)]) & _);
        [by destruct (Hno c')|]. rewrite Hf in G. apply Z.ltb_lt in G. lia.
    + destruct (rollback_floor s) as [f|] eqn:Hf; [|done]. apply Z.ltb_ge in G.
      rewrite unit_bind_ok, Hret, Haff. split.
      * intros (Hfl & Hr & Ha & Ho). split_and!; try done. right. split; [done|]. exists f.
        split; [done|]. destruct (Hfl f eq_refl) as [_ [?|[? _]]]; subst n; lia.
      * intros ((Hfl & _) & (Hr & Ha) & Ho). done.
Qed.

(** ** A run at concrete inputs

    Hash maps of 300,000 slots charge each before-image more than half the byte
    budget. *)

Lemma large_sizes :
  (forall _ : QuoteReducer, 0 <= 300000) /\ (forall _ : VerifiedRouterSnapshot, 0 <= 0)
  /\ 0 <= 96 /\ 0 <= 24 /\ 0 <= 72 /\ 0 <= 400 /\ 0 <= 128.
Proof. done. Qed.

#[local] Instance large_layout : ReducerLayout := {
  lanes_capacity _ := 300000;
  partner_fees_capacity _ := 0;
  size_of_lane_entry := 96;
  size_of_partner_entry := 24;
  size_of_VerifiedRouterSnapshot := 72;
  size_of_QuoteReducer := 400;
  size_of_QuoteState := 128;
  reducer_sizes_nonneg := large_sizes
}.

Definition height (n : Z) : ChainCursor := cursor_block 1 n (Some n) Realtime.
Definition block_at (n : Z) : BlockRef :=
  {| br_cursor := height n; br_parent_hash := Some (n - 1) |}.

(** The reducer before the event of block [n]: every block sets the multiplier to
    its own height. *)
Definition image (n : Z) : QuoteReducer :=
  reducer_new (set_multiplier (n - 1) QuoteState_default) Whitelisted None.

Definition eventful (n : Z) (s : JournalState) : JournalState :=
  record_event_identity (height n) (capture_before (height n) (image n) s).2.

(** Events in blocks 1, 2 and 3, then heads up to block [n]. *)
Definition run (n : Z) : JournalState :=
  foldl (fun s h => record_head_identity (height h) s)
    (eventful 3 (eventful 2 (eventful 1 (reset (height 0) JournalState_default))))
    (seqZ 4 (n - 3)).

Lemma journal_invariant_witness :
  rtc journal_step JournalState_default (reset (height 0) JournalState_default)
  /\ journal_ok (reset (height 0) JournalState_default) /\
  forall cursor r, exists s',
    enforce_loop
      (S (length (blocks (push_block cursor r (reset (height 0) JournalState_default)))))
      (push_block cursor r (reset (height 0) JournalState_default)) = Some s'
    /\ enforce_limits (push_block cursor r (reset (height 0) JournalState_default)) = s'
    /\ within_limits s'.
Proof.
  assert (rtc journal_step JournalState_default (reset (height 0) JournalState_default)) as Hr
    by (apply rtc_once; constructor).
  split; [exact Hr|]. exact (journal_invariant _ Hr).
Defined.

Lemma run_ok n : journal_ok (run n).
Proof.
  unfold run. generalize (seqZ 4 (n - 3)). intros l.
  cut (forall s, journal_ok s -> journal_ok (foldl (fun s h => record_head_identity (height h) s) s l)).
  { intros H. apply H. repeat apply record_identity_ok, capture_before_ok.
    apply (journal_step_ok _ _ (step_reset _ _)), journal_default_ok. }
  induction l as [|h l IH]; intros s Hs; [done|]. apply IH. by apply record_identity_ok.
Qed.

Lemma restore_point_iff_witness :
  restore_point (run 5) (block_at 2) [block_at 3; block_at 4; block_at 5] = Ok (Some (image 3))
  /\ (anchored (run 5) (block_at 2)
      /\ branch_proved (run 5) (block_at 2) [block_at 3; block_at 4; block_at 5]
      /\ Some (image 3)
         = ob_before <$> head (base.filter (fun b => above (block_at 2) (ob_cursor b))
                                 (blocks (run 5)))).
Proof.
  assert (restore_point (run 5) (block_at 2) [block_at 3; block_at 4; block_at 5]
          = Ok (Some (image 3))) as H by (vm_compute; reflexivity).
  split; [exact H|].
  exact (proj1 (restore_point_iff (run 5) (block_at 2) [block_at 3; block_at 4; block_at 5]
                  (Some (image 3)) (run_ok 5)) H).
Defined.

(** C40: The byte budget drops the before-images of blocks 1 and 2 and raises the
    rollback floor to 2; evicting the identity of block 1 later lowers it to 1. A
    correction down to block 1 is then accepted and restores the image taken
    before block 3, in which the event of the abandoned block 2 is still applied. *)
Theorem eviction_lowers_rollback_floor :
  rollback_floor (run 128) = Some (height 2)
  /\ is_ok (restore_point (run 128) (block_at 1) (block_at <$> seqZ 2 127)) = false
  /\ rollback_floor (run 129) = Some (height 1)
  /\ restore_point (run 129) (block_at 1) (block_at <$> seqZ 2 128) = Ok (Some (image 3))
  /\ red_state (image 3) <> red_state (image 2).
Proof. vm_compute. split_and!; done. Qed.
