(* ===== verification/Validation.v ===== *)
(** * Identity, coverage and handoff order
    (crates/lunarbase-client/src/indexer/engine/validation.rs)

    What a snapshot or the canonical floor already covers, the identity of Core
    logs, and the order in which a handoff is replayed. *)

From S2P Require Import Prelude StableSort Arithmetic Slot0 State Model Reducer IndexerTypes.

Definition validate_verified_router_snapshot (snapshot : BootstrapSnapshot)
    (deployment : DeploymentConfig) : result IndexerError.t unit :=
  let mismatch :=
    Err (IndexerError.Source
           (SourceUnavailable "snapshot verified-router policy does not match deployment")) in
  match verified_router deployment, snapshot_verified_router snapshot with
  | None, None => Ok tt
  | Some expected, Some actual =>
      let st := snapshot_state snapshot in
      if (router actual =? expected)
         && (Z.of_nat (size (partner_fee_bps actual))
               <=? uint_saturating_add USIZE (Z.of_nat (size (lanes st))) 1)
         && forallb (fun '(asset, fee) =>
              ((asset =? cash st) || is_some (lanes st !! asset)) && (fee <=? BPS))
              (map_to_list (partner_fee_bps actual))
      then Ok tt else mismatch
  | _, _ => mismatch
  end.

Definition validate_core_log_identity (log : ContractLog) (expected_core : Address)
    (expected_chain_id : Z) : result IndexerError.t unit :=
  if negb (log_address log =? expected_core)
  then Err (IndexerError.Reducer ContractAddressMismatch)
  else if negb (chain_id (log_cursor log) =? expected_chain_id)
  then Err (IndexerError.Reducer ChainIdMismatch)
  else Ok tt.

Definition validate_core_recovery_log (log : ContractLog) (expected_core : Address)
    (expected_chain_id : Z) (from_block to_block : Z) : result IndexerError.t unit :=
  _ ← validate_core_log_identity log expected_core expected_chain_id;
  if log_removed log || negb (is_some (block_hash (log_cursor log)))
     || negb ((from_block <=? block_number (log_cursor log))
              && (block_number (log_cursor log) <=? to_block))
  then Err (IndexerError.Gap "canonical recovery backfill returned an invalid log")
  else Ok tt.

Definition snapshot_covers (update snapshot : ChainCursor) : result IndexerError.t bool :=
  if negb (chain_id update =? chain_id snapshot)
  then Err (IndexerError.Reducer ChainIdMismatch)
  else if block_number update <? block_number snapshot then Ok true
  else if block_number snapshot <? block_number update then Ok false
  else
    match block_hash update, block_hash snapshot with
    | Some update_hash, Some snapshot_hash =>
        if update_hash =? snapshot_hash then
          if execution_block_number update =? execution_block_number snapshot
          then Ok (negb (commitment_ltb (commitment snapshot) (commitment update)))
          else Err (IndexerError.Reducer BlockHashMismatch)
        else Ok false
    | _, _ =>
        Err (IndexerError.Gap
               "same-block handoff has no hash identity; canonical recovery required")
    end.

Definition canonical_floor_covers_log (update floor : ChainCursor) : result IndexerError.t bool :=
  if negb (chain_id update =? chain_id floor)
  then Err (IndexerError.Reducer ChainIdMismatch)
  else if block_number update <? block_number floor then Ok true
  else if block_number floor <? block_number update then Ok false
  else
    match block_hash update, block_hash floor with
    | Some update_hash, Some floor_hash =>
        if update_hash =? floor_hash then
          if negb (execution_block_number update =? execution_block_number floor)
          then Err (IndexerError.Reducer BlockHashMismatch)
          else
            let floor_is_block_complete :=
              negb (is_some (transaction_index floor)) && negb (is_some (log_index floor)) in
            Ok (floor_is_block_complete || order_leb (event_order update) (event_order floor))
        else Err (IndexerError.Reducer BlockHashMismatch)
    | _, _ => Err (IndexerError.Gap "same-block realtime log has no canonical hash identity")
    end.

Definition update_cursor (update : ChainUpdate) : option ChainCursor :=
  match update with
  | Head head => Some (br_cursor head)
  | Log log => Some (log_cursor log)
  | Reorg _ new_head => Some (br_cursor new_head)
  | Correction correction => Some (br_cursor (new_tip correction))
  | Gap cursor _ _ => cursor
  end.

(** The six-tuple the updates are sorted by: an event order and a rank. *)
Definition UpdateOrder : Type := EventOrder * Z.

Definition branch_end_order (cursor : ChainCursor) (rank : Z) : UpdateOrder :=
  (block_number cursor, U32_MAX, U32_MAX, U64_MAX, U32_MAX, rank).

Definition update_order (update : ChainUpdate) : UpdateOrder :=
  match update with
  | Correction correction => branch_end_order (br_cursor (new_tip correction)) 2
  | Reorg _ new_head => branch_end_order (br_cursor new_head) 3
  | _ =>
      let order := match update_cursor update with
                   | Some cursor => event_order cursor
                   | None => (U64_MAX, 0, 0, 0, 0)
                   end in
      let rank := match update with
                  | Head _ => 0
                  | Log _ => 1
                  | Correction _ => 2
                  | Reorg _ _ => 3
                  | Gap _ _ _ => 4
                  end in
      (order, rank)
  end.

Definition update_order_ltb (x y : UpdateOrder) : bool :=
  order_ltb x.1 y.1 || (bool_decide (x.1 = y.1) && (x.2 <? y.2)).

Section Sorting.
Context {A : Type} (view : A -> ChainUpdate).

Definition sort_by_update_order (l : list A) : list A :=
  sort_by_key update_order_ltb (fun x => update_order (view x)) l.

Definition is_barrier (update : ChainUpdate) : bool :=
  match update with
  | Correction _ | Reorg _ _ | Gap _ _ _ => true
  | Head _ | Log _ => false
  end.

(** The loop over indices; [segment] is [updates[segment_start..index]]. *)
Fixpoint sort_segments (segment updates : list A) : list A :=
  match updates with
  | [] => sort_by_update_order segment
  | update :: rest =>
      if is_barrier (view update)
      then sort_by_update_order segment ++ update :: sort_segments [] rest
      else sort_segments (segment ++ [update]) rest
  end.

End Sorting.

Definition sort_chain_updates (updates : list ChainUpdate) : list ChainUpdate :=
  sort_segments (fun u => u) [] updates.
Definition sort_chain_update_refs (updates : list ChainUpdate) : list ChainUpdate :=
  sort_segments (fun u => u) [] updates.
Definition sort_chain_update_refs_with_indices (updates : list (Z * ChainUpdate))
    : list (Z * ChainUpdate) :=
  sort_segments snd [] updates.
