(* ===== verification/ValidationFacts.v ===== *)
(** * Correctness of the handoff order

    The replay order of a buffered batch: stable, sorted between barriers, and
    nothing crosses a correction, reorg or gap. *)

From S2P Require Import Prelude StableSort Arithmetic Slot0 State Model Reducer IndexerTypes Validation.

Definition update_order_lt (x y : UpdateOrder) : Prop :=
  order_lt x.1 y.1 \/ x.1 = y.1 /\ x.2 < y.2.
Definition update_order_le (x y : UpdateOrder) : Prop := x = y \/ update_order_lt x y.

Lemma update_order_ltb_spec x y : update_order_ltb x y = true <-> update_order_lt x y.
Proof.
  unfold update_order_ltb, update_order_lt.
  by rewrite orb_true_iff, andb_true_iff, bool_decide_eq_true, Z.ltb_lt.
Qed.

#[export] Instance update_order_lt_trans : Transitive update_order_lt.
Proof.
  unfold update_order_lt. intros [o r] [o' r'] [o'' r'']. cbn. intros [H|[-> H]] [H'|[-> H']]; auto.
  - left. by transitivity o'.
  - right. split; [done|lia].
Qed.

#[export] Instance update_order_total_key : TotalKey update_order_ltb.
Proof.
  split.
  - intros k. apply not_true_iff_false. rewrite update_order_ltb_spec.
    intros [H|[_ H]]; [by apply (irreflexivity order_lt) in H|lia].
  - intros x y z. rewrite !update_order_ltb_spec. apply transitivity.
  - intros x y. rewrite <-not_true_iff_false, !update_order_ltb_spec. unfold update_order_lt.
    destruct x as [o r], y as [o' r']. cbn. intros Hn.
    destruct (order_lt_total o o') as [|[->|]]; [tauto| |by right; left].
    destruct (Z.lt_trichotomy r r') as [|[->|]]; [tauto|by left|]. right. by right.
Qed.

Section Sorted.
Context {A : Type} (view : A -> ChainUpdate).

(** The stable sort of a run by update order. *)
Definition sorted_run : list A -> list A -> Prop :=
  sorted_copy update_order_ltb (fun x => update_order (view x)).

(** Every run between barriers is stably sorted in place. *)
Inductive sorted_between_barriers : list A -> list A -> Prop :=
| last_run l l' :
    Forall (fun x => is_barrier (view x) = false) l -> sorted_run l l' ->
    sorted_between_barriers l l'
| run_barrier l l' b rest rest' :
    Forall (fun x => is_barrier (view x) = false) l -> sorted_run l l' ->
    is_barrier (view b) = true -> sorted_between_barriers rest rest' ->
    sorted_between_barriers (l ++ b :: rest) (l' ++ b :: rest').

Lemma sort_by_update_order_spec l : sorted_run l (sort_by_update_order view l).
Proof. exact (sort_by_key_sorted update_order_ltb _ l). Qed.

Lemma sort_segments_spec segment updates :
  Forall (fun x => is_barrier (view x) = false) segment ->
  sorted_between_barriers (segment ++ updates) (sort_segments view segment updates).
Proof.
  revert segment. induction updates as [|u updates IH]; intros segment Hs; cbn [sort_segments].
  - rewrite app_nil_r. apply last_run; [done|apply sort_by_update_order_spec].
  - destruct (is_barrier (view u)) eqn:E.
    + apply run_barrier; [done|apply sort_by_update_order_spec|done|]. by apply (IH []).
    + specialize (IH (segment ++ [u])). rewrite <-app_assoc in IH. apply IH.
      apply Forall_app. split; [done|by repeat constructor].
Qed.

End Sorted.

