(* ===== verification/Engine.v ===== *)
(** * The quote engine (crates/lunarbase-client/src/indexer/engine.rs and
    engine/{bootstrap,correction,finality,retention}.rs)

    The synchronous state machine behind every quote. A [&mut self] operation
    returns the engine it leaves behind, on errors too; [Arc] sharing is value
    semantics. *)

From S2P Require Import Prelude Arithmetic Slot0 State Quote Model Correction Reducer.
From S2P Require Import IndexerTypes Journal Validation Abi.

Record AppliedCorrection := {
  applied_fingerprint : B256;
  applied_tip : ChainCursor
}.

Record QuoteIndexer := {
  reducer : QuoteReducer;
  deployment : DeploymentConfig;
  canonical_floor : option ChainCursor;
  stable_checkpoint : option Checkpoint;
  finalized_floor : option ChainCursor;
  optimistic_history : JournalState;
  last_correction : option AppliedCorrection
}.

Definition set_reducer (r : QuoteReducer) (ix : QuoteIndexer) : QuoteIndexer :=
  {| reducer := r; deployment := deployment ix; canonical_floor := canonical_floor ix;
     stable_checkpoint := stable_checkpoint ix; finalized_floor := finalized_floor ix;
     optimistic_history := optimistic_history ix; last_correction := last_correction ix |}.
Definition set_canonical (c : option ChainCursor) (ix : QuoteIndexer) : QuoteIndexer :=
  {| reducer := reducer ix; deployment := deployment ix; canonical_floor := c;
     stable_checkpoint := stable_checkpoint ix; finalized_floor := finalized_floor ix;
     optimistic_history := optimistic_history ix; last_correction := last_correction ix |}.
Definition set_stable_checkpoint (k : option Checkpoint) (ix : QuoteIndexer) : QuoteIndexer :=
  {| reducer := reducer ix; deployment := deployment ix; canonical_floor := canonical_floor ix;
     stable_checkpoint := k; finalized_floor := finalized_floor ix;
     optimistic_history := optimistic_history ix; last_correction := last_correction ix |}.
Definition set_finalized_floor (c : option ChainCursor) (ix : QuoteIndexer) : QuoteIndexer :=
  {| reducer := reducer ix; deployment := deployment ix; canonical_floor := canonical_floor ix;
     stable_checkpoint := stable_checkpoint ix; finalized_floor := c;
     optimistic_history := optimistic_history ix; last_correction := last_correction ix |}.
Definition set_history (s : JournalState) (ix : QuoteIndexer) : QuoteIndexer :=
  {| reducer := reducer ix; deployment := deployment ix; canonical_floor := canonical_floor ix;
     stable_checkpoint := stable_checkpoint ix; finalized_floor := finalized_floor ix;
     optimistic_history := s; last_correction := last_correction ix |}.
Definition set_last_correction (a : option AppliedCorrection) (ix : QuoteIndexer) : QuoteIndexer :=
  {| reducer := reducer ix; deployment := deployment ix; canonical_floor := canonical_floor ix;
     stable_checkpoint := stable_checkpoint ix; finalized_floor := finalized_floor ix;
     optimistic_history := optimistic_history ix; last_correction := a |}.

Abbreviation action := (method QuoteIndexer IndexerError.t).

Definition on_reducer {A} (m : method QuoteReducer ReducerError A) : action A :=
  on_field reducer set_reducer IndexerError.Reducer m.
Definition on_history (f : JournalState -> JournalState) : action unit :=
  modify (fun ix => set_history (f (optimistic_history ix)) ix).

Definition mark_not_ready (ix : QuoteIndexer) : QuoteIndexer :=
  set_reducer (reducer_mark_not_ready (reducer ix)) ix.

(** [self.reducer.mark_not_ready(); return Err(error)] *)
Definition refuse {A} (error : IndexerError.t) : action A :=
  _ ← modify mark_not_ready; fail error.

(** [if let Err(error) = m { self.reducer.mark_not_ready(); return Err(error) }] *)
Definition or_refuse {A} (m : action A) : action A := fun ix =>
  match m ix with
  | (Ok a, ix') => (Ok a, ix')
  | (Err error, ix') => (Err error, mark_not_ready ix')
  end.

(** ** Prepared quotes *)

Definition MAX_BATCH_QUOTES : Z := 256.

Record PreparedQuoteSnapshot := {
  prepared_state : QuoteState;
  prepared_cursor : ChainCursor;
  prepared_implementation_code_hash : B256;
  prepared_fee_class : FeeClass;
  prepared_verified_router : option VerifiedRouterSnapshot
}.

Definition policy_for (self : PreparedQuoteSnapshot) (request : QuoteRequest) : QuotePolicy :=
  let fee_asset := match mode request with
                   | ExactIn => asset_out request
                   | ExactOut => asset_in request
                   end in
  match prepared_verified_router self with
  | None => policy_base (prepared_fee_class self)
  | Some verified =>
      with_verified_partner_fee (prepared_fee_class self)
        (default 0 (partner_fee_bps verified !! fee_asset))
  end.

Definition evaluate (self : PreparedQuoteSnapshot) (request : QuoteRequest)
    : result IndexerError.t ClientQuote :=
  outcome ← from_quote (quote request (execution_block_number (prepared_cursor self))
                          (prepared_state self) (policy_for self request));
  Ok {| cq_outcome := outcome;
        cq_cursor := prepared_cursor self;
        cq_execution_block_number := execution_block_number (prepared_cursor self);
        cq_implementation_code_hash := prepared_implementation_code_hash self;
        cq_math_compatibility_version := MATH_COMPATIBILITY_VERSION;
        cq_fee_class := prepared_fee_class self;
        cq_verified_router := router <$> prepared_verified_router self |}.

Fixpoint evaluate_outcomes (self : PreparedQuoteSnapshot) (requests : list QuoteRequest)
    : result IndexerError.t (list QuoteOutcome) :=
  match requests with
  | [] => Ok []
  | request :: rest =>
      outcome ← from_quote (quote request (execution_block_number (prepared_cursor self))
                              (prepared_state self) (policy_for self request));
      outcomes ← evaluate_outcomes self rest;
      Ok (outcome :: outcomes)
  end.

Definition evaluate_many (self : PreparedQuoteSnapshot) (requests : list QuoteRequest)
    : result IndexerError.t ClientBatchQuote :=
  outcomes ← evaluate_outcomes self requests;
  Ok {| cb_outcomes := outcomes;
        cb_cursor := prepared_cursor self;
        cb_execution_block_number := execution_block_number (prepared_cursor self);
        cb_implementation_code_hash := prepared_implementation_code_hash self;
        cb_math_compatibility_version := MATH_COMPATIBILITY_VERSION;
        cb_fee_class := prepared_fee_class self;
        cb_verified_router := router <$> prepared_verified_router self |}.

Definition indexer_state (self : QuoteIndexer) : result IndexerError.t QuoteState :=
  if negb (reducer_is_ready (reducer self)) then Err IndexerError.NotReady
  else Ok (red_state (reducer self)).

Definition prepare_snapshot (self : QuoteIndexer) : result IndexerError.t PreparedQuoteSnapshot :=
  _ ← indexer_state self;
  let state := red_state (reducer self) in
  cursor ← ok_or (red_cursor (reducer self)) IndexerError.NoCursor;
  Ok {| prepared_state := state;
        prepared_cursor := cursor;
        prepared_implementation_code_hash :=
          dep_expected_implementation_code_hash (deployment self);
        prepared_fee_class := red_fee_class (reducer self);
        prepared_verified_router := red_verified_router (reducer self) |}.

Definition prepare_quote (self : QuoteIndexer) : result IndexerError.t PreparedQuoteSnapshot :=
  prepare_snapshot self.

Definition prepare_quote_many (self : QuoteIndexer) (requests : list QuoteRequest)
    : result IndexerError.t PreparedQuoteSnapshot :=
  if MAX_BATCH_QUOTES <? Z.of_nat (length requests)
  then Err (IndexerError.InvalidRequest "quote_many accepts at most 256 requests")
  else prepare_snapshot self.

Definition indexer_quote (self : QuoteIndexer) (request : QuoteRequest)
    : result IndexerError.t ClientQuote :=
  prepared ← prepare_quote self; evaluate prepared request.

Definition quote_many (self : QuoteIndexer) (requests : list QuoteRequest)
    : result IndexerError.t ClientBatchQuote :=
  prepared ← prepare_quote_many self requests; evaluate_many prepared requests.

Definition health (self : QuoteIndexer) : IndexerHealth :=
  let cursor := red_cursor (reducer self) in
  {| health_ready := reducer_is_ready (reducer self);
     health_commitment := match cursor with
                          | None => Realtime
                          | Some cursor => commitment cursor
                          end;
     health_cursor := cursor;
     health_execution_block_number := execution_block_number <$> cursor;
     health_implementation_code_hash := dep_expected_implementation_code_hash (deployment self);
     health_math_compatibility_version := MATH_COMPATIBILITY_VERSION;
     health_fee_class := dep_fee_class (deployment self);
     health_verified_router := verified_router_address (reducer self) |}.

Definition checkpoint (self : QuoteIndexer) : option Checkpoint := stable_checkpoint self.
Definition shutdown (self : QuoteIndexer) : QuoteIndexer := mark_not_ready self.

(** ** Construction *)

Definition indexer_new (st : QuoteState) (d : DeploymentConfig) : QuoteIndexer :=
  {| reducer := reducer_new st (dep_fee_class d) None; deployment := d; canonical_floor := None;
     stable_checkpoint := None; finalized_floor := None;
     optimistic_history := JournalState_default; last_correction := None |}.

Definition from_checkpoint (k : Checkpoint) (d : DeploymentConfig)
    : result IndexerError.t QuoteIndexer :=
  if negb (is_compatible k d) then Err IndexerError.CodeHashMismatch
  else if is_some (verified_router d)
  then Err (IndexerError.InvalidRequest "verified-router mode requires a fresh chain snapshot")
  else
    let floor := ck_cursor k in
    let finalized := if bool_decide (commitment floor = Finalized) then Some floor else None in
    let red := reducer_from_checkpoint k (dep_fee_class d) in
    let history := reset floor JournalState_default in
    Ok {| reducer := red; deployment := d; canonical_floor := Some floor;
          stable_checkpoint := reducer_checkpoint red d; finalized_floor := finalized;
          optimistic_history := history; last_correction := None |}.

(** ** finality.rs *)

Definition require_hash (cursor : ChainCursor) : result IndexerError.t unit :=
  if negb (is_some (block_hash cursor))
  then Err (IndexerError.Gap "finalized cursor has no immutable block hash")
  else Ok tt.

Definition require_same_identity (left right : ChainCursor) : result IndexerError.t unit :=
  if negb (execution_block_number left =? execution_block_number right)
     || negb (is_some (block_hash left))
     || negb (bool_decide (block_hash left = block_hash right))
  then Err (IndexerError.Reducer BlockHashMismatch)
  else Ok tt.

Definition validate_floor_coverage (floor candidate : ChainCursor) (context : string)
    : result IndexerError.t unit :=
  if negb (chain_id floor =? chain_id candidate)
  then Err (IndexerError.Reducer ChainIdMismatch)
  else if block_number candidate <? block_number floor
  then Err (IndexerError.Gap (context +:+ " regressed below the finalized floor"))
  else if block_number candidate =? block_number floor
  then require_same_identity floor candidate
  else Ok tt.

Definition validate_finalized_update (self : QuoteIndexer) (cursor : ChainCursor)
    : result IndexerError.t unit :=
  if negb (bool_decide (commitment cursor = Finalized)) then Ok tt
  else
    _ ← require_hash cursor;
    match finalized_floor self with
    | None => Ok tt
    | Some floor =>
        if negb (chain_id cursor =? chain_id floor)
        then Err (IndexerError.Reducer ChainIdMismatch)
        else if block_number cursor =? block_number floor
        then require_same_identity floor cursor
        else Ok tt
    end.

(** The cursor without its position inside the block. *)
Definition block_level_cursor (c : ChainCursor) : ChainCursor :=
  {| chain_id := chain_id c; block_number := block_number c;
     execution_block_number := execution_block_number c; block_hash := block_hash c;
     transaction_index := None; log_index := None; source_sequence := None;
     source_sub_index := None; commitment := commitment c |}.

Definition record_finalized_update (cursor : ChainCursor) : action unit :=
  self ← get;
  _ ← lift (validate_finalized_update self cursor);
  if negb (bool_decide (commitment cursor = Finalized))
     || is_some_and (finalized_floor self) (fun floor => block_number cursor <=? block_number floor)
  then mret tt
  else modify (set_finalized_floor (Some (block_level_cursor cursor))).

Definition validate_finalized_ancestor (self : QuoteIndexer) (ancestor : BlockRef)
    : result IndexerError.t unit :=
  match finalized_floor self with
  | None => Ok tt
  | Some floor => validate_floor_coverage floor (br_cursor ancestor) "correction"
  end.

Definition validate_finalized_recovery (self : QuoteIndexer) (snapshot : ChainCursor)
    : result IndexerError.t unit :=
  match finalized_floor self with
  | None => Ok tt
  | Some floor =>
      _ ← validate_floor_coverage floor snapshot "recovery snapshot";
      if (block_number snapshot =? block_number floor)
         && negb (bool_decide (commitment snapshot = Finalized))
      then Err (IndexerError.Gap "recovery snapshot weakened the finalized floor commitment")
      else Ok tt
  end.

Definition finalized_validation_checkpoint (self : QuoteIndexer) (stable : Checkpoint)
    : option Checkpoint :=
  floor ← finalized_floor self;
  if block_number floor <=? block_number (ck_cursor stable) then None
  else Some {| schema_version := schema_version stable;
               math_compatibility_version := math_compatibility_version stable;
               expected_implementation := expected_implementation stable;
               expected_implementation_code_hash := expected_implementation_code_hash stable;
               ck_chain_id := ck_chain_id stable; ck_network := ck_network stable;
               ck_core := ck_core stable; deployment_block := deployment_block stable;
               explicit_lane_assets := explicit_lane_assets stable;
               ck_cursor := floor; ck_state := ck_state stable |}.

(** ** correction.rs *)

Section Engine.
Context `{MemLayout, ReducerLayout, Keccak, Alloy}.

Definition capture_if_changed (cursor : ChainCursor) (before : QuoteReducer) (changed : bool)
    : action unit :=
  if changed then on_history (fun s => (capture_before cursor before s).2) else mret tt.

Definition apply_decoded_log (cursor : ChainCursor) (event : option QuoteEvent) : action unit :=
  self ← get;
  _ ← lift (validate_finalized_update self cursor);
  _ ← lift (validate_event_identity (optimistic_history self) cursor);
  match event with
  | None =>
      _ ← on_history (record_event_identity cursor);
      record_finalized_update cursor
  | Some event =>
      changed ← (if needs_capture (optimistic_history self) cursor then
                   let before := reducer self in
                   changed ← on_reducer (apply_with_effect cursor event);
                   _ ← capture_if_changed cursor before changed;
                   mret changed
                 else on_reducer (apply_with_effect cursor event));
      _ ← on_history (record_event_identity cursor);
      _ ← record_finalized_update cursor;
      if (changed : bool) then modify (set_last_correction None) else mret tt
  end.

Definition observe_covered_correction (correction : ChainCorrection) : action unit :=
  self ← get;
  let fp := fingerprint correction in
  let tip := br_cursor (new_tip correction) in
  let observe :=
    modify (set_last_correction (Some {| applied_fingerprint := fp; applied_tip := tip |})) in
  match last_correction self with
  | Some applied =>
      if block_number tip <? block_number (applied_tip applied) then mret tt
      else if block_number tip =? block_number (applied_tip applied) then
        if negb (applied_fingerprint applied =? fp)
        then fail (correction_gap
               "snapshot-covered correction conflicts with the retained delta identity")
        else mret tt
      else observe
  | None => observe
  end.

Definition validate_correction_identity (self : QuoteIndexer) (correction : ChainCorrection)
    : result IndexerError.t unit :=
  _ ← match canonical_floor self with
      | Some floor => validate_rollback_floor (Some floor) (common_ancestor correction)
      | None => Ok tt
      end;
  current ← ok_or (red_cursor (reducer self)) IndexerError.NoCursor;
  let tip := br_cursor (old_tip correction) in
  if negb (chain_id current =? chain_id tip)
     || negb (block_number current =? block_number tip)
     || negb (execution_block_number current =? execution_block_number tip)
     || negb (is_some (block_hash current))
     || negb (bool_decide (block_hash current = block_hash tip))
  then Err (correction_gap "correction old tip does not match the published optimistic head")
  else if bool_decide (commitment current = Finalized)
  then Err (correction_gap "correction cannot replace a finalized tip")
  else Ok tt.

Fixpoint validate_log_identities (logs : list ContractLog) (core : Address) (chain : Z)
    : result IndexerError.t unit :=
  match logs with
  | [] => Ok tt
  | log :: logs => _ ← validate_core_log_identity log core chain; validate_log_identities logs core chain
  end.

(** [for log in &correction.replacement_logs { decode; apply }] *)
Fixpoint replay_logs (logs : list ContractLog) : action unit :=
  match logs with
  | [] => mret tt
  | log :: logs =>
      event ← lift (from_decode (decode_core_event log));
      _ ← apply_decoded_log (log_cursor log) event;
      replay_logs logs
  end.

(** The retained correction is this one and the published cursor is past it. *)
Definition already_applied (self : QuoteIndexer) (fp : B256) : bool :=
  is_some_and (last_correction self) (fun applied =>
    (applied_fingerprint applied =? fp)
    && is_some_and (red_cursor (reducer self)) (fun current =>
         bool_decide (result_ok (snapshot_covers (applied_tip applied) current) = Some true))).

Definition is_at_tip (self : QuoteIndexer) (tip : ChainCursor) : bool :=
  is_some_and (red_cursor (reducer self)) (fun current =>
    (chain_id current =? chain_id tip)
    && (block_number current =? block_number tip)
    && (execution_block_number current =? execution_block_number tip)
    && is_some (block_hash current)
    && bool_decide (block_hash current = block_hash tip)).

(** The part of [into_corrected_core] that builds the replacement. *)
Definition rebuild (correction : ChainCorrection) : action unit :=
  self ← get;
  let tip := br_cursor (new_tip correction) in
  restore ← lift (restore_point (optimistic_history self) (common_ancestor correction)
                    (old_branch correction));
  _ ← on_history (rewind_after (common_ancestor correction));
  _ ← match restore with
      | Some red => modify (set_reducer red)
      | None => mret tt
      end;
  _ ← on_reducer (rewind_head (br_cursor (common_ancestor correction)));
  _ ← on_history (fun s =>
        foldl (fun s block => record_head_identity (br_cursor block) s) s (new_branch correction));
  _ ← replay_logs (replacement_logs correction);
  _ ← on_reducer (observe_corrected_head tip);
  _ ← record_finalized_update tip;
  modify (set_last_correction
    (Some {| applied_fingerprint := fingerprint correction; applied_tip := tip |})).

Definition corrected_core (correction : ChainCorrection) : action bool :=
  self ← get;
  _ ← lift (from_source (correction_validate correction));
  let fp := fingerprint correction in
  let tip := br_cursor (new_tip correction) in
  if negb (chain_id (br_cursor (common_ancestor correction)) =? dep_chain_id (deployment self))
  then fail (IndexerError.Reducer ChainIdMismatch)
  else
  _ ← lift (validate_log_identities (replacement_logs correction) (dep_core (deployment self))
              (dep_chain_id (deployment self)));
  if already_applied self fp then mret false
  else if is_at_tip self tip then
    if is_some_and (last_correction self) (fun applied =>
         (applied_fingerprint applied =? fp) && bool_decide (applied_tip applied = tip))
    then mret false
    else fail (correction_gap "correction new tip was observed without a matching applied delta")
  else
  _ ← lift (validate_correction_identity self correction);
  _ ← lift (validate_finalized_ancestor self (common_ancestor correction));
  if negb (reducer_is_ready (reducer self)) then fail IndexerError.NotReady
  else _ ← rebuild correction; mret true.

(** [into_corrected_core(self)] consumes its engine: on an error nothing of it is
    left. *)
Definition into_corrected_core (correction : ChainCorrection) (self : QuoteIndexer)
    : result IndexerError.t (QuoteIndexer * bool) :=
  match corrected_core correction self with
  | (Ok applied, self') => Ok (self', applied)
  | (Err error, _) => Err error
  end.

(** [self.clone().into_corrected_core(..)] *)
Definition replace_with_correction (correction : ChainCorrection) : action bool := fun self =>
  match into_corrected_core correction self with
  | Ok (_, false) => (Ok false, self)
  | Ok (candidate, true) => (Ok true, candidate)
  | Err error => (Err error, mark_not_ready self)
  end.

(** ** engine.rs *)

Definition canonical_floor_covers_core_log (log : ContractLog) : action bool :=
  self ← get;
  _ ← or_refuse (lift (validate_core_log_identity log (dep_core (deployment self))
                         (dep_chain_id (deployment self))));
  if log_removed log then mret false
  else match canonical_floor self with
       | None => mret false
       | Some floor => lift (canonical_floor_covers_log (log_cursor log) floor)
       end.

Definition validate_core_update_identity (update : ChainUpdate) : action unit :=
  self ← get;
  or_refuse (lift
    match update with
    | Log log =>
        validate_core_log_identity log (dep_core (deployment self)) (dep_chain_id (deployment self))
    | Correction correction =>
        _ ← from_source (correction_validate correction);
        if negb (chain_id (br_cursor (common_ancestor correction)) =? dep_chain_id (deployment self))
        then Err (IndexerError.Reducer ChainIdMismatch)
        else validate_log_identities (replacement_logs correction) (dep_core (deployment self))
               (dep_chain_id (deployment self))
    | Head _ | Reorg _ _ | Gap _ _ _ => Ok tt
    end).

(** The published head is the observed one, not a stale one that was ignored. *)
Definition head_published (published cursor : ChainCursor) : bool :=
  (chain_id published =? chain_id cursor)
  && (block_number published =? block_number cursor)
  && (execution_block_number published =? execution_block_number cursor)
  && bool_decide (block_hash published = block_hash cursor).

Definition apply_validated_update (update : ChainUpdate)
    (decoder : ContractLog -> option QuoteEvent) : action unit :=
  match update with
  | Log log =>
      if log_removed log then refuse (IndexerError.Reducer RemovedLog)
      else
        let event := decoder log in
        or_refuse (apply_decoded_log (log_cursor log) event)
  | Head head =>
      let cursor := br_cursor head in
      self ← get;
      _ ← lift (validate_finalized_update self cursor);
      _ ← or_refuse (on_reducer (observe_head cursor));
      self ← get;
      _ ← match red_cursor (reducer self) with
          | Some published =>
              if head_published published cursor
              then on_history (record_head_identity published) else mret tt
          | None => mret tt
          end;
      record_finalized_update cursor
  | Reorg _ _ => refuse (IndexerError.Gap "reorg requires canonical recovery")
  | Correction _ =>
      refuse (IndexerError.Gap "optimistic correction requires the correction journal")
  | Gap _ reason _ => refuse (IndexerError.Gap reason)
  end.

Definition apply_update (update : ChainUpdate) (decoder : ContractLog -> option QuoteEvent)
    : action unit :=
  _ ← validate_core_update_identity update;
  apply_validated_update update decoder.

(** [if let Some(floor) = .. && canonical_floor_covers_log(..)?] *)
Definition floor_covers (self : QuoteIndexer) (cursor : ChainCursor)
    : result IndexerError.t bool :=
  match canonical_floor self with
  | Some floor => canonical_floor_covers_log cursor floor
  | None => Ok false
  end.

Definition apply_core_log_borrowed_validated (log : ContractLog) : action bool :=
  if log_removed log then refuse (IndexerError.Reducer RemovedLog)
  else
    self ← get;
    covered ← lift (floor_covers self (log_cursor log));
    if (covered : bool) then mret false
    else
      event ← lift (from_decode (decode_core_event log));
      _ ← or_refuse (apply_decoded_log (log_cursor log) event);
      mret true.

Definition apply_core_log_borrowed (log : ContractLog) : action bool :=
  self ← get;
  _ ← or_refuse (lift (validate_core_log_identity log (dep_core (deployment self))
                         (dep_chain_id (deployment self))));
  apply_core_log_borrowed_validated log.

Definition apply_core_update_borrowed (update : ChainUpdate) : action unit :=
  _ ← validate_core_update_identity update;
  match update with
  | Correction correction => _ ← replace_with_correction correction; mret tt
  | Log log => _ ← apply_core_log_borrowed_validated log; mret tt
  | Head head => apply_validated_update (Head head) (fun _ => None)
  | Reorg old_head new_head => apply_validated_update (Reorg old_head new_head) (fun _ => None)
  | Gap cursor reason capacity =>
      apply_validated_update (Gap cursor reason capacity) (fun _ => None)
  end.

Definition apply_validated_core_update (update : ChainUpdate) : action unit :=
  match update with
  | Correction correction => _ ← replace_with_correction correction; mret tt
  | Log log =>
      if log_removed log then apply_validated_update update (fun _ => None)
      else
        self ← get;
        covered ← lift (floor_covers self (log_cursor log));
        if (covered : bool) then mret tt
        else
          event ← lift (from_decode (decode_core_event log));
          apply_validated_update update (fun _ => event)
  | _ => apply_validated_update update (fun _ => None)
  end.

Definition set_canonical_floor (cursor : ChainCursor) : action unit :=
  self ← get;
  current ← lift (ok_or (red_cursor (reducer self)) IndexerError.NoCursor);
  if negb (chain_id current =? chain_id cursor)
  then refuse (IndexerError.Reducer ChainIdMismatch)
  else if is_some (transaction_index cursor) || is_some (log_index cursor)
          || negb (block_number current =? block_number cursor)
          || negb (execution_block_number current =? execution_block_number cursor)
          || negb (is_some (block_hash current))
          || negb (bool_decide (block_hash current = block_hash cursor))
  then refuse (IndexerError.Reducer BlockHashMismatch)
  else
    _ ← modify (set_canonical (Some cursor));
    _ ← on_history (advance_floor cursor);
    modify (fun ix => set_stable_checkpoint (reducer_checkpoint (reducer ix) (deployment ix)) ix).

(** ** retention.rs *)

Definition apply_core_update (update : ChainUpdate) : action unit :=
  _ ← validate_core_update_identity update;
  apply_validated_core_update update.

Definition apply_core_log_for_delivery (log : ContractLog) : action (option ContractLog) :=
  deliver ← apply_core_log_borrowed log;
  if negb (deliver : bool) then mret None else mret (Some log).

(** ** bootstrap.rs and the handoff *)

Record CorrectionNotice := {
  notice_common_ancestor : Z;
  notice_old_tip_hash : B256;
  notice_new_tip_hash : B256;
  notice_replacement_logs : Z
}.

(** [expect] on the tips of a validated correction, which have a hash. *)
Definition from_validated (correction : ChainCorrection) : CorrectionNotice :=
  {| notice_common_ancestor := block_number (br_cursor (common_ancestor correction));
     notice_old_tip_hash := default B256_ZERO (block_hash (br_cursor (old_tip correction)));
     notice_new_tip_hash := default B256_ZERO (block_hash (br_cursor (new_tip correction)));
     notice_replacement_logs := Z.of_nat (length (replacement_logs correction)) |}.

Definition apply_validated_core_update_borrowed_with_notice (update : ChainUpdate)
    : action (option CorrectionNotice) :=
  match update with
  | Correction correction =>
      let notice := from_validated correction in
      applied ← replace_with_correction correction;
      mret (if (applied : bool) then Some notice else None)
  | _ => _ ← apply_core_update_borrowed update; mret None
  end.

(** [Some true] when the update is already in the snapshot at [base]. *)
Definition covered_by (base : ChainCursor) (update : ChainUpdate) : action bool :=
  match update_cursor update with
  | None => mret false
  | Some cursor =>
      if negb (chain_id cursor =? chain_id base)
      then refuse (IndexerError.Reducer ChainIdMismatch)
      else
        covered ← lift (snapshot_covers cursor base);
        if (covered : bool) then
          _ ← match update with
              | Correction correction => observe_covered_correction correction
              | _ => mret tt
              end;
          mret true
        else mret false
  end.

Fixpoint handoff_loop (current : ChainCursor) (buffered : list ChainUpdate) : action unit :=
  match buffered with
  | [] => modify (fun ix => set_reducer (publish_ready (reducer ix)) ix)
  | update :: rest =>
      _ ← validate_core_update_identity update;
      covered ← covered_by current update;
      _ ← (if (covered : bool) then mret None
           else apply_validated_core_update_borrowed_with_notice update);
      handoff_loop current rest
  end.

Definition apply_handoff_borrowed_ordered (buffered : list ChainUpdate) : action unit :=
  self ← get;
  current ← lift (ok_or (red_cursor (reducer self)) IndexerError.NoCursor);
  handoff_loop current buffered.

Definition apply_handoff (buffered : list ChainUpdate) : action unit :=
  apply_handoff_borrowed_ordered (sort_chain_updates buffered).

Fixpoint bootstrap_loop (snapshot_cursor : ChainCursor) (buffered : list ChainUpdate)
    : action (list CorrectionNotice) :=
  match buffered with
  | [] => _ ← modify (fun ix => set_reducer (publish_ready (reducer ix)) ix); mret []
  | update :: rest =>
      _ ← validate_core_update_identity update;
      covered ← covered_by snapshot_cursor update;
      notice ← (if (covered : bool) then mret None
                else or_refuse (apply_validated_core_update_borrowed_with_notice update));
      notices ← bootstrap_loop snapshot_cursor rest;
      mret (match notice with Some n => n :: notices | None => notices end)
  end.

(** The assignments between the checks and the loop. *)
Definition install_snapshot (snapshot : BootstrapSnapshot) : action unit :=
  self ← get;
  let cursor := snapshot_cursor snapshot in
  let retained_correction :=
    match last_correction self with
    | Some applied =>
        if bool_decide (result_ok (snapshot_covers (applied_tip applied) cursor) = Some true)
        then Some applied else None
    | None => None
    end in
  _ ← modify (set_reducer (reducer_bootstrap cursor
        (reducer_new (snapshot_state snapshot) (dep_fee_class (deployment self))
           (snapshot_verified_router snapshot))));
  _ ← record_finalized_update cursor;
  _ ← modify (set_canonical (Some cursor));
  _ ← modify (fun ix => set_stable_checkpoint (reducer_checkpoint (reducer ix) (deployment ix)) ix);
  _ ← on_history (reset cursor);
  modify (set_last_correction retained_correction).

Definition bootstrap_normalized_ordered (snapshot : BootstrapSnapshot)
    (buffered : list ChainUpdate) : action (list CorrectionNotice) :=
  self ← get;
  let cursor := snapshot_cursor snapshot in
  if negb (chain_id cursor =? dep_chain_id (deployment self))
  then fail (IndexerError.Reducer ChainIdMismatch)
  else
  _ ← lift (validate_finalized_recovery self cursor);
  _ ← lift (validate_finalized_update self cursor);
  if negb (snapshot_implementation snapshot =? dep_expected_implementation (deployment self))
     || negb (snapshot_implementation_code_hash snapshot
              =? dep_expected_implementation_code_hash (deployment self))
  then fail IndexerError.CodeHashMismatch
  else
  _ ← lift (validate_verified_router_snapshot snapshot (deployment self));
  _ ← install_snapshot snapshot;
  bootstrap_loop cursor buffered.

Definition bootstrap_normalized (snapshot : BootstrapSnapshot) (buffered : list ChainUpdate)
    : action unit :=
  _ ← bootstrap_normalized_ordered snapshot (sort_chain_updates buffered); mret tt.

Definition bootstrap_normalized_borrowed_with_notices (snapshot : BootstrapSnapshot)
    (buffered : list ChainUpdate) : action (list CorrectionNotice) :=
  bootstrap_normalized_ordered snapshot (sort_chain_update_refs buffered).

Definition bootstrap (snapshot : BootstrapSnapshot) : action unit :=
  bootstrap_normalized snapshot [].

End Engine.
