(* ===== verification/EngineFacts.v ===== *)
(** * Correctness of the quote engine

    One invariant for every reachable engine, errors that change nothing but
    readiness, the meaning of an applied correction, the finalized floor, and what
    a served quote is. *)

From S2P Require Import Prelude Arithmetic Slot0 State Quote Model Correction Reducer ReducerFacts.
From S2P Require Import IndexerTypes Journal JournalFacts Validation Abi Engine.

(** ** The invariant *)

(** A router snapshot's shares are at most 100%. *)
Definition router_ok (r : QuoteReducer) : Prop :=
  forall v a fee, red_verified_router r = Some v -> partner_fee_bps v !! a = Some fee ->
    0 <= fee <= BPS.

(** The state quotes are computed from is well formed. *)
Definition image_ok (r : QuoteReducer) : Prop := state_wf (red_state r) /\ router_ok r.

(** A finalized floor is an immutable block. *)
Definition floor_wf (f : ChainCursor) : Prop :=
  commitment f = Finalized /\ is_Some (block_hash f).

Record engine_ok (ix : QuoteIndexer) : Prop := {
  ok_journal : journal_ok (optimistic_history ix);
  ok_image : image_ok (reducer ix);
  ok_images : forall b, b ∈ blocks (optimistic_history ix) -> image_ok (ob_before b);
  ok_finalized : forall f, finalized_floor ix = Some f -> floor_wf f
}.

(** The finalized floor only rises, on one chain. *)
Definition floor_le (o o' : option ChainCursor) : Prop :=
  forall f, o = Some f -> exists f', o' = Some f' /\ chain_id f' = chain_id f
    /\ (f' = f \/ block_number f < block_number f').

#[export] Instance floor_le_refl : Reflexive floor_le.
Proof. intros o f ->. eauto. Qed.
#[export] Instance floor_le_trans : Transitive floor_le.
Proof.
  intros o1 o2 o3 H12 H23 f Hf. destruct (H12 f Hf) as (g & Hg & Hc & Hn).
  destruct (H23 g Hg) as (h & Hh & Hc' & Hn'). exists h. split_and!; [done|congruence|].
  destruct Hn as [->|Hn], Hn' as [->|Hn']; auto. right. lia.
Qed.

(** What every operation does to a well-formed engine. *)
Record good (ix ix' : QuoteIndexer) : Prop := {
  good_ok : engine_ok ix';
  good_deployment : deployment ix' = deployment ix;
  good_floor : floor_le (finalized_floor ix) (finalized_floor ix')
}.

Lemma good_refl ix : engine_ok ix -> good ix ix.
Proof. by split. Qed.

Lemma good_trans a b c : good a b -> good b c -> good a c.
Proof. intros [_ D1 F1] [O2 D2 F2]. split; [done|congruence|by transitivity (finalized_floor b)]. Qed.

Create HintDb engine.
#[export] Hint Resolve good_refl good_ok : engine.

(** ** Combinators *)

Lemma good_bind {A B} (m : action A) (k : A -> action B) ix :
  good ix (m ix).2 ->
  (forall a ix1, m ix = (Ok a, ix1) -> good ix ix1 -> good ix1 (k a ix1).2) ->
  good ix ((m ≫= k) ix).2.
Proof.
  intros Hm Hk. unfold mbind, method_bind. destruct (m ix) as [[a|e] ix1] eqn:E; [|done].
  eapply good_trans; [exact Hm|]. by apply Hk.
Qed.

Lemma good_get {B} (k : QuoteIndexer -> action B) ix : good ix (k ix ix).2 -> good ix ((get ≫= k) ix).2.
Proof. done. Qed.

Lemma good_lift {A B} (r : result IndexerError.t A) (k : A -> action B) ix :
  engine_ok ix -> (forall a, r = Ok a -> good ix (k a ix).2) -> good ix ((lift r ≫= k) ix).2.
Proof. intros Hok Hk. destruct r as [a|e]; [exact (Hk a eq_refl)|exact (good_refl ix Hok)]. Qed.

Lemma good_ready ix b : engine_ok ix -> good ix (set_reducer (set_red_ready b (reducer ix)) ix).
Proof.
  intros [Hj [Hs Hr] Hi Hf]. split; [split; [done| |done..]|done|reflexivity]. by split.
Qed.

Lemma good_mark ix : engine_ok ix -> good ix (mark_not_ready ix).
Proof. apply good_ready. Qed.

Lemma good_refuse {A} e ix : engine_ok ix -> good ix (refuse (A := A) e ix).2.
Proof. apply good_mark. Qed.

Lemma good_or_refuse {A} (m : action A) ix : good ix (m ix).2 -> good ix (or_refuse m ix).2.
Proof.
  unfold or_refuse. destruct (m ix) as [[a|e] ix'] eqn:E; cbn; [done|]. intros Hg.
  eapply good_trans; [exact Hg|]. apply good_mark, Hg.
Qed.

Lemma good_reducer {A} (m : method QuoteReducer ReducerError A) ix :
  engine_ok ix -> image_ok (m (reducer ix)).2 -> good ix (on_reducer m ix).2.
Proof.
  intros [Hj _ Hi Hf] Hm. unfold on_reducer, on_field. destruct (m (reducer ix)) as [r red]. by split.
Qed.

Lemma good_history f ix :
  engine_ok ix -> journal_ok (f (optimistic_history ix)) ->
  (forall b, b ∈ blocks (f (optimistic_history ix)) -> image_ok (ob_before b)) ->
  good ix (on_history f ix).2.
Proof. intros [Hj Hr Hi Hf] Hj' Hi'. by split. Qed.

(** ** Journal operations keep or drop before-images *)

Lemma drop_front_images flag s b : b ∈ blocks (drop_front flag s) -> b ∈ blocks s.
Proof. rewrite drop_front_blocks. destruct (blocks s); [done|]. apply list_elem_of_further. Qed.

Lemma drop_covered_images bs n flag s b :
  b ∈ blocks (drop_covered bs n flag s).1 -> b ∈ blocks s.
Proof.
  revert s. induction bs as [|x bs IH]; intros s; cbn [drop_covered]; [done|].
  destruct (_ <=? _); [|done]. intros Hb. eapply drop_front_images, IH, Hb.
Qed.

Lemma enforce_images fuel s s' b : enforce_loop fuel s = Some s' -> b ∈ blocks s' -> b ∈ blocks s.
Proof.
  revert s. induction fuel as [|fuel IH]; intros s; [done|]. cbn [enforce_loop].
  destruct (over_limits s); [|by intros [= <-]]. intros Hl Hb. by eapply drop_front_images, IH.
Qed.

Lemma evict_identities_images ids s b : b ∈ blocks (evict_identities ids s) -> b ∈ blocks s.
Proof.
  revert s. induction ids as [|c ids IH]; intros s; cbn [evict_identities]; [done|].
  case_match; [|done]. intros Hb%IH. unfold evict_identity in Hb.
  destruct (drop_covered _ _ _ _) as [s1 pruned] eqn:E.
  apply (drop_covered_images (blocks s) (block_number c) true). rewrite E. by destruct pruned.
Qed.

Lemma record_identity_images cursor replace s b :
  b ∈ blocks (record_identity cursor replace s) -> b ∈ blocks s.
Proof.
  unfold record_identity. repeat (case_match; try done). apply evict_identities_images.
Qed.

Lemma advance_floor_images floor s b : b ∈ blocks (advance_floor floor s) -> b ∈ blocks s.
Proof. apply (drop_covered_images _ _ false). Qed.

Lemma elem_of_rev {A} (l : list A) x : x ∈ rev l <-> x ∈ l.
Proof. rewrite !list_elem_of_In. symmetry. apply in_rev. Qed.

Lemma pop_blocks_images rbs n bytes changed b :
  b ∈ (pop_blocks rbs n bytes changed).1.1 -> b ∈ rbs.
Proof.
  revert bytes changed. induction rbs as [|x rbs IH]; intros bytes changed; cbn [pop_blocks]; [done|].
  destruct (_ <? _); [|done]. intros Hb%IH. by apply list_elem_of_further.
Qed.

Lemma rewind_after_images anc s b : b ∈ blocks (rewind_after anc s) -> b ∈ blocks s.
Proof.
  unfold rewind_after. destruct (pop_blocks _ _ _ _) as [[rbs bytes] changed] eqn:E.
  intros Hb. apply elem_of_rev. eapply pop_blocks_images. rewrite E. cbn [fst].
  apply elem_of_rev. by destruct changed.
Qed.

Lemma capture_images `{ReducerLayout} cursor r s b :
  b ∈ blocks (capture_before cursor r s).2 -> b ∈ blocks s \/ ob_before b = r.
Proof.
  unfold capture_before. destruct (needs_capture s cursor); cbn [negb snd]; [|by left].
  intros Hb. assert (b ∈ blocks (push_block cursor r s)) as Hp.
  { revert Hb. unfold enforce_limits. destruct (enforce_loop _ _) eqn:E; [|done].
    intros Hb. by eapply enforce_images. }
  cbn in Hp. apply elem_of_app in Hp as [Hp|Hp]; [by left|].
  apply list_elem_of_singleton in Hp as ->. by right.
Qed.

(** ** Reducer operations keep the state well formed *)

(** A verified router after an event: shares dropped, or one set to at most 100%. *)
Definition router_kept (r r' : QuoteReducer) : Prop := router_ok r -> router_ok r'.

Lemma router_same r r' : red_verified_router r' = red_verified_router r -> router_kept r r'.
Proof. unfold router_kept, router_ok. by intros ->. Qed.

Lemma get_lane_router a r (k : LaneState -> method QuoteReducer ReducerError bool) :
  (forall l, lanes (red_state r) !! a = Some l -> router_kept r (k l r).2) ->
  router_kept r ((get_lane a ≫= k) r).2.
Proof.
  intros Hk. mred. rewrite get_lane_eq. destruct (lanes (red_state r) !! a) eqn:E;
    [exact (Hk _ eq_refl)|exact (fun H => H)].
Qed.

Lemma lane_mut_router a f r (b : bool) :
  router_kept r ((_ ← lane_mut a f; mret b : method QuoteReducer ReducerError bool) r).2.
Proof. mred. rewrite lane_mut_eq. apply router_same. by destruct (_ !! a). Qed.

Lemma if_lane_router (c b : bool) a f r :
  router_kept r
    ((if c then mret false else _ ← lane_mut a f; mret b : method QuoteReducer ReducerError bool) r).2.
Proof. destruct c; [exact (fun H => H)|apply lane_mut_router]. Qed.

Lemma lift_router {A} (m : result ReducerError A) (k : A -> method QuoteReducer ReducerError bool) r :
  (forall a, router_kept r (k a r).2) -> router_kept r ((lift m ≫= k) r).2.
Proof. intros Hk. destruct m as [a|e]; [exact (Hk a)|exact (fun H => H)]. Qed.

(** Setting a share, as the two partner events do. *)
Lemma share_router (c1 c3 : bool) a fee v r b :
  red_verified_router r = Some v -> 0 <= fee ->
  router_kept r
    ((if c1 then mret false
      else if BPS <? fee then fail InvalidWidth
      else if c3 then mret false
      else _ ← modify (set_red_router
                (Some {| router := router v; partner_fee_bps := <[ a := fee ]> (partner_fee_bps v) |}));
           mret b : method QuoteReducer ReducerError bool) r).2.
Proof.
  intros Hv Hfee Hok. destruct c1; [done|]. destruct (Z.ltb_spec BPS fee); [done|].
  destruct c3; [done|]. intros v' a' fee' [= <-] Hl. cbn in Hl.
  apply lookup_insert_Some in Hl as [[_ <-]|[_ Hl]]; [lia|]. by eapply Hok.
Qed.

Lemma apply_event_router event r : event_fits event -> router_kept r (apply_event event r).2.
Proof.
  intros Hev. unfold apply_event. rewrite get_bind. cbv zeta.
  destruct event as [a|a|a w|a k|a b|a t b|a d|rt a fee|rt a fee|rt b|mult|a p|a p|a x y|impl];
    cbn [event_fits] in Hev;
    try (apply get_lane_router; intros l Hl; unfold replace_slot0; apply if_lane_router).
  all: try (apply router_same; repeat (case_match; try done); fail).
  - assert (forall r1 : QuoteReducer, red_verified_router r1 = red_verified_router r \/
      red_verified_router r1 = (fun v => {| router := router v;
         partner_fee_bps := delete a (partner_fee_bps v) |}) <$> red_verified_router r ->
      router_kept r r1) as Hr1.
    { intros r1 [E|E]; [by apply router_same|]. intros Hok v b fee Hv Hb. rewrite E in Hv.
      apply fmap_Some in Hv as (v0 & Hv0 & ->). cbn in Hb. apply lookup_delete_Some in Hb as [_ Hb].
      by eapply Hok. }
    mred. apply Hr1. destruct (is_some (lanes _ !! a)), (is_some_and _ _); cbn; auto.
  - case_match; [exact (fun H => H)|]. apply get_lane_router. intros l Hl. apply if_lane_router.
  - apply get_lane_router. intros l Hl. apply lift_router. intros n. apply if_lane_router.
  - destruct (red_verified_router r) eqn:Hv; [|exact (fun H => H)]. apply share_router; [done|apply Hev].
  - destruct (red_verified_router r) eqn:Hv; [|exact (fun H => H)]. apply share_router; [done|apply Hev].
  - apply get_lane_router. intros l Hl. apply lift_router. intros n. apply if_lane_router.
  - apply get_lane_router. intros l Hl. apply lift_router. intros n. apply if_lane_router.
  - exact (fun H => H).
Qed.

Lemma apply_with_effect_image cursor event r :
  event_fits event -> image_ok r -> image_ok (apply_with_effect cursor event r).2.
Proof.
  intros Hev [Hs Hr]. destruct (apply_with_effect cursor event r) as [res r'] eqn:E. cbn.
  apply apply_with_effect_inv in E as [(e & _ & ->)|[(_ & _ & ->)|(ch & r1 & _ & _ & Ha & _ & ->)]];
    [done..|].
  pose proof (apply_event_wf event r Hs Hev) as Hw. pose proof (apply_event_router event r Hev Hr) as Hk.
  rewrite Ha in Hw, Hk. done.
Qed.

Lemma observe_head_image head r : image_ok r -> image_ok (observe_head head r).2.
Proof.
  intros Hr. destruct (observe_head head r) as [res r'] eqn:E.
  apply observe_head_inv in E as [(e & _ & ->)|(_ & c & -> & _)]; done.
Qed.

Lemma observe_corrected_head_image head r : image_ok r -> image_ok (observe_corrected_head head r).2.
Proof.
  intros Hr. unfold observe_corrected_head. pose proof (observe_head_image head r Hr) as Ho. mred.
  by destruct (observe_head head r) as [[]].
Qed.

Lemma rewind_head_image head r : image_ok r -> image_ok (rewind_head head r).2.
Proof. intros Hr. unfold rewind_head. mred. by destruct (_ || _). Qed.

(** ** Every operation is good *)

Lemma good_record_finalized cursor ix :
  engine_ok ix -> good ix (record_finalized_update cursor ix).2.
Proof.
  intros Hok. unfold record_finalized_update. apply good_get, good_lift; [done|]. intros [] Hv.
  destruct (negb _ || _) eqn:E; [by apply good_refl|].
  apply orb_false_iff in E as [Ec%negb_false_iff%bool_decide_eq_true Ef].
  unfold validate_finalized_update in Hv. rewrite bool_decide_eq_true_2 in Hv by done. cbn [negb] in Hv.
  apply unit_bind_ok in Hv as [Hh Hv]. unfold require_hash in Hh.
  assert (is_Some (block_hash cursor)) as Hhash by by destruct (block_hash cursor).
  destruct Hok as [Hj Hr Hi Hf]. split; [split; [done..|]|done|].
  - cbn. intros f [= <-]. by split.
  - cbn. intros f Hfl. rewrite Hfl in Ef, Hv. cbn in Ef. apply Z.leb_gt in Ef.
    exists (block_level_cursor cursor). split; [done|]. cbn.
    destruct (Z.eqb_spec (chain_id cursor) (chain_id f)); [|done]. split; [done|by right].
Qed.

Lemma good_modify f ix :
  engine_ok ix -> reducer (f ix) = reducer ix -> optimistic_history (f ix) = optimistic_history ix ->
  finalized_floor (f ix) = finalized_floor ix -> deployment (f ix) = deployment ix ->
  good ix ((modify f : action unit) ix).2.
Proof.
  intros [Hj Hr Hi Hf] E1 E2 E3 E4. cbn. split; [split|done|].
  - by rewrite E2.
  - by rewrite E1.
  - by rewrite E2.
  - by rewrite E3.
  - by rewrite E3.
Qed.

Lemma good_record_identity cursor replace ix :
  engine_ok ix -> good ix (on_history (record_identity cursor replace) ix).2.
Proof.
  intros Hok. pose proof Hok as [Hj _ Hi _]. apply good_history; [done| |].
  - by apply record_identity_ok.
  - intros b Hb%record_identity_images. auto.
Qed.

Section Operations.
Context `{MemLayout, ReducerLayout, Keccak, Alloy}.

Definition event_ok (event : option QuoteEvent) : Prop :=
  match event with
  | Some event => event_fits event
  | None => True
  end.

Lemma good_apply_event cursor event ix :
  engine_ok ix -> event_fits event -> good ix (on_reducer (apply_with_effect cursor event) ix).2.
Proof. intros Hok Hev. apply good_reducer; [done|]. apply apply_with_effect_image; [done|apply Hok]. Qed.

Lemma good_capture cursor red changed ix :
  engine_ok ix -> image_ok red -> good ix (capture_if_changed cursor red changed ix).2.
Proof.
  intros Hok Hred. destruct changed; [|by apply good_refl]. pose proof Hok as [Hj _ Hi _].
  apply good_history; [done|by apply capture_before_ok|]. intros b Hb%capture_images.
  destruct Hb as [Hb| ->]; auto.
Qed.

Lemma good_apply_decoded_log cursor event ix :
  engine_ok ix -> event_ok event -> good ix (apply_decoded_log cursor event ix).2.
Proof.
  intros Hok Hev. unfold apply_decoded_log. apply good_get.
  do 2 (apply good_lift; [done|]; intros [] _). destruct event as [event|].
  - apply good_bind.
    + destruct (needs_capture _ _); [|by apply good_apply_event]. cbv zeta.
      apply good_bind; [by apply good_apply_event|]. intros changed ix1 _ Hg.
      apply good_bind; [apply good_capture; [apply Hg|apply Hok]|].
      intros [] ix2 _ Hg'. apply good_refl, Hg'.
    + intros changed ix1 _ Hg. apply good_bind; [apply good_record_identity, Hg|].
      intros [] ix2 _ Hg2. apply good_bind; [apply good_record_finalized, Hg2|].
      intros [] ix3 _ Hg3. destruct changed; [|apply good_refl, Hg3].
      by apply good_modify; [apply Hg3|..].
  - apply good_bind; [by apply good_record_identity|]. intros [] ix1 _ Hg.
    apply good_record_finalized, Hg.
Qed.

Lemma good_observe_covered c ix : engine_ok ix -> good ix (observe_covered_correction c ix).2.
Proof.
  intros Hok. unfold observe_covered_correction. apply good_get. cbv zeta.
  repeat case_match; first [exact (good_refl ix Hok)|by apply good_modify].
Qed.

Lemma restore_image s anc branch r :
  restore_point s anc branch = Ok (Some r) -> exists b, b ∈ blocks s /\ r = ob_before b.
Proof.
  unfold restore_point. intros (_ & _ & Hr)%bind_ok. destruct (_ && _); [done|].
  destruct (is_some_and _ _); [done|]. apply bind_ok in Hr as (_ & _ & Hr).
  apply check_affected_ok in Hr as [_ Hr]; [|by apply Forall_filter_iff, Forall_forall].
  destruct (base.filter _ (blocks s)) as [|b bs] eqn:E; [done|]. cbn in Hr. injection Hr as ->.
  exists b. split; [|done].
  assert (b ∈ b :: bs) as Hb by apply list_elem_of_here. rewrite <-E in Hb.
  by apply list_elem_of_filter in Hb as [_ Hb].
Qed.

Lemma branch_identities (branch : list BlockRef) s :
  let s' := foldl (fun s block => record_head_identity (br_cursor block) s) s branch in
  (journal_ok s -> journal_ok s') /\ forall b, b ∈ blocks s' -> b ∈ blocks s.
Proof.
  revert s. induction branch as [|x branch IH]; intros s; [done|]. cbn.
  destruct (IH (record_head_identity (br_cursor x) s)) as [Hj Hi]. split.
  - intros Hok. apply Hj. by apply record_identity_ok.
  - intros b Hb%Hi. by eapply record_identity_images.
Qed.

Context {laws : AlloyLaws}.

Lemma decode_fits log event : decode_core_event log = Ok event -> event_ok event.
Proof.
  intros Hd. destruct event as [q|]; [|done]. pose proof (decode_core_event_decoding log) as Hx.
  rewrite Hd in Hx. destruct Hx as (e & vs & _ & Hem & Hs). eapply announced_fits; [apply Hem|done].
Qed.

Lemma good_replay logs ix : engine_ok ix -> good ix (replay_logs logs ix).2.
Proof.
  revert ix. induction logs as [|log logs IH]; intros ix Hok; cbn [replay_logs]; [by apply good_refl|].
  apply good_lift; [done|]. intros event Hd%map_err_ok%decode_fits.
  apply good_bind; [by apply good_apply_decoded_log|]. intros [] ix1 _ Hg. apply IH, Hg.
Qed.

Lemma good_rebuild c ix : engine_ok ix -> good ix (rebuild c ix).2.
Proof.
  intros Hok. pose proof Hok as [Hj Hr Hi _]. unfold rebuild. apply good_get. cbv zeta.
  apply good_lift; [done|]. intros restore Hrest.
  apply good_bind.
  { apply good_history; [done|by apply rewind_after_ok|]. intros b Hb%rewind_after_images. auto. }
  intros [] ix1 _ Hg1. apply good_bind.
  { destruct restore as [red|]; [|by apply good_refl, Hg1].
    apply restore_image in Hrest as (b & Hb & ->). destruct Hg1 as [[? ? ? ?] _ _].
    cbn. split; [split; try done|done|reflexivity]. by apply Hi. }
  intros [] ix2 _ Hg2. apply good_bind.
  { apply good_reducer; [apply Hg2|]. apply rewind_head_image, Hg2. }
  intros [] ix3 _ Hg3. apply good_bind.
  { pose proof (branch_identities (new_branch c) (optimistic_history ix3)) as [Hbj Hbi].
    pose proof (good_ok _ _ Hg3) as Hok3. apply good_history; [done|apply Hbj, Hok3|].
    intros b Hb%Hbi. by apply Hok3. }
  intros [] ix4 _ Hg4. apply good_bind; [apply good_replay, Hg4|].
  intros [] ix5 _ Hg5. apply good_bind.
  { apply good_reducer; [apply Hg5|]. apply observe_corrected_head_image, Hg5. }
  intros [] ix6 _ Hg6. apply good_bind; [apply good_record_finalized, Hg6|].
  intros [] ix7 _ Hg7. by apply good_modify; [apply Hg7|..].
Qed.

Lemma good_corrected_core c ix : engine_ok ix -> good ix (corrected_core c ix).2.
Proof.
  intros Hok. unfold corrected_core. apply good_get. cbv zeta.
  apply good_lift; [done|]. intros [] _. destruct (negb _); [by apply good_refl|].
  apply good_lift; [done|]. intros [] _. destruct (already_applied _ _); [by apply good_refl|].
  destruct (is_at_tip _ _); [by destruct (is_some_and _ _); apply good_refl|].
  do 2 (apply good_lift; [done|]; intros [] _).
  destruct (negb _); [by apply good_refl|].
  apply good_bind; [by apply good_rebuild|]. intros [] ix1 _ Hg. apply good_refl, Hg.
Qed.

Lemma good_replace c ix : engine_ok ix -> good ix (replace_with_correction c ix).2.
Proof.
  intros Hok. pose proof (good_corrected_core c ix Hok) as Hg.
  unfold replace_with_correction, into_corrected_core.
  destruct (corrected_core c ix) as [[[]|e] ix']; [done|by apply good_refl|by apply good_mark].
Qed.

Lemma good_identity u ix : engine_ok ix -> good ix (validate_core_update_identity u ix).2.
Proof.
  intros Hok. unfold validate_core_update_identity. apply good_get, good_or_refuse.
  by apply good_refl.
Qed.

Lemma good_validated_update u decoder ix :
  engine_ok ix -> (forall log, event_ok (decoder log)) ->
  good ix (apply_validated_update u decoder ix).2.
Proof.
  intros Hok Hd. destruct u; cbn [apply_validated_update]; try by apply good_refuse.
  - apply good_get, good_lift; [done|]. intros [] _. apply good_bind.
    { apply good_or_refuse, good_reducer; [done|]. apply observe_head_image, Hok. }
    intros [] ix1 _ Hg. apply good_get, good_bind; [|intros [] ix2 _ Hg2; apply good_record_finalized, Hg2].
    destruct (red_cursor _); [|by apply good_refl, Hg].
    destruct (head_published _ _); [apply good_record_identity, Hg|apply good_refl, Hg].
  - destruct (log_removed _); [by apply good_refuse|]. by apply good_or_refuse, good_apply_decoded_log.
Qed.

Lemma good_core_log_validated log ix :
  engine_ok ix -> good ix (apply_core_log_borrowed_validated log ix).2.
Proof.
  intros Hok. unfold apply_core_log_borrowed_validated.
  destruct (log_removed log); [by apply good_refuse|]. apply good_get, good_lift; [done|].
  intros [] _; [by apply good_refl|]. apply good_lift; [done|].
  intros event Hd%map_err_ok%decode_fits. apply good_bind.
  - by apply good_or_refuse, good_apply_decoded_log.
  - intros [] ix1 _ Hg. apply good_refl, Hg.
Qed.

Lemma good_core_log log ix : engine_ok ix -> good ix (apply_core_log_borrowed log ix).2.
Proof.
  intros Hok. unfold apply_core_log_borrowed. apply good_get, good_bind.
  - by apply good_or_refuse, good_refl.
  - intros [] ix1 _ Hg. apply good_core_log_validated, Hg.
Qed.

Lemma good_update_borrowed u ix : engine_ok ix -> good ix (apply_core_update_borrowed u ix).2.
Proof.
  intros Hok. unfold apply_core_update_borrowed. apply good_bind; [by apply good_identity|].
  intros [] ix1 _ Hg. pose proof (good_ok _ _ Hg) as Hok1.
  destruct u; try by apply good_validated_update.
  - apply good_bind; [by apply good_core_log_validated|]. intros ? ix2 _ Hg2. apply good_refl, Hg2.
  - apply good_bind; [by apply good_replace|]. intros ? ix2 _ Hg2. apply good_refl, Hg2.
Qed.

Lemma good_core_update u ix : engine_ok ix -> good ix (apply_core_update u ix).2.
Proof.
  intros Hok. unfold apply_core_update. apply good_bind; [by apply good_identity|].
  intros [] ix1 _ Hg. pose proof (good_ok _ _ Hg) as Hok1.
  destruct u; cbn [apply_validated_core_update]; try by apply good_validated_update.
  - destruct (log_removed _); [by apply good_validated_update|]. apply good_get, good_lift; [done|].
    intros [] _; [by apply good_refl|]. apply good_lift; [done|].
    intros event Hd%map_err_ok%decode_fits. by apply good_validated_update.
  - apply good_bind; [by apply good_replace|]. intros ? ix2 _ Hg2. apply good_refl, Hg2.
Qed.

Lemma good_update u decoder ix :
  engine_ok ix -> (forall log, event_ok (decoder log)) -> good ix (apply_update u decoder ix).2.
Proof.
  intros Hok Hd. apply good_bind; [by apply good_identity|]. intros [] ix1 _ Hg.
  apply good_validated_update; [apply Hg|done].
Qed.

Lemma good_set_canonical_floor cursor ix : engine_ok ix -> good ix (set_canonical_floor cursor ix).2.
Proof.
  intros Hok. unfold set_canonical_floor. apply good_get, good_lift; [done|]. intros current _.
  destruct (negb _); [by apply good_refuse|]. destruct (_ || _); [by apply good_refuse|].
  apply good_bind; [by apply good_modify|]. intros [] ix1 _ Hg.
  pose proof (good_ok _ _ Hg) as Hok1. apply good_bind.
  - apply good_history; [done|apply advance_floor_ok, Hok1|]. intros b Hb%advance_floor_images.
    by apply Hok1.
  - intros [] ix2 _ Hg2. by apply good_modify; [apply Hg2|..].
Qed.

Lemma good_with_notice u ix :
  engine_ok ix -> good ix (apply_validated_core_update_borrowed_with_notice u ix).2.
Proof.
  intros Hok. destruct u; cbn [apply_validated_core_update_borrowed_with_notice];
    (apply good_bind; [by first [apply good_update_borrowed|apply good_replace]|]);
    intros ? ix1 _ Hg; apply good_refl, Hg.
Qed.

Lemma good_covered_by base u ix : engine_ok ix -> good ix (covered_by base u ix).2.
Proof.
  intros Hok. unfold covered_by. destruct (update_cursor u); [|by apply good_refl].
  destruct (negb _); [by apply good_refuse|]. apply good_lift; [done|]. intros [] _; [|by apply good_refl].
  apply good_bind; [|intros ? ix1 _ Hg; apply good_refl, Hg].
  destruct u; try by apply good_refl. by apply good_observe_covered.
Qed.

Lemma good_publish ix :
  engine_ok ix -> good ix ((modify (fun ix => set_reducer (publish_ready (reducer ix)) ix) : action unit) ix).2.
Proof. apply good_ready. Qed.

Lemma good_handoff_loop current buffered ix :
  engine_ok ix -> good ix (handoff_loop current buffered ix).2.
Proof.
  revert ix. induction buffered as [|u rest IH]; intros ix Hok; cbn [handoff_loop]; [by apply good_publish|].
  apply good_bind; [by apply good_identity|]. intros [] ix1 _ Hg1.
  apply good_bind; [apply good_covered_by, Hg1|]. intros covered ix2 _ Hg2.
  apply good_bind; [destruct covered; [apply good_refl, Hg2|apply good_with_notice, Hg2]|].
  intros notice ix3 _ Hg3. apply IH, Hg3.
Qed.

Lemma good_handoff buffered ix : engine_ok ix -> good ix (apply_handoff buffered ix).2.
Proof.
  intros Hok. unfold apply_handoff, apply_handoff_borrowed_ordered. apply good_get, good_lift; [done|].
  intros current _. by apply good_handoff_loop.
Qed.

Lemma good_bootstrap_loop cursor buffered ix :
  engine_ok ix -> good ix (bootstrap_loop cursor buffered ix).2.
Proof.
  revert ix. induction buffered as [|u rest IH]; intros ix Hok; cbn [bootstrap_loop].
  - apply good_bind; [by apply good_publish|]. intros [] ix1 _ Hg. apply good_refl, Hg.
  - apply good_bind; [by apply good_identity|]. intros [] ix1 _ Hg1.
    apply good_bind; [apply good_covered_by, Hg1|]. intros covered ix2 _ Hg2.
    apply good_bind.
    { destruct covered; [apply good_refl, Hg2|apply good_or_refuse, good_with_notice, Hg2]. }
    intros notice ix3 _ Hg3. apply good_bind; [apply IH, Hg3|].
    intros notices ix4 _ Hg4. apply good_refl, Hg4.
Qed.

(** The fields of a snapshot fit their Rust types. *)
Definition snapshot_fits (s : BootstrapSnapshot) : Prop :=
  state_wf (snapshot_state s)
  /\ forall v a fee, snapshot_verified_router s = Some v -> partner_fee_bps v !! a = Some fee ->
       0 <= fee.

Lemma snapshot_router_ok s d v a fee :
  validate_verified_router_snapshot s d = Ok tt -> snapshot_verified_router s = Some v ->
  partner_fee_bps v !! a = Some fee -> fee <= BPS.
Proof.
  unfold validate_verified_router_snapshot. intros Hv Hs Hf. rewrite Hs in Hv.
  destruct (verified_router d); [|done]. destruct (_ && _) eqn:E; [|done].
  apply andb_prop in E as [_ Hall]. rewrite forallb_forall in Hall.
  specialize (Hall (a, fee)). rewrite <-list_elem_of_In, elem_of_map_to_list in Hall.
  apply Hall in Hf. cbn in Hf. apply andb_prop in Hf as [_ Hle]. by apply Z.leb_le.
Qed.

Lemma good_install s ix :
  engine_ok ix -> snapshot_fits s -> validate_verified_router_snapshot s (deployment ix) = Ok tt ->
  good ix (install_snapshot s ix).2.
Proof.
  intros Hok [Hst Hfee] Hrouter. unfold install_snapshot. apply good_get. cbv zeta.
  apply good_bind.
  { pose proof Hok as [Hj _ Hi Hf]. cbn. split; [split; try done|done|reflexivity]. split; [done|].
    intros v a fee Hv Hl. split; [by eapply Hfee|by eapply snapshot_router_ok]. }
  intros [] ix1 _ Hg1. apply good_bind; [apply good_record_finalized, Hg1|].
  intros [] ix2 _ Hg2. apply good_bind; [by apply good_modify; [apply Hg2|..]|].
  intros [] ix3 _ Hg3. apply good_bind; [by apply good_modify; [apply Hg3|..]|].
  intros [] ix4 _ Hg4. apply good_bind.
  { apply good_history; [apply Hg4| |intros b Hb; by apply elem_of_nil in Hb].
    eapply journal_step_ok; [apply step_reset|apply Hg4]. }
  intros [] ix5 _ Hg5. by apply good_modify; [apply Hg5|..].
Qed.

Lemma good_bootstrap s buffered ix :
  engine_ok ix -> snapshot_fits s -> good ix (bootstrap_normalized s buffered ix).2.
Proof.
  intros Hok Hs. unfold bootstrap_normalized, bootstrap_normalized_ordered.
  apply good_bind; [|intros ? ix1 _ Hg; apply good_refl, Hg].
  apply good_get. cbv zeta. destruct (negb _); [by apply good_refl|].
  do 2 (apply good_lift; [done|]; intros [] _). destruct (_ || _); [by apply good_refl|].
  apply good_lift; [done|]. intros [] Hr. apply good_bind; [by apply good_install|].
  intros [] ix1 _ Hg. apply good_bootstrap_loop, Hg.
Qed.

End Operations.

(** ** Reachable engines *)

(** The public operations, on any input whose fields fit their types. *)
Inductive engine_step `{MemLayout, ReducerLayout, Keccak, Alloy} (ix : QuoteIndexer)
    : QuoteIndexer -> Prop :=
| do_core_update u : engine_step ix (apply_core_update u ix).2
| do_update_borrowed u : engine_step ix (apply_core_update_borrowed u ix).2
| do_update u decoder :
    (forall log, event_ok (decoder log)) -> engine_step ix (apply_update u decoder ix).2
| do_core_log log : engine_step ix (apply_core_log_borrowed log ix).2
| do_canonical_floor cursor : engine_step ix (set_canonical_floor cursor ix).2
| do_handoff buffered : engine_step ix (apply_handoff buffered ix).2
| do_bootstrap snapshot buffered :
    snapshot_fits snapshot -> engine_step ix (bootstrap_normalized snapshot buffered ix).2
| do_shutdown : engine_step ix (shutdown ix).

Lemma engine_step_good `{MemLayout, ReducerLayout, Keccak, Alloy} {laws : AlloyLaws} ix ix' :
  engine_step ix ix' -> engine_ok ix -> good ix ix'.
Proof.
  destruct 1; intros Hok; eauto using good_core_update, good_update_borrowed, good_update,
    good_core_log, good_set_canonical_floor, good_handoff, good_bootstrap, good_mark.
Qed.

Lemma engine_new_ok st d : state_wf st -> engine_ok (indexer_new st d).
Proof.
  intros Hst. split; [apply journal_default_ok|by split|intros b Hb; by apply elem_of_nil in Hb|done].
Qed.

Lemma engine_reachable `{MemLayout, ReducerLayout, Keccak, Alloy} {laws : AlloyLaws} ix ix' :
  rtc engine_step ix ix' -> engine_ok ix -> good ix ix'.
Proof.
  induction 1 as [|ix ix1 ix' Hs _ IH]; intros Hok; [by apply good_refl|].
  pose proof (engine_step_good _ _ Hs Hok) as Hg. eapply good_trans; [exact Hg|apply IH, Hg].
Qed.

(** C4: Whatever sequence of updates, logs, handoffs, bootstraps, recoveries and
    shutdowns an engine goes through, failing ones included: its state and every
    retained before-image stay well formed, its journal within bounds, its deployment
    fixed, and its finalized floor only rises, on one chain, to hashed finalized
    blocks. *)
Theorem engine_invariant `{MemLayout, ReducerLayout, Keccak, Alloy} {laws : AlloyLaws} st d ix ix' :
  state_wf st -> rtc engine_step (indexer_new st d) ix -> rtc engine_step ix ix' ->
  engine_ok ix' /\ deployment ix' = d /\ floor_le (finalized_floor ix) (finalized_floor ix').
Proof.
  intros Hst Hrun Hrest. pose proof (engine_reachable _ _ Hrun (engine_new_ok st d Hst)) as [Hok Hd _].
  destruct (engine_reachable _ _ Hrest Hok) as [Hok' Hd' Hf]. split_and!; [done|by rewrite Hd', Hd|done].
Qed.

(** ** Served quotes *)

Lemma prepare_snapshot_ok ix p :
  prepare_snapshot ix = Ok p <->
  red_ready (reducer ix) = true /\ exists c, red_cursor (reducer ix) = Some c
    /\ p = {| prepared_state := red_state (reducer ix); prepared_cursor := c;
              prepared_implementation_code_hash :=
                dep_expected_implementation_code_hash (deployment ix);
              prepared_fee_class := red_fee_class (reducer ix);
              prepared_verified_router := red_verified_router (reducer ix) |}.
Proof.
  unfold prepare_snapshot, indexer_state, reducer_is_ready.
  destruct (red_ready (reducer ix)); cbn [negb]; bsimpl; [|naive_solver].
  destruct (red_cursor (reducer ix)) as [c|]; bsimpl; naive_solver.
Qed.

(** The policy of the engine for a request: its fee class and, in verified-router
    mode, the router's share in the fee asset. *)
Definition current_policy (ix : QuoteIndexer) (request : QuoteRequest) : QuotePolicy :=
  let fee_asset := if is_exact_in (mode request) then asset_out request else asset_in request in
  {| fee_class := red_fee_class (reducer ix);
     verified_partner_fee_bps :=
       (fun v => default 0 (partner_fee_bps v !! fee_asset)) <$> red_verified_router (reducer ix) |}.

Lemma indexer_quote_ok ix request :
  red_ready (reducer ix) = true ->
  forall c, red_cursor (reducer ix) = Some c ->
  indexer_quote ix request =
    match quote request (execution_block_number c) (red_state (reducer ix))
            (current_policy ix request) with
    | Ok outcome =>
        Ok {| cq_outcome := outcome; cq_cursor := c;
              cq_execution_block_number := execution_block_number c;
              cq_implementation_code_hash := dep_expected_implementation_code_hash (deployment ix);
              cq_math_compatibility_version := MATH_COMPATIBILITY_VERSION;
              cq_fee_class := red_fee_class (reducer ix);
              cq_verified_router := router <$> red_verified_router (reducer ix) |}
    | Err e => Err (IndexerError.Quote e)
    end.
Proof.
  intros Hr c Hc. unfold indexer_quote, prepare_quote.
  rewrite (proj2 (prepare_snapshot_ok ix _)) by eauto. bsimpl. unfold evaluate, policy_for. cbn.
  unfold current_policy. destruct (mode request); cbn [is_exact_in];
    destruct (red_verified_router (reducer ix)); cbn [fmap option_fmap option_map];
    by destruct (quote _ _ _ _).
Qed.

(** C1: What a reachable engine serves is exact: a quote is refused unless the engine
    is ready with a cursor, and for every request below the amount limit it is then
    the outcome of the unbounded-integer specification on the current state, at the
    execution block of the current cursor and under the deployment's code hash. *)
Theorem served_quote_exact `{MemLayout, ReducerLayout, Keccak, Alloy} {laws : AlloyLaws} st d ix request :
  state_wf st -> rtc engine_step (indexer_new st d) ix ->
  0 <= amount request < amount_limit (current_policy ix request) ->
  indexer_quote ix request =
    if red_ready (reducer ix) then
      match red_cursor (reducer ix) with
      | Some c =>
          Ok {| cq_outcome :=
                  ExactQuote.outcome request (execution_block_number c) (red_state (reducer ix))
                    (current_policy ix request);
                cq_cursor := c;
                cq_execution_block_number := execution_block_number c;
                cq_implementation_code_hash := dep_expected_implementation_code_hash d;
                cq_math_compatibility_version := MATH_COMPATIBILITY_VERSION;
                cq_fee_class := red_fee_class (reducer ix);
                cq_verified_router := router <$> red_verified_router (reducer ix) |}
      | None => Err IndexerError.NoCursor
      end
    else Err IndexerError.NotReady.
Proof.
  intros Hst Hrun Hamount.
  pose proof (engine_reachable _ _ Hrun (engine_new_ok st d Hst)) as [[_ [Hwf Hrouter] _ _] Hd _].
  destruct (red_ready (reducer ix)) eqn:Hr.
  2: { unfold indexer_quote, prepare_quote, prepare_snapshot, indexer_state, reducer_is_ready.
       by rewrite Hr. }
  destruct (red_cursor (reducer ix)) as [c|] eqn:Hc.
  2: { unfold indexer_quote, prepare_quote, prepare_snapshot, indexer_state, reducer_is_ready.
       by rewrite Hr, Hc. }
  rewrite (indexer_quote_ok ix request Hr c Hc), Hd. rewrite quote_exact; [done|done|].
  split; [done|]. unfold current_policy. cbn. intros bps Hb.
  apply fmap_Some in Hb as (v & Hv & ->).
  destruct (partner_fee_bps v !! _) as [fee|] eqn:Hf; [|done]. by eapply Hrouter.
Qed.

Lemma evaluate_outcomes_ok p requests outcomes :
  evaluate_outcomes p requests = Ok outcomes <->
  Forall2 (fun request outcome => from_quote (quote request (execution_block_number (prepared_cursor p))
                                               (prepared_state p) (policy_for p request)) = Ok outcome)
    requests outcomes.
Proof.
  revert outcomes. induction requests as [|r rest IH]; intros outcomes; cbn [evaluate_outcomes].
  - split; [by intros [= <-]|]. by intros ->%Forall2_nil_inv_l.
  - rewrite bind_ok. setoid_rewrite bind_ok. setoid_rewrite IH. split.
    + intros (o & Ho & os & Hos & [= <-]). by constructor.
    + intros (o & os & Ho & Hos & ->)%Forall2_cons_inv_l. eauto.
Qed.

(** C27: A batch is coherent: it succeeds exactly when it holds at most 256 requests,
    the engine is ready with a cursor, and each request would be quoted on its own;
    its outcomes are those quotes in order, and it carries the cursor, execution
    block, fee class and router all of them share. *)
Theorem quote_many_coherent ix requests batch :
  quote_many ix requests = Ok batch <->
  Z.of_nat (length requests) <= MAX_BATCH_QUOTES
  /\ red_ready (reducer ix) = true /\ red_cursor (reducer ix) = Some (cb_cursor batch)
  /\ cb_execution_block_number batch = execution_block_number (cb_cursor batch)
  /\ cb_implementation_code_hash batch = dep_expected_implementation_code_hash (deployment ix)
  /\ cb_math_compatibility_version batch = MATH_COMPATIBILITY_VERSION
  /\ cb_fee_class batch = red_fee_class (reducer ix)
  /\ cb_verified_router batch = router <$> red_verified_router (reducer ix)
  /\ Forall2 (fun request outcome => exists q, indexer_quote ix request = Ok q
                /\ cq_outcome q = outcome /\ cq_cursor q = cb_cursor batch)
      requests (cb_outcomes batch).
Proof.
  unfold quote_many, prepare_quote_many.
  destruct (Z.ltb_spec MAX_BATCH_QUOTES (Z.of_nat (length requests))); [naive_solver lia|].
  rewrite bind_ok. setoid_rewrite prepare_snapshot_ok.
  assert (forall c p outcomes, red_ready (reducer ix) = true -> red_cursor (reducer ix) = Some c ->
    prepare_snapshot ix = Ok p -> prepared_cursor p = c ->
    evaluate_outcomes p requests = Ok outcomes <->
    Forall2 (fun request outcome => exists q, indexer_quote ix request = Ok q
              /\ cq_outcome q = outcome /\ cq_cursor q = c) requests outcomes) as Hout.
  { intros c p outcomes Hr Hc Hp <-. rewrite evaluate_outcomes_ok.
    split; intros Hf; (eapply Forall2_impl; [exact Hf|]); intros request outcome; unfold indexer_quote, prepare_quote, evaluate;
      rewrite Hp; bsimpl; destruct (from_quote _); bsimpl; naive_solver. }
  split.
  - intros (p & (Hr & c & Hc & Hp) & Hb). unfold evaluate_many in Hb.
    apply bind_ok in Hb as (os & Hos & [= <-]).
    assert (prepare_snapshot ix = Ok p) as Hps by (apply prepare_snapshot_ok; eauto).
    pose proof (proj1 (Hout c p os Hr Hc Hps ltac:(by rewrite Hp)) Hos) as Hall.
    subst p. cbn in *. by split_and!.
  - intros (_ & Hr & Hc & He & Hh & Hm & Hf & Hv & Hall). eexists. split; [eauto|].
    unfold evaluate_many. apply bind_ok. exists (cb_outcomes batch). split.
    + apply (Hout (cb_cursor batch)); [done|done| |done|exact Hall].
      apply prepare_snapshot_ok. eauto.
    + cbn. f_equal. destruct batch; cbn in *. by subst.
Qed.

(** ** Corrections *)

(** An operation that leaves the reducer and the recovery bookkeeping alone. *)
Record same_core (ix ix' : QuoteIndexer) : Prop := {
  same_reducer : reducer ix' = reducer ix;
  same_deployment : deployment ix' = deployment ix;
  same_canonical : canonical_floor ix' = canonical_floor ix;
  same_stable : stable_checkpoint ix' = stable_checkpoint ix
}.

Lemma record_finalized_core cursor ix res ix' :
  record_finalized_update cursor ix = (res, ix') -> same_core ix ix'.
Proof.
  unfold record_finalized_update. rewrite get_bind. mred.
  destruct (validate_finalized_update ix cursor); [|by intros [= <- <-]].
  destruct (_ || _); by intros [= <- <-].
Qed.

Lemma on_reducer_inv {A} (m : method QuoteReducer ReducerError A) ix a ix' :
  on_reducer m ix = (Ok a, ix') ->
  exists r, m (reducer ix) = (Ok a, r) /\ ix' = set_reducer r ix.
Proof.
  unfold on_reducer, on_field. destruct (m (reducer ix)) as [[b|e] r]; [|done].
  intros [= <- <-]. eauto.
Qed.

Lemma observe_corrected_inv head r r' :
  observe_corrected_head head r = (Ok tt, r') -> r' = set_red_cursor (Some head) r.
Proof.
  unfold observe_corrected_head. intros ([] & r1 & Ho & [= <-])%method_bind_ok.
  apply observe_head_inv in Ho as [(e & ? & _)|(_ & c & -> & _)]; done.
Qed.

Section Corrections.
Context `{MemLayout, ReducerLayout, Keccak, Alloy}.

(** The reducer after a list of logs, with none of the engine's bookkeeping. *)
Fixpoint replayed (logs : list ContractLog) (r : QuoteReducer) : QuoteReducer :=
  match logs with
  | [] => r
  | log :: logs =>
      replayed logs
        match decode_core_event log with
        | Ok (Some event) => (apply_with_effect (log_cursor log) event r).2
        | _ => r
        end
  end.

Lemma same_core_set ix ix1 r : same_core (set_reducer r ix) ix1 ->
  reducer ix1 = r /\ deployment ix1 = deployment ix /\ canonical_floor ix1 = canonical_floor ix
  /\ stable_checkpoint ix1 = stable_checkpoint ix.
Proof. by intros []. Qed.

(** The state an accepted log leaves. *)
Lemma apply_decoded_inv cursor event ix ix' :
  apply_decoded_log cursor event ix = (Ok tt, ix') ->
  same_core (set_reducer (match event with
                          | Some event => (apply_with_effect cursor event (reducer ix)).2
                          | None => reducer ix
                          end) ix) ix'.
Proof.
  unfold apply_decoded_log. rewrite get_bind. intros ([] & s1 & Hv & Hrun)%method_bind_ok.
  unfold lift in Hv. injection Hv as _ <-.
  apply method_bind_ok in Hrun as ([] & s1 & Hv & Hrun). unfold lift in Hv. injection Hv as _ <-.
  destruct event as [event|].
  - apply method_bind_ok in Hrun as (changed & s1 & Ha & Hrun).
    apply method_bind_ok in Hrun as ([] & s2 & Hh & Hrun). injection Hh as <-.
    apply method_bind_ok in Hrun as ([] & s3 & Hf & Hrun).
    apply record_finalized_core in Hf.
    assert (same_core (set_reducer (apply_with_effect cursor event (reducer ix)).2 ix) s1) as Hs1.
    { destruct (needs_capture _ _).
      - apply method_bind_ok in Ha as (ch & s & Ha & Hc). apply on_reducer_inv in Ha as (r & Hr & ->).
        apply method_bind_ok in Hc as ([] & s' & Hc & [= -> ->]). rewrite Hr.
        destruct changed; cbn in Hc; by injection Hc as <-.
      - apply on_reducer_inv in Ha as (r & Hr & ->). by rewrite Hr. }
    assert (same_core s3 ix') as Hlast by by destruct changed; injection Hrun as <-.
    destruct Hs1, Hf, Hlast. cbn in *. split; cbn; congruence.
  - apply method_bind_ok in Hrun as ([] & s2 & Hh & Hf). injection Hh as <-.
    apply record_finalized_core in Hf. destruct Hf. by split.
Qed.

Lemma replay_inv logs ix ix' :
  replay_logs logs ix = (Ok tt, ix') -> same_core (set_reducer (replayed logs (reducer ix)) ix) ix'.
Proof.
  revert ix. induction logs as [|log logs IH]; intros ix; cbn [replay_logs replayed].
  - intros [= <-]. by split.
  - intros (event & s1 & Hd & Hrun)%method_bind_ok. unfold lift in Hd. injection Hd as Hd ->.
    apply map_err_ok in Hd. rewrite Hd.
    apply method_bind_ok in Hrun as ([] & s2 & Ha & Hrun). apply apply_decoded_inv in Ha.
    apply IH in Hrun. destruct Ha as [Hr ? ? ?]. rewrite Hr in Hrun. destruct Hrun. cbn in *.
    destruct event; split; cbn; congruence.
Qed.

(** The outcome of a rebuilt engine. *)
Definition rebuilt (c : ChainCorrection) (ix ix' : QuoteIndexer) : Prop :=
  exists restore base,
    restore_point (optimistic_history ix) (common_ancestor c) (old_branch c) = Ok restore
    /\ rewind_head (br_cursor (common_ancestor c)) (default (reducer ix) restore) = (Ok tt, base)
    /\ reducer ix' = set_red_cursor (Some (br_cursor (new_tip c))) (replayed (replacement_logs c) base)
    /\ last_correction ix' = Some {| applied_fingerprint := fingerprint c;
                                     applied_tip := br_cursor (new_tip c) |}
    /\ deployment ix' = deployment ix /\ canonical_floor ix' = canonical_floor ix
    /\ stable_checkpoint ix' = stable_checkpoint ix.

Lemma rebuild_inv c ix ix' : rebuild c ix = (Ok tt, ix') -> rebuilt c ix ix'.
Proof.
  unfold rebuild. rewrite get_bind. cbv zeta. intros (restore & s1 & Hv & Hrun)%method_bind_ok.
  unfold lift in Hv. injection Hv as Hrest <-.
  apply method_bind_ok in Hrun as ([] & s2 & Hs2 & Hrun). injection Hs2 as <-.
  apply method_bind_ok in Hrun as ([] & s3 & Hs3 & Hrun).
  apply method_bind_ok in Hrun as ([] & s4 & (base & Hbase & ->)%on_reducer_inv & Hrun).
  apply method_bind_ok in Hrun as ([] & s5 & Hs5 & Hrun). injection Hs5 as <-.
  apply method_bind_ok in Hrun as ([] & s6 & Hs6%replay_inv & Hrun).
  apply method_bind_ok in Hrun as ([] & s7 & (r & Hr & ->)%on_reducer_inv & Hrun).
  apply observe_corrected_inv in Hr as ->.
  apply method_bind_ok in Hrun as ([] & s8 & Hs8%record_finalized_core & Hrun). injection Hrun as <-.
  exists restore, base. destruct Hs6 as [R6 D6 C6 K6], Hs8 as [R8 D8 C8 K8]. cbn in *.
  assert (s3 = match restore with
               | Some red => set_reducer red (set_history (rewind_after (common_ancestor c)
                               (optimistic_history ix)) ix)
               | None => set_history (rewind_after (common_ancestor c) (optimistic_history ix)) ix
               end) as -> by (destruct restore; by injection Hs3).
  split_and!; [done| | |done|..]; destruct restore; cbn in *; congruence.
Qed.

Lemma corrected_core_inv c ix applied ix' :
  corrected_core c ix = (Ok applied, ix') ->
  correction_validate c = Ok tt
  /\ chain_id (br_cursor (common_ancestor c)) = dep_chain_id (deployment ix)
  /\ validate_log_identities (replacement_logs c) (dep_core (deployment ix))
       (dep_chain_id (deployment ix)) = Ok tt
  /\ if applied then
       validate_correction_identity ix c = Ok tt
       /\ validate_finalized_ancestor ix (common_ancestor c) = Ok tt
       /\ red_ready (reducer ix) = true /\ rebuild c ix = (Ok tt, ix')
     else ix' = ix.
Proof.
  unfold corrected_core. rewrite get_bind. cbv zeta.
  intros ([] & s1 & Hv & Hrun)%method_bind_ok. unfold lift in Hv. injection Hv as Hvalid%map_err_ok <-.
  destruct (Z.eqb_spec (chain_id (br_cursor (common_ancestor c))) (dep_chain_id (deployment ix)));
    cbn [negb] in Hrun; [|done].
  apply method_bind_ok in Hrun as ([] & s1 & Hv & Hrun). unfold lift in Hv. injection Hv as Hlogs <-.
  split_and!; [done..|]. destruct (already_applied _ _); [by injection Hrun as <- <-|].
  destruct (is_at_tip _ _).
  { destruct (is_some_and _ _); [|done]. by injection Hrun as <- <-. }
  apply method_bind_ok in Hrun as ([] & s1 & Hv & Hrun). unfold lift in Hv. injection Hv as Hid <-.
  apply method_bind_ok in Hrun as ([] & s1 & Hv & Hrun). unfold lift in Hv. injection Hv as Hfin <-.
  unfold reducer_is_ready in Hrun. destruct (red_ready (reducer ix)); cbn [negb] in Hrun; [|done].
  apply method_bind_ok in Hrun as ([] & s1 & Hreb & Hrun). by injection Hrun as <- <-.
Qed.

(** What the identity checks of an accepted correction establish. *)
Definition replaces_head (c : ChainCorrection) (ix : QuoteIndexer) : Prop :=
  is_at_tip ix (br_cursor (old_tip c)) = true
  /\ (forall f, finalized_floor ix = Some f ->
        chain_id f = chain_id (br_cursor (common_ancestor c))
        /\ block_number f <= block_number (br_cursor (common_ancestor c))
        /\ (block_number f = block_number (br_cursor (common_ancestor c)) ->
            block_hash f = block_hash (br_cursor (common_ancestor c)))).

Lemma replaces_head_ok c ix :
  validate_correction_identity ix c = Ok tt ->
  validate_finalized_ancestor ix (common_ancestor c) = Ok tt -> replaces_head c ix.
Proof.
  intros Hid Hfin. split.
  - unfold validate_correction_identity in Hid. apply unit_bind_ok in Hid as [_ Hid].
    apply bind_ok in Hid as (current & Hc%ok_or_ok & Hid). unfold is_at_tip. rewrite Hc. cbn.
    destruct (_ || _) eqn:E; [done|]. rewrite !orb_false_iff, !negb_false_iff in E.
    by destruct E as [[[[-> ->] ->] ->] ->].
  - intros f Hf. unfold validate_finalized_ancestor, validate_floor_coverage in Hfin. rewrite Hf in Hfin.
    destruct (Z.eqb_spec (chain_id f) (chain_id (br_cursor (common_ancestor c)))); [|done].
    cbn [negb] in Hfin. destruct (Z.ltb_spec (block_number (br_cursor (common_ancestor c))) (block_number f)); [done|].
    split_and!; [done|done|]. intros Hn. rewrite Hn, Z.eqb_refl in Hfin.
    unfold require_same_identity in Hfin. destruct (_ || _) eqn:E; [done|].
    apply orb_false_iff in E as [_ E]. by apply negb_false_iff, bool_decide_eq_true in E.
Qed.


Lemma covers_itself (tip : ChainCursor) :
  is_Some (block_hash tip) -> snapshot_covers tip tip = Ok true.
Proof.
  intros [h Hh]. unfold snapshot_covers. rewrite !Z.eqb_refl, Z.ltb_irrefl, Hh, Z.eqb_refl. cbn [negb].
  unfold commitment_ltb. by rewrite Z.ltb_irrefl.
Qed.

Lemma validated_tip_hash c : correction_validate c = Ok tt -> is_Some (block_hash (br_cursor (new_tip c))).
Proof.
  intros Hv. unfold correction_validate in Hv. repeat (case_match; [discriminate Hv|]).
  apply unit_bind_ok in Hv as [_ Hv]. apply unit_bind_ok in Hv as [_ Hv].
  apply unit_bind_ok in Hv as [Hv _]. unfold validate_block, required_hash in Hv.
  destruct (block_hash (br_cursor (new_tip c))); [done|].
  repeat (case_match; try done).
Qed.

(** C14: Delivering an applied correction again is harmless: the engine recognises it
    by its fingerprint and tip and changes nothing. *)
Theorem correction_is_idempotent c ix ix' :
  replace_with_correction c ix = (Ok true, ix') -> replace_with_correction c ix' = (Ok false, ix').
Proof.
  unfold replace_with_correction at 1, into_corrected_core.
  destruct (corrected_core c ix) as [[[]|e] s] eqn:E; intros [= <-].
  apply corrected_core_inv in E as (Hv & Hc & Hl & _ & _ & _ & Hreb).
  apply rebuild_inv in Hreb as (restore & base & _ & _ & Hr & Hlast & Hd & _).
  unfold replace_with_correction, into_corrected_core, corrected_core. rewrite get_bind. cbv zeta.
  rewrite Hv, Hd, Hl, Hc, Z.eqb_refl. cbn [negb]. mred. cbn [from_source map_err].
  assert (already_applied s (fingerprint c) = true) as ->; [|done].
  unfold already_applied. rewrite Hlast, Hr. cbn. rewrite Z.eqb_refl.
  by rewrite covers_itself by by apply validated_tip_hash.
Qed.

(** ** Errors *)

Lemma set_reducer_same ix : set_reducer (reducer ix) ix = ix.
Proof. by destruct ix. Qed.

Lemma record_finalized_total cursor ix s :
  validate_finalized_update ix cursor = Ok tt -> finalized_floor s = finalized_floor ix ->
  exists s', record_finalized_update cursor s = (Ok tt, s').
Proof.
  intros Hv Hf. unfold record_finalized_update. rewrite get_bind. mred.
  assert (validate_finalized_update s cursor = Ok tt) as ->.
  { unfold validate_finalized_update in *. by rewrite Hf. }
  destruct (_ || _); eauto.
Qed.

(** A failed log leaves the engine as it was. *)
Lemma apply_decoded_err cursor event ix e ix' :
  apply_decoded_log cursor event ix = (Err e, ix') -> ix' = ix.
Proof.
  unfold apply_decoded_log. rewrite get_bind. mred.
  destruct (validate_finalized_update ix cursor) as [[]|e1] eqn:Hv; [|by intros [= <- <-]].
  destruct (validate_event_identity _ _) as [[]|e2]; [|by intros [= <- <-]].
  assert (forall s, finalized_floor s = finalized_floor ix ->
    exists s', record_finalized_update cursor s = (Ok tt, s')) as Hrec
    by (intros s Hs; by eapply record_finalized_total).
  destruct event as [event|].
  - unfold on_reducer, on_field, capture_if_changed, on_history.
    destruct (needs_capture _ _); mred;
      (destruct (apply_with_effect cursor event (reducer ix)) as [[changed|er] r] eqn:Ha; cbn [map_err];
       [destruct changed;
          match goal with |- context [record_finalized_update cursor ?s] =>
            destruct (Hrec s eq_refl) as [s' ->] end; done|]);
      (apply apply_with_effect_inv in Ha as [(e0 & _ & ->)|[(_ & [=] & _)|(? & ? & _ & [=] & _)]];
       intros [= <- <-]; apply set_reducer_same).
  - unfold on_history. mred. match goal with |- context [record_finalized_update cursor ?s] =>
      destruct (Hrec s eq_refl) as [s' ->] end. done.
Qed.

(** The errors that leave the engine ready: a head the finalized floor refuses, and
    a log refused by the canonical floor or by the decoder. *)
Definition tolerated (u : ChainUpdate) (ix : QuoteIndexer) : Prop :=
  match u with
  | Head head => is_ok (validate_finalized_update ix (br_cursor head)) = false
  | Log log => is_ok (floor_covers ix (log_cursor log)) = false
               \/ is_ok (decode_core_event log) = false
  | _ => False
  end.

Definition unchanged_or_unready (u : ChainUpdate) (ix ix' : QuoteIndexer) : Prop :=
  ix' = mark_not_ready ix \/ ix' = ix /\ tolerated u ix.

Lemma or_refuse_inv {A} (m : action A) ix res ix' :
  or_refuse m ix = (res, ix') ->
  match res with
  | Ok a => m ix = (Ok a, ix')
  | Err e => exists s, m ix = (Err e, s) /\ ix' = mark_not_ready s
  end.
Proof. unfold or_refuse. destruct (m ix) as [[a|e] s]; intros [= <- <-]; eauto. Qed.

Lemma identity_inv u ix res ix' :
  validate_core_update_identity u ix = (res, ix') ->
  match res with
  | Ok _ => ix' = ix
  | Err _ => ix' = mark_not_ready ix
  end.
Proof.
  unfold validate_core_update_identity. rewrite get_bind. intros Hr%or_refuse_inv. unfold lift in Hr.
  destruct res as [[]|e]; [by injection Hr|]. by destruct Hr as (s & [= _ <-] & ->).
Qed.

Lemma validated_update_err u decoder ix e ix' :
  match u with Correction _ => False | _ => True end ->
  apply_validated_update u decoder ix = (Err e, ix') -> unchanged_or_unready u ix ix'.
Proof.
  intros Hu. destruct u as [head|log|old new|c|cur reason cap]; [| | |done|];
    cbn [apply_validated_update]; [| |intros [= <- <-]; by left|intros [= <- <-]; by left].
  - rewrite get_bind. mred. destruct (validate_finalized_update _ _) as [[]|e1] eqn:Hv.
    2: { intros [= <- <-]. right. cbn. by rewrite Hv. }
    destruct (or_refuse _ ix) as [[[]|e2] s] eqn:Ho; apply or_refuse_inv in Ho.
    + apply on_reducer_inv in Ho as (r & _ & ->). intros Hrest. exfalso. revert Hrest.
      assert (forall s, finalized_floor s = finalized_floor ix ->
        record_finalized_update (br_cursor head) s <> (Err e, ix')) as Hrec.
      { intros s Hs. by destruct (record_finalized_total _ ix s Hv Hs) as [s' ->]. }
      destruct (red_cursor _); [destruct (head_published _ _)|]; by apply Hrec.
    + destruct Ho as (s1 & Ho & ->). intros [= <- <-]. left. f_equal.
      unfold on_reducer, on_field in Ho.
      destruct (observe_head (br_cursor head) (reducer ix)) as [[]] eqn:Hh; [done|].
      apply observe_head_inv in Hh as [(? & _ & ->)|([=] & _)]. injection Ho as _ <-.
      apply set_reducer_same.
  - destruct (log_removed log); [intros [= <- <-]; by left|].
    intros (s & ->%apply_decoded_err & ->)%or_refuse_inv. by left.
Qed.

Lemma core_log_err log ix e ix' :
  apply_core_log_borrowed_validated log ix = (Err e, ix') -> unchanged_or_unready (Log log) ix ix'.
Proof.
  unfold apply_core_log_borrowed_validated. destruct (log_removed log); [intros [= <- <-]; by left|].
  rewrite get_bind. mred. destruct (floor_covers ix (log_cursor log)) as [[]|e1] eqn:Hf; [done| |].
  2: { intros [= <- <-]. right. split; [done|]. left. by rewrite Hf. }
  destruct (decode_core_event log) as [event|e2] eqn:Hd; cbn [from_decode map_err].
  2: { intros [= <- <-]. right. split; [done|]. right. by rewrite Hd. }
  destruct (or_refuse _ ix) as [[[]|e3] s] eqn:Ho; [done|]. apply or_refuse_inv in Ho.
  destruct Ho as (s1 & ->%apply_decoded_err & ->). intros [= <- <-]. by left.
Qed.

Lemma replace_err c ix e ix' : replace_with_correction c ix = (Err e, ix') -> ix' = mark_not_ready ix.
Proof.
  unfold replace_with_correction. destruct (into_corrected_core c ix) as [[s []]|e1]; by intros [= <- <-].
Qed.

Lemma update_err u ix e ix' :
  apply_core_update_borrowed u ix = (Err e, ix') \/ apply_core_update u ix = (Err e, ix') ->
  unchanged_or_unready u ix ix'.
Proof.
  unfold apply_core_update_borrowed, apply_core_update. intros [Hrun|Hrun];
    apply method_bind_err in Hrun as [->%identity_inv|([] & s & ->%identity_inv & Hrun)]; try by left.
  - destruct u; try by eapply validated_update_err.
    + apply method_bind_err in Hrun as [Hrun|(? & ? & _ & [=])]. by eapply core_log_err.
    + apply method_bind_err in Hrun as [Hrun%replace_err|(? & ? & _ & [=])]. by left.
  - destruct u as [head|log|old new|c|cur reason cap]; cbn [apply_validated_core_update] in Hrun;
      try by eapply validated_update_err.
    + destruct (log_removed log) eqn:Hrem; [by eapply validated_update_err|].
      rewrite get_bind in Hrun. apply (core_log_err log ix e ix').
      unfold apply_core_log_borrowed_validated. rewrite Hrem, get_bind. revert Hrun. mred.
      destruct (floor_covers ix (log_cursor log)) as [[]|];
        [by intros [=]| |by intros [= <- <-]].
      destruct (from_decode (decode_core_event log)); [|by intros [= <- <-]].
      cbn [apply_validated_update]. rewrite Hrem. intros Hrun. by rewrite Hrun.
    + apply method_bind_err in Hrun as [Hrun%replace_err|(? & ? & _ & [=])]. by left.
Qed.

(** C6: A failing update never leaves a half-applied engine: it either clears
    readiness and changes nothing else, or changes nothing at all, and then it was a
    head the finalized floor refuses or a log the canonical floor or the decoder
    refuses. Owned and borrowed updates fail alike. *)
Theorem update_error_is_atomic u ix e ix' :
  apply_core_update_borrowed u ix = (Err e, ix') \/ apply_core_update u ix = (Err e, ix') ->
  ix' = mark_not_ready ix \/ ix' = ix /\ tolerated u ix.
Proof. apply update_err. Qed.

End Corrections.

(** ** A run at concrete inputs

    A snapshot at block 100, an event in block 101 of one fork, and a correction
    that replaces it by blocks 101 and 102 of another. *)

Section Sample.
#[local] Existing Instances sample_layout large_layout sample_keccak sample_alloy.

Definition sample_snapshot : BootstrapSnapshot :=
  {| snapshot_state := sample_state;
     snapshot_cursor := br_cursor (common_ancestor sample_correction);
     snapshot_implementation := 8; snapshot_implementation_code_hash := 9;
     snapshot_verified_router := None |}.

Definition sample_start : QuoteIndexer := indexer_new QuoteState_default sample_deployment.
Definition sample_ready : QuoteIndexer := (bootstrap_normalized sample_snapshot [] sample_start).2.

(** The multiplier becomes 77 in the abandoned block. *)
Definition sample_event : ContractLog :=
  let at_tip := Correction.sample_log (old_tip sample_correction) 0 in
  {| log_address := 7; log_transaction_hash := None;
     log_topics := emitted_topics core.BlacklistFeeMultiplierSet [77]; log_topics_capacity := 1;
     log_data := emitted_data core.BlacklistFeeMultiplierSet [77]; log_removed := false;
     log_cursor := log_cursor at_tip |}.

Definition sample_ahead : QuoteIndexer :=
  (apply_core_update (Head (old_tip sample_correction))
     (apply_core_update (Log sample_event) sample_ready).2).2.

Definition sample_corrected : QuoteIndexer := (replace_with_correction sample_correction sample_ahead).2.

(** The event of the abandoned block is undone. *)
Example correction_undoes_the_abandoned_event :
  blacklist_fee_multiplier (red_state (reducer sample_ready)) = 3
  /\ blacklist_fee_multiplier (red_state (reducer sample_ahead)) = 77
  /\ (replace_with_correction sample_correction sample_ahead).1 = Ok true
  /\ blacklist_fee_multiplier (red_state (reducer sample_corrected)) = 3
  /\ red_cursor (reducer sample_corrected) = Some (br_cursor (new_tip sample_correction)).
Proof. by vm_compute. Qed.

Lemma default_state_wf : state_wf QuoteState_default.
Proof. split; [done|apply map_Forall_empty|done]. Qed.

Lemma sample_snapshot_fits : snapshot_fits sample_snapshot.
Proof. split; [exact sample_state_wf|done]. Qed.

Lemma sample_run : rtc engine_step sample_start sample_ready.
Proof. apply rtc_once, do_bootstrap, sample_snapshot_fits. Qed.

Lemma sample_rest : rtc engine_step sample_ready sample_ahead.
Proof. eapply rtc_l; [apply do_core_update|]. apply rtc_once, do_core_update. Qed.

Lemma engine_invariant_witness :
  engine_ok sample_ahead /\ deployment sample_ahead = sample_deployment
  /\ floor_le (finalized_floor sample_ready) (finalized_floor sample_ahead).
Proof.
  exact (engine_invariant (laws := sample_alloy_laws) QuoteState_default sample_deployment
           sample_ready sample_ahead default_state_wf sample_run sample_rest).
Defined.

Lemma served_quote_exact_witness :
  indexer_quote sample_ready (sample_request 4 5 100 ExactIn) =
  Ok {| cq_outcome :=
          ExactQuote.outcome (sample_request 4 5 100 ExactIn) 100 sample_state
            (policy_base NonWhitelisted);
        cq_cursor := br_cursor (common_ancestor sample_correction);
        cq_execution_block_number := 100;
        cq_implementation_code_hash := 9;
        cq_math_compatibility_version := MATH_COMPATIBILITY_VERSION;
        cq_fee_class := NonWhitelisted;
        cq_verified_router := None |}.
Proof.
  etransitivity;
    [apply (served_quote_exact (laws := sample_alloy_laws) QuoteState_default sample_deployment
              sample_ready (sample_request 4 5 100 ExactIn) default_state_wf sample_run)
    |vm_compute; reflexivity].
  split; vm_compute; congruence.
Defined.

Lemma sample_applied :
  replace_with_correction sample_correction sample_ahead = (Ok true, sample_corrected).
Proof.
  pose proof correction_undoes_the_abandoned_event as (_ & _ & H & _). unfold sample_corrected.
  destruct (replace_with_correction sample_correction sample_ahead) as [res s]. cbn in *. by subst.
Qed.

Lemma correction_is_idempotent_witness :
  replace_with_correction sample_correction sample_corrected = (Ok false, sample_corrected).
Proof. exact (correction_is_idempotent sample_correction sample_ahead sample_corrected sample_applied). Defined.

Lemma update_error_is_atomic_witness :
  mark_not_ready sample_ahead = mark_not_ready sample_ahead
  \/ mark_not_ready sample_ahead = sample_ahead /\ tolerated (Gap None "lost" 4) sample_ahead.
Proof.
  apply (update_error_is_atomic (Gap None "lost" 4) sample_ahead (IndexerError.Gap "lost")).
  left. vm_compute. reflexivity.
Defined.

End Sample.
