(* ===== verification/Snapshot.v ===== *)
(** * The snapshot loader (crates/lunarbase-source-evm/src/rpc/snapshot.rs)

    One coherent, block-pinned quote state read from Core's view functions. The
    ABI code the [sol!] macro generates for the calls is a parameter. The two
    concurrent stages ([try_join!], [buffer_unordered]) are run in the order of
    their requests: their results are keyed by asset, and the assets are distinct. *)

From S2P Require Import Prelude StableSort Text Arithmetic Slot0 State Model Abi Rpc.
From S2P Require Import Reducer.

(** ** Core's view functions (protocol/abi.rs) *)

Record Reserves := {
  assetReserve : Z;
  treasuryFees : Z;
  partnerFees : Z;
  escrowedAssets : Z;
  totalPrincipalAmount : Z
}.

Record Partner := {
  cumFees : Z;
  fee : Z;
  latestWithdrawTimestamp : Z;
  operator : Address
}.

Inductive CoreCall : Type -> Type :=
| cashCall : CoreCall Address
| laneCall (asset : Address) : CoreCall B256
| reservesCall (asset : Address) : CoreCall Reserves
| whitelistCall (account : Address) : CoreCall bool
| blacklistFeeMultiplierCall : CoreCall U256
| partnersCall (router asset : Address) : CoreCall Partner.

(** The values the declared return types admit. *)
Definition return_fits {R} (call : CoreCall R) : R -> Prop :=
  match call in CoreCall R return R -> Prop with
  | cashCall => fun a => uint 160 a
  | laneCall _ => fun w => uint 256 w
  | reservesCall _ => fun r => uint 128 (assetReserve r) /\ uint 128 (totalPrincipalAmount r)
  | whitelistCall _ => fun _ => True
  | blacklistFeeMultiplierCall => fun m => uint 256 m
  | partnersCall _ _ => fun p => uint 32 (fee p)
  end.

(** [abi_encode] and [abi_decode_returns_validate]. *)
Class SolCalls := {
  abi_encode {R} : CoreCall R -> list Z;
  abi_decode_returns {R} : CoreCall R -> list Z -> result string R
}.

(** The validating decoder yields values of the declared types. *)
Class SolLaws `{SolCalls} :=
  decoded_return_fits : forall R (call : CoreCall R) bytes v,
    abi_decode_returns call bytes = Ok v -> return_fits call v.

Definition decode_error_to_string (e : LogDecodeError) : string :=
  match e with
  | MissingTopic0 => "event log has no topic0"
  | InvalidTopicCount => "event log has an invalid topic count"
  | InvalidDataLength => "event log has invalid ABI data length"
  | InvalidAddress => "event log contains an invalid address topic"
  | InvalidBoolean => "event log contains an invalid boolean"
  end.

Definition unavailable {A} (reason : string) : proc Session SourceError A :=
  stop (SourceUnavailable reason).

(** [if !holds { return Err(Unavailable(reason)) }] *)
Definition require (holds : bool) (reason : string) : proc Session SourceError unit :=
  if holds then mret tt else unavailable reason.

Record RpcSnapshotProvider := {
  sp_rpc : RpcHttpClient;
  sp_snapshot_tag : string
}.

Section Provider.
Context `{Json, Http, MemLayout, Keccak, Alloy, SolCalls}.
Context `{!Deserialize Z, !Deserialize StorageWord, !Deserialize (list Z)}.
Context `{!Deserialize Value, !Deserialize (list Value)}.
Context (u64_from_str_ok : string -> bool).

Definition read {R} (self : RpcSnapshotProvider) (core : Address) (call : CoreCall R) (hash : B256)
    : proc Session SourceError R :=
  response ← map_perr source_error_of_rpc (call_at_hash (sp_rpc self) core (abi_encode call) hash);
  attempt (map_err (fun error => SourceUnavailable ("invalid Core ABI response: " +:+ error))
             (abi_decode_returns call response)).

(** ** Lane discovery *)

Definition discover (discovered : gset Address) (log : ContractLog)
    : result SourceError (gset Address) :=
  event ← map_err (fun error => SourceUnavailable (decode_error_to_string error))
            (decode_core_event log);
  Ok match event with
     | Some (LaneAdded asset) => {[ asset ]} ∪ discovered
     | Some (LaneRemoved asset) => discovered ∖ {[ asset ]}
     | _ => discovered
     end.

Definition discovery_request (config : DeploymentConfig) (from to : Z) : BackfillRequest :=
  {| from_block := from; to_block := to;
     filter := {| filter_address := dep_core config; filter_topics := lane_discovery_topics |} |}.

(** The loop over discovery pages. *)
Fixpoint discover_pages (fuel : nat) (self : RpcSnapshotProvider) (config : DeploymentConfig)
    (snapshot_block page_start : Z) (discovered : gset Address)
    : proc Session SourceError (gset Address) :=
  match fuel with
  | O => out_of_fuel
  | S fuel =>
      let page_blocks := max_backfill_page_blocks (client_limits (sp_rpc self)) in
      let page_end :=
        Z.min (uint_saturating_add 64 page_start (uint_saturating_sub page_blocks 1))
          snapshot_block in
      history ← map_perr source_error_of_rpc
        (get_logs (sp_rpc self) (discovery_request config page_start page_end)
           (dep_chain_id config) Canonical);
      discovered ← attempt (try_fold discover discovered (sort_logs history));
      if page_end =? snapshot_block then mret discovered
      else discover_pages fuel self config snapshot_block (uint_saturating_add 64 page_end 1) discovered
  end.

(** A [BTreeSet] is iterated in ascending order. *)
Definition ascending (set : gset Address) : list Address :=
  sort_by_key Z.ltb (fun asset => asset) (elements set).

Definition resolve_lane_assets (self : RpcSnapshotProvider) (config : DeploymentConfig)
    (snapshot_block : Z) : proc Session SourceError (list Address) :=
  match dep_explicit_lane_assets config with
  | [] =>
      discovered ← discover_pages (S (Z.to_nat (snapshot_block - dep_deployment_block config)))
                     self config snapshot_block (dep_deployment_block config) ∅;
      mret (ascending discovered)
  | assets => mret assets
  end.

(** ** Reads *)

Definition read_lane (self : RpcSnapshotProvider) (config : DeploymentConfig) (hash : B256)
    (asset : Address) : proc Session SourceError (Address * LaneState) :=
  lane ← read self (dep_core config) (laneCall asset) hash;
  reserves ← read self (dep_core config) (reservesCall asset) hash;
  mret (asset, {| slot0 := lane; asset_reserve := assetReserve reserves;
                  total_principal_amount := totalPrincipalAmount reserves |}).

Definition read_partner_fee (self : RpcSnapshotProvider) (config : DeploymentConfig) (hash : B256)
    (router asset : Address) : proc Session SourceError (Address * Z) :=
  partner ← read self (dep_core config) (partnersCall router asset) hash;
  if BPS <? fee partner then unavailable "partner fee exceeds BPS"
  else mret (asset, fee partner).

(** [stream::iter(xs).map(f).try_collect()] *)
Fixpoint try_collect {A B} (f : A -> proc Session SourceError B) (xs : list A)
    : proc Session SourceError (list B) :=
  match xs with
  | [] => mret []
  | x :: xs => y ← f x; ys ← try_collect f xs; mret (y :: ys)
  end.

(** [map.extend(entries)]: the last entry of a key wins. *)
Definition extend {A} (entries : list (Address * A)) (m : gmap Address A) : gmap Address A :=
  foldl (fun m '(k, v) => <[ k := v ]> m) m entries.

Definition read_verified_router (self : RpcSnapshotProvider) (config : DeploymentConfig) (hash : B256)
    (assets : list Address) (cash : Address) : proc Session SourceError (option VerifiedRouterSnapshot) :=
  match verified_router config with
  | None => mret None
  | Some router =>
      whitelisted ← read self (dep_core config) (whitelistCall router) hash;
      if negb (Bool.eqb whitelisted (is_whitelisted (dep_fee_class config)))
      then unavailable ("verified router fee class mismatch: expected "
             +:+ (if is_whitelisted (dep_fee_class config) then "true" else "false")
             +:+ ", got " +:+ (if whitelisted then "true" else "false"))
      else
        let partner_assets :=
          if bool_decide (cash ∈ assets) then assets else assets ++ [cash] in
        partner_fees ← try_collect (read_partner_fee self config hash router) partner_assets;
        mret (Some {| router := router; partner_fee_bps := extend partner_fees ∅ |})
  end.

(** The identity checks at the pinned block. *)
Definition read_implementation (self : RpcSnapshotProvider) (config : DeploymentConfig) (hash : B256)
    : proc Session SourceError (Address * B256) :=
  word ← map_perr source_error_of_rpc
    (get_storage_at_hash (sp_rpc self) (dep_core config) ERC1967_IMPLEMENTATION_SLOT hash);
  implementation ← attempt (ok_or (decode_implementation word)
    (SourceUnavailable "Core has an invalid ERC-1967 implementation slot"));
  _ ← require (implementation =? dep_expected_implementation config)
        "Core implementation does not match deployment config";
  code_hash ← map_perr source_error_of_rpc
    (runtime_code_hash_at_hash (sp_rpc self) implementation hash);
  _ ← require (code_hash =? dep_expected_implementation_code_hash config)
        "implementation code hash does not match deployment config";
  mret (implementation, code_hash).

(** Core's quote state at the pinned block. *)
Definition read_state (self : RpcSnapshotProvider) (config : DeploymentConfig) (hash : B256)
    (assets : list Address) : proc Session SourceError QuoteState :=
  cash ← read self (dep_core config) cashCall hash;
  multiplier ← read self (dep_core config) blacklistFeeMultiplierCall hash;
  lane_states ← try_collect (read_lane self config hash) assets;
  _ ← require (negb (negb (bool_decide (dep_explicit_lane_assets config = []))
                     && existsb (fun '(_, lane) => negb (LaneState_exists lane)) lane_states))
        "explicit lane asset is not active at the snapshot block";
  reserves ← read self (dep_core config) (reservesCall cash) hash;
  mret {| cash := cash; cash_reserve := assetReserve reserves; lanes := extend lane_states ∅;
          blacklist_fee_multiplier := multiplier |}.

Definition snapshot (self : RpcSnapshotProvider) (config : DeploymentConfig)
    : proc Session SourceError BootstrapSnapshot :=
  _ ← attempt (deployment_validate config);
  rpc_chain_id ← map_perr source_error_of_rpc (rpc_chain_id (sp_rpc self));
  if negb (rpc_chain_id =? dep_chain_id config)
  then stop (chain_id_mismatch (dep_chain_id config) rpc_chain_id)
  else
  let commitment := snapshot_commitment (sp_snapshot_tag self) in
  cursor ← map_perr source_error_of_rpc
    (block_cursor u64_from_str_ok (sp_rpc self) (sp_snapshot_tag self) (dep_chain_id config) commitment);
  hash ← attempt (ok_or (block_hash cursor)
    (SourceUnavailable "snapshot block has no canonical hash"));
  _ ← require (negb (block_number cursor <? dep_deployment_block config))
        "snapshot block precedes deployment block";
  '(implementation, implementation_code_hash) ← read_implementation self config hash;
  assets ← resolve_lane_assets self config (block_number cursor);
  state ← read_state self config hash assets;
  verified_router ← read_verified_router self config hash assets (cash state);
  verified ← map_perr source_error_of_rpc
    (block_cursor u64_from_str_ok (sp_rpc self) (hex_quantity (block_number cursor))
       (dep_chain_id config) commitment);
  _ ← require (bool_decide (block_hash verified = Some hash))
        "snapshot block changed while state was reconstructed";
  mret {| snapshot_state := state; snapshot_cursor := cursor;
          snapshot_implementation := implementation;
          snapshot_implementation_code_hash := implementation_code_hash;
          snapshot_verified_router := verified_router |}.

End Provider.
