(* ===== verification/SnapshotFacts.v ===== *)
(** * Correctness of the snapshot loader

    A snapshot that loads is coherent (every value was read at one block hash, the
    deployment's identity holds there, the lanes are the ones discovered) and is
    always accepted by an engine of the same deployment. *)

From S2P Require Import Prelude StableSort Text Arithmetic Slot0 State Model Abi Rpc RpcFacts.
From S2P Require Import Reducer IndexerTypes Journal JournalFacts Validation Engine Snapshot.

Section Facts.
Context `{Json, Http, MemLayout, Keccak, Alloy, SolCalls}.
Context `{!Deserialize Z, !Deserialize StorageWord, !Deserialize (list Z)}.
Context `{!Deserialize Value, !Deserialize (list Value)}.
Context (u64_from_str_ok : string -> bool) (self : RpcSnapshotProvider) (config : DeploymentConfig).

(** ** Reads at one block *)

(** Core's view function had this value at the hash, when it was asked between the
    two sessions. *)
Definition viewed {R} (hash : B256) (call : CoreCall R) (v : R) (s s' : Session) : Prop :=
  exists bytes, answers (sp_rpc self) (EthCall (dep_core config) (abi_encode call) (ByHash hash)) bytes s s'
    /\ abi_decode_returns call bytes = Ok v.

Lemma viewed_weaken {R} hash (call : CoreCall R) v s0 s s' s1 :
  (issued s0 <= issued s)%nat -> (issued s' <= issued s1)%nat ->
  viewed hash call v s s' -> viewed hash call v s0 s1.
Proof. intros ? ? (b & Ha & ?). exists b. split; [|done]. by apply (answers_weaken _ _ _ s0 s s' s1). Qed.

Lemma read_ok {R} (call : CoreCall R) hash s v s' :
  read self (dep_core config) call hash s = Some (Ok v, s') -> viewed hash call v s s'.
Proof.
  unfold read, call_at_hash. intros (bytes & s1 & [Ha Hi]%map_perr_ok%request_ok & E)%proc_bind_ok.
  apply attempt_ok in E as [Hd%map_err_ok ->]. by exists bytes.
Qed.

Lemma advancing_read {R} (call : CoreCall R) hash : advancing (read self (dep_core config) call hash).
Proof. runs. Qed.

Lemma advancing_try_collect {A B} (f : A -> proc Session SourceError B) xs :
  (forall x, advancing (f x)) -> advancing (try_collect f xs).
Proof. intros Hf. induction xs as [|x xs IH]; cbn [try_collect]; runs; (apply Hf || apply IH). Qed.

(** Every element of a collected stream came from its own read. *)
Lemma try_collect_ok {A B} (f : A -> proc Session SourceError B) (P : A -> B -> Session -> Session -> Prop) xs s ys s' :
  (forall x, advancing (f x)) ->
  (forall x y s s', f x s = Some (Ok y, s') -> P x y s s') ->
  (forall x y s0 s s' s1, (issued s0 <= issued s)%nat -> (issued s' <= issued s1)%nat ->
     P x y s s' -> P x y s0 s1) ->
  try_collect f xs s = Some (Ok ys, s') -> Forall2 (fun x y => P x y s s') xs ys.
Proof.
  intros Hadv Hf Hw. revert s ys. induction xs as [|x xs IH]; intros s ys; cbn [try_collect].
  - intros [= <- <-]. constructor.
  - intros (y & s1 & Hx & (ys' & s2 & Hxs & E)%proc_bind_ok)%proc_bind_ok. injection E as <- <-.
    pose proof (Hadv _ _ _ _ Hx) as Hi1. pose proof (advancing_try_collect f xs Hadv _ _ _ Hxs) as Hi2.
    constructor; [apply (Hw _ _ s s s1 s2); [lia|lia|by apply Hf]|].
    eapply Forall2_impl; [by apply IH|]. intros x' y' HP. by apply (Hw _ _ s s1 s2 s2); [lia|lia|].
Qed.

(** ** Lanes *)

Definition lane_viewed (hash : B256) (asset : Address) (lane : LaneState) (s s' : Session) : Prop :=
  exists word reserves, viewed hash (laneCall asset) word s s' /\ viewed hash (reservesCall asset) reserves s s'
    /\ lane = {| slot0 := word; asset_reserve := assetReserve reserves;
                 total_principal_amount := totalPrincipalAmount reserves |}.

Lemma read_lane_ok hash asset s entry s' :
  read_lane self config hash asset s = Some (Ok entry, s') ->
  entry.1 = asset /\ lane_viewed hash asset entry.2 s s'.
Proof.
  unfold read_lane. intros (word & s1 & Hw & (r & s2 & Hr & E)%proc_bind_ok)%proc_bind_ok.
  injection E as <- <-. pose proof (advancing_read (laneCall asset) hash _ _ _ Hw). pose proof (advancing_read (reservesCall asset) hash _ _ _ Hr).
  split; [done|]. exists word, r. apply read_ok in Hw, Hr.
  split_and!; [eapply viewed_weaken; [| |exact Hw]; lia|eapply viewed_weaken; [| |exact Hr]; lia|done].
Qed.

Lemma advancing_read_lane hash asset : advancing (read_lane self config hash asset).
Proof. runs. Qed.

Definition partner_viewed (hash : B256) (router asset : Address) (bps : Z) (s s' : Session) : Prop :=
  bps <= BPS /\ exists partner, viewed hash (partnersCall router asset) partner s s' /\ bps = fee partner.

Lemma read_partner_fee_ok hash router asset s entry s' :
  read_partner_fee self config hash router asset s = Some (Ok entry, s') ->
  entry.1 = asset /\ partner_viewed hash router asset entry.2 s s'.
Proof.
  unfold read_partner_fee. intros (p & s1 & Hp & E)%proc_bind_ok.
  destruct (Z.ltb_spec BPS (fee p)); [discriminate E|]. injection E as <- <-.
  split; [done|]. split; [done|]. exists p. split; [by apply read_ok|done].
Qed.

Lemma advancing_read_partner_fee hash router asset :
  advancing (read_partner_fee self config hash router asset).
Proof. runs. Qed.

(** A stream of keyed reads becomes a map whose entries are all read values. *)
Lemma extend_lookup {A} (P : Address -> A -> Prop) assets (entries : list (Address * A)) :
  Forall2 (fun asset entry => entry.1 = asset /\ P asset entry.2) assets entries ->
  dom (extend entries ∅) = list_to_set (C := gset Address) assets
  /\ map_Forall P (extend entries ∅).
Proof.
  intros HF. unfold extend.
  assert (forall m : gmap Address A, map_Forall P m ->
    dom (foldl (fun m '(k, v) => <[ k := v ]> m) m entries) = dom m ∪ list_to_set assets
    /\ map_Forall P (foldl (fun m '(k, v) => <[ k := v ]> m) m entries)) as Hg.
  { induction HF as [|asset [k v] assets entries [<- Hv] _ IH]; intros m Hm; cbn [foldl].
    - split; [set_solver|done].
    - destruct (IH (<[k := v]> m)) as [Hd Hf]; [by apply map_Forall_insert_2|].
      split; [rewrite Hd, dom_insert_L; cbn; set_solver|done]. }
  destruct (Hg ∅ (map_Forall_empty _)) as [Hd Hf]. split; [rewrite Hd; set_solver|done].
Qed.

Lemma ascending_elements set : list_to_set (C := gset Address) (ascending set) = set.
Proof.
  unfold ascending. rewrite <-(list_to_set_elements_L set) at 2. apply list_to_set_perm_L.
  apply (sort_by_key_permutation Z.ltb _).
Qed.

Lemma ascending_sorted set : Sorted Z.lt (ascending set).
Proof.
  pose proof (sort_by_key_sorted Z.ltb (fun a : Address => a) (elements set)) as [Hp Hs _].
  fold (ascending set) in Hp, Hs. apply StronglySorted_Sorted.
  assert (NoDup (ascending set)) as Hn by (rewrite Hp; apply NoDup_elements).
  clear Hp. induction Hs as [|x l Hs IH Hx]; [constructor|]. apply NoDup_cons in Hn as [Hx' Hn].
  constructor; [by apply IH|]. apply Forall_forall. intros y Hy. rewrite Forall_forall in Hx.
  destruct (Hx y Hy) as [E|Hlt%Z.ltb_lt]; [|done]. subst y. done.
Qed.

(** ** Discovery *)

Notation max_page := (max_backfill_page_blocks (client_limits (sp_rpc self))).

(** The pages of discovery end; a completed walk has read every block. *)
Lemma discover_pages_spec fuel last start discovered s :
  limits_ok (sp_rpc self) -> 0 <= start <= last -> last < 2 ^ 64 -> last - start < Z.of_nat fuel ->
  exists r s', discover_pages fuel self config last start discovered s = Some (r, s')
    /\ (issued s <= issued s')%nat.
Proof.
  intros Hl. revert start discovered s. induction fuel as [|fuel IH]; intros start discovered s Hs Ht Hf; [lia|].
  cbn [discover_pages]. pose proof Hl as (Hp & _ & _).
  assert (exists stop, Z.min (uint_saturating_add 64 start (uint_saturating_sub max_page 1)) last = stop
            /\ start <= stop <= last) as (stop & -> & Hstop).
  { eexists. split; [reflexivity|]. unfold uint_saturating_add, uint_saturating_sub, uint_max. lia. }
  destruct (get_logs_spec (sp_rpc self) (discovery_request config start stop) (dep_chain_id config) Canonical s)
    as (r & s1 & E & _); [cbn; unfold uint; lia..|done|].
  pose proof (advancing_get_logs _ _ _ _ _ _ _ E) as Hi.
  unfold mbind at 1, proc_bind at 1, map_perr. rewrite E. cbn [mbind option_bind].
  destruct r as [logs|e]; cbn [map_err]; [|by eexists _, _].
  unfold mbind at 1, proc_bind at 1, attempt, call, lift.
  destruct (try_fold discover discovered (sort_logs logs)) as [d|e]; [|by eexists _, _].
  destruct (Z.eqb_spec stop last) as [->|Hne]; [by eexists _, _|].
  assert (uint_saturating_add 64 stop 1 = stop + 1) as -> by (unfold uint_saturating_add, uint_max; lia).
  destruct (IH (stop + 1) d s1) as (r & s' & E' & Hi'); [lia..|]. exists r, s'. split; [done|lia].
Qed.

(** Against an honest node discovery replays the lane events of every block once. *)
Lemma discover_pages_exact history fuel last start discovered s out s' :
  limits_ok (sp_rpc self) -> 0 <= start <= last -> last < 2 ^ 64 ->
  in_order history ->
  (forall from to, honest (sp_rpc self) (discovery_request config from to) (dep_chain_id config) Canonical history) ->
  discover_pages fuel self config last start discovered s = Some (Ok out, s') ->
  try_fold discover discovered (logs_in (start, last) history) = Ok out.
Proof.
  intros Hl Hs Ht Ho Hh. revert start discovered s Hs. induction fuel as [|fuel IH];
    intros start discovered s Hs; [done|]. cbn [discover_pages]. pose proof Hl as (Hp & _ & _).
  assert (exists stop, Z.min (uint_saturating_add 64 start (uint_saturating_sub max_page 1)) last = stop
            /\ start <= stop <= last) as (stop & -> & Hstop).
  { eexists. split; [reflexivity|]. unfold uint_saturating_add, uint_saturating_sub, uint_max. lia. }
  intros (logs & s1 & E%map_perr_ok & (d & s2 & [Hd ->]%attempt_ok & Hrest)%proc_bind_ok)%proc_bind_ok.
  assert (logs = logs_in (start, stop) history) as ->.
  { destruct (get_logs_spec (sp_rpc self) (discovery_request config start stop) (dep_chain_id config) Canonical s)
      as (r & s1' & E' & _ & _ & Hok); [cbn; unfold uint; lia..|done|].
    rewrite E in E'. injection E' as <- <-. destruct (Hok _ eq_refl) as (pages & Hb & Hpg & -> & _).
    rewrite (pages_logs _ _ _ _ s s1 start stop pages history Ho (Hh start stop)) by (cbn; (done || lia)).
    exact (sort_by_key_id order_ltb _ _ (logs_in_order _ _ Ho)). }
  unfold sort_logs in Hd. rewrite (sort_by_key_id order_ltb _ _ (logs_in_order _ _ Ho)) in Hd.
  destruct (Z.eqb_spec stop last) as [->|Hne].
  { injection Hrest as <- <-. done. }
  assert (uint_saturating_add 64 stop 1 = stop + 1) as Esat by (unfold uint_saturating_add, uint_max; lia).
  rewrite Esat in Hrest. rewrite (logs_in_split start stop last) by (done || lia).
  rewrite try_fold_app, Hd. bsimpl. apply (IH (stop + 1) d s1); [lia|exact Hrest].
Qed.

(** ** The parts of a snapshot *)

Lemma require_ok holds reason s s' :
  require holds reason s = Some (Ok tt, s') -> holds = true /\ s' = s.
Proof. destruct holds; [by intros [= <-]|done]. Qed.

Definition implementation_confirmed (hash : B256) (s s' : Session) : Prop :=
  (exists w, answers (sp_rpc self) (EthGetStorageAt (dep_core config) ERC1967_IMPLEMENTATION_SLOT (ByHash hash)) w s s'
     /\ decode_implementation (storage_word w) = Some (dep_expected_implementation config))
  /\ exists code, answers (sp_rpc self) (EthGetCode (dep_expected_implementation config) (ByHash hash)) code s s'
       /\ keccak256 code = dep_expected_implementation_code_hash config.

Lemma read_implementation_ok hash s implementation code_hash s' :
  read_implementation self config hash s = Some (Ok (implementation, code_hash), s') ->
  implementation = dep_expected_implementation config
  /\ code_hash = dep_expected_implementation_code_hash config
  /\ implementation_confirmed hash s s' /\ (issued s <= issued s')%nat.
Proof.
  unfold read_implementation.
  intros (word & s1 & [Hi1 (w & Hw & ->)]%map_perr_ok%get_storage_ok & E)%proc_bind_ok.
  apply proc_bind_ok in E as (impl & s2 & [Hd%ok_or_ok ->]%attempt_ok & E).
  apply proc_bind_ok in E as ([] & s3 & [Hm%Z.eqb_eq ->]%require_ok & E). subst impl.
  apply proc_bind_ok in E as (ch & s4 & [Hi2 (code & Hc & ->)]%map_perr_ok%runtime_code_hash_ok & E).
  apply proc_bind_ok in E as ([] & s5 & [Hh%Z.eqb_eq ->]%require_ok & E). injection E as <- <- <-.
  split_and!; [done|done| |lia]. split.
  - exists w. split; [|exact Hd]. apply (answers_weaken _ _ _ s s s1 s4); [lia|lia|exact Hw].
  - exists code. split; [|exact Hh]. apply (answers_weaken _ _ _ s s1 s4 s4); [lia|lia|exact Hc].
Qed.

Definition state_viewed (hash : B256) (assets : list Address) (st : QuoteState) (s s' : Session) : Prop :=
  viewed hash cashCall (cash st) s s'
  /\ viewed hash blacklistFeeMultiplierCall (blacklist_fee_multiplier st) s s'
  /\ (exists r, viewed hash (reservesCall (cash st)) r s s' /\ cash_reserve st = assetReserve r)
  /\ dom (lanes st) = list_to_set (C := gset Address) assets
  /\ map_Forall (fun asset lane => lane_viewed hash asset lane s s') (lanes st)
  /\ (dep_explicit_lane_assets config <> [] -> map_Forall (fun _ lane => LaneState_exists lane = true) (lanes st)).

Lemma lane_viewed_weaken hash asset lane s0 s s' s1 :
  (issued s0 <= issued s)%nat -> (issued s' <= issued s1)%nat ->
  lane_viewed hash asset lane s s' -> lane_viewed hash asset lane s0 s1.
Proof.
  intros ? ? (w & r & Hw & Hr & ->). exists w, r.
  split_and!; [by apply (viewed_weaken _ _ _ s0 s s' s1)|by apply (viewed_weaken _ _ _ s0 s s' s1)|done].
Qed.

Lemma read_state_ok hash assets s st s' :
  read_state self config hash assets s = Some (Ok st, s') ->
  state_viewed hash assets st s s' /\ (issued s <= issued s')%nat.
Proof.
  unfold read_state. intros (a & s1 & Ha & E)%proc_bind_ok.
  apply proc_bind_ok in E as (m & s2 & Hm & E). apply proc_bind_ok in E as (ls & s3 & Hls & E).
  apply proc_bind_ok in E as ([] & s3' & [Hex ->]%require_ok & E).
  apply proc_bind_ok in E as (r & s4 & Hr & E). injection E as <- <-.
  pose proof (advancing_read cashCall hash _ _ _ Ha). pose proof (advancing_read blacklistFeeMultiplierCall hash _ _ _ Hm).
  pose proof (advancing_try_collect _ _ (advancing_read_lane hash) _ _ _ Hls).
  pose proof (advancing_read (reservesCall a) hash _ _ _ Hr).
  split; [|lia].
  apply (try_collect_ok (read_lane self config hash)
    (fun asset entry s s' => entry.1 = asset /\ lane_viewed hash asset entry.2 s s')) in Hls.
  2: apply advancing_read_lane. 2: { intros x y sa sb. apply read_lane_ok. }
  2: { intros x y s0 sa sb sc ? ? [? Hl]. split; [done|]. by apply (lane_viewed_weaken _ _ _ s0 sa sb sc). }
  pose proof (extend_lookup (fun asset lane => lane_viewed hash asset lane s2 s3) _ _ Hls) as [Hd Hf].
  apply read_ok in Ha, Hm, Hr. split_and!; cbn [cash blacklist_fee_multiplier cash_reserve lanes].
  - apply (viewed_weaken _ _ _ s s s1 s4); [lia|lia|exact Ha].
  - apply (viewed_weaken _ _ _ s s1 s2 s4); [lia|lia|exact Hm].
  - exists r. split; [|done]. apply (viewed_weaken _ _ _ s s3 s4 s4); [lia|lia|exact Hr].
  - exact Hd.
  - eapply map_Forall_impl; [exact Hf|]. intros k l Hl.
    apply (lane_viewed_weaken _ _ _ s s2 s3 s4); [lia|lia|exact Hl].
  - intros Hne. rewrite bool_decide_eq_false_2 in Hex by done. cbn [negb andb] in Hex.
    apply negb_true_iff in Hex.
    assert (Forall2 (fun asset entry => entry.1 = asset /\ LaneState_exists entry.2 = true) assets ls) as Hx.
    { clear Hd Hf. induction Hls as [|x [k l] xs ys [? _] _ IH]; [constructor|].
      cbn [existsb] in Hex. apply orb_false_iff in Hex as [Hl Hex]. apply negb_false_iff in Hl.
      constructor; [done|by apply IH]. }
    by apply (extend_lookup (fun _ lane => LaneState_exists lane = true) _ _ Hx).
Qed.

Definition router_viewed (hash : B256) (assets : list Address) (st : QuoteState)
    (policy : option VerifiedRouterSnapshot) (s s' : Session) : Prop :=
  match verified_router config, policy with
  | None, None => True
  | Some expected, Some v =>
      router v = expected
      /\ viewed hash (whitelistCall expected) (is_whitelisted (dep_fee_class config)) s s'
      /\ dom (partner_fee_bps v) = list_to_set (C := gset Address) assets ∪ {[ cash st ]}
      /\ map_Forall (fun asset bps => partner_viewed hash expected asset bps s s') (partner_fee_bps v)
  | _, _ => False
  end.

Lemma partner_viewed_weaken hash r asset bps s0 s s' s1 :
  (issued s0 <= issued s)%nat -> (issued s' <= issued s1)%nat ->
  partner_viewed hash r asset bps s s' -> partner_viewed hash r asset bps s0 s1.
Proof.
  intros ? ? [Hb (p & Hp & ->)]. split; [done|]. exists p. split; [|done].
  by apply (viewed_weaken _ _ _ s0 s s' s1).
Qed.

Lemma read_verified_router_ok hash assets st s policy s' :
  read_verified_router self config hash assets (cash st) s = Some (Ok policy, s') ->
  router_viewed hash assets st policy s s' /\ (issued s <= issued s')%nat.
Proof.
  unfold read_verified_router, router_viewed. destruct (verified_router config) as [rt|].
  2: { intros [= <- <-]. split; [done|lia]. }
  intros (w & s1 & Hw & E)%proc_bind_ok. destruct (Bool.eqb _ _) eqn:Ew; [|discriminate E].
  apply eqb_prop in Ew as ->. cbn [negb] in E.
  apply proc_bind_ok in E as (fees & s2 & Hf & E). injection E as <- <-.
  pose proof (advancing_read (whitelistCall rt) hash _ _ _ Hw).
  pose proof (advancing_try_collect _ _ (advancing_read_partner_fee hash rt) _ _ _ Hf).
  split; [|lia].
  apply (try_collect_ok (read_partner_fee self config hash rt)
    (fun asset entry s s' => entry.1 = asset /\ partner_viewed hash rt asset entry.2 s s')) in Hf.
  2: apply advancing_read_partner_fee. 2: { intros x y sa sb. apply read_partner_fee_ok. }
  2: { intros x y s0 sa sb sc ? ? [? Hl]. split; [done|]. by apply (partner_viewed_weaken _ _ _ _ s0 sa sb sc). }
  apply (extend_lookup (fun asset bps => partner_viewed hash rt asset bps s1 s2)) in Hf as [Hd Hm].
  cbn [router partner_fee_bps]. split_and!; [done| | |].
  - apply (viewed_weaken _ _ _ s s s1 s2); [lia|lia|]. by apply read_ok.
  - rewrite Hd. case_bool_decide; set_solver.
  - eapply map_Forall_impl; [exact Hm|]. intros k l Hl.
    apply (partner_viewed_weaken _ _ _ _ s s1 s2 s2); [lia|lia|exact Hl].
Qed.

Definition assets_resolved (last : Z) (assets : list Address) : Prop :=
  (dep_explicit_lane_assets config <> [] /\ assets = dep_explicit_lane_assets config)
  \/ (dep_explicit_lane_assets config = [] /\ exists found s s',
      discover_pages (S (Z.to_nat (last - dep_deployment_block config))) self config last
        (dep_deployment_block config) ∅ s = Some (Ok found, s')
      /\ assets = ascending found).

Lemma advancing_discover fuel last start found :
  advancing (discover_pages fuel self config last start found).
Proof. revert start found. induction fuel as [|fuel IH]; intros start found; cbn [discover_pages]; runs; apply IH. Qed.

Lemma resolve_lane_assets_ok last s assets s' :
  resolve_lane_assets self config last s = Some (Ok assets, s') ->
  assets_resolved last assets /\ (issued s <= issued s')%nat.
Proof.
  unfold resolve_lane_assets, assets_resolved. destruct (dep_explicit_lane_assets config) as [|a l].
  - intros (found & s1 & E1 & E2)%proc_bind_ok. injection E2 as <- <-.
    pose proof (advancing_discover _ _ _ _ _ _ _ E1). split; [|done]. right. split; [done|]. by exists found, s, s1.
  - intros [= <- <-]. split; [|done]. by left.
Qed.

(** ** A whole snapshot *)

(** The node's block at a tag. *)
Definition block_seen (tag : string) (cursor : ChainCursor) (s s' : Session) : Prop :=
  exists value, answers (sp_rpc self) (EthGetBlockByNumber tag false) value s s'
    /\ normalize_block_cursor value (dep_chain_id config)
         (snapshot_commitment (sp_snapshot_tag self)) false = Ok cursor.

Record coherent (snap : BootstrapSnapshot) (hash : B256) (assets : list Address) (s s' : Session)
    : Prop := {
  coh_config : deployment_validate config = Ok tt;
  coh_chain : answers (sp_rpc self) EthChainId (dep_chain_id config) s s';
  coh_cursor : block_seen (sp_snapshot_tag self) (snapshot_cursor snap) s s';
  coh_hash : block_hash (snapshot_cursor snap) = Some hash;
  coh_height : dep_deployment_block config <= block_number (snapshot_cursor snap);
  coh_identity : snapshot_implementation snap = dep_expected_implementation config
    /\ snapshot_implementation_code_hash snap = dep_expected_implementation_code_hash config;
  coh_implementation : implementation_confirmed hash s s';
  coh_assets : assets_resolved (block_number (snapshot_cursor snap)) assets;
  coh_state : state_viewed hash assets (snapshot_state snap) s s';
  coh_router : router_viewed hash assets (snapshot_state snap) (snapshot_verified_router snap) s s';
  coh_unchanged : exists again,
    block_seen (hex_quantity (block_number (snapshot_cursor snap))) again s s'
    /\ block_hash again = Some hash
}.

Lemma implementation_weaken hash s0 s s' s1 :
  (issued s0 <= issued s)%nat -> (issued s' <= issued s1)%nat ->
  implementation_confirmed hash s s' -> implementation_confirmed hash s0 s1.
Proof.
  intros ? ? [(w & Hw & Hd) (code & Hc & Hh)]. split.
  - exists w. split; [|exact Hd]. by apply (answers_weaken _ _ _ s0 s s' s1).
  - exists code. split; [|exact Hh]. by apply (answers_weaken _ _ _ s0 s s' s1).
Qed.

Lemma state_viewed_weaken hash assets st s0 s s' s1 :
  (issued s0 <= issued s)%nat -> (issued s' <= issued s1)%nat ->
  state_viewed hash assets st s s' -> state_viewed hash assets st s0 s1.
Proof.
  intros ? ? (Hc & Hm & (r & Hr & Hcash) & Hd & Hl & Hex). split_and!; [| | |done| |done].
  - by apply (viewed_weaken _ _ _ s0 s s' s1).
  - by apply (viewed_weaken _ _ _ s0 s s' s1).
  - exists r. split; [|done]. by apply (viewed_weaken _ _ _ s0 s s' s1).
  - eapply map_Forall_impl; [exact Hl|]. intros k l Hv. by apply (lane_viewed_weaken _ _ _ s0 s s' s1).
Qed.

Lemma router_viewed_weaken hash assets st policy s0 s s' s1 :
  (issued s0 <= issued s)%nat -> (issued s' <= issued s1)%nat ->
  router_viewed hash assets st policy s s' -> router_viewed hash assets st policy s0 s1.
Proof.
  unfold router_viewed. intros ? ?. destruct (verified_router config), policy; try done.
  intros (? & Hw & ? & Hm). split_and!; [done| |done|].
  - by apply (viewed_weaken _ _ _ s0 s s' s1).
  - eapply map_Forall_impl; [exact Hm|]. intros k l Hv. by apply (partner_viewed_weaken _ _ _ _ s0 s s' s1).
Qed.

Lemma block_seen_ok tag cursor s s' :
  block_cursor u64_from_str_ok (sp_rpc self) tag (dep_chain_id config)
    (snapshot_commitment (sp_snapshot_tag self)) s = Some (Ok cursor, s') ->
  block_seen tag cursor s s' /\ (issued s <= issued s')%nat.
Proof. intros [Hi (v & Ha & Hn)]%block_cursor_ok. split; [by exists v|done]. Qed.

Lemma block_seen_weaken tag cursor s0 s s' s1 :
  (issued s0 <= issued s)%nat -> (issued s' <= issued s1)%nat ->
  block_seen tag cursor s s' -> block_seen tag cursor s0 s1.
Proof. intros ? ? (v & Ha & Hn). exists v. split; [|exact Hn]. by apply (answers_weaken _ _ _ s0 s s' s1). Qed.

Lemma snapshot_ok s snap s' :
  snapshot u64_from_str_ok self config s = Some (Ok snap, s') ->
  exists hash assets, coherent snap hash assets s s'.
Proof.
  unfold snapshot. intros ([] & s0 & [Hcfg ->]%attempt_ok & E)%proc_bind_ok.
  apply proc_bind_ok in E as (n & s1 & [Hchain Hi1]%map_perr_ok%request_ok & E).
  destruct (Z.eqb_spec n (dep_chain_id config)) as [->|]; [|discriminate E]. cbn [negb] in E.
  apply proc_bind_ok in E as (cursor & s2 & [Hcur Hi2]%map_perr_ok%block_seen_ok & E).
  apply proc_bind_ok in E as (hash & s2' & [Hhash%ok_or_ok ->]%attempt_ok & E).
  apply proc_bind_ok in E as ([] & s2' & [Hheight ->]%require_ok & E).
  apply negb_true_iff, Z.ltb_ge in Hheight.
  apply proc_bind_ok in E as ([impl code_hash] & s3 & Himpl & E).
  apply read_implementation_ok in Himpl as (-> & -> & Himpl & Hi3).
  apply proc_bind_ok in E as (assets & s4 & [Hassets Hi4]%resolve_lane_assets_ok & E).
  apply proc_bind_ok in E as (st & s5 & [Hst Hi5]%read_state_ok & E).
  apply proc_bind_ok in E as (policy & s6 & [Hrouter Hi6]%read_verified_router_ok & E).
  apply proc_bind_ok in E as (again & s7 & [Hagain Hi7]%map_perr_ok%block_seen_ok & E).
  apply proc_bind_ok in E as ([] & s8 & [Hsame%bool_decide_eq_true ->]%require_ok & E).
  injection E as <- <-. exists hash, assets. split; cbn; try done.
  - apply (answers_weaken _ _ _ s s s1 s7); [lia|lia|exact Hchain].
  - apply (block_seen_weaken _ _ s s1 s2 s7); [lia|lia|exact Hcur].
  - apply (implementation_weaken _ s s2 s3 s7); [lia|lia|exact Himpl].
  - apply (state_viewed_weaken _ _ _ s s4 s5 s7); [lia|lia|exact Hst].
  - apply (router_viewed_weaken _ _ _ _ s s5 s6 s7); [lia|lia|exact Hrouter].
  - exists again. split; [|exact Hsame]. apply (block_seen_weaken _ _ s s6 s7 s7); [lia|lia|exact Hagain].
Qed.

(** ** Totality *)

Lemma returns_read {R} (call : CoreCall R) hash : returns (read self (dep_core config) call hash).
Proof. runs. Qed.

Lemma returns_try_collect {A B} (f : A -> proc Session SourceError B) xs :
  (forall x, returns (f x)) -> returns (try_collect f xs).
Proof. intros Hf. induction xs as [|x xs IH]; cbn [try_collect]; runs; (apply Hf || apply IH). Qed.

Lemma returns_state hash assets : returns (read_state self config hash assets).
Proof.
  unfold read_state. apply returns_bind; [apply returns_read|intros a].
  apply returns_bind; [apply returns_read|intros m].
  apply returns_bind; [apply returns_try_collect; intros x; runs|intros ls].
  apply returns_bind; [unfold require; runs|intros []]. apply returns_bind; [apply returns_read|runs].
Qed.

Lemma returns_router hash assets a : returns (read_verified_router self config hash assets a).
Proof.
  unfold read_verified_router. destruct (verified_router config) as [r|]; [|runs].
  apply returns_bind; [apply returns_read|intros w]. case_match; [apply returns_stop|].
  apply returns_bind; [|runs]. apply returns_try_collect. intros x. runs.
Qed.

Lemma returns_assets last :
  limits_ok (sp_rpc self) -> uint 64 (dep_deployment_block config) -> uint 64 last ->
  dep_deployment_block config <= last -> returns (resolve_lane_assets self config last).
Proof.
  intros Hl [Hd _] [_ Hlast] Hle. unfold resolve_lane_assets. destruct (dep_explicit_lane_assets config); [|runs].
  apply returns_bind; [|runs]. intros s.
  destruct (discover_pages_spec (S (Z.to_nat (last - dep_deployment_block config))) last
    (dep_deployment_block config) ∅ s Hl) as (r & s' & -> & _); [lia..|by eexists].
Qed.

Lemma snapshot_returns `{!JsonLaws} :
  limits_ok (sp_rpc self) -> uint 64 (dep_deployment_block config) ->
  returns (snapshot u64_from_str_ok self config).
Proof.
  intros Hl Hd. unfold snapshot. apply returns_bind; [runs|intros []].
  apply returns_bind; [runs|intros n]. destruct (_ =? _); [|runs]. cbn [negb].
  apply returns_bind_ok; [runs|]. intros s cursor s' Hcur%map_perr_ok%block_seen_ok.
  assert (uint 64 (block_number cursor)) as Hn.
  { destruct Hcur as [(v & _ & Hv) _]. unfold normalize_block_cursor in Hv.
    destruct (normalize_block_ref _ _ _ _) as [b|] eqn:E; [|done]. injection Hv as <-.
    by apply normalize_block_ref_ok in E as (_ & _ & _ & _ & ?). }
  apply returns_bind; [runs|intros hash].
  apply returns_bind_ok; [unfold require; runs|]. intros s1 [] s2 [Hh _]%require_ok.
  apply negb_true_iff, Z.ltb_ge in Hh.
  apply returns_bind; [unfold read_implementation, require; runs|intros [impl code]].
  apply returns_bind; [by apply returns_assets|intros assets].
  apply returns_bind; [apply returns_state|intros st].
  apply returns_bind; [apply returns_router|intros policy]. unfold require. runs.
Qed.

(** ** Bootstrapping from a snapshot *)

Lemma coherent_router_policy snap hash assets s s' :
  coherent snap hash assets s s' ->
  Z.of_nat (size (lanes (snapshot_state snap))) < 2 ^ 64 - 1 ->
  validate_verified_router_snapshot snap config = Ok tt.
Proof.
  intros Hc Hsize. pose proof (coh_router _ _ _ _ _ Hc) as Hr.
  pose proof (coh_state _ _ _ _ _ Hc) as (_ & _ & _ & Hdom & _).
  unfold validate_verified_router_snapshot, router_viewed in *.
  destruct (verified_router config) as [r|], (snapshot_verified_router snap) as [v|]; try done.
  destruct Hr as (-> & _ & Hd & Hm). rewrite Z.eqb_refl. cbn [andb]. rewrite <-Hdom in Hd.
  assert (Z.of_nat (size (partner_fee_bps v))
            <=? uint_saturating_add USIZE (Z.of_nat (size (lanes (snapshot_state snap)))) 1 = true) as ->.
  { apply Z.leb_le. unfold uint_saturating_add, uint_max.
    rewrite <-(size_dom (partner_fee_bps v)), Hd.
    pose proof (size_union_alt (dom (lanes (snapshot_state snap))) {[ cash (snapshot_state snap) ]}) as Hs.
    rewrite <-(size_dom (lanes _)).
    assert (size ({[ cash (snapshot_state snap) ]} ∖ dom (lanes (snapshot_state snap)) : gset Address) <= 1)%nat.
    { rewrite <-(size_singleton (C := gset Address) (cash (snapshot_state snap))). apply subseteq_size. set_solver. }
    rewrite <-size_dom in Hsize. lia. }
  cbn [andb].
  assert (forallb (fun '(asset, fee) =>
    ((asset =? cash (snapshot_state snap)) || is_some (lanes (snapshot_state snap) !! asset)) && (fee <=? BPS))
    (map_to_list (partner_fee_bps v)) = true) as ->; [|done].
  apply forallb_forall. intros [a f] Hin%list_elem_of_In%elem_of_map_to_list.
  pose proof (Hm _ _ Hin) as [Hle _]. apply Z.leb_le in Hle. rewrite Hle, andb_true_r.
  assert (a ∈ dom (partner_fee_bps v)) as Ha by (apply elem_of_dom; by eexists).
  rewrite Hd in Ha. apply elem_of_union in Ha as [[l Hl]%elem_of_dom|Ha%elem_of_singleton].
  - rewrite Hl. apply orb_true_r.
  - by rewrite Ha, Z.eqb_refl.
Qed.

Lemma coherent_cursor `{!JsonLaws} snap hash assets s s' :
  coherent snap hash assets s s' ->
  chain_id (snapshot_cursor snap) = dep_chain_id config
  /\ commitment (snapshot_cursor snap) = snapshot_commitment (sp_snapshot_tag self)
  /\ transaction_index (snapshot_cursor snap) = None /\ log_index (snapshot_cursor snap) = None.
Proof.
  intros Hc. destruct (coh_cursor _ _ _ _ _ Hc) as (v & _ & Hv). unfold normalize_block_cursor in Hv.
  destruct (normalize_block_ref _ _ _ _) as [b|] eqn:E; [|done]. injection Hv as <-.
  apply normalize_block_ref_ok in E. tauto.
Qed.

End Facts.

(** A snapshot with the identity of a deployment and an acceptable router policy is
    installed by a fresh engine of that deployment. *)
Lemma fresh_bootstrap `{MemLayout, ReducerLayout, Keccak, Alloy} snap st config hash :
  chain_id (snapshot_cursor snap) = dep_chain_id config ->
  block_hash (snapshot_cursor snap) = Some hash ->
  snapshot_implementation snap = dep_expected_implementation config ->
  snapshot_implementation_code_hash snap = dep_expected_implementation_code_hash config ->
  validate_verified_router_snapshot snap config = Ok tt ->
  exists ix, bootstrap snap (indexer_new st config) = (Ok tt, ix)
    /\ deployment ix = config
    /\ canonical_floor ix = Some (snapshot_cursor snap)
    /\ prepare_snapshot ix = Ok {|
         prepared_state := snapshot_state snap; prepared_cursor := snapshot_cursor snap;
         prepared_implementation_code_hash := dep_expected_implementation_code_hash config;
         prepared_fee_class := dep_fee_class config;
         prepared_verified_router := snapshot_verified_router snap |}.
Proof.
  intros Hc Hh Hi Hcode Hr.
  assert (forall ix, finalized_floor ix = None ->
    validate_finalized_update ix (snapshot_cursor snap) = Ok tt) as Hfin.
  { intros ix Hf. unfold validate_finalized_update, require_hash. rewrite Hh, Hf. by destruct (negb _). }
  unfold bootstrap, bootstrap_normalized, bootstrap_normalized_ordered.
  unfold mbind, method_bind, get, lift, fail. cbn [deployment indexer_new].
  rewrite Hc, Z.eqb_refl. cbn [negb]. unfold validate_finalized_recovery.
  cbn [finalized_floor indexer_new]. rewrite Hfin by done. rewrite Hi, Hcode, !Z.eqb_refl. cbn [negb orb].
  rewrite Hr. unfold install_snapshot, mbind, method_bind, get, lift, modify, record_finalized_update.
  cbn [set_reducer]. unfold mbind, method_bind, get, lift, modify. rewrite Hfin by done.
  cbn [negb orb]. destruct (_ || _); cbn; eexists; (split; [reflexivity|done]).
Qed.

(** ** What discovery computes *)

Section Discovery.
Context `{Keccak, Alloy}.

Definition adds (asset : Address) (log : ContractLog) : Prop :=
  decode_core_event log = Ok (Some (LaneAdded asset)).
Definition removes (asset : Address) (log : ContractLog) : Prop :=
  decode_core_event log = Ok (Some (LaneRemoved asset)).

(** The asset is added in the history and not removed afterwards. *)
Definition stays_added (asset : Address) (logs : list ContractLog) : Prop :=
  exists earlier log later, logs = earlier ++ log :: later /\ adds asset log
    /\ Forall (fun log => ~ removes asset log) later.

Lemma discover_step d log d' asset :
  discover d log = Ok d' -> (asset ∈ d' <-> adds asset log \/ asset ∈ d /\ ~ removes asset log).
Proof.
  unfold discover, adds, removes. intros (event & E%map_err_ok & [= <-])%bind_ok. rewrite E.
  destruct event as [[]|]; try (split; [naive_solver|intros [|]; naive_solver]).
  - rewrite elem_of_union, elem_of_singleton. naive_solver.
  - rewrite elem_of_difference, elem_of_singleton. naive_solver.
Qed.

Lemma discover_iff d logs out asset :
  try_fold discover d logs = Ok out ->
  asset ∈ out <-> stays_added asset logs \/ asset ∈ d /\ Forall (fun log => ~ removes asset log) logs.
Proof.
  revert d. induction logs as [|log logs IH]; intros d; cbn [try_fold].
  - intros [= <-]. split; [by right|]. intros [([|] & ? & ? & ? & _)|[? _]]; done.
  - intros (d' & Hd & Hr)%bind_ok. rewrite (IH d' Hr), (discover_step _ _ _ asset Hd), Forall_cons.
    split.
    + intros [(l1 & x & l2 & -> & Hx & Hl)|[[Ha|[Hin Hn]] Hl]].
      * left. by exists (log :: l1), x, l2.
      * left. by exists [], log, logs.
      * by right.
    + intros [([|y l1] & x & l2 & E & Hx & Hl)|[Hin [Hn Hl]]].
      * injection E as <- <-. right. split; [by left|done].
      * injection E as <- ->. left. by exists l1, x, l2.
      * right. split; [by right|done].
Qed.

End Discovery.

(** ** Properties *)


(** C15: A loaded snapshot boots the engine: a fresh engine of the same deployment
    accepts every snapshot the loader returns, takes its block as the canonical
    floor, becomes ready, and prepares its quotes from exactly the loaded state,
    cursor and router policy. *)
Theorem snapshot_boots `{Json, Http, MemLayout, ReducerLayout, Keccak, Alloy, SolCalls, !JsonLaws,
    !Deserialize Z, !Deserialize StorageWord, !Deserialize (list Z), !Deserialize Value,
    !Deserialize (list Value)} u64_from_str_ok self config s snap s' st :
  snapshot u64_from_str_ok self config s = Some (Ok snap, s') ->
  Z.of_nat (size (lanes (snapshot_state snap))) < 2 ^ 64 - 1 ->
  exists ix, bootstrap snap (indexer_new st config) = (Ok tt, ix)
    /\ deployment ix = config
    /\ canonical_floor ix = Some (snapshot_cursor snap)
    /\ prepare_snapshot ix = Ok {|
         prepared_state := snapshot_state snap; prepared_cursor := snapshot_cursor snap;
         prepared_implementation_code_hash := dep_expected_implementation_code_hash config;
         prepared_fee_class := dep_fee_class config;
         prepared_verified_router := snapshot_verified_router snap |}.
Proof.
  intros E Hsize. apply (snapshot_ok u64_from_str_ok) in E as (hash & assets & Hc).
  apply (fresh_bootstrap snap st config hash).
  - by apply (coherent_cursor self config) in Hc as (? & _).
  - by apply (coh_hash _ _ _ _ _ _ _ Hc).
  - by apply (coh_identity _ _ _ _ _ _ _ Hc).
  - by apply (coh_identity _ _ _ _ _ _ _ Hc).
  - by apply (coherent_router_policy self config snap hash assets s s').
Qed.

(** C23: Lane discovery is complete: against a node that answers log pages with the
    chain's history, the assets of a deployment without explicit lanes are, in
    ascending order and without duplicates, exactly those with a [LaneAdded] between
    the deployment block and the pinned block that no later [LaneRemoved] revokes. *)
Theorem discovery_exact `{Json, Http, MemLayout, Keccak, Alloy, !Deserialize (list Value)}
    self config history last s assets s' :
  limits_ok (sp_rpc self) -> 0 <= dep_deployment_block config <= last -> last < 2 ^ 64 ->
  dep_explicit_lane_assets config = [] -> in_order history ->
  (forall from to,
     honest (sp_rpc self) (discovery_request config from to) (dep_chain_id config) Canonical history) ->
  resolve_lane_assets self config last s = Some (Ok assets, s') ->
  Sorted Z.lt assets
  /\ forall asset, asset ∈ assets <->
       stays_added asset (logs_in (dep_deployment_block config, last) history).
Proof.
  intros Hl Hd Hlast Hex Ho Hh. unfold resolve_lane_assets. rewrite Hex.
  intros (active & s1 & E & E2)%proc_bind_ok. injection E2 as <- <-.
  apply (discover_pages_exact self config history) in E; [|done..].
  split; [apply ascending_sorted|]. intros asset.
  rewrite <-(elem_of_list_to_set (C := gset Address)), ascending_elements, (discover_iff _ _ _ _ E).
  split; [by intros [|[[]%elem_of_empty _]]|by left].
Qed.

(** ** A node for the checks on sample data *)

Section Sample.
#[local] Existing Instances sample_layout large_layout sample_keccak sample_alloy.
#[local] Existing Instances sample_json sample_json_laws sample_chain_answer sample_word_answer.
#[local] Existing Instances sample_code_answer sample_head_answer.

(** Core's answers: cash 200, one lane per asset, a router share of five basis points. *)
#[local] Instance sample_calls : SolCalls := {|
  abi_encode R call :=
    match call with
    | cashCall => [1]
    | laneCall asset => [2; asset]
    | reservesCall asset => [3; asset]
    | whitelistCall account => [4; account]
    | blacklistFeeMultiplierCall => [5]
    | partnersCall router asset => [6; router; asset]
    end;
  abi_decode_returns R call bytes :=
    match call in CoreCall R return result string R with
    | cashCall => Ok 200
    | laneCall asset => Ok (set_lane_slot0_exists 0 true)
    | reservesCall asset => Ok {| assetReserve := asset; treasuryFees := 0; partnerFees := 0;
                                  escrowedAssets := 0; totalPrincipalAmount := 10 * asset |}
    | whitelistCall _ => Ok false
    | blacklistFeeMultiplierCall => Ok 3
    | partnersCall _ _ => Ok {| cumFees := 0; fee := 5; latestWithdrawTimestamp := 0; operator := 1 |}
    end
|}.

(** Log requests carry their range, the others only their id. *)
#[local] Instance sample_node : Http := RpcFacts.sample_http.

(** Two lanes are added, one is removed again. *)
Definition sample_lane_log (block index asset : Z) (added : bool) : RpcLog :=
  {| rl_address := 7; rl_transaction_hash := Some 1;
     rl_topics := emitted_topics (if added then core.LaneAdded else core.LaneRemoved) [asset];
     rl_topics_capacity := 2; rl_data := []; rl_block_number := Some block;
     rl_block_hash := Some (100 + block); rl_transaction_index := Some 0;
     rl_log_index := Some index; rl_removed := false |}.

Definition sample_lane_logs : list RpcLog :=
  [sample_lane_log 2 0 300 true; sample_lane_log 2 1 301 true; sample_lane_log 4 0 300 false].

Definition sample_lane_history : list ContractLog :=
  omap (fun log => result_ok (normalize_rpc_log log 9 Canonical)) sample_lane_logs.

#[local] Instance sample_lanes_answer : Deserialize (list Value) := fun body =>
  match body with
  | [_; from; to] =>
      Ok {| sr_jsonrpc := "2.0"; sr_id := SampleText "id"; sr_error := None;
            sr_result := Some (SampleLog <$> base.filter (fun log =>
              from <= default 0 (rl_block_number log) <= to) sample_lane_logs) |}
  | _ => Err "not a log request"
  end.

Definition sample_provider : RpcSnapshotProvider :=
  {| sp_rpc := sample_client; sp_snapshot_tag := "finalized" |}.

Definition sample_config : DeploymentConfig :=
  {| dep_network := Base; dep_chain_id := 9; dep_core := 7; dep_fee_class := NonWhitelisted;
     verified_router := Some 400; dep_deployment_block := 1; dep_expected_implementation := 77;
     dep_expected_implementation_code_hash := keccak256 [96; 128];
     contract_compatibility_version := MATH_COMPATIBILITY_VERSION;
     dep_explicit_lane_assets := [] |}.

Lemma sample_lanes_in_order : in_order sample_lane_history.
Proof. repeat (constructor; [|repeat constructor; right; vm_compute; reflexivity]). constructor. Qed.

Lemma sample_lanes_parse from to :
  Forall2 (fun value log =>
      parse_filtered_rpc_log value 9 Canonical (filter (discovery_request sample_config 1 5)) = Ok log)
    (SampleLog <$> base.filter (fun log => from <= default 0 (rl_block_number log) <= to) sample_lane_logs)
    (logs_in (from, to) sample_lane_history).
Proof.
  assert (Forall2 (fun raw log => default 0 (rl_block_number raw) = block_number (log_cursor log)
    /\ parse_filtered_rpc_log (SampleLog raw) 9 Canonical (filter (discovery_request sample_config 1 5)) = Ok log)
    sample_lane_logs sample_lane_history) as HF.
  { repeat (apply Forall2_cons_2; [split; vm_compute; reflexivity|]). apply Forall2_nil_2. }
  induction HF as [|raw log raws logs [Hb Hp] _ IH]; [constructor|].
  unfold logs_in in *. rewrite !filter_cons. cbn [fst snd]. rewrite Hb.
  case_decide; [|done]. rewrite fmap_cons. by constructor.
Qed.

Lemma sample_lanes_honest from to :
  honest sample_client (discovery_request sample_config from to) 9 Canonical sample_lane_history.
Proof.
  intros [a b] s1 values s2 (Hab & _ & Ha & Hb) _ _. cbn [fst snd] in *.
  unfold request, log_request. cbn [to_vec sample_node RpcFacts.sample_http].
  unfold backfill_filter. cbn [lf_from_block lf_to_block from_block to_block fst snd].
  rewrite !hex_quantity_roundtrip by (unfold uint; lia). cbn [map_err].
  intros E. injection E as <- _. apply sample_lanes_parse.
Qed.

Lemma sample_loads :
  exists snap s', snapshot (fun _ => true) sample_provider sample_config sample_session = Some (Ok snap, s')
    /\ list_to_set [301] = dom (lanes (snapshot_state snap)).
Proof. eexists _, _. split; vm_compute; reflexivity. Qed.


Lemma snapshot_boots_witness :
  exists snap s' ix, snapshot (fun _ => true) sample_provider sample_config sample_session = Some (Ok snap, s')
    /\ bootstrap snap (indexer_new QuoteState_default sample_config) = (Ok tt, ix).
Proof.
  destruct sample_loads as (snap & s' & E & Hd). exists snap, s'.
  destruct (snapshot_boots (fun _ => true) sample_provider sample_config sample_session snap s'
    QuoteState_default E) as (ix & Hb & _).
  - rewrite <-size_dom, <-Hd. vm_compute. reflexivity.
  - exists ix. split; [exact E|exact Hb].
Defined.

Lemma discovery_exact_witness :
  exists assets s', resolve_lane_assets sample_provider sample_config 5 sample_session = Some (Ok assets, s')
    /\ Sorted Z.lt assets.
Proof.
  eexists _, _. split; [vm_compute; reflexivity|].
  refine (proj1 (discovery_exact sample_provider sample_config sample_lane_history 5 sample_session _ _
    sample_limits_ok _ _ eq_refl sample_lanes_in_order (fun from to => sample_lanes_honest from to) _)).
  - vm_compute. split; discriminate.
  - vm_compute. reflexivity.
  - vm_compute. reflexivity.
Defined.
End Sample.
