(* ===== verification/Generator.v ===== *)
(** * Stream generators

    The [async_stream::stream!] blocks the sources return: a loop that waits for
    one occurrence per round, may await procedures, yields any number of items and
    ends the round, the stream, or the task. *)

From S2P Require Import Prelude.

(** How a stretch of generator code ends: it falls through with a value, starts
    the next round ([continue]), ends the stream ([break] out of the loop,
    [return]), or panics. *)
Inductive flow (A : Type) :=
| Through (a : A)
| NextRound
| Ended
| Panicked.
Arguments Through {A}. Arguments NextRound {A}. Arguments Ended {A}. Arguments Panicked {A}.

(** Generator code on a state [S] that yields items of type [Y]; [None] is an
    awaited procedure that ran out of fuel. *)
Definition gen (S Y A : Type) : Type := S -> option (list Y * flow A * S).

#[export] Instance gen_ret S Y : MRet (gen S Y) := fun A a s => Some ([], Through a, s).
#[export] Instance gen_bind S Y : MBind (gen S Y) := fun A B f m s =>
  match m s with
  | Some (ys, Through a, s') =>
      match f a s' with
      | Some (zs, r, s'') => Some (ys ++ zs, r, s'')
      | None => None
      end
  | Some (ys, NextRound, s') => Some (ys, NextRound, s')
  | Some (ys, Ended, s') => Some (ys, Ended, s')
  | Some (ys, Panicked, s') => Some (ys, Panicked, s')
  | None => None
  end.

Definition emit {S Y} (ys : list Y) : gen S Y unit := fun s => Some (ys, Through tt, s).
Definition next_round {S Y A} : gen S Y A := fun s => Some ([], NextRound, s).
Definition end_stream {S Y A} : gen S Y A := fun s => Some ([], Ended, s).
Definition panic {S Y A} : gen S Y A := fun s => Some ([], Panicked, s).
Definition inspect {S Y} : gen S Y S := fun s => Some ([], Through s, s).
Definition update {S Y} (f : S -> S) : gen S Y unit := fun s => Some ([], Through tt, f s).

(** A procedure on one part of the state, its result inspected by the code. *)
Definition await_on {S T Y E A} (part : S -> T) (set : T -> S -> S) (m : proc T E A)
    : gen S Y (result E A) := fun s =>
  '(r, t) ← m (part s); Some ([], Through r, set t s).

(** How the stream stands after some rounds. *)
Inductive standing := Running | Closed | Aborted.

#[export] Instance standing_eq_dec : EqDecision standing.
Proof. solve_decision. Defined.

(** The loop, driven by what happens in each round. *)
Fixpoint generate {I S Y} (round : I -> gen S Y unit) (inputs : list I) (s : S)
    : option (list Y * standing * S) :=
  match inputs with
  | [] => Some ([], Running, s)
  | i :: inputs =>
      match round i s with
      | Some (ys, Through _, s') | Some (ys, NextRound, s') =>
          '(zs, how, s'') ← generate round inputs s'; Some (ys ++ zs, how, s'')
      | Some (ys, Ended, s') => Some (ys, Closed, s')
      | Some (ys, Panicked, s') => Some (ys, Aborted, s')
      | None => None
      end
  end.

(** ** Invariants of generators

    [gen_spec P m Q]: from a state satisfying [P] the code runs to an outcome
    [Q]: the items yielded, how it ended, and the state left. *)

Definition gen_spec {S Y A} (m : gen S Y A) (s : S) (Q : list Y -> flow A -> S -> Prop) : Prop :=
  exists ys r s', m s = Some (ys, r, s') /\ Q ys r s'.

Section Specs.
Context {S Y : Type}.

Lemma spec_ret {A} (a : A) (s : S) (Q : list Y -> flow A -> S -> Prop) :
  Q [] (Through a) s -> gen_spec (mret a) s Q.
Proof. by exists [], (Through a), s. Qed.

Lemma spec_bind {A B} (m : gen S Y A) (f : A -> gen S Y B) s Q :
  gen_spec m s (fun ys r s' =>
    match r with
    | Through a => gen_spec (f a) s' (fun zs => Q (ys ++ zs))
    | NextRound => Q ys NextRound s'
    | Ended => Q ys Ended s'
    | Panicked => Q ys Panicked s'
    end) ->
  gen_spec (m ≫= f) s Q.
Proof.
  intros (ys & r & s' & E & HQ). unfold gen_spec, mbind, gen_bind. rewrite E.
  destruct r as [a| | |]; [|by eexists _, _, _..].
  destruct HQ as (zs & r & s'' & E' & HQ). rewrite E'. by eexists _, _, _.
Qed.

Lemma spec_emit ys (s : S) (Q : list Y -> flow unit -> S -> Prop) :
  Q ys (Through tt) s -> gen_spec (emit ys) s Q.
Proof. by eexists _, _, _. Qed.

Lemma spec_next_round {A} (s : S) (Q : list Y -> flow A -> S -> Prop) :
  Q [] NextRound s -> gen_spec next_round s Q.
Proof. by eexists _, _, _. Qed.

Lemma spec_end_stream {A} (s : S) (Q : list Y -> flow A -> S -> Prop) :
  Q [] Ended s -> gen_spec end_stream s Q.
Proof. by eexists _, _, _. Qed.

Lemma spec_inspect (s : S) (Q : list Y -> flow S -> S -> Prop) :
  Q [] (Through s) s -> gen_spec inspect s Q.
Proof. by eexists _, _, _. Qed.

Lemma spec_update f (s : S) (Q : list Y -> flow unit -> S -> Prop) :
  Q [] (Through tt) (f s) -> gen_spec (update f) s Q.
Proof. by eexists _, _, _. Qed.

Lemma spec_await {T F A} (part : S -> T) set (m : proc T F A) s Q :
  returns m ->
  (forall r t, m (part s) = Some (r, t) -> Q [] (Through r) (set t s)) ->
  gen_spec (Y := Y) (await_on part set m) s Q.
Proof.
  intros Hm HQ. destruct (Hm (part s)) as [[r t] Hr]. unfold gen_spec, await_on. rewrite Hr.
  eexists _, _, _. split; [reflexivity|]. by apply HQ.
Qed.

Lemma spec_weaken {A} (m : gen S Y A) s (P Q : list Y -> flow A -> S -> Prop) :
  gen_spec m s P -> (forall ys r s', P ys r s' -> Q ys r s') -> gen_spec m s Q.
Proof. intros (ys & r & s' & E & HP) H. exists ys, r, s'. auto. Qed.

(** A relation between the state, what was yielded since the start, and nothing
    else, kept by every round, holds of the whole stream. [Done] is what is known
    when the stream has ended. *)
Lemma generate_invariant {I} (round : I -> gen S Y unit) (Inv Done : list Y -> S -> Prop) :
  (forall i out s, Inv out s -> gen_spec (round i) s (fun ys r s' =>
     match r with
     | Through _ | NextRound => Inv (out ++ ys) s'
     | Ended => Done (out ++ ys) s'
     | Panicked => False
     end)) ->
  forall inputs out s, Inv out s ->
  exists ys how s', generate round inputs s = Some (ys, how, s')
    /\ match how with
       | Running => Inv (out ++ ys) s'
       | Closed => Done (out ++ ys) s'
       | Aborted => False
       end.
Proof.
  intros Hround inputs. induction inputs as [|i inputs IH]; intros out s HI.
  { exists [], Running, s. by rewrite app_nil_r. }
  destruct (Hround i out s HI) as (ys & r & s' & E & HQ). cbn [generate]. rewrite E.
  destruct r as [a| | |].
  - destruct (IH _ _ HQ) as (zs & how & s'' & -> & Hhow). cbn. eexists _, _, _.
    split; [done|]. by rewrite app_assoc.
  - destruct (IH _ _ HQ) as (zs & how & s'' & -> & Hhow). cbn. eexists _, _, _.
    split; [done|]. by rewrite app_assoc.
  - by eexists _, Closed, _.
  - done.
Qed.

End Specs.

(** One step of a specification proof. *)
Ltac gstep :=
  match goal with
  | |- gen_spec (mbind _ _) _ _ => apply spec_bind
  | |- gen_spec (emit _) _ _ => apply spec_emit
  | |- gen_spec next_round _ _ => apply spec_next_round
  | |- gen_spec end_stream _ _ => apply spec_end_stream
  | |- gen_spec inspect _ _ => apply spec_inspect
  | |- gen_spec (update _) _ _ => apply spec_update
  | |- gen_spec (mret _) _ _ => apply spec_ret
  end; cbv beta iota.
