(* ===== verification/Ws.v ===== *)
(** * The EVM WebSocket source (crates/lunarbase-source-evm/src/ws.rs,
    ws/config.rs, ws/protocol.rs, ws/ordering.rs, ws/connection.rs)

    Delivery modes, the subscription handshake, head continuity, the ordering of
    standard logs and the finalized catch-up, and the update stream as a generator
    driven by what the socket and the clock do. The socket, the clock and the JSON
    decoder are parameters; an [Instant] is a number of nanoseconds. *)

From S2P Require Import Prelude StableSort Text Arithmetic Slot0 State Model Ordering Abi Rpc.
From S2P Require Import Reducer Snapshot Generator.

(** ** Delivery modes and limits (ws/config.rs) *)

Inductive EvmDeliveryMode := RealtimeDelivery | BlockOrdered | FinalizedDelivery.

#[export] Instance EvmDeliveryMode_eq_dec : EqDecision EvmDeliveryMode.
Proof. solve_decision. Defined.

Definition mode_snapshot_tag (m : EvmDeliveryMode) : string :=
  match m with
  | FinalizedDelivery => "finalized"
  | RealtimeDelivery | BlockOrdered => "latest"
  end.

Definition mode_commitment (m : EvmDeliveryMode) : Commitment :=
  match m with
  | RealtimeDelivery => Realtime
  | BlockOrdered => Canonical
  | FinalizedDelivery => Finalized
  end.

Record WsRpcConfig := {
  max_frame_bytes : Z;
  max_prefetch_bytes : Z;
  reorder_capacity : Z;
  reorder_byte_capacity : Z;
  logs_kind : string;
  progressive_heads : bool;
  delivery_mode : EvmDeliveryMode;
  backfill_page_blocks : Z
}.

Definition WsRpcConfig_default : WsRpcConfig :=
  {| max_frame_bytes := 256 * 1024;
     max_prefetch_bytes := 16 * 1024 * 1024;
     reorder_capacity := 4096;
     reorder_byte_capacity := 64 * 1024 * 1024;
     logs_kind := "logs";
     progressive_heads := false;
     delivery_mode := BlockOrdered;
     backfill_page_blocks := 1000 |}.

Definition set_delivery_mode (m : EvmDeliveryMode) (c : WsRpcConfig) : WsRpcConfig :=
  {| max_frame_bytes := max_frame_bytes c; max_prefetch_bytes := max_prefetch_bytes c;
     reorder_capacity := reorder_capacity c; reorder_byte_capacity := reorder_byte_capacity c;
     logs_kind := logs_kind c; progressive_heads := progressive_heads c;
     delivery_mode := m; backfill_page_blocks := backfill_page_blocks c |}.

Definition config_base_flashblocks : WsRpcConfig :=
  let c := WsRpcConfig_default in
  {| max_frame_bytes := max_frame_bytes c; max_prefetch_bytes := max_prefetch_bytes c;
     reorder_capacity := reorder_capacity c; reorder_byte_capacity := reorder_byte_capacity c;
     logs_kind := "pendingLogs"; progressive_heads := true;
     delivery_mode := RealtimeDelivery; backfill_page_blocks := backfill_page_blocks c |}.

Definition config_validate (c : WsRpcConfig) : result SourceError unit :=
  if (max_frame_bytes c =? 0) || (max_prefetch_bytes c =? 0) || (reorder_capacity c =? 0)
     || (reorder_byte_capacity c =? 0) || (backfill_page_blocks c =? 0)
     || negb (String.eqb (logs_kind c) "logs" || String.eqb (logs_kind c) "pendingLogs")
  then Err (SourceUnavailable "WS frame, prefetch, reorder, and backfill bounds must be non-zero")
  else Ok tt.

Definition holds_standard_logs_until_successor (c : WsRpcConfig) : bool :=
  bool_decide (delivery_mode c = BlockOrdered) && String.eqb (logs_kind c) "logs".

Record EvmRpcSource := {
  http : RpcHttpBackend;
  ws_endpoint : string;
  config : WsRpcConfig
}.

Definition source_with_config (rpc : RpcHttpClient) (endpoint : string) (network : Network)
    (chain : Z) (tag : string) (c : WsRpcConfig) : EvmRpcSource :=
  {| http := {| backend_rpc := rpc; backend_network := network; backend_chain_id := chain;
                snapshot_tag := tag |};
     ws_endpoint := endpoint; config := c |}.

Definition source_new (rpc : RpcHttpClient) (endpoint : string) (network : Network) (chain : Z)
    (tag : string) : EvmRpcSource :=
  source_with_config rpc endpoint network chain tag
    (if String.eqb tag "finalized" then set_delivery_mode FinalizedDelivery WsRpcConfig_default
     else WsRpcConfig_default).

Definition source_with_delivery_mode (rpc : RpcHttpClient) (endpoint : string) (network : Network)
    (chain : Z) (m : EvmDeliveryMode) : EvmRpcSource :=
  source_with_config rpc endpoint network chain (mode_snapshot_tag m)
    (set_delivery_mode m WsRpcConfig_default).

Definition source_base_flashblocks (rpc : RpcHttpClient) (endpoint : string) (chain : Z)
    : EvmRpcSource :=
  source_with_config rpc endpoint Base chain "latest" config_base_flashblocks.

Definition with_backfill_page_blocks (blocks : Z) (self : EvmRpcSource) : EvmRpcSource :=
  let c := config self in
  {| http := http self; ws_endpoint := ws_endpoint self;
     config :=
       {| max_frame_bytes := max_frame_bytes c; max_prefetch_bytes := max_prefetch_bytes c;
          reorder_capacity := reorder_capacity c; reorder_byte_capacity := reorder_byte_capacity c;
          logs_kind := logs_kind c; progressive_heads := progressive_heads c;
          delivery_mode := delivery_mode c; backfill_page_blocks := blocks |} |}.

Definition validate_config (self : EvmRpcSource) : result SourceError unit :=
  _ ← config_validate (config self);
  let finalized_tag := String.eqb (snapshot_tag (http self)) "finalized" in
  if negb (Bool.eqb (bool_decide (delivery_mode (config self) = FinalizedDelivery)) finalized_tag)
  then Err (SourceUnavailable "EVM delivery mode and HTTP snapshot tag disagree")
  else Ok tt.

(** ** Heads (ws/protocol.rs) *)

Abbreviation WsHead := BlockRef (only parsing).

(** The value [subscription_request] serializes; [topics] is absent when empty. *)
Record SubscriptionRequest := {
  sub_id : Z;
  sub_kind : string;
  sub_address : string;
  sub_topics : option (list (list string))
}.

Definition subscription_request (id : Z) (f : ContractFilter) (kind : string) : SubscriptionRequest :=
  {| sub_id := id; sub_kind := kind; sub_address := hex_bytes 20 (filter_address f);
     sub_topics := match filter_topics f with
                   | [] => None
                   | topics => Some [hex_bytes 32 <$> topics]
                   end |}.

Definition parse_ws_head_with_execution_context `{Json} (value : Value) (chain : Z)
    (require_execution_context : bool) : result RpcError WsHead :=
  _ ← (if require_execution_context then
         _ ← validate_canonical_hex_u64 (value_get "number" value) "head.number";
         _ ← validate_canonical_hex_u64 (value_get "l1BlockNumber" value) "head.l1BlockNumber";
         Ok tt
       else Ok tt);
  head ← parse_rpc_head value;
  Ok {| br_cursor :=
          {| chain_id := chain; block_number := head_number head;
             execution_block_number := default (head_number head) (head_l1_block_number head);
             block_hash := head_hash head; transaction_index := None; log_index := None;
             source_sequence := None; source_sub_index := None; commitment := Realtime |};
        br_parent_hash := head_parent_hash head |}.

Definition same_head (previous next : WsHead) : bool :=
  (block_number (br_cursor next) =? block_number (br_cursor previous))
  && (execution_block_number (br_cursor next) =? execution_block_number (br_cursor previous))
  && bool_decide (block_hash (br_cursor next) = block_hash (br_cursor previous))
  && bool_decide (br_parent_hash next = br_parent_hash previous).

Definition head_discontinuity (previous next : WsHead) (progressive : bool) : bool :=
  if same_head previous next then false
  else
    let same_height := block_number (br_cursor next) =? block_number (br_cursor previous) in
    let same_height_discontinuity :=
      same_height
      && (negb progressive
          || (is_some (br_parent_hash next) && is_some (br_parent_hash previous)
              && negb (bool_decide (br_parent_hash next = br_parent_hash previous)))) in
    (block_number (br_cursor next) <? block_number (br_cursor previous))
    || same_height_discontinuity
    || ((block_number (br_cursor next)
           =? uint_saturating_add 64 (block_number (br_cursor previous)) 1)
        && is_some (br_parent_hash next)
        && is_some (block_hash (br_cursor previous))
        && negb (bool_decide (br_parent_hash next = block_hash (br_cursor previous)))).

(** ** Ordering (ws/ordering.rs) *)

Abbreviation Instant := Z (only parsing).
Definition STANDARD_LOG_GRACE : Z := 2 * 1000000000.

Definition is_at_or_before_watermark (cursor : ChainCursor) (watermark : option ChainCursor) : bool :=
  match watermark with
  | Some watermark => block_number cursor <=? block_number watermark
  | None => false
  end.

(** [size_of::<(Instant, WsHead)>()] *)
Definition observe_standard_head (size_of_open_head : Z) (open_heads : list (Instant * WsHead))
    (head : WsHead) (observed_at : Instant) (count_capacity byte_capacity : Z)
    : result SourceError (list (Instant * WsHead)) :=
  let next_count := uint_saturating_add USIZE (Z.of_nat (length open_heads)) 1 in
  let next_bytes := uint_saturating_mul USIZE next_count size_of_open_head in
  if (count_capacity <? next_count) || (byte_capacity <? next_bytes)
  then Err (SourceGap "RPC pending head count or byte budget exceeded")
  else Ok (open_heads ++ [(observed_at, head)]).

Definition standard_head_deadline (open_heads : list (Instant * WsHead)) : option Instant :=
  (fun '(successor_observed_at, _) => successor_observed_at + STANDARD_LOG_GRACE)
    <$> open_heads !! 1%nat.

Definition take_ready_standard_head (open_heads : list (Instant * WsHead)) (observed_at : Instant)
    : option WsHead * list (Instant * WsHead) :=
  if match standard_head_deadline open_heads with
     | None => true
     | Some deadline => observed_at <? deadline
     end
  then (None, open_heads)
  else match open_heads with
       | [] => (None, [])
       | (_, head) :: open_heads => (Some head, open_heads)
       end.

Definition set_commitment (c : Commitment) (k : ChainCursor) : ChainCursor :=
  {| chain_id := chain_id k; block_number := block_number k;
     execution_block_number := execution_block_number k; block_hash := block_hash k;
     transaction_index := transaction_index k; log_index := log_index k;
     source_sequence := source_sequence k; source_sub_index := source_sub_index k;
     commitment := c |}.

Definition set_execution_block (n : Z) (k : ChainCursor) : ChainCursor :=
  {| chain_id := chain_id k; block_number := block_number k; execution_block_number := n;
     block_hash := block_hash k; transaction_index := transaction_index k;
     log_index := log_index k; source_sequence := source_sequence k;
     source_sub_index := source_sub_index k; commitment := commitment k |}.

Definition set_sequence (n : Z) (k : ChainCursor) : ChainCursor :=
  {| chain_id := chain_id k; block_number := block_number k;
     execution_block_number := execution_block_number k; block_hash := block_hash k;
     transaction_index := transaction_index k; log_index := log_index k;
     source_sequence := Some n; source_sub_index := source_sub_index k;
     commitment := commitment k |}.

Definition map_log_cursor (f : ChainCursor -> ChainCursor) (log : ContractLog) : ContractLog :=
  {| log_address := log_address log; log_transaction_hash := log_transaction_hash log;
     log_topics := log_topics log; log_topics_capacity := log_topics_capacity log;
     log_data := log_data log; log_removed := log_removed log;
     log_cursor := f (log_cursor log) |}.

Definition map_head_cursor (f : ChainCursor -> ChainCursor) (head : BlockRef) : BlockRef :=
  {| br_cursor := f (br_cursor head); br_parent_hash := br_parent_hash head |}.

Definition promote_update (c : Commitment) (u : ChainUpdate) : ChainUpdate :=
  match u with
  | Head head => Head (map_head_cursor (set_commitment c) head)
  | Log log => Log (map_log_cursor (set_commitment c) log)
  | Correction _ | Reorg _ _ | Gap _ _ _ => u
  end.

Definition promote_updates (updates : list ChainUpdate) (c : Commitment) : list ChainUpdate :=
  promote_update c <$> updates.

Definition with_execution_context (u : ChainUpdate) (head : ChainCursor) : ChainUpdate :=
  match u with
  | Log log =>
      if block_number (log_cursor log) =? block_number head
      then Log (map_log_cursor (set_execution_block (execution_block_number head)) log)
      else u
  | _ => u
  end.

Definition validate_finalized_advance (previous next : ChainCursor) : result SourceError bool :=
  if negb (bool_decide (commitment next = Finalized))
  then Err (SourceGap "finalized RPC watermark has weaker commitment")
  else if (block_number next <? block_number previous)
          || ((block_number next =? block_number previous)
              && negb (bool_decide (block_hash next = block_hash previous)))
  then Err (SourceGap "finalized RPC watermark regressed or changed branch")
  else Ok (block_number previous <? block_number next).

(** The pages the iterator yields until it is exhausted. *)
Fixpoint backfill_pages_loop (fuel : nat) (start to page_blocks : Z) : option (list (Z * Z)) :=
  match fuel with
  | O => None
  | S fuel =>
      if to <? start then Some []
      else
        let last :=
          Z.min (uint_saturating_add 64 start (uint_saturating_sub page_blocks 1)) to in
        if last <? to
        then pages ← backfill_pages_loop fuel (last + 1) to page_blocks; Some ((start, last) :: pages)
        else Some [(start, last)]
  end.

Definition backfill_pages (from to page_blocks : Z) : option (list (Z * Z)) :=
  backfill_pages_loop (S (Z.to_nat (to - from))) from to page_blocks.

Definition validate_finalized_page (logs : list ContractLog) (page : Z * Z)
    : result SourceError (list ContractLog) :=
  if existsb (fun log =>
       log_removed log || negb (bool_decide (commitment (log_cursor log) = Finalized))
       || negb ((page.1 <=? block_number (log_cursor log))
                && (block_number (log_cursor log) <=? page.2))) logs
  then Err (SourceGap "finalized RPC backfill returned an invalid page")
  else Ok (sort_logs logs).

(** [{:?}] of an optional hash *)
Definition debug_hash (hash : option B256) : string :=
  match hash with
  | Some hash => "Some(" +:+ hex_bytes 32 hash +:+ ")"
  | None => "None"
  end.

(** What does not belong to the completed block. *)
Definition completion_mismatch (head : WsHead) (hash : B256) (other : ChainUpdate) : SourceError :=
  let mismatch kind cursor :=
    SourceGap ("buffered RPC " +:+ kind +:+ " at block " +:+ decimal (block_number cursor)
      +:+ " hash " +:+ debug_hash (block_hash cursor) +:+ " does not match completed block "
      +:+ decimal (block_number (br_cursor head)) +:+ " hash " +:+ hex_bytes 32 hash) in
  match other with
  | Head block => mismatch "head" (br_cursor block)
  | Log log => mismatch "log" (log_cursor log)
  | Correction correction => mismatch "correction" (br_cursor (new_tip correction))
  | Reorg _ new_head => mismatch "reorg" (br_cursor new_head)
  | Gap cursor _ _ =>
      let block := match cursor with Some cursor => block_number cursor | None => 0 end in
      SourceGap ("buffered gap at block " +:+ decimal block +:+ " cannot complete RPC block "
        +:+ decimal (block_number (br_cursor head)))
  end.

Definition in_block (c : ChainCursor) (head : WsHead) (hash : B256) : bool :=
  (block_number c =? block_number (br_cursor head)) && bool_decide (block_hash c = Some hash).

(** One update of the drained batch: the logs kept so far and the completed head. *)
Definition complete_update (head : WsHead) (hash : B256) (allow_preceding_startup_logs : bool)
    (acc : list ChainUpdate * option ChainUpdate) (u : ChainUpdate)
    : result SourceError (list ChainUpdate * option ChainUpdate) :=
  let '(logs, completed_head) := acc in
  match u with
  | Head block =>
      if in_block (br_cursor block) head hash then Ok (logs, Some (Head block))
      else Err (completion_mismatch head hash u)
  | Log log =>
      if in_block (log_cursor log) head hash
      then Ok (logs ++ [with_execution_context (Log log) (br_cursor head)], completed_head)
      else if allow_preceding_startup_logs
              && (block_number (log_cursor log) <? block_number (br_cursor head))
              && is_some (block_hash (log_cursor log))
      then Ok (logs ++ [Log log], completed_head)
      else Err (completion_mismatch head hash u)
  | _ => Err (completion_mismatch head hash u)
  end.

Definition drain_completed_block `{MemLayout} (head : WsHead) (allow_preceding_startup_logs : bool)
    : method CursorReorderBuffer SourceError (list ChainUpdate) :=
  hash ← lift (ok_or (block_hash (br_cursor head)) (SourceGap "completed RPC head has no block hash"));
  drained ← (fun b => let '(updates, b) := drain_through (br_cursor head) b in (Ok updates, b));
  '(logs, completed_head) ←
    lift (try_fold (complete_update head hash allow_preceding_startup_logs) ([], None) drained);
  completed_head ←
    lift (ok_or completed_head (SourceGap "completed RPC block has no matching buffered head"));
  mret (logs ++ [completed_head]).

(** ** The handshake (ws/connection.rs) *)

Inductive Message :=
| Text (text : list Z)
| Binary (bytes : list Z)
| Ping (bytes : list Z)
| Pong (bytes : list Z)
| Close (frame : option string)
| Frame.

(** What the code asks of [serde_json] here and of [alloy_primitives::U64]. *)
Class WsJson `{Json} := {
  value_from_slice : list Z -> result string Value;
  value_is_object : Value -> bool;
  value_as_u64 : Value -> option Z;
  u64_from_str : string -> option Z
}.

(** [sent] is what became of the pong when one had to be written. *)
Definition websocket_payload (message : Message) (sent : result string unit)
    : result SourceError (option (list Z)) :=
  match message with
  | Text bytes | Binary bytes => Ok (Some bytes)
  | Ping _ =>
      _ ← map_err (fun error => SourceUnavailable ("RPC WebSocket pong failed: " +:+ error)) sent;
      Ok None
  | Pong _ => Ok None
  | Close frame =>
      Err (SourceGap
        match frame with
        | Some reason => "RPC WebSocket closed (" +:+ reason +:+ "); canonical recovery required"
        | None => "RPC WebSocket closed; canonical recovery required"
        end)
  | Frame => Ok None
  end.

Section Handshake.
Context `{WsJson}.

Definition validate_chain_id_response (value : Value) (expected_chain_id : Z)
    : result SourceError unit :=
  raw ← ok_or (v ← value_get "result" value; as_str v)
          (SourceUnavailable "RPC chain-id response is invalid");
  actual ← ok_or (u64_from_str raw) (SourceUnavailable "RPC chain id is invalid");
  if negb (actual =? expected_chain_id)
  then Err (SourceUnavailable ("WebSocket RPC chain id mismatch: expected "
                                 +:+ decimal expected_chain_id +:+ ", got " +:+ decimal actual))
  else Ok tt.

(** The prefetched payloads and their bytes. *)
Definition push_prefetched (buffered : list (list Z)) (buffered_bytes : Z) (payload : list Z)
    (capacity byte_capacity : Z) : result SourceError (list (list Z) * Z) :=
  if (capacity <=? Z.of_nat (length buffered))
     || (uint_saturating_sub byte_capacity buffered_bytes <? Z.of_nat (length payload))
  then Err (SourceUnavailable
              "RPC subscription handshake prefetch count or byte budget exceeded")
  else Ok (buffered ++ [payload], buffered_bytes + Z.of_nat (length payload)).

Definition handshake_response_id (value : Value) : result SourceError (option Z) :=
  match value_get "id" value with
  | None => Ok None
  | Some id =>
      ok_or (Some <$> value_as_u64 id)
        (SourceUnavailable "RPC handshake response id must be an integer")
  end.

Definition record_subscription_ack (current : option string) (value : Value) (kind : string)
    : result SourceError (option string) :=
  let invalid := SourceUnavailable ("RPC " +:+ kind +:+ " subscription acknowledgement is invalid") in
  incoming ← ok_or (v ← value_get "result" value; as_str v) invalid;
  if String.eqb incoming "" then Err invalid
  else if match current with
          | Some existing => negb (String.eqb existing incoming)
          | None => false
          end
  then Err (SourceUnavailable ("RPC " +:+ kind +:+ " subscription acknowledgement changed"))
  else Ok (Some incoming).

Record Acknowledged := {
  ack_logs : option string;
  ack_heads : option string;
  ack_chain : bool;
  ack_buffered : list (list Z);
  ack_bytes : Z
}.

Definition no_acknowledgement : Acknowledged :=
  {| ack_logs := None; ack_heads := None; ack_chain := false; ack_buffered := []; ack_bytes := 0 |}.

(** The body of the loop, on one payload. *)
Definition acknowledge (expected_chain_id prefetch_capacity max_prefetch_bytes : Z)
    (payload : list Z) (a : Acknowledged) : result SourceError Acknowledged :=
  value ← map_err (fun error => SourceUnavailable ("invalid RPC handshake JSON: " +:+ error))
            (value_from_slice payload);
  match value_get "error" value with
  | Some error =>
      Err (SourceUnavailable ("RPC subscription handshake error: " +:+ value_to_string error))
  | None =>
      id ← handshake_response_id value;
      if bool_decide (id = Some 1) then
        logs ← record_subscription_ack (ack_logs a) value "logs";
        Ok {| ack_logs := logs; ack_heads := ack_heads a; ack_chain := ack_chain a;
              ack_buffered := ack_buffered a; ack_bytes := ack_bytes a |}
      else if bool_decide (id = Some 2) then
        heads ← record_subscription_ack (ack_heads a) value "heads";
        Ok {| ack_logs := ack_logs a; ack_heads := heads; ack_chain := ack_chain a;
              ack_buffered := ack_buffered a; ack_bytes := ack_bytes a |}
      else if bool_decide (id = Some 3) then
        _ ← validate_chain_id_response value expected_chain_id;
        Ok {| ack_logs := ack_logs a; ack_heads := ack_heads a; ack_chain := true;
              ack_buffered := ack_buffered a; ack_bytes := ack_bytes a |}
      else
        '(buffered, bytes) ← push_prefetched (ack_buffered a) (ack_bytes a) payload
                               prefetch_capacity max_prefetch_bytes;
        Ok {| ack_logs := ack_logs a; ack_heads := ack_heads a; ack_chain := ack_chain a;
              ack_buffered := buffered; ack_bytes := bytes |}
  end.

(** A message read from the socket, with the fate of a pong written for it. *)
Definition Received : Type := result string Message * result string unit.

(** What is left of a socket after the handshake: the messages still to come. *)
Record EstablishedSocket := {
  socket : list Received;
  logs_subscription : string;
  heads_subscription : string;
  buffered : list (list Z)
}.

(** [while logs.is_none() || heads.is_none() || !chain_verified] *)
Fixpoint read_acknowledgements (expected_chain_id prefetch_capacity max_prefetch_bytes : Z)
    (incoming : list Received) (a : Acknowledged) : result SourceError EstablishedSocket :=
  match ack_logs a, ack_heads a, ack_chain a with
  | Some logs, Some heads, true =>
      Ok {| socket := incoming; logs_subscription := logs; heads_subscription := heads;
            buffered := ack_buffered a |}
  | _, _, _ =>
      match incoming with
      | [] => Err (SourceUnavailable "RPC WebSocket closed during handshake")
      | (message, sent) :: incoming =>
          message ← map_err (fun error =>
                      SourceUnavailable ("RPC WebSocket handshake failed: " +:+ error)) message;
          payload ← websocket_payload message sent;
          match payload with
          | None =>
              read_acknowledgements expected_chain_id prefetch_capacity max_prefetch_bytes incoming a
          | Some payload =>
              a ← acknowledge expected_chain_id prefetch_capacity max_prefetch_bytes payload a;
              read_acknowledgements expected_chain_id prefetch_capacity max_prefetch_bytes incoming a
          end
      end
  end.

(** What the endpoint does with a connection: the outcomes of the connect and of
    the three requests, the messages it sends, and whether all of it happens
    before the handshake deadline. *)
Record Connection := {
  connected : result string unit;
  sent_logs : SubscriptionRequest -> result string unit;
  sent_heads : result string unit;
  sent_chain_id : result string unit;
  incoming : list Received;
  in_time : bool
}.

Definition establish_before_deadline (c : Connection) (f : ContractFilter) (kind : string)
    (expected_chain_id prefetch_capacity max_prefetch_bytes : Z)
    : result SourceError EstablishedSocket :=
  _ ← map_err (fun error => SourceUnavailable ("RPC WebSocket connect failed: " +:+ error))
        (connected c);
  _ ← map_err (fun error => SourceUnavailable ("RPC logs subscription failed: " +:+ error))
        (sent_logs c (subscription_request 1 f kind));
  _ ← map_err (fun error => SourceUnavailable ("RPC heads subscription failed: " +:+ error))
        (sent_heads c);
  _ ← map_err (fun error => SourceUnavailable ("RPC chain-id request failed: " +:+ error))
        (sent_chain_id c);
  read_acknowledgements expected_chain_id prefetch_capacity max_prefetch_bytes (incoming c)
    no_acknowledgement.

Definition before_handshake_deadline {A} (in_time : bool) (operation : result SourceError A)
    : result SourceError A :=
  if in_time then operation else Err (SourceUnavailable "RPC subscription handshake timed out").

Definition establish (c : Connection) (f : ContractFilter) (kind : string)
    (expected_chain_id prefetch_capacity max_prefetch_bytes : Z)
    : result SourceError EstablishedSocket :=
  before_handshake_deadline (in_time c)
    (establish_before_deadline c f kind expected_chain_id prefetch_capacity max_prefetch_bytes).

End Handshake.

(** ** The update stream (ws.rs) *)

Record StreamState := {
  reorder : CursorReorderBuffer;
  last_head : option WsHead;
  open_standard_heads : list (Instant * WsHead);
  first_standard_head_block : option Z;
  published_watermark : option ChainCursor;
  finalized_watermark : option ChainCursor;
  stream_sequence : Z
}.

(** What a round of the loop meets: a payload buffered by the handshake, the
    grace timer, or the next item of the socket (none once it is closed), each
    with the reading of the clock. *)
Inductive Occurrence :=
| Prefetched (payload : list Z)
| TimerFired
| Socket (item : option Received).

Record Round := { occurrence : Occurrence; round_clock : Instant }.

Abbreviation StreamItem := (result SourceError ChainUpdate) (only parsing).
Abbreviation stream_gen := (gen (StreamState * Session) StreamItem) (only parsing).

Section StreamFields.

Definition set_reorder (b : CursorReorderBuffer) (s : StreamState) : StreamState :=
  {| reorder := b; last_head := last_head s; open_standard_heads := open_standard_heads s;
     first_standard_head_block := first_standard_head_block s;
     published_watermark := published_watermark s; finalized_watermark := finalized_watermark s;
     stream_sequence := stream_sequence s |}.

Definition set_last_head (head : WsHead) (s : StreamState) : StreamState :=
  {| reorder := reorder s; last_head := Some head; open_standard_heads := open_standard_heads s;
     first_standard_head_block := first_standard_head_block s;
     published_watermark := published_watermark s; finalized_watermark := finalized_watermark s;
     stream_sequence := stream_sequence s |}.

Definition set_open_heads (heads : list (Instant * WsHead)) (s : StreamState) : StreamState :=
  {| reorder := reorder s; last_head := last_head s; open_standard_heads := heads;
     first_standard_head_block := first_standard_head_block s;
     published_watermark := published_watermark s; finalized_watermark := finalized_watermark s;
     stream_sequence := stream_sequence s |}.

Definition set_first_block (n : option Z) (s : StreamState) : StreamState :=
  {| reorder := reorder s; last_head := last_head s; open_standard_heads := open_standard_heads s;
     first_standard_head_block := n; published_watermark := published_watermark s;
     finalized_watermark := finalized_watermark s; stream_sequence := stream_sequence s |}.

Definition set_published (c : ChainCursor) (s : StreamState) : StreamState :=
  {| reorder := reorder s; last_head := last_head s; open_standard_heads := open_standard_heads s;
     first_standard_head_block := first_standard_head_block s; published_watermark := Some c;
     finalized_watermark := finalized_watermark s; stream_sequence := stream_sequence s |}.

Definition set_finalized (c : ChainCursor) (s : StreamState) : StreamState :=
  {| reorder := reorder s; last_head := last_head s; open_standard_heads := open_standard_heads s;
     first_standard_head_block := first_standard_head_block s;
     published_watermark := published_watermark s; finalized_watermark := Some c;
     stream_sequence := stream_sequence s |}.

Definition bump_sequence (s : StreamState) : StreamState :=
  {| reorder := reorder s; last_head := last_head s; open_standard_heads := open_standard_heads s;
     first_standard_head_block := first_standard_head_block s;
     published_watermark := published_watermark s; finalized_watermark := finalized_watermark s;
     stream_sequence := uint_saturating_add 64 (stream_sequence s) 1 |}.

End StreamFields.

Section Stream.
Context `{WsJson, Http, MemLayout, !Deserialize Z, !Deserialize Value, !Deserialize (list Value)}.
(** [U64::from_str(tag).is_ok()], the capacity the allocator gives a string, and
    the size of an open head. *)
Context (u64_from_str_ok : string -> bool) (string_capacity : string -> Z).
Context (size_of_open_head : Z).
Context (self : EvmRpcSource) (contract_filter : ContractFilter).
Context (logs_id heads_id : string).

Definition gap_update (cursor : option ChainCursor) (reason : string) : ChainUpdate :=
  Gap cursor reason (string_capacity reason).

Definition retraction_updates (log : ContractLog) : list ChainUpdate :=
  [Log log;
   gap_update (Some (log_cursor log))
     "RPC retracted a subscription log; canonical recovery required"].

(** [yield Ok(update)] for a batch; [yield ...; break]. *)
Definition yield_updates (updates : list ChainUpdate) : stream_gen unit := emit (Ok <$> updates).
Definition yield_error {A} (error : SourceError) : stream_gen A := _ ← emit [Err error]; end_stream.
Definition yield_gap {A} (cursor : option ChainCursor) (reason : string) : stream_gen A :=
  _ ← emit [Ok (gap_update cursor reason)]; end_stream.

(** The fields of the loop's state; the session is the HTTP backend's. *)
Definition stream_state : stream_gen StreamState := s ← inspect; mret s.1.
Definition set_state (f : StreamState -> StreamState) : stream_gen unit :=
  update (fun s => (f s.1, s.2)).
Definition await {E A} (m : proc Session E A) : stream_gen (result E A) :=
  await_on snd (fun t s => (s.1, t)) m.
Definition on_reorder {A} (m : method CursorReorderBuffer SourceError A)
    : stream_gen (result SourceError A) :=
  await_on (fun s => reorder s.1) (fun b s => (set_reorder b s.1, s.2)) (call m).

(** The block a startup log claims to be in, read once per height. *)
Definition canonical_block (block : Z) : proc Session SourceError ChainCursor :=
  let h := http self in
  let tag := hex_quantity block in
  map_perr source_error_of_rpc
    (if bool_decide (backend_network h = Arbitrum)
     then block_cursor_with_execution_context u64_from_str_ok (backend_rpc h) tag
            (backend_chain_id h) Canonical
     else block_cursor u64_from_str_ok (backend_rpc h) tag (backend_chain_id h) Canonical).

(** The loop over the updates, with the blocks read so far. *)
Fixpoint validate_preceding_loop (canonical_blocks : gmap Z ChainCursor) (completed_head : WsHead)
    (updates : list ChainUpdate) : proc Session SourceError (list ChainUpdate) :=
  match updates with
  | [] => mret []
  | Log log :: updates =>
      let n := block_number (log_cursor log) in
      if block_number (br_cursor completed_head) <=? n
      then rest ← validate_preceding_loop canonical_blocks completed_head updates;
           mret (Log log :: rest)
      else
        '(canonical, canonical_blocks) ←
          (match canonical_blocks !! n with
           | Some canonical => mret (canonical, canonical_blocks)
           | None => canonical ← canonical_block n;
                     mret (canonical, <[ n := canonical ]> canonical_blocks)
           end);
        if negb (bool_decide (block_hash canonical = block_hash (log_cursor log)))
        then stop (SourceGap ("startup RPC log at block " +:+ decimal n
                                +:+ " does not match its canonical block hash"))
        else rest ← validate_preceding_loop canonical_blocks completed_head updates;
             mret (Log (map_log_cursor (set_execution_block (execution_block_number canonical)) log)
                     :: rest)
  | u :: updates =>
      rest ← validate_preceding_loop canonical_blocks completed_head updates; mret (u :: rest)
  end.

Definition validate_preceding_startup_logs (updates : list ChainUpdate) (completed_head : WsHead)
    : proc Session SourceError (list ChainUpdate) :=
  validate_preceding_loop ∅ completed_head updates.

(** The grace timer's branch of the [select!]. *)
Definition on_timer (now : Instant) : stream_gen unit :=
  s ← stream_state;
  let '(ready, open_heads) := take_ready_standard_head (open_standard_heads s) now in
  match ready with
  | None => next_round
  | Some completed_head =>
      _ ← set_state (set_open_heads open_heads);
      updates ← on_reorder (drain_completed_block completed_head
                  (bool_decide (first_standard_head_block s
                                  = Some (block_number (br_cursor completed_head)))));
      match updates with
      | Err error => yield_error error
      | Ok updates =>
          updates ← await (validate_preceding_startup_logs updates completed_head);
          match updates with
          | Err error => yield_error error
          | Ok updates =>
              _ ← yield_updates (promote_updates updates Canonical);
              set_state (set_published (br_cursor completed_head))
          end
      end
  end.

Definition last_cursor (s : StreamState) : option ChainCursor := br_cursor <$> last_head s.

Definition source_error_to_string (e : SourceError) : string :=
  match e with
  | NetworkMismatch => "source network mismatch"
  | SourceGap s => "source gap: " +:+ s
  | SourceUnavailable s => "source unavailable: " +:+ s
  end.

(** The payload of a round, if it has one. *)
Definition next_payload (item : option Received) : stream_gen (list Z) :=
  s ← stream_state;
  match item with
  | None => yield_gap (last_cursor s) "RPC WebSocket closed; canonical recovery required"
  | Some (Err error, _) =>
      yield_gap (last_cursor s)
        ("RPC WebSocket read failed; canonical recovery required: " +:+ error)
  | Some (Ok message, sent) =>
      match websocket_payload message sent with
      | Ok (Some payload) => mret payload
      | Ok None => next_round
      | Err error => yield_gap (last_cursor s) (source_error_to_string error)
      end
  end.

Definition with_head_context (head : option WsHead) (log : ContractLog) : ContractLog :=
  match head with
  | Some head =>
      if block_number (br_cursor head) =? block_number (log_cursor log)
      then map_log_cursor (set_execution_block (execution_block_number (br_cursor head))) log
      else log
  | None => log
  end.

(** [for update in reorder.drain_through(&head.cursor)] *)
Definition drain_and_yield (head : ChainCursor) : stream_gen unit :=
  updates ← on_reorder (fun b => let '(updates, b) := drain_through head b in (Ok updates, b));
  match updates with
  | Ok updates => yield_updates ((fun u => with_execution_context u head) <$> updates)
  | Err error => yield_error error
  end.

(** A notification of the logs subscription. *)
Definition on_log (value : Value) : stream_gen unit :=
  let c := config self in
  if bool_decide (delivery_mode c = FinalizedDelivery) then next_round
  else
  match parse_filtered_rpc_log value (backend_chain_id (http self))
          (mode_commitment (delivery_mode c)) contract_filter with
  | Err error =>
      yield_error (SourceUnavailable ("invalid RPC log notification: " +:+ rpc_error_to_string error))
  | Ok log =>
      _ ← set_state bump_sequence;
      s ← stream_state;
      let log := map_log_cursor (set_sequence (stream_sequence s)) log in
      if log_removed log then _ ← yield_updates (retraction_updates log); end_stream
      else if holds_standard_logs_until_successor c
              && is_at_or_before_watermark (log_cursor log) (published_watermark s)
      then yield_gap (Some (log_cursor log))
             "RPC delivered a log after its block watermark; canonical recovery required"
      else
      let log := with_head_context (last_head s) log in
      if bool_decide (delivery_mode c = RealtimeDelivery)
      then _ ← yield_updates [Log log]; next_round
      else
      pushed ← on_reorder (push (Log log));
      match pushed with
      | Err error => yield_error error
      | Ok _ =>
          match last_head s with
          | Some head =>
              if negb (holds_standard_logs_until_successor c)
              then _ ← drain_and_yield (br_cursor head); next_round
              else next_round
          | None => next_round
          end
      end
  end.

(** [for page in backfill_pages(..)]: an error returns from the stream. *)
Fixpoint publish_pages (pages : list (Z * Z)) : stream_gen unit :=
  match pages with
  | [] => mret tt
  | page :: pages =>
      logs ← await (backfill (http self)
               {| from_block := page.1; to_block := page.2; filter := contract_filter |});
      match logs with
      | Err error => yield_error error
      | Ok logs =>
          match validate_finalized_page logs page with
          | Err error => yield_error error
          | Ok logs => _ ← yield_updates (Log <$> logs); publish_pages pages
          end
      end
  end.

(** A new head in finalized mode. *)
Definition on_finalized_head (head : WsHead) : stream_gen unit :=
  _ ← set_state (set_last_head head);
  finalized_head ← await (snapshot_block_ref u64_from_str_ok (http self)
                            (backend_network (http self)));
  match finalized_head with
  | Err error => yield_error error
  | Ok finalized_head =>
      let finalized := br_cursor finalized_head in
      s ← stream_state;
      match finalized_watermark s with
      | None => panic
      | Some previous =>
          match validate_finalized_advance previous finalized with
          | Ok false => _ ← yield_updates [Head finalized_head]; next_round
          | Err error => yield_error error
          | Ok true =>
              match backfill_pages (uint_saturating_add 64 (block_number previous) 1)
                      (block_number finalized) (backfill_page_blocks (config self)) with
              | None => fun _ => None
              | Some pages =>
                  _ ← publish_pages pages;
                  _ ← yield_updates [Head finalized_head];
                  _ ← set_state (set_finalized finalized);
                  next_round
              end
          end
      end
  end.

(** [CursorReorderBuffer::with_limits] and the reset of the open blocks. *)
Definition reset_branch (previous head : WsHead) : stream_gen unit :=
  _ ← yield_updates [Reorg previous head];
  match Ordering.with_limits (reorder_capacity (config self)) (reorder_byte_capacity (config self)) with
  | Err error => yield_error error
  | Ok buffer =>
      set_state (fun s => set_first_block (Some (block_number (br_cursor head)))
                            (set_open_heads [] (set_reorder buffer s)))
  end.

(** Continuity with the previous head. *)
Definition follow_head (head : WsHead) : stream_gen unit :=
  s ← stream_state;
  match last_head s with
  | None => mret tt
  | Some previous =>
      if uint_saturating_add 64 (block_number (br_cursor previous)) 1
           <? block_number (br_cursor head)
      then yield_gap (Some (br_cursor previous))
             "RPC WebSocket skipped one or more block heads; canonical recovery required"
      else if head_discontinuity previous head (progressive_heads (config self))
      then reset_branch previous head
      else mret tt
  end.

(** The head becomes the newest one, and is published or kept until its block is
    complete. *)
Definition publish_head (head : WsHead) (now : Instant) : stream_gen unit :=
  let c := config self in
  _ ← set_state (set_last_head head);
  if bool_decide (delivery_mode c = RealtimeDelivery)
  then _ ← yield_updates [Head head]; next_round
  else
  _ ← (if holds_standard_logs_until_successor c then
         s ← stream_state;
         match observe_standard_head size_of_open_head (open_standard_heads s) head now
                 (reorder_capacity c) (reorder_byte_capacity c) with
         | Err error => yield_error error
         | Ok open_heads => set_state (set_open_heads open_heads)
         end
       else mret tt);
  pushed ← on_reorder (push (Head head));
  match pushed with
  | Err error => yield_error error
  | Ok _ =>
      if negb (holds_standard_logs_until_successor c)
      then drain_and_yield (br_cursor head)
      else mret tt
  end.

(** A notification of the heads subscription. *)
Definition on_head (value : Value) (now : Instant) : stream_gen unit :=
  let c := config self in
  match parse_ws_head_with_execution_context value (backend_chain_id (http self))
          (bool_decide (backend_network (http self) = Arbitrum)) with
  | Err error =>
      yield_error (SourceUnavailable ("invalid RPC head notification: " +:+ rpc_error_to_string error))
  | Ok head =>
      s ← stream_state;
      if match last_head s with Some previous => same_head previous head | None => false end
      then next_round
      else if bool_decide (delivery_mode c = FinalizedDelivery) then on_finalized_head head
      else
      _ ← set_state bump_sequence;
      s ← stream_state;
      let head := map_head_cursor (fun k => set_commitment (mode_commitment (delivery_mode c))
                                              (set_sequence (stream_sequence s) k)) head in
      _ ← (if holds_standard_logs_until_successor c && negb (is_some (first_standard_head_block s))
           then set_state (set_first_block (Some (block_number (br_cursor head))))
           else mret tt);
      _ ← follow_head head;
      publish_head head now
  end.

(** A notification of one of the two subscriptions. *)
Definition on_notification (value : Value) (now : Instant) : stream_gen unit :=
  s ← stream_state;
  match value_get "params" value with
  | None => next_round
  | Some params =>
      if negb (value_is_object params) then next_round
      else if negb (bool_decide ((v ← value_get "method" value; as_str v) = Some "eth_subscription"))
      then next_round
      else
      match (v ← value_get "subscription" params; as_str v) with
      | None =>
          yield_gap (last_cursor s) "RPC subscription notification has no subscription id"
      | Some subscription =>
          match value_get "result" params with
          | None => yield_gap (last_cursor s) "RPC subscription notification has no result"
          | Some result =>
              if String.eqb logs_id subscription then on_log result
              else if String.eqb heads_id subscription then on_head result now
              else mret tt
          end
      end
  end.

(** A payload: the frame bound, the JSON decoder, errors and responses. *)
Definition on_payload (payload : list Z) (now : Instant) : stream_gen unit :=
  s ← stream_state;
  if max_frame_bytes (config self) <? Z.of_nat (length payload)
  then yield_gap (last_cursor s) "RPC WebSocket frame exceeded configured bound"
  else
  match value_from_slice payload with
  | Err error =>
      yield_gap (last_cursor s)
        ("invalid RPC WebSocket JSON; canonical recovery required: " +:+ error)
  | Ok value =>
      match value_get "error" value with
      | Some error =>
          yield_error (SourceUnavailable ("RPC subscription error: " +:+ value_to_string error))
      | None =>
          if is_some (value_get "id" value) then next_round else on_notification value now
      end
  end.

(** One round of the loop. The timer branch exists only while a successor of the
    oldest open head has been seen. *)
Definition stream_round (r : Round) : stream_gen unit :=
  match occurrence r with
  | Prefetched payload => on_payload payload (round_clock r)
  | TimerFired =>
      s ← stream_state;
      if holds_standard_logs_until_successor (config self)
         && is_some (standard_head_deadline (open_standard_heads s))
      then on_timer (round_clock r)
      else next_round
  | Socket item =>
      payload ← next_payload item; on_payload payload (round_clock r)
  end.

Definition initial_state (buffer : CursorReorderBuffer) (finalized : option ChainCursor)
    : StreamState :=
  {| reorder := buffer; last_head := None; open_standard_heads := [];
     first_standard_head_block := None; published_watermark := None;
     finalized_watermark := finalized; stream_sequence := 0 |}.

(** The stream over its rounds. *)
Definition stream_run (initial_finalized : option ChainCursor) (rounds : list Round)
    (session : Session) : option (list StreamItem * standing * Session) :=
  match Ordering.with_limits (reorder_capacity (config self)) (reorder_byte_capacity (config self)) with
  | Err error => Some ([Err error], Closed, session)
  | Ok buffer =>
      '(items, how, s) ← generate stream_round rounds (initial_state buffer initial_finalized, session);
      Some (items, how, s.2)
  end.

End Stream.

(** ** The source (ws.rs) *)

Section Source.
Context `{WsJson, Http, MemLayout, !Deserialize Z, !Deserialize Value, !Deserialize (list Value)}.
Context (u64_from_str_ok : string -> bool).

(** The subscription: the chain check and the handshake are joined, then finalized
    mode reads its first watermark. *)
Definition subscribe (self : EvmRpcSource) (f : ContractFilter) (c : Connection)
    : proc Session SourceError (EstablishedSocket * option ChainCursor) :=
  _ ← attempt (validate_config self);
  _ ← verify_chain_id (http self);
  established ← attempt (establish c f (logs_kind (config self)) (backend_chain_id (http self))
                           (reorder_capacity (config self)) (max_prefetch_bytes (config self)));
  initial_finalized ←
    (if bool_decide (delivery_mode (config self) = FinalizedDelivery)
     then cursor ← snapshot_cursor_at u64_from_str_ok (http self) (backend_network (http self));
          mret (Some cursor)
     else mret None);
  mret (established, initial_finalized).

Definition source_backfill (self : EvmRpcSource) (req : BackfillRequest)
    : proc Session SourceError (list ContractLog) :=
  _ ← attempt (validate_config self); backfill (http self) req.

Definition canonical_head (self : EvmRpcSource) : proc Session SourceError ChainCursor :=
  _ ← attempt (validate_config self);
  snapshot_cursor_at u64_from_str_ok (http self) (backend_network (http self)).

Context `{Keccak, Alloy, SolCalls, !Deserialize StorageWord, !Deserialize (list Z)}.

Definition source_snapshot (self : EvmRpcSource) (deployment : DeploymentConfig)
    : proc Session SourceError BootstrapSnapshot :=
  _ ← attempt (validate_config self);
  if negb (bool_decide (dep_network deployment = backend_network (http self)))
  then stop NetworkMismatch
  else if negb (dep_chain_id deployment =? backend_chain_id (http self))
  then stop (SourceUnavailable "RPC source chain id mismatch")
  else snapshot u64_from_str_ok
         {| sp_rpc := backend_rpc (http self); sp_snapshot_tag := snapshot_tag (http self) |} deployment.

Definition source_validate_checkpoint (self : EvmRpcSource) (k : Checkpoint)
    : proc Session SourceError bool :=
  _ ← attempt (validate_config self); validate_checkpoint u64_from_str_ok (http self) k.

End Source.
