(* ===== verification/WsFacts.v ===== *)
(** * Correctness of the EVM WebSocket source

    The catch-up pages, the completion of a block, the handshake, and what the
    update stream delivers in each mode, whatever the socket and the clock do. *)

From S2P Require Import Prelude StableSort Text Arithmetic Slot0 State Model Ordering Abi Rpc.
From S2P Require Import RpcFacts Generator Ws.

(** ** Catch-up pages *)

Lemma backfill_pages_loop_spec fuel start to p :
  0 <= start -> start <= to -> to < 2 ^ 64 -> 0 < p -> to - start < Z.of_nat fuel ->
  exists pages, backfill_pages_loop fuel start to p = Some pages
    /\ (pages ≫= blocks_of) = blocks_of (start, to) /\ Forall (page_ok p) pages.
Proof.
  revert start. induction fuel as [|fuel IH]; intros start Hs Hle Hto Hp Hf; cbn [backfill_pages_loop].
  - lia.
  - destruct (Z.ltb_spec to start) as [Hlt|_]; [lia|].
    assert (exists last, Z.min (uint_saturating_add 64 start (uint_saturating_sub p 1)) to = last
              /\ start <= last <= to /\ last - start + 1 <= p) as (last & -> & Hl & Hpage).
    { eexists. split; [reflexivity|]. unfold uint_saturating_add, uint_saturating_sub, uint_max. lia. }
    assert (page_ok p (start, last)) by (split_and!; cbn; lia).
    destruct (Z.ltb_spec last to) as [Hlt|Hge].
    + destruct (IH (last + 1)) as (pages & -> & Hb & Hr); [lia..|].
      eexists. split; [done|]. split; [|by constructor].
      cbn [mbind list_bind]. rewrite (blocks_of_split start last to) by lia. by rewrite Hb.
    + assert (last = to) as -> by lia. eexists. split; [done|].
      split; [cbn; by rewrite app_nil_r|by apply Forall_singleton].
Qed.

Lemma backfill_pages_spec from to p :
  0 <= from -> uint 64 to -> 0 < p ->
  exists pages, backfill_pages from to p = Some pages
    /\ (pages ≫= blocks_of) = blocks_of (from, to) /\ Forall (page_ok p) pages.
Proof.
  unfold uint, backfill_pages. intros ? ? ?.
  destruct (Z.ltb_spec to from).
  - cbn [backfill_pages_loop]. destruct (Z.ltb_spec to from); [|lia]. exists []. split_and!; [done| |done].
    unfold blocks_of. cbn [fst snd mbind list_bind]. symmetry.
    apply length_zero_iff_nil. rewrite length_seqZ. lia.
  - apply backfill_pages_loop_spec; lia.
Qed.

(** ** Keys are untouched by the delivery *)

Lemma event_order_commitment c k : event_order (set_commitment c k) = event_order k.
Proof. done. Qed.

Lemma event_order_execution n k : event_order (set_execution_block n k) = event_order k.
Proof. done. Qed.

Lemma retained_nonneg `{MemLayout} u :
  match u with
  | Head _ | Reorg _ _ => True
  | Log log => 0 <= log_topics_capacity log
  | _ => False
  end -> 0 <= update_retained_bytes u.
Proof.
  pose proof sizes_nonneg. intros Hu. unfold update_retained_bytes. cbv zeta.
  apply sat_add_nonneg; [lia|lia|]. destruct u; try done. unfold uint_saturating_sub. lia.
Qed.

(** ** Completing a block *)

Section Completion.
Context `{MemLayout}.

(** An update that can belong to the completed block's batch. *)
Definition belongs (head : WsHead) (hash : B256) (allow : bool) (u : ChainUpdate) : Prop :=
  match u with
  | Head block => in_block (br_cursor block) head hash = true
  | Log log =>
      in_block (log_cursor log) head hash = true
      \/ (allow = true /\ block_number (log_cursor log) < block_number (br_cursor head)
          /\ block_hash (log_cursor log) <> None)
  | _ => False
  end.

Definition is_log (u : ChainUpdate) : bool := match u with Log _ => true | _ => false end.
Definition as_log (u : ChainUpdate) : option ContractLog := match u with Log l => Some l | _ => None end.
Definition as_head (u : ChainUpdate) : option BlockRef := match u with Head h => Some h | _ => None end.

(** The log as the completed block delivers it. *)
Definition in_context (head : WsHead) (log : ContractLog) : ContractLog :=
  if block_number (log_cursor log) =? block_number (br_cursor head)
  then map_log_cursor (set_execution_block (execution_block_number (br_cursor head))) log
  else log.

Lemma in_context_log head log :
  with_execution_context (Log log) (br_cursor head) = Log (in_context head log).
Proof. unfold with_execution_context, in_context. by case_match. Qed.

Lemma in_block_true c head hash :
  in_block c head hash = true <->
  block_number c = block_number (br_cursor head) /\ block_hash c = Some hash.
Proof. unfold in_block. by rewrite andb_true_iff, Z.eqb_eq, bool_decide_eq_true. Qed.

Lemma complete_update_iff head hash allow acc u acc' :
  complete_update head hash allow acc u = Ok acc' <->
  belongs head hash allow u
  /\ acc' = match u with
            | Log log => (acc.1 ++ [Log (in_context head log)], acc.2)
            | Head block => (acc.1, Some (Head block))
            | _ => acc
            end.
Proof.
  destruct acc as [logs completed]. unfold complete_update. destruct u; cbn [belongs fst snd]; try naive_solver.
  - destruct (in_block _ _ _); naive_solver.
  - destruct (in_block (log_cursor log) head hash) eqn:E.
    + rewrite in_context_log. naive_solver.
    + destruct allow; cbn [andb]; [|naive_solver].
      destruct (Z.ltb_spec (block_number (log_cursor log)) (block_number (br_cursor head)));
        [|naive_solver lia]. cbn [andb].
      destruct (block_hash (log_cursor log)) eqn:Eh; cbn [is_some]; [|naive_solver].
      unfold in_context. rewrite (proj2 (Z.eqb_neq _ _)) by lia. naive_solver.
Qed.

(** The fold over the drained batch keeps its logs in order and its last head. *)
Lemma complete_batch_iff head hash allow us logs completed logs' completed' :
  try_fold (complete_update head hash allow) (logs, completed) us = Ok (logs', completed') <->
  Forall (belongs head hash allow) us
  /\ logs' = logs ++ (Log ∘ in_context head <$> omap as_log us)
  /\ completed' = match last (omap as_head us) with
                  | Some block => Some (Head block)
                  | None => completed
                  end.
Proof.
  revert logs completed logs' completed'.
  induction us as [|u us IH]; intros logs completed logs' completed'; cbn [try_fold].
  { cbn. rewrite app_nil_r. naive_solver. }
  rewrite bind_ok, Forall_cons. setoid_rewrite complete_update_iff. split.
  - intros ([l1 c1] & (Hb & E) & (Hus & -> & ->)%IH). split; [done|].
    destruct u; try done; cbn [omap list_omap as_log as_head fst snd] in *; injection E as -> ->.
    + split; [done|]. rewrite last_cons. by destruct (last _).
    + split; [|done]. by rewrite fmap_cons, <-app_assoc.
  - intros ((Hb & Hus) & -> & ->). eexists. split; [split; [done|reflexivity]|].
    destruct u; try done; cbn [omap list_omap as_log as_head fst snd].
    + apply IH. split_and!; [done|done|]. rewrite last_cons. by destruct (last _).
    + apply IH. split_and!; [done| |done]. by rewrite fmap_cons, <-app_assoc.
Qed.

(** What completing a block delivers. *)
Lemma drain_completed_block_iff head allow b out b' :
  buffer_ok b ->
  drain_completed_block head allow b = (Ok out, b') <->
  exists hash p q block,
    block_hash (br_cursor head) = Some hash
    /\ pending b = p ++ q
    /\ Forall (fun e => key_leb e.1 (watermark_key (br_cursor head)) = true) p
    /\ Forall (fun e => key_lt (watermark_key (br_cursor head)) e.1) q
    /\ Forall (belongs head hash allow) (p.*2)
    /\ last (omap as_head (p.*2)) = Some block
    /\ out = (Log ∘ in_context head <$> omap as_log (p.*2)) ++ [Head block]
    /\ b' = set_pending q (charge q) b.
Proof.
  intros Hok. destruct (drain_through_spec (br_cursor head) b Hok) as (p & q & Eb & Hd & Hp & Hq).
  assert (forall p' q', pending b = p' ++ q' ->
            Forall (fun e => key_leb e.1 (watermark_key (br_cursor head)) = true) p' ->
            Forall (fun e => key_lt (watermark_key (br_cursor head)) e.1) q' -> p' = p /\ q' = q) as Huniq.
  { intros p' q' E Hp' Hq'. rewrite Eb in E. clear - E Hp Hq Hp' Hq'.
    revert p' E Hp'. induction p as [|e p IH]; intros [|e' p'] E Hp'; cbn in E.
    - done.
    - subst q. apply Forall_cons in Hq as [Hq _]. apply Forall_cons in Hp' as [Hp' _].
      unfold key_leb in Hp'. apply negb_true_iff in Hp'. unfold key_lt in Hq. congruence.
    - subst q'. apply Forall_cons in Hq' as [Hq' _]. apply Forall_cons in Hp as [Hp _].
      unfold key_leb in Hp. apply negb_true_iff in Hp. unfold key_lt in Hq'. congruence.
    - injection E as <- E. apply Forall_cons in Hp as [_ Hp], Hp' as [_ Hp'].
      destruct (IH Hp p' E Hp') as [-> ->]. done. }
  unfold drain_completed_block. split.
  - intros E. apply method_bind_ok in E as (hash & b1 & E1 & E). unfold lift in E1.
    destruct (block_hash (br_cursor head)) as [h|]; [|discriminate E1]. injection E1 as <- <-.
    apply method_bind_ok in E as (drained & b2 & E1 & E). rewrite Hd in E1. injection E1 as <- <-.
    apply method_bind_ok in E as ([logs completed] & b3 & E1 & E). injection E1 as E1 <-.
    apply complete_batch_iff in E1 as (Hb & -> & ->).
    apply method_bind_ok in E as (c & b4 & E1 & E). injection E1 as E1 <-.
    destruct (last (omap as_head p.*2)) as [block|] eqn:El; [|discriminate E1].
    injection E1 as <-. injection E as <- <-.
    exists h, p, q, block. by split_and!.
  - intros (hash & p' & q' & block & -> & E & Hp' & Hq' & Hb & Hl & -> & ->).
    destruct (Huniq _ _ E Hp' Hq') as [-> ->]. cbn [ok_or]. mred. rewrite Hd.
    assert (exists r, r = ([] ++ (Log ∘ in_context head <$> omap as_log (p.*2)), Some (Head block)))
      as [[logs completed] Er] by by eexists.
    assert (try_fold (complete_update head hash allow) ([], None) (p.*2) = Ok (logs, completed)) as ->.
    { apply complete_batch_iff. rewrite Hl. injection Er as -> ->. done. }
    injection Er as -> ->. done.
Qed.

End Completion.

(** ** The handshake *)

Section Handshake.
Context `{WsJson}.
Context (expected_chain_id prefetch_capacity max_prefetch_bytes : Z).

(** A payload that answers request [id]. *)
Definition answers_request (id : Z) (payload : list Z) (value : Value) : Prop :=
  value_from_slice payload = Ok value /\ value_get "error" value = None
  /\ handshake_response_id value = Ok (Some id).

Definition result_text (value : Value) : option string := v ← value_get "result" value; as_str v.

(** Not an answer to one of the three requests. *)
Definition is_notification (payload : list Z) : bool :=
  match value_from_slice payload with
  | Ok value => match handshake_response_id value with
                | Ok (Some id) => negb (existsb (Z.eqb id) [1; 2; 3])
                | _ => true
                end
  | Err _ => true
  end.

Definition payload_bytes (payloads : list (list Z)) : Z :=
  foldr (fun p n => Z.of_nat (length p) + n) 0 payloads.

Lemma payload_bytes_app l k : payload_bytes (l ++ k) = payload_bytes l + payload_bytes k.
Proof. unfold payload_bytes. induction l as [|p l IH]; cbn [app foldr]; lia. Qed.

Lemma answers_inv id id' p v v' :
  answers_request id p v -> answers_request id' p v' -> id' = id /\ v' = v.
Proof.
  intros (E1 & _ & E2) (E1' & _ & E2'). rewrite E1 in E1'. injection E1' as <-.
  rewrite E2 in E2'. by injection E2' as <-.
Qed.

Lemma is_notification_answer id p v :
  answers_request id p v -> is_notification p = negb (existsb (Z.eqb id) [1; 2; 3]).
Proof. intros (E1 & _ & E2). unfold is_notification. by rewrite E1, E2. Qed.

(** Every answer to the request names the recorded subscription, which one of
    them does. *)
Record subscribed (id : Z) (payloads : list (list Z)) (ack : option string) : Prop := {
  subscribed_some : forall sub, ack = Some sub ->
    sub <> "" /\ exists p v, p ∈ payloads /\ answers_request id p v /\ result_text v = Some sub;
  subscribed_all : forall p v, p ∈ payloads -> answers_request id p v ->
    exists sub, ack = Some sub /\ result_text v = Some sub
}.

Lemma record_ack_step id payloads ack p v kind next :
  subscribed id payloads ack -> answers_request id p v ->
  record_subscription_ack ack v kind = Ok next -> subscribed id (payloads ++ [p]) next.
Proof.
  intros [Hs Ha] Hp. unfold record_subscription_ack. intros (sub & Hsub & E)%bind_ok.
  apply ok_or_ok in Hsub. destruct (String.eqb_spec sub "") as [|Hne]; [done|].
  assert (next = Some sub /\ (ack = None \/ ack = Some sub)) as [-> Hcur].
  { destruct ack as [old|]; [|injection E as <-; auto].
    destruct (String.eqb_spec old sub) as [->|]; [|done]. injection E as <-. auto. }
  split.
  - intros ? [= <-]. split; [done|]. exists p, v. set_solver.
  - intros q w [Hq|Hq]%elem_of_app Hw.
    + destruct (Ha q w Hq Hw) as (old & Ho & Hr). exists sub. destruct Hcur; simplify_eq. done.
    + apply list_elem_of_singleton in Hq as ->. destruct (answers_inv _ _ _ _ _ Hp Hw) as [_ ->]. by exists sub.
Qed.

Lemma subscribed_other id payloads ack p :
  subscribed id payloads ack -> (forall v, ~ answers_request id p v) ->
  subscribed id (payloads ++ [p]) ack.
Proof.
  intros [Hs Ha] Hp. split.
  - intros sub Hsub. destruct (Hs _ Hsub) as (? & q & v & ? & ?). split; [done|]. exists q, v. set_solver.
  - intros q w [Hq|Hq]%elem_of_app Hw; [by eapply Ha|].
    apply list_elem_of_singleton in Hq as ->. by destruct (Hp w).
Qed.

(** What the payloads read so far have established. *)
Record acknowledged (payloads : list (list Z)) (a : Acknowledged) : Prop := {
  acked_logs : subscribed 1 payloads (ack_logs a);
  acked_heads : subscribed 2 payloads (ack_heads a);
  acked_chain : ack_chain a = true -> exists p v raw,
    p ∈ payloads /\ answers_request 3 p v /\ result_text v = Some raw
    /\ u64_from_str raw = Some expected_chain_id;
  acked_buffered : ack_buffered a = List.filter is_notification payloads;
  acked_count : Z.of_nat (length (ack_buffered a)) <= Z.max 0 prefetch_capacity;
  acked_sum : ack_bytes a = payload_bytes (ack_buffered a);
  acked_bytes : payload_bytes (ack_buffered a) <= Z.max 0 max_prefetch_bytes
}.

Lemma filter_notification_answer id p v payloads :
  answers_request id p v -> existsb (Z.eqb id) [1; 2; 3] = true ->
  List.filter is_notification (payloads ++ [p]) = List.filter is_notification payloads.
Proof.
  intros Hp Hid. rewrite List.filter_app. cbn [List.filter].
  by rewrite (is_notification_answer _ _ _ Hp), Hid, app_nil_r.
Qed.

Lemma validate_chain_ok v :
  validate_chain_id_response v expected_chain_id = Ok tt ->
  exists raw, result_text v = Some raw /\ u64_from_str raw = Some expected_chain_id.
Proof.
  unfold validate_chain_id_response. intros (raw & Hr%ok_or_ok & E)%bind_ok.
  apply bind_ok in E as (n & Hn%ok_or_ok & E).
  destruct (Z.eqb_spec n expected_chain_id) as [->|]; [|done]. by exists raw.
Qed.

Lemma push_prefetched_ok buffered bytes p buffered' bytes' :
  bytes = payload_bytes buffered -> payload_bytes buffered <= Z.max 0 max_prefetch_bytes ->
  push_prefetched buffered bytes p prefetch_capacity max_prefetch_bytes = Ok (buffered', bytes') ->
  buffered' = buffered ++ [p] /\ bytes' = payload_bytes buffered'
  /\ Z.of_nat (length buffered') <= Z.max 0 prefetch_capacity
  /\ payload_bytes buffered' <= Z.max 0 max_prefetch_bytes.
Proof.
  intros -> Hle. unfold push_prefetched, uint_saturating_sub.
  destruct (Z.leb_spec prefetch_capacity (Z.of_nat (length buffered))); [done|]. cbn [orb].
  destruct (Z.ltb_spec (Z.max 0 (max_prefetch_bytes - payload_bytes buffered)) (Z.of_nat (length p))) as [|Hb];
    [done|]. intros [= <- <-].
  assert (payload_bytes [p] = Z.of_nat (length p)) as Hone by (unfold payload_bytes; cbn [foldr]; lia).
  rewrite payload_bytes_app, length_app, Hone. cbn [length]. split_and!; lia || done.
Qed.

Lemma acknowledge_step payloads a p a' :
  acknowledged payloads a ->
  acknowledge expected_chain_id prefetch_capacity max_prefetch_bytes p a = Ok a' ->
  acknowledged (payloads ++ [p]) a'.
Proof.
  intros [Hl Hh Hc Hb Hn Hs Hy]. unfold acknowledge. intros (v & Hv%map_err_ok & E)%bind_ok.
  destruct (value_get "error" v) eqn:Herr; [done|]. apply bind_ok in E as (id & Hid & E).
  assert (forall n w, answers_request n p w -> id = Some n /\ w = v) as Hinv.
  { intros n w (E1 & _ & E2). rewrite Hv in E1. injection E1 as <-. rewrite Hid in E2. by injection E2 as <-. }
  assert (ack_chain a = true -> exists q w raw, q ∈ payloads ++ [p] /\ answers_request 3 q w
            /\ result_text w = Some raw /\ u64_from_str raw = Some expected_chain_id) as Hc'.
  { intros Ht. destruct (Hc Ht) as (q & w & raw & ? & ?). exists q, w, raw. set_solver. }
  case_bool_decide as H1; [|case_bool_decide as H2; [|case_bool_decide as H3]]; subst; inv_bind; subst.
  - assert (answers_request 1 p v) as Hp by done.
    split; cbn [ack_logs ack_heads ack_chain ack_buffered ack_bytes]; [..|done|done|done].
    + by eapply record_ack_step.
    + apply subscribed_other; [done|]. by intros w [? _]%Hinv.
    + done.
    + by rewrite (filter_notification_answer _ _ _ _ Hp).
  - assert (answers_request 2 p v) as Hp by done.
    split; cbn [ack_logs ack_heads ack_chain ack_buffered ack_bytes]; [..|done|done|done].
    + apply subscribed_other; [done|]. by intros w [? _]%Hinv.
    + by eapply record_ack_step.
    + done.
    + by rewrite (filter_notification_answer _ _ _ _ Hp).
  - assert (answers_request 3 p v) as Hp by done.
    split; cbn [ack_logs ack_heads ack_chain ack_buffered ack_bytes]; [..|done|done|done].
    + apply subscribed_other; [done|]. by intros w [? _]%Hinv.
    + apply subscribed_other; [done|]. by intros w [? _]%Hinv.
    + intros _. match goal with H : validate_chain_id_response _ _ = Ok ?u |- _ => destruct u;
        apply validate_chain_ok in H as (raw & ? & ?) end. exists p, v, raw. set_solver.
    + by rewrite (filter_notification_answer _ _ _ _ Hp).
  - destruct x as [buffered bytes]. injection E as <-.
    match goal with H : push_prefetched _ _ _ _ _ = _ |- _ =>
      apply push_prefetched_ok in H as (-> & -> & ? & ?); [|done..] end.
    split; cbn [ack_logs ack_heads ack_chain ack_buffered ack_bytes]; [..|done|done|done].
    + apply subscribed_other; [done|]. intros w [? _]%Hinv. congruence.
    + apply subscribed_other; [done|]. intros w [? _]%Hinv. congruence.
    + done.
    + assert (is_notification p = true) as Hp.
      { unfold is_notification. rewrite Hv, Hid. destruct id as [n|]; [|done]. cbn [existsb].
        destruct (Z.eqb_spec n 1), (Z.eqb_spec n 2), (Z.eqb_spec n 3); simplify_eq; done. }
      rewrite List.filter_app, Hb. cbn [List.filter]. by rewrite Hp.
Qed.

(** The payloads of messages that were all read without an error. *)
Fixpoint payloads_of (messages : list Received) : result SourceError (list (list Z)) :=
  match messages with
  | [] => Ok []
  | (message, sent) :: messages =>
      message ← map_err SourceUnavailable message;
      payload ← websocket_payload message sent;
      rest ← payloads_of messages;
      Ok (match payload with Some payload => payload :: rest | None => rest end)
  end.

Lemma read_acknowledgements_ok incoming a payloads est :
  acknowledged payloads a ->
  read_acknowledgements expected_chain_id prefetch_capacity max_prefetch_bytes incoming a = Ok est ->
  exists read more a', incoming = read ++ socket est /\ payloads_of read = Ok more
    /\ acknowledged (payloads ++ more) a' /\ ack_logs a' = Some (logs_subscription est)
    /\ ack_heads a' = Some (heads_subscription est) /\ ack_chain a' = true
    /\ buffered est = ack_buffered a'.
Proof.
  revert a payloads. induction incoming as [|[message sent] incoming IH]; intros a payloads Ha E;
    cbn [read_acknowledgements] in E.
  - destruct (ack_logs a) eqn:El, (ack_heads a) eqn:Eh, (ack_chain a) eqn:Ec; try discriminate E.
    injection E as <-. exists [], [], a. rewrite (app_nil_r payloads). cbn.
    split_and!; done || congruence.
  - assert ((ack_logs a <> None /\ ack_heads a <> None /\ ack_chain a = true /\
             est = {| socket := (message, sent) :: incoming; logs_subscription := default "" (ack_logs a);
                      heads_subscription := default "" (ack_heads a); buffered := ack_buffered a |})
      \/ (m ← map_err (fun error => SourceUnavailable ("RPC WebSocket handshake failed: " +:+ error)) message;
          payload ← websocket_payload m sent;
          match payload with
          | None => read_acknowledgements expected_chain_id prefetch_capacity max_prefetch_bytes incoming a
          | Some payload =>
              a ← acknowledge expected_chain_id prefetch_capacity max_prefetch_bytes payload a;
              read_acknowledgements expected_chain_id prefetch_capacity max_prefetch_bytes incoming a
          end) = Ok est) as [(Hl & Hh & Hc & ->)|E'].
    { destruct (ack_logs a), (ack_heads a), (ack_chain a); auto. injection E as <-. left. done. }
    + exists [], [], a. rewrite (app_nil_r payloads). cbn [socket logs_subscription heads_subscription buffered].
      destruct (ack_logs a), (ack_heads a); done.
    + clear E. apply bind_ok in E' as (m & Hm%map_err_ok & E). apply bind_ok in E as (payload & Hp & E).
      destruct payload as [payload|].
      * apply bind_ok in E as (a1 & Hstep & E). apply (IH _ (payloads ++ [payload])) in E;
          [|by eapply acknowledge_step].
        destruct E as (read & more & a' & -> & Hread & Ha' & ?).
        exists ((message, sent) :: read), (payload :: more), a'. rewrite <-app_assoc in Ha'.
        split_and!; try done; try naive_solver. cbn [payloads_of]. subst message. bsimpl.
        rewrite Hp. bsimpl. by rewrite Hread.
      * apply (IH _ payloads) in E; [|done].
        destruct E as (read & more & a' & -> & Hread & Ha' & ?).
        exists ((message, sent) :: read), more, a'.
        split_and!; try done; try naive_solver. cbn [payloads_of]. subst message. bsimpl.
        rewrite Hp. bsimpl. by rewrite Hread.
Qed.

End Handshake.

(** ** Rounds of the stream *)

Abbreviation item := (result SourceError ChainUpdate) (only parsing).

(** The code falls through or starts the next round with the invariant, ends the
    stream with what is known of a closed stream, and never panics. *)
Definition kept {A} (Inv : list item -> StreamState -> Prop) (Done : list item -> Prop)
    (out ys : list item) (r : flow A) (s : StreamState * Session) : Prop :=
  match r with
  | Through _ | NextRound => Inv (out ++ ys) s.1
  | Ended => Done (out ++ ys)
  | Panicked => False
  end.

(** What a stream ends with: an error, a gap, or a retracted log and a gap. *)
Definition is_failure (i : item) : Prop :=
  match i with
  | Err _ | Ok (Gap _ _ _) => True
  | _ => False
  end.

Lemma spec_stream_state (s : StreamState * Session) (Q : list item -> flow StreamState -> _ -> Prop) :
  Q [] (Through s.1) s -> gen_spec stream_state s Q.
Proof. by eexists _, _, _. Qed.

Lemma spec_set_state f (s : StreamState * Session) (Q : list item -> flow unit -> _ -> Prop) :
  Q [] (Through tt) (f s.1, s.2) -> gen_spec (set_state f) s Q.
Proof. by eexists _, _, _. Qed.

Lemma spec_yield_updates us (s : StreamState * Session) (Q : list item -> flow unit -> _ -> Prop) :
  Q (Ok <$> us) (Through tt) s -> gen_spec (yield_updates us) s Q.
Proof. by eexists _, _, _. Qed.

Lemma spec_yield_error {A} e (s : StreamState * Session) (Q : list item -> flow A -> _ -> Prop) :
  Q [Err e] Ended s -> gen_spec (yield_error e) s Q.
Proof. by eexists _, _, _. Qed.

Lemma spec_yield_gap {A} cap c reason (s : StreamState * Session) (Q : list item -> flow A -> _ -> Prop) :
  Q [Ok (gap_update cap c reason)] Ended s -> gen_spec (yield_gap cap c reason) s Q.
Proof. by eexists _, _, _. Qed.

Lemma spec_await_session {E A} (m : proc Session E A) (s : StreamState * Session)
    (Q : list item -> flow (result E A) -> _ -> Prop) :
  returns m -> (forall r t, m s.2 = Some (r, t) -> Q [] (Through r) (s.1, t)) ->
  gen_spec (await m) s Q.
Proof. intros Hm HQ. by apply Generator.spec_await. Qed.

Lemma spec_on_reorder {A} (m : method CursorReorderBuffer SourceError A) (s : StreamState * Session)
    (Q : list item -> flow (result SourceError A) -> _ -> Prop) :
  (forall r b, m (reorder s.1) = (r, b) -> Q [] (Through r) (set_reorder b s.1, s.2)) ->
  gen_spec (on_reorder m) s Q.
Proof.
  intros HQ. destruct (m (reorder s.1)) as [r b] eqn:E. unfold gen_spec, on_reorder, await_on, call.
  rewrite E. eexists _, _, _. split; [reflexivity|]. by apply HQ.
Qed.

(** Run the stream's code one statement at a time. *)
Ltac sstep :=
  match goal with
  | |- gen_spec (yield_error _) _ _ => apply spec_yield_error
  | |- gen_spec (yield_gap _ _ _) _ _ => apply spec_yield_gap
  | |- gen_spec (mbind _ stream_state) _ _ => apply spec_bind, spec_stream_state
  | |- gen_spec (mbind _ (set_state _)) _ _ => apply spec_bind, spec_set_state
  | |- gen_spec (mbind _ (yield_updates _)) _ _ => apply spec_bind, spec_yield_updates
  | |- gen_spec (mbind _ (on_reorder _)) _ _ => apply spec_bind, spec_on_reorder
  | |- gen_spec (set_state _) _ _ => apply spec_set_state
  | |- gen_spec (yield_updates _) _ _ => apply spec_yield_updates
  | _ => gstep
  end; cbv beta iota; rewrite ?app_nil_l; cbn [fst snd].

Section Stream.
Context `{WsJson, Http, MemLayout, !Deserialize Z, !Deserialize Value, !Deserialize (list Value)}.
Context (u64_from_str_ok : string -> bool) (string_capacity : string -> Z).
Context (size_of_open_head : Z).
Context (self : EvmRpcSource) (contract_filter : ContractFilter).
Context (logs_id heads_id : string).

(** Frame, JSON and protocol errors only ever end the stream, so an invariant is
    kept by a round when the three handlers keep it. *)
Lemma spec_round (Inv : list item -> StreamState -> Prop) (Done : list item -> Prop) out r s :
  Inv out s.1 ->
  (forall i, is_failure i -> Done (out ++ [i])) ->
  (holds_standard_logs_until_successor (config self) = true -> forall now,
     gen_spec (on_timer u64_from_str_ok self now) s (kept Inv Done out)) ->
  (forall v, gen_spec (on_log string_capacity self contract_filter v) s (kept Inv Done out)) ->
  (forall v now, gen_spec (on_head u64_from_str_ok string_capacity size_of_open_head self
                             contract_filter v now) s (kept Inv Done out)) ->
  gen_spec (stream_round u64_from_str_ok string_capacity size_of_open_head self contract_filter
              logs_id heads_id r) s (kept Inv Done out).
Proof.
  intros HI Hfail Htimer Hlog Hhead.
  assert (forall payload now, gen_spec (on_payload u64_from_str_ok string_capacity size_of_open_head
            self contract_filter logs_id heads_id payload now) s (kept Inv Done out)) as Hpayload.
  { intros payload now. unfold on_payload, on_notification. sstep.
    repeat first
      [ by apply Hlog | by apply Hhead
      | progress (sstep; unfold kept; try (by rewrite app_nil_r); try by apply Hfail)
      | case_match ]. }
  unfold stream_round. destruct (occurrence r) as [payload| |socket_item]; [apply Hpayload| |].
  - sstep. destruct (holds_standard_logs_until_successor (config self)); cbn [andb];
      [|sstep; cbn; by rewrite app_nil_r].
    destruct (is_some _); [by apply Htimer|]. sstep. cbn. by rewrite app_nil_r.
  - apply spec_bind. unfold next_payload. sstep.
    repeat first
      [ by apply Hpayload
      | progress (sstep; unfold kept; try (by rewrite app_nil_r); try by apply Hfail)
      | case_match ].
Qed.

End Stream.

(** ** Finalized delivery *)

Definition logs_of (items : list item) : list ContractLog :=
  omap (fun i => match i with Ok (Log log) => Some log | _ => None end) items.

Lemma logs_of_app l k : logs_of (l ++ k) = logs_of l ++ logs_of k.
Proof. apply omap_app. Qed.

Lemma logs_of_logs logs : logs_of (Ok <$> (Log <$> logs)) = logs.
Proof. induction logs as [|log logs IH]; [done|]. cbn. by f_equal. Qed.

(** What finalized mode may yield. *)
Definition finalized_item (i : item) : Prop :=
  match i with
  | Ok (Log log) => commitment (log_cursor log) = Finalized /\ log_removed log = false
  | Ok (Head head) => commitment (br_cursor head) = Finalized
  | Ok (Gap _ _ _) | Err _ => True
  | _ => False
  end.

(** The items delivered when the history is complete through block [n]: every log
    after the start through [n], and no head ahead of its logs. *)
Record delivered (history : list ContractLog) (start n : Z) (items : list item) : Prop := {
  delivered_logs : logs_of items = logs_in (start + 1, n) history;
  delivered_items : Forall finalized_item items;
  delivered_heads : forall before head after, items = before ++ Ok (Head head) :: after ->
    logs_of before = logs_in (start + 1, block_number (br_cursor head)) history
}.

Lemma delivered_start history w : delivered history w w [].
Proof.
  split; [|done|by intros [|] ? ?]. symmetry. apply list_filter_nil, Forall_forall. cbn. lia.
Qed.

Lemma delivered_snoc_other history start n items i :
  delivered history start n items -> is_failure i -> delivered history start n (items ++ [i]).
Proof.
  intros [Hl Hi Hh] Hf. split.
  - rewrite logs_of_app, Hl. destruct i as [[]|]; try done; by rewrite app_nil_r.
  - apply Forall_app. split; [done|]. apply Forall_singleton. by destruct i as [[]|].
  - intros before head after E. destruct after as [|x after] using rev_ind.
    + apply app_inj_tail in E as [_ ->]. done.
    + rewrite app_comm_cons, app_assoc in E. apply app_inj_tail in E as [-> _]. by eapply Hh.
Qed.

Lemma delivered_snoc_head history start n items head :
  delivered history start n items -> block_number (br_cursor head) = n ->
  commitment (br_cursor head) = Finalized ->
  delivered history start n (items ++ [Ok (Head head)]).
Proof.
  intros [Hl Hi Hh] Hn Hc. split.
  - by rewrite logs_of_app, Hl, app_nil_r.
  - apply Forall_app. split; [done|]. by apply Forall_singleton.
  - intros before head' after E. destruct after as [|x after] using rev_ind.
    + apply app_inj_tail in E as [<- [= ->]]. by rewrite Hn.
    + rewrite app_comm_cons, app_assoc in E. apply app_inj_tail in E as [-> _]. by eapply Hh.
Qed.

Lemma delivered_app_logs history start n m items logs :
  in_order history -> start <= n -> n <= m ->
  delivered history start n items -> logs = logs_in (n + 1, m) history ->
  Forall (fun log => commitment (log_cursor log) = Finalized /\ log_removed log = false) logs ->
  delivered history start m (items ++ (Ok <$> (Log <$> logs))).
Proof.
  intros Hs Hsn Hnm [Hl Hi Hh] -> Hf. split.
  - rewrite logs_of_app, logs_of_logs, Hl. rewrite (logs_in_split (start + 1) n m); done || lia.
  - apply Forall_app. split; [done|]. by rewrite !Forall_fmap.
  - intros before head after E.
    assert (exists before', items = before' ++ Ok (Head head) :: drop (S (length before)) items
              /\ before = before') as (b & Eb & ->).
    { clear - E. revert before E. induction items as [|i items IH]; intros before E.
      - exfalso. cbn in E. revert before E. generalize (logs_in (n + 1, m) history).
        intros logs. induction logs as [|log logs IH]; intros [|] E; try done.
        injection E as _ E. by eapply IH.
      - destruct before as [|j before]; cbn in E; injection E as -> E.
        + by exists [].
        + destruct (IH _ E) as (b & E' & ->). exists (j :: b). split; [|done]. cbn. by f_equal. }
    by eapply Hh.
Qed.

Lemma validate_finalized_page_ok logs page out :
  validate_finalized_page logs page = Ok out ->
  out = sort_logs logs
  /\ Forall (fun log => commitment (log_cursor log) = Finalized /\ log_removed log = false) logs.
Proof.
  unfold validate_finalized_page. destruct (existsb _ logs) eqn:E; [done|]. intros [= <-].
  split; [done|]. apply Forall_forall. intros log Hlog.
  rewrite <-not_true_iff_false, existsb_exists in E. rewrite list_elem_of_In in Hlog.
  destruct (log_removed log) eqn:Er; [destruct E; exists log; by rewrite Er|].
  destruct (decide (commitment (log_cursor log) = Finalized)) as [|Hc]; [done|].
  destruct E. exists log. split; [done|]. by rewrite Er, bool_decide_eq_false_2.
Qed.

Lemma validate_finalized_advance_ok previous next b :
  validate_finalized_advance previous next = Ok b ->
  commitment next = Finalized /\ block_number previous <= block_number next
  /\ b = (block_number previous <? block_number next).
Proof.
  unfold validate_finalized_advance. case_bool_decide; [|done]. cbn [negb].
  destruct (Z.ltb_spec (block_number next) (block_number previous)); [done|]. cbn [orb].
  case_match; [done|]. by intros [= <-].
Qed.

Lemma run_returns {S E A} (m : proc S E A) s : returns m -> exists r t, m s = Some (r, t).
Proof. intros Hm. destruct (Hm s) as [[r t] ->]. by eexists _, _. Qed.

Lemma returns_ensure `{Json, Http, !Deserialize Z} backend : returns (ensure_chain_id backend).
Proof.
  intros s. destruct (ensure_chain_id_spec backend s) as (r & s' & -> & _). by eexists.
Qed.
#[export] Hint Resolve returns_ensure : rpc.

Section Finalized.
Context `{WsJson, Http, MemLayout, !Deserialize Z, !Deserialize Value, !Deserialize (list Value)}.
Context `{!JsonLaws}.
Context (u64_from_str_ok : string -> bool) (string_capacity : string -> Z).
Context (self : EvmRpcSource) (contract_filter : ContractFilter).
Context (history : list ContractLog) (start : Z).

Notation backend := (http self).

(** The requests of the whole chain for the contract's logs. *)
Definition whole_chain : BackfillRequest :=
  {| from_block := 0; to_block := U64_MAX; filter := contract_filter |}.

Definition honest_node : Prop :=
  honest (backend_rpc backend) whole_chain (backend_chain_id backend) Finalized history.

Hypothesis source_finalized : delivery_mode (config self) = FinalizedDelivery.
Hypothesis source_tag : snapshot_tag backend = "finalized".
Hypothesis page_limit : 0 < backfill_page_blocks (config self).
Hypothesis client_limits_ok : limits_ok (backend_rpc backend).
Hypothesis history_order : in_order history.
Hypothesis node_honest : honest_node.

Lemma honest_range from to :
  0 <= from -> to < 2 ^ 64 ->
  honest (backend_rpc backend) {| from_block := from; to_block := to; filter := contract_filter |}
    (backend_chain_id backend) Finalized history.
Proof.
  intros Hf Ht range s1 values s2 Hp ? ? E. cbn [from_block to_block] in *.
  eapply (node_honest range s1 values s2 Hp); [cbn; lia|cbn; unfold uint_max; lia|exact E].
Qed.

Lemma backfill_page from to s :
  uint 64 from -> uint 64 to ->
  exists r s', backfill backend {| from_block := from; to_block := to; filter := contract_filter |} s
      = Some (r, s')
    /\ forall logs, r = Ok logs -> logs = logs_in (from, to) history.
Proof.
  intros Hf Ht. unfold backfill, mbind at 1, proc_bind at 1.
  destruct (run_returns (ensure_chain_id backend) s) as (r & s1 & ->); [auto with rpc|].
  destruct r as [[]|e]; [|by eexists _, _].
  assert (snapshot_commitment (snapshot_tag backend) = Finalized) as ->
    by (rewrite source_tag; reflexivity).
  unfold map_perr. set (req := {| from_block := from; to_block := to; filter := contract_filter |}).
  destruct (get_logs_spec (backend_rpc backend) req (backend_chain_id backend) Finalized s1)
    as (r & s2 & E & _); [done..|].
  rewrite E. cbn [mbind option_bind]. eexists _, _. split; [done|].
  intros logs Hl%map_err_ok. subst r.
  apply get_logs_exact with (history := history) in E; [by destruct E|done..|].
  apply honest_range; [apply Hf|apply Ht].
Qed.

Lemma sort_logs_in range : sort_logs (logs_in range history) = logs_in range history.
Proof. exact (sort_by_key_id order_ltb _ _ (logs_in_order _ _ history_order)). Qed.

(** The catch-up pages deliver their blocks in order, all of them unless the
    stream ends. *)
Lemma spec_publish_pages pages from to out s (Q : list item -> flow unit -> StreamState * Session -> Prop) :
  uint 64 to -> 0 <= from -> start <= from - 1 -> from - 1 <= to ->
  (pages ≫= blocks_of) = blocks_of (from, to) ->
  Forall (page_ok (backfill_page_blocks (config self))) pages ->
  delivered history start (from - 1) out ->
  (forall ys t, delivered history start to (out ++ ys) -> Q ys (Through tt) (s.1, t)) ->
  (forall ys t n, delivered history start n (out ++ ys) -> Q ys Ended (s.1, t)) ->
  gen_spec (publish_pages self contract_filter pages) s Q.
Proof.
  intros Hto. revert from out s Q.
  induction pages as [|[a b] pages IH]; intros from out s Q Hfrom Hstart Hle Hb Hp Hd Hok Hend; cbn [publish_pages].
  - apply spec_ret. specialize (Hok [] s.2). destruct s. apply Hok. rewrite app_nil_r.
    assert (to = from - 1) as ->; [|done]. apply (f_equal length) in Hb. unfold blocks_of in Hb.
    cbn [mbind list_bind fst snd] in Hb. rewrite length_seqZ in Hb. cbn [length] in Hb. lia.
  - apply Forall_cons in Hp as [Hr Hp]. pose proof Hr as (Hab & _ & Ha & Hbu). cbn [fst snd] in *.
    rewrite bind_cons in Hb. destruct (blocks_of_prefix _ _ _ _ _ Hab Hb) as (-> & Hbt & Hrest).
    assert (uint 64 from) as Hu by (unfold uint; lia). assert (uint 64 b) as Hub by (unfold uint; lia).
    apply spec_bind, spec_await_session.
    { intros t. destruct (backfill_page from b t Hu Hub) as (r & t' & E & _). rewrite E. by eexists. }
    intros r t E. destruct (backfill_page from b s.2 Hu Hub) as (r1 & t1 & E1 & Hlogs).
    rewrite E in E1. injection E1 as <- <-. cbn [app].
    destruct r as [logs|e].
    2: { apply spec_yield_error. cbn. apply (Hend _ _ (from - 1)). by apply delivered_snoc_other. }
    rewrite (Hlogs _ eq_refl). destruct (validate_finalized_page _ _) as [sorted|e] eqn:Ev.
    2: { apply spec_yield_error. apply (Hend _ _ (from - 1)). by apply delivered_snoc_other. }
    apply validate_finalized_page_ok in Ev as [-> Hfin]. rewrite sort_logs_in.
    assert (delivered history start b (out ++ (Ok <$> (Log <$> logs_in (from, b) history)))) as Hd'.
    { apply (delivered_app_logs _ _ (from - 1)); try done; try lia.
      by replace (from - 1 + 1) with from by lia. }
    apply spec_bind, spec_yield_updates. cbn [app fst].
    apply (IH (b + 1) (out ++ (Ok <$> (Log <$> logs_in (from, b) history)))); try done; try lia.
    + by replace (b + 1 - 1) with b by lia.
    + intros ys t' Hys. apply Hok. by rewrite app_assoc.
    + intros ys t' n Hys. apply (Hend _ _ n). by rewrite app_assoc.
Qed.

Lemma snapshot_head_ok s head s' :
  snapshot_block_ref u64_from_str_ok backend (backend_network backend) s = Some (Ok head, s') ->
  commitment (br_cursor head) = Finalized /\ uint 64 (block_number (br_cursor head)).
Proof.
  assert (snapshot_commitment (snapshot_tag backend) = Finalized) as Hc
    by (rewrite source_tag; reflexivity).
  unfold snapshot_block_ref, block_ref_at_tag. rewrite bool_decide_eq_true_2 by done. cbn [negb].
  rewrite Hc. intros E. apply proc_bind_ok in E as ([] & s1 & _ & E). apply map_perr_ok in E.
  unfold block_ref, block_ref_with_execution_context in E.
  case_bool_decide; inv_bind;
    match goal with H : normalize_block_ref _ _ _ _ = _ |- _ => apply normalize_block_ref_ok in H end;
    naive_solver.
Qed.

Lemma returns_snapshot_head :
  returns (snapshot_block_ref u64_from_str_ok backend (backend_network backend)).
Proof. unfold snapshot_block_ref, block_ref_at_tag, block_ref, block_ref_with_execution_context. runs. Qed.

(** The stream's state in finalized mode: complete through the watermark. *)
Definition caught_up (out : list item) (s : StreamState) : Prop :=
  exists w, finalized_watermark s = Some w /\ uint 64 (block_number w) /\ start <= block_number w
    /\ delivered history start (block_number w) out.

Definition closed_finalized (out : list item) : Prop := exists n, delivered history start n out.

Lemma caught_up_failure out s i :
  caught_up out s -> is_failure i -> closed_finalized (out ++ [i]).
Proof. intros (w & _ & _ & _ & Hd) Hi. exists (block_number w). by apply delivered_snoc_other. Qed.

Lemma spec_on_finalized_head head out s :
  0 <= start -> caught_up out s.1 ->
  gen_spec (on_finalized_head u64_from_str_ok self contract_filter head) s
    (kept caught_up closed_finalized out).
Proof.
  intros Hstart (w & Hw & Hu & Hle & Hd). unfold on_finalized_head. sstep.
  apply spec_bind, spec_await_session; [apply returns_snapshot_head|]. intros r t Et. cbn [app fst snd] in *.
  assert (caught_up out (set_last_head head s.1)) as Hcu by by exists w.
  destruct r as [fin|e]; [|sstep; by eapply caught_up_failure].
  apply snapshot_head_ok in Et as [Hc Huf]. sstep. cbn [set_last_head finalized_watermark]. rewrite Hw.
  destruct (validate_finalized_advance _ _) as [adv|e] eqn:Ev; [|sstep; by eapply caught_up_failure].
  apply validate_finalized_advance_ok in Ev as (_ & Hadv & ->).
  destruct (Z.ltb_spec (block_number w) (block_number (br_cursor fin))) as [Hlt|Hge].
  - assert (uint_saturating_add 64 (block_number w) 1 = block_number w + 1) as ->
      by (unfold uint_saturating_add, uint_max, uint in *; lia).
    destruct (backfill_pages_spec (block_number w + 1) (block_number (br_cursor fin))
                (backfill_page_blocks (config self))) as (pages & -> & Hb & Hp);
      [unfold uint in *; lia|done|done|].
    apply spec_bind. unfold uint in Hu.
    apply (spec_publish_pages pages (block_number w + 1) (block_number (br_cursor fin)) out);
      try done; try lia.
    + by replace (block_number w + 1 - 1) with (block_number w) by lia.
    + intros ys t' Hys. cbv beta iota. do 3 sstep. unfold kept. cbn [fst].
      exists (br_cursor fin). split_and!; [done|done|lia|].
      rewrite app_nil_r. cbn [fmap list_fmap]. rewrite app_assoc. by apply delivered_snoc_head.
    + intros ys t' n Hys. by exists n.
  - sstep. sstep. unfold kept. exists w. split_and!; try done. rewrite app_nil_r. cbn [fmap list_fmap].
    apply delivered_snoc_head; [done|lia|done].
Qed.

Lemma spec_finalized_round size logs_id heads_id r out s :
  0 <= start -> caught_up out s.1 ->
  gen_spec (stream_round u64_from_str_ok string_capacity size self contract_filter logs_id heads_id r) s
    (kept caught_up closed_finalized out).
Proof.
  intros Hstart Hcu. apply spec_round; [done|intros i Hi; by eapply caught_up_failure|..].
  - unfold holds_standard_logs_until_successor. rewrite source_finalized. done.
  - intros v. unfold on_log. rewrite bool_decide_eq_true_2 by done. sstep. unfold kept. by rewrite app_nil_r.
  - intros v now. unfold on_head. destruct (parse_ws_head_with_execution_context _ _ _) as [head|e];
      [|sstep; by eapply caught_up_failure].
    sstep. case_match; [sstep; unfold kept; by rewrite app_nil_r|].
    rewrite bool_decide_eq_true_2 by done. by apply spec_on_finalized_head.
Qed.

End Finalized.

(** ** Block-ordered delivery of standard logs *)

(** A published log: of the head's block, with its execution context, or, in the
    first block after the start, of an earlier one. *)
Definition log_of_block (first : bool) (head : BlockRef) (log : ContractLog) : Prop :=
  let c := log_cursor log in let h := br_cursor head in
  commitment c = Canonical
  /\ (block_number c = block_number h /\ block_hash c = block_hash h
      /\ execution_block_number c = execution_block_number h
      \/ first = true /\ block_number c < block_number h /\ block_hash c <> None).

Record batch_ok (first : bool) (logs : list ContractLog) (head : BlockRef) : Prop := {
  batch_logs : Forall (log_of_block first head) logs;
  batch_sorted : StronglySorted order_lt ((fun log => event_order (log_cursor log)) <$> logs);
  batch_hash : block_hash (br_cursor head) <> None;
  batch_commitment : commitment (br_cursor head) = Canonical
}.

Definition batch_items (logs : list ContractLog) (head : BlockRef) : list item :=
  Ok <$> ((Log <$> logs) ++ [Head head]).

(** Streams of complete blocks at consecutive heights, restarted by reorgs; the
    index is the last height published since the start or the last reorg. *)
Inductive published : option Z -> list item -> Prop :=
| published_start : published None []
| published_block last out logs head :
    published last out ->
    (forall n, last = Some n -> block_number (br_cursor head) = n + 1) ->
    batch_ok (bool_decide (last = None)) logs head ->
    published (Some (block_number (br_cursor head))) (out ++ batch_items logs head)
| published_reorg last out old new :
    published last out -> published None (out ++ [Ok (Reorg old new)]).

(** What may follow when the stream is closed. *)
Definition closing (items : list item) : Prop :=
  match items with
  | [] => True
  | [i] => is_failure i
  | [Ok (Log log); i] => log_removed log = true /\ is_failure i
  | _ => False
  end.

Definition closed_published (out : list item) : Prop :=
  exists last blocks tail, out = blocks ++ tail /\ published last blocks /\ closing tail.

Lemma closed_failure last out i : published last out -> is_failure i -> closed_published (out ++ [i]).
Proof. intros Hp Hi. exists last, out, [i]. split_and!; [done|done|]. by destruct i as [[]|]. Qed.

(** A head as the stream opens it: block-level, with a stamped sequence. *)
Definition open_head (head : BlockRef) : Prop :=
  let c := br_cursor head in
  transaction_index c = None /\ log_index c = None /\ source_sub_index c = None
  /\ uint 64 (block_number c) /\ exists n, source_sequence c = Some n /\ uint 64 n.

Fixpoint contiguous (from : Z) (heads : list BlockRef) : Prop :=
  match heads with
  | [] => True
  | head :: heads => block_number (br_cursor head) = from /\ contiguous (from + 1) heads
  end.

Lemma contiguous_app from heads more :
  contiguous from (heads ++ more) <->
  contiguous from heads /\ contiguous (from + Z.of_nat (length heads)) more.
Proof.
  revert from. induction heads as [|head heads IH]; intros from; cbn [app contiguous length].
  - rewrite Z.add_0_r. tauto.
  - rewrite IH. replace (from + 1 + Z.of_nat (length heads)) with (from + Z.of_nat (S (length heads))) by lia.
    tauto.
Qed.

Lemma contiguous_unique from heads h h' :
  contiguous from heads -> h ∈ heads -> h' ∈ heads ->
  block_number (br_cursor h) = block_number (br_cursor h') -> h = h'.
Proof.
  assert (forall from heads h, contiguous from heads -> h ∈ heads -> from <= block_number (br_cursor h)) as Hge.
  { clear. intros from heads. revert from. induction heads as [|x heads IH]; intros from h Hc Hh.
    - by apply not_elem_of_nil in Hh.
    - destruct Hc as [<- Hc]. apply elem_of_cons in Hh as [->|Hh]; [lia|]. apply (IH _ h) in Hc; [lia|done]. }
  revert from. induction heads as [|x heads IH]; intros from Hc Hh Hh' E; [by apply not_elem_of_nil in Hh|].
  destruct Hc as [Hx Hc]. apply elem_of_cons in Hh, Hh'.
  destruct Hh as [->|Hh], Hh' as [->|Hh']; [done| | |by eapply IH].
  - apply (Hge _ _ _ Hc) in Hh'. lia.
  - apply (Hge _ _ _ Hc) in Hh. lia.
Qed.

(** The open blocks: heads at consecutive heights from [from], the last of them
    the newest head, and exactly these heads among the pending updates. *)
Record open_blocks `{MemLayout} (from : Z) (s : StreamState) : Prop := {
  open_contiguous : contiguous from ((open_standard_heads s).*2);
  open_shape : Forall open_head ((open_standard_heads s).*2);
  open_last : snd <$> last (open_standard_heads s) = last_head s;
  open_buffer : buffer_ok (reorder s);
  open_pending : Forall (fun e =>
    match e.2 with
    | Head head => head ∈ (open_standard_heads s).*2
    | Log _ => True
    | _ => False
    end) (pending (reorder s));
  open_sequence : uint 64 (stream_sequence s)
}.

Definition in_blocks `{MemLayout} (out : list item) (s : StreamState) : Prop :=
  exists last from, published last out /\ open_blocks from s
    /\ (forall n, last = Some n -> from = n + 1)
    /\ match last_head s with
       | None => last = None /\ first_standard_head_block s = None
       | Some _ => exists first, first_standard_head_block s = Some first
                     /\ first <= from /\ (last = None <-> first = from)
       end.

Lemma head_within_own_block h :
  open_head h -> key_leb (update_key (Head h)) (watermark_key (br_cursor h)) = true.
Proof.
  intros (Ht & Hl & Hi & Hb & n & Hn & Hu). apply block_watermark; [done| |].
  - cbn [update_key]. unfold cursor_key, event_order, coordinates_fit, uint, uint_max in *.
    rewrite Ht, Hl, Hi, Hn. cbn. lia.
  - cbn [update_key]. unfold cursor_key, event_order, key_block. repeat case_match; simplify_eq; lia.
Qed.

Lemma sorted_logs m :
  StronglySorted entry_lt m -> Forall (fun e => e.1 = update_key e.2) m ->
  StronglySorted order_lt ((fun log => event_order (log_cursor log)) <$> omap as_log (m.*2)).
Proof.
  induction 1 as [|[k u] m Hs IH Hlt]; [constructor|]. intros [Hk Hm]%Forall_cons.
  cbn [fst snd fmap list_fmap] in *. cbn [omap list_omap]. destruct u as [|log| | |]; cbn [as_log]; auto.
  cbn [fmap list_fmap]. constructor; [by apply IH|]. apply Forall_forall. intros o Ho.
  apply list_elem_of_fmap in Ho as (log' & -> & Ho). apply list_elem_of_omap in Ho as (u & Hu & Hlog).
  apply list_elem_of_fmap in Hu as ([k' u'] & -> & Hu). rewrite Forall_forall in Hlt, Hm.
  specialize (Hlt _ Hu). specialize (Hm _ Hu). cbn [fst snd] in *. subst k k'.
  destruct u'; try discriminate Hlog. injection Hlog as ->.
  unfold entry_lt, key_lt in Hlt. rewrite key_ltb_spec in Hlt. cbn in Hlt. destruct Hlt as [|[_ ?]]; [done|lia].
Qed.

Section Standard.
Context `{WsJson, Http, MemLayout, !Deserialize Z, !Deserialize Value, !Deserialize (list Value)}.
Context `{!JsonLaws}.
Context (u64_from_str_ok : string -> bool) (string_capacity : string -> Z).
Context (size_of_open_head : Z).
Context (self : EvmRpcSource) (contract_filter : ContractFilter).

(** What the check of the startup logs may change: the execution block of a log
    below the completed head. *)
Definition adjusted (head : BlockRef) (u u' : ChainUpdate) : Prop :=
  match u with
  | Log log =>
      u' = u \/ exists n, block_number (log_cursor log) < block_number (br_cursor head)
                          /\ u' = Log (map_log_cursor (set_execution_block n) log)
  | _ => u' = u
  end.

Lemma adjusted_refl head u : adjusted head u u.
Proof. destruct u; cbn; auto. Qed.

Lemma validate_preceding_loop_ok seen head us s us' s' :
  validate_preceding_loop u64_from_str_ok self seen head us s = Some (Ok us', s') ->
  Forall2 (adjusted head) us us'.
Proof.
  revert seen s us' s'. induction us as [|u us IH]; intros seen s us' s' E; cbn [validate_preceding_loop] in E.
  { by injection E as <- _. }
  destruct u as [|log| | |]; [|destruct (Z.leb_spec (block_number (br_cursor head)) (block_number (log_cursor log)))|..];
    try (apply proc_bind_ok in E as (rest & s1 & Hr & E); injection E as <- _;
         constructor; [apply adjusted_refl|by eapply IH]).
  apply proc_bind_ok in E as ([canonical seen'] & s1 & _ & E). case_bool_decide; [|discriminate E].
  cbn [negb] in E. apply proc_bind_ok in E as (rest & s2 & Hr & E). injection E as <- _.
  constructor; [|by eapply IH]. right. eexists. by split.
Qed.

Lemma returns_validate_preceding us head :
  returns (validate_preceding_startup_logs u64_from_str_ok self us head).
Proof.
  unfold validate_preceding_startup_logs. generalize (∅ : gmap Z ChainCursor) as seen.
  induction us as [|u us IH]; intros seen; cbn [validate_preceding_loop]; [runs|].
  destruct u; runs; try apply IH.
  all: unfold canonical_block, block_cursor, block_cursor_inner, block_cursor_with_execution_context; runs.
Qed.

(** The published form of a batch. *)
Lemma published_batch head allow us us' block :
  Forall (belongs head (default 0 (block_hash (br_cursor head))) allow) us ->
  block_hash (br_cursor head) <> None ->
  StronglySorted order_lt ((fun log => event_order (log_cursor log)) <$> omap as_log us) ->
  Forall2 (adjusted head) ((Log ∘ in_context head <$> omap as_log us) ++ [Head block]) us' ->
  br_cursor block = br_cursor head ->
  exists logs, promote_updates us' Canonical
      = (Log <$> logs) ++ [Head (map_head_cursor (set_commitment Canonical) block)]
    /\ batch_ok allow logs (map_head_cursor (set_commitment Canonical) block).
Proof.
  intros Hb Hh Hs Hadj Hblock.
  apply Forall2_app_inv_l in Hadj as (ls & hs & Hls & Hhs & ->).
  apply Forall2_cons_inv_l in Hhs as (h & hs' & -> & Hnil & ->). apply Forall2_nil_inv_l in Hnil as ->.
  assert (exists logs, promote_updates ls Canonical = Log <$> logs
            /\ (fun log => event_order (log_cursor log)) <$> logs
               = (fun log => event_order (log_cursor log)) <$> omap as_log us
            /\ Forall (log_of_block allow (map_head_cursor (set_commitment Canonical) block)) logs)
    as (logs & Hp & Ho & Hl).
  { clear Hs. revert ls Hls. induction Hb as [|u us Hu Hb IH]; intros ls Hls.
    { apply Forall2_nil_inv_l in Hls as ->. by exists []. }
    cbn [omap list_omap] in Hls |- *. destruct u as [|log| | |]; cbn [as_log] in *; try by apply IH.
    apply Forall2_cons_inv_l in Hls as (u' & ls' & Hu' & Hls & ->).
    destruct (IH _ Hls) as (logs & Hp & Ho & Hf). cbn [compose] in Hu'.
    set (log1 := in_context head log) in *.
    assert (exists log2, u' = Log log2 /\ event_order (log_cursor log2) = event_order (log_cursor log)
              /\ log_of_block allow (map_head_cursor (set_commitment Canonical) block)
                   (map_log_cursor (set_commitment Canonical) log2)) as (log2 & -> & Ho2 & Hb2).
    { assert (event_order (log_cursor log1) = event_order (log_cursor log)) as Ho1
        by (unfold log1, in_context; by case_match).
      assert (block_number (log_cursor log1) = block_number (log_cursor log)
              /\ block_hash (log_cursor log1) = block_hash (log_cursor log)) as [Hn1 Hh1]
        by (unfold log1, in_context; by case_match).
      assert (forall log2, event_order (log_cursor log2) = event_order (log_cursor log) ->
                block_number (log_cursor log2) = block_number (log_cursor log) ->
                block_hash (log_cursor log2) = block_hash (log_cursor log) ->
                (block_number (log_cursor log) = block_number (br_cursor head) ->
                 execution_block_number (log_cursor log2) = execution_block_number (br_cursor head)) ->
                log_of_block allow (map_head_cursor (set_commitment Canonical) block)
                  (map_log_cursor (set_commitment Canonical) log2)) as Hmk.
      { intros log2 _ En Eh Ee. split; [done|]. cbn. rewrite Hblock, En, Eh.
        destruct Hu as [[Hbn Hbh]%in_block_true|(Ha & Hlt & Hne)]; [left|by right].
        split_and!; [done| |by apply Ee]. rewrite Hbh. by destruct (block_hash (br_cursor head)). }
      destruct Hu' as [->|(n & Hlt & ->)].
      - exists log1. split_and!; [done|done|]. apply Hmk; try done. intros E.
        unfold log1, in_context. by rewrite (proj2 (Z.eqb_eq _ _) E).
      - eexists. split_and!; [done|exact Ho1|]. apply Hmk; try done. intros E. lia. }
    exists (map_log_cursor (set_commitment Canonical) log2 :: logs). split_and!.
    - unfold promote_updates in *. rewrite !fmap_cons, Hp. done.
    - rewrite !fmap_cons, Ho. f_equal. by rewrite <-Ho2.
    - by constructor. }
  exists logs. split.
  - unfold promote_updates in *. rewrite fmap_app, Hp. done.
  - split; [done|by rewrite Ho| |done]. cbn. by rewrite Hblock.
Qed.

Hypothesis source_ordered : delivery_mode (config self) = BlockOrdered.
Hypothesis source_logs : logs_kind (config self) = "logs".
Hypothesis source_heads : progressive_heads (config self) = false.

Lemma source_holds : holds_standard_logs_until_successor (config self) = true.
Proof.
  unfold holds_standard_logs_until_successor. rewrite source_logs, bool_decide_eq_true_2 by done. done.
Qed.

Lemma in_blocks_failure out s i : in_blocks out s -> is_failure i -> closed_published (out ++ [i]).
Proof. intros (last & from & Hp & _) Hi. by apply (closed_failure last). Qed.

(** The pending update of a head is the open head at its height. *)
Lemma drained_head from s p q hd at_ block rest :
  open_blocks from s -> open_standard_heads s = (at_, hd) :: rest ->
  pending (reorder s) = p ++ q -> last (omap as_head (p.*2)) = Some block ->
  block_number (br_cursor block) = block_number (br_cursor hd) -> block = hd.
Proof.
  intros [Hc _ _ _ Hp _] Ho Eb Hl Hn. rewrite Ho in *. cbn [fmap list_fmap snd] in *.
  apply (contiguous_unique _ _ _ _ Hc); [|apply list_elem_of_here|done].
  apply last_Some in Hl as (front & Hl).
  assert (block ∈ omap as_head (p.*2)) as Hin by (rewrite Hl; set_solver).
  apply list_elem_of_omap in Hin as (u & Hu & Hh). destruct u; try discriminate Hh. injection Hh as ->.
  apply list_elem_of_fmap in Hu as ([k u] & Eu & Hu). cbn in Eu. subst u. rewrite Eb in Hp.
  rewrite Forall_forall in Hp. exact (Hp (k, Head block) ltac:(set_solver)).
Qed.

Lemma open_newest from s :
  open_blocks from s -> open_standard_heads s <> [] -> exists h, last_head s = Some h.
Proof.
  intros [_ _ <- _ _ _] Hne. destruct (last (open_standard_heads s)) as [[a h]|] eqn:E; [by eexists|].
  by apply last_None in E.
Qed.

(** After the batch only the later heads are pending. *)
Lemma open_after_batch from s p q hd at_ rest :
  open_blocks from s -> open_standard_heads s = (at_, hd) :: rest -> rest <> [] ->
  pending (reorder s) = p ++ q ->
  Forall (fun e => key_lt (watermark_key (br_cursor hd)) e.1) q ->
  open_blocks (from + 1) (set_reorder (set_pending q (charge q) (reorder s)) (set_open_heads rest s)).
Proof.
  intros [Hc Hshape Hl Hok Hp Hs] Ho Hne Eb Hq. rewrite Ho in *. cbn [fmap list_fmap snd] in *.
  destruct Hc as [Hhd Hc]. apply Forall_cons in Hshape as [Hopen Hshape].
  split; cbn [open_standard_heads set_reorder set_open_heads last_head reorder set_pending pending
                stream_sequence]; try done.
  - rewrite <-Hl. by destruct rest.
  - by eapply suffix_ok.
  - destruct Hok as [_ Hk _ _ _ _]. rewrite Eb in Hk, Hp. apply Forall_app in Hk as [_ Hk], Hp as [_ Hp].
    rewrite Forall_forall in *. intros e He. specialize (Hp e He). destruct (e.2) as [h|log| | |] eqn:Eu; try done.
    apply elem_of_cons in Hp as [->|]; [|done]. exfalso. specialize (Hq e He). specialize (Hk e He).
    rewrite Hk, Eu in Hq. pose proof (head_within_own_block _ Hopen) as Hle. unfold key_leb in Hle.
    apply negb_true_iff in Hle. unfold key_lt in Hq. congruence.
Qed.

Lemma spec_timer_blocks out now s :
  in_blocks out s.1 ->
  gen_spec (on_timer u64_from_str_ok self now) s (kept in_blocks closed_published out).
Proof.
  intros Hin. pose proof Hin as (lastp & from & Hpub & Hopen & Hfrom & Hfirst).
  unfold on_timer. sstep. unfold take_ready_standard_head.
  destruct (standard_head_deadline (open_standard_heads s.1)) as [deadline|] eqn:Ed;
    [|sstep; unfold kept; by rewrite app_nil_r].
  destruct (now <? deadline); [sstep; unfold kept; by rewrite app_nil_r|].
  destruct (open_standard_heads s.1) as [|[at_ hd] rest] eqn:Ho; [done|].
  assert (rest <> []) as Hne by (intros ->; discriminate Ed).
  destruct (open_newest _ _ Hopen) as [newest Hnewest]; [by rewrite Ho|]. sstep. sstep.
  intros r b E. cbn [set_open_heads reorder] in E. cbn [app].
  destruct r as [us|e]; [|sstep; by apply (in_blocks_failure _ s.1)].
  set (allow := bool_decide (first_standard_head_block s.1 = Some (block_number (br_cursor hd)))) in *.
  apply drain_completed_block_iff in E as (hash & p & q & block & Hh & Eb & _ & Hq & Hbel & Hlast & -> & ->);
    [|apply Hopen].
  assert (allow = bool_decide (lastp = None)) as Hallow.
  { pose proof (open_contiguous _ _ Hopen) as Hc. rewrite Ho in Hc. destruct Hc as [Hc _]. cbn [fst snd] in Hc.
    rewrite Hnewest in Hfirst.
    destruct Hfirst as (first & Ef & Hle & Hiff). unfold allow. rewrite Ef, Hc. apply bool_decide_ext.
    split; [intros [= ->]; by apply Hiff|]. intros ->. f_equal. by apply Hiff. }
  assert (block = hd) as ->.
  { eapply drained_head; try done. apply last_Some in Hlast as (front & Hlast).
    assert (block ∈ omap as_head (p.*2)) as Hb by (rewrite Hlast; set_solver).
    apply list_elem_of_omap in Hb as (u & Hu & Hb). rewrite Forall_forall in Hbel. specialize (Hbel u Hu).
    destruct u; try discriminate Hb. injection Hb as ->. by apply in_block_true in Hbel as [? _]. }
  apply spec_bind, spec_await_session; [apply returns_validate_preceding|]. intros r t Er. cbn [app fst snd] in *.
  destruct r as [us'|e]; [|sstep; by apply (in_blocks_failure _ s.1)].
  apply validate_preceding_loop_ok in Er.
  destruct (published_batch hd allow (p.*2) us' hd) as (logs & -> & Hbatch); try done.
  - by rewrite Hh.
  - by rewrite Hh.
  - destruct (open_buffer _ _ Hopen) as [Hs Hk _ _ _ _]. rewrite Eb in Hs, Hk.
    apply sorted_logs; [|by apply Forall_app in Hk as [? _]].
    clear - Hs. induction p as [|e p IH]; [constructor|]. cbn in Hs. apply StronglySorted_inv in Hs as [Hs Hlt].
    constructor; [by apply IH|]. by apply Forall_app in Hlt as [? _].
  - sstep. sstep. unfold kept. cbn [fst].
    pose proof (open_contiguous _ _ Hopen) as Hc. rewrite Ho in Hc. destruct Hc as [Hc _]. cbn [fst snd] in Hc.
    exists (Some (block_number (br_cursor (map_head_cursor (set_commitment Canonical) hd)))), (from + 1).
    cbn [map_head_cursor set_commitment br_cursor block_number]. rewrite Hc. split_and!.
    + rewrite app_nil_r. rewrite <-Hc. apply (published_block lastp out logs
        (map_head_cursor (set_commitment Canonical) hd)); [done| |by rewrite <-Hallow].
      intros n Hn. cbn. rewrite Hc. by apply Hfrom.
    + pose proof (open_after_batch _ _ _ _ _ _ _ Hopen Ho Hne Eb Hq) as Ho'.
      destruct Ho'. by split.
    + by intros n [= <-].
    + cbn. rewrite Hnewest in Hfirst |- *. destruct Hfirst as (first & -> & Hle & Hiff). exists first. split_and!; [done|lia|].
      split; [done|lia].
Qed.

Lemma parse_log_capacity value chain c f log :
  parse_filtered_rpc_log value chain c f = Ok log -> 0 <= log_topics_capacity log.
Proof.
  unfold parse_filtered_rpc_log, parse_rpc_log, normalize_rpc_log. intros E. inv_bind.
  destruct (negb _); [discriminate|]. injection E as <-.
  match goal with H : (if 4 <? _ then _ else _) = _ |- _ => rename H into En end.
  destruct (4 <? _); [discriminate|]. inv_bind. subst. cbn. by eapply json_log_capacity.
Qed.

Lemma push_pending b u b' :
  buffer_ok b -> 0 <= update_retained_bytes u -> push u b = (Ok tt, b') ->
  buffer_ok b' /\ pending b' ≡ₚ (update_key u, u) :: pending b.
Proof.
  intros Hok Hu E. split; [pose proof (push_preserves u b Hok Hu) as Hb; by rewrite E in Hb|].
  apply push_ok_iff in E as (_ & Hk & _ & _ & ->); [|done]. cbn.
  by apply bt_insert_spec; [apply Hok|].
Qed.

(** Fields the three steps of the stream leave alone. *)
Lemma open_blocks_same from s s' :
  open_blocks from s -> open_standard_heads s' = open_standard_heads s -> last_head s' = last_head s ->
  buffer_ok (reorder s') ->
  (forall e, e ∈ pending (reorder s') -> e ∈ pending (reorder s) \/ exists log, e.2 = Log log) ->
  uint 64 (stream_sequence s') -> open_blocks from s'.
Proof.
  intros [Hc Hs Hl Hok Hp Hq] Eo El Hb Hpend Hseq. rewrite <-Eo in Hc, Hs, Hl, Hp. rewrite <-El in Hl.
  split; try done. rewrite Forall_forall in *. intros e He.
  destruct (Hpend e He) as [?|[log ->]]; [by apply Hp|done].
Qed.

Lemma bump_uint s : uint 64 (stream_sequence s) -> uint 64 (stream_sequence (bump_sequence s)).
Proof. unfold uint, bump_sequence, uint_saturating_add, uint_max. cbn. lia. Qed.

Lemma spec_log_blocks v out s :
  in_blocks out s.1 ->
  gen_spec (on_log string_capacity self contract_filter v) s (kept in_blocks closed_published out).
Proof.
  intros Hin. pose proof Hin as (lastp & from & Hpub & Hopen & Hfrom & Hfirst).
  unfold on_log. rewrite source_ordered, source_holds. rewrite bool_decide_eq_false_2 by done. cbn [andb negb].
  destruct (parse_filtered_rpc_log _ _ _ _) as [log|e] eqn:Elog;
    [|sstep; by apply (in_blocks_failure _ s.1)].
  sstep. sstep. cbn [bump_sequence published_watermark last_head].
  set (log1 := map_log_cursor _ log). destruct (log_removed log1) eqn:Er.
  { sstep. sstep. unfold kept. exists lastp, out, [Ok (Log log1); Ok (gap_update string_capacity
      (Some (log_cursor log1)) "RPC retracted a subscription log; canonical recovery required")].
    by rewrite app_nil_r. }
  destruct (is_at_or_before_watermark _ _); [sstep; by apply (in_blocks_failure _ s.1)|].
  rewrite bool_decide_eq_false_2 by done. sstep. intros r b E. cbn [bump_sequence reorder app] in *.
  destruct r as [[]|e]; [|sstep; by apply (in_blocks_failure _ s.1)].
  apply push_pending in E as [Hok Hperm]; [|apply Hopen|].
  2: { apply retained_nonneg. apply parse_log_capacity in Elog. unfold with_head_context.
       repeat case_match; exact Elog. }
  assert (in_blocks out (set_reorder b (bump_sequence s.1))) as Hkeep.
  { exists lastp, from. split_and!; [done| |done|exact Hfirst].
    eapply open_blocks_same; [exact Hopen|done|done|exact Hok| |by apply bump_uint, Hopen].
    intros e He. cbn in He. rewrite Hperm in He. apply elem_of_cons in He as [->|]; [right; by eexists|by left]. }
  case_match; sstep; unfold kept; by rewrite app_nil_r.
Qed.

Hypothesis capacity_nonneg : 0 <= reorder_capacity (config self).
Hypothesis byte_capacity_nonneg : 0 <= reorder_byte_capacity (config self).

Lemma fresh_buffer b :
  Ordering.with_limits (reorder_capacity (config self)) (reorder_byte_capacity (config self)) = Ok b ->
  buffer_ok b /\ pending b = [].
Proof.
  unfold Ordering.with_limits. destruct (_ || _); [done|]. intros [= <-].
  split; [by apply empty_buffer_ok|done].
Qed.

(** A state that may open [head] next. *)
Definition admits (head : BlockRef) (out : list item) (s : StreamState) : Prop :=
  exists last from first, published last out
    /\ contiguous from ((open_standard_heads s).*2 ++ [head])
    /\ Forall open_head ((open_standard_heads s).*2)
    /\ buffer_ok (reorder s)
    /\ Forall (fun e => match e.2 with
                        | Head h => h ∈ (open_standard_heads s).*2
                        | Log _ => True
                        | _ => False
                        end) (pending (reorder s))
    /\ uint 64 (stream_sequence s)
    /\ (forall n, last = Some n -> from = n + 1)
    /\ first_standard_head_block s = Some first /\ first <= from /\ (last = None <-> first = from).

Lemma admits_first head out s :
  published None out -> open_standard_heads s = [] -> buffer_ok (reorder s) ->
  Forall (fun e => match e.2 with
                   | Head h => h ∈ ((open_standard_heads s).*2)
                   | Log _ => True
                   | _ => False
                   end) (pending (reorder s)) ->
  uint 64 (stream_sequence s) ->
  first_standard_head_block s = Some (block_number (br_cursor head)) -> admits head out s.
Proof.
  intros Hp Ho Hb Hpend Hq Hf. exists None, (block_number (br_cursor head)), (block_number (br_cursor head)).
  rewrite Ho in *. cbn [fmap list_fmap app contiguous]. by split_and!.
Qed.

(** A head that neither skips nor breaks the chain is the next one. *)
Lemma next_height previous head :
  uint 64 (block_number (br_cursor head)) -> same_head previous head = false ->
  (uint_saturating_add 64 (block_number (br_cursor previous)) 1 <? block_number (br_cursor head)) = false ->
  head_discontinuity previous head false = false ->
  block_number (br_cursor head) = block_number (br_cursor previous) + 1.
Proof.
  intros Hu Hs Hskip. unfold head_discontinuity. rewrite Hs. cbn [negb orb andb]. rewrite andb_true_r.
  intros [[Hlt Hsame]%orb_false_iff _]%orb_false_iff. apply Z.ltb_ge in Hlt, Hskip. apply Z.eqb_neq in Hsame.
  unfold uint_saturating_add, uint_max, uint in *. lia.
Qed.

Lemma spec_open_head now out head s (Q : list item -> flow unit -> StreamState * Session -> Prop) :
  open_head head -> admits head out s.1 ->
  (forall t, in_blocks out t -> Q [] (Through tt) (t, s.2)) ->
  (forall i t, is_failure i -> closed_published (out ++ [i]) -> Q [i] Ended t) ->
  gen_spec (publish_head size_of_open_head self head now) s Q.
Proof.
  unfold publish_head.
  intros Hhead (lastp & from & first & Hpub & Hc & Hshape & Hok & Hp & Hq & Hfrom & Hf & Hle & Hiff) HQ Hend.
  sstep. rewrite source_ordered, bool_decide_eq_false_2, source_holds by done. cbn [negb].
  apply spec_bind. sstep. cbn [set_last_head open_standard_heads].
  unfold observe_standard_head. destruct (_ || _).
  { sstep. apply Hend; [done|]. by apply (closed_failure lastp). }
  sstep. sstep. intros r b E. cbn [set_open_heads set_last_head reorder] in E. cbn [app].
  destruct r as [[]|e].
  2: { sstep. apply Hend; [done|]. by apply (closed_failure lastp). }
  apply push_pending in E as [Hb Hperm]; [|done|by apply retained_nonneg]. sstep. apply HQ.
  exists lastp, from. split_and!; [done| |done|].
  - split; cbn [open_standard_heads last_head reorder stream_sequence set_reorder set_open_heads set_last_head];
      [..|done| |done].
    + by rewrite fmap_app.
    + rewrite fmap_app. apply Forall_app. split; [done|]. by apply Forall_singleton.
    + by rewrite last_snoc.
    + rewrite Hperm. constructor; cbn [fst snd].
      * rewrite fmap_app. apply elem_of_app. right. apply list_elem_of_here.
      * eapply Forall_impl; [exact Hp|]. intros [k u] He. destruct u; try done.
        cbn [snd]. rewrite fmap_app. apply elem_of_app. left. exact He.
  - cbn. by exists first.
Qed.

Lemma spec_follow head out s (Q : list item -> flow unit -> StreamState * Session -> Prop) :
  uint 64 (block_number (br_cursor head)) ->
  match last_head s.1 with Some previous => same_head previous head | None => false end = false ->
  (exists lastp from, published lastp out /\ open_blocks from s.1
     /\ (forall n, lastp = Some n -> from = n + 1)
     /\ match last_head s.1 with
        | None => lastp = None /\ first_standard_head_block s.1 = Some (block_number (br_cursor head))
        | Some _ => exists first, first_standard_head_block s.1 = Some first
                      /\ first <= from /\ (lastp = None <-> first = from)
        end) ->
  (forall ys t, admits head (out ++ ys) t -> Q ys (Through tt) (t, s.2)) ->
  (forall ys t, closed_published (out ++ ys) -> Q ys Ended t) ->
  gen_spec (follow_head string_capacity self head) s Q.
Proof.
  intros Hu Hsame (lastp & from & Hpub & Hopen & Hfrom & Hfirst) HQ Hend. unfold follow_head. sstep.
  destruct s as [s t]. cbn [fst snd] in *. pose proof Hopen as [Hc Hshape Hl Hok Hp Hq].
  destruct (last_head s) as [previous|] eqn:Elast.
  - destruct (_ <? _) eqn:Eskip; [sstep; apply Hend; by apply (closed_failure lastp)|].
    rewrite source_heads. destruct (head_discontinuity previous head false) eqn:Edis.
    + unfold reset_branch. sstep. destruct (Ordering.with_limits _ _) as [b|e] eqn:Eb.
      * apply fresh_buffer in Eb as [Hb Hnil]. sstep. apply HQ. rewrite app_nil_r. cbn [fmap list_fmap].
        apply admits_first; cbn; [by eapply published_reorg|done|done|by rewrite Hnil|done|done].
      * sstep. apply Hend. cbn [fmap list_fmap app]. exists None, (out ++ [Ok (Reorg previous head)]), [Err e].
        split_and!; [by rewrite <-app_assoc|by eapply published_reorg|done].
    + sstep. apply HQ. rewrite app_nil_r. destruct Hfirst as (first & Ef & Hle & Hiff).
      exists lastp, from, first. split_and!; try done.
      apply contiguous_app. split; [done|]. cbn [contiguous]. split; [|done].
      rewrite (next_height previous head) by done.
      destruct (last (open_standard_heads s)) as [[a h]|] eqn:El; [|discriminate Hl].
      cbn in Hl. injection Hl as ->. apply last_Some in El as (front & El). rewrite El, fmap_app in Hc |- *.
      apply contiguous_app in Hc as [_ [Hc _]]. cbn [snd] in Hc. rewrite Hc, length_app. cbn. lia.
  - sstep. apply HQ. rewrite app_nil_r. destruct Hfirst as [-> Ef].
    apply admits_first; try done.
    destruct (open_standard_heads s) as [|x l] eqn:Eo; [done|].
    destruct (last (x :: l)) eqn:El; [discriminate Hl|]. by apply last_None in El.
Qed.

Lemma parse_head_shape value chain require head n :
  parse_ws_head_with_execution_context value chain require = Ok head -> uint 64 n ->
  open_head (map_head_cursor (fun k => set_commitment Canonical (set_sequence n k)) head).
Proof.
  unfold parse_ws_head_with_execution_context, parse_rpc_head. intros E Hn. inv_bind. subst.
  split_and!; try done; cbn; [by eapply json_head_u64|]. by exists n.
Qed.

Lemma spec_head_blocks v now out s :
  in_blocks out s.1 ->
  gen_spec (on_head u64_from_str_ok string_capacity size_of_open_head self contract_filter v now) s
    (kept in_blocks closed_published out).
Proof.
  intros Hin. pose proof Hin as (lastp & from & Hpub & Hopen & Hfrom & Hfirst). unfold on_head.
  destruct (parse_ws_head_with_execution_context _ _ _) as [head|e] eqn:Ehead;
    [|sstep; by apply (in_blocks_failure _ s.1)].
  sstep. destruct (match last_head s.1 with Some _ => _ | None => _ end) eqn:Esame;
    [sstep; unfold kept; by rewrite app_nil_r|].
  rewrite (bool_decide_eq_false_2 (delivery_mode (config self) = FinalizedDelivery))
    by (by rewrite source_ordered).
  sstep. sstep. rewrite source_holds. cbn [andb bump_sequence first_standard_head_block].
  set (head1 := map_head_cursor _ head).
  assert (open_head head1) as Hshape.
  { unfold head1. rewrite source_ordered. eapply parse_head_shape; [done|]. apply bump_uint, Hopen. }
  set (s1 := if is_some (first_standard_head_block s.1) then bump_sequence s.1
             else set_first_block (Some (block_number (br_cursor head1))) (bump_sequence s.1)).
  apply spec_bind. apply (spec_weaken _ _ (fun ys r t => ys = [] /\ r = Through tt /\ t = (s1, s.2))).
  { unfold s1. destruct (is_some _); cbn [negb]; by eexists _, _, _. }
  intros ys r t (-> & -> & ->). apply spec_bind. cbn [app].
  apply (spec_follow head1 out).
  - apply Hshape.
  - unfold s1. destruct (is_some _); exact Esame.
  - exists lastp, from. split_and!; [done| |done|].
    + pose proof Hopen as Ho. unfold s1.
      destruct (is_some _); (eapply open_blocks_same; [exact Ho|done|done|apply Ho|by left|by apply bump_uint, Ho]).
    + unfold s1. cbn [fst]. destruct (last_head s.1) eqn:Elast.
      * destruct Hfirst as (first & Ef & Hf). rewrite Ef. cbn [is_some last_head bump_sequence
          first_standard_head_block]. rewrite Elast. by exists first.
      * destruct Hfirst as [-> Ef]. rewrite Ef. cbn [is_some last_head bump_sequence set_first_block
          first_standard_head_block]. by rewrite Elast.
  - intros ys t Hadm. apply (spec_open_head now (out ++ ys) head1); [done|done|..].
    + intros t' Ht'. unfold kept. rewrite app_nil_r. exact Ht'.
    + intros i t' _ Hclosed. unfold kept. by rewrite app_assoc.
  - intros ys t Hclosed. exact Hclosed.
Qed.

Lemma spec_ordered_round logs_id heads_id r out s :
  in_blocks out s.1 ->
  gen_spec (stream_round u64_from_str_ok string_capacity size_of_open_head self contract_filter
              logs_id heads_id r) s (kept in_blocks closed_published out).
Proof.
  intros Hin. apply spec_round; [done|intros i Hi; by eapply in_blocks_failure|..].
  - intros _ now. by apply spec_timer_blocks.
  - intros v. by apply spec_log_blocks.
  - intros v now. by apply spec_head_blocks.
Qed.

End Standard.

(** ** Realtime delivery *)

Definition sequence_of (i : item) : option Z :=
  match i with
  | Ok (Log log) => source_sequence (log_cursor log)
  | Ok (Head head) => source_sequence (br_cursor head)
  | _ => None
  end.

Definition realtime_item (i : item) : Prop :=
  match i with
  | Ok (Log log) => commitment (log_cursor log) = Realtime /\ is_some (source_sequence (log_cursor log)) = true
  | Ok (Head head) => commitment (br_cursor head) = Realtime /\ is_some (source_sequence (br_cursor head)) = true
  | Ok (Correction _) => False
  | _ => True
  end.

(** The logs and heads delivered are the notifications received, in order:
    their sequence numbers count from one without a hole, short of [u64::MAX]. *)
Record in_receive_order (n : Z) (items : list item) : Prop := {
  receive_sequence : n < U64_MAX -> omap sequence_of items = seqZ 1 n;
  receive_items : Forall realtime_item items
}.

Lemma in_receive_order_other n items i :
  in_receive_order n items -> sequence_of i = None -> realtime_item i -> in_receive_order n (items ++ [i]).
Proof.
  intros [Hs Hi] Hn Hr. split.
  - intros Hlt. rewrite omap_app, Hs by done. cbn. by rewrite Hn, app_nil_r.
  - apply Forall_app. split; [done|]. by apply Forall_singleton.
Qed.

Lemma in_receive_order_next n items i :
  0 <= n -> in_receive_order n items -> sequence_of i = Some (uint_saturating_add 64 n 1) -> realtime_item i ->
  in_receive_order (uint_saturating_add 64 n 1) (items ++ [i]).
Proof.
  intros Hn [Hs Hi] Hq Hr. split.
  - intros Hlt. assert (uint_saturating_add 64 n 1 = n + 1) as E
      by (unfold uint_saturating_add, uint_max in *; lia).
    rewrite E in *. rewrite omap_app, Hs by lia. cbn. rewrite Hq, seqZ_app by lia. f_equal.
    rewrite seqZ_cons by done. cbn. f_equal. lia.
  - apply Forall_app. split; [done|]. by apply Forall_singleton.
Qed.

Section Realtime.
Context `{WsJson, Http, MemLayout, !Deserialize Z, !Deserialize Value, !Deserialize (list Value)}.
Context (u64_from_str_ok : string -> bool) (string_capacity : string -> Z).
Context (size_of_open_head : Z).
Context (self : EvmRpcSource) (contract_filter : ContractFilter).

Hypothesis source_realtime : delivery_mode (config self) = RealtimeDelivery.

Definition received (out : list item) (s : StreamState) : Prop :=
  0 <= stream_sequence s /\ in_receive_order (stream_sequence s) out.

Definition closed_received (out : list item) : Prop := exists n, in_receive_order n out.

Lemma received_failure out s i : received out s -> is_failure i -> closed_received (out ++ [i]).
Proof.
  intros [_ Hr] Hi. exists (stream_sequence s). apply in_receive_order_other; [done|..]; by destruct i as [[]|].
Qed.

Lemma parse_log_commitment value chain c f log :
  parse_filtered_rpc_log value chain c f = Ok log -> commitment (log_cursor log) = c.
Proof.
  unfold parse_filtered_rpc_log, parse_rpc_log, normalize_rpc_log. intros E. inv_bind.
  destruct (negb _); [discriminate|]. injection E as <-.
  match goal with H : (if 4 <? _ then _ else _) = _ |- _ => rename H into En end.
  destruct (4 <? _); [discriminate|]. inv_bind. by subst.
Qed.

Lemma spec_log_realtime v out s :
  received out s.1 ->
  gen_spec (on_log string_capacity self contract_filter v) s (kept received closed_received out).
Proof.
  intros Hr. pose proof Hr as [Hn Ho]. unfold on_log, holds_standard_logs_until_successor.
  rewrite source_realtime. cbn [mode_commitment]. rewrite (bool_decide_eq_false_2 (RealtimeDelivery = BlockOrdered)),
    (bool_decide_eq_false_2 (RealtimeDelivery = FinalizedDelivery)) by done. cbn [andb].
  destruct (parse_filtered_rpc_log _ _ _ _) as [log|e] eqn:Elog; [|sstep; by apply (received_failure _ s.1)].
  apply parse_log_commitment in Elog. sstep. sstep. cbn [bump_sequence stream_sequence last_head].
  assert (0 <= uint_saturating_add 64 (stream_sequence s.1) 1) as Hn'
    by (unfold uint_saturating_add, uint_max; lia).
  set (n := uint_saturating_add 64 (stream_sequence s.1) 1) in *.
  destruct (log_removed _).
  - sstep. sstep. unfold kept. rewrite app_nil_r. exists n.
    change (Ok <$> retraction_updates string_capacity (map_log_cursor (set_sequence n) log))
      with ([Ok (Log (map_log_cursor (set_sequence n) log))] ++
            [Ok (gap_update string_capacity (Some (set_sequence n (log_cursor log)))
                   "RPC retracted a subscription log; canonical recovery required")] : list item).
    rewrite app_assoc. apply in_receive_order_other; [|done|done].
    by apply in_receive_order_next.
  - rewrite bool_decide_eq_true_2 by done. sstep. sstep. unfold kept. rewrite app_nil_r.
    split; [exact Hn'|]. cbn [fst bump_sequence stream_sequence fmap list_fmap].
    apply in_receive_order_next; [done|done|..]; unfold with_head_context; by repeat case_match.
Qed.

Lemma spec_head_realtime v now out s :
  received out s.1 ->
  gen_spec (on_head u64_from_str_ok string_capacity size_of_open_head self contract_filter v now) s
    (kept received closed_received out).
Proof.
  intros Hr. pose proof Hr as [Hn Ho]. unfold on_head, holds_standard_logs_until_successor.
  rewrite source_realtime. cbn [mode_commitment]. rewrite (bool_decide_eq_false_2 (RealtimeDelivery = BlockOrdered)),
    (bool_decide_eq_false_2 (RealtimeDelivery = FinalizedDelivery)) by done. cbn [andb].
  destruct (parse_ws_head_with_execution_context _ _ _) as [head|e];
    [|sstep; by apply (received_failure _ s.1)].
  sstep. destruct (match last_head s.1 with Some _ => _ | None => _ end);
    [sstep; unfold kept; by rewrite app_nil_r|].
  sstep. sstep. sstep. cbn [bump_sequence stream_sequence]. sstep. cbn [app].
  assert (0 <= uint_saturating_add 64 (stream_sequence s.1) 1) as Hn'
    by (unfold uint_saturating_add, uint_max; lia).
  set (n := uint_saturating_add 64 (stream_sequence s.1) 1) in *.
  set (head1 := map_head_cursor _ head).
  apply spec_bind. apply (spec_weaken _ _ (fun ys r t => match r with
    | Through _ => stream_sequence t.1 = n /\ in_receive_order (stream_sequence s.1) (out ++ ys)
    | Ended => closed_received (out ++ ys)
    | _ => False
    end)).
  - unfold follow_head. sstep. cbn [bump_sequence last_head].
    destruct (last_head s.1) as [previous|]; [|sstep; by rewrite app_nil_r].
    destruct (_ <? _); [sstep; by apply (received_failure _ s.1)|].
    destruct (head_discontinuity _ _ _); [|sstep; by rewrite app_nil_r].
    assert (in_receive_order (stream_sequence s.1) (out ++ [Ok (Reorg previous head1)])) as Hre
      by by apply in_receive_order_other.
    unfold reset_branch. sstep. destruct (Ordering.with_limits _ _); sstep.
    + by rewrite app_nil_r.
    + exists (stream_sequence s.1). cbn [fmap list_fmap].
      change [Ok (Reorg previous head1); Err e] with ([Ok (Reorg previous head1)] ++ [Err e] : list item).
      rewrite app_assoc. by apply in_receive_order_other.
  - intros ys [u| | |] t Ht; [|done|exact Ht|done]. destruct Ht as [Et Hys]. unfold publish_head.
    sstep. rewrite source_realtime, bool_decide_eq_true_2 by done. sstep. sstep. unfold kept.
    split; cbn [fst set_last_head stream_sequence]; rewrite Et; [done|]. rewrite app_nil_r, app_assoc.
    by apply in_receive_order_next.
Qed.

Lemma spec_realtime_round logs_id heads_id r out s :
  received out s.1 ->
  gen_spec (stream_round u64_from_str_ok string_capacity size_of_open_head self contract_filter
              logs_id heads_id r) s (kept received closed_received out).
Proof.
  intros Hr. apply spec_round; [done|intros i Hi; by eapply received_failure|..].
  - unfold holds_standard_logs_until_successor. rewrite source_realtime. done.
  - intros v. by apply spec_log_realtime.
  - intros v now. by apply spec_head_realtime.
Qed.

End Realtime.

(** ** A node and a socket for the checks on sample data *)

Inductive WsValue :=
| WsText (text : string)
| WsHeadValue (head : RpcHead)
| WsLogValue (log : RpcLog)
| WsNotification (subscription : string) (result : WsValue)
| WsParams (subscription : string) (result : WsValue)
| WsAnswer (id : Z) (result : string)
| WsId (id : Z).

#[local] Instance ws_sample_json : Json := {|
  Value := WsValue;
  value_get key v :=
    match v with
    | WsNotification sub result =>
        if String.eqb key "method" then Some (WsText "eth_subscription")
        else if String.eqb key "params" then Some (WsParams sub result) else None
    | WsParams sub result =>
        if String.eqb key "subscription" then Some (WsText sub)
        else if String.eqb key "result" then Some result else None
    | WsAnswer id result =>
        if String.eqb key "id" then Some (WsId id)
        else if String.eqb key "result" then Some (WsText result) else None
    | _ => None
    end;
  as_str v := match v with WsText t => Some t | _ => None end;
  value_is_u64 _ _ := true;
  value_to_string _ := "value";
  from_value_head v :=
    match v with
    | WsHeadValue h => if bool_decide (uint 64 (rh_number h)) then Ok h else Err "not a quantity"
    | _ => Err "not a head"
    end;
  from_value_log v :=
    match v with
    | WsLogValue l =>
        if fits_u64 (rl_block_number l) && fits_u64 (rl_transaction_index l)
           && fits_u64 (rl_log_index l) && (0 <=? rl_topics_capacity l)
        then Ok l else Err "not a quantity"
    | _ => Err "not a log"
    end
|}.

Lemma ws_sample_head_law v head : from_value_head v = Ok head -> uint 64 (rh_number head).
Proof. destruct v; cbn; try done. case_bool_decide as E; [|done]. by intros [= <-]. Qed.

Lemma ws_sample_log_law v log :
  from_value_log v = Ok log ->
  ((forall n, rl_block_number log = Some n -> uint 64 n)
   /\ (forall n, rl_transaction_index log = Some n -> uint 64 n)
   /\ (forall n, rl_log_index log = Some n -> uint 64 n))
  /\ 0 <= rl_topics_capacity log.
Proof.
  destruct v; cbn; try done. case_match eqn:E; [|done]. intros [= <-].
  apply andb_true_iff in E as [[[E1 E2]%andb_true_iff E3]%andb_true_iff E4].
  split_and!; [..|by apply Z.leb_le];
    intros n Hn; rewrite Hn in *; apply (bool_decide_eq_true_1 _); assumption.
Qed.

#[local] Instance ws_sample_laws : JsonLaws :=
  {| json_head_u64 := ws_sample_head_law;
     json_log_u64 v log Hl := proj1 (ws_sample_log_law v log Hl);
     json_log_capacity v log Hl := proj2 (ws_sample_log_law v log Hl) |}.

Definition ws_head (n : Z) : RpcHead :=
  {| rh_number := n; rh_hash := Some (100 + n); rh_parent_hash := Some (99 + n);
     rh_l1_block_number := None |}.

(** Two logs of block five, out of order, then the heads, then the next ones. *)
Definition ws_values : list WsValue :=
  [WsNotification "logs-a" (WsLogValue (sample_rpc_log 5 4));
   WsNotification "logs-a" (WsLogValue (sample_rpc_log 5 1));
   WsNotification "heads-a" (WsHeadValue (ws_head 5));
   WsNotification "heads-a" (WsHeadValue (ws_head 6));
   WsAnswer 1 "logs-a"; WsAnswer 2 "heads-a"; WsAnswer 3 "0x9"].

#[local] Instance ws_sample_ws : WsJson := {|
  value_from_slice bytes :=
    match bytes with
    | [k] => match ws_values !! Z.to_nat k with Some v => Ok v | None => Err "eof" end
    | _ => Err "eof"
    end;
  value_is_object v := match v with WsParams _ _ => true | _ => false end;
  value_as_u64 v := match v with WsId n => Some n | _ => None end;
  u64_from_str s := match canonical_hex_u64 s with Ok n => Some n | Err _ => None end
|}.

(** The node answers every page of logs with the ones in its range, and its
    finalized head is block four. *)
#[local] Instance ws_sample_http : Http := {|
  to_vec id req :=
    match req with
    | EthGetLogs f =>
        match canonical_hex_u64 (lf_from_block f), canonical_hex_u64 (lf_to_block f) with
        | Ok from, Ok to => Ok [id; from; to]
        | _, _ => Err "bad range"
        end
    | _ => Ok [id]
    end;
  send n body := Ok {| content_length := None; body_chunks := [Ok body] |}
|}.

Definition ws_answer {R} (v : R) : result string (StrictResponse R) :=
  Ok {| sr_jsonrpc := "2.0"; sr_id := WsText "id"; sr_result := Some v; sr_error := None |}.

#[local] Instance ws_sample_logs : Deserialize (list Value) := fun body =>
  match body with
  | [_; from; to] =>
      ws_answer (WsLogValue <$> base.filter (fun log =>
        from <= default 0 (rl_block_number log) <= to) sample_rpc_logs)
  | _ => Err "not a log request"
  end.

#[local] Instance ws_sample_chain : Deserialize Z := fun body => ws_answer 9.
#[local] Instance ws_sample_head : Deserialize Value := fun body => ws_answer (WsHeadValue (ws_head 4)).
#[local] Existing Instance sample_layout.

Definition ws_filter : ContractFilter := {| filter_address := 7; filter_topics := [5] |}.

Definition ws_source (mode : EvmDeliveryMode) : EvmRpcSource :=
  source_with_delivery_mode sample_client "ws://localhost" Base 9 mode.

Lemma filter_Forall2 {A B} (R : A -> B -> Prop) (P : A -> Prop) (Q : B -> Prop)
    `{forall x, Decision (P x)} `{forall y, Decision (Q y)} l k :
  (forall x y, R x y -> (P x <-> Q y)) ->
  Forall2 R l k -> Forall2 R (base.filter P l) (base.filter Q k).
Proof.
  intros HPQ. induction 1 as [|x y l k Hxy _ IH]; [constructor|]. rewrite !filter_cons.
  destruct (decide (P x)) as [Hx|Hx].
  - rewrite decide_True by (by apply (HPQ x y)). by constructor.
  - by rewrite decide_False by (by rewrite <-(HPQ x y)).
Qed.

Definition parses_to (log : RpcLog) (out : ContractLog) : Prop :=
  default 0 (rl_block_number log) = block_number (log_cursor out)
  /\ parse_filtered_rpc_log (WsLogValue log) 9 Finalized ws_filter = Ok out.

Lemma ws_history_parses : Forall2 parses_to sample_rpc_logs sample_history.
Proof.
  match goal with |- Forall2 _ _ ?l => let k := eval vm_compute in l in change l with k end.
  repeat (apply Forall2_cons_2; [split; reflexivity|]). apply Forall2_nil_2.
Qed.

Lemma ws_sample_honest : honest_node (ws_source FinalizedDelivery) ws_filter sample_history.
Proof.
  intros [from to] s1 values s2 (Hle & _ & Hf & Ht) _ _ E. cbn [fst snd] in *.
  assert (uint 64 from) as Huf by (unfold uint; lia). assert (uint 64 to) as Hut by (unfold uint; lia).
  pose proof (hex_quantity_roundtrip from Huf) as Ef. pose proof (hex_quantity_roundtrip to Hut) as Et.
  revert E. unfold request, log_request, backfill_filter. cbn [to_vec ws_sample_http lf_from_block lf_to_block
    from_block to_block fst snd]. rewrite Ef, Et. cbn [map_err].
  generalize (request_id s1) as id. intros id.
  intros E. injection E as E _. cbn in E.
  assert (values = WsLogValue <$> base.filter (fun log =>
            from <= default 0 (rl_block_number log) <= to) sample_rpc_logs) as -> by (symmetry; exact E).
  apply Forall2_fmap_l.
  apply (Forall2_impl parses_to); [|by intros log out [_ ?]].
  apply filter_Forall2; [|exact ws_history_parses]. cbn [fst snd]. intros log out [-> _]. done.
Qed.

(** ** Properties *)

Section Properties.
Context `{WsJson, Http, MemLayout, !Deserialize Z, !Deserialize Value, !Deserialize (list Value)}.
Context (u64_from_str_ok : string -> bool) (string_capacity : string -> Z) (size_of_open_head : Z).
Context (self : EvmRpcSource) (contract_filter : ContractFilter) (logs_id heads_id : string).

Notation run := (stream_run u64_from_str_ok string_capacity size_of_open_head self contract_filter
                   logs_id heads_id).
Notation round := (stream_round u64_from_str_ok string_capacity size_of_open_head self contract_filter
                     logs_id heads_id).

(** In finalized mode the stream delivers the chain's finalized history and
    nothing else. Against a node whose answered pages hold the contract's logs,
    whatever the socket sends and whenever the finalized head moves, the delivered
    logs are exactly the history after the first watermark through some height,
    in order, none missing and none twice, across all catch-up pages and rounds;
    no finalized head is delivered before the logs it covers; and the stream
    never panics. *)
Theorem finalized_stream_exact `{!JsonLaws} history w rounds session :
  delivery_mode (config self) = FinalizedDelivery -> validate_config self = Ok tt ->
  0 < backfill_page_blocks (config self) -> limits_ok (backend_rpc (http self)) ->
  uint 64 (block_number w) -> in_order history -> honest_node self contract_filter history ->
  exists items how session', run (Some w) rounds session = Some (items, how, session')
    /\ how <> Aborted
    /\ exists n, delivered history (block_number w) n items.
Proof.
  intros Hmode Hvalid Hpage Hlimits Hw Horder Hhonest.
  assert (snapshot_tag (http self) = "finalized") as Htag.
  { unfold validate_config in Hvalid. apply unit_bind_ok in Hvalid as [_ Hvalid].
    rewrite bool_decide_eq_true_2 in Hvalid by done.
    destruct (String.eqb_spec (snapshot_tag (http self)) "finalized"); [done|discriminate]. }
  unfold stream_run. destruct (Ordering.with_limits _ _) as [buffer|e].
  2: { eexists _, _, _. split; [done|]. split; [done|]. exists (block_number w).
       apply (delivered_snoc_other _ _ _ []); [apply delivered_start|done]. }
  destruct (generate_invariant (I := Round) round (fun out s => caught_up history (block_number w) out s.1)
              (fun out _ => closed_finalized history (block_number w) out)
              (fun i out s Hs => spec_finalized_round u64_from_str_ok string_capacity self contract_filter
                 history (block_number w) Hmode Htag Hpage Hlimits Horder Hhonest size_of_open_head
                 logs_id heads_id i out s (proj1 Hw) Hs)
              rounds [] (initial_state buffer (Some w), session)) as (ys & how & s' & -> & Hhow).
  { exists w. split_and!; [done|done|done|apply delivered_start]. }
  eexists _, _, _. split; [done|]. destruct how; [|by split|done].
  destruct Hhow as (w' & _ & _ & _ & Hd). split; [done|by eexists].
Qed.

(** In the default mode the stream delivers whole blocks. Whatever arrives on
    the socket and however the timer fires, what is published is a sequence of
    blocks at consecutive heights, interrupted only by reorgs: the logs of a block
    in strict event order, all of that block and with its execution context, then
    its head, all canonical; only the first block after the start or a reorg may
    carry earlier logs, and what follows a closed stream is one failure. *)
Theorem standard_stream_blocks `{!JsonLaws} initial rounds session :
  delivery_mode (config self) = BlockOrdered -> logs_kind (config self) = "logs" ->
  progressive_heads (config self) = false ->
  0 <= reorder_capacity (config self) -> 0 <= reorder_byte_capacity (config self) ->
  exists items how session', run initial rounds session = Some (items, how, session')
    /\ how <> Aborted
    /\ (how = Running -> exists last, published last items)
    /\ closed_published items.
Proof.
  intros Hmode Hkind Hprog Hcap Hbytes. unfold stream_run.
  destruct (Ordering.with_limits _ _) as [buffer|e] eqn:Eb.
  2: { eexists _, _, _. split; [done|]. split_and!; [done|done|]. exists None, [], [Err e].
       by split_and!; [|constructor|]. }
  destruct (fresh_buffer self Hcap Hbytes _ Eb) as [Hok Hnil].
  destruct (generate_invariant (I := Round) round (fun out s => in_blocks out s.1)
              (fun out _ => closed_published out)
              (fun i out s Hs => spec_ordered_round u64_from_str_ok string_capacity size_of_open_head
                 self contract_filter Hmode Hkind Hprog Hcap Hbytes logs_id heads_id i out s Hs)
              rounds [] (initial_state buffer initial, session)) as (ys & how & s' & -> & Hhow).
  { exists None, 0. split_and!; [constructor| |done|done]. split; cbn; try done.
    by rewrite Hnil. }
  eexists _, _, _. split; [done|]. destruct how; [|by split_and!|done].
  destruct Hhow as (last & from & Hp & _). split_and!; [done|by exists last|].
  exists last, ys, []. by rewrite app_nil_r.
Qed.

(** In realtime mode the stream delivers every notification it accepts, once
    and in receive order: the sequence numbers of the delivered logs and heads
    count from one without a hole (short of [u64::MAX]) and everything is marked
    realtime. *)
Theorem realtime_stream_order initial rounds session :
  delivery_mode (config self) = RealtimeDelivery ->
  exists items how session', run initial rounds session = Some (items, how, session')
    /\ how <> Aborted
    /\ exists n, in_receive_order n items.
Proof.
  intros Hmode. unfold stream_run. destruct (Ordering.with_limits _ _) as [buffer|e].
  2: { eexists _, _, _. split; [done|]. split; [done|]. exists 0. by split; [|repeat constructor]. }
  destruct (generate_invariant (I := Round) round (fun out s => received out s.1)
              (fun out _ => closed_received out)
              (fun i out s Hs => spec_realtime_round u64_from_str_ok string_capacity size_of_open_head
                 self contract_filter Hmode logs_id heads_id i out s Hs)
              rounds [] (initial_state buffer initial, session)) as (ys & how & s' & -> & Hhow).
  { by split. }
  eexists _, _, _. split; [done|]. destruct how; [|by split|done].
  destruct Hhow as [_ Hr]. split; [done|by eexists].
Qed.

(** An established socket is the right chain's. The handshake succeeds only in
    time, after every request was sent, on messages that answer all three
    requests: both subscriptions are acknowledged by non-empty names that every
    acknowledgement repeats, the endpoint reported the expected chain id, and the
    notifications that arrived meanwhile are kept in order within the count and
    byte budgets, none lost; later messages stay on the socket. *)
Theorem handshake_sound c kind expected capacity byte_capacity est :
  establish c contract_filter kind expected capacity byte_capacity = Ok est ->
  in_time c = true /\ connected c = Ok tt /\ sent_logs c (subscription_request 1 contract_filter kind) = Ok tt
  /\ sent_heads c = Ok tt /\ sent_chain_id c = Ok tt
  /\ exists read payloads, incoming c = read ++ socket est /\ payloads_of read = Ok payloads
    /\ subscribed 1 payloads (Some (logs_subscription est))
    /\ subscribed 2 payloads (Some (heads_subscription est))
    /\ (exists p v raw, p ∈ payloads /\ answers_request 3 p v /\ result_text v = Some raw
          /\ u64_from_str raw = Some expected)
    /\ buffered est = List.filter is_notification payloads
    /\ Z.of_nat (length (buffered est)) <= Z.max 0 capacity
    /\ payload_bytes (buffered est) <= Z.max 0 byte_capacity.
Proof.
  unfold establish, before_handshake_deadline, establish_before_deadline.
  destruct (in_time c); [|done]. intros E.
  apply unit_bind_ok in E as [E1%map_err_ok E]. apply unit_bind_ok in E as [E2%map_err_ok E].
  apply unit_bind_ok in E as [E3%map_err_ok E]. apply unit_bind_ok in E as [E4%map_err_ok E].
  apply (read_acknowledgements_ok _ _ _ _ _ []) in E as (read & more & a & Hi & Hp & Ha & Hl & Hh & Hc & Hb).
  - split_and!; try done. exists read, more. cbn [app] in Ha. destruct Ha as [Hal Hah Hac Hab Han Has Hay].
    rewrite Hl in Hal. rewrite Hh in Hah. rewrite Hb. specialize (Hac Hc). by split_and!.
  - split; cbn; try done; try lia; split; set_solver.
Qed.

End Properties.

Definition ws_rounds : list Round :=
  [{| occurrence := Prefetched [0]; round_clock := 0 |};
   {| occurrence := Socket (Some (Ok (Text [2]), Ok tt)); round_clock := 1 |};
   {| occurrence := Socket (Some (Ok (Binary [1]), Ok tt)); round_clock := 2 |};
   {| occurrence := Socket (Some (Ok (Text [3]), Ok tt)); round_clock := 3 |};
   {| occurrence := TimerFired; round_clock := 3 + STANDARD_LOG_GRACE |};
   {| occurrence := Socket None; round_clock := 4 + STANDARD_LOG_GRACE |}].

Definition ws_run (mode : EvmDeliveryMode) :=
  stream_run (fun _ => true) (fun s => Z.of_nat (String.length s)) 200 (ws_source mode) ws_filter
    "logs-a" "heads-a".

Lemma finalized_stream_exact_witness :
  exists items how session', ws_run FinalizedDelivery (Some (cursor_block 9 1 (Some 101) Finalized))
      ws_rounds sample_session = Some (items, how, session')
    /\ how <> Aborted /\ exists n, delivered sample_history 1 n items.
Proof.
  apply (finalized_stream_exact (fun _ => true) (fun s => Z.of_nat (String.length s)) 200
           (ws_source FinalizedDelivery) ws_filter "logs-a" "heads-a" sample_history
           (cursor_block 9 1 (Some 101) Finalized) ws_rounds sample_session).
  - reflexivity.
  - reflexivity.
  - reflexivity.
  - exact sample_limits_ok.
  - split; [discriminate|reflexivity].
  - exact sample_in_order.
  - exact ws_sample_honest.
Defined.

Lemma standard_stream_blocks_witness :
  exists items how session', ws_run BlockOrdered None ws_rounds sample_session = Some (items, how, session')
    /\ how <> Aborted /\ (how = Running -> exists last, published last items)
    /\ closed_published items.
Proof.
  apply (standard_stream_blocks (fun _ => true) (fun s => Z.of_nat (String.length s)) 200
           (ws_source BlockOrdered) ws_filter "logs-a" "heads-a" None ws_rounds sample_session);
    reflexivity || discriminate.
Defined.

Lemma realtime_stream_order_witness :
  exists items how session', ws_run RealtimeDelivery None ws_rounds sample_session = Some (items, how, session')
    /\ how <> Aborted /\ exists n, in_receive_order n items.
Proof.
  apply (realtime_stream_order (fun _ => true) (fun s => Z.of_nat (String.length s)) 200
           (ws_source RealtimeDelivery) ws_filter "logs-a" "heads-a" None ws_rounds sample_session).
  reflexivity.
Defined.

(** What the sample streams deliver. *)
Example standard_sample_items :
  option_map (fun r => length r.1.1) (ws_run BlockOrdered None ws_rounds sample_session) = Some 4%nat.
Proof. reflexivity. Qed.

Example finalized_sample_items :
  option_map (fun r => logs_of r.1.1)
    (ws_run FinalizedDelivery (Some (cursor_block 9 1 (Some 101) Finalized)) ws_rounds sample_session)
  = Some (logs_in (2, 4) sample_history).
Proof. reflexivity. Qed.

Definition ws_connection : Connection :=
  {| connected := Ok tt; sent_logs := fun _ => Ok tt; sent_heads := Ok tt; sent_chain_id := Ok tt;
     incoming := [(Ok (Text [4]), Ok tt); (Ok (Text [2]), Ok tt); (Ok (Ping []), Ok tt);
                  (Ok (Text [6]), Ok tt); (Ok (Text [5]), Ok tt); (Ok (Text [3]), Ok tt)];
     in_time := true |}.

Example sample_handshake :
  option_map (fun est => (logs_subscription est, heads_subscription est, buffered est, length (socket est)))
    (result_ok (establish ws_connection ws_filter "logs" 9 16 1024))
  = Some ("logs-a", "heads-a", [[2]], 1%nat).
Proof. reflexivity. Qed.

Lemma handshake_sound_witness :
  exists est read, establish ws_connection ws_filter "logs" 9 16 1024 = Ok est
    /\ incoming ws_connection = read ++ socket est.
Proof.
  destruct (establish ws_connection ws_filter "logs" 9 16 1024) as [est|e] eqn:E; [|discriminate E].
  destruct (handshake_sound ws_filter ws_connection "logs" 9 16 1024 est E)
    as (_ & _ & _ & _ & _ & read & _ & Hr & _).
  exists est, read. split; [reflexivity|exact Hr].
Defined.
