(* ===== verification/DurableEvent.v ===== *)
(** * Durable events (crates/lunarbase-event-worker/src/event.rs, event/reorg.rs)

    The stable identities, sort keys and records the event worker writes to its
    Redis journal, and the bounded materialization of a fork correction. The
    [serde_json] encoders are parameters. *)

From S2P Require Import Prelude StableSort Text Arithmetic Slot0 State Model Correction Abi Fork.

Definition STREAM_SCHEMA_VERSION : Z := 2.
Definition REORG_ID_DOMAIN : list Z := ascii_bytes "lunarbase-durable-reorg-v3".
Definition ID_DOMAIN_VERSION : string := "lunarbase-durable-v3".
Definition LOG_ID_DOMAIN : list Z := ascii_bytes "lunarbase-durable-log-v3".
Definition RECORD_ID_DOMAIN : list Z := ascii_bytes "lunarbase-durable-record-v3".

Inductive EventError :=
| EventJson (error : string)
| CursorIdentity
| StableIdentity (detail : string)
| HeadIdentity.

#[export] Instance EventError_eq_dec : EqDecision EventError.
Proof. solve_decision. Defined.

Record CursorEnvelope := {
  ce_schema_version : Z;
  ce_chain_id : Z;
  ce_core : string;
  ce_cursor : ChainCursor
}.

Record HeaderEnvelope := {
  he_schema_version : Z;
  he_chain_id : Z;
  he_block_number : Z;
  he_execution_block_number : Z;
  he_block_hash : B256;
  he_parent_hash : B256
}.

(** The [serde_json] encoders and decoders of the derived types. *)
Class EnvelopeJson := {
  cursor_to_string : CursorEnvelope -> result string string;
  cursor_from_slice : string -> result string CursorEnvelope;
  header_to_string : HeaderEnvelope -> result string string;
  header_from_str : string -> result string HeaderEnvelope;
  topics_to_string : list B256 -> result string string
}.

(** What is written is read back. *)
Class EnvelopeLaws `{EnvelopeJson} := {
  cursor_string_roundtrip e s : cursor_to_string e = Ok s -> cursor_from_slice s = Ok e;
  header_string_roundtrip e s : header_to_string e = Ok s -> header_from_str s = Ok e
}.

(** The sizes of the retained structs. *)
Class EventLayout := {
  size_of_DurableEvent : Z;
  size_of_DurableHead : Z;
  size_of_ReorgCorrection : Z
}.

Record DurableEvent := {
  record_id : string;
  logical_log_id : string;
  de_block_hash : string;
  de_cursor_json : string;
  de_cursor_order : string;
  de_fields : list (string * string)
}.

Record DurableHead := {
  header_json : string;
  dh_block_hash : string;
  dh_parent_hash : string;
  dh_block_number : string;
  dh_commitment : string;
  dh_cursor_json : string;
  dh_cursor_order : string
}.

Record StableLogIdentity := {
  sli_block_hash : B256;
  sli_transaction_hash : B256;
  sli_transaction_index : Z;
  sli_log_index : Z
}.

Definition string_len (s : string) : Z := Z.of_nat (String.length s).

Definition event_retained_bytes `{EventLayout} (self : DurableEvent) : Z :=
  let add := uint_saturating_add USIZE in
  add (add (add (add (add (add (string_len (record_id self)) (string_len (logical_log_id self)))
    (string_len (de_block_hash self))) (string_len (de_cursor_json self)))
    (string_len (de_cursor_order self)))
    (fold_left (fun total '(name, value) => add (add total (string_len name)) (string_len value))
       (de_fields self) 0))
    size_of_DurableEvent.

Definition journal_reference_bytes (self : DurableEvent) : Z :=
  let add := uint_saturating_add USIZE in
  add (add (add (add (string_len (de_cursor_order self)) (string_len (logical_log_id self)))
    (string_len (record_id self))) 32) 3.

Definition head_retained_bytes `{EventLayout} (self : DurableHead) : Z :=
  let add := uint_saturating_add USIZE in
  add (add (add (add (add (add (string_len (header_json self)) (string_len (dh_block_hash self)))
    (string_len (dh_parent_hash self))) (string_len (dh_block_number self)))
    (string_len (dh_cursor_json self))) (string_len (dh_cursor_order self))) size_of_DurableHead.

Definition commitment_name (c : Commitment) : string :=
  match c with
  | Realtime => "realtime"
  | Canonical => "block-ordered"
  | Finalized => "finalized"
  end.

(** ** Sort keys *)

(** The [width] decimal digits of a number that fits them. *)
Fixpoint decimal_digits (width : nat) (n : Z) : list Z :=
  match width with
  | O => []
  | S width => decimal_digits width (n / 10) ++ [n mod 10]
  end.

(** [{n:0width}] of a number that fits the width: a [u64] fits twenty digits, a
    [u32] ten. *)
Definition padded (width : nat) (n : Z) : string := string_of (digit_char <$> decimal_digits width n).

Definition cursor_order (c : ChainCursor) : string :=
  let '(block, transaction, log, sequence, sub_index) := event_order c in
  padded 20 block +:+ ":" +:+ padded 10 transaction +:+ ":" +:+ padded 10 log +:+ ":"
    +:+ padded 20 sequence +:+ ":" +:+ padded 10 sub_index.

(** ** Identities *)

Section Identities.
Context `{Keccak}.

Definition encode_id (digest : B256) : string := "v3:" +:+ hex_bytes 32 digest.

Definition stable_log_identity (log : ContractLog) : result EventError StableLogIdentity :=
  let nonzero hash := hash ← hash; if hash =? B256_ZERO then None else Some hash in
  let c := log_cursor log in
  block_hash ← ok_or (nonzero (block_hash c)) (StableIdentity "block hash is absent");
  transaction_hash ← ok_or (nonzero (log_transaction_hash log))
                       (StableIdentity "transaction hash is absent");
  transaction_index ← ok_or (transaction_index c) (StableIdentity "transaction index is absent");
  log_index ← ok_or (log_index c) (StableIdentity "log index is absent");
  Ok {| sli_block_hash := block_hash; sli_transaction_hash := transaction_hash;
        sli_transaction_index := transaction_index; sli_log_index := log_index |}.

Definition logical_log_preimage (log : ContractLog) (identity : StableLogIdentity) : list Z :=
  LOG_ID_DOMAIN ++ be_bytes 8 (chain_id (log_cursor log)) ++ be_bytes 20 (log_address log)
  ++ be_bytes 32 (sli_block_hash identity) ++ be_bytes 32 (sli_transaction_hash identity)
  ++ be_bytes 4 (sli_transaction_index identity) ++ be_bytes 4 (sli_log_index identity).

Definition compute_logical_log_id (log : ContractLog) (identity : StableLogIdentity) : string :=
  encode_id (keccak256 (logical_log_preimage log identity)).

Definition origin_record_preimage (logical_log_id : string) (log : ContractLog) : list Z :=
  RECORD_ID_DOMAIN ++ ascii_bytes logical_log_id ++ ascii_bytes "origin"
  ++ be_bytes 8 (execution_block_number (log_cursor log))
  ++ be_bytes 8 (Z.of_nat (length (log_topics log))) ++ (log_topics log ≫= be_bytes 32)
  ++ be_bytes 8 (Z.of_nat (length (log_data log))) ++ log_data log.

Definition origin_record_id (logical_log_id : string) (log : ContractLog) : string :=
  encode_id (keccak256 (origin_record_preimage logical_log_id log)).

(** [{:#x}] of [Bytes] *)
Definition hex_data (bytes : list Z) : string :=
  "0x" +:+ string_of (digit_char <$> (bytes ≫= fun b => [b / 16; b mod 16])).

Context `{EnvelopeJson}.

Definition encode_cursor (cursor : ChainCursor) (core : string) : result EventError string :=
  map_err EventJson (cursor_to_string
    {| ce_schema_version := STREAM_SCHEMA_VERSION; ce_chain_id := chain_id cursor;
       ce_core := core; ce_cursor := cursor |}).

Definition decode_cursor (payload : string) (expected_chain_id : Z) (expected_core : Address)
    : result EventError ChainCursor :=
  envelope ← map_err EventJson (cursor_from_slice payload);
  if negb (ce_schema_version envelope =? STREAM_SCHEMA_VERSION)
     || negb (ce_chain_id envelope =? expected_chain_id)
     || negb (String.eqb (ce_core envelope) (hex_bytes 20 expected_core))
     || negb (chain_id (ce_cursor envelope) =? expected_chain_id)
  then Err CursorIdentity
  else Ok (ce_cursor envelope).

Definition event_from_log (log : ContractLog) : result EventError DurableEvent :=
  if log_removed log
  then Err (StableIdentity "provider removals require resolved fork correction")
  else if bool_decide (log_topics log = []) || (4 <? Z.of_nat (length (log_topics log)))
  then Err (StableIdentity "topic0 is absent or invalid")
  else
  identity ← stable_log_identity log;
  let logical := compute_logical_log_id log identity in
  let c := log_cursor log in
  let core := hex_bytes 20 (log_address log) in
  cursor_json ← encode_cursor c core;
  topics ← map_err EventJson (topics_to_string (log_topics log));
  Ok {| record_id := origin_record_id logical log;
        logical_log_id := logical;
        de_block_hash := hex_bytes 32 (sli_block_hash identity);
        de_cursor_json := cursor_json;
        de_cursor_order := cursor_order c;
        de_fields :=
          [("chainId", decimal (chain_id c)); ("core", core);
           ("commitment", commitment_name (commitment c));
           ("blockNumber", decimal (block_number c));
           ("executionBlockNumber", decimal (execution_block_number c));
           ("transactionHash", hex_bytes 32 (sli_transaction_hash identity));
           ("transactionIndex", decimal (sli_transaction_index identity));
           ("logIndex", decimal (sli_log_index identity))]
          ++ match source_sequence c with
             | Some sequence => [("sourceSequence", decimal sequence)]
             | None => []
             end
          ++ match source_sub_index c with
             | Some sub_index => [("sourceSubIndex", decimal sub_index)]
             | None => []
             end
          ++ [("topics", topics); ("data", hex_data (log_data log))] |}.

Definition head_from_block (block : BlockRef) (core : Address) : result EventError DurableHead :=
  let c := br_cursor block in
  hash ← ok_or (block_hash c) HeadIdentity;
  parent ← ok_or (br_parent_hash block) HeadIdentity;
  if (hash =? B256_ZERO) || is_some (transaction_index c) || is_some (log_index c)
  then Err HeadIdentity
  else
  header ← map_err EventJson (header_to_string
    {| he_schema_version := STREAM_SCHEMA_VERSION; he_chain_id := chain_id c;
       he_block_number := block_number c; he_execution_block_number := execution_block_number c;
       he_block_hash := hash; he_parent_hash := parent |});
  cursor_json ← encode_cursor c (hex_bytes 20 core);
  Ok {| header_json := header; dh_block_hash := hex_bytes 32 hash;
        dh_parent_hash := hex_bytes 32 parent; dh_block_number := decimal (block_number c);
        dh_commitment := commitment_name (commitment c); dh_cursor_json := cursor_json;
        dh_cursor_order := cursor_order c |}.

Definition decode_header (payload : string) (expected_chain_id : Z) : result EventError BlockRef :=
  envelope ← map_err EventJson (header_from_str payload);
  if negb (he_schema_version envelope =? STREAM_SCHEMA_VERSION)
     || negb (he_chain_id envelope =? expected_chain_id)
     || (he_block_hash envelope =? B256_ZERO)
     || (he_parent_hash envelope =? B256_ZERO)
  then Err HeadIdentity
  else
    Ok {| br_cursor := cursor_execution_block (he_chain_id envelope) (he_block_number envelope)
                         (he_execution_block_number envelope) (Some (he_block_hash envelope)) Canonical;
          br_parent_hash := Some (he_parent_hash envelope) |}.

(** ** Fork corrections (event/reorg.rs) *)

Record CorrectionBlock := {
  cb_block_hash : string;
  cb_block_number : string
}.

Record ReorgCorrection := {
  reorg_id : string;
  begin_record_id : string;
  commit_record_id : string;
  rc_chain_id : string;
  rc_core : string;
  rc_ancestor : BlockRef;
  rc_old_tip : BlockRef;
  rc_new_tip : BlockRef;
  rc_finalized : BlockRef;
  old_blocks : list CorrectionBlock;
  new_heads : list DurableHead;
  new_events : list DurableEvent;
  rc_cursor_json : string;
  rc_cursor_order : string
}.

Definition block_required_hash (block : BlockRef) : result EventError B256 :=
  ok_or (block_hash (br_cursor block)) HeadIdentity.
Definition block_required_parent (block : BlockRef) : result EventError B256 :=
  ok_or (br_parent_hash block) HeadIdentity.

Definition reorg_hash_block (block : BlockRef) : list Z :=
  hash_u64 (chain_id (br_cursor block)) ++ hash_u64 (block_number (br_cursor block))
  ++ hash_u64 (execution_block_number (br_cursor block))
  ++ hash_optional_hash (block_hash (br_cursor block)) ++ hash_optional_hash (br_parent_hash block).

Definition hash_blocks (blocks : list BlockRef) : list Z :=
  hash_u64 (Z.of_nat (length blocks)) ++ (blocks ≫= reorg_hash_block).

Definition reorg_hash_log (log : ContractLog) : list Z :=
  let c := log_cursor log in
  be_bytes 20 (log_address log) ++ hash_u64 (chain_id c) ++ hash_u64 (block_number c)
  ++ hash_u64 (execution_block_number c) ++ hash_optional_hash (block_hash c)
  ++ hash_optional_hash (log_transaction_hash log) ++ hash_optional_u32 (transaction_index c)
  ++ hash_optional_u32 (log_index c)
  ++ hash_u64 (Z.of_nat (length (log_topics log))) ++ (log_topics log ≫= be_bytes 32)
  ++ hash_u64 (Z.of_nat (length (log_data log))) ++ log_data log.

Definition reorg_preimage (r : ForkResolution) (logs : list ContractLog) (core : Address) : list Z :=
  REORG_ID_DOMAIN ++ be_bytes 20 core
  ++ reorg_hash_block (res_common_ancestor r) ++ reorg_hash_block (res_old_tip r)
  ++ reorg_hash_block (res_new_tip r) ++ hash_blocks (res_old_branch r)
  ++ hash_blocks (res_new_branch r)
  ++ hash_u64 (Z.of_nat (length logs)) ++ (logs ≫= reorg_hash_log).

Definition compute_reorg_id (r : ForkResolution) (logs : list ContractLog) (core : Address) : string :=
  encode_id (keccak256 (reorg_preimage r logs core)).

Definition lifecycle_record_id (logical_log_id reorg_id operation : string) : string :=
  encode_id (keccak256 (RECORD_ID_DOMAIN ++ ascii_bytes logical_log_id ++ ascii_bytes reorg_id
                          ++ ascii_bytes operation)).

Definition control_record_id (reorg_id operation : string) : string :=
  encode_id (keccak256 (RECORD_ID_DOMAIN ++ ascii_bytes reorg_id ++ ascii_bytes operation)).

(** [collect::<Result<Vec<_>, _>>()] *)
Fixpoint collect_results {E A B} (f : A -> result E B) (l : list A) : result E (list B) :=
  match l with
  | [] => Ok []
  | x :: l => y ← f x; rest ← collect_results f l; Ok (y :: rest)
  end.

(** Each replacement log, with the order of the one before it. *)
Definition materialize_log (allowed : gmap Z B256) (reorg_id : string)
    (acc : list DurableEvent * option EventOrder) (log : ContractLog)
    : result EventError (list DurableEvent * option EventOrder) :=
  let '(new_events, previous_order) := acc in
  hash ← ok_or (block_hash (log_cursor log)) (StableIdentity "block hash is absent");
  if negb (bool_decide (allowed !! block_number (log_cursor log) = Some hash))
  then Err (StableIdentity "replacement log is outside the resolved branch")
  else
  let order := event_order (log_cursor log) in
  if match previous_order with Some previous => order_leb order previous | None => false end
  then Err (StableIdentity "replacement logs are not in strict event order")
  else
  event ← event_from_log log;
  Ok (new_events ++
        [{| record_id := lifecycle_record_id (logical_log_id event) reorg_id "applied";
            logical_log_id := logical_log_id event; de_block_hash := de_block_hash event;
            de_cursor_json := de_cursor_json event; de_cursor_order := de_cursor_order event;
            de_fields := de_fields event |}],
      Some order).

(** The end of the new tip's block, where recovery resumes. *)
Definition recovery_cursor (new_tip : BlockRef) : ChainCursor :=
  let c := br_cursor new_tip in
  {| chain_id := chain_id c; block_number := block_number c;
     execution_block_number := execution_block_number c; block_hash := block_hash c;
     transaction_index := Some U32_MAX; log_index := Some U32_MAX;
     source_sequence := source_sequence c; source_sub_index := source_sub_index c;
     commitment := commitment c |}.

Definition reorg_correction_new (r : ForkResolution) (finalized : BlockRef) (logs : list ContractLog)
    (core : Address) : result EventError ReorgCorrection :=
  _ ← block_required_hash (res_common_ancestor r);
  _ ← block_required_hash (res_old_tip r);
  _ ← block_required_hash (res_new_tip r);
  _ ← block_required_hash finalized;
  let id := compute_reorg_id r logs core in
  entries ← collect_results (fun block => hash ← block_required_hash block;
                                          Ok (block_number (br_cursor block), hash))
              (res_new_branch r);
  let allowed : gmap Z B256 := fold_left (fun m '(n, hash) => <[ n := hash ]> m) entries ∅ in
  '(events, _) ← try_fold (materialize_log allowed id) ([], None) logs;
  heads ← collect_results (fun block => head_from_block block core) (res_new_branch r);
  cursor_json ← encode_cursor (recovery_cursor (res_new_tip r)) (hex_bytes 20 core);
  blocks ← collect_results (fun block =>
             hash ← block_required_hash block;
             Ok {| cb_block_hash := hex_bytes 32 hash;
                   cb_block_number := decimal (block_number (br_cursor block)) |})
             (res_old_branch r);
  Ok {| reorg_id := id;
        begin_record_id := control_record_id id "begin";
        commit_record_id := control_record_id id "commit";
        rc_chain_id := decimal (chain_id (br_cursor (res_old_tip r)));
        rc_core := hex_bytes 20 core;
        rc_ancestor := res_common_ancestor r;
        rc_old_tip := res_old_tip r;
        rc_new_tip := res_new_tip r;
        rc_finalized := finalized;
        old_blocks := blocks;
        new_heads := heads;
        new_events := events;
        rc_cursor_json := cursor_json;
        rc_cursor_order := cursor_order (recovery_cursor (res_new_tip r)) |}.

Definition correction_lifecycle_record_id (self : ReorgCorrection) (logical_log_id operation : string)
    : string := lifecycle_record_id logical_log_id (reorg_id self) operation.

(** [iter().sum()] of byte counts; the counts of one process never overflow. *)
Definition sum_of (l : list Z) : Z := fold_left Z.add l 0.

Definition reorg_retained_bytes `{EventLayout} (self : ReorgCorrection) : Z :=
  let add := uint_saturating_add USIZE in
  add (add (add (add (add (add (add (add (string_len (reorg_id self))
    (string_len (begin_record_id self))) (string_len (commit_record_id self)))
    (string_len (rc_cursor_json self))) (string_len (rc_cursor_order self)))
    (sum_of ((fun b => string_len (cb_block_hash b) + string_len (cb_block_number b))
               <$> old_blocks self)))
    (sum_of (head_retained_bytes <$> new_heads self)))
    (sum_of (event_retained_bytes <$> new_events self)))
    size_of_ReorgCorrection.

Definition control_fields (self : ReorgCorrection) (reverted : Z)
    : result EventError (list (string * string)) :=
  ancestor_hash ← block_required_hash (rc_ancestor self);
  old_tip_hash ← block_required_hash (rc_old_tip self);
  old_tip_parent ← block_required_parent (rc_old_tip self);
  new_tip_hash ← block_required_hash (rc_new_tip self);
  new_tip_parent ← block_required_parent (rc_new_tip self);
  finalized_hash ← block_required_hash (rc_finalized self);
  let number b := decimal (block_number (br_cursor b)) in
  let execution b := decimal (execution_block_number (br_cursor b)) in
  Ok [("chainId", rc_chain_id self); ("core", rc_core self); ("reorgId", reorg_id self);
      ("ancestorBlockNumber", number (rc_ancestor self));
      ("ancestorExecutionBlockNumber", execution (rc_ancestor self));
      ("ancestorBlockHash", hex_bytes 32 ancestor_hash);
      ("oldTipBlockNumber", number (rc_old_tip self));
      ("oldTipExecutionBlockNumber", execution (rc_old_tip self));
      ("oldTipBlockHash", hex_bytes 32 old_tip_hash);
      ("oldTipParentHash", hex_bytes 32 old_tip_parent);
      ("newTipBlockNumber", number (rc_new_tip self));
      ("newTipExecutionBlockNumber", execution (rc_new_tip self));
      ("newTipBlockHash", hex_bytes 32 new_tip_hash);
      ("newTipParentHash", hex_bytes 32 new_tip_parent);
      ("finalizedBlockNumber", number (rc_finalized self));
      ("finalizedBlockHash", hex_bytes 32 finalized_hash);
      ("revertedLogCount", decimal reverted);
      ("appliedLogCount", decimal (Z.of_nat (length (new_events self))))].

End Identities.
