(* ===== verification/DurableEventFacts.v ===== *)
(** * Correctness of the durable identities

    The sort keys order as the events do, the identities determine what they
    identify, the envelopes are read back, and what a materialized correction
    holds. *)

From S2P Require Import Prelude StableSort Text Arithmetic Slot0 State Model Correction Abi Fork.
From S2P Require Import DurableEvent.

(** ** Strings in byte order *)

Lemma compare_app s1 s2 t1 t2 :
  String.length s1 = String.length s2 ->
  String.compare (s1 +:+ t1) (s2 +:+ t2)
  = match String.compare s1 s2 with Eq => String.compare t1 t2 | c => c end.
Proof.
  revert s2. induction s1 as [|a s1 IH]; intros [|b s2] Hl; try done. injection Hl as Hl.
  change (String a s1 +:+ t1) with (String a (s1 +:+ t1)).
  change (String b s2 +:+ t2) with (String b (s2 +:+ t2)). cbn [String.compare].
  destruct (Ascii.compare a b); [by apply IH|done..].
Qed.

Lemma compare_eq s t : s = t <-> String.compare s t = Eq.
Proof.
  split; [intros <-|apply String.compare_eq_iff].
  pose proof (String.compare_antisym s s) as E. by destruct (String.compare s s).
Qed.

Lemma length_string_of l : String.length (string_of l) = length l.
Proof. by rewrite <-chars_length, chars_string_of. Qed.

Lemma string_of_app l k : string_of (l ++ k) = string_of l +:+ string_of k.
Proof. induction l as [|a l IH]; [done|]. exact (f_equal (String a) IH). Qed.

Lemma decimal_digits_length w n : length (decimal_digits w n) = w.
Proof.
  revert n. induction w as [|w IH]; intros n; [done|]. cbn [decimal_digits]. rewrite length_app, IH. cbn. lia.
Qed.

Lemma padded_length w n : String.length (padded w n) = w.
Proof. unfold padded. by rewrite length_string_of, length_fmap, decimal_digits_length. Qed.

Lemma padded_succ w n : padded (S w) n = padded w (n / 10) +:+ string_of [digit_char (n mod 10)].
Proof. unfold padded. cbn [decimal_digits]. by rewrite fmap_app, string_of_app. Qed.

Lemma digit_compare a b :
  0 <= a < 10 -> 0 <= b < 10 ->
  String.compare (string_of [digit_char a]) (string_of [digit_char b]) = (a ?= b).
Proof.
  intros Ha Hb.
  assert (forallb (fun a => forallb (fun b => match String.compare (string_of [digit_char a])
            (string_of [digit_char b]), a ?= b with Eq, Eq | Lt, Lt | Gt, Gt => true | _, _ => false end)
            (Z.of_nat <$> seq 0 10)) (Z.of_nat <$> seq 0 10) = true) as T by (vm_compute; reflexivity).
  assert (forall d, 0 <= d < 10 -> List.In d (Z.of_nat <$> seq 0 10)) as Hin.
  { intros d Hd. apply list_elem_of_In, list_elem_of_fmap. exists (Z.to_nat d).
    split; [lia|]. apply elem_of_seq. lia. }
  rewrite forallb_forall in T. specialize (T a (Hin a Ha)). rewrite forallb_forall in T.
  specialize (T b (Hin b Hb)). by destruct (String.compare _ _), (a ?= b).
Qed.

Lemma padded_compare w x y :
  0 <= x < 10 ^ Z.of_nat w -> 0 <= y < 10 ^ Z.of_nat w ->
  String.compare (padded w x) (padded w y) = (x ?= y).
Proof.
  revert x y. induction w as [|w IH]; intros x y Hx Hy.
  { cbn in *. assert (x = y) as -> by lia. symmetry. apply Z.compare_refl. }
  rewrite Nat2Z.inj_succ, Z.pow_succ_r in Hx, Hy by lia.
  assert (forall z, 0 <= z < 10 * 10 ^ Z.of_nat w -> 0 <= z / 10 < 10 ^ Z.of_nat w) as Hd.
  { intros z Hz. split; [apply Z.div_pos; lia|apply Z.div_lt_upper_bound; lia]. }
  pose proof (Z.mod_pos_bound x 10 ltac:(lia)). pose proof (Z.mod_pos_bound y 10 ltac:(lia)).
  pose proof (Z.div_mod x 10 ltac:(lia)). pose proof (Z.div_mod y 10 ltac:(lia)).
  rewrite !padded_succ, compare_app by (by rewrite !padded_length).
  rewrite IH, digit_compare by auto.
  destruct (Z.compare_spec (x / 10) (y / 10)), (Z.compare_spec (x mod 10) (y mod 10)),
    (Z.compare_spec x y); done || lia.
Qed.

(** The coordinates of a cursor fit the types of its fields. *)
Record cursor_in_range (c : ChainCursor) : Prop := {
  range_chain : uint 64 (chain_id c);
  range_block : uint 64 (block_number c);
  range_execution : uint 64 (execution_block_number c);
  range_hash : opt_fits (uint 256) (block_hash c);
  range_transaction : opt_fits (uint 32) (transaction_index c);
  range_log : opt_fits (uint 32) (log_index c);
  range_sequence : opt_fits (uint 64) (source_sequence c);
  range_sub_index : opt_fits (uint 32) (source_sub_index c)
}.

Definition order_fits (o : EventOrder) : Prop :=
  let '(b, t, l, s, i) := o in uint 64 b /\ uint 32 t /\ uint 32 l /\ uint 64 s /\ uint 32 i.

Lemma event_order_fits c : cursor_in_range c -> order_fits (event_order c).
Proof.
  intros [_ Hb _ _ Ht Hl Hs Hi]. unfold event_order, order_fits.
  assert (forall w o, 0 <= w -> opt_fits (uint w) o -> uint w (default 0 o)) as Hd.
  { intros w [x|] Hw Ho; [done|]. cbn. unfold uint. pose proof (Z.pow_pos_nonneg 2 w). lia. }
  destruct (_ && _); split_and!; try apply Hd; done || (unfold uint; lia).
Qed.

Definition order_compare (x y : EventOrder) : comparison :=
  let '(x1, x2, x3, x4, x5) := x in
  let '(y1, y2, y3, y4, y5) := y in
  match x1 ?= y1 with
  | Eq => match x2 ?= y2 with
          | Eq => match x3 ?= y3 with
                  | Eq => match x4 ?= y4 with Eq => x5 ?= y5 | c => c end
                  | c => c end
          | c => c end
  | c => c
  end.

Lemma order_compare_spec x y :
  CompareSpec (x = y) (order_lt x y) (order_lt y x) (order_compare x y).
Proof.
  destruct x as [[[[x1 x2] x3] x4] x5], y as [[[[y1 y2] y3] y4] y5]. unfold order_compare, order_lt.
  destruct (Z.compare_spec x1 y1); [|constructor; rewrite order_ltb_spec; lia..].
  destruct (Z.compare_spec x2 y2); [|constructor; rewrite order_ltb_spec; lia..].
  destruct (Z.compare_spec x3 y3); [|constructor; rewrite order_ltb_spec; lia..].
  destruct (Z.compare_spec x4 y4); [|constructor; rewrite order_ltb_spec; lia..].
  destruct (Z.compare_spec x5 y5); constructor; [by subst|rewrite order_ltb_spec; lia..].
Qed.

(** The sort key of a cursor compares as its event order. *)
Lemma cursor_order_compare c d :
  cursor_in_range c -> cursor_in_range d ->
  String.compare (cursor_order c) (cursor_order d) = order_compare (event_order c) (event_order d).
Proof.
  intros Hc%event_order_fits Hd%event_order_fits. unfold cursor_order.
  destruct (event_order c) as [[[[x1 x2] x3] x4] x5], (event_order d) as [[[[y1 y2] y3] y4] y5].
  destruct Hc as (? & ? & ? & ? & ?), Hd as (? & ? & ? & ? & ?). unfold order_compare.
  assert (10 ^ Z.of_nat 20 > 2 ^ 64 /\ 10 ^ Z.of_nat 10 > 2 ^ 32) as [] by (vm_compute; done).
  unfold uint in *.
  assert (forall s t, String.compare (":" +:+ s) (":" +:+ t) = String.compare s t) as Hcolon.
  { intros s t. by rewrite compare_app. }
  do 4 (rewrite compare_app by (by rewrite !padded_length); rewrite padded_compare by lia;
        destruct (_ ?= _); [rewrite Hcolon|done..]).
  apply padded_compare; lia.
Qed.

(** C: The journal orders its streams, its cursor and its replayed records by
    the text of [cursor_order]: on cursors whose coordinates fit their widths that
    text compares, byte by byte, exactly as the event orders do, and two cursors
    share a key only when they share an event order. *)
Theorem cursor_order_sorts c d :
  cursor_in_range c -> cursor_in_range d ->
  String.compare (cursor_order c) (cursor_order d) = order_compare (event_order c) (event_order d)
  /\ (String.ltb (cursor_order c) (cursor_order d) = true <-> order_lt (event_order c) (event_order d))
  /\ (cursor_order c = cursor_order d <-> event_order c = event_order d).
Proof.
  intros Hc Hd. pose proof (cursor_order_compare c d Hc Hd) as E. unfold String.ltb. rewrite E.
  assert (cursor_order c = cursor_order d <-> order_compare (event_order c) (event_order d) = Eq) as ->.
  { rewrite <-E. apply compare_eq. }
  destruct (order_compare_spec (event_order c) (event_order d)) as [->|H|H]; split_and!; try done.
  - split; [done|]. intros H. by destruct (irreflexivity order_lt _ H).
  - split; [done|]. intros E'. rewrite E' in H. by destruct (irreflexivity order_lt _ H).
  - split; [done|]. intros H'. by destruct (irreflexivity order_lt _ (transitivity H H')).
  - split; [done|]. intros E'. rewrite E' in H. by destruct (irreflexivity order_lt _ H).
Qed.

Definition sample_log_cursor (transaction log : Z) : ChainCursor :=
  {| chain_id := 8453; block_number := 41; execution_block_number := 41; block_hash := Some 2;
     transaction_index := Some transaction; log_index := Some log; source_sequence := Some 7;
     source_sub_index := Some 1; commitment := Canonical |}.

Lemma cursor_order_sorts_witness :
  String.ltb (cursor_order (sample_log_cursor 2 10)) (cursor_order (sample_log_cursor 10 2)) = true.
Proof.
  apply (cursor_order_sorts (sample_log_cursor 2 10) (sample_log_cursor 10 2));
    [split; cbn; unfold uint; lia..|vm_compute; reflexivity].
Defined.

(** ** What the logical identity identifies *)

Lemma digit_char_inj x y : digit x -> digit y -> digit_char x = digit_char y -> x = y.
Proof.
  intros Hx Hy E.
  pose proof (mapM_digit_char [x] ltac:(by constructor)) as Mx.
  pose proof (mapM_digit_char [y] ltac:(by constructor)) as My. cbn in Mx, My.
  rewrite E, My in Mx. congruence.
Qed.

Lemma be_bytes_byte n x : Forall (uint 8) (be_bytes n x).
Proof.
  revert x. induction n as [|n IH]; intros x; [constructor|]. cbn [be_bytes].
  apply Forall_app. split; [apply IH|]. apply Forall_singleton.
  pose proof (Z.mod_pos_bound x 256). unfold uint. lia.
Qed.

Lemma byte_digits x : uint 8 x -> digit (x / 16) /\ digit (x mod 16).
Proof.
  unfold uint, digit. intros Hx. pose proof (Z.mod_pos_bound x 16 ltac:(lia)).
  split; [split; [apply Z.div_pos; lia|apply Z.div_lt_upper_bound; lia]|lia].
Qed.

Lemma hex_digits_inj l m :
  Forall (uint 8) l -> Forall (uint 8) m ->
  digit_char <$> (l ≫= fun b => [b / 16; b mod 16]) = digit_char <$> (m ≫= fun b => [b / 16; b mod 16]) ->
  l = m.
Proof.
  revert m. induction l as [|x l IH]; intros [|y m] Hl Hm E; try done.
  inversion_clear Hl as [|? ? Hx Hl']. inversion_clear Hm as [|? ? Hy Hm'].
  cbn in E. injection E as E1 E2 E3. f_equal; [|by apply IH].
  destruct (byte_digits x Hx), (byte_digits y Hy).
  apply digit_char_inj in E1, E2; [|done..].
  rewrite (Z.div_mod x 16), (Z.div_mod y 16) by done. congruence.
Qed.

Lemma hex_bytes_inj n x y :
  0 <= x < 256 ^ Z.of_nat n -> 0 <= y < 256 ^ Z.of_nat n -> hex_bytes n x = hex_bytes n y -> x = y.
Proof.
  intros Hx Hy E. unfold hex_bytes in E. apply (inj (String.append "0x")) in E.
  apply (f_equal chars) in E. rewrite !chars_string_of in E.
  apply (be_bytes_inj n); [done..|]. apply hex_digits_inj; [apply be_bytes_byte..|done].
Qed.

Section Identities.
Context `{Keccak}.

Lemma encode_id_inj h k : uint 256 h -> uint 256 k -> encode_id h = encode_id k -> h = k.
Proof.
  intros Hh Hk E. unfold encode_id in E. apply (inj (String.append "v3:")) in E. by apply (hex_bytes_inj 32).
Qed.

Definition identity_in_range (log : ContractLog) (i : StableLogIdentity) : Prop :=
  uint 64 (chain_id (log_cursor log)) /\ uint 160 (log_address log) /\ uint 256 (sli_block_hash i)
  /\ uint 256 (sli_transaction_hash i) /\ uint 32 (sli_transaction_index i)
  /\ uint 32 (sli_log_index i).

Lemma logical_preimage_inj log i log' i' :
  identity_in_range log i -> identity_in_range log' i' ->
  logical_log_preimage log i = logical_log_preimage log' i' ->
  chain_id (log_cursor log) = chain_id (log_cursor log') /\ log_address log = log_address log' /\ i = i'.
Proof.
  intros (? & ? & ? & ? & ? & ?) (? & ? & ? & ? & ? & ?) E. unfold logical_log_preimage in E.
  apply app_inv_head in E.
  apply (be_bytes_delimited 8) in E as [E1 E]; [|done..].
  apply (be_bytes_delimited 20) in E as [E2 E]; [|done..].
  apply (be_bytes_delimited 32) in E as [E3 E]; [|done..].
  apply (be_bytes_delimited 32) in E as [E4 E]; [|done..].
  apply (be_bytes_delimited 4) in E as [E5 E]; [|done..].
  apply (be_bytes_inj 4) in E; [|done..]. destruct i, i'; cbn in *. by subst.
Qed.

(** C: The id under which a log's history is kept is a function of its chain,
    its contract and its place in its block, and where the hash does not collide it
    determines them: neither the commitment, the payload nor the block number
    enters it. *)
Theorem logical_log_id_identifies log i log' i' :
  identity_in_range log i -> identity_in_range log' i' ->
  (forall m, uint 256 (keccak256 m)) ->
  (keccak256 (logical_log_preimage log i) = keccak256 (logical_log_preimage log' i') ->
   logical_log_preimage log i = logical_log_preimage log' i') ->
  compute_logical_log_id log i = compute_logical_log_id log' i'
  <-> chain_id (log_cursor log) = chain_id (log_cursor log') /\ log_address log = log_address log'
      /\ i = i'.
Proof.
  intros Hi Hi' Hk Hc. unfold compute_logical_log_id. split.
  - intros E. by apply encode_id_inj, Hc, logical_preimage_inj in E.
  - intros (E1 & E2 & ->). unfold logical_log_preimage. by rewrite E1, E2.
Qed.

End Identities.

Definition sample_stable (hash : B256) (index : Z) : StableLogIdentity :=
  {| sli_block_hash := hash; sli_transaction_hash := 3; sli_transaction_index := 2;
     sli_log_index := index |}.

Definition sample_log (c : Commitment) (payload log : Z) : ContractLog :=
  {| log_address := 4; log_transaction_hash := Some 3; log_topics := [payload]; log_topics_capacity := 1; log_data := [payload];
     log_removed := false;
     log_cursor := {| chain_id := 8453; block_number := 41; execution_block_number := 41;
                      block_hash := Some 2; transaction_index := Some 2; log_index := Some log;
                      source_sequence := Some 7; source_sub_index := Some 1; commitment := c |} |}.

(** A hash that keeps its message apart on the sample. *)
#[local] Instance sample_event_keccak : Keccak := fun m => be_value (drop 24 m) mod 2 ^ 256.

Lemma logical_log_id_identifies_witness :
  compute_logical_log_id (sample_log Canonical 1 3) (sample_stable 2 3)
  = compute_logical_log_id (sample_log Realtime 9 3) (sample_stable 2 3).
Proof.
  apply (logical_log_id_identifies (sample_log Canonical 1 3) (sample_stable 2 3)
           (sample_log Realtime 9 3) (sample_stable 2 3)).
  - split_and!; cbn; unfold uint; lia.
  - split_and!; cbn; unfold uint; lia.
  - intros m. unfold keccak256, sample_event_keccak, uint.
    pose proof (Z.mod_pos_bound (be_value (drop 24 m)) (2 ^ 256)). lia.
  - done.
  - done.
Defined.

(** ** Envelopes *)

Section Envelopes.
Context `{EnvelopeLaws}.

Lemma encode_cursor_Ok c core s :
  encode_cursor c core = Ok s ->
  cursor_from_slice s = Ok {| ce_schema_version := STREAM_SCHEMA_VERSION; ce_chain_id := chain_id c;
                              ce_core := core; ce_cursor := c |}.
Proof.
  unfold encode_cursor. destruct (cursor_to_string _) as [t|] eqn:E; [|done]. intros [= ->].
  by apply cursor_string_roundtrip.
Qed.

(** The shape of a head the journal stores. *)
Record head_of_block (block : BlockRef) (core : Address) (hash parent : B256) (h : DurableHead) : Prop := {
  hob_hash : block_hash (br_cursor block) = Some hash;
  hob_parent : br_parent_hash block = Some parent;
  hob_nonzero : hash <> B256_ZERO;
  hob_block_end : transaction_index (br_cursor block) = None /\ log_index (br_cursor block) = None;
  hob_header : header_from_str (header_json h)
    = Ok {| he_schema_version := STREAM_SCHEMA_VERSION; he_chain_id := chain_id (br_cursor block);
            he_block_number := block_number (br_cursor block);
            he_execution_block_number := execution_block_number (br_cursor block);
            he_block_hash := hash; he_parent_hash := parent |};
  hob_texts : dh_block_hash h = hex_bytes 32 hash /\ dh_parent_hash h = hex_bytes 32 parent
              /\ dh_block_number h = decimal (block_number (br_cursor block))
              /\ dh_commitment h = commitment_name (commitment (br_cursor block))
              /\ dh_cursor_order h = cursor_order (br_cursor block);
  hob_cursor : encode_cursor (br_cursor block) (hex_bytes 20 core) = Ok (dh_cursor_json h)
}.

Lemma head_from_block_Ok block core h :
  head_from_block block core = Ok h -> exists hash parent, head_of_block block core hash parent h.
Proof.
  unfold head_from_block. intros Hh.
  apply bind_ok in Hh as (hash & Eh & Hh). apply bind_ok in Hh as (parent & Ep & Hh).
  destruct (block_hash (br_cursor block)) as [hash'|] eqn:Eh'; [|done]. injection Eh as ->.
  destruct (br_parent_hash block) as [parent'|] eqn:Ep'; [|done]. injection Ep as ->.
  destruct (_ || _) eqn:Eg; [done|].
  apply bind_ok in Hh as (header & Ej & Hh). apply bind_ok in Hh as (cj & Ec & [= <-]).
  apply orb_false_iff in Eg as [Eg El]. apply orb_false_iff in Eg as [Ez Et].
  exists hash, parent. apply Z.eqb_neq in Ez.
  split; cbn; try done.
  - by destruct (transaction_index _), (log_index _).
  - destruct (header_to_string _) eqn:E; [|done]. injection Ej as ->. by apply header_string_roundtrip.
Qed.

(** C: The durable cursor is read back as it was written, and only by the
    deployment that wrote it: another chain, another core or another schema
    version is refused with [CursorIdentity]. *)
Theorem durable_cursor_roundtrip c core s chain core' :
  uint 160 core -> uint 160 core' ->
  encode_cursor c (hex_bytes 20 core) = Ok s ->
  decode_cursor s chain core'
  = if (chain_id c =? chain) && (core =? core') then Ok c else Err CursorIdentity.
Proof.
  intros Hc Hc' Hs%encode_cursor_Ok. unfold decode_cursor. rewrite Hs.
  cbn [map_err mbind result_bind ce_schema_version ce_chain_id ce_core ce_cursor].
  rewrite Z.eqb_refl. cbn [negb orb].
  destruct (Z.eqb_spec (chain_id c) chain); [|done]. cbn [negb orb andb].
  destruct (Z.eqb_spec core core') as [->|Hne]; [by rewrite String.eqb_refl|].
  destruct (String.eqb_spec (hex_bytes 20 core) (hex_bytes 20 core')) as [E|]; [|done].
  by apply hex_bytes_inj in E.
Qed.

(** C: A stored head is read back as the block it was written from, at its
    chain, numbers, hash and parent; the commitment and the feed position are not
    part of it. Only a zero parent, which the writer accepts, is refused by the
    reader. *)
Theorem durable_head_roundtrip block core h chain :
  head_from_block block core = Ok h ->
  decode_header (header_json h) chain
  = if (chain_id (br_cursor block) =? chain)
       && negb (bool_decide (br_parent_hash block = Some B256_ZERO))
    then Ok {| br_cursor := cursor_execution_block (chain_id (br_cursor block))
                              (block_number (br_cursor block))
                              (execution_block_number (br_cursor block))
                              (block_hash (br_cursor block)) Canonical;
               br_parent_hash := br_parent_hash block |}
    else Err HeadIdentity.
Proof.
  intros Hh. apply head_from_block_Ok in Hh as (hash & parent & [Eh Ep Hz _ Hj _ _]).
  unfold decode_header. rewrite Hj, Eh, Ep.
  cbn [map_err mbind result_bind he_schema_version he_chain_id he_block_hash he_parent_hash
       he_block_number he_execution_block_number].
  rewrite Z.eqb_refl. cbn [negb orb].
  destruct (Z.eqb_spec (chain_id (br_cursor block)) chain); [|done]. cbn [negb orb andb].
  destruct (Z.eqb_spec hash B256_ZERO); [done|]. cbn [orb].
  destruct (Z.eqb_spec parent B256_ZERO) as [->|Hp].
  - by rewrite bool_decide_true.
  - rewrite bool_decide_false by congruence. done.
Qed.
End Envelopes.

(** ** Materialized corrections *)

Abbreviation log_order := (fun log => event_order (log_cursor log)) (only parsing).

Section Materialize.
Context `{Keccak} `{EnvelopeJson}.

(** A materialized event: the log's, under the correction's record id. *)
Definition applied_event (id : string) (log : ContractLog) (e : DurableEvent) : Prop :=
  exists e0, event_from_log log = Ok e0
    /\ e = {| record_id := lifecycle_record_id (logical_log_id e0) id "applied";
              logical_log_id := logical_log_id e0; de_block_hash := de_block_hash e0;
              de_cursor_json := de_cursor_json e0; de_cursor_order := de_cursor_order e0;
              de_fields := de_fields e0 |}.

Definition in_allowed (allowed : gmap Z B256) (log : ContractLog) : Prop :=
  exists hash, block_hash (log_cursor log) = Some hash
               /\ allowed !! block_number (log_cursor log) = Some hash.

Lemma materialize_log_Ok allowed id events previous log acc :
  materialize_log allowed id (events, previous) log = Ok acc ->
  in_allowed allowed log /\ after previous (log_order log)
  /\ exists e, applied_event id log e /\ acc = (events ++ [e], Some (log_order log)).
Proof.
  unfold materialize_log. intros Hm. apply bind_ok in Hm as (hash & Eh & Hm).
  destruct (block_hash (log_cursor log)) as [hash'|] eqn:E; [|done]. injection Eh as ->.
  destruct (bool_decide _) eqn:Ea; [|done]. apply bool_decide_eq_true in Ea. cbn [negb] in Hm.
  destruct (match previous with Some _ => _ | None => _ end) eqn:Eo; [done|].
  apply after_check in Eo. apply bind_ok in Hm as (e & Ee & [= <-]).
  split; [by exists hash|]. split; [done|]. eexists. split; [|done]. by exists e.
Qed.

Lemma materialize_logs_Ok allowed id logs events previous acc :
  try_fold (materialize_log allowed id) (events, previous) logs = Ok acc ->
  Forall (in_allowed allowed) logs /\ Forall (after previous) (log_order <$> logs)
  /\ StronglySorted order_lt (log_order <$> logs)
  /\ exists new, Forall2 (applied_event id) logs new /\ acc.1 = events ++ new.
Proof.
  revert events previous. induction logs as [|log logs IH]; intros events previous Hf.
  { injection Hf as <-. cbn. split_and!; try constructor. exists []. by rewrite app_nil_r. }
  cbn [try_fold] in Hf. apply bind_ok in Hf as ([events' previous'] & Hl & Hf).
  apply materialize_log_Ok in Hl as (Ha & Hp & e & He & [= -> ->]).
  apply IH in Hf as (IHa & IHp & IHs & new & IHe & IHn).
  assert (forall o, order_lt (log_order log) o -> after previous o) as Hafter.
  { intros o Ho. destruct previous; [|done]. cbn in *. by etransitivity. }
  cbn [fmap list_fmap]. split_and!.
  - by constructor.
  - constructor; [done|]. eapply Forall_impl; [exact IHp|]. intros o Ho. by apply Hafter.
  - by constructor.
  - exists (e :: new). split; [by constructor|]. rewrite IHn, <-app_assoc. done.
Qed.

Lemma collect_results_Ok {E A B} (f : A -> result E B) l k :
  collect_results f l = Ok k <-> Forall2 (fun x y => f x = Ok y) l k.
Proof.
  revert k. induction l as [|x l IH]; intros k; cbn.
  { split; [intros [= <-]; constructor|intros H1; by inversion H1]. }
  split.
  - intros (y & Hy & Hr)%bind_ok. apply bind_ok in Hr as (r & Hr & [= <-]).
    constructor; [done|]. by apply IH.
  - intros H1. inversion H1 as [|? y ? k' Hy Hk]; subst. rewrite Hy. cbn.
    apply IH in Hk. by rewrite Hk.
Qed.

Lemma fold_insert_lookup (entries : list (Z * B256)) (m : gmap Z B256) n hash :
  fold_left (fun m '(n, hash) => <[ n := hash ]> m) entries m !! n = Some hash ->
  (n, hash) ∈ entries \/ m !! n = Some hash.
Proof.
  revert m. induction entries as [|[k h] entries IH]; intros m Hl; [by right|].
  cbn in Hl. apply IH in Hl as [Hl|Hl]; [left; by right|].
  destruct (decide (k = n)) as [->|Hne].
  - rewrite lookup_insert_eq in Hl. injection Hl as ->. left. constructor.
  - rewrite lookup_insert_ne in Hl by done. by right.
Qed.
End Materialize.

Lemma Forall2_elem_r {A B} (R : A -> B -> Prop) l k y :
  Forall2 R l k -> y ∈ k -> exists x, x ∈ l /\ R x y.
Proof.
  intros HR (i & Hi)%list_elem_of_lookup_1.
  destruct (Forall2_lookup_r _ _ _ _ _ HR Hi) as (x & Hx & Hxy).
  exists x. split; [by eapply list_elem_of_lookup_2|done].
Qed.

(** What [ReorgCorrection::new] hands to the store. *)
Record correction_of `{Keccak} `{EnvelopeJson} (r : ForkResolution) (finalized : BlockRef)
    (logs : list ContractLog) (core : Address) (c : ReorgCorrection) : Prop := {
  of_id : reorg_id c = compute_reorg_id r logs core;
  of_points : rc_ancestor c = res_common_ancestor r /\ rc_old_tip c = res_old_tip r
              /\ rc_new_tip c = res_new_tip r /\ rc_finalized c = finalized;
  of_events : Forall2 (applied_event (reorg_id c)) logs (new_events c);
  of_branch : Forall (fun log => exists hash block, block ∈ res_new_branch r
                        /\ block_hash (log_cursor log) = Some hash
                        /\ block_hash (br_cursor block) = Some hash
                        /\ block_number (br_cursor block) = block_number (log_cursor log)) logs;
  of_order : StronglySorted order_lt (log_order <$> logs);
  of_heads : Forall2 (fun block h => head_from_block block core = Ok h) (res_new_branch r) (new_heads c);
  of_old : Forall2 (fun block b => exists hash, block_hash (br_cursor block) = Some hash
                      /\ b = {| cb_block_hash := hex_bytes 32 hash;
                                cb_block_number := decimal (block_number (br_cursor block)) |})
             (res_old_branch r) (old_blocks c);
  of_recovery : encode_cursor (recovery_cursor (res_new_tip r)) (hex_bytes 20 core) = Ok (rc_cursor_json c)
                /\ rc_cursor_order c = cursor_order (recovery_cursor (res_new_tip r))
}.

Lemma block_required_hash_Ok block hash :
  block_required_hash block = Ok hash <-> block_hash (br_cursor block) = Some hash.
Proof. unfold block_required_hash. destruct (block_hash _); cbn; split; congruence. Qed.

(** C: A correction is materialized only from a coherent resolution: every
    replacement log lies in a block of the resolved branch, the logs are in strict
    event order, each becomes one applied record under its logical id, every new
    block becomes a head the journal can store, every old one is named, and the
    stored recovery cursor is the end of the new tip. *)
Theorem reorg_correction_materializes `{Keccak} `{EnvelopeJson} r finalized logs core c :
  reorg_correction_new r finalized logs core = Ok c -> correction_of r finalized logs core c.
Proof.
  unfold reorg_correction_new. intros Hc.
  do 4 apply bind_ok in Hc as (? & _ & Hc).
  apply bind_ok in Hc as (entries & He & Hc). apply collect_results_Ok in He.
  apply bind_ok in Hc as ([events previous] & Hf & Hc).
  apply bind_ok in Hc as (heads & Hh & Hc). apply collect_results_Ok in Hh.
  apply bind_ok in Hc as (cj & Hj & Hc).
  apply bind_ok in Hc as (blocks & Hb & [= <-]). apply collect_results_Ok in Hb.
  apply materialize_logs_Ok in Hf as (Ha & _ & Hs & new & Hn & En). cbn in En. subst events.
  split; cbn; try done.
  - eapply Forall_impl; [exact Ha|]. intros log (hash & Eh & Hl).
    apply fold_insert_lookup in Hl as [Hl|Hl]; [|by rewrite lookup_empty in Hl].
    destruct (Forall2_elem_r _ _ _ _ He Hl) as (block & Hin & Hbl).
    apply bind_ok in Hbl as (h & Ehh & [= Enum ->]). apply block_required_hash_Ok in Ehh.
    by exists hash, block.
  - eapply Forall2_impl; [exact Hb|]. intros block b Hbl.
    apply bind_ok in Hbl as (h & Ehh & [= <-]). apply block_required_hash_Ok in Ehh. by exists h.
Qed.

(** ** A sample deployment *)

Definition sample_recovery : ChainCursor :=
  recovery_cursor {| br_cursor := cursor_execution_block 8453 41 41 (Some 2) Canonical;
                     br_parent_hash := Some 1 |}.

Definition sample_cursors : list ChainCursor :=
  [sample_log_cursor 2 3; sample_log_cursor 2 4;
   cursor_execution_block 8453 41 41 (Some 2) Canonical; sample_recovery].

#[local] Instance CursorEnvelope_eq_dec : EqDecision CursorEnvelope.
Proof. solve_decision. Defined.
#[local] Instance HeaderEnvelope_eq_dec : EqDecision HeaderEnvelope.
Proof. solve_decision. Defined.

Definition sample_envelope (c : ChainCursor) : CursorEnvelope :=
  {| ce_schema_version := STREAM_SCHEMA_VERSION; ce_chain_id := 8453; ce_core := hex_bytes 20 4;
     ce_cursor := c |}.

Definition sample_header : HeaderEnvelope :=
  {| he_schema_version := STREAM_SCHEMA_VERSION; he_chain_id := 8453; he_block_number := 41;
     he_execution_block_number := 41; he_block_hash := 2; he_parent_hash := 1 |}.

(** An encoder of the sample's values, by their place in a table. *)
Definition table_encode {A} `{EqDecision A} (table : list (string * A)) (x : A) : result string string :=
  match base.filter (fun e => e.2 = x) table with
  | (name, _) :: _ => Ok name
  | [] => Err "unknown value"
  end.

Definition table_decode {A} (table : list (string * A)) (name : string) : result string A :=
  match base.filter (fun e => e.1 = name) table with
  | (_, x) :: _ => Ok x
  | [] => Err "unknown text"
  end.

Lemma table_roundtrip {A} `{EqDecision A} (table : list (string * A)) x name :
  NoDup table.*1 -> table_encode table x = Ok name -> table_decode table name = Ok x.
Proof.
  unfold table_encode, table_decode. intros Hd He.
  destruct (base.filter _ table) as [|[name' x'] rest] eqn:Ef; [done|]. injection He as ->.
  assert ((name, x') ∈ table /\ x' = x) as [Hin ->].
  { assert ((name, x') ∈ base.filter (fun e : string * A => e.2 = x) table) as Hin by (rewrite Ef; constructor).
    by apply list_elem_of_filter in Hin as [? ?]. }
  clear Ef. induction table as [|[n y] table IH]; [by apply not_elem_of_nil in Hin|].
  cbn in Hd. inversion_clear Hd as [|? ? Hn Hd']. destruct (decide (n = name)) as [->|Hne].
  - rewrite filter_cons_True by done. apply elem_of_cons in Hin as [[= ->]|Hin]; [done|].
    exfalso. apply Hn. apply list_elem_of_fmap. by exists (name, x).
  - rewrite filter_cons_False by done. apply IH; [done|].
    by apply elem_of_cons in Hin as [[= ? ?]|Hin]; [congruence|].
Qed.

Definition sample_cursor_table : list (string * CursorEnvelope) :=
  zip ["log 3"; "log 4"; "block"; "recovery"] (sample_envelope <$> sample_cursors).

#[local] Instance sample_envelopes : EnvelopeJson := {
  cursor_to_string := table_encode sample_cursor_table;
  cursor_from_slice := table_decode sample_cursor_table;
  header_to_string := table_encode [("header", sample_header)];
  header_from_str := table_decode [("header", sample_header)];
  topics_to_string _ := Ok "topics"
}.

#[local] Instance sample_envelope_laws : EnvelopeLaws.
Proof.
  split; intros e s; apply table_roundtrip.
  - apply (bool_decide_unpack _). vm_compute. exact I.
  - apply (bool_decide_unpack _). vm_compute. exact I.
Qed.

Definition sample_block (n : Z) (hash parent : B256) : BlockRef :=
  {| br_cursor := cursor_execution_block 8453 n n (Some hash) Canonical;
     br_parent_hash := Some parent |}.

Definition sample_resolution : ForkResolution :=
  {| res_common_ancestor := sample_block 40 1 0; res_old_tip := sample_block 41 7 1;
     res_new_tip := sample_block 41 2 1; res_old_branch := [sample_block 41 7 1];
     res_new_branch := [sample_block 41 2 1] |}.

Definition sample_replacement : list ContractLog := [sample_log Canonical 1 3; sample_log Canonical 1 4].

Lemma durable_cursor_roundtrip_witness :
  decode_cursor "log 3" 8453 4 = Ok (sample_log_cursor 2 3)
  /\ decode_cursor "log 3" 8453 5 = Err CursorIdentity.
Proof.
  split.
  - apply (durable_cursor_roundtrip (sample_log_cursor 2 3) 4 "log 3" 8453 4);
      [unfold uint; lia..|vm_compute; reflexivity].
  - apply (durable_cursor_roundtrip (sample_log_cursor 2 3) 4 "log 3" 8453 5);
      [unfold uint; lia..|vm_compute; reflexivity].
Defined.

Lemma durable_head_roundtrip_witness :
  exists h, head_from_block (sample_block 41 2 1) 4 = Ok h
    /\ decode_header (header_json h) 8453 = Ok (sample_block 41 2 1).
Proof.
  destruct (head_from_block (sample_block 41 2 1) 4) as [h|] eqn:E; [|discriminate E].
  exists h. split; [reflexivity|]. exact (durable_head_roundtrip (sample_block 41 2 1) 4 h 8453 E).
Defined.

Lemma reorg_correction_materializes_witness :
  exists c, reorg_correction_new sample_resolution (sample_block 40 1 0) sample_replacement 4 = Ok c
    /\ correction_of sample_resolution (sample_block 40 1 0) sample_replacement 4 c.
Proof.
  destruct (reorg_correction_new sample_resolution (sample_block 40 1 0) sample_replacement 4)
    as [c|] eqn:E; [|discriminate E].
  exists c. split; [reflexivity|].
  exact (reorg_correction_materializes sample_resolution (sample_block 40 1 0) sample_replacement 4 c E).
Defined.
