(* ===== verification/Redis.v ===== *)
(** * Redis, as the durable store uses it

    The server is not part of the repository. [Redis] lists the commands the store
    and its Lua scripts issue, [RedisLaws] states their documented effect on the
    keyspace, and [Lua] stands for the parts of the embedded interpreter whose
    results the scripts inspect. A command may be refused at any time (a key of
    another type, memory, a lost connection); a refused command changes
    nothing. *)

From S2P Require Import Prelude Text Abi.

(** A stream entry: its id, then its field names and values in turn. *)
Abbreviation Entry := (string * list string)%type.

Record Keyspace := {
  strings : gmap string string;
  hashes : gmap string (gmap string string);
  lists : gmap string (list string);
  streams : gmap string (list Entry)
}.

(** A missing key reads as an empty collection. *)
Definition hash (k : string) (ks : Keyspace) : gmap string string := default ∅ (hashes ks !! k).
Definition list_at (k : string) (ks : Keyspace) : list string := default [] (lists ks !! k).
Definition stream_at (k : string) (ks : Keyspace) : list Entry := default [] (streams ks !! k).
Definition key_exists (k : string) (ks : Keyspace) : bool :=
  is_some (strings ks !! k) || is_some (hashes ks !! k) || is_some (lists ks !! k)
  || is_some (streams ks !! k).

(** [SET] overwrites a key whatever it held, [DEL] removes it. *)
Definition drop_key (k : string) (ks : Keyspace) : Keyspace :=
  {| strings := delete k (strings ks); hashes := delete k (hashes ks); lists := delete k (lists ks);
     streams := delete k (streams ks) |}.
Definition put_string (k v : string) (ks : Keyspace) : Keyspace :=
  {| strings := <[ k := v ]> (strings ks); hashes := delete k (hashes ks);
     lists := delete k (lists ks); streams := delete k (streams ks) |}.
Definition put_hash (k : string) (h : gmap string string) (ks : Keyspace) : Keyspace :=
  {| strings := strings ks; hashes := <[ k := h ]> (hashes ks); lists := lists ks;
     streams := streams ks |}.
Definition put_list (k : string) (l : list string) (ks : Keyspace) : Keyspace :=
  {| strings := strings ks; hashes := hashes ks; lists := <[ k := l ]> (lists ks);
     streams := streams ks |}.
Definition put_stream (k : string) (l : list Entry) (ks : Keyspace) : Keyspace :=
  {| strings := strings ks; hashes := hashes ks; lists := lists ks;
     streams := <[ k := l ]> (streams ks) |}.

Section Commands.
Variable Db : Type.

Abbreviation command := (method Db string).

(** The commands of the store; an error is the text of the reply. *)
Class Redis := {
  GET : string -> command (option string);
  SET : string -> string -> command unit;
  EXISTS : string -> command bool;
  DEL : string -> command unit;
  HGET : string -> string -> command (option string);
  HSET : string -> string -> string -> command unit;
  HSETNX : string -> string -> string -> command bool;
  HDEL : string -> string -> command unit;
  HINCRBY : string -> string -> string -> command unit;
  CONNECT : command unit;
  PING : command unit;
  RPUSH : string -> string -> command unit;
  LLEN : string -> command Z;
  LRANGE_ALL : string -> command (list string);
  XADD : string -> list string -> command string;
  XRANGE_ID : string -> string -> command (list Entry);
  XGROUP_CREATE : string -> string -> command unit;
  CONFIG_GET : string -> command (list string)
}.

(** A command that succeeds is related to its effect; one that is refused has
    none. *)
Definition does {A} (refusal : string -> Prop) (ks : Db -> Keyspace) (c : command A) (R : Keyspace -> A -> Keyspace -> Prop) : Prop :=
  forall db, match c db with
             | (Ok a, db') => R (ks db) a (ks db')
             | (Err e, db') => refusal e /\ ks db' = ks db
             end.

Definition reads {A} (f : Keyspace -> A) : Keyspace -> A -> Keyspace -> Prop :=
  fun ks a ks' => a = f ks /\ ks' = ks.
Definition writes (f : Keyspace -> Keyspace) : Keyspace -> unit -> Keyspace -> Prop :=
  fun ks _ ks' => ks' = f ks.

(** Stream ids are two numbers joined by a dash. *)
Definition bar : Ascii.ascii := char_of 124.
Definition no_bar (s : string) : Prop := bar ∉ chars s /\ s <> "".

Definition ids_of (l : list Entry) : list string := l.*1.

(** The server's own errors are not the replies of the scripts. *)
Class RedisLaws `{Redis} := {
  keyspace : Db -> Keyspace;
  refusal : string -> Prop;
  refusal_unmarked e : refusal e -> contains "LUNARBASE_" e = false;
  GET_reads k : does refusal keyspace (GET k) (reads (fun ks => strings ks !! k));
  SET_writes k v : does refusal keyspace (SET k v) (writes (put_string k v));
  EXISTS_reads k : does refusal keyspace (EXISTS k) (reads (key_exists k));
  DEL_writes k : does refusal keyspace (DEL k) (writes (drop_key k));
  HGET_reads k f : does refusal keyspace (HGET k f) (reads (fun ks => hash k ks !! f));
  HSET_writes k f v :
    does refusal keyspace (HSET k f v) (writes (fun ks => put_hash k (<[ f := v ]> (hash k ks)) ks));
  HSETNX_writes k f v :
    does refusal keyspace (HSETNX k f v) (fun ks new ks' =>
      match hash k ks !! f with
      | Some _ => new = false /\ ks' = ks
      | None => new = true /\ ks' = put_hash k (<[ f := v ]> (hash k ks)) ks
      end);
  HDEL_writes k f :
    does refusal keyspace (HDEL k f) (writes (fun ks => put_hash k (delete f (hash k ks)) ks));
  HINCRBY_writes k f n :
    does refusal keyspace (HINCRBY k f n) (fun ks _ ks' =>
      exists total, ks' = put_hash k (<[ f := total ]> (hash k ks)) ks);
  RPUSH_writes k v :
    does refusal keyspace (RPUSH k v) (writes (fun ks => put_list k (list_at k ks ++ [v]) ks));
  LLEN_reads k : does refusal keyspace (LLEN k) (reads (fun ks => Z.of_nat (length (list_at k ks))));
  LRANGE_reads k : does refusal keyspace (LRANGE_ALL k) (reads (list_at k));
  XADD_writes k fields :
    does refusal keyspace (XADD k fields) (fun ks id ks' =>
      id ∉ ids_of (stream_at k ks) /\ no_bar id
      /\ ks' = put_stream k (stream_at k ks ++ [(id, fields)]) ks);
  XRANGE_reads k id :
    does refusal keyspace (XRANGE_ID k id)
      (reads (fun ks => base.filter (fun e : Entry => e.1 = id) (stream_at k ks)));
  XGROUP_writes k group :
    does refusal keyspace (XGROUP_CREATE k group) (writes (fun ks => put_stream k (stream_at k ks) ks));
  CONFIG_reads name : forall db, keyspace (CONFIG_GET name db).2 = keyspace db;
  CONNECT_reads : does refusal keyspace CONNECT (writes id);
  PING_reads : does refusal keyspace PING (writes id)
}.
End Commands.

Arguments does {Db A} refusal ks c R.
Arguments CONNECT {Db _}. Arguments PING {Db _}.
Arguments GET {Db _} _. Arguments SET {Db _} _ _. Arguments EXISTS {Db _} _. Arguments DEL {Db _} _.
Arguments HGET {Db _} _ _. Arguments HSET {Db _} _ _ _. Arguments HSETNX {Db _} _ _ _.
Arguments HDEL {Db _} _ _. Arguments HINCRBY {Db _} _ _ _. Arguments RPUSH {Db _} _ _.
Arguments LLEN {Db _} _. Arguments LRANGE_ALL {Db _} _. Arguments XADD {Db _} _ _.
Arguments XRANGE_ID {Db _} _ _. Arguments XGROUP_CREATE {Db _} _ _. Arguments CONFIG_GET {Db _} _.
Arguments keyspace {Db _ _} _. Arguments refusal {Db _ _} _.

(** ** Lua

    A Lua number is a double: integers are exact up to 2^53, and [tostring]
    writes those of at most fourteen digits in full. What the interpreter does
    beyond that is its own; the scripts hand [tonumber] nothing but numerals. *)

Class Lua := {
  to_double : Z -> Z;
  tostring_large : Z -> string;
  tonumber_other : string -> option Z
}.

Class LuaLaws `{Lua} := {
  to_double_exact n : 0 <= n <= 2 ^ 53 -> to_double n = n
}.

Definition char_decimal (a : Ascii.ascii) : option Z :=
  let n := char_code a in
  if (48 <=? n) && (n <=? 57) then Some (n - 48) else None.

Definition decimal_value (s : string) : option Z :=
  match chars s with
  | [] => None
  | cs => ds ← mapM char_decimal cs; Some (foldl (fun acc d => 10 * acc + d) 0 ds)
  end.

Definition lua_tostring `{Lua} (n : Z) : string :=
  if (0 <=? n) && (n <? 10 ^ 14) then decimal n else tostring_large n.

Definition lua_tonumber `{Lua} (s : string) : option Z :=
  match decimal_value s with
  | Some n => Some (to_double n)
  | None => tonumber_other s
  end.

(** An operation on [nil] raises an error the script does not catch. *)
Definition SCRIPT_ERROR : string := "ERR Error running script".

Definition number_of `{Lua} {Db} (s : string) : method Db string Z :=
  lift (ok_or (lua_tonumber s) SCRIPT_ERROR).

(** [for _, item in ipairs(list) do ... end] *)
Fixpoint each {S E A} (body : A -> method S E unit) (l : list A) : method S E unit :=
  match l with
  | [] => mret tt
  | x :: l => _ ← body x; each body l
  end.

(** The part of a text before its first bar and the part after it. *)
Fixpoint cut_bar (cs : list Ascii.ascii) : option (list Ascii.ascii * list Ascii.ascii) :=
  match cs with
  | [] => None
  | a :: cs =>
      if Ascii.eqb a bar then Some ([], cs)
      else '(before, after) ← cut_bar cs; Some (a :: before, after)
  end.

(** [^([^|]+)|([^|]+)|...|]: [n] non-empty fields, each followed by a bar, and
    what follows the last of them. *)
Fixpoint match_fields (n : nat) (cs : list Ascii.ascii) : option (list string * list Ascii.ascii) :=
  match n with
  | O => Some ([], cs)
  | S n =>
      '(before, after) ← cut_bar cs;
      if bool_decide (before = []) then None
      else '(fields, rest) ← match_fields n after; Some (string_of before :: fields, rest)
  end.

(** [field(fields, name)] *)
Fixpoint field (fields : list string) (name : string) : option string :=
  match fields with
  | key :: value :: fields => if String.eqb key name then Some value else field fields name
  | _ => None
  end.
