(* ===== verification/Outbox.v ===== *)
(** * The durable store (crates/lunarbase-event-worker/src/redis_store.rs,
    redis_store/commands.rs, redis_store/correction.rs with correction.lua,
    redis_store/window.rs)

    The keys and deployment metadata, the two Lua scripts that write the journal,
    the commands that invoke them, the bounded planning of a correction and the
    startup reconstruction of the header window. The server, its Lua interpreter
    and the JSON codecs are parameters. *)

From S2P Require Import Prelude Text Slot0 State Model Correction Abi Fork.
From S2P Require Import DurableEvent Redis.

(** ** Keys and metadata *)

Record RedisKeys := {
  rk_stream : string;
  rk_cursor : string;
  rk_cursor_order : string;
  rk_resume : string;
  rk_record_ids : string;
  rk_log_state : string;
  rk_headers : string;
  rk_canonical_height : string;
  rk_canonical_head : string;
  rk_finalized_head : string;
  rk_reorg_manifest : string;
  rk_journal_usage : string;
  rk_metadata : string;
  rk_block_prefix : string
}.

Definition redis_keys_new (namespace : string) (chain_id : Z) (core : Address) : RedisKeys :=
  let deployment := "{" +:+ decimal chain_id +:+ ":" +:+ hex_bytes 20 core +:+ "}" in
  let prefix := namespace +:+ ":event:v" +:+ decimal STREAM_SCHEMA_VERSION +:+ ":" +:+ deployment in
  {| rk_stream := prefix +:+ ":stream"; rk_cursor := prefix +:+ ":cursor";
     rk_cursor_order := prefix +:+ ":cursor-order"; rk_resume := prefix +:+ ":resume";
     rk_record_ids := prefix +:+ ":record-ids"; rk_log_state := prefix +:+ ":log-state";
     rk_headers := prefix +:+ ":headers"; rk_canonical_height := prefix +:+ ":canonical-height";
     rk_canonical_head := prefix +:+ ":canonical-head";
     rk_finalized_head := prefix +:+ ":finalized-head";
     rk_reorg_manifest := prefix +:+ ":reorg-manifest";
     rk_journal_usage := prefix +:+ ":journal-usage"; rk_metadata := prefix +:+ ":metadata";
     rk_block_prefix := prefix +:+ ":block:" |}.

Definition block_logs (keys : RedisKeys) (block_hash : string) : string :=
  rk_block_prefix keys +:+ block_hash +:+ ":logs".

Record DeploymentMetadata := {
  dm_fingerprint : string;
  dm_schema_version : string;
  dm_chain_id : string;
  dm_core : string;
  dm_delivery_mode : string
}.

Definition deployment_metadata_new (chain_id : Z) (core : Address) (delivery_mode : string)
    : DeploymentMetadata :=
  let core := hex_bytes 20 core in
  {| dm_fingerprint := "v" +:+ decimal STREAM_SCHEMA_VERSION +:+ "|" +:+ decimal chain_id +:+ "|"
       +:+ core +:+ "|" +:+ delivery_mode +:+ "|" +:+ ID_DOMAIN_VERSION;
     dm_schema_version := decimal STREAM_SCHEMA_VERSION;
     dm_chain_id := decimal chain_id;
     dm_core := core;
     dm_delivery_mode := delivery_mode |}.

Record AppendOutcome := {
  ao_stream_id : string;
  ao_appended : bool
}.

Record JournalWindow := {
  jw_blocks : list BlockRef;
  jw_finalized : option BlockRef
}.

Record CorrectionOutcome := {
  co_stream_id : string;
  co_appended : bool;
  co_reverted : Z;
  co_applied : Z
}.

Inductive StoreError :=
| StoreRedis (detail : string)
| StoreDurability (detail : string)
| StoreJournal (detail : string)
| StoreEvent (error : EventError)
| StoreCorrectionBudget (detail : string)
| StoreJson (error : string)
| StoreChannelClosed
| StoreWorkerPanicked
| StoreQueueByteLimit.

#[export] Instance StoreError_eq_dec : EqDecision StoreError.
Proof. solve_decision. Defined.

Definition retryable (self : StoreError) : bool :=
  match self with
  | StoreRedis _ => true
  | _ => false
  end.

Definition redis_error (detail : string) : StoreError :=
  if contains "LUNARBASE_" detail then StoreJournal detail else StoreRedis detail.

(** ** The plan of a correction *)

Record OldBlock := {
  ob_block_hash : string;
  ob_block_number : string;
  ob_key_index : Z
}.

Record OldLog := {
  ol_logical_log_id : string;
  ol_source_record_id : string;
  ol_source_stream_id : string;
  ol_record_id : string;
  ol_block_hash : string
}.

Record NewHead := {
  nh_header_json : string;
  nh_block_hash : string;
  nh_block_number : string;
  nh_header_bytes : Z
}.

Record NewEvent := {
  ne_record_id : string;
  ne_logical_log_id : string;
  ne_block_hash : string;
  ne_cursor_order : string;
  ne_journal_bytes : Z;
  ne_key_index : Z;
  ne_fields : list string
}.

Record Plan := {
  plan_fingerprint : string;
  plan_reorg_id : string;
  plan_begin_record_id : string;
  plan_commit_record_id : string;
  plan_old_tip_hash : string;
  plan_new_tip_hash : string;
  plan_finalized_hash : string;
  plan_cursor_json : string;
  plan_cursor_order : string;
  plan_control_fields : list string;
  plan_old_blocks : list OldBlock;
  plan_old_logs : list OldLog;
  plan_new_heads : list NewHead;
  plan_new_events : list NewEvent;
  plan_removed_reference_count : Z;
  plan_removed_reference_bytes : Z
}.

Definition plan_numbers (p : Plan) : list Z :=
  (ob_key_index <$> plan_old_blocks p) ++ (nh_header_bytes <$> plan_new_heads p)
  ++ (ne_journal_bytes <$> plan_new_events p) ++ (ne_key_index <$> plan_new_events p)
  ++ [plan_removed_reference_count p; plan_removed_reference_bytes p].

(** [serde_json::to_vec] of the plan, and the reader of the Lua side. *)
Class PlanJson := {
  plan_to_vec : Plan -> result string string;
  cjson_plan : string -> option Plan;
  cjson_block_number : string -> option Z
}.

(** Numbers a double holds exactly are read as they were written. *)
Class PlanLaws `{PlanJson} `{EnvelopeJson} := {
  plan_roundtrip p s :
    plan_to_vec p = Ok s -> Forall (fun n => 0 <= n <= 2 ^ 53) (plan_numbers p) ->
    cjson_plan s = Some p;
  header_number_read e s :
    header_to_string e = Ok s -> 0 <= he_block_number e <= 2 ^ 53 ->
    cjson_block_number s = Some (he_block_number e)
}.

Section Store.
Context {Db : Type} `{Redis Db} `{Lua} `{PlanJson}.

Abbreviation script := (method Db string).

(** [KEYS[i]] and [ARGV[i]] of a script. *)
Definition nth1 (l : list string) (i : Z) : string := nth (Z.to_nat (i - 1)) l "".

Definition differs (o : option string) (s : string) : bool :=
  match o with
  | Some t => negb (String.eqb t s)
  | None => false
  end.

(** [redis.call(...) ~= text]: a missing value differs from every text. *)
Definition not_text (o : option string) (s : string) : bool :=
  match o with
  | Some t => negb (String.eqb t s)
  | None => true
  end.

(** ** JOURNAL_LUA *)

Definition advance_cursor (KEYS : list string) (cursor_json cursor_order : string) : script unit :=
  current_order ← GET (nth1 KEYS 3);
  if match current_order with
     | Some current_order => String.ltb current_order cursor_order
     | None => true
     end
  then _ ← SET (nth1 KEYS 2) cursor_json; SET (nth1 KEYS 3) cursor_order
  else mret tt.

(** Whether the head becomes the canonical head. *)
Definition promote_canonical (KEYS : list string) (block_hash parent_hash commitment block_number : string)
    : script bool :=
  canonical_head ← GET (nth1 KEYS 8);
  match canonical_head with
  | None => mret true
  | Some canonical_head =>
      if String.eqb canonical_head block_hash then mret true else
      canonical_json ← HGET (nth1 KEYS 6) canonical_head;
      match canonical_json with
      | None => fail "LUNARBASE_CANONICAL_HEAD_MISSING"
      | Some canonical_json =>
          canonical_number ← lift (ok_or (cjson_block_number canonical_json) SCRIPT_ERROR);
          next_number ← number_of block_number;
          if canonical_number <? next_number then
            if negb (String.eqb commitment "finalized")
               && (negb (next_number =? to_double (canonical_number + 1))
                   || negb (String.eqb parent_hash canonical_head))
            then fail "LUNARBASE_HEAD_DISCONTINUITY"
            else mret true
          else if next_number =? canonical_number then fail "LUNARBASE_FORK_REQUIRES_CORRECTION"
          else mret false
      end
  end.

(** Whether a finalized head moves the finalized watermark. *)
Definition promote_final (KEYS : list string) (block_hash block_number : string) : script bool :=
  finalized_head ← GET (nth1 KEYS 9);
  match finalized_head with
  | None => mret true
  | Some finalized_head =>
      if String.eqb finalized_head block_hash then mret true else
      finalized_json ← HGET (nth1 KEYS 6) finalized_head;
      match finalized_json with
      | None => fail "LUNARBASE_FINALIZED_HEAD_MISSING"
      | Some finalized_json =>
          next_number ← number_of block_number;
          finalized_number ← lift (ok_or (cjson_block_number finalized_json) SCRIPT_ERROR);
          mret (finalized_number <? next_number)
      end
  end.

Definition check_parent (KEYS : list string) (block_number parent_hash : string) : script unit :=
  number ← number_of block_number;
  if 0 <? number then
    mapped_parent ← HGET (nth1 KEYS 7) (lua_tostring (to_double (number - 1)));
    if differs mapped_parent parent_hash then fail "LUNARBASE_PARENT_LINK_MISMATCH" else mret tt
  else mret tt.

Definition head_command (KEYS ARGV : list string) : script (string * Z) :=
  let header_json := nth1 ARGV 3 in
  let block_hash := nth1 ARGV 4 in
  let parent_hash := nth1 ARGV 5 in
  let commitment := nth1 ARGV 6 in
  let block_number := nth1 ARGV 10 in
  existing_header ← HGET (nth1 KEYS 6) block_hash;
  if differs existing_header header_json then fail "LUNARBASE_HEADER_IDENTITY_MISMATCH" else
  mapped_hash ← HGET (nth1 KEYS 7) block_number;
  if differs mapped_hash block_hash then fail "LUNARBASE_FORK_REQUIRES_CORRECTION" else
  _ ← check_parent KEYS block_number parent_hash;
  promote_head ← promote_canonical KEYS block_hash parent_hash commitment block_number;
  new ← HSETNX (nth1 KEYS 6) block_hash header_json;
  _ ← (if new : bool
       then _ ← HINCRBY (nth1 KEYS 12) "headers" "1";
            HINCRBY (nth1 KEYS 12) "headerBytes" (nth1 ARGV 9)
       else mret tt);
  _ ← HSET (nth1 KEYS 7) block_number block_hash;
  _ ← (if promote_head : bool then SET (nth1 KEYS 8) block_hash else mret tt);
  _ ← (if String.eqb commitment "finalized"
       then promote_finalized ← promote_final KEYS block_hash block_number;
            if promote_finalized : bool then SET (nth1 KEYS 9) block_hash else mret tt
       else mret tt);
  mret ("", match existing_header with Some _ => 0 | None => 1 end).

(** The value of a log in [log-state]. *)
Definition log_state_text (active revision record_id stream_id block_hash : string) : string :=
  active +:+ "|" +:+ revision +:+ "|" +:+ record_id +:+ "|" +:+ stream_id +:+ "|" +:+ block_hash.

(** The revision of [string.match(state, '^([^|]+)|([^|]+)|')]: [tonumber(nil)] is
    [nil], and adding to it is an error. *)
Definition stored_revision (state : string) : script Z :=
  match match_fields 2 (chars state) with
  | Some ([_; revision], _) => number_of revision
  | _ => fail SCRIPT_ERROR
  end.

Definition state_active (state : string) : bool :=
  match match_fields 2 (chars state) with
  | Some ([active; _], _) => String.eqb active "1"
  | _ => false
  end.

Definition log_command (KEYS ARGV : list string) : script (string * Z) :=
  let record_id := nth1 ARGV 3 in
  let logical_log_id := nth1 ARGV 4 in
  let block_hash := nth1 ARGV 5 in
  let block_number := nth1 ARGV 9 in
  existing_stream_id ← HGET (nth1 KEYS 4) record_id;
  match existing_stream_id with
  | Some existing_stream_id => mret (existing_stream_id, 0)
  | None =>
      mapped_hash ← HGET (nth1 KEYS 7) block_number;
      if differs mapped_hash block_hash then fail "LUNARBASE_LOG_ON_NONCANONICAL_BLOCK" else
      state ← HGET (nth1 KEYS 5) logical_log_id;
      revision ← match state with
                 | Some state =>
                     if state_active state then fail "LUNARBASE_LOG_ALREADY_ACTIVE"
                     else stored_revision state
                 | None => mret 0
                 end;
      let revision := to_double (revision + 1) in
      stream_id ← XADD (nth1 KEYS 1)
        (["schemaVersion"; "2"; "recordType"; "log"; "operation"; "applied"; "recordId"; record_id;
          "logicalLogId"; logical_log_id; "blockHash"; block_hash;
          "lifecycleRevision"; lua_tostring revision] ++ drop 9 ARGV);
      _ ← HSET (nth1 KEYS 4) record_id stream_id;
      _ ← HSET (nth1 KEYS 5) logical_log_id
            (log_state_text "1" (lua_tostring revision) record_id stream_id block_hash);
      _ ← RPUSH (nth1 KEYS 13)
            (nth1 ARGV 7 +:+ "|" +:+ logical_log_id +:+ "|" +:+ record_id +:+ "|" +:+ stream_id);
      _ ← HINCRBY (nth1 KEYS 12) "logReferences" "1";
      _ ← HINCRBY (nth1 KEYS 12) "logReferenceBytes" (nth1 ARGV 8);
      _ ← advance_cursor KEYS (nth1 ARGV 6) (nth1 ARGV 7);
      mret (stream_id, 1)
  end.

Definition JOURNAL_LUA (KEYS ARGV : list string) : script (string * Z) :=
  fingerprint ← HGET (nth1 KEYS 11) "fingerprint";
  if not_text fingerprint (nth1 ARGV 1) then fail "LUNARBASE_METADATA_MISMATCH" else
  open ← EXISTS (nth1 KEYS 10);
  if open : bool then fail "LUNARBASE_REORG_IN_PROGRESS" else
  if String.eqb (nth1 ARGV 2) "head" then head_command KEYS ARGV
  else if negb (String.eqb (nth1 ARGV 2) "log") then fail "LUNARBASE_UNKNOWN_JOURNAL_COMMAND"
  else log_command KEYS ARGV.

(** ** INITIALIZE_METADATA_LUA *)

Definition INITIALIZE_METADATA_LUA (KEYS ARGV : list string) : script Z :=
  let metadata := nth1 KEYS 1 in
  fingerprint ← HGET metadata "fingerprint";
  match fingerprint with
  | Some fingerprint =>
      if negb (String.eqb fingerprint (nth1 ARGV 1)) then fail "LUNARBASE_METADATA_MISMATCH" else
      schema ← HGET metadata "schemaVersion";
      if not_text schema (nth1 ARGV 2) then fail "LUNARBASE_METADATA_MISMATCH" else
      chain ← HGET metadata "chainId";
      if not_text chain (nth1 ARGV 3) then fail "LUNARBASE_METADATA_MISMATCH" else
      core ← HGET metadata "core";
      if not_text core (nth1 ARGV 4) then fail "LUNARBASE_METADATA_MISMATCH" else
      mode ← HGET metadata "deliveryMode";
      if not_text mode (nth1 ARGV 5) then fail "LUNARBASE_METADATA_MISMATCH" else
      domain ← HGET metadata "idDomain";
      if not_text domain (nth1 ARGV 6) then fail "LUNARBASE_METADATA_MISMATCH" else
      mret 0
  | None =>
      _ ← HSET metadata "fingerprint" (nth1 ARGV 1);
      _ ← HSET metadata "schemaVersion" (nth1 ARGV 2);
      _ ← HSET metadata "chainId" (nth1 ARGV 3);
      _ ← HSET metadata "core" (nth1 ARGV 4);
      _ ← HSET metadata "deliveryMode" (nth1 ARGV 5);
      _ ← HSET metadata "idDomain" (nth1 ARGV 6);
      mret 1
  end.

(** ** correction.lua *)

Definition xadd (KEYS : list string) (record_type operation record_id : string) (fields : list string)
    : script string :=
  XADD (nth1 KEYS 1)
    (["schemaVersion"; "2"; "recordType"; record_type; "operation"; operation;
      "recordId"; record_id] ++ fields).

Definition check_old_block (KEYS : list string) (block : OldBlock) : script unit :=
  mapped ← HGET (nth1 KEYS 7) (ob_block_number block);
  if not_text mapped (ob_block_hash block) then fail "LUNARBASE_REORG_OLD_BRANCH_MISMATCH" else mret tt.

(** [^([^|]+)|([^|]+)|([^|]+)|([^|]+)|([^|]+)$] *)
Definition match_state (state : string) : option (list string) :=
  '(fields, last) ← match_fields 4 (chars state);
  if bool_decide (last = []) || bool_decide (bar ∈ last) then None
  else Some (fields ++ [string_of last]).

Definition check_old_log (KEYS : list string) (item : OldLog) : script unit :=
  recorded ← HGET (nth1 KEYS 4) (ol_record_id item);
  if is_some recorded then fail "LUNARBASE_REORG_RECORD_EXISTS" else
  source ← XRANGE_ID (nth1 KEYS 1) (ol_source_stream_id item);
  match source with
  | [(_, source_fields)] =>
      if not_text (field source_fields "recordId") (ol_source_record_id item)
         || not_text (field source_fields "logicalLogId") (ol_logical_log_id item)
         || not_text (field source_fields "blockHash") (ol_block_hash item)
         || not_text (field source_fields "operation") "applied"
      then fail "LUNARBASE_REORG_SOURCE_EVENT_MISMATCH" else
      state ← HGET (nth1 KEYS 5) (ol_logical_log_id item);
      match match_state (default "" state) with
      | Some [active; _; record_id; stream_id; block_hash] =>
          if negb (String.eqb active "1")
             || negb (String.eqb record_id (ol_source_record_id item))
             || negb (String.eqb stream_id (ol_source_stream_id item))
             || negb (String.eqb block_hash (ol_block_hash item))
          then fail "LUNARBASE_REORG_LOG_STATE_MISMATCH"
          else mret tt
      | _ => fail "LUNARBASE_REORG_LOG_STATE_MISMATCH"
      end
  | _ => fail "LUNARBASE_REORG_SOURCE_EVENT_MISSING"
  end.

Definition check_new_head (KEYS : list string) (head : NewHead) : script unit :=
  existing ← HGET (nth1 KEYS 6) (nh_block_hash head);
  if differs existing (nh_header_json head) then fail "LUNARBASE_HEADER_IDENTITY_MISMATCH" else mret tt.

Definition check_new_event (KEYS : list string) (item : NewEvent) : script unit :=
  recorded ← HGET (nth1 KEYS 4) (ne_record_id item);
  if is_some recorded then fail "LUNARBASE_REORG_RECORD_EXISTS" else
  state ← HGET (nth1 KEYS 5) (ne_logical_log_id item);
  if match state with Some state => starts_with "1|" state | None => false end
  then fail "LUNARBASE_LOG_ALREADY_ACTIVE" else mret tt.

(** The fields a lifecycle record does not take over from its source. *)
Definition own_field (name : string) : bool :=
  bool_decide (name ∈ ["schemaVersion"; "recordType"; "operation"; "recordId"; "logicalLogId";
                       "blockHash"; "lifecycleRevision"; "reorgId"]).

(** The loop [for index = 1, #source_fields, 2]. *)
Fixpoint copied_fields (fields : list string) : list string :=
  match fields with
  | name :: value :: fields =>
      if own_field name then copied_fields fields else name :: value :: copied_fields fields
  | _ => []
  end.

Definition lifecycle_fields (logical_log_id block_hash revision reorg_id : string) : list string :=
  ["logicalLogId"; logical_log_id; "blockHash"; block_hash; "lifecycleRevision"; revision;
   "reorgId"; reorg_id].

Definition revert_log (KEYS : list string) (reorg_id : string) (item : OldLog) : script unit :=
  source ← XRANGE_ID (nth1 KEYS 1) (ol_source_stream_id item);
  match source with
  | (_, source_fields) :: _ =>
      state ← HGET (nth1 KEYS 5) (ol_logical_log_id item);
      stored ← match state with Some state => stored_revision state | None => fail SCRIPT_ERROR end;
      let revision := lua_tostring (to_double (stored + 1)) in
      stream_id ← xadd KEYS "log" "reverted" (ol_record_id item)
        (lifecycle_fields (ol_logical_log_id item) (ol_block_hash item) revision reorg_id
         ++ copied_fields source_fields);
      _ ← HSET (nth1 KEYS 4) (ol_record_id item) stream_id;
      HSET (nth1 KEYS 5) (ol_logical_log_id item)
        (log_state_text "0" revision (ol_record_id item) stream_id (ol_block_hash item))
  | [] => fail SCRIPT_ERROR
  end.

Definition drop_old_block (KEYS : list string) (block : OldBlock) : script unit :=
  _ ← HDEL (nth1 KEYS 7) (ob_block_number block);
  DEL (nth1 KEYS (ob_key_index block)).

Definition put_new_head (KEYS : list string) (head : NewHead) : script unit :=
  new ← HSETNX (nth1 KEYS 6) (nh_block_hash head) (nh_header_json head);
  _ ← (if new : bool
       then _ ← HINCRBY (nth1 KEYS 12) "headers" "1";
            HINCRBY (nth1 KEYS 12) "headerBytes" (decimal (nh_header_bytes head))
       else mret tt);
  HSET (nth1 KEYS 7) (nh_block_number head) (nh_block_hash head).

Definition apply_new_event (KEYS : list string) (reorg_id : string) (item : NewEvent) : script unit :=
  state ← HGET (nth1 KEYS 5) (ne_logical_log_id item);
  number ← match state with
           | Some state => stored ← stored_revision state; mret (to_double (stored + 1))
           | None => mret 1
           end;
  let revision := lua_tostring number in
  stream_id ← xadd KEYS "log" "applied" (ne_record_id item)
    (lifecycle_fields (ne_logical_log_id item) (ne_block_hash item) revision reorg_id
     ++ ne_fields item);
  _ ← HSET (nth1 KEYS 4) (ne_record_id item) stream_id;
  _ ← HSET (nth1 KEYS 5) (ne_logical_log_id item)
        (log_state_text "1" revision (ne_record_id item) stream_id (ne_block_hash item));
  _ ← RPUSH (nth1 KEYS (ne_key_index item))
        (ne_cursor_order item +:+ "|" +:+ ne_logical_log_id item +:+ "|" +:+ ne_record_id item
         +:+ "|" +:+ stream_id);
  _ ← HINCRBY (nth1 KEYS 12) "logReferences" "1";
  HINCRBY (nth1 KEYS 12) "logReferenceBytes" (decimal (ne_journal_bytes item)).

Definition plan_counts (plan : Plan) : Z * Z :=
  (Z.of_nat (length (plan_old_logs plan)), Z.of_nat (length (plan_new_events plan))).

(** The checks before the first write. *)
Definition check_plan (KEYS : list string) (plan : Plan) : script unit :=
  open ← EXISTS (nth1 KEYS 10);
  if open : bool then fail "LUNARBASE_REORG_IN_PROGRESS" else
  head ← GET (nth1 KEYS 8);
  if not_text head (plan_old_tip_hash plan) then fail "LUNARBASE_REORG_STALE_HEAD" else
  finalized ← GET (nth1 KEYS 9);
  if not_text finalized (plan_finalized_hash plan) then fail "LUNARBASE_REORG_FINALIZED_MISMATCH" else
  begun ← HGET (nth1 KEYS 4) (plan_begin_record_id plan);
  if is_some begun then fail "LUNARBASE_PARTIAL_REORG_STATE" else
  _ ← each (check_old_block KEYS) (plan_old_blocks plan);
  _ ← each (check_old_log KEYS) (plan_old_logs plan);
  _ ← each (check_new_head KEYS) (plan_new_heads plan);
  each (check_new_event KEYS) (plan_new_events plan).

(** The writes of a checked plan. *)
Definition apply_plan (KEYS : list string) (payload : string) (plan : Plan) : script string :=
  _ ← SET (nth1 KEYS 10) payload;
  begin_id ← xadd KEYS "reorg" "begin" (plan_begin_record_id plan) (plan_control_fields plan);
  _ ← HSET (nth1 KEYS 4) (plan_begin_record_id plan) begin_id;
  _ ← each (revert_log KEYS (plan_reorg_id plan)) (plan_old_logs plan);
  _ ← each (drop_old_block KEYS) (plan_old_blocks plan);
  _ ← (if 0 <? plan_removed_reference_count plan
       then _ ← HINCRBY (nth1 KEYS 12) "logReferences"
                  ("-" +:+ decimal (plan_removed_reference_count plan));
            HINCRBY (nth1 KEYS 12) "logReferenceBytes"
                  ("-" +:+ decimal (plan_removed_reference_bytes plan))
       else mret tt);
  _ ← each (put_new_head KEYS) (plan_new_heads plan);
  _ ← each (apply_new_event KEYS (plan_reorg_id plan)) (plan_new_events plan);
  _ ← SET (nth1 KEYS 8) (plan_new_tip_hash plan);
  _ ← SET (nth1 KEYS 2) (plan_cursor_json plan);
  _ ← SET (nth1 KEYS 3) (plan_cursor_order plan);
  commit_id ← xadd KEYS "reorg" "commit" (plan_commit_record_id plan) (plan_control_fields plan);
  _ ← HSET (nth1 KEYS 4) (plan_commit_record_id plan) commit_id;
  _ ← DEL (nth1 KEYS 10);
  mret commit_id.

Definition CORRECTION_LUA (KEYS : list string) (payload : string)
    : script (string * Z * Z * Z) :=
  match cjson_plan payload with
  | None => fail SCRIPT_ERROR
  | Some plan =>
      fingerprint ← HGET (nth1 KEYS 11) "fingerprint";
      if not_text fingerprint (plan_fingerprint plan) then fail "LUNARBASE_METADATA_MISMATCH" else
      committed ← HGET (nth1 KEYS 4) (plan_commit_record_id plan);
      match committed with
      | Some committed => mret (committed, 0, (plan_counts plan).1, (plan_counts plan).2)
      | None =>
          _ ← check_plan KEYS plan;
          commit_id ← apply_plan KEYS payload plan;
          mret (commit_id, 1, (plan_counts plan).1, (plan_counts plan).2)
      end
  end.

(** ** Commands (redis_store/commands.rs) *)

(** [map_err] on a command of the connection *)
Definition with_error {E A} (into : string -> E) (m : script A) : method Db E A :=
  fun db => let '(r, db) := m db in (map_err into r, db).

Abbreviation store := (method Db StoreError).
Abbreviation redis m := (with_error redis_error m) (only parsing).

Definition journal_keys (keys : RedisKeys) (block_hash : string) : list string :=
  [rk_stream keys; rk_cursor keys; rk_cursor_order keys; rk_record_ids keys; rk_log_state keys;
   rk_headers keys; rk_canonical_height keys; rk_canonical_head keys; rk_finalized_head keys;
   rk_reorg_manifest keys; rk_metadata keys; rk_journal_usage keys; block_logs keys block_hash;
   rk_resume keys].

Definition flatten_fields (fields : list (string * string)) : list string :=
  fields ≫= fun '(name, value) => [name; value].

Definition append_event (keys : RedisKeys) (metadata : DeploymentMetadata) (event : DurableEvent)
    : store AppendOutcome :=
  '(stream_id, appended) ← redis (JOURNAL_LUA (journal_keys keys (de_block_hash event))
    ([dm_fingerprint metadata; "log"; record_id event; logical_log_id event; de_block_hash event;
      de_cursor_json event; de_cursor_order event; decimal (journal_reference_bytes event);
      String.substring 0 20 (de_cursor_order event)] ++ flatten_fields (de_fields event)));
  mret {| ao_stream_id := stream_id; ao_appended := appended =? 1 |}.

Definition append_head (keys : RedisKeys) (metadata : DeploymentMetadata) (head : DurableHead)
    : store AppendOutcome :=
  '(stream_id, appended) ← redis (JOURNAL_LUA (journal_keys keys (dh_block_hash head))
    [dm_fingerprint metadata; "head"; header_json head; dh_block_hash head; dh_parent_hash head;
     dh_commitment head; dh_cursor_json head; dh_cursor_order head;
     decimal (string_len (header_json head)); dh_block_number head]);
  mret {| ao_stream_id := stream_id; ao_appended := appended =? 1 |}.

Definition config_value (name : string) : store string :=
  values ← redis (CONFIG_GET name);
  lift (ok_or (to_ascii_lowercase <$> values !! 1%nat)
          (StoreDurability ("Redis CONFIG GET " +:+ name +:+ " returned no value"))).

Definition verify_durability : store unit :=
  appendonly ← config_value "appendonly";
  appendfsync ← config_value "appendfsync";
  eviction ← config_value "maxmemory-policy";
  if negb (String.eqb appendonly "yes") || negb (String.eqb appendfsync "always")
     || negb (String.eqb eviction "noeviction")
  then fail (StoreDurability
               "require appendonly=yes, appendfsync=always, and maxmemory-policy=noeviction")
  else mret tt.

(** A group that exists already is no error. *)
Definition create_group (keys : RedisKeys) (group : string) : store unit :=
  fun db => match XGROUP_CREATE (rk_stream keys) group db with
            | (Ok _, db) => (Ok tt, db)
            | (Err error, db) =>
                if contains "BUSYGROUP" error then (Ok tt, db) else (Err (redis_error error), db)
            end.

(** Loading the two scripts has no effect on the keyspace and is left out. *)
Definition initialize (keys : RedisKeys) (group : string) (metadata : DeploymentMetadata) : store unit :=
  _ ← redis PING;
  _ ← verify_durability;
  _ ← redis (INITIALIZE_METADATA_LUA [rk_metadata keys]
        [dm_fingerprint metadata; dm_schema_version metadata; dm_chain_id metadata;
         dm_core metadata; dm_delivery_mode metadata; ID_DOMAIN_VERSION]);
  create_group keys group.

(** ** Corrections (redis_store/correction.rs) *)

Record CorrectionLimits := {
  cl_max_events : Z;
  cl_max_bytes : Z
}.

Definition EVENT_LIMIT : StoreError := StoreCorrectionBudget "correction event limit exceeded".
Definition BYTE_LIMIT : StoreError := StoreCorrectionBudget "correction byte limit exceeded".

Definition remaining_old_event_budget (applied max_events : Z) : result StoreError Z :=
  let controls_and_applied := uint_saturating_add USIZE applied 2 in
  if max_events <? controls_and_applied then Err EVENT_LIMIT
  else Ok (max_events - controls_and_applied).

Definition validate_total_event_count (reverted applied max_events : Z) : result StoreError unit :=
  if max_events <? uint_saturating_add USIZE (uint_saturating_add USIZE reverted applied) 2
  then Err EVENT_LIMIT else Ok tt.

(** A pipeline: the commands in turn, their replies together. *)
Fixpoint pipeline {A} (commands : list (script A)) : script (list A) :=
  match commands with
  | [] => mret []
  | c :: commands => a ← c; rest ← pipeline commands; mret (a :: rest)
  end.

Definition load_references (keys : RedisKeys) (correction : ReorgCorrection) (max_references : Z)
    : store (list (list string)) :=
  match old_blocks correction with
  | [] => mret []
  | blocks =>
      counts ← redis (pipeline ((fun b => LLEN (block_logs keys (cb_block_hash b))) <$> blocks));
      if negb (Nat.eqb (length counts) (length blocks))
      then fail (StoreJournal "old branch reference count reply mismatch") else
      if max_references <? fold_left (uint_saturating_add USIZE) counts 0 then fail EVENT_LIMIT else
      redis (pipeline ((fun b => LRANGE_ALL (block_logs keys (cb_block_hash b))) <$> blocks))
  end.

(** [splitn(4, '|')]: a reference without three bars is malformed. *)
Definition split_reference (reference : string) : option (string * string * string * string) :=
  '(order, rest) ← cut_bar (chars reference);
  '(logical, rest) ← cut_bar rest;
  '(source_record, source_stream) ← cut_bar rest;
  Some (string_of order, string_of logical, string_of source_record, string_of source_stream).

Definition materialize_reference `{Keccak} (correction : ReorgCorrection) (block_hash : string)
    (acc : list OldLog * Z) (reference : string) : result StoreError (list OldLog * Z) :=
  let '(logs, bytes) := acc in
  '(order, logical, source_record, source_stream) ←
    ok_or (split_reference reference) (StoreJournal "malformed old branch log reference");
  let add := uint_saturating_add USIZE in
  Ok (logs ++ [{| ol_logical_log_id := logical; ol_source_record_id := source_record;
                  ol_source_stream_id := source_stream;
                  ol_record_id := correction_lifecycle_record_id correction logical "reverted";
                  ol_block_hash := block_hash |}],
      add (add (add (add (add bytes (string_len order)) (string_len logical))
        (string_len source_record)) 32) 3).

Definition materialize_old_logs `{Keccak} (correction : ReorgCorrection)
    (reference_lists : list (list string)) : result StoreError (list OldLog * Z) :=
  if negb (Nat.eqb (length reference_lists) (length (old_blocks correction)))
  then Err (StoreJournal "old branch reference reply count mismatch")
  else try_fold (fun acc '(block, references) =>
                   try_fold (materialize_reference correction (cb_block_hash block)) acc
                     (rev references))
         ([], 0) (rev (zip (old_blocks correction) reference_lists)).

(** The fields of a stream entry as the client's map, the last of a name kept. *)
Fixpoint field_map (fields : list string) : gmap string string :=
  match fields with
  | name :: value :: fields => field_map fields ∪ {[ name := value ]}
  | _ => ∅
  end.

Definition entry_bytes (bytes : Z) (entry : Entry) : Z :=
  let add := uint_saturating_add USIZE in
  fold_left (fun total '(name, value) => add (add total (string_len name)) (string_len value))
    (map_to_list (field_map entry.2)) (add bytes (string_len entry.1)).

Definition source_reply_bytes (bytes : Z) (x : list Entry * OldLog) : result StoreError Z :=
  match x with
  | ([], _) => Err (StoreJournal "old branch stream entry is missing")
  | (entry :: rest, expected) =>
      if negb (String.eqb entry.1 (ol_source_stream_id expected)) || negb (Nat.eqb (length rest) 0)
      then Err (StoreJournal "old branch stream entry identity mismatch")
      else Ok (entry_bytes bytes entry)
  end.

(** [logs.chunks(64)] *)
Fixpoint chunks (fuel : nat) {A} (n : nat) (l : list A) : list (list A) :=
  match fuel, l with
  | S fuel, _ :: _ => take n l :: chunks fuel n (drop n l)
  | _, _ => []
  end.

Fixpoint load_source_chunks (keys : RedisKeys) (bytes : Z) (l : list (list OldLog)) : store Z :=
  match l with
  | [] => mret bytes
  | chunk :: l =>
      replies ← redis (pipeline ((fun log => XRANGE_ID (rk_stream keys) (ol_source_stream_id log)) <$> chunk));
      if negb (Nat.eqb (length replies) (length chunk))
      then fail (StoreJournal "old branch stream reply count mismatch") else
      bytes ← lift (try_fold source_reply_bytes bytes (zip replies chunk));
      load_source_chunks keys bytes l
  end.

Definition load_source_bytes (keys : RedisKeys) (logs : list OldLog) : store Z :=
  load_source_chunks keys 0 (chunks (length logs) 64 logs).

Definition base_keys (keys : RedisKeys) : list string :=
  [rk_stream keys; rk_cursor keys; rk_cursor_order keys; rk_record_ids keys; rk_log_state keys;
   rk_headers keys; rk_canonical_height keys; rk_canonical_head keys; rk_finalized_head keys;
   rk_reorg_manifest keys; rk_metadata keys; rk_journal_usage keys; rk_resume keys].

Definition correction_required_hash (block : BlockRef) : result StoreError string :=
  ok_or (hex_bytes 32 <$> block_hash (br_cursor block)) (StoreJournal "correction block hash is absent").

Context `{Keccak} `{EventLayout} `{MemLayout} `{EnvelopeJson}.

Definition old_key_start : Z := 14.

(** The place of each replacement block's list among the script's keys. *)
Definition new_key_indices (correction : ReorgCorrection) : gmap string Z :=
  let new_key_start := old_key_start + Z.of_nat (length (old_blocks correction)) in
  fold_left (fun m '(i, head) => <[ dh_block_hash head := new_key_start + Z.of_nat i ]> m)
    (imap pair (new_heads correction)) ∅.

Definition plan_old_block (i : nat) (block : CorrectionBlock) : OldBlock :=
  {| ob_block_hash := cb_block_hash block; ob_block_number := cb_block_number block;
     ob_key_index := old_key_start + Z.of_nat i |}.

Definition plan_new_head (head : DurableHead) : NewHead :=
  {| nh_header_json := header_json head; nh_block_hash := dh_block_hash head;
     nh_block_number := dh_block_number head; nh_header_bytes := string_len (header_json head) |}.

Definition plan_new_event (indices : gmap string Z) (event : DurableEvent) : result StoreError NewEvent :=
  key_index ← ok_or (indices !! de_block_hash event)
                (StoreJournal "replacement log has no replacement header");
  Ok {| ne_record_id := record_id event; ne_logical_log_id := logical_log_id event;
        ne_block_hash := de_block_hash event; ne_cursor_order := de_cursor_order event;
        ne_journal_bytes := journal_reference_bytes event; ne_key_index := key_index;
        ne_fields := flatten_fields (de_fields event) |}.

Definition make_plan (metadata : DeploymentMetadata) (correction : ReorgCorrection)
    (old_logs : list OldLog) (reference_count reference_bytes : Z) : result StoreError Plan :=
  controls ← map_err StoreEvent (control_fields correction (Z.of_nat (length old_logs)));
  old_tip ← correction_required_hash (rc_old_tip correction);
  new_tip ← correction_required_hash (rc_new_tip correction);
  finalized ← correction_required_hash (rc_finalized correction);
  events ← collect_results (plan_new_event (new_key_indices correction)) (new_events correction);
  Ok {| plan_fingerprint := dm_fingerprint metadata;
        plan_reorg_id := reorg_id correction;
        plan_begin_record_id := begin_record_id correction;
        plan_commit_record_id := commit_record_id correction;
        plan_old_tip_hash := old_tip;
        plan_new_tip_hash := new_tip;
        plan_finalized_hash := finalized;
        plan_cursor_json := rc_cursor_json correction;
        plan_cursor_order := rc_cursor_order correction;
        plan_control_fields := flatten_fields controls;
        plan_old_blocks := imap plan_old_block (old_blocks correction);
        plan_old_logs := old_logs;
        plan_new_heads := plan_new_head <$> new_heads correction;
        plan_new_events := events;
        plan_removed_reference_count := reference_count;
        plan_removed_reference_bytes := reference_bytes |}.

Definition correction_keys (keys : RedisKeys) (correction : ReorgCorrection) : list string :=
  base_keys keys
  ++ ((fun block => block_logs keys (cb_block_hash block)) <$> old_blocks correction)
  ++ ((fun head => block_logs keys (dh_block_hash head)) <$> new_heads correction).

Definition correct (keys : RedisKeys) (metadata : DeploymentMetadata) (correction : ReorgCorrection)
    (limits : CorrectionLimits) : store CorrectionOutcome :=
  if cl_max_bytes limits <? reorg_retained_bytes correction then fail BYTE_LIMIT else
  remaining ← lift (remaining_old_event_budget (Z.of_nat (length (new_events correction)))
                      (cl_max_events limits));
  reference_lists ← load_references keys correction remaining;
  '(old_logs, reference_bytes) ← lift (materialize_old_logs correction reference_lists);
  _ ← lift (validate_total_event_count (Z.of_nat (length old_logs))
              (Z.of_nat (length (new_events correction))) (cl_max_events limits));
  source_bytes ← load_source_bytes keys old_logs;
  plan ← lift (make_plan metadata correction old_logs
                 (sum_of (Z.of_nat ∘ length <$> reference_lists)) reference_bytes);
  payload ← lift (map_err StoreJson (plan_to_vec plan));
  let add := uint_saturating_add USIZE in
  let retained := add (add (reorg_retained_bytes correction) source_bytes) (string_len payload) in
  if cl_max_bytes limits <? retained then fail BYTE_LIMIT else
  '(stream_id, appended, reverted, applied) ←
    redis (CORRECTION_LUA (correction_keys keys correction) payload);
  mret {| co_stream_id := stream_id; co_appended := appended =? 1;
          co_reverted := reverted; co_applied := applied |}.

(** ** Window reconstruction (redis_store/window.rs) *)

Definition load_header (keys : RedisKeys) (hash : string) : store string :=
  payload ← redis (HGET (rk_headers keys) hash);
  lift (ok_or payload (StoreJournal ("durable header " +:+ hash +:+ " is missing"))).

Definition hash_text (block : BlockRef) : option string := hex_bytes 32 <$> block_hash (br_cursor block).

(** [rposition(Option::is_none)], as the length of the suffix without a gap. *)
Fixpoint gapless_suffix (hashes : list (option string)) : list (option string) :=
  match hashes with
  | [] => []
  | h :: rest => if existsb (fun h => negb (is_some h)) (h :: rest) then gapless_suffix rest
                 else h :: rest
  end.

Definition connects (previous block : BlockRef) : bool :=
  (block_number (br_cursor block) =? uint_saturating_add 64 (block_number (br_cursor previous)) 1)
  && bool_decide (br_parent_hash block = block_hash (br_cursor previous)).

Definition load_block (chain_id max_bytes : Z) (acc : list BlockRef * Z)
    (x : Z * string * option string) : result StoreError (list BlockRef * Z) :=
  let '(blocks, charged) := acc in
  let '(height, hash, payload) := x in
  payload ← ok_or payload (StoreJournal ("canonical header " +:+ hash +:+ " is missing"));
  let add := uint_saturating_add USIZE in
  let charged := add (add charged (string_len payload)) size_of_BlockRef in
  if max_bytes <? charged
  then Err (StoreCorrectionBudget "durable fork window byte limit exceeded") else
  block ← map_err StoreEvent (decode_header payload chain_id);
  if negb (block_number (br_cursor block) =? height) || negb (bool_decide (hash_text block = Some hash))
  then Err (StoreJournal "canonical height/header identity mismatch") else
  if match last blocks with Some previous => negb (connects previous block) | None => false end
  then Err (StoreJournal "durable canonical headers are disconnected") else
  Ok (blocks ++ [block], charged).

Definition finalized_cursor (c : ChainCursor) : ChainCursor :=
  {| chain_id := chain_id c; block_number := block_number c;
     execution_block_number := execution_block_number c; block_hash := block_hash c;
     transaction_index := transaction_index c; log_index := log_index c;
     source_sequence := source_sequence c; source_sub_index := source_sub_index c;
     commitment := Finalized |}.

Definition load_finalized (keys : RedisKeys) (chain_id : Z) (hash : option string)
    : store (option BlockRef) :=
  match hash with
  | None => mret None
  | Some hash =>
      payload ← load_header keys hash;
      block ← lift (map_err StoreEvent (decode_header payload chain_id));
      if negb (bool_decide (hash_text block = Some hash))
      then fail (StoreJournal "finalized head key disagrees with header identity")
      else mret (Some {| br_cursor := finalized_cursor (br_cursor block);
                         br_parent_hash := br_parent_hash block |})
  end.

Definition load (keys : RedisKeys) (chain_id max_blocks max_bytes : Z) : store JournalWindow :=
  if (max_blocks =? 0) || (max_bytes =? 0)
  then fail (StoreJournal "invalid durable fork-window limits") else
  canonical_hash ← redis (GET (rk_canonical_head keys));
  finalized_hash ← redis (GET (rk_finalized_head keys));
  match canonical_hash with
  | None =>
      if is_some finalized_hash
      then fail (StoreJournal "finalized head exists without canonical head")
      else mret {| jw_blocks := []; jw_finalized := None |}
  | Some canonical_hash =>
      canonical_payload ← load_header keys canonical_hash;
      canonical ← lift (map_err StoreEvent (decode_header canonical_payload chain_id));
      if negb (bool_decide (hash_text canonical = Some canonical_hash))
      then fail (StoreJournal "canonical head key disagrees with header identity") else
      let tip := block_number (br_cursor canonical) in
      let first_height := uint_saturating_sub (uint_saturating_add 64 tip 1) max_blocks in
      hashes ← redis (pipeline ((fun height => HGET (rk_canonical_height keys) (decimal height))
                                  <$> seqZ first_height (tip - first_height + 1)));
      if negb (bool_decide (last hashes = Some (Some canonical_hash)))
      then fail (StoreJournal "canonical head is absent from the height index") else
      let suffix := gapless_suffix hashes in
      let suffix_start := Z.of_nat (length hashes - length suffix) in
      let retained := imap (fun i hash => (uint_saturating_add 64 first_height (suffix_start + Z.of_nat i),
                                            default "" hash)) suffix in
      payloads ← redis (pipeline ((fun '(_, hash) => HGET (rk_headers keys) hash) <$> retained));
      '(blocks, _) ← lift (try_fold (load_block chain_id max_bytes) ([], 0) (zip retained payloads));
      finalized ← load_finalized keys chain_id finalized_hash;
      mret {| jw_blocks := blocks; jw_finalized := finalized |}
  end.

(** ** The writer (redis_store.rs) *)

Inductive Operation :=
| Initialize
| LoadCursor
| LoadWindow (chain_id max_blocks max_bytes : Z)
| AppendEvent (event : DurableEvent)
| AppendHead (head : DurableHead)
| Correct (correction : ReorgCorrection) (limits : CorrectionLimits).

Inductive Response :=
| Initialized
| Cursor (payload : option string)
| Window (window : JournalWindow)
| Appended (outcome : AppendOutcome)
| Corrected (outcome : CorrectionOutcome).

(** The writer's own state, beside the database it talks to. *)
Record BlockingStore := {
  bs_connection : bool;
  bs_initialized : bool;
  bs_keys : RedisKeys;
  bs_metadata : DeploymentMetadata;
  bs_group : string
}.

Definition set_connected (c i : bool) (s : BlockingStore) : BlockingStore :=
  {| bs_connection := c; bs_initialized := i; bs_keys := bs_keys s; bs_metadata := bs_metadata s;
     bs_group := bs_group s |}.

Abbreviation writer := (method (BlockingStore * Db) StoreError).

Definition on_db {A} (m : store A) : writer A :=
  fun '(s, db) => let '(r, db) := m db in (r, (s, db)).

Definition connect : writer unit := fun '(s, db) =>
  if bs_connection s then (Ok tt, (s, db)) else
  match CONNECT db with
  | (Ok _, db) => (Ok tt, (set_connected true false s, db))
  | (Err error, db) => (Err (redis_error error), (s, db))
  end.

Definition ensure_initialized : writer unit := fun '(s, db) =>
  if bs_initialized s then (Ok tt, (s, db)) else
  match initialize (bs_keys s) (bs_group s) (bs_metadata s) db with
  | (Ok _, db) => (Ok tt, (set_connected (bs_connection s) true s, db))
  | (Err error, db) => (Err error, (s, db))
  end.

Definition perform (keys : RedisKeys) (metadata : DeploymentMetadata) (operation : Operation)
    : store Response :=
  match operation with
  | Initialize => mret Initialized
  | LoadCursor => payload ← redis (GET (rk_cursor keys)); mret (Cursor payload)
  | LoadWindow chain_id max_blocks max_bytes =>
      window ← load keys chain_id max_blocks max_bytes; mret (Window window)
  | AppendEvent event => outcome ← append_event keys metadata event; mret (Appended outcome)
  | AppendHead head => outcome ← append_head keys metadata head; mret (Appended outcome)
  | Correct correction limits =>
      outcome ← correct keys metadata correction limits; mret (Corrected outcome)
  end.

Definition perform_operation (operation : Operation) : writer Response :=
  fun '(s, db) => on_db (perform (bs_keys s) (bs_metadata s) operation) (s, db).

Definition execute (operation : Operation) : writer Response :=
  _ ← connect;
  _ ← ensure_initialized;
  perform_operation operation.

(** One turn of the loop of [run]: a transport failure drops the connection. *)
Definition handle (operation : Operation) : writer Response := fun st =>
  let '(result, (s, db)) := execute operation st in
  match result with
  | Err (StoreRedis _) => (result, (set_connected false false s, db))
  | _ => (result, (s, db))
  end.

Definition operation_retained_bytes (size_of_Operation : Z) (operation : Operation) : Z :=
  uint_saturating_add USIZE size_of_Operation
    match operation with
    | AppendEvent event => event_retained_bytes event
    | AppendHead head => head_retained_bytes head
    | Correct correction _ => reorg_retained_bytes correction
    | LoadWindow _ _ _ | Initialize | LoadCursor => 0
    end.

(** What a caller of the queue gets: the byte budget is checked before the
    operation is queued, and the writer answers the queue in order. *)
Definition request (size_of_Operation byte_capacity : Z) (operation : Operation) : writer Response :=
  if byte_capacity <? operation_retained_bytes size_of_Operation operation
  then fail StoreQueueByteLimit
  else handle operation.

Definition load_cursor (size_of_Operation byte_capacity chain_id : Z) (core : Address)
    : writer (option ChainCursor) :=
  response ← request size_of_Operation byte_capacity LoadCursor;
  match response with
  | Cursor None => mret None
  | Cursor (Some payload) =>
      cursor ← lift (map_err StoreEvent (decode_cursor payload chain_id core)); mret (Some cursor)
  | _ => fail StoreChannelClosed
  end.
End Store.
