(* ===== verification/OutboxFacts.v ===== *)
(** * Correctness of the durable store: the keyspace and the append path

    Scripts are run symbolically over the keyspace; the journal's part of it is a
    record; a consumer that follows the documented contract folds the stream, and
    what it computes is what the store keeps. *)

From S2P Require Import Prelude Text Slot0 State Model Correction Abi Fork.
From S2P Require Import DurableEvent Redis Outbox.

(** ** Running a script *)

Section Wp.
Context {Db : Type} `{RedisLaws Db}.

(** From every database over [ks], a success satisfies [Q] and an error [E]. *)
Definition wp {F A} (m : method Db F A) (Q : A -> Keyspace -> Prop) (E : F -> Keyspace -> Prop)
    (ks : Keyspace) : Prop :=
  forall db, keyspace db = ks ->
  match m db with
  | (Ok a, db') => Q a (keyspace db')
  | (Err e, db') => E e (keyspace db')
  end.

Section Rules.
Context {F A B : Type} (E : F -> Keyspace -> Prop).

Lemma wp_bind (m : method Db F A) (f : A -> method Db F B) Q ks :
  wp m (fun a => wp (f a) Q E) E ks -> wp (m ≫= f) Q E ks.
Proof.
  intros Hm db Hdb. specialize (Hm db Hdb). unfold mbind, method_bind.
  destruct (m db) as [[a|e] db']; [by apply Hm|done].
Qed.

Lemma wp_ret (a : A) Q ks : Q a ks -> wp (mret a) Q E ks.
Proof. by intros HQ db <-. Qed.

Lemma wp_fail (e : F) (Q : A -> Keyspace -> Prop) ks : E e ks -> wp (fail e) Q E ks.
Proof. by intros HE db <-. Qed.

Lemma wp_lift (r : result F A) Q ks :
  match r with Ok a => Q a ks | Err e => E e ks end -> wp (lift r) Q E ks.
Proof. intros Hr db <-. unfold lift. by destruct r. Qed.

Lemma wp_impl (m : method Db F A) (Q Q' : A -> Keyspace -> Prop) (E' : F -> Keyspace -> Prop) ks :
  wp m Q E ks -> (forall a ks', Q a ks' -> Q' a ks') -> (forall e ks', E e ks' -> E' e ks') ->
  wp m Q' E' ks.
Proof.
  intros Hm HQ HE db Hdb. specialize (Hm db Hdb). destruct (m db) as [[a|e] db']; auto.
Qed.
End Rules.

Lemma wp_does {A} (c : method Db string A) (R : Keyspace -> A -> Keyspace -> Prop) Q
    (E : string -> Keyspace -> Prop) ks :
  does refusal keyspace c R ->
  (forall a ks', R ks a ks' -> Q a ks') -> (forall e, refusal e -> E e ks) -> wp c Q E ks.
Proof.
  intros Hc HQ HE db <-. specialize (Hc db). destruct (c db) as [[a|e] db']; [by apply HQ|].
  destruct Hc as [He ->]. by apply HE.
Qed.

Lemma wp_reads {A} (c : method Db string A) f Q (E : string -> Keyspace -> Prop) ks :
  does refusal keyspace c (reads f) ->
  Q (f ks) ks -> (forall e, refusal e -> E e ks) -> wp c Q E ks.
Proof. intros Hc HQ HE. eapply wp_does; [exact Hc| |done]. by intros a ks' [-> ->]. Qed.

Lemma wp_writes (c : method Db string unit) f Q (E : string -> Keyspace -> Prop) ks :
  does refusal keyspace c (writes f) ->
  Q tt (f ks) -> (forall e, refusal e -> E e ks) -> wp c Q E ks.
Proof. intros Hc HQ HE. eapply wp_does; [exact Hc| |done]. by intros [] ks' ->. Qed.

(** The loop of a list of steps, by an invariant of the part done. *)
Lemma wp_each_from {A} (body : A -> method Db string unit) (E : string -> Keyspace -> Prop)
    (I : list A -> list A -> Keyspace -> Prop) l done todo ks :
  (forall done x todo ks, done ++ x :: todo = l -> I done (x :: todo) ks ->
     wp (body x) (fun _ => I (done ++ [x]) todo) E ks) ->
  done ++ todo = l -> I done todo ks -> wp (each body todo) (fun _ => I l []) E ks.
Proof.
  intros Hstep. revert ks done. induction todo as [|x todo IH]; intros ks done Hl HI; cbn [each].
  - apply wp_ret. by rewrite app_nil_r in Hl; subst.
  - apply wp_bind. eapply wp_impl; [by apply Hstep| |done].
    intros [] ks' HI'. apply (IH ks' (done ++ [x])); [|done]. by rewrite <-app_assoc.
Qed.

Lemma wp_each {A} (body : A -> method Db string unit) (E : string -> Keyspace -> Prop)
    (I : list A -> list A -> Keyspace -> Prop) l ks :
  (forall done x todo ks, done ++ x :: todo = l -> I done (x :: todo) ks ->
     wp (body x) (fun _ => I (done ++ [x]) todo) E ks) ->
  I [] l ks -> wp (each body l) (fun _ => I l []) E ks.
Proof. intros Hstep HI. by apply (wp_each_from body E I l []). Qed.
End Wp.

(** ** The keys of a deployment are distinct *)

Definition fixed_keys (keys : RedisKeys) : list string :=
  [rk_stream keys; rk_cursor keys; rk_cursor_order keys; rk_resume keys; rk_record_ids keys;
   rk_log_state keys; rk_headers keys; rk_canonical_height keys; rk_canonical_head keys;
   rk_finalized_head keys; rk_reorg_manifest keys; rk_journal_usage keys; rk_metadata keys].

Record keys_ok (keys : RedisKeys) : Prop := {
  keys_distinct : NoDup (fixed_keys keys);
  block_keys_apart h : block_logs keys h ∉ fixed_keys keys;
  block_keys_inj h h' : block_logs keys h = block_logs keys h' -> h = h'
}.

Lemma chars_app (a b : string) : chars (a +:+ b) = chars a ++ chars b.
Proof. induction a as [|c a IH]; [done|]. exact (f_equal (cons c) IH). Qed.

Lemma append_assoc (a b c : string) : (a +:+ b) +:+ c = a +:+ (b +:+ c).
Proof. apply chars_inj. by rewrite !chars_app, app_assoc. Qed.

Lemma append_inj_r (a b c : string) : a +:+ c = b +:+ c -> a = b.
Proof.
  intros E. apply chars_inj. apply (f_equal chars) in E. rewrite !chars_app in E.
  by apply app_inv_tail in E.
Qed.

(** C: The store's keys never collide: the thirteen keys of a deployment and the
    list of every block are pairwise distinct texts. *)
Theorem redis_keys_distinct namespace chain core : keys_ok (redis_keys_new namespace chain core).
Proof.
  unfold redis_keys_new.
  set (prefix := namespace +:+ _). split; unfold fixed_keys, block_logs; cbn [
    rk_stream rk_cursor rk_cursor_order rk_resume rk_record_ids rk_log_state rk_headers
    rk_canonical_height rk_canonical_head rk_finalized_head rk_reorg_manifest rk_journal_usage
    rk_metadata rk_block_prefix]; clearbody prefix.
  - change (NoDup (String.append prefix <$>
      [":stream"; ":cursor"; ":cursor-order"; ":resume"; ":record-ids"; ":log-state"; ":headers";
       ":canonical-height"; ":canonical-head"; ":finalized-head"; ":reorg-manifest";
       ":journal-usage"; ":metadata"])).
    apply (NoDup_fmap_2 (String.append prefix)). apply (bool_decide_unpack _). vm_compute. exact I.
  - intros h Hin. rewrite append_assoc in Hin.
    change (prefix +:+ (":block:" +:+ (h +:+ ":logs")) ∈ String.append prefix <$>
      [":stream"; ":cursor"; ":cursor-order"; ":resume"; ":record-ids"; ":log-state"; ":headers";
       ":canonical-height"; ":canonical-head"; ":finalized-head"; ":reorg-manifest";
       ":journal-usage"; ":metadata"]) in Hin.
    apply list_elem_of_fmap in Hin as (k & Ek & Hin). apply (inj (String.append prefix)) in Ek.
    repeat (apply elem_of_cons in Hin as [->|Hin]; [discriminate Ek|]).
    by apply not_elem_of_nil in Hin.
  - intros h h' E. rewrite !append_assoc in E. apply (inj (String.append prefix)) in E.
    apply (inj (String.append ":block:")) in E. by apply append_inj_r in E.
Qed.

(** ** The journal's part of the keyspace *)

Record Journal := {
  j_stream : list Entry;
  j_cursor : option string;
  j_cursor_order : option string;
  j_records : gmap string string;
  j_states : gmap string string;
  j_headers : gmap string string;
  j_heights : gmap string string;
  j_head : option string;
  j_finalized : option string;
  j_manifest : bool;
  j_metadata : gmap string string
}.

Definition set_stream (x : list Entry) (j : Journal) : Journal :=
  {| j_stream := x; j_cursor := j_cursor j; j_cursor_order := j_cursor_order j; j_records :=
     j_records j; j_states := j_states j; j_headers := j_headers j; j_heights := j_heights j;
     j_head := j_head j; j_finalized := j_finalized j; j_manifest := j_manifest j; j_metadata :=
     j_metadata j |}.
Definition set_cursor (x : option string) (j : Journal) : Journal :=
  {| j_stream := j_stream j; j_cursor := x; j_cursor_order := j_cursor_order j; j_records :=
     j_records j; j_states := j_states j; j_headers := j_headers j; j_heights := j_heights j;
     j_head := j_head j; j_finalized := j_finalized j; j_manifest := j_manifest j; j_metadata :=
     j_metadata j |}.
Definition set_cursor_order (x : option string) (j : Journal) : Journal :=
  {| j_stream := j_stream j; j_cursor := j_cursor j; j_cursor_order := x; j_records := j_records
     j; j_states := j_states j; j_headers := j_headers j; j_heights := j_heights j; j_head :=
     j_head j; j_finalized := j_finalized j; j_manifest := j_manifest j; j_metadata := j_metadata
     j |}.
Definition set_records (x : gmap string string) (j : Journal) : Journal :=
  {| j_stream := j_stream j; j_cursor := j_cursor j; j_cursor_order := j_cursor_order j; j_records
     := x; j_states := j_states j; j_headers := j_headers j; j_heights := j_heights j; j_head :=
     j_head j; j_finalized := j_finalized j; j_manifest := j_manifest j; j_metadata := j_metadata
     j |}.
Definition set_states (x : gmap string string) (j : Journal) : Journal :=
  {| j_stream := j_stream j; j_cursor := j_cursor j; j_cursor_order := j_cursor_order j; j_records
     := j_records j; j_states := x; j_headers := j_headers j; j_heights := j_heights j; j_head :=
     j_head j; j_finalized := j_finalized j; j_manifest := j_manifest j; j_metadata := j_metadata
     j |}.
Definition set_headers (x : gmap string string) (j : Journal) : Journal :=
  {| j_stream := j_stream j; j_cursor := j_cursor j; j_cursor_order := j_cursor_order j; j_records
     := j_records j; j_states := j_states j; j_headers := x; j_heights := j_heights j; j_head :=
     j_head j; j_finalized := j_finalized j; j_manifest := j_manifest j; j_metadata := j_metadata
     j |}.
Definition set_heights (x : gmap string string) (j : Journal) : Journal :=
  {| j_stream := j_stream j; j_cursor := j_cursor j; j_cursor_order := j_cursor_order j; j_records
     := j_records j; j_states := j_states j; j_headers := j_headers j; j_heights := x; j_head :=
     j_head j; j_finalized := j_finalized j; j_manifest := j_manifest j; j_metadata := j_metadata
     j |}.
Definition set_head (x : option string) (j : Journal) : Journal :=
  {| j_stream := j_stream j; j_cursor := j_cursor j; j_cursor_order := j_cursor_order j; j_records
     := j_records j; j_states := j_states j; j_headers := j_headers j; j_heights := j_heights j;
     j_head := x; j_finalized := j_finalized j; j_manifest := j_manifest j; j_metadata :=
     j_metadata j |}.
Definition set_finalized (x : option string) (j : Journal) : Journal :=
  {| j_stream := j_stream j; j_cursor := j_cursor j; j_cursor_order := j_cursor_order j; j_records
     := j_records j; j_states := j_states j; j_headers := j_headers j; j_heights := j_heights j;
     j_head := j_head j; j_finalized := x; j_manifest := j_manifest j; j_metadata := j_metadata j
     |}.
Definition set_manifest (x : bool) (j : Journal) : Journal :=
  {| j_stream := j_stream j; j_cursor := j_cursor j; j_cursor_order := j_cursor_order j; j_records
     := j_records j; j_states := j_states j; j_headers := j_headers j; j_heights := j_heights j;
     j_head := j_head j; j_finalized := j_finalized j; j_manifest := x; j_metadata := j_metadata j
     |}.

Section JournalView.
Context (keys : RedisKeys) (Hkeys : keys_ok keys).

Definition journal (ks : Keyspace) : Journal :=
  {| j_stream := stream_at (rk_stream keys) ks;
     j_cursor := strings ks !! rk_cursor keys;
     j_cursor_order := strings ks !! rk_cursor_order keys;
     j_records := hash (rk_record_ids keys) ks;
     j_states := hash (rk_log_state keys) ks;
     j_headers := hash (rk_headers keys) ks;
     j_heights := hash (rk_canonical_height keys) ks;
     j_head := strings ks !! rk_canonical_head keys;
     j_finalized := strings ks !! rk_finalized_head keys;
     j_manifest := key_exists (rk_reorg_manifest keys) ks;
     j_metadata := hash (rk_metadata keys) ks |}.

Definition block_refs (ks : Keyspace) (h : string) : list string := list_at (block_logs keys h) ks.

(** Every two keys of the deployment, apart. *)
Ltac all_apart :=
  pose proof (keys_distinct keys Hkeys) as Hd; unfold fixed_keys in Hd;
  rewrite !NoDup_cons in Hd; rewrite !not_elem_of_cons in Hd; destruct_and? Hd.

Lemma hash_put_hash k k' h ks : hash k' (put_hash k h ks) = if decide (k = k') then h else hash k' ks.
Proof.
  unfold hash. cbn. destruct (decide (k = k')) as [->|?];
    [by rewrite lookup_insert_eq|by rewrite lookup_insert_ne].
Qed.

Lemma exists_put_hash k k' h ks : k <> k' -> key_exists k' (put_hash k h ks) = key_exists k' ks.
Proof. intros Hne. unfold key_exists. cbn. by rewrite lookup_insert_ne. Qed.

Lemma exists_put_string k k' v ks :
  key_exists k' (put_string k v ks) = if decide (k = k') then true else key_exists k' ks.
Proof.
  unfold key_exists. cbn. destruct (decide (k = k')) as [->|?]; [by rewrite lookup_insert_eq|].
  by rewrite lookup_insert_ne, !lookup_delete_ne.
Qed.

Lemma string_put_string k k' v ks :
  strings (put_string k v ks) !! k' = if decide (k = k') then Some v else strings ks !! k'.
Proof.
  cbn. destruct (decide (k = k')) as [->|?]; [by rewrite lookup_insert_eq|by rewrite lookup_insert_ne].
Qed.

Lemma hash_put_string k k' v ks : k <> k' -> hash k' (put_string k v ks) = hash k' ks.
Proof. intros Hne. unfold hash. cbn. by rewrite lookup_delete_ne. Qed.

Lemma stream_put_string k k' v ks : k <> k' -> stream_at k' (put_string k v ks) = stream_at k' ks.
Proof. intros Hne. unfold stream_at. cbn. by rewrite lookup_delete_ne. Qed.

(** Each part of the view of an update at another key is what it was. *)
Ltac view :=
  unfold journal; cbn [strings put_hash];
  all_apart;
  repeat match goal with
  | |- context [decide (?a = ?b)] => destruct (decide (a = b)); [congruence|]
  | |- context [decide (?a = ?a)] => rewrite (decide_True_pi eq_refl)
  end;
  rewrite ?hash_put_hash, ?string_put_string, ?exists_put_string.

Lemma journal_put_records h ks :
  journal (put_hash (rk_record_ids keys) h ks) = set_records h (journal ks).
Proof.
  unfold journal, set_records. all_apart. rewrite !hash_put_hash, !exists_put_hash by done.
  cbn. by repeat (case_decide; [try congruence|try congruence]).
Qed.
End JournalView.
